(* ===== verification/_CoqProject ===== *)
-Q . S2P
Prelude.v
CppString.v
Constants.v
Temporal.v
Common.v
Queues.v
ExecutionManager.v
ExecutionManagerSpec.v
EMServer.v
EMSystem.v
EMInvariant.v
EMRefinement.v
EMProgress.v
EMClient.v
EMUnwinding.v
EMExamples.v
Json.v
JsonLexer.v
JsonParser.v
JsonDump.v
JsonNumbers.v
JsonUtf8.v
JsonRoundTrip.v
JsonParsed.v
JsonGrammar.v
JsonTokens.v
JsonEscapes.v
JsonRecognizer.v
JsonPretty.v
Manifests.v
ManifestSchema.v
ManifestReader.v
Kvs.v
ApplicationHandler.v
MachineStateClient.v
TransitionProtocol.v
SocketServer.v
MachineStateManager.v
BaseServer.v
ServerThreads.v
Sockets.v
AdaptiveApp.v
Clients.v
ComponentProtocol.v
Programs.v
ProgramFailures.v
Lives.v
PlatformSystem.v
PlatformProgress.v
Platform.v
EMMain.v
Installation.v
PlatformCrash.v
PlatformExamples.v
