(* ===== verification/Prelude.v ===== *)
(** * The Execution Manager and its applications: a verification development

    The repository implements a part of the AUTOSAR Adaptive platform in C++14. Three kinds
    of processes talk over Unix sockets.

    - The _Execution Manager_ ([applications/ExecutionManager]) owns the machine state. For
      each state the manifests say which processes run; a transition kills the others,
      starts the missing ones, tells the components, waits until everybody has reported
      and confirms the transition to the Machine State Manager.
    - The _Machine State Manager_ ([applications/MachineStateManager]) takes requested
      states from a socket, saves them in a key-value storage ([per]) and asks the
      Execution Manager for them through [common/machine_state_client].
    - The _adaptive applications_ ([applications/AdaptiveApplication1] and [2]) report their
      states and, as components, go on or suspend when the Execution Manager says so,
      which they learn by polling or from messages ([common/base_client],
      [common/base_server], [common/component]).

    All of them read JSON with the vendored [tools/json/json.hpp].

    ** How code is modelled

    A C++ computation is a function [cpp S E A]: from a state [S] to the calls it makes on
    other objects (of type [E], in order), the state afterwards and an [outcome]: a value
    ([Ret]) or the reason why there is none ([Stop]): an exception, blocking for ever,
    [std::terminate], or undefined behaviour. The class of a component is a [Record] with
    its members, each member function a [Definition] with its name. What other
    processes, the operating system and libraries that are not in the repository answer
    is an argument; assumptions about it are hypotheses of the theorems.

    ** Files

    Shared: [Prelude] (this file: outcomes, the monad, its laws, [Proper] instances,
    hints, generic lemmas), [CppString] ([std::string] with 64-bit positions and [npos]),
    [Constants] ([constants.hpp] and the enumerations of [gen/]), [Common] ([common.cpp]:
    service names; [logger.cpp]: the name of the application), [Queues] ([safe_queue.cpp],
    [ThreadQueue] of [common.cpp], both against the interface [Fifo]), [Temporal] (infinite
    runs of a labelled transition system, weak fairness, leads-to, and the rules by which
    liveness is proved).

    The Execution Manager:
    - [ExecutionManager]: [execution_manager.cpp], every member function;
      [setMachineState] in phases ([sms_check], [killProcessesForState],
      [startApplicationsForState], [changeComponentsState], [sms_log], [wait],
      [sms_finish]), with requests of other threads between the turns of [wait].
    - [ExecutionManagerSpec]: results, calls and completion of [setMachineState], the
      component protocol, well-formedness.
    - [EMServer]: [msm_handler.cpp] and [execution_manager_server.cpp].
    - [EMSystem]: the process as a transition system. A step is one request served by
      the RPC thread or one phase of the worker thread. The source has no lock around the
      Execution Manager, so interleavings finer than phases are data races, which have no
      defined behaviour and are not modelled. The calls to the client return.
    - [EMClient]: [execution_manager_client.cpp] with the thread of [confirm], which the next
      confirmation joins: the same process with calls that wait and throw. It has the same
      reachable states of the Execution Manager ([process_sys], [sys_process]), so what is
      proved of every reachable state of [EMSystem] holds of it; that transitions end does
      not.
    - [EMInvariant], [EMRefinement], [EMProgress], [EMExamples]: the invariant, an
      abstract controller and the simulation of the process by it, progress and the
      equivalence of the sequential and the interleaved [setMachineState], and concrete
      executions.
    - [ApplicationHandler]: [application_handler.cpp].
    - [EMMain]: [em_main.cpp], from the files of the manifests to the process that
      serves; [EMUnwinding]: its end when it cannot listen; [Installation]: the start on the
      four manifests of the repository.

    Storage and manifests:
    - [Json], [JsonLexer], [JsonParser], [JsonDump]: the values, lexer, parser and
      serializer of [json.hpp]; [JsonNumbers], [JsonUtf8], [JsonRoundTrip]: integers,
      strings and whole texts are read back; [JsonParsed]: what the parser returns is well
      formed and can be written. The interface [Text], with its laws
      [TextLaws], is what the clients use; [JsonRoundTrip] provides the instance.
    - [JsonGrammar]: the grammar of RFC 8259 as inductive relations that know nothing of
      the code; [JsonTokens], [JsonRecognizer]: the lexer and the parser against it;
      [JsonPretty]: the serializer with indentation, and [operator<<] of any width;
      [JsonEscapes]: strings with every [ensure_ascii] and error handler.
    - [Manifests], [ManifestReader]: [manifests.cpp], [manifest_reader.cpp];
      [ManifestSchema]: the types of the manifests, which the conversions check.
    - [Kvs]: [per/src], as a refinement of a finite map.

    The other processes:
    - [MachineStateClient]: [machine_state_client.cpp], with [std::promise].
    - [SocketServer], [MachineStateManager]: [socket_server.cpp];
      [machine_state_manager.cpp], [msm_state_machine.cpp] and [msm_main.cpp].
    - [BaseServer]: what [client.cpp], [connection.cpp], [server.cpp] and
      [ExecutionManagerClient::SetComponentState] compute; [Sockets]: which calls they
      make, through an interface with the laws of descriptors, and the lives of a client
      and of a component's server; [ServerThreads]: the accepting and the receiving thread
      of [server.cpp], its owner and the peers, step by step.
    - [AdaptiveApp]: [adaptive_app.cpp], [state.cpp], [mean_calculator.cpp] and the loop
      of [aa_main.cpp].
    - [Clients]: [component_client.cpp], [application_state_client.cpp] and the wrappers
      of the clients, against an interface for requests ([RpcClient]) with two
      instances: the Execution Manager's handlers answer at once, or the requests
      go over a connection that can fail.
    - Compositions: [TransitionProtocol], the process of the Execution Manager with the
      client of the Machine State Manager and the confirmations on their way between
      them ([ExecutionManagerClient::confirm]); [ComponentProtocol], components that
      poll with the Execution Manager's handlers; [Programs], the mains of the three
      applications as whole runs; [ProgramFailures], the same when the connection fails;
      [Platform], the Machine State Manager's requests with
      the Execution Manager's check.
    - The platform: [Lives], the contract of a process's reports, which the programs keep;
      [PlatformSystem], the process of the Execution Manager with the processes that it
      starts and stops: commands for the service manager ([ServiceManager], with its
      documented laws [ServiceLaws]) that are carried out later, in any order, or get
      lost, processes that report, and requests from anybody; [PlatformProgress], fair runs
      of it; [PlatformCrash], the same with processes that crash; [PlatformExamples],
      the shipped platform at work.

    ** What the theorems show

    - Transitions: [setMachineState] refuses, fails or succeeds under exactly the stated
      conditions and makes exactly the stated calls; when the processes do as told it
      completes within two turns of the waiting loop. In the interleaved system the
      transitions run in the order in which they were queued, the state that is current
      is the last confirmed one, a confirmation (outside Running and Suspend) is only
      sent after the right processes have been seen, and the process implements the
      abstract controller.
    - The platform: the processes that the Execution Manager believes active are those that
      are up, whatever is lost or comes in between; on fair runs without lost commands a
      transition that begins when nothing is under way ends, with exactly the allowed
      processes running. The condition is needed: after a transition that was confirmed
      early (Running and Suspend are, once the components have confirmed), the next one
      can wait for ever for a process that came up too late to be stopped. A process
      that crashes counts as active for ever: it is never started again, and the
      transitions that it would have to end for never complete. In these runs the calls to
      the client return; once the State Manager leaves a confirmation without an answer no
      later transition is completed, and where the worker waits is listed exactly.
    - The program: the Execution Manager serves exactly when every installed application
      and the machine have a manifest of the right type and its address is free, and may
      never end when only the address is taken; on the shipped manifests every transition
      completes when the processes do as told, but for the way back to the start-up.
    - Components: the confirmations are complete exactly when every pending component
      has answered; a round of polling completes them; an application follows every
      sequence of replies or messages; a program that polls registers, follows,
      confirms and leaves, over its whole run; when its connection fails it is
      terminated at that request, and the Execution Manager goes on counting it.
    - Requests: only the registered process is served; the calls of the Machine State
      Manager's whole program are given in closed form; after a restart it resumes the
      last request; what it asks for is declared; the answers it gets are those of its
      requests, but late by the confirmation of the start-up.
    - Data: the parser accepts exactly the texts of the grammar, with exactly their
      values, and ends on every input; the conversions of the manifests accept exactly
      the values of their types; texts of JSON values, integers, strings, manifests and
      the storage are read back, and so is what is written with an indentation of
      white space, up to a width of 512, and every string, valid or not, with each of the serializer's
      options; the storage is a map.
    - A component's server: the mutex makes a pass over the connections one operation; a
      silent peer blocks the server for good, and a peer that closes leads it to
      undefined behaviour.
    - Limits of the program that the models show: the client after a time-out or a
      refused request, the confirmation that comes before any request, paths that
      differ, closed connections, descriptors that stay open, servers whose destructor
      waits for ever, a storage that cannot be written, reports out of range, one bad
      manifest.

    ** Fuel and bounds

    [wait] takes as many turns as its list of interference has; [EMProgress] gives the
    number needed. The parser has two turns for every byte of its text (a turn reads a
    token or follows one that did),
    the UTF-8 and number loops are structural on their text ([dump_loop], which can read a
    byte a second time, has two turns for each), and [dump_integer] has
    fuel for more than twenty digits, which a 64-bit number never exceeds. The loop of
    [MachineStateManager.Run] has two turns more than states arrive. In each case a
    theorem shows that the fuel is enough ([parse_total], [integers_read_back],
    [msm_main_calls]). Runs of the platform and of the server's threads are infinite and
    need no fuel; their endings are proved from fairness, by the number of steps that a
    process or a thread has left. Integers of the storage are kept in 64 bits, reports in 16, paths
    within [sun_path].

    ** Not modelled

    Doubles are opaque values, read, written and added by parameters. Binary formats,
    pointers, patches and iterators of [json.hpp]; the RPC library, its
    event loops and the threads of its servers: a request is answered in one step, or
    fails; signals, except for the number of turns
    until they come, and sleeping; logger output; the classes that
    only make one system call ([os_interface.cpp], [socket_interface.cpp]), whose
    results are inputs. In [Programs] the messages that the server of [aa_main.cpp] has
    received before each turn are an argument; the server is in [Sockets] and
    [ServerThreads]. A platform whose Machine State Manager has to end for a state other
    than Shuttingdown: its main looks at the signal only after Shuttingdown has been
    requested, while every process of [PlatformSystem] looks at it once it is up (with
    the manifests of the repository there is no such state). *)

From stdpp Require Import base list gmap strings sorting.

(** ** Outcomes of a C++ computation

    A C++ function either returns, or it does not: an exception leaves it, it
    blocks for ever on an input that does not come, an exception leaves a
    [noexcept] function (the runtime calls [std::terminate]), or it performs an
    operation whose behaviour the language leaves undefined. *)

Inductive future_errc :=
  | future_already_retrieved
  | promise_already_satisfied
  | no_state.

(** [kj::Exception::Type], of the exceptions of the RPC library. *)
Inductive kj_exception := FAILED | OVERLOADED | DISCONNECTED | UNIMPLEMENTED.

Inductive exn :=
  | RuntimeError (what : string)
  | OutOfRange
  | JsonTypeError (id : Z)
  | JsonOutOfRange (id : Z)
  | JsonParseError (id : Z)
  | FutureError (code : future_errc)
  | KjException (type : kj_exception).

Inductive stop :=
  | Thrown (e : exn)
  | Blocked
  | Terminated
  | Undefined.

Inductive outcome (A : Type) :=
  | Ret (a : A)
  | Stop (w : stop).
Arguments Ret {A} a.
Arguments Stop {A} w.

#[export] Instance future_errc_eq_dec : EqDecision future_errc.
Proof. solve_decision. Defined.
#[export] Instance kj_exception_eq_dec : EqDecision kj_exception.
Proof. solve_decision. Defined.
#[export] Instance exn_eq_dec : EqDecision exn.
Proof. solve_decision. Defined.
#[export] Instance stop_eq_dec : EqDecision stop.
Proof. solve_decision. Defined.
#[export] Instance outcome_eq_dec `{EqDecision A} : EqDecision (outcome A).
Proof. solve_decision. Defined.

(** Computations that only return or stop: the error monad. *)
#[export] Instance outcome_ret : MRet outcome := λ A a, Ret a.
#[export] Instance outcome_bind : MBind outcome := λ A B f m,
  match m with Ret a => f a | Stop w => Stop w end.
#[export] Instance outcome_fmap : FMap outcome := λ A B f m,
  match m with Ret a => Ret (f a) | Stop w => Stop w end.

(** An exception that reaches the border of a [noexcept] function, or that [main] does
    not catch, ends the program. *)
Definition noexcept {A} (o : outcome A) : outcome A :=
  match o with Stop (Thrown _) => Stop Terminated | _ => o end.

(** [traverse f l] applies [f] to the elements of [l] from left to right and
    stops at the first one that does not return. *)
Fixpoint traverse {A B} (f : A → outcome B) (l : list A) : outcome (list B) :=
  match l with
  | [] => Ret []
  | x :: l => y ← f x; ys ← traverse f l; Ret (y :: ys)
  end.

(** ** Stateful computations with observable effects

    [cpp S E A] is a computation on a program state [S] that calls out to the
    rest of the world (the calls are values of [E], recorded in order) and has
    an outcome in [A]. *)

Definition cpp (S E A : Type) : Type := S → (list E * S) * outcome A.

#[export] Instance cpp_ret {S E} : MRet (cpp S E) := λ A a s, ([], s, Ret a).
#[export] Instance cpp_bind {S E} : MBind (cpp S E) := λ A B f m s,
  match m s with
  | (tr, s', Ret a) =>
      match f a s' with (tr', s'', o) => (tr ++ tr', s'', o) end
  | (tr, s', Stop w) => (tr, s', Stop w)
  end.

Definition get {S E} : cpp S E S := λ s, ([], s, Ret s).
Definition gets {S E A} (f : S → A) : cpp S E A := λ s, ([], s, Ret (f s)).
Definition modify {S E} (f : S → S) : cpp S E unit := λ s, ([], f s, Ret tt).
Definition emit {S E} (e : E) : cpp S E unit := λ s, ([e], s, Ret tt).
Definition halt {S E A} (w : stop) : cpp S E A := λ s, ([], s, Stop w).
Definition lift {S E A} (o : outcome A) : cpp S E A := λ s, ([], s, o).

(** A range-based [for] loop whose range is not changed by its body. *)
Fixpoint for_each {S E A} (f : A → cpp S E unit) (l : list A) : cpp S E unit :=
  match l with
  | [] => mret tt
  | x :: l => f x ;; for_each f l
  end.

(** Projections of a run. *)
Definition run_trace {S E A} (r : (list E * S) * outcome A) : list E := r.1.1.
Definition run_state {S E A} (r : (list E * S) * outcome A) : S := r.1.2.
Definition run_outcome {S E A} (r : (list E * S) * outcome A) : outcome A := r.2.

(** Two computations are equivalent when they agree on every state; equality of
    functions is finer. *)
#[export] Instance cpp_equiv {S E A} : Equiv (cpp S E A) := λ m1 m2, ∀ s, m1 s = m2 s.

Section cpp_laws.
Context {S E : Type}.

#[export] Instance cpp_equivalence {A} : Equivalence (≡@{cpp S E A}).
Proof.
  split.
  - by intros m s.
  - intros m1 m2 H s. by rewrite H.
  - intros m1 m2 m3 H1 H2 s. by rewrite H1, H2.
Qed.

#[export] Instance cpp_bind_proper {A B} :
  Proper (pointwise_relation A (≡) ==> (≡) ==> (≡)) (@mbind (cpp S E) _ A B).
Proof.
  intros f g Hfg m1 m2 Hm s. unfold mbind, cpp_bind. rewrite Hm.
  destruct (m2 s) as [[tr s'] [a|w]]; [|done]. by rewrite Hfg.
Qed.

Lemma bind_ret_l {A B} (a : A) (f : A → cpp S E B) : (mret a ≫= f) ≡ f a.
Proof.
  intros s. unfold mbind, cpp_bind, mret, cpp_ret.
  by destruct (f a s) as [[tr s'] o].
Qed.

Lemma bind_ret_r {A} (m : cpp S E A) : (m ≫= mret) ≡ m.
Proof.
  intros s. unfold mbind, cpp_bind, mret, cpp_ret.
  destruct (m s) as [[tr s'] [a|w]]; [|done]. by rewrite app_nil_r.
Qed.

Lemma bind_assoc {A B C} (m : cpp S E A) (f : A → cpp S E B) (g : B → cpp S E C) :
  ((m ≫= f) ≫= g) ≡ (m ≫= λ a, f a ≫= g).
Proof.
  intros s. unfold mbind, cpp_bind.
  destruct (m s) as [[tr s'] [a|w]]; [|done].
  destruct (f a s') as [[tr' s''] [b|w]]; [|done].
  destruct (g b s'') as [[tr'' s'''] o]. by rewrite (assoc_L (++)).
Qed.

Lemma for_each_app {A} (f : A → cpp S E unit) l1 l2 :
  for_each f (l1 ++ l2) ≡ (for_each f l1 ;; for_each f l2).
Proof.
  induction l1 as [|x l1 IH]; cbn [app for_each].
  - by rewrite (bind_ret_l tt).
  - rewrite bind_assoc. intros s. cbv [mbind cpp_bind].
    destruct (f x s) as [[tr s'] [[]|w]]; [|done]. by rewrite (IH s').
Qed.
End cpp_laws.

(** One unfolding step of a run, for proofs that follow the control flow. *)
Lemma run_bind {S E A B} (m : cpp S E A) (f : A → cpp S E B) s tr s' a :
  m s = (tr, s', Ret a) →
  (m ≫= f) s = match f a s' with (tr', s'', o) => (tr ++ tr', s'', o) end.
Proof. intros H. unfold mbind, cpp_bind. by rewrite H. Qed.

Lemma run_bind_stop {S E A B} (m : cpp S E A) (f : A → cpp S E B) s tr s' w :
  m s = (tr, s', Stop w) → (m ≫= f) s = (tr, s', Stop w).
Proof. intros H. unfold mbind, cpp_bind. by rewrite H. Qed.

(** ** Invariants of computations *)

(** [preserves I m]: from a state that satisfies [I], [m] leaves one that does,
    whatever its outcome. *)
Definition preserves {S E A} (I : S → Prop) (m : cpp S E A) : Prop :=
  ∀ s, I s → I (run_state (m s)).

(** [emits P m]: every call [m] makes satisfies [P]. *)
Definition emits {S E A} (P : E → Prop) (m : cpp S E A) : Prop :=
  ∀ s, Forall P (run_trace (m s)).

Create HintDb cpp discriminated.
#[export] Hint Constants Opaque : cpp.

Section preserves_laws.
Context {S E : Type} (I : S → Prop).

Lemma preserves_ret {A} (a : A) : preserves (E := E) I (mret a).
Proof. by intros s. Qed.
Lemma preserves_get : preserves (E := E) I get.
Proof. by intros s. Qed.
Lemma preserves_gets {A} (f : S → A) : preserves (E := E) I (gets f).
Proof. by intros s. Qed.
Lemma preserves_emit (e : E) : preserves I (emit e).
Proof. by intros s. Qed.
Lemma preserves_halt {A} w : preserves (E := E) I (halt (A := A) w).
Proof. by intros s. Qed.
Lemma preserves_lift {A} (o : outcome A) : preserves (E := E) I (lift o).
Proof. by intros s. Qed.
Lemma preserves_modify f : (∀ s, I s → I (f s)) → preserves (E := E) I (modify f).
Proof. intros H s. apply H. Qed.

Lemma preserves_bind {A B} (m : cpp S E A) (f : A → cpp S E B) :
  preserves I m → (∀ a, preserves I (f a)) → preserves I (m ≫= f).
Proof.
  intros Hm Hf s Hs. specialize (Hm s Hs).
  unfold mbind, cpp_bind, run_state in *.
  destruct (m s) as [[tr s'] [a|w]]; [|done]. simpl in *.
  specialize (Hf a s' Hm). by destruct (f a s') as [[tr' s''] o].
Qed.

Lemma preserves_if {A} (b : bool) (m1 m2 : cpp S E A) :
  preserves I m1 → preserves I m2 → preserves I (if b then m1 else m2).
Proof. by destruct b. Qed.

Lemma preserves_for_each {A} (f : A → cpp S E unit) l :
  (∀ x, preserves I (f x)) → preserves I (for_each f l).
Proof.
  intros Hf. induction l as [|x l IH]; [apply preserves_ret|].
  by apply preserves_bind.
Qed.
End preserves_laws.

#[export] Hint Resolve preserves_ret preserves_get preserves_gets preserves_emit
  preserves_halt preserves_lift preserves_bind preserves_if preserves_for_each : cpp.
#[export] Hint Extern 5 (preserves _ (modify _)) => apply preserves_modify; intros : cpp.
#[export] Hint Extern 1 (∀ _, preserves _ _) => intro : cpp.

(** [silent m]: [m] makes no calls. *)
Definition silent {S E A} (m : cpp S E A) : Prop := ∀ s, run_trace (m s) = [].

(** [returns m]: [m] returns from every state. *)
Definition returns {S E A} (m : cpp S E A) : Prop := ∀ s, ∃ a, run_outcome (m s) = Ret a.

Section silent_laws.
Context {S E : Type}.

Lemma silent_ret {A} (a : A) : silent (E := E) (S := S) (mret a).
Proof. done. Qed.
Lemma silent_get : silent (E := E) (S := S) get.
Proof. done. Qed.
Lemma silent_gets {A} (f : S → A) : silent (E := E) (gets f).
Proof. done. Qed.
Lemma silent_halt {A} w : silent (E := E) (S := S) (halt (A := A) w).
Proof. done. Qed.
Lemma silent_modify f : silent (E := E) (S := S) (modify f).
Proof. done. Qed.

Lemma silent_bind {A B} (m : cpp S E A) (f : A → cpp S E B) :
  silent m → (∀ a, silent (f a)) → silent (m ≫= f).
Proof.
  intros Hm Hf s. specialize (Hm s). unfold mbind, cpp_bind, run_trace in *.
  destruct (m s) as [[tr s'] [a|w]]; [|done]. simpl in *. subst tr.
  specialize (Hf a s'). unfold run_trace in Hf. by destruct (f a s') as [[tr' s''] o].
Qed.

Lemma silent_if {A} (b : bool) (m1 m2 : cpp S E A) :
  silent m1 → silent m2 → silent (if b then m1 else m2).
Proof. by destruct b. Qed.

Lemma silent_for_each {A} (f : A → cpp S E unit) l :
  (∀ x, silent (f x)) → silent (for_each f l).
Proof.
  intros Hf. induction l as [|x l IH]; [apply silent_ret|]. by apply silent_bind.
Qed.

Lemma returns_bind {A B} (m : cpp S E A) (f : A → cpp S E B) :
  returns m → (∀ a, returns (f a)) → returns (m ≫= f).
Proof.
  intros Hm Hf s. destruct (Hm s) as [a Ha]. unfold mbind, cpp_bind, run_outcome in *.
  destruct (m s) as [[tr s'] o]. simpl in *. subst o.
  destruct (Hf a s') as [b Hb]. unfold run_outcome in Hb.
  destruct (f a s') as [[tr' s''] o]. by exists b.
Qed.
End silent_laws.

#[export] Hint Resolve silent_ret silent_get silent_gets silent_halt silent_modify
  silent_bind silent_if silent_for_each : cpp.
#[export] Hint Extern 1 (∀ _, silent _) => intro : cpp.

(** A run that returns, taken apart at a [bind]. *)
Lemma run_bind_inv {S E A B} (m : cpp S E A) (f : A → cpp S E B) s tr s'' b :
  (m ≫= f) s = (tr, s'', Ret b) →
  ∃ tr1 s' a tr2, m s = (tr1, s', Ret a) ∧ f a s' = (tr2, s'', Ret b) ∧ tr = tr1 ++ tr2.
Proof.
  unfold mbind, cpp_bind. destruct (m s) as [[tr1 s'] [a|w]]; [|done].
  destruct (f a s') as [[tr2 s3] o] eqn:Hf. intros H. simplify_eq. by eauto 10.
Qed.

(** A loop that only calls out makes its calls in the order of its range. *)
Lemma for_each_emit {S E A} (g : A → E) l (s : S) :
  for_each (λ x, emit (g x)) l s = (g <$> l, s, Ret tt).
Proof.
  induction l as [|x l IH]; [done|]. cbn [for_each].
  rewrite (run_bind _ _ _ [g x] s tt) by done. by rewrite IH.
Qed.

(** [cpp_run] evaluates a computation that branches on decidable conditions. *)
Ltac cpp_run :=
  cbv [run_trace run_state run_outcome mbind cpp_bind get gets mret cpp_ret modify emit
       halt lift];
  cbn; repeat (case_match || case_decide); simplify_eq/=; try done.

(** ** The iteration order of [std::set<std::string>]

    A [std::set<std::string>] is modelled by the finite set of its elements
    ([gset string], whose equality is the set's [operator==]); iterating it
    visits the elements in ascending lexicographic order of their bytes. *)

Definition in_order (X : gset string) : list string := merge_sort String.le (elements X).

Lemma in_order_perm X : in_order X ≡ₚ elements X.
Proof. apply merge_sort_Permutation. Qed.

Lemma elem_of_in_order x X : x ∈ in_order X ↔ x ∈ X.
Proof. by rewrite in_order_perm, elem_of_elements. Qed.

Lemma NoDup_in_order X : NoDup (in_order X).
Proof. rewrite in_order_perm. apply NoDup_elements. Qed.

Lemma StronglySorted_in_order X : StronglySorted String.le (in_order X).
Proof. apply (StronglySorted_merge_sort _). Qed.

Lemma in_order_empty : in_order ∅ = [].
Proof. done. Qed.

Lemma in_order_nil_inv X : in_order X = [] → X = ∅.
Proof.
  intros H. apply set_eq. intros x. rewrite <- elem_of_in_order, H.
  split; intros Hx; [by apply elem_of_nil in Hx | by apply elem_of_empty in Hx].
Qed.

(** The visiting order is determined by the elements. *)
Lemma in_order_unique l X :
  StronglySorted String.le l → NoDup l → (∀ x, x ∈ l ↔ x ∈ X) → l = in_order X.
Proof.
  intros Hs Hnd Hel. apply (StronglySorted_unique String.le); [done|..].
  - apply StronglySorted_in_order.
  - apply NoDup_Permutation; [done|apply NoDup_in_order|].
    intros x. by rewrite Hel, elem_of_in_order.
Qed.

Lemma StronglySorted_filter {A} (R : relation A) (P : A → Prop) `{∀ x, Decision (P x)} (l : list A) :
  StronglySorted R l → StronglySorted R (filter P l).
Proof.
  intros Hl. induction Hl as [|x l Hl IH Hx]; [constructor|].
  rewrite filter_cons. case_decide; [|done]. constructor; [done|].
  rewrite Forall_forall in *. intros y [_ Hy]%list_elem_of_filter. by apply Hx.
Qed.

(** Filtering commutes with the iteration order. *)
Lemma filter_in_order (P : string → Prop) `{∀ x, Decision (P x)} X :
  filter P (in_order X) = in_order (filter P X).
Proof.
  apply in_order_unique.
  - apply StronglySorted_filter, StronglySorted_in_order.
  - apply NoDup_filter, NoDup_in_order.
  - intros x. by rewrite list_elem_of_filter, elem_of_in_order, elem_of_filter.
Qed.

Lemma filter_not_in_difference (X Y : gset string) :
  filter (λ x, x ∉ Y) X = X ∖ Y.
Proof. apply set_eq. intros x. rewrite elem_of_filter. rewrite elem_of_difference; tauto. Qed.

(** A process that is in [X] and not in [Y], in iteration order. *)
Lemma filter_in_order_difference (X Y : gset string) :
  filter (λ x, x ∉ Y) (in_order X) = in_order (X ∖ Y).
Proof. by rewrite filter_in_order, filter_not_in_difference. Qed.

Create Rewrite HintDb cpp_rw.
#[export] Hint Rewrite elem_of_in_order filter_in_order_difference : cpp_rw.

(** ** Lists *)

Lemma list_filter_all {A} (P : A → Prop) `{∀ x, Decision (P x)} (l : list A) :
  (∀ x, x ∈ l → P x) → filter P l = l.
Proof.
  induction l as [|x l IH]; intros Hl; [done|].
  rewrite filter_cons_True by (apply Hl; constructor).
  f_equal. apply IH. intros y Hy. apply Hl. by constructor.
Qed.

Lemma list_filter_none {A} (P : A → Prop) `{∀ x, Decision (P x)} (l : list A) :
  (∀ x, x ∈ l → ¬ P x) → filter P l = [].
Proof.
  induction l as [|x l IH]; intros Hl; [done|].
  rewrite filter_cons_False by (apply Hl; constructor).
  apply IH. intros y Hy. apply Hl. by constructor.
Qed.
