(* ===== verification/CppString.v ===== *)
(** * The operations of [std::string] the program uses

    Strings are [String.string] (a list of bytes); positions are [size_t], kept
    at their width of 64 bits as [Z] with the wrap-around written out, because
    the program computes with [npos] and with differences that may be negative. *)

From Stdlib Require Import Ascii.
From stdpp Require Import base list strings numbers.
From S2P Require Import Prelude.

Local Open Scope Z_scope.

Definition size_t_modulus : Z := 2 ^ 64.
Definition wrap (z : Z) : Z := z mod size_t_modulus.
Definition npos : Z := size_t_modulus - 1.

Definition size (s : string) : Z := Z.of_nat (String.length s).

Fixpoint str_take (n : nat) (s : string) : string :=
  match n, s with
  | S n, String c s => String c (str_take n s)
  | _, _ => EmptyString
  end.

Fixpoint str_drop (n : nat) (s : string) : string :=
  match n, s with
  | S n, String _ s => str_drop n s
  | _, _ => s
  end.

(** Index of the first and of the last occurrence of a character. *)
Fixpoint first_index (c : ascii) (s : string) : option nat :=
  match s with
  | EmptyString => None
  | String d s => if decide (c = d) then Some 0%nat else S <$> first_index c s
  end.

Fixpoint last_index (c : ascii) (s : string) : option nat :=
  match s with
  | EmptyString => None
  | String d s =>
      match last_index c s with
      | Some i => Some (S i)
      | None => if decide (c = d) then Some 0%nat else None
      end
  end.

Definition position (o : option nat) : Z :=
  match o with Some i => Z.of_nat i | None => npos end.

(** [s.find_first_of(c)]. *)
Definition find_first_of (s : string) (c : ascii) : Z := position (first_index c s).

(** [s.find_last_of(c, pos)]: the last occurrence at or before [pos]. *)
Definition find_last_of (s : string) (c : ascii) (pos : Z) : Z :=
  if size s <=? pos then position (last_index c s)
  else position (last_index c (str_take (S (Z.to_nat pos)) s)).

(** [s.substr(pos, n)]: throws when [pos] is beyond the end. *)
Definition substr (s : string) (pos n : Z) : outcome string :=
  if size s <? pos then Stop (Thrown OutOfRange)
  else Ret (str_take (Z.to_nat (Z.min n (size s - pos))) (str_drop (Z.to_nat pos) s)).

(** [s.find(t) != npos]. *)
Fixpoint is_prefix (t s : string) : bool :=
  match t, s with
  | EmptyString, _ => true
  | String c t, String d s => bool_decide (c = d) && is_prefix t s
  | _, _ => false
  end.

Fixpoint contains (t s : string) : bool :=
  is_prefix t s || match s with EmptyString => false | String _ s => contains t s end.

(** ** Lemmas *)

Lemma size_nonneg s : 0 <= size s.
Proof. unfold size. lia. Qed.

Lemma str_app_cons c s t : String c s +:+ t = String c (s +:+ t).
Proof. done. Qed.

Lemma str_app_nil_l s : "" +:+ s = s.
Proof. done. Qed.

Lemma length_str_app s t :
  String.length (s +:+ t) = (String.length s + String.length t)%nat.
Proof. induction s as [|c s IH]; [done|]. rewrite ?str_app_cons. simpl. by rewrite IH. Qed.

Lemma size_app s t : size (s +:+ t) = size s + size t.
Proof. unfold size. rewrite length_str_app. lia. Qed.

Lemma size_cons c s : size (String c s) = 1 + size s.
Proof. unfold size. cbn [String.length]. lia. Qed.

Lemma str_app_nil_r s : s +:+ "" = s.
Proof. induction s as [|c s IH]; [done|]. rewrite ?str_app_cons. simpl. by rewrite IH. Qed.

Lemma str_app_assoc s t u : (s +:+ t) +:+ u = s +:+ (t +:+ u).
Proof. induction s as [|c s IH]; [done|]. rewrite ?str_app_cons. simpl. by rewrite IH. Qed.

Lemma str_take_full n s : (String.length s <= n)%nat → str_take n s = s.
Proof.
  revert n. induction s as [|c s IH]; intros [|n] H; simpl in *; try done; try lia.
  f_equal. apply IH. lia.
Qed.

Lemma str_take_app s t : str_take (String.length s) (s +:+ t) = s.
Proof.
  induction s as [|c s IH]; [by destruct t|].
  rewrite str_app_cons. simpl. by rewrite IH.
Qed.

Lemma str_drop_app s t : str_drop (String.length s) (s +:+ t) = t.
Proof. by induction s. Qed.

Lemma str_drop_0 s : str_drop 0 s = s.
Proof. by destruct s. Qed.

Lemma last_index_app c s t :
  last_index c (s +:+ t) =
    match last_index c t with
    | Some i => Some (String.length s + i)%nat
    | None => last_index c s
    end.
Proof.
  induction s as [|d s IH]; [rewrite str_app_nil_l; by destruct (last_index c t)|].
  rewrite str_app_cons. cbn [last_index String.length].
  rewrite IH. by destruct (last_index c t).
Qed.

Lemma first_index_app c s t :
  first_index c (s +:+ t) =
    match first_index c s with
    | Some i => Some i
    | None => (λ i, String.length s + i)%nat <$> first_index c t
    end.
Proof.
  induction s as [|d s IH]; [rewrite str_app_nil_l; by destruct (first_index c t)|].
  rewrite str_app_cons. cbn [first_index String.length].
  case_decide; [done|]. rewrite IH.
  destruct (first_index c s); [done|]. by destruct (first_index c t).
Qed.

Lemma last_index_lt c s i : last_index c s = Some i → (i < String.length s)%nat.
Proof.
  revert i. induction s as [|d s IH]; intros i H; simpl in *; [done|].
  destruct (last_index c s) as [j|]; simplify_eq.
  - specialize (IH j eq_refl). lia.
  - case_decide; simplify_eq. lia.
Qed.

Lemma first_index_lt c s i : first_index c s = Some i → (i < String.length s)%nat.
Proof.
  revert i. induction s as [|d s IH]; intros i H; simpl in *; [done|].
  case_decide; simplify_eq; [lia|].
  destruct (first_index c s) as [j|]; simplify_eq/=.
  specialize (IH j eq_refl). lia.
Qed.

Lemma length_str_take n s : (String.length (str_take n s) <= String.length s)%nat.
Proof.
  revert n. induction s as [|c s IH]; intros [|n]; simpl; try lia.
  specialize (IH n). lia.
Qed.

(** Strings of a running program are shorter than [npos]: the hypothesis of the
    lemmas on positions. *)
Definition fits (s : string) : Prop := size s < npos.
#[export] Instance fits_dec s : Decision (fits s).
Proof. apply _. Defined.

Lemma find_last_of_range s c pos :
  fits s → find_last_of s c pos = npos ∨ 0 <= find_last_of s c pos < size s.
Proof.
  intros Hs. unfold find_last_of, position.
  destruct (size s <=? pos).
  - destruct (last_index c s) as [i|] eqn:Hi; [right|by left].
    apply last_index_lt in Hi. unfold size. lia.
  - destruct (last_index c (str_take _ s)) as [i|] eqn:Hi; [right|by left].
    apply last_index_lt in Hi.
    pose proof (length_str_take (S (Z.to_nat pos)) s). unfold size. lia.
Qed.

Lemma wrap_small z : 0 <= z < size_t_modulus → wrap z = z.
Proof. apply Z.mod_small. Qed.

Lemma wrap_range z : 0 <= wrap z < size_t_modulus.
Proof. by apply Z.mod_pos_bound. Qed.

Lemma wrap_npos_succ : wrap (npos + 1) = 0.
Proof. done. Qed.

(** The position after the result of a search is within the string, even when
    nothing was found: [npos + 1] wraps to 0. *)
Lemma wrap_find_last_of_succ s c pos :
  fits s → 0 <= wrap (find_last_of s c pos + 1) <= size s.
Proof.
  intros Hs. pose proof (size_nonneg s).
  destruct (find_last_of_range s c pos Hs) as [->|H'].
  - rewrite wrap_npos_succ. lia.
  - unfold fits, npos in *. rewrite wrap_small by lia. lia.
Qed.

Lemma substr_ret s pos n :
  pos <= size s → is_Some (match substr s pos n with Ret t => Some t | Stop _ => None end).
Proof. intros H. unfold substr. destruct (Z.ltb_spec (size s) pos); [lia|by eexists]. Qed.

(** A suffix and an infix of a concatenation. *)
Lemma substr_app_suffix s t n :
  size t <= n → substr (s +:+ t) (size s) n = Ret t.
Proof.
  intros H. unfold substr. rewrite size_app.
  pose proof (size_nonneg t). destruct (Z.ltb_spec (size s + size t) (size s)); [lia|].
  rewrite Z.min_r by lia. unfold size in *. rewrite Nat2Z.id, str_drop_app.
  by rewrite str_take_full by lia.
Qed.

Lemma substr_app_infix s t u :
  substr (s +:+ t +:+ u) (size s) (size t) = Ret t.
Proof.
  unfold substr. rewrite !size_app. pose proof (size_nonneg t). pose proof (size_nonneg u).
  destruct (Z.ltb_spec (size s + (size t + size u)) (size s)); [lia|].
  rewrite Z.min_l by lia. unfold size. by rewrite !Nat2Z.id, str_drop_app, str_take_app.
Qed.

(** ** Strings without a given character *)

Definition lacks (c : ascii) (s : string) : Prop := last_index c s = None.
#[export] Instance lacks_dec c s : Decision (lacks c s).
Proof. apply _. Defined.

Lemma lacks_app c s t : lacks c (s +:+ t) ↔ lacks c s ∧ lacks c t.
Proof.
  unfold lacks. rewrite last_index_app.
  destruct (last_index c t); naive_solver.
Qed.

Lemma lacks_cons c d s : lacks c (String d s) ↔ c ≠ d ∧ lacks c s.
Proof.
  unfold lacks. simpl. destruct (last_index c s); [naive_solver|].
  case_decide; naive_solver.
Qed.

Lemma lacks_first_index c s : lacks c s ↔ first_index c s = None.
Proof.
  induction s as [|d s IH]; [done|]. rewrite lacks_cons. simpl.
  case_decide; [naive_solver|]. rewrite IH.
  destruct (first_index c s); naive_solver.
Qed.

(** Searching backwards for a separator that is followed by a part without it. *)
Lemma find_last_of_sep s c t pos :
  lacks c t → size (s +:+ String c t) <= pos →
  find_last_of (s +:+ String c t) c pos = size s.
Proof.
  intros Ht Hpos. unfold find_last_of.
  destruct (Z.leb_spec (size (s +:+ String c t)) pos); [|lia].
  rewrite last_index_app. simpl. rewrite Ht. rewrite decide_True by done.
  unfold position, size. lia.
Qed.

(** The same from a position inside the string. *)
Lemma find_last_of_sep_at s c t u pos :
  lacks c t → pos = size s + size t → size u <> 0 →
  find_last_of ((s +:+ String c t) +:+ u) c pos = size s.
Proof.
  intros Ht -> Hu. unfold find_last_of. rewrite !size_app, size_cons.
  pose proof (size_nonneg s). pose proof (size_nonneg t). pose proof (size_nonneg u).
  destruct (Z.leb_spec (size s + (1 + size t) + size u) (size s + size t)); [lia|].
  replace (S (Z.to_nat (size s + size t))) with (String.length (s +:+ String c t)).
  - rewrite str_take_app, last_index_app. simpl. rewrite Ht, decide_True by done.
    unfold position, size. lia.
  - rewrite length_str_app. cbn [String.length]. unfold size. lia.
Qed.

Lemma find_first_of_sep s c t :
  lacks c s → find_first_of (s +:+ String c t) c = size s.
Proof.
  intros Hs%lacks_first_index. unfold find_first_of. rewrite first_index_app, Hs.
  simpl. rewrite decide_True by done. unfold position, size. simpl. lia.
Qed.

Lemma find_first_of_lacks s c : lacks c s → find_first_of s c = npos.
Proof. intros H%lacks_first_index. unfold find_first_of. by rewrite H. Qed.

(** ** Properties of every character *)

Fixpoint all_chars (P : ascii → bool) (s : string) : bool :=
  match s with
  | EmptyString => true
  | String c s => P c && all_chars P s
  end.

Lemma all_chars_app P s t : all_chars P (s +:+ t) = all_chars P s && all_chars P t.
Proof.
  induction s as [|c s IH]; [done|].
  rewrite str_app_cons. cbn [all_chars]. by rewrite IH, andb_assoc.
Qed.

Create Rewrite HintDb str.
#[export] Hint Rewrite size_app size_cons str_app_assoc str_app_nil_r all_chars_app
  lacks_app lacks_cons : str.
