(* ===== verification/Constants.v ===== *)
(** * Constants and enumerations shared by the components

    [common/other/include/constants.hpp] and the enumerations of the Cap'n Proto
    schemas under [gen/]. Each enumeration is a module named after the C++ type.
    An enumeration with a fixed underlying type that receives values by a cast
    ([AppState], [ApplicationState]) is kept as the 16-bit value it is. *)

From stdpp Require Import base list strings numbers.
From S2P Require Import Prelude.

Local Open Scope string_scope.

Definition IPC_PROTOCOL : string := "unix:".
Definition MSM_STATE_PROVIDER : string := "/tmp/data.json".
Definition EM_SOCKET_NAME : string := "/tmp/execution_management".
Definition MSM_STATES_SERVER : string := "/tmp/state_setter".
Definition MSM_SOCKET_NAME : string := "/tmp/machine_management".
Definition COMPONENT_SOCKET_NAME : string := "/tmp/component_management".
Definition APPLICATIONS_PATH : string := "./bin/applications/".

Definition DEFAULT_RESPONSE_TIMEOUT : Z := 30000000.
Definition NO_TIMEOUT : Z := 0.
Definition FIVE_SECONDS : Z := 5.

Definition AA_STATE_INIT : string := "Initializing".
Definition AA_STATE_RUNNING : string := "Running".
Definition AA_STATE_SHUTDOWN : string := "Shutdown".
Definition AA_STATE_SUSPEND : string := "Suspend".

Definition MACHINE_STATE_STARTUP : string := "Starting-up".
Definition MACHINE_STATE_RUNNING : string := "Running".
Definition MACHINE_STATE_LIVING : string := "Living".
Definition MACHINE_STATE_SUSPEND : string := "Suspend".
Definition MACHINE_STATE_SHUTTINGDOWN : string := "Shuttingdown".

Definition COMPONENT_STATE_ON : string := "kOn".
Definition COMPONENT_STATE_OFF : string := "kOff".

Definition SYSTEMCTL : string := "systemctl".
Definition SERVICE_EXTENSION : string := ".service".
Definition USER : string := "--user".
Definition SYSTEMCTL_START : string := "start".
Definition SYSTEMCTL_STOP : string := "stop".

Definition RECV_BUFFER_SIZE : Z := 512.
Definition SOCKET_SERVER_PATH : string := "/tmp/serverSocket".
Definition SOCKET_CLIENT_PATH : string := "/tmp/clientSocket".

(** [MachineStateManagement::StateError]. *)
Module StateError.
Inductive t := K_SUCCESS | K_INVALID_STATE | K_INVALID_REQUEST | K_TIMEOUT.
#[global] Instance eq_dec : EqDecision t.
Proof. solve_decision. Defined.
End StateError.

(** [StateManagement::ComponentClientReturnType]. *)
Module ComponentClientReturnType.
Inductive t := K_SUCCESS | K_GENERAL_ERROR | K_PENDING | K_INVALID | K_UNCHANGED.
#[global] Instance eq_dec : EqDecision t.
Proof. solve_decision. Defined.
End ComponentClientReturnType.

(** [StateManagement::StateUpdateMode]. *)
Module StateUpdateMode.
Inductive t := K_POLL | K_EVENT.
#[global] Instance eq_dec : EqDecision t.
Proof. solve_decision. Defined.
End StateUpdateMode.

(** [ApplicationStateManagement::ApplicationState]: the enumerants' ordinals. *)
Module ApplicationState.
Definition K_INITIALIZING : Z := 0.
Definition K_RUNNING : Z := 1.
Definition K_SHUTTINGDOWN : Z := 2.
Definition SUSPEND : Z := 3.
End ApplicationState.

(** [ExecutionManager::AppState : uint16_t]. *)
Module AppState.
Definition kInitializing : Z := 0.
Definition kRunning : Z := 1.
Definition kShuttingDown : Z := 2.
End AppState.

(** ** Factories *)

(** [api::IStateFactory]: the states that it makes; [None] is a null pointer. *)
Record IStateFactory (P : Type) := {
  createInit : option P;
  createRun : option P;
  createShutDown : option P;
  createSuspend : option P;
}.
Arguments createInit {P} _.
Arguments createRun {P} _.
Arguments createShutDown {P} _.
Arguments createSuspend {P} _.
