(* ===== verification/Temporal.v ===== *)
(** * Runs, fairness and leads-to

    Infinite runs of a labelled transition system, weak fairness, and the rules by which
    liveness is proved: a fair helpful action ([leads_to_fair]), a measure
    ([leads_to_measure]) and finitely many stable goals ([leads_to_all]). *)

From stdpp Require Import base list numbers.
From S2P Require Import Prelude.

Section runs.
Context {St L : Type} (step : L → St → St → Prop) (enabled : L → St → Prop).

Record run := mk_run {
  state : nat → St;
  label : nat → L;
  run_step n : step (label n) (state n) (state (S n));
}.

Context (r : run).

(** Weak fairness: again and again the action is taken or not possible. *)
Definition fair (l : L) : Prop :=
  ∀ n, ∃ m, n ≤ m ∧ (label r m = l ∨ ¬ enabled l (state r m)).

Definition leads_to (P Q : St → Prop) : Prop :=
  ∀ n, P (state r n) → ∃ m, n ≤ m ∧ Q (state r m).

(** [P] holds until [Q] does. *)
Definition unless (P Q : St → Prop) : Prop :=
  ∀ n, P (state r n) →
    Q (state r (S n)) ∨ P (state r (S n)).

Lemma leads_to_refl (P Q : St → Prop) : (∀ s, P s → Q s) → leads_to P Q.
Proof. intros HPQ n HP. exists n. auto. Qed.

Lemma leads_to_trans (P Q R : St → Prop) : leads_to P Q → leads_to Q R → leads_to P R.
Proof.
  intros HPQ HQR n (m & Hm & HQ)%HPQ. destruct (HQR m HQ) as (k & Hk & HR). exists k. split; [lia|done].
Qed.

Lemma leads_to_or (P1 P2 Q : St → Prop) :
  leads_to P1 Q → leads_to P2 Q → leads_to (λ s, P1 s ∨ P2 s) Q.
Proof. intros H1 H2 n [HP|HP]; [by apply H1|by apply H2]. Qed.

(** From a goal that is one of two, the other one is left. *)
Lemma leads_to_cancel (P Q R : St → Prop) :
  leads_to P (λ s, Q s ∨ R s) → leads_to Q R → leads_to P R.
Proof.
  intros HP HQ. eapply leads_to_trans; [exact HP|].
  apply leads_to_or; [done|by apply leads_to_refl].
Qed.

Lemma unless_until (P Q : St → Prop) n m :
  unless P Q → n ≤ m → P (state r n) →
  (∃ k, n ≤ k ∧ k ≤ m ∧ Q (state r k)) ∨ P (state r m).
Proof.
  intros Hu Hnm HP. induction Hnm as [|m Hnm IH]; [by right|].
  destruct IH as [(k & ? & ? & ?)|HPm].
  - left. exists k. split_and!; [lia|lia|done].
  - destruct (Hu m HPm) as [HQ|HP']; [|by right].
    left. exists (S m). split_and!; [lia|lia|done].
Qed.

(** The rule of weak fairness. *)
Lemma leads_to_fair (l : L) (P Q : St → Prop) :
  fair l → (∀ s, P s → enabled l s) → unless P Q →
  (∀ n, P (state r n) → label r n = l → Q (state r (S n))) →
  leads_to P Q.
Proof.
  intros Hfair Hen Hu Hhelp n HP. destruct (Hfair n) as (m & Hm & Hlab).
  destruct (unless_until P Q n m Hu Hm HP) as [(k & ? & ? & ?)|HPm]; [by exists k|].
  destruct Hlab as [Hlab|Hno]; [|by destruct Hno; apply Hen].
  exists (S m). split; [lia|by apply Hhelp].
Qed.

(** Every step keeps [P] without raising the measure, or reaches [Q]; the fair action
    lowers the measure. *)
Lemma leads_to_measure (l : L) (μ : St → nat) (P Q : St → Prop) :
  fair l → (∀ s, P s → enabled l s) →
  (∀ n, P (state r n) →
     Q (state r (S n)) ∨
     P (state r (S n)) ∧ μ (state r (S n)) ≤ μ (state r n) ∧
       (label r n = l → μ (state r (S n)) < μ (state r n))) →
  leads_to P Q.
Proof.
  intros Hfair Hen Hstep.
  assert (∀ k, leads_to (λ s, P s ∧ μ s ≤ k) Q) as Hk.
  { induction k as [k IH] using lt_wf_ind.
    apply (leads_to_cancel _ (λ s, P s ∧ μ s < k)).
    - apply (leads_to_fair l); [done|by intros s [? _]; apply Hen|..].
      + intros n [HP Hμ]. destruct (Hstep n HP) as [HQ|(HP' & Hle & _)]; [by left; right|].
        right. split; [done|lia].
      + intros n [HP Hμ] Hl. destruct (Hstep n HP) as [HQ|(HP' & _ & Hlt)]; [by right|].
        left. split; [done|]. specialize (Hlt Hl). lia.
    - intros n [HP Hμ]. destruct k as [|k]; [lia|]. apply (IH k); [lia|]. split; [done|lia]. }
  intros n HP. apply (Hk (μ (state r n))). auto.
Qed.

(** Goals that stay once they have been reached are all reached. *)
Lemma leads_to_all {A} (W Q : St → Prop) (goal : A → St → Prop) (l : list A) :
  (∀ a, unless (λ s, W s ∧ goal a s) Q) → unless W Q →
  (∀ a, a ∈ l → leads_to W (λ s, W s ∧ goal a s ∨ Q s)) →
  leads_to W (λ s, W s ∧ (∀ a, a ∈ l → goal a s) ∨ Q s).
Proof.
  intros Hstable HW. induction l as [|a l IH]; intros Hgoal.
  { apply leads_to_refl. intros s Hs. left. split; [done|]. by intros a ?%elem_of_nil. }
  intros n Hn. destruct (IH (λ b Hb, Hgoal b (list_elem_of_further _ _ _ Hb)) n Hn)
    as (m & Hm & [[HWm Hall]|HQ]); [|exists m; auto].
  destruct (Hgoal a (list_elem_of_here _ _) m HWm) as (k & Hk & [[HWk Ha]|HQ]);
    [|exists k; split; [lia|by right]].
  assert (unless (λ s, W s ∧ ∀ b, b ∈ l → goal b s) Q) as Hu.
  { clear -Hstable HW. intros i [HWi Hi]. destruct (HW i HWi) as [HQ|HWi']; [by left|].
    induction l as [|b l IH]; [right; split; [done|by intros b ?%elem_of_nil]|].
    destruct (Hstable b i) as [HQ|[_ Hb]]; [split; [done|apply Hi; by left]|by left|].
    destruct IH as [HQ|[_ Hl]]; [intros c Hc; apply Hi; by right|by left|].
    right. split; [done|]. by intros c [->|Hc]%elem_of_cons; [|apply Hl]. }
  destruct (unless_until _ Q m k Hu Hk (conj HWm Hall)) as [(i & ? & ? & ?)|[_ Hl]].
  - exists i. split; [lia|by right].
  - exists k. split; [lia|]. left. split; [done|]. by intros c [->|Hc]%elem_of_cons; [|apply Hl].
Qed.
End runs.

Arguments mk_run {St L step} _ _ _.
Arguments state {St L step} _ _.
Arguments label {St L step} _ _.
Arguments run_step {St L step} _ _.

(** ** Runs that come to rest *)

Section rest.
Context {St L : Type} (step : L → St → St → Prop) (idle : L).

(** A finite execution with its labels; afterwards nothing changes. *)
Inductive schedule : list (L * St) → St → Prop :=
  | schedule_nil s : schedule [] s
  | schedule_cons l s' rest s : step l s s' → schedule rest s' → schedule ((l, s') :: rest) s.

Fixpoint state_at (s : St) (rest : list (L * St)) (n : nat) {struct n} : St :=
  match n, rest with
  | O, _ | _, [] => s
  | S n, (_, s') :: rest => state_at s' rest n
  end.

Definition label_at (rest : list (L * St)) (n : nat) : L :=
  match rest !! n with Some (l, _) => l | None => idle end.

Lemma state_at_step s rest n :
  (∀ s, step idle s s) → schedule rest s →
  step (label_at rest n) (state_at s rest n) (state_at s rest (S n)).
Proof.
  intros Hidle. revert s n. induction rest as [|[l s'] rest IH]; intros s n Hs.
  - by destruct n.
  - inversion_clear Hs as [|? ? ? ? Hl Hrest]. destruct n as [|n].
    + by destruct rest as [|[]].
    + apply (IH s' n Hrest).
Qed.

Definition resting (Hidle : ∀ s, step idle s s) (s : St) (rest : list (L * St))
    (Hs : schedule rest s) : run step :=
  mk_run (state_at s rest) (label_at rest) (λ n, state_at_step s rest n Hidle Hs).

Lemma state_at_end s rest n : length rest ≤ n → state_at s rest n = state_at s rest (length rest).
Proof.
  revert s n. induction rest as [|[l s'] rest IH]; intros s n Hn; cbn in *; [by destruct n|].
  destruct n as [|n]; [lia|]. apply IH. lia.
Qed.

(** What is not possible at the end is treated fairly. *)
Lemma resting_fair (enabled : L → St → Prop) Hidle s rest Hs l :
  ¬ enabled l (state_at s rest (length rest)) → fair step enabled (resting Hidle s rest Hs) l.
Proof.
  intros Hno n. exists (n + length rest). split; [lia|]. right. cbn.
  by rewrite state_at_end by lia.
Qed.
End rest.
