(* ===== verification/Common.v ===== *)
(** * Service names and log prefixes

    [common/other/src/common.cpp] (service names and the binary path of a
    process) and the string function of [common/other/src/logger.cpp]. *)

From Stdlib Require Import Ascii.
From stdpp Require Import base list strings numbers pretty.
From S2P Require Import Prelude CppString.

Local Open Scope string_scope.

(** ** [getServiceName] *)

Definition getServiceName (appName procName : string) : string :=
  appName +:+ "_" +:+ procName.

(** ** [getAppBinaryPath]

    [std::ifstream >> std::string]: skip white space, then read up to the next
    white space or the end. *)

Definition is_space (c : ascii) : bool :=
  bool_decide (c ∈ ["009"; "010"; "011"; "012"; "013"; " "]%char).

Fixpoint skip_space (s : string) : string :=
  match s with
  | String c s' => if is_space c then skip_space s' else s
  | EmptyString => EmptyString
  end.

Fixpoint until_space (s : string) : string :=
  match s with
  | String c s' => if is_space c then EmptyString else String c (until_space s')
  | EmptyString => EmptyString
  end.

Definition read_word (s : string) : string := until_space (skip_space s).

(** The files the operating system shows: [None] for one that cannot be opened. *)
Definition file_system : Type := string → option string.

Definition getAppBinaryPath (fs : file_system) (appPid : Z) : string :=
  match fs ("/proc/" +:+ pretty appPid +:+ "/cmdline") with
  | Some content => read_word content
  | None => ""
  end.

(** ** [parseServiceName] *)

Definition delimiter : ascii := "/"%char.
Definition processesSize : Z := size "/processes/".

Definition parseServiceName (path : string) : outcome string :=
  let currPos := find_last_of path delimiter npos in
  processName ← substr path (wrap (currPos + 1)) npos;
  let prevPos := wrap (currPos - processesSize) in
  let currPos := find_last_of path delimiter prevPos in
  appName ← substr path (wrap (currPos + 1)) (wrap (prevPos - currPos));
  Ret (getServiceName appName processName).

(** The receiver of a name reads it as a C string ([cStr()]): up to the first
    zero byte. *)
Fixpoint c_str (s : string) : string :=
  match s with
  | String "000" _ | EmptyString => EmptyString
  | String c s => String c (c_str s)
  end.

(** ** [Logger::getApplicationName] *)

Definition appPath : string := "../applications/".

Definition is_digit (c : ascii) : bool := bool_decide (48 ≤ nat_of_ascii c ≤ 57)%nat.

(** [s.erase(0, n)] and [s.erase(pos, npos)]. *)
Definition erase_prefix (n : Z) (s : string) : string := str_drop (Z.to_nat n) s.
Definition erase_from (pos : Z) (s : string) : outcome string :=
  if (size s <? pos)%Z then Stop (Thrown OutOfRange) else Ret (str_take (Z.to_nat pos) s).

(** [s[i]]: position [size()] holds the terminating zero, beyond it the access is
    undefined. *)
Definition char_at (s : string) (i : Z) : outcome ascii :=
  if (i =? size s)%Z then Ret "000"%char
  else match String.get (Z.to_nat i) s with
       | Some c => if (i <? 0)%Z then Stop Undefined else Ret c
       | None => Stop Undefined
       end.

Definition getApplicationName (filePath : string) : outcome string :=
  let filePath := erase_prefix (size appPath) filePath in
  filePath ← (if (find_first_of filePath "/" <? npos)%Z then
    fileName ← substr filePath (wrap (find_last_of filePath "/" npos + 1)) npos;
    filePath ← erase_from (find_first_of filePath "/") filePath;
    Ret (filePath +:+ "::" +:+ fileName)
  else Ret filePath);
  c ← char_at filePath (wrap (size filePath - 1));
  Ret (if is_digit c then str_take (String.length filePath - 1) filePath else filePath).

(** ** Properties *)

Local Open Scope Z_scope.

(** The path of the executable of a process of an installed application. *)
Definition binary_path (dir app proc : string) : string :=
  (dir +:+ "/" +:+ app +:+ "/processes") +:+ "/" +:+ proc.

(** [parseServiceName] never throws: for every path, with or without
    separators, both [substr] calls start within the string, also when the search
    returns [npos] or the difference of positions is negative and wraps. *)
Lemma parseServiceName_returns (path : string) :
  fits path → ∃ name, parseServiceName path = Ret name.
Proof.
  intros Hp. unfold parseServiceName, substr.
  pose proof (wrap_find_last_of_succ path delimiter npos Hp).
  pose proof (wrap_find_last_of_succ path delimiter
    (wrap (find_last_of path delimiter npos - processesSize)) Hp).
  destruct (Z.ltb_spec (size path) (wrap (find_last_of path delimiter npos + 1))); [lia|].
  simpl. match goal with |- context [Z.ltb ?a ?b] => destruct (Z.ltb_spec a b); [lia|] end.
  by eexists.
Qed.

Section binary_path_facts.
Context (dir app proc : string).
Context (Hfit : fits (binary_path dir app proc)).
Context (Happ : lacks delimiter app) (Hproc : lacks delimiter proc).

Let path := binary_path dir app proc.

Lemma size_binary_path : size path = size dir + size app + size proc + 12.
Proof using.
  unfold path, binary_path. rewrite !size_app.
  change (size "/") with 1. change (size "/processes") with 10. lia.
Qed.

Lemma binary_path_bounds :
  0 <= size dir ∧ 0 <= size app ∧ 0 <= size proc
  ∧ size dir + size app + size proc + 12 < npos.
Proof using Hfit.
  rewrite <- size_binary_path. by repeat split; [apply size_nonneg..|].
Qed.

Lemma last_separator : find_last_of path delimiter npos = size dir + size app + 11.
Proof using Hfit Hproc.
  pose proof size_binary_path as Hsz. pose proof binary_path_bounds as Hb.
  unfold path, binary_path, delimiter in *.
  rewrite (find_last_of_sep _ "/"%char proc npos Hproc).
  - rewrite !size_app. change (size "/") with 1. change (size "/processes") with 10. lia.
  - etrans; [|apply Z.lt_le_incl, Hb]. by rewrite <- Hsz.
Qed.

Lemma process_part :
  substr path (wrap (size dir + size app + 11 + 1)) npos = Ret proc.
Proof using Hfit.
  pose proof binary_path_bounds as Hb. rewrite wrap_small by (unfold npos in Hb; lia).
  replace (size dir + size app + 11 + 1) with
    (size ((dir +:+ "/" +:+ app +:+ "/processes") +:+ "/"))
    by (rewrite !size_app; change (size "/") with 1; change (size "/processes") with 10; lia).
  unfold path, binary_path. rewrite <- (str_app_assoc (dir +:+ _)).
  apply substr_app_suffix. lia.
Qed.

Lemma application_separator :
  find_last_of path delimiter (size dir + size app) = size dir.
Proof using Happ.
  replace path with ((dir +:+ String "/" app) +:+ "/processes" +:+ "/" +:+ proc)
    by (unfold path, binary_path; by rewrite !str_app_assoc).
  apply find_last_of_sep_at; [done|done|].
  rewrite size_app. change (size "/processes") with 10.
  pose proof (size_nonneg ("/" +:+ proc)). lia.
Qed.

Lemma application_part :
  substr path (wrap (size dir + 1)) (wrap (size dir + size app - size dir)) = Ret app.
Proof using Hfit.
  pose proof binary_path_bounds as Hb. unfold npos in Hb.
  rewrite !wrap_small by lia.
  replace (size dir + size app - size dir) with (size app) by lia.
  replace (size dir + 1) with (size (dir +:+ "/"))
    by (rewrite size_app; change (size "/") with 1; lia).
  replace path with ((dir +:+ "/") +:+ app +:+ "/processes" +:+ "/" +:+ proc)
    by (unfold path, binary_path; by rewrite !str_app_assoc).
  apply substr_app_infix.
Qed.

Lemma parse_binary_path : parseServiceName path = Ret (getServiceName app proc).
Proof using Hfit Happ Hproc.
  unfold parseServiceName. rewrite last_separator, process_part. simpl.
  change processesSize with 11.
  replace (size dir + size app + 11 - 11) with (size dir + size app) by lia.
  pose proof binary_path_bounds as Hb. unfold npos in Hb.
  rewrite (wrap_small (size dir + size app)) by lia.
  by rewrite application_separator, application_part.
Qed.
End binary_path_facts.

(** A character of a path that survives both readers: neither white space (the
    word read from [/proc] ends there) nor zero (the C string ends there). *)
Definition plain (c : ascii) : bool := negb (is_space c) && negb (bool_decide (c = "000"%char)).
Definition NUL : string := String "000" "".

Lemma until_space_plain s : all_chars plain s → until_space (s +:+ NUL) = s +:+ NUL.
Proof.
  induction s as [|c s IH]; [done|]. cbn [all_chars].
  rewrite str_app_cons. cbn [until_space]. unfold plain at 1. intros H.
  destruct (is_space c); [done|]. f_equal. apply IH. by apply andb_True in H as [_ H].
Qed.

Lemma skip_space_plain s : all_chars plain s → skip_space (s +:+ NUL) = s +:+ NUL.
Proof.
  destruct s as [|c s]; [done|]. cbn [all_chars]. unfold plain at 1. intros H.
  rewrite str_app_cons. cbn [skip_space]. by destruct (is_space c).
Qed.

Lemma c_str_cons c s : c ≠ "000"%char → c_str (String c s) = String c (c_str s).
Proof. intros H. by destruct c as [[] [] [] [] [] [] [] []]. Qed.

Lemma c_str_idemp s : c_str (c_str s) = c_str s.
Proof.
  induction s as [|c s IH]; [done|].
  destruct (decide (c = "000"%char)) as [->|Hc]; [done|]. by rewrite !c_str_cons, IH.
Qed.

Lemma c_str_plain s : all_chars plain s → c_str (s +:+ NUL) = s.
Proof.
  induction s as [|c s IH]; [done|]. cbn [all_chars]. intros [Hc Hs]%andb_True.
  rewrite str_app_cons, c_str_cons; [by rewrite IH|].
  intros ->. done.
Qed.

Lemma plain_getServiceName app proc :
  all_chars plain app → all_chars plain proc → all_chars plain (getServiceName app proc).
Proof.
  intros Ha Hp. unfold getServiceName. rewrite !all_chars_app.
  by rewrite !andb_True.
Qed.

Lemma reported_service_name (fs : file_system) (pid : Z) (dir app proc : string) :
  fs ("/proc/" +:+ pretty pid +:+ "/cmdline") = Some (binary_path dir app proc +:+ NUL) →
  fits (binary_path dir app proc +:+ NUL) →
  all_chars plain (binary_path dir app proc) →
  lacks delimiter app → lacks delimiter proc →
  c_str <$> parseServiceName (getAppBinaryPath fs pid) = Ret (getServiceName app proc).
Proof.
  intros Hfs Hfit Hplain Happ Hproc. unfold getAppBinaryPath, read_word. rewrite Hfs.
  rewrite skip_space_plain, until_space_plain by done.
  assert (Heq : binary_path dir app proc +:+ NUL = binary_path dir app (proc +:+ NUL))
    by (unfold binary_path; by rewrite !str_app_assoc).
  rewrite Heq in *. rewrite parse_binary_path; [|done|done|by apply lacks_app].
  unfold binary_path in Hplain. autorewrite with str in Hplain.
  rewrite !andb_True in Hplain. destruct Hplain as ((_ & _ & Ha & _) & _ & Hp).
  change (fmap c_str (Ret ?n)) with (Ret (c_str n)). f_equal.
  replace (getServiceName app (proc +:+ NUL)) with (getServiceName app proc +:+ NUL)
    by (unfold getServiceName; by rewrite !str_app_assoc).
  by apply c_str_plain, plain_getServiceName.
Qed.

(** the name a started process reports is the name the Execution Manager
    started it under. The kernel shows the executable's path followed by a zero
    byte; the client reads it with [>>], parses it and sends it, and the server
    reads it as a C string. *)
Theorem reported_name_is_service_name (fs : file_system) (pid : Z) (dir app proc : string) :
  fs ("/proc/" +:+ pretty pid +:+ "/cmdline") = Some (binary_path dir app proc +:+ NUL) →
  fits (binary_path dir app proc +:+ NUL) →
  all_chars plain (binary_path dir app proc) →
  lacks delimiter app → lacks delimiter proc →
  c_str <$> parseServiceName (getAppBinaryPath fs pid) = Ret (getServiceName app proc).
Proof. apply reported_service_name. Qed.

Definition demo_fs : file_system := λ f,
  if decide (f = "/proc/42/cmdline")
  then Some ("/opt/bin/AdaptiveApplication1/processes/proc1" +:+ NUL) else None.

Lemma reported_name_is_service_name_witness :
  c_str <$> parseServiceName (getAppBinaryPath demo_fs 42)
    = Ret (getServiceName "AdaptiveApplication1" "proc1").
Proof.
  apply (reported_name_is_service_name demo_fs 42 "/opt/bin" "AdaptiveApplication1" "proc1").
  - reflexivity.
  - vm_compute. reflexivity.
  - vm_compute. exact I.
  - reflexivity.
  - reflexivity.
Defined.

Lemma parseServiceName_returns_witness : ∃ name, parseServiceName "process" = Ret name.
Proof. apply (parseServiceName_returns "process"). vm_compute. reflexivity. Defined.

(** Service names of distinct processes are distinct when the application names
    have no underscore. *)
Lemma getServiceName_inj app1 app2 proc1 proc2 :
  lacks "_" app1 → lacks "_" app2 →
  getServiceName app1 proc1 = getServiceName app2 proc2 → app1 = app2 ∧ proc1 = proc2.
Proof.
  unfold getServiceName.
  change ("_" +:+ proc1) with (String "_" proc1).
  change ("_" +:+ proc2) with (String "_" proc2). revert app2.
  induction app1 as [|c app1 IH]; intros [|d app2] H1 H2 Heq.
  - rewrite !str_app_nil_l in Heq. by simplify_eq.
  - apply lacks_cons in H2 as [? _]. rewrite str_app_cons, str_app_nil_l in Heq. by simplify_eq.
  - apply lacks_cons in H1 as [? _]. rewrite str_app_cons, str_app_nil_l in Heq. by simplify_eq.
  - apply lacks_cons in H1 as [_ H1], H2 as [_ H2].
    rewrite !str_app_cons in Heq. simplify_eq.
    by destruct (IH app2 H1 H2) as [-> ->].
Qed.

(** Without that condition they need not be. *)
Example getServiceName_collision :
  getServiceName "a_b" "c" = getServiceName "a" "b_c".
Proof. reflexivity. Qed.
