(* ===== verification/Queues.v ===== *)
(** * The thread-safe queues

    [common/other/src/safe_queue.cpp] (received messages) and the [ThreadQueue]
    of [common/other/src/common.cpp] (methods the Execution Manager's worker
    thread executes). Every operation holds the queue's mutex for the whole of its
    effect on the queue, so the operations of any number of threads are a sequence
    of atomic steps; [Fifo] is the contract both queues promise their clients and
    the history theorem is proved against it. *)

From stdpp Require Import base list strings.
From S2P Require Import Prelude.

(** ** The contract: a first-in first-out queue *)

Class Fifo (Q A : Type) := {
  fifo_items : Q → list A;
  fifo_empty : Q;
  fifo_put : A → Q → Q;
  fifo_take : Q → option (A * Q);
  fifo_items_empty : fifo_items fifo_empty = [];
  fifo_items_put a q : fifo_items (fifo_put a q) = fifo_items q ++ [a];
  fifo_items_take q :
    fifo_items q = match fifo_take q with
                   | Some (a, q') => a :: fifo_items q'
                   | None => []
                   end;
}.

(** A step of some thread: it puts an element or tries to take one. *)
Inductive fifo_op (A : Type) := Put (a : A) | Take.
Arguments Put {A} a.
Arguments Take {A}.

Section fifo.
Context `{Fifo Q A}.

(** The queue and what has been taken so far, after a history of steps. *)
Definition fifo_step (st : Q * list A) (op : fifo_op A) : Q * list A :=
  match op with
  | Put a => (fifo_put a st.1, st.2)
  | Take => match fifo_take st.1 with
            | Some (a, q) => (q, st.2 ++ [a])
            | None => st
            end
  end.

Definition fifo_run (ops : list (fifo_op A)) (st : Q * list A) : Q * list A :=
  fold_left fifo_step ops st.

Definition put_of (op : fifo_op A) : option A :=
  match op with Put a => Some a | Take => None end.

Lemma fifo_step_conserves op st :
  (fifo_step st op).2 ++ fifo_items (fifo_step st op).1
    = st.2 ++ fifo_items st.1 ++ option_list (put_of op).
Proof.
  destruct op as [a|]; simpl.
  - by rewrite fifo_items_put.
  - rewrite app_nil_r, (fifo_items_take st.1).
    destruct (fifo_take st.1) as [[a q]|] eqn:Ht; simpl.
    + by rewrite <- (assoc_L (++)).
    + by rewrite (fifo_items_take st.1), Ht.
Qed.

(** Nothing is lost, duplicated or reordered, whatever the interleaving. *)
Lemma fifo_run_conserves ops st :
  (fifo_run ops st).2 ++ fifo_items (fifo_run ops st).1
    = st.2 ++ fifo_items st.1 ++ omap put_of ops.
Proof.
  revert st. induction ops as [|op ops IH]; intros st; simpl; [by rewrite app_nil_r|].
  rewrite IH, (assoc_L (++)), fifo_step_conserves.
  destruct op; simpl; by rewrite <- ?(assoc_L (++)), ?app_nil_r.
Qed.

Lemma fifo_take_None q : fifo_take q = None ↔ fifo_items q = [].
Proof.
  rewrite (fifo_items_take q). destruct (fifo_take q) as [[a q']|]; naive_solver.
Qed.
End fifo.

(** ** [common::SafeQueue] *)

Module SafeQueue.
Record t := mk { m_data : list string }.

Definition push (value : string) (q : t) : t := mk (m_data q ++ [value]).

(** [bool pop(std::string& payload)]: the result, the payload afterwards and the
    queue afterwards. *)
Definition pop (payload : string) (q : t) : bool * string * t :=
  match m_data q with
  | front :: rest => (true, front, mk rest)
  | [] => (false, payload, q)
  end.

#[global, program] Instance fifo : Fifo t string := {|
  fifo_items := m_data;
  fifo_empty := mk [];
  fifo_put := push;
  fifo_take q := match pop "" q with
                 | (true, s, q') => Some (s, q')
                 | (false, _, _) => None
                 end;
|}.
Solve Obligations with try done.
Next Obligation. intros [[|s l]]; done. Qed.
End SafeQueue.

(** ** [common::ThreadQueue]

    A method is a [std::function<void()>], which may be empty: [option F]. *)

Module ThreadQueue.
Section with_methods.
Context {F : Type}.

Record t := mk { m_methodsQueue : list (option F) }.

Definition addMethod (func : option F) (q : t) : t := mk (m_methodsQueue q ++ [func]).

(** [getExecutor]: waits until the queue is not empty, takes the front under
    the lock and calls it, outside the lock, unless it is empty. The call is
    the computation's effect. *)
Definition getExecutor : cpp t F unit :=
  q ← gets m_methodsQueue;
  match q with
  | [] => halt Blocked
  | func :: rest =>
      modify (λ _, mk rest) ;;
      match func with
      | Some f => emit f
      | None => mret tt
      end
  end.

Definition isEmpty (q : t) : bool :=
  match m_methodsQueue q with [] => true | _ => false end.

#[global, program] Instance fifo : Fifo t (option F) := {|
  fifo_items := m_methodsQueue;
  fifo_empty := mk [];
  fifo_put := addMethod;
  fifo_take q := match m_methodsQueue q with
                 | f :: rest => Some (f, mk rest)
                 | [] => None
                 end;
|}.
Solve Obligations with try done.
Next Obligation. intros [[|s l]]; done. Qed.

(** [getExecutor] is the contract's [take] followed by the call. *)
Lemma getExecutor_take (q : t) :
  getExecutor q =
    match fifo_take q with
    | Some (f, q') => (option_list f, q', Ret tt)
    | None => ([], q, Stop Blocked)
    end.
Proof. by destruct q as [[|[f|] rest]]. Qed.

Lemma isEmpty_spec (q : t) : isEmpty q = bool_decide (fifo_take q = None).
Proof. by destruct q as [[|f rest]]. Qed.
End with_methods.
Arguments t : clear implicits.
End ThreadQueue.

(** ** Properties *)

(** the elements taken from a [SafeQueue] by any interleaving of pushes and
    pops, followed by the ones still in it, are the pushed elements in the order of
    the pushes. *)
Theorem SafeQueue_fifo (ops : list (fifo_op string)) :
  (fifo_run ops (SafeQueue.mk [], [])).2
    ++ SafeQueue.m_data (fifo_run ops (SafeQueue.mk [], [])).1 = omap put_of ops.
Proof. exact (fifo_run_conserves ops (SafeQueue.mk [] : SafeQueue.t, [])). Qed.

(** A history of the threads around a [ThreadQueue]: methods are added, and the
    worker calls [getExecutor]; a blocked call leaves the queue as it is. *)
Inductive thread_op (F : Type) := AddMethod (func : option F) | GetExecutor.
Arguments AddMethod {F} func.
Arguments GetExecutor {F}.

Definition thread_step {F} (st : ThreadQueue.t F * list F) (op : thread_op F) :
    ThreadQueue.t F * list F :=
  match op with
  | AddMethod func => (ThreadQueue.addMethod func st.1, st.2)
  | GetExecutor =>
      let r := ThreadQueue.getExecutor st.1 in (run_state r, st.2 ++ run_trace r)
  end.

Definition thread_run {F} (ops : list (thread_op F)) (st : ThreadQueue.t F * list F) :=
  fold_left thread_step ops st.

Definition added {F} (op : thread_op F) : option F :=
  match op with AddMethod func => func | GetExecutor => None end.

Lemma thread_step_conserves {F} (op : thread_op F) st :
  (thread_step st op).2 ++ omap id (ThreadQueue.m_methodsQueue (thread_step st op).1)
    = st.2 ++ omap id (ThreadQueue.m_methodsQueue st.1) ++ option_list (added op).
Proof.
  destruct st as [[q] done]. destruct op as [func|]; simpl.
  - rewrite omap_app. by destruct func.
  - destruct q as [|[f|] q]; simpl; by rewrite ?app_nil_r, <- ?(assoc_L (++)).
Qed.

(** the worker calls the methods of a [ThreadQueue] in the order in which
    they were added, each once; what it has called, followed by the non-empty
    functions still queued, is what was added. *)
Theorem ThreadQueue_fifo {F} (ops : list (thread_op F)) :
  let st := thread_run ops (ThreadQueue.mk [], []) in
  st.2 ++ omap id (ThreadQueue.m_methodsQueue st.1) = omap added ops.
Proof.
  assert (∀ st, (thread_run ops st).2 ++ omap id (ThreadQueue.m_methodsQueue (thread_run ops st).1)
    = st.2 ++ omap id (ThreadQueue.m_methodsQueue st.1) ++ omap added ops) as Hgen.
  { induction ops as [|op ops IH]; intros st; simpl; [by rewrite app_nil_r|].
    rewrite IH, (assoc_L (++)), thread_step_conserves.
    destruct (added op); simpl; by rewrite <- ?(assoc_L (++)), ?app_nil_r. }
  apply Hgen.
Qed.
