(* ===== verification/ExecutionManager.v ===== *)
(** * The Execution Manager

    [applications/ExecutionManager/include/execution_manager.hpp] and
    [src/execution_manager.cpp]: the state of the class, one computation per member
    function, and the member functions composed as the code composes them. Calls to
    the application handler and to the RPC client are the effects ([call]). The
    other threads act between the phases of [setMachineState]; [ExecutionManager]
    is sequential except for the waiting loop, and [EMSystem] interleaves. *)

From stdpp Require Import base list gmap strings.
From S2P Require Import Prelude CppString Constants.

(** ** State *)

Record t := mk {
  m_activeProcesses : gset string;
  m_readyToTransitToNextState : bool;
  m_componentConfirmsReceived : bool;
  m_allowedProcessesForState : gmap string (gset string);
  m_currentState : string;
  m_pendingState : string;
  m_currentComponentState : string;
  m_machineManifestStates : list string;
  m_stateConfirmToBeReceived : gset Z;
  m_registeredComponents : gset string;
  m_componentPendingConfirms : gset string;
  m_componentStateUpdateSbscrs : list string;
}.

Definition upd_active f (e : t) : t :=
  mk (f (m_activeProcesses e)) (m_readyToTransitToNextState e) (m_componentConfirmsReceived e) (m_allowedProcessesForState e)
     (m_currentState e) (m_pendingState e) (m_currentComponentState e) (m_machineManifestStates e)
     (m_stateConfirmToBeReceived e) (m_registeredComponents e) (m_componentPendingConfirms e) (m_componentStateUpdateSbscrs e).
Definition upd_ready f (e : t) : t :=
  mk (m_activeProcesses e) (f (m_readyToTransitToNextState e)) (m_componentConfirmsReceived e) (m_allowedProcessesForState e)
     (m_currentState e) (m_pendingState e) (m_currentComponentState e) (m_machineManifestStates e)
     (m_stateConfirmToBeReceived e) (m_registeredComponents e) (m_componentPendingConfirms e) (m_componentStateUpdateSbscrs e).
Definition upd_confirms f (e : t) : t :=
  mk (m_activeProcesses e) (m_readyToTransitToNextState e) (f (m_componentConfirmsReceived e)) (m_allowedProcessesForState e)
     (m_currentState e) (m_pendingState e) (m_currentComponentState e) (m_machineManifestStates e)
     (m_stateConfirmToBeReceived e) (m_registeredComponents e) (m_componentPendingConfirms e) (m_componentStateUpdateSbscrs e).
Definition upd_allowed f (e : t) : t :=
  mk (m_activeProcesses e) (m_readyToTransitToNextState e) (m_componentConfirmsReceived e) (f (m_allowedProcessesForState e))
     (m_currentState e) (m_pendingState e) (m_currentComponentState e) (m_machineManifestStates e)
     (m_stateConfirmToBeReceived e) (m_registeredComponents e) (m_componentPendingConfirms e) (m_componentStateUpdateSbscrs e).
Definition upd_current f (e : t) : t :=
  mk (m_activeProcesses e) (m_readyToTransitToNextState e) (m_componentConfirmsReceived e) (m_allowedProcessesForState e)
     (f (m_currentState e)) (m_pendingState e) (m_currentComponentState e) (m_machineManifestStates e)
     (m_stateConfirmToBeReceived e) (m_registeredComponents e) (m_componentPendingConfirms e) (m_componentStateUpdateSbscrs e).
Definition upd_pending f (e : t) : t :=
  mk (m_activeProcesses e) (m_readyToTransitToNextState e) (m_componentConfirmsReceived e) (m_allowedProcessesForState e)
     (m_currentState e) (f (m_pendingState e)) (m_currentComponentState e) (m_machineManifestStates e)
     (m_stateConfirmToBeReceived e) (m_registeredComponents e) (m_componentPendingConfirms e) (m_componentStateUpdateSbscrs e).
Definition upd_componentState f (e : t) : t :=
  mk (m_activeProcesses e) (m_readyToTransitToNextState e) (m_componentConfirmsReceived e) (m_allowedProcessesForState e)
     (m_currentState e) (m_pendingState e) (f (m_currentComponentState e)) (m_machineManifestStates e)
     (m_stateConfirmToBeReceived e) (m_registeredComponents e) (m_componentPendingConfirms e) (m_componentStateUpdateSbscrs e).
Definition upd_registered f (e : t) : t :=
  mk (m_activeProcesses e) (m_readyToTransitToNextState e) (m_componentConfirmsReceived e) (m_allowedProcessesForState e)
     (m_currentState e) (m_pendingState e) (m_currentComponentState e) (m_machineManifestStates e)
     (m_stateConfirmToBeReceived e) (f (m_registeredComponents e)) (m_componentPendingConfirms e) (m_componentStateUpdateSbscrs e).
Definition upd_pendingConfirms f (e : t) : t :=
  mk (m_activeProcesses e) (m_readyToTransitToNextState e) (m_componentConfirmsReceived e) (m_allowedProcessesForState e)
     (m_currentState e) (m_pendingState e) (m_currentComponentState e) (m_machineManifestStates e)
     (m_stateConfirmToBeReceived e) (m_registeredComponents e) (f (m_componentPendingConfirms e)) (m_componentStateUpdateSbscrs e).
Definition upd_subscribers f (e : t) : t :=
  mk (m_activeProcesses e) (m_readyToTransitToNextState e) (m_componentConfirmsReceived e) (m_allowedProcessesForState e)
     (m_currentState e) (m_pendingState e) (m_currentComponentState e) (m_machineManifestStates e)
     (m_stateConfirmToBeReceived e) (m_registeredComponents e) (m_componentPendingConfirms e) (f (m_componentStateUpdateSbscrs e)).

(** Calls to [IApplicationHandler] and [IExecutionManagerClient]. *)
Inductive call :=
  | startProcess (service : string)
  | killProcess (service : string)
  | isActiveProcess (service : string)
  | SetComponentState (state componentName : string)
  | confirm (status : StateError.t).

#[export] Instance call_eq_dec : EqDecision call.
Proof. solve_decision. Defined.

(** What the constructor reads from [IManifestReader]. *)
Record IManifestReader := {
  getStatesSupportedByApplication : outcome (gmap string (gset string));
  getMachineStates : outcome (list string);
}.

(** ** Construction *)

(** The loop erases, in key order, the entries of states the machine manifest does
    not declare. *)
Definition filterStates (manifestStates : list string)
    (m : gmap string (gset string)) : gmap string (gset string) :=
  foldl (λ m state, if decide (state ∈ manifestStates) then m else delete state m)
        m (in_order (dom m)).

(** Members are initialised in the order of their declaration. *)
Definition construct (reader : IManifestReader) : outcome t :=
  allowed ← getStatesSupportedByApplication reader;
  states ← getMachineStates reader;
  Ret (mk ∅ false false (filterStates states allowed) "" "" "" states ∅ ∅ ∅ []).

(** ** Starting and killing applications *)

(** The processes of a state; [find] and [operator[]] differ only in the entry
    the latter creates. *)
Definition allowed_for (e : t) (state : string) : gset string :=
  default ∅ (m_allowedProcessesForState e !! state).

Definition startApplication (process : string) : cpp t call unit :=
  emit (startProcess process).

Definition appsToBeStarted (e : t) : list string :=
  match m_allowedProcessesForState e !! m_pendingState e with
  | Some apps => filter (λ app, app ∉ m_activeProcesses e) (in_order apps)
  | None => []
  end.

Section polling.
(** The answer of [isActiveProcess] for a process in a round of the poll. *)
Context (alive : nat → string → bool).

(** One pass over the applications: true as soon as an active one has "msm" in
    its name; [isActiveProcess] is called first, as in the condition. *)
Fixpoint pollApps (round : nat) (apps : list string) : cpp t call bool :=
  match apps with
  | [] => mret false
  | app :: apps =>
      emit (isActiveProcess app) ;;
      if alive round app && contains "msm" app then mret true
      else pollApps round apps
  end.

Definition timesToPollApps : nat := 6.

Fixpoint pollRounds (n round : nat) (apps : list string) : cpp t call bool :=
  match n with
  | O => mret false
  | S n =>
      found ← pollApps round apps;
      if found : bool then mret true else pollRounds n (S round) apps
  end.

(** The poll runs in its own thread and sleeps a second before each round; its
    calls are listed after the starts. *)
Definition startApplicationsForState : cpp t call bool :=
  e ← get;
  let apps := appsToBeStarted e in
  if decide (m_pendingState e = MACHINE_STATE_STARTUP) then
    for_each startApplication apps ;;
    pollRounds timesToPollApps 0 apps
  else
    for_each startApplication apps ;;
    mret true.
End polling.

Definition processToBeKilled (app : string) (allowedApps : gset string) : bool :=
  bool_decide (app ∉ allowedApps).

Definition killProcessesForState : cpp t call unit :=
  e ← get;
  let allowedApps := m_allowedProcessesForState e !! m_pendingState e in
  for_each (λ app,
    if match allowedApps with
       | None => true
       | Some apps => processToBeKilled app apps
       end
    then
      emit (killProcess app) ;;
      modify (upd_subscribers (filter (λ subscr, subscr ≠ app)))
    else mret tt) (in_order (m_activeProcesses e)).

(** ** Components *)

Definition changeComponentsState : cpp t call unit :=
  e ← get;
  let state := if decide (m_pendingState e = MACHINE_STATE_SUSPEND)
               then COMPONENT_STATE_OFF else COMPONENT_STATE_ON in
  modify (upd_componentState (λ _, state)) ;;
  modify (upd_pendingConfirms (λ X, X ∪ m_registeredComponents e)) ;;
  for_each (λ subscriber, emit (SetComponentState state subscriber))
           (m_componentStateUpdateSbscrs e).

Definition registerComponent (component : string) (updateMode : StateUpdateMode.t) :
    cpp t call unit :=
  modify (upd_registered (λ X, X ∪ {[component]})) ;;
  if decide (updateMode = StateUpdateMode.K_EVENT)
  then modify (upd_subscribers (λ l, l ++ [component]))
  else mret tt.

(** The out-parameter [state] is assigned on success only. *)
Definition getComponentState (component state : string) :
    cpp t call (ComponentClientReturnType.t * string) :=
  e ← get;
  if decide (component ∈ m_registeredComponents e)
  then mret (ComponentClientReturnType.K_SUCCESS, m_currentComponentState e)
  else mret (ComponentClientReturnType.K_GENERAL_ERROR, state).

Definition confirmComponentState (component state : string)
    (status : ComponentClientReturnType.t) : cpp t call unit :=
  e ← get;
  if decide (m_componentPendingConfirms e = ∅) then
    modify (upd_confirms (λ _, true))
  else if decide (status = ComponentClientReturnType.K_GENERAL_ERROR ∨
                  status = ComponentClientReturnType.K_INVALID) then
    mret tt
  else
    modify (upd_pendingConfirms (λ X, X ∖ {[component]})) ;;
    e ← get;
    modify (upd_confirms (λ _, bool_decide (m_componentPendingConfirms e = ∅))).

(** ** Reports and queries *)

Definition applicationStateNames : list string :=
  [AA_STATE_INIT; AA_STATE_RUNNING; AA_STATE_SHUTDOWN; AA_STATE_SUSPEND].

(** The log line indexes [applicationStateNames] with the state's value, without
    a bound check: beyond the four names the access is undefined. *)
Definition reportApplicationState (appName : string) (state : Z) : cpp t call unit :=
  match applicationStateNames !! Z.to_nat state with
  | None => halt Undefined
  | Some _ =>
      if decide (state = AppState.kShuttingDown) then
        modify (upd_active (λ X, X ∖ {[appName]}))
      else if decide (state = AppState.kRunning) then
        modify (upd_active (λ X, X ∪ {[appName]}))
      else mret tt
  end.

Definition getMachineState : cpp t call string := gets m_currentState.

(** ** Machine state transitions *)

(** [m_allowedProcessesForState[m_pendingState]] creates a missing entry. *)
Definition allowed_at_pending : cpp t call (gset string) :=
  e ← get;
  match m_allowedProcessesForState e !! m_pendingState e with
  | Some apps => mret apps
  | None => modify (upd_allowed (<[m_pendingState e := ∅]>)) ;; mret ∅
  end.

Definition isConfirmAvailable : cpp t call bool :=
  allowed ← allowed_at_pending;
  e ← get;
  let result := bool_decide (m_activeProcesses e = allowed) in
  modify (upd_ready (λ _, result)) ;;
  mret result.

Definition confirmState (status : StateError.t) : cpp t call unit := emit (confirm status).

(** The phases of [setMachineState], in order. The first one tells whether the
    request is refused. *)
Definition sms_check (state : string) : cpp t call bool :=
  modify (upd_ready (λ _, false)) ;;
  modify (upd_confirms (λ _, false)) ;;
  e ← get;
  if decide (state ∉ m_machineManifestStates e) then mret true
  else if decide (state = m_currentState e) then mret true
  else modify (upd_pending (λ _, state)) ;; mret false.

(** The condition of the first log message calls [isConfirmAvailable]. *)
Definition sms_log : cpp t call unit := isConfirmAvailable ;; mret tt.

Definition is_component_state (state : string) : bool :=
  bool_decide (state = MACHINE_STATE_SUSPEND ∨ state = MACHINE_STATE_RUNNING).

(** The condition and the body of the waiting loop, in its two forms. *)
Definition wait_test : cpp t call bool :=
  e ← get;
  if is_component_state (m_pendingState e)
  then mret (negb (m_readyToTransitToNextState e) && negb (m_componentConfirmsReceived e))
  else mret (negb (m_readyToTransitToNextState e)).

Definition wait_body : cpp t call unit :=
  e ← get;
  if is_component_state (m_pendingState e) then
    r ← isConfirmAvailable;
    modify (upd_ready (λ _, r)) ;;
    e ← get;
    modify (upd_confirms (λ _, bool_decide (m_componentPendingConfirms e = ∅)))
  else
    r ← isConfirmAvailable;
    modify (upd_ready (λ _, r)).

Definition sms_finish : cpp t call StateError.t :=
  confirmState StateError.K_SUCCESS ;;
  e ← get;
  modify (upd_current (λ _, m_pendingState e)) ;;
  mret StateError.K_SUCCESS.

(** A request that another thread serves while [setMachineState] waits. *)
Inductive request :=
  | ReportApplicationState (appName : string) (state : Z)
  | RegisterComponent (component : string) (mode : StateUpdateMode.t)
  | GetComponentState (component : string)
  | ConfirmComponentState (component state : string) (status : ComponentClientReturnType.t)
  | GetMachineState.

Definition serve (r : request) : cpp t call unit :=
  match r with
  | ReportApplicationState appName state => reportApplicationState appName state
  | RegisterComponent component mode => registerComponent component mode
  | GetComponentState component => getComponentState component "" ;; mret tt
  | ConfirmComponentState component state status =>
      confirmComponentState component state status
  | GetMachineState => getMachineState ;; mret tt
  end.

Section setMachineState.
Context (alive : nat → string → bool).

(** The waiting loop. [others] lists what the other threads do after each
    iteration; when the list ends the loop would spin for ever. *)
Fixpoint wait (others : list (list request)) : cpp t call unit :=
  continue ← wait_test;
  if continue : bool then
    wait_body ;;
    match others with
    | [] => halt Blocked
    | batch :: others => for_each serve batch ;; wait others
    end
  else mret tt.

Definition setMachineState (others : list (list request)) (state : string) :
    cpp t call StateError.t :=
  refused ← sms_check state;
  if refused : bool then mret StateError.K_INVALID_STATE
  else
    killProcessesForState ;;
    started ← startApplicationsForState alive;
    if negb started then mret StateError.K_INVALID_REQUEST
    else
      changeComponentsState ;;
      sms_log ;;
      wait others ;;
      sms_finish.
End setMachineState.

(** ** Equations of the phases *)

Lemma allowed_for_None e s : m_allowedProcessesForState e !! s = None → allowed_for e s = ∅.
Proof. intros H. unfold allowed_for. by rewrite H. Qed.

Lemma allowed_for_Some e s X : m_allowedProcessesForState e !! s = Some X → allowed_for e s = X.
Proof. intros H. unfold allowed_for. by rewrite H. Qed.

(** The processes a transition kills and the ones it starts. *)
Definition to_kill (e : t) (state : string) : gset string :=
  m_activeProcesses e ∖ allowed_for e state.
Definition to_start (e : t) (state : string) : gset string :=
  allowed_for e state ∖ m_activeProcesses e.

Lemma kill_loop (b : string → bool) l e :
  for_each (λ app,
    if b app then
      emit (killProcess app) ;;
      modify (upd_subscribers (filter (λ subscr, subscr ≠ app)))
    else mret tt) l e
  = (killProcess <$> filter b l,
     upd_subscribers (filter (λ s, s ∉ filter b l)) e, Ret tt).
Proof.
  revert e. induction l as [|x l IH]; intros e.
  - unfold upd_subscribers. cbn. do 2 f_equal.
    rewrite list_filter_all by (intros; apply not_elem_of_nil). by destruct e.
  - cbn [for_each]. rewrite filter_cons. destruct (b x) eqn:Hx.
    + rewrite decide_True by done.
      erewrite run_bind by done. rewrite IH. cbn. do 2 f_equal.
      unfold upd_subscribers. cbn. f_equal.
      rewrite list_filter_filter. apply list_filter_iff. intros y.
      rewrite not_elem_of_cons. tauto.
    + rewrite decide_False by auto. erewrite run_bind by done. by rewrite IH.
Qed.

Lemma killProcessesForState_run e :
  killProcessesForState e =
    (killProcess <$> in_order (to_kill e (m_pendingState e)),
     upd_subscribers (filter (λ s, s ∉ to_kill e (m_pendingState e))) e, Ret tt).
Proof.
  unfold killProcessesForState. erewrite run_bind by done. rewrite kill_loop. cbn.
  assert (filter (λ app, Is_true match m_allowedProcessesForState e !! m_pendingState e with
                         | None => true | Some apps => processToBeKilled app apps end)
            (in_order (m_activeProcesses e)) = in_order (to_kill e (m_pendingState e))) as ->.
  { unfold to_kill. rewrite <- filter_in_order_difference. apply list_filter_iff. intros x.
    unfold allowed_for, processToBeKilled.
    destruct (m_allowedProcessesForState e !! m_pendingState e); simpl.
    - by rewrite bool_decide_spec.
    - set_solver. }
  do 2 f_equal. unfold upd_subscribers. f_equal. apply list_filter_iff. intros x.
  by rewrite elem_of_in_order.
Qed.

Lemma appsToBeStarted_spec e : appsToBeStarted e = in_order (to_start e (m_pendingState e)).
Proof.
  unfold appsToBeStarted, to_start.
  destruct (m_allowedProcessesForState e !! m_pendingState e) as [apps|] eqn:H.
  - by rewrite (allowed_for_Some _ _ _ H), filter_in_order_difference.
  - rewrite (allowed_for_None _ _ H). by replace (∅ ∖ m_activeProcesses e) with (∅ : gset string) by set_solver.
Qed.

Section start_equations.
Context (alive : nat → string → bool).

(** A critical application answers in one of [n] rounds from round [r]. *)
Definition critical_alive (n r : nat) (apps : list string) : bool :=
  existsb (λ i, existsb (λ app, alive i app && contains "msm" app) apps) (seq r n).

Definition is_poll (c : call) : bool := match c with isActiveProcess _ => true | _ => false end.

Lemma pollApps_run r apps e :
  ∃ polls, Forall is_poll polls ∧
    pollApps alive r apps e =
      (polls, e, Ret (existsb (λ app, alive r app && contains "msm" app) apps)).
Proof.
  induction apps as [|app apps (polls & Hpolls & IH)]; [by exists []|]. cbn [pollApps existsb].
  destruct (alive r app && contains "msm" app).
  - exists [isActiveProcess app]. split; [by repeat constructor|done].
  - exists (isActiveProcess app :: polls). split; [by constructor|].
    erewrite run_bind by done. by rewrite IH.
Qed.

Lemma pollRounds_run n r apps e :
  ∃ polls, Forall is_poll polls ∧
    pollRounds alive n r apps e = (polls, e, Ret (critical_alive n r apps)).
Proof.
  revert r. induction n as [|n IH]; intros r; [by exists []|]. cbn [pollRounds].
  destruct (pollApps_run r apps e) as (polls & Hpolls & Hrun).
  erewrite run_bind by done. unfold critical_alive. cbn [seq existsb].
  destruct (existsb _ apps); cbn [orb].
  - exists polls. split; [done|]. cbn. by rewrite app_nil_r.
  - destruct (IH (S r)) as (polls' & Hpolls' & ->).
    exists (polls ++ polls'). split; [by apply Forall_app|done].
Qed.

(** Whether [startApplicationsForState] succeeds, and its calls. *)
Definition started (e : t) : bool :=
  if decide (m_pendingState e = MACHINE_STATE_STARTUP)
  then critical_alive timesToPollApps 0 (in_order (to_start e (m_pendingState e)))
  else true.

Lemma startApplicationsForState_run e :
  ∃ polls, Forall is_poll polls ∧
    (m_pendingState e ≠ MACHINE_STATE_STARTUP → polls = []) ∧
    startApplicationsForState alive e =
      ((startProcess <$> in_order (to_start e (m_pendingState e))) ++ polls, e,
       Ret (started e)).
Proof.
  unfold startApplicationsForState, started. erewrite run_bind by done.
  rewrite appsToBeStarted_spec. case_decide as Hs.
  - erewrite run_bind by apply for_each_emit.
    destruct (pollRounds_run timesToPollApps 0
      (in_order (to_start e (m_pendingState e))) e) as (polls & Hpolls & ->).
    exists polls. by split; [|split].
  - erewrite run_bind by apply for_each_emit. exists []. split; [constructor|done].
Qed.
End start_equations.

Lemma changeComponentsState_run e :
  changeComponentsState e =
    (let state := if decide (m_pendingState e = MACHINE_STATE_SUSPEND)
                  then COMPONENT_STATE_OFF else COMPONENT_STATE_ON in
     (SetComponentState state <$> m_componentStateUpdateSbscrs e,
      upd_pendingConfirms (λ X, X ∪ m_registeredComponents e)
        (upd_componentState (λ _, state) e), Ret tt)).
Proof.
  unfold changeComponentsState. erewrite run_bind by done. case_decide;
    (erewrite run_bind by done; erewrite run_bind by done; by rewrite for_each_emit).
Qed.

(** [operator[]] only adds an empty entry, which no later lookup can tell from a
    missing one. *)
Definition touch (e : t) : t :=
  match m_allowedProcessesForState e !! m_pendingState e with
  | Some _ => e
  | None => upd_allowed (<[m_pendingState e := ∅]>) e
  end.

Lemma allowed_for_touch e s : allowed_for (touch e) s = allowed_for e s.
Proof.
  unfold touch. destruct (m_allowedProcessesForState e !! m_pendingState e) eqn:H; [done|].
  unfold allowed_for, upd_allowed. cbn. destruct (decide (m_pendingState e = s)) as [<-|Hs].
  - by rewrite lookup_insert_eq, H.
  - by rewrite lookup_insert_ne.
Qed.

(** The condition a transition waits for. *)
Definition settled (e : t) : bool :=
  bool_decide (m_activeProcesses e = allowed_for e (m_pendingState e)).

Lemma isConfirmAvailable_run e :
  isConfirmAvailable e =
    ([], upd_ready (λ _, settled e) (touch e), Ret (settled e)).
Proof.
  unfold isConfirmAvailable, allowed_at_pending, touch, settled, allowed_for.
  cbv [mbind cpp_bind get mret cpp_ret]. cbn.
  by destruct (m_allowedProcessesForState e !! m_pendingState e).
Qed.

Lemma wait_test_run e :
  wait_test e = ([], e, Ret (negb (m_readyToTransitToNextState e) &&
    negb (is_component_state (m_pendingState e) && m_componentConfirmsReceived e))).
Proof.
  unfold wait_test. erewrite run_bind by done.
  destruct (is_component_state (m_pendingState e)); [done|].
  by rewrite andb_true_r.
Qed.

Lemma wait_body_run e :
  wait_body e =
    ([], (if is_component_state (m_pendingState e)
          then upd_confirms (λ _, bool_decide (m_componentPendingConfirms e = ∅))
          else id) (upd_ready (λ _, settled e) (touch e)), Ret tt).
Proof.
  unfold wait_body. erewrite run_bind by done.
  destruct (is_component_state (m_pendingState e)) eqn:Hc;
    (erewrite run_bind by apply isConfirmAvailable_run).
  - unfold touch. cbv [mbind cpp_bind get modify]. cbn.
    by destruct (m_allowedProcessesForState e !! m_pendingState e).
  - unfold touch. cbv [modify id]. by destruct (m_allowedProcessesForState e !! m_pendingState e).
Qed.

(** ** What the other threads leave alone *)

(** The part of the state only [setMachineState] changes. *)
Definition transition_part (e : t) :=
  (m_readyToTransitToNextState e, m_allowedProcessesForState e, m_currentState e,
   m_pendingState e, m_currentComponentState e, m_machineManifestStates e).

Lemma serve_silent r : silent (serve r).
Proof.
  intros e. destruct r; cbn [serve];
    unfold reportApplicationState, registerComponent, getComponentState,
      confirmComponentState, getMachineState; cpp_run.
Qed.

Lemma serve_transition_part r p : preserves (λ e, transition_part e = p) (serve r).
Proof.
  intros e <-.
  destruct r; cbn [serve];
    unfold reportApplicationState, registerComponent, getComponentState,
      confirmComponentState, getMachineState; cpp_run.
Qed.

Lemma batch_silent batch : silent (for_each serve batch).
Proof. apply silent_for_each, serve_silent. Qed.

Lemma batch_transition_part batch p :
  preserves (λ e, transition_part e = p) (for_each serve batch).
Proof. apply preserves_for_each. intros r. apply serve_transition_part. Qed.

(** Waiting makes no calls and changes neither the current nor the pending state. *)
Lemma wait_silent others : silent (wait others).
Proof.
  assert (silent wait_test) by (intros e; by rewrite wait_test_run).
  assert (silent wait_body) by (intros e; by rewrite wait_body_run).
  induction others as [|batch others IH]; cbn [wait];
    (apply silent_bind; [done|]; intros []; [|apply silent_ret]);
    (apply silent_bind; [done|]; intros _); [apply silent_halt|].
  apply silent_bind; [apply batch_silent|done].
Qed.

Definition states_part (e : t) :=
  (m_currentState e, m_pendingState e, m_machineManifestStates e).

Lemma touch_states_part e : states_part (touch e) = states_part e.
Proof. unfold touch. by case_match. Qed.

Lemma wait_states_part others p : preserves (λ e, states_part e = p) (wait others).
Proof.
  assert (preserves (λ e, states_part e = p) wait_test)
    by (intros e <-; rewrite wait_test_run; reflexivity).
  assert (preserves (λ e, states_part e = p) wait_body).
  { intros e <-. rewrite wait_body_run. cbn.
    transitivity (states_part (touch e)); [|apply touch_states_part].
    destruct (is_component_state _); reflexivity. }
  assert (∀ batch, preserves (λ e, states_part e = p) (for_each serve batch)).
  { intros batch e <-. pose proof (batch_transition_part batch _ e eq_refl) as H'.
    unfold transition_part, states_part in *. congruence. }
  induction others as [|batch others IH]; cbn [wait];
    (apply preserves_bind; [done|]; intros []; [|apply preserves_ret]);
    (apply preserves_bind; [done|]; intros _); [apply preserves_halt|].
  by apply preserves_bind.
Qed.

(** Waiting ends with the loop condition false, or does not end. *)
Lemma wait_ret others e tr e' :
  wait others e = (tr, e', Ret tt) →
  m_readyToTransitToNextState e' = true ∨
  is_component_state (m_pendingState e') = true ∧ m_componentConfirmsReceived e' = true.
Proof.
  revert e tr. induction others as [|batch others IH]; intros e tr; cbn [wait]; intros H;
    apply run_bind_inv in H as (tr1 & e1 & go & tr2 & Ht & H & _);
    rewrite wait_test_run in Ht; simplify_eq; destruct (negb _ && _) eqn:Hgo.
  1, 3: apply run_bind_inv in H as (tr3 & e2 & [] & tr4 & Hb & H & _).
  - done.
  - by apply run_bind_inv in H as (tr5 & e3 & [] & tr6 & _ & H & _); eapply IH.
  - simplify_eq. unfold mret, cpp_ret in H. simplify_eq.
    destruct (m_readyToTransitToNextState e'), (is_component_state _),
      (m_componentConfirmsReceived e'); naive_solver.
  - simplify_eq. unfold mret, cpp_ret in H. simplify_eq.
    destruct (m_readyToTransitToNextState e'), (is_component_state _),
      (m_componentConfirmsReceived e'); naive_solver.
Qed.

(** ** [setMachineState] *)

(** The state in which the phases after the check run, and when it is refused. *)
Definition refuses (e : t) (state : string) : bool :=
  bool_decide (state ∉ m_machineManifestStates e ∨ state = m_currentState e).

Definition flags_reset (e : t) : t :=
  upd_confirms (λ _, false) (upd_ready (λ _, false) e).

Lemma sms_check_run state e :
  sms_check state e =
    ([], if refuses e state then flags_reset e
         else upd_pending (λ _, state) (flags_reset e), Ret (refuses e state)).
Proof.
  unfold sms_check, refuses, flags_reset. cbv [mbind cpp_bind modify get mret cpp_ret]. cbn.
  repeat case_decide; case_bool_decide; naive_solver.
Qed.

(** The state after the kills, the starts and the notification of components. *)
Definition requested (e : t) (state : string) : t :=
  upd_pendingConfirms (λ X, X ∪ m_registeredComponents e)
    (upd_componentState (λ _, if decide (state = MACHINE_STATE_SUSPEND)
                              then COMPONENT_STATE_OFF else COMPONENT_STATE_ON)
      (upd_subscribers (filter (λ s, s ∉ to_kill e state))
        (upd_pending (λ _, state) (flags_reset e)))).

Lemma requested_allowed_for e state s : allowed_for (requested e state) s = allowed_for e s.
Proof. done. Qed.

Lemma sms_finish_run e :
  sms_finish e = ([confirm StateError.K_SUCCESS], upd_current (λ _, m_pendingState e) e,
                  Ret StateError.K_SUCCESS).
Proof. done. Qed.

Definition kill_calls (e : t) (state : string) : list call :=
  killProcess <$> in_order (to_kill e state).
Definition start_calls (e : t) (state : string) : list call :=
  startProcess <$> in_order (to_start e state).
Definition notify_calls (e : t) (state : string) : list call :=
  SetComponentState (m_currentComponentState (requested e state)) <$>
    m_componentStateUpdateSbscrs (requested e state).

Section transitions.
Context (alive : nat → string → bool).

(** Whether the applications of the requested state could be started. *)
Definition start_ok (e : t) (state : string) : bool :=
  if decide (state = MACHINE_STATE_STARTUP)
  then critical_alive alive timesToPollApps 0 (in_order (to_start e state)) else true.

(** The state in which the waiting loop is entered. *)
Definition waiting (e : t) (state : string) : t :=
  upd_ready (λ _, settled (requested e state)) (touch (requested e state)).

Lemma setMachineState_refused_run others state e :
  refuses e state = true →
  setMachineState alive others state e =
    ([], flags_reset e, Ret StateError.K_INVALID_STATE).
Proof.
  intros Hr. unfold setMachineState. erewrite run_bind by apply sms_check_run.
  by rewrite Hr.
Qed.

Lemma setMachineState_accepted_run others state e :
  refuses e state = false →
  ∃ polls, Forall is_poll polls ∧ (state ≠ MACHINE_STATE_STARTUP → polls = []) ∧
    setMachineState alive others state e =
      if start_ok e state then
        match wait others (waiting e state) with
        | (tr, e', Ret _) =>
            (kill_calls e state ++ start_calls e state ++ polls ++ notify_calls e state
               ++ tr ++ [confirm StateError.K_SUCCESS],
             upd_current (λ _, m_pendingState e') e', Ret StateError.K_SUCCESS)
        | (tr, e', Stop w) =>
            (kill_calls e state ++ start_calls e state ++ polls ++ notify_calls e state
               ++ tr, e', Stop w)
        end
      else
        (kill_calls e state ++ start_calls e state ++ polls,
         upd_subscribers (filter (λ s, s ∉ to_kill e state))
           (upd_pending (λ _, state) (flags_reset e)),
         Ret StateError.K_INVALID_REQUEST).
Proof.
  intros Hr. set (e1 := upd_pending (λ _, state) (flags_reset e)).
  set (e2 := upd_subscribers (filter (λ s, s ∉ to_kill e state)) e1).
  destruct (startApplicationsForState_run alive e2) as (polls & Hpolls & Hnone & Hstart).
  exists polls. split; [done|]. split; [done|].
  unfold setMachineState. erewrite run_bind by apply sms_check_run. rewrite Hr.
  fold e1. erewrite run_bind by apply killProcessesForState_run.
  change (upd_subscribers _ e1) with e2. erewrite run_bind by exact Hstart.
  change (started alive e2) with (start_ok e state).
  destruct (start_ok e state); cbn [negb].
  2: { cbn. by rewrite <- ?(assoc_L (++)), ?app_nil_r. }
  erewrite run_bind by apply changeComponentsState_run.
  erewrite run_bind.
  2: { unfold sms_log. erewrite run_bind by apply isConfirmAvailable_run. done. }
  cbv zeta. change (upd_ready _ (touch _)) with (waiting e state).
  destruct (wait others (waiting e state)) as [[tr e'] [[]|w]] eqn:Hw.
  - erewrite run_bind by exact Hw. rewrite sms_finish_run. cbn.
    by rewrite <- ?(assoc_L (++)), ?app_nil_r.
  - erewrite run_bind_stop by exact Hw. cbn. by rewrite <- ?(assoc_L (++)).
Qed.
End transitions.
