(* ===== verification/ExecutionManagerSpec.v ===== *)
(** * What the Execution Manager does

    Properties of the member functions of [ExecutionManager]: construction, the
    three results of [setMachineState] with the calls each makes, completion of a
    transition, the component protocol, and the invariant of the state. *)

From stdpp Require Import base list gmap strings.
From S2P Require Import Prelude CppString Constants ExecutionManager.

(** ** Serving requests *)

(** Reports of the two states the Execution Manager acts on. *)
Definition report_ok (r : request) : Prop :=
  match r with
  | ReportApplicationState _ st => st = AppState.kShuttingDown ∨ st = AppState.kRunning
  | _ => True
  end.

Lemma serve_active r e :
  report_ok r →
  ∃ e', serve r e = ([], e', Ret tt) ∧
    m_activeProcesses e' =
      match r with
      | ReportApplicationState p st =>
          if decide (st = AppState.kShuttingDown) then m_activeProcesses e ∖ {[p]}
          else m_activeProcesses e ∪ {[p]}
      | _ => m_activeProcesses e
      end.
Proof.
  destruct r as [p st|c []|c|c s st|]; cbn [serve report_ok];
    unfold reportApplicationState, registerComponent, getComponentState,
      confirmComponentState, getMachineState; intros Hok;
    try (cpp_run; by eexists).
  destruct Hok as [-> | ->]; cpp_run; by eexists.
Qed.

(** A batch in which no process reports both states. *)
Lemma batch_active batch e :
  Forall report_ok batch →
  (∀ p, ReportApplicationState p AppState.kRunning ∈ batch →
        ReportApplicationState p AppState.kShuttingDown ∉ batch) →
  ∃ e', for_each serve batch e = ([], e', Ret tt) ∧
    ∀ p, p ∈ m_activeProcesses e' ↔
      ReportApplicationState p AppState.kRunning ∈ batch ∨
      p ∈ m_activeProcesses e ∧ ReportApplicationState p AppState.kShuttingDown ∉ batch.
Proof.
  intros Hok. revert e. induction Hok as [|r batch Hr Hok IH]; intros e Hdisj.
  { exists e. split; [done|]. intros p. rewrite !elem_of_nil. tauto. }
  destruct (serve_active r e Hr) as (e1 & Hrun & Hact).
  destruct (IH e1) as (e2 & Hrun2 & Hact2).
  { intros p Hp. specialize (Hdisj p). rewrite !elem_of_cons in Hdisj. tauto. }
  exists e2. split.
  { cbn [for_each]. erewrite run_bind by done. by rewrite Hrun2. }
  intros p. rewrite Hact2, Hact, !elem_of_cons. specialize (Hdisj p).
  rewrite !elem_of_cons in Hdisj.
  destruct r as [q st| | | |].
  2-5: match goal with |- context [_ = ?r] =>
         assert (∀ a, ReportApplicationState p a ≠ r) as Hne by done end;
       pose proof (Hne AppState.kRunning); pose proof (Hne AppState.kShuttingDown); tauto.
  assert (Hinj : ∀ a b, ReportApplicationState p a = ReportApplicationState q b ↔ p = q ∧ a = b)
    by (intros a b; split; [by intros [= -> ->]|by intros [-> ->]]).
  rewrite !Hinj in Hdisj |- *.
  assert (AppState.kRunning ≠ AppState.kShuttingDown) by done.
  destruct Hr as [-> | ->].
  - rewrite decide_True by done. rewrite elem_of_difference, elem_of_singleton.
    destruct (decide (p = q)); tauto.
  - rewrite decide_False by done. rewrite elem_of_union, elem_of_singleton.
    destruct (decide (p = q)); tauto.
Qed.

(** ** Completion of a transition *)

Lemma transition_part_eq e1 e2 :
  transition_part e1 = transition_part e2 →
  m_pendingState e1 = m_pendingState e2 ∧ ∀ s, allowed_for e1 s = allowed_for e2 s.
Proof.
  unfold transition_part. intros H. injection H as _ Ha _ Hp _ _. split; [done|].
  intros s. unfold allowed_for. by rewrite Ha.
Qed.

Lemma states_part_eq e1 e2 :
  states_part e1 = states_part e2 →
  m_currentState e1 = m_currentState e2 ∧ m_pendingState e1 = m_pendingState e2 ∧
  m_machineManifestStates e1 = m_machineManifestStates e2.
Proof. unfold states_part. intros H. by injection H. Qed.

Lemma serve_allowed_for r A : preserves (λ e, ∀ s, allowed_for e s = A s) (serve r).
Proof.
  intros e HA s. rewrite <- HA.
  by apply (transition_part_eq _ e), (serve_transition_part r _ e eq_refl).
Qed.

Lemma wait_allowed_for others A : preserves (λ e, ∀ s, allowed_for e s = A s) (wait others).
Proof.
  assert (preserves (λ e, ∀ s, allowed_for e s = A s) wait_test)
    by (intros e HA; rewrite wait_test_run; exact HA).
  assert (preserves (λ e, ∀ s, allowed_for e s = A s) wait_body).
  { intros e HA s. rewrite wait_body_run. cbn.
    transitivity (allowed_for (touch e) s); [by destruct (is_component_state _)|].
    by rewrite allowed_for_touch. }
  induction others as [|batch others IH]; cbn [wait];
    (apply preserves_bind; [done|]; intros []; [|apply preserves_ret]);
    (apply preserves_bind; [done|]; intros _); [apply preserves_halt|].
  apply preserves_bind; [|done]. apply preserves_for_each. intros r. apply serve_allowed_for.
Qed.

(** An iteration of the waiting loop. *)
Definition iterate (e : t) : t := run_state (wait_body e).

Lemma iterate_run e : wait_body e = ([], iterate e, Ret tt).
Proof. unfold iterate. by rewrite wait_body_run. Qed.

Lemma iterate_part e :
  m_activeProcesses (iterate e) = m_activeProcesses e ∧
  m_pendingState (iterate e) = m_pendingState e ∧
  m_readyToTransitToNextState (iterate e) = settled e ∧
  (∀ s, allowed_for (iterate e) s = allowed_for e s).
Proof.
  unfold iterate. rewrite wait_body_run. cbn.
  assert (m_activeProcesses (touch e) = m_activeProcesses e ∧
          m_pendingState (touch e) = m_pendingState e) as [Ha Hp]
    by (unfold touch; by case_match).
  assert (∀ s, allowed_for (touch e) s = allowed_for e s) by apply allowed_for_touch.
  by destruct (is_component_state _).
Qed.

Lemma settled_spec e : settled e = true ↔ m_activeProcesses e = allowed_for e (m_pendingState e).
Proof. apply bool_decide_eq_true. Qed.

(** If what the other threads do in one iteration makes the active processes the
    allowed ones, the loop ends with them so, within two iterations. *)
Lemma wait_settles batch rest e e2 :
  (m_readyToTransitToNextState e = true → settled e = true) →
  m_componentConfirmsReceived e = false →
  for_each serve batch (iterate e) = ([], e2, Ret tt) → settled e2 = true →
  ∃ e', wait (batch :: [] :: rest) e = ([], e', Ret tt) ∧ settled e' = true.
Proof.
  intros Hready Hconf Hbatch Hset. cbn [wait].
  erewrite run_bind by apply wait_test_run. rewrite Hconf, andb_false_r, andb_true_r.
  destruct (m_readyToTransitToNextState e); cbn [negb]; [by exists e; auto|].
  erewrite run_bind by apply iterate_run. erewrite run_bind by exact Hbatch.
  erewrite run_bind by apply wait_test_run.
  destruct (negb _ && _); [|by exists e2].
  erewrite run_bind by apply iterate_run.
  destruct (iterate_part e2) as (Ha & Hp & Hr & Hall).
  assert (settled (iterate e2) = true).
  { apply settled_spec. rewrite Ha, Hp, Hall. by apply settled_spec. }
  erewrite run_bind by done.
  destruct rest as [|b rest]; cbn [wait];
    (erewrite run_bind by apply wait_test_run); rewrite Hr, Hset; by exists (iterate e2).
Qed.

(** The processes do as they are told: the killed ones report that they shut down,
    the started ones that they run, and nobody else reports; other requests may be
    served in between. *)
Definition reports_for (K St : gset string) (batch : list request) : Prop :=
  Forall report_ok batch ∧
  (∀ p, ReportApplicationState p AppState.kShuttingDown ∈ batch ↔ p ∈ K) ∧
  (∀ p, ReportApplicationState p AppState.kRunning ∈ batch ↔ p ∈ St).

Definition reports_of (K St : gset string) : list request :=
  ((λ p, ReportApplicationState p AppState.kShuttingDown) <$> in_order K) ++
  ((λ p, ReportApplicationState p AppState.kRunning) <$> in_order St).

Lemma reports_of_for K St : reports_for K St (reports_of K St).
Proof.
  unfold reports_for, reports_of. split; [|split].
  - rewrite Forall_app, !Forall_fmap, !Forall_forall. by split; intros x _; [left|right].
  - intros p. rewrite elem_of_app, !list_elem_of_fmap.
    setoid_rewrite elem_of_in_order. naive_solver.
  - intros p. rewrite elem_of_app, !list_elem_of_fmap.
    setoid_rewrite elem_of_in_order. naive_solver.
Qed.

(** What a transition asks of the processes leads exactly to the allowed set. *)
Lemma target_reached e s X :
  (∀ p, p ∈ X ↔ p ∈ to_start e s ∨ p ∈ m_activeProcesses e ∧ p ∉ to_kill e s) →
  X = allowed_for e s.
Proof.
  intros HX. apply set_eq. intros p. rewrite HX. unfold to_start, to_kill.
  rewrite !elem_of_difference.
  destruct (decide (p ∈ m_activeProcesses e)), (decide (p ∈ allowed_for e s)); tauto.
Qed.

Lemma settled_ext e1 e2 :
  m_activeProcesses e1 = m_activeProcesses e2 → m_pendingState e1 = m_pendingState e2 →
  (∀ s, allowed_for e1 s = allowed_for e2 s) → settled e1 = settled e2.
Proof. intros Ha Hp Hall. unfold settled. by rewrite Ha, Hp, Hall. Qed.

Lemma touch_part e :
  m_activeProcesses (touch e) = m_activeProcesses e ∧
  m_pendingState (touch e) = m_pendingState e ∧
  m_componentConfirmsReceived (touch e) = m_componentConfirmsReceived e.
Proof. unfold touch. by case_match. Qed.

Section transitions.
Context (alive : nat → string → bool).

Lemma waiting_part e s :
  m_activeProcesses (waiting e s) = m_activeProcesses e ∧
  m_pendingState (waiting e s) = s ∧
  m_componentConfirmsReceived (waiting e s) = false ∧
  m_readyToTransitToNextState (waiting e s) = settled (waiting e s) ∧
  (∀ s', allowed_for (waiting e s) s' = allowed_for e s').
Proof.
  assert (∀ f x, let x' := upd_ready f x in
    m_activeProcesses x' = m_activeProcesses x ∧ m_pendingState x' = m_pendingState x ∧
    m_componentConfirmsReceived x' = m_componentConfirmsReceived x ∧
    m_readyToTransitToNextState x' = f (m_readyToTransitToNextState x) ∧
    ∀ s', allowed_for x' s' = allowed_for x s') as Hready by done.
  destruct (Hready (λ _, settled (requested e s)) (touch (requested e s)))
    as (Ha & Hp & Hc & Hr & Hall). fold (waiting e s) in Ha, Hp, Hc, Hr, Hall.
  destruct (touch_part (requested e s)) as (Ha' & Hp' & Hc').
  rewrite Ha' in Ha. rewrite Hp' in Hp. rewrite Hc' in Hc.
  assert (∀ s', allowed_for (waiting e s) s' = allowed_for (requested e s) s') as Hall'
    by (intros s'; by rewrite Hall, allowed_for_touch).
  split; [exact Ha|]. split; [exact Hp|]. split; [exact Hc|]. split; [|exact Hall'].
  rewrite Hr. symmetry. exact (settled_ext _ _ Ha Hp Hall').
Qed.

Lemma reports_settle e s batch :
  reports_for (to_kill e s) (to_start e s) batch →
  ∃ e2, for_each serve batch (iterate (waiting e s)) = ([], e2, Ret tt) ∧
    settled e2 = true.
Proof.
  intros (Hok & HK & HSt). destruct (waiting_part e s) as (Ha & Hp & _ & _ & Hall).
  generalize dependent (waiting e s). intros w Ha Hp Hall.
  destruct (iterate_part w) as (Ha' & Hp' & _ & Hall').
  generalize dependent (iterate w). intros i Ha' Hp' Hall'.
  destruct (batch_active batch i Hok) as (e2 & Hrun & Hact).
  { intros p. rewrite HK, HSt. unfold to_start, to_kill.
    rewrite !elem_of_difference. tauto. }
  exists e2. split; [exact Hrun|]. apply settled_spec.
  assert (Hpart := batch_transition_part batch _ i eq_refl).
  unfold run_state in Hpart. rewrite Hrun in Hpart. simpl in Hpart.
  apply transition_part_eq in Hpart as [Hp2 Hall2].
  rewrite Hp2, Hp', Hp, Hall2, Hall', Hall.
  apply target_reached. intros p. by rewrite Hact, HK, HSt, Ha', Ha.
Qed.

(** A transition completes, and leaves the tables of the machine as they are. *)
Lemma transition_completes (e : t) (s : string) (batch : list request) (rest : list (list request)) :
  refuses e s = false →
  start_ok alive e s = true →
  reports_for (to_kill e s) (to_start e s) batch →
  ∃ tr e', setMachineState alive (batch :: [] :: rest) s e
             = (tr, e', Ret StateError.K_SUCCESS)
         ∧ m_currentState e' = s ∧ m_activeProcesses e' = allowed_for e s
         ∧ m_machineManifestStates e' = m_machineManifestStates e
         ∧ ∀ s', allowed_for e' s' = allowed_for e s'.
Proof.
  intros Href Hstart Hrep.
  destruct (setMachineState_accepted_run alive (batch :: [] :: rest) s e Href)
    as (polls & _ & _ & Hrun). rewrite Hrun, Hstart. clear Hrun.
  destruct (reports_settle e s batch Hrep) as (e2 & Hbatch & Hset).
  destruct (waiting_part e s) as (_ & Hp & Hc & Hr & Hall).
  assert (m_machineManifestStates (waiting e s) = m_machineManifestStates e) as Hm
    by (unfold waiting; pose proof (touch_states_part (requested e s)) as (_ & _ & Ht)%states_part_eq; exact Ht).
  generalize dependent (waiting e s). intros w Hbatch Hp Hc Hr Hall Hm.
  destruct (wait_settles batch rest w e2) as (e' & Hwait & Hset');
    [by rewrite Hr|exact Hc|exact Hbatch|exact Hset|].
  pose proof (wait_states_part (batch :: [] :: rest) _ w eq_refl) as Hst.
  pose proof (wait_allowed_for (batch :: [] :: rest) _ w Hall) as Hal.
  unfold run_state in Hst, Hal. rewrite Hwait in Hst, Hal |- *. simpl in Hst, Hal.
  apply states_part_eq in Hst as (_ & Hp' & Hm'). rewrite Hp in Hp'. rewrite Hm in Hm'.
  do 2 eexists. split; [reflexivity|]. split; [exact Hp'|].
  apply settled_spec in Hset'. rewrite Hp', Hal in Hset'. split_and!; [done|exact Hm'|exact Hal].
Qed.

(** C1: A machine state transition completes. If the requested state is declared
    and is not the current one, its applications can be started, and the processes
    that [setMachineState] kills and starts report so, then it returns
    [K_SUCCESS] within two iterations of its waiting loop, the requested state is
    current, and exactly the processes allowed in it are active. *)
Theorem setMachineState_completes (e : t) (s : string) (batch : list request)
    (rest : list (list request)) :
  refuses e s = false →
  start_ok alive e s = true →
  reports_for (to_kill e s) (to_start e s) batch →
  ∃ tr e', setMachineState alive (batch :: [] :: rest) s e
             = (tr, e', Ret StateError.K_SUCCESS)
         ∧ m_currentState e' = s ∧ m_activeProcesses e' = allowed_for e s.
Proof.
  intros Href Hstart Hrep.
  destruct (transition_completes e s batch rest Href Hstart Hrep) as (tr & e' & ? & ? & ? & _).
  by exists tr, e'.
Qed.
End transitions.

(** ** The results of [setMachineState] *)

Lemma setMachineState_outcome alive others s e r :
  run_outcome (setMachineState alive others s e) = Ret r →
  (r = StateError.K_INVALID_STATE ∧ refuses e s = true) ∨
  (r = StateError.K_INVALID_REQUEST ∧ refuses e s = false ∧ start_ok alive e s = false) ∨
  (r = StateError.K_SUCCESS ∧ refuses e s = false ∧ start_ok alive e s = true).
Proof.
  destruct (refuses e s) eqn:Hr.
  - rewrite setMachineState_refused_run by done. cbn. intros. simplify_eq. by left.
  - destruct (setMachineState_accepted_run alive others s e Hr) as (polls & _ & _ & ->).
    destruct (start_ok alive e s); [|cbn; intros; simplify_eq; tauto].
    destruct (wait others _) as [[tr e'] [[]|w]]; cbn; intros; simplify_eq; tauto.
Qed.

(** [setMachineState] refuses, with [K_INVALID_STATE], exactly the states the
    machine manifest does not declare and the current state; it then makes no call
    and changes nothing but the two progress flags, which it resets. *)
Theorem setMachineState_refuses alive (others : list (list request)) (s : string) (e : t) :
  (run_outcome (setMachineState alive others s e) = Ret StateError.K_INVALID_STATE ↔
     s ∉ m_machineManifestStates e ∨ s = m_currentState e) ∧
  (s ∉ m_machineManifestStates e ∨ s = m_currentState e →
     run_trace (setMachineState alive others s e) = [] ∧
     run_state (setMachineState alive others s e)
       = upd_confirms (λ _, false) (upd_ready (λ _, false) e)).
Proof.
  assert (s ∉ m_machineManifestStates e ∨ s = m_currentState e ↔ refuses e s = true) as ->
    by (unfold refuses; by rewrite bool_decide_eq_true).
  split; [split|].
  - intros [[_ ?]|[[? _]|[? _]]]%setMachineState_outcome; done.
  - intros Hr. by rewrite setMachineState_refused_run.
  - intros Hr. by rewrite setMachineState_refused_run.
Qed.

(** C9: A successful transition makes these calls and no other, in this order: the
    active processes that are not allowed in the requested state are killed, the
    allowed ones that are not active are started (both in the sets' order), the
    subscribed components that were not killed are told the new component state,
    and the transition is confirmed once; the polls of the critical application,
    made only for the start-up state, come after the starts. The requested state is
    current afterwards. *)
Theorem setMachineState_success alive others (s : string) (e e' : t) (tr : list call) :
  setMachineState alive others s e = (tr, e', Ret StateError.K_SUCCESS) →
  m_currentState e' = s ∧ m_pendingState e' = s ∧
  ∃ polls, Forall is_poll polls ∧ (s ≠ MACHINE_STATE_STARTUP → polls = []) ∧
    tr = (killProcess <$> in_order (m_activeProcesses e ∖ allowed_for e s)) ++
         (startProcess <$> in_order (allowed_for e s ∖ m_activeProcesses e)) ++
         polls ++
         (SetComponentState (if decide (s = MACHINE_STATE_SUSPEND)
                             then COMPONENT_STATE_OFF else COMPONENT_STATE_ON) <$>
            filter (λ c, c ∉ m_activeProcesses e ∖ allowed_for e s)
              (m_componentStateUpdateSbscrs e)) ++
         [confirm StateError.K_SUCCESS].
Proof.
  intros H. assert (Ho := f_equal run_outcome H). cbn in Ho.
  destruct (setMachineState_outcome _ _ _ _ _ Ho) as [[? _]|[[? _]|(_ & Hr & Hs)]]; [done..|].
  destruct (setMachineState_accepted_run alive others s e Hr) as (polls & Hp & Hn & Hrun).
  rewrite Hrun, Hs in H. clear Hrun Ho.
  pose proof (waiting_part e s) as (_ & Hpend & _).
  pose proof (wait_states_part others _ (waiting e s) eq_refl) as Hst.
  pose proof (wait_silent others (waiting e s)) as Hsil.
  unfold run_state, run_trace in Hst, Hsil. generalize dependent (waiting e s).
  intros w H Hpend Hst Hsil.
  destruct (wait others w) as [[tr' e1] [[]|?]]; simpl in *; [|done].
  apply states_part_eq in Hst as (_ & Hp1 & _). subst tr'.
  injection H as <- <-. split; [by rewrite <- Hpend|]. split; [by rewrite <- Hpend|].
  by exists polls.
Qed.

Lemma critical_alive_true alive n r apps :
  critical_alive alive n r apps = true ↔
    ∃ i p, r ≤ i < r + n ∧ p ∈ apps ∧ alive i p = true ∧ contains "msm" p = true.
Proof.
  unfold critical_alive. rewrite existsb_exists. setoid_rewrite existsb_exists.
  setoid_rewrite andb_true_iff. setoid_rewrite in_seq. setoid_rewrite <- list_elem_of_In.
  naive_solver.
Qed.

Lemma start_ok_false alive e s :
  start_ok alive e s = false ↔
    s = MACHINE_STATE_STARTUP ∧
    ∀ i p, i < timesToPollApps → p ∈ to_start e s →
      alive i p = true → contains "msm" p = false.
Proof.
  unfold start_ok. case_decide as Hs; [|naive_solver].
  rewrite <- not_true_iff_false, critical_alive_true. split.
  - intros H. split; [done|]. intros i p Hi Hp Ha.
    apply not_true_iff_false. intros Hc. apply H. exists i, p.
    rewrite elem_of_in_order. auto with lia.
  - intros [_ H] (i & p & Hi & Hp & Ha & Hc). rewrite elem_of_in_order in Hp.
    specialize (H i p). rewrite Hc in H. naive_solver lia.
Qed.

(** C29: [K_INVALID_REQUEST] is returned exactly for an accepted transition to the
    start-up state in which no process started for it answers as the critical
    application within the six polls. *)
Theorem setMachineState_critical_failure alive others (s : string) (e : t) :
  run_outcome (setMachineState alive others s e) = Ret StateError.K_INVALID_REQUEST ↔
    s ∈ m_machineManifestStates e ∧ s ≠ m_currentState e ∧ s = MACHINE_STATE_STARTUP ∧
    (∀ i p, i < 6 → p ∈ allowed_for e s ∖ m_activeProcesses e →
       alive i p = true → contains "msm" p = false).
Proof.
  change 6 with timesToPollApps. change (_ ∖ _) with (to_start e s) at 1.
  assert (refuses e s = false ↔ s ∈ m_machineManifestStates e ∧ s ≠ m_currentState e) as Href.
  { unfold refuses. rewrite bool_decide_eq_false.
    destruct (decide (s ∈ m_machineManifestStates e)); tauto. }
  assert (run_outcome (setMachineState alive others s e) = Ret StateError.K_INVALID_REQUEST
    ↔ refuses e s = false ∧ start_ok alive e s = false) as ->.
  { split.
    - intros [[? _]|[(_ & ? & ?)|[? _]]]%setMachineState_outcome; done.
    - intros [Hr Hs]. destruct (setMachineState_accepted_run alive others s e Hr)
        as (polls & _ & _ & ->). by rewrite Hs. }
  rewrite Href, start_ok_false. tauto.
Qed.

(** After a failed start-up the commands have been given but the transition is
    not confirmed, and the current state is the one before. *)
Theorem setMachineState_failure_keeps_state alive others (s : string) (e e' : t) (tr : list call) :
  setMachineState alive others s e = (tr, e', Ret StateError.K_INVALID_REQUEST) →
  m_currentState e' = m_currentState e ∧ m_pendingState e' = s ∧
  m_activeProcesses e' = m_activeProcesses e ∧
  (∀ st, confirm st ∉ tr) ∧
  kill_calls e s ++ start_calls e s `prefix_of` tr.
Proof.
  intros H. assert (Ho := f_equal run_outcome H). cbn in Ho.
  destruct (setMachineState_outcome _ _ _ _ _ Ho) as [[? _]|[(_ & Hr & Hs)|[? _]]]; [done| |done].
  destruct (setMachineState_accepted_run alive others s e Hr) as (polls & Hp & Hn & Hrun).
  rewrite Hrun, Hs in H. injection H as <- <-. do 3 (split; [done|]). split.
  - intros st. rewrite !elem_of_app. unfold kill_calls, start_calls.
    rewrite !list_elem_of_fmap. rewrite Forall_forall in Hp.
    intros [(? & ? & _)|[(? & ? & _)|Hin]]; [done..|]. by apply Hp in Hin.
  - exists polls. by rewrite (assoc_L (++)).
Qed.

Lemma startup_fails alive others (e : t) :
  MACHINE_STATE_STARTUP ∈ m_machineManifestStates e →
  MACHINE_STATE_STARTUP ≠ m_currentState e →
  (∀ p, p ∈ allowed_for e MACHINE_STATE_STARTUP → contains "msm" p = true →
        p ∈ m_activeProcesses e) →
  run_outcome (setMachineState alive others MACHINE_STATE_STARTUP e)
    = Ret StateError.K_INVALID_REQUEST.
Proof.
  intros Hin Hne Hact.
  assert (refuses e MACHINE_STATE_STARTUP = false) as Hr
    by (apply bool_decide_eq_false; tauto).
  assert (start_ok alive e MACHINE_STATE_STARTUP = false) as Hs.
  { apply start_ok_false. split; [done|]. intros i p _ Hp _.
    unfold to_start in Hp. apply elem_of_difference in Hp as [Hp Hnot].
    apply not_true_iff_false. intros Hc. by apply Hnot, Hact. }
  destruct (setMachineState_accepted_run alive others _ e Hr) as (polls & _ & _ & ->).
  by rewrite Hs.
Qed.

(** Going back to the start-up state always fails while the critical
    application runs: the poll only asks the applications that had to be started,
    so when every allowed process whose name contains "msm" is already active, the
    transition returns [K_INVALID_REQUEST] whatever [isActiveProcess] would say. *)
Theorem startup_again_fails alive others (e : t) :
  MACHINE_STATE_STARTUP ∈ m_machineManifestStates e →
  MACHINE_STATE_STARTUP ≠ m_currentState e →
  (∀ p, p ∈ allowed_for e MACHINE_STATE_STARTUP → contains "msm" p = true →
        p ∈ m_activeProcesses e) →
  run_outcome (setMachineState alive others MACHINE_STATE_STARTUP e)
    = Ret StateError.K_INVALID_REQUEST.
Proof. apply startup_fails. Qed.

(** In the states [Running] and [Suspend] the waiting loop ends as soon as one
    of its two conditions holds. When no component is registered or pending, the
    transition is confirmed in the first iteration although no process has reported
    anything: the active processes are the ones before the request. *)
Theorem component_state_confirmed_at_once alive (rest : list (list request)) (s : string) (e : t) :
  s = MACHINE_STATE_RUNNING ∨ s = MACHINE_STATE_SUSPEND →
  s ∈ m_machineManifestStates e → s ≠ m_currentState e →
  m_registeredComponents e = ∅ → m_componentPendingConfirms e = ∅ →
  ∃ tr e', setMachineState alive ([] :: rest) s e = (tr, e', Ret StateError.K_SUCCESS) ∧
    m_currentState e' = s ∧ m_activeProcesses e' = m_activeProcesses e.
Proof.
  intros Hs Hin Hne Hreg Hpend.
  assert (refuses e s = false) as Hr by (apply bool_decide_eq_false; tauto).
  assert (start_ok alive e s = true) as Hok.
  { unfold start_ok. rewrite decide_False; [done|]. by destruct Hs as [-> | ->]. }
  destruct (setMachineState_accepted_run alive ([] :: rest) s e Hr) as (polls & _ & _ & ->).
  rewrite Hok. clear Hr Hok.
  destruct (waiting_part e s) as (Ha & Hp & Hc & _ & _).
  assert (m_componentPendingConfirms (waiting e s) = ∅) as Hpc.
  { transitivity (m_componentPendingConfirms (requested e s)).
    - unfold waiting, touch. by case_match.
    - cbn. by rewrite Hreg, Hpend, (left_id_L ∅ (∪)). }
  generalize dependent (waiting e s). intros w Ha Hp Hc Hpc.
  assert (is_component_state s = true) as Hcs by (apply bool_decide_eq_true; tauto).
  cbn [wait]. erewrite run_bind by apply wait_test_run. rewrite Hc, andb_false_r, andb_true_r.
  destruct (m_readyToTransitToNextState w); cbn [negb].
  { do 2 eexists. split; [reflexivity|]. split; [exact Hp|exact Ha]. }
  erewrite run_bind by apply iterate_run. erewrite run_bind by done.
  destruct (iterate_part w) as (Ha' & Hp' & _ & _).
  assert (m_componentConfirmsReceived (iterate w) = true) as Hc'.
  { unfold iterate. rewrite wait_body_run, Hp, Hcs. cbn. by apply bool_decide_eq_true. }
  assert (∀ bs, wait bs (iterate w) = ([], iterate w, Ret tt)) as Hwait.
  { intros [|b bs]; cbn [wait]; (erewrite run_bind by apply wait_test_run);
      by rewrite Hp', Hp, Hcs, Hc', andb_false_r. }
  rewrite Hwait. do 2 eexists. split; [reflexivity|].
  split; [by rewrite <- Hp, <- Hp'|by rewrite <- Ha, <- Ha'].
Qed.

(** ** Construction *)

Lemma filterStates_fold (states l : list string) (m : gmap string (gset string)) s :
  foldl (λ m state, if decide (state ∈ states) then m else delete state m) m l !! s
    = if decide (s ∈ l ∧ s ∉ states) then None else m !! s.
Proof.
  revert m. induction l as [|k l IH]; intros m; cbn [foldl].
  { rewrite decide_False; [done|]. rewrite elem_of_nil. tauto. }
  rewrite IH. destruct (decide (k ∈ states)) as [Hk|Hk].
  - apply decide_ext. rewrite elem_of_cons. split; [tauto|].
    intros [[->|?] ?]; tauto.
  - destruct (decide (k = s)) as [->|Hne].
    + rewrite lookup_delete_eq. rewrite (decide_True (P := s ∈ s :: l ∧ _));
        [by case_decide|]. rewrite elem_of_cons. tauto.
    + rewrite lookup_delete_ne by done. apply decide_ext. rewrite elem_of_cons.
      naive_solver.
Qed.

Lemma filterStates_lookup (states : list string) (m : gmap string (gset string)) s :
  filterStates states m !! s = if decide (s ∈ states) then m !! s else None.
Proof.
  unfold filterStates. rewrite filterStates_fold.
  destruct (decide (s ∈ states)) as [Hs|Hs]; case_decide as Hd; try done; [tauto|].
  apply eq_None_not_Some. rewrite elem_of_in_order, elem_of_dom in Hd. tauto.
Qed.

(** The erasing loop of [filterStates] keeps exactly the entries of the declared
    states. *)
Theorem filterStates_filter (states : list string) (m : gmap string (gset string)) :
  filterStates states m = filter (λ kv, kv.1 ∈ states) m.
Proof.
  apply map_eq. intros s. rewrite filterStates_lookup.
  destruct (m !! s) as [X|] eqn:Hm; case_decide.
  - symmetry. by apply map_lookup_filter_Some.
  - symmetry. apply map_lookup_filter_None. right. by intros ? ?.
  - symmetry. apply map_lookup_filter_None. by left.
  - symmetry. apply map_lookup_filter_None. by left.
Qed.

(** ** Reports *)

(** A report never leaves the bounds of the table of state names for the four
    states of the schema; any other 16-bit value indexes beyond its end. A report
    of [kRunning] adds the process, one of [kShuttingDown] removes it, the other two
    change nothing. *)
Theorem reportApplicationState_spec (p : string) (st : Z) (e : t) :
  (0 ≤ st)%Z →
  if decide (st < 4)%Z then
    reportApplicationState p st e =
      ([], upd_active (λ X, if decide (st = AppState.kShuttingDown) then X ∖ {[p]}
                            else if decide (st = AppState.kRunning) then X ∪ {[p]} else X) e,
       Ret tt)
  else reportApplicationState p st e = ([], e, Stop Undefined).
Proof.
  intros Hst. unfold reportApplicationState. destruct (decide (st < 4)%Z) as [Hlt|Hge].
  - destruct (lookup_lt_is_Some_2 applicationStateNames (Z.to_nat st)) as [n ->];
      [simpl; lia|].
    repeat case_decide; unfold upd_active; try done. by destruct e.
  - by rewrite lookup_ge_None_2 by (simpl; lia).
Qed.

(** ** The component protocol *)

Lemma registerComponent_run c m e :
  registerComponent c m e =
    ([], (if decide (m = StateUpdateMode.K_EVENT) then upd_subscribers (λ l, l ++ [c]) else id)
           (upd_registered (λ X, X ∪ {[c]}) e), Ret tt).
Proof. unfold registerComponent. cpp_run. Qed.

Lemma register_all regs e :
  let e' := run_state (for_each (λ '(d, m), registerComponent d m) regs e) in
  m_registeredComponents e' = m_registeredComponents e ∪ list_to_set regs.*1 ∧
  m_currentComponentState e' = m_currentComponentState e.
Proof.
  revert e. induction regs as [|[d m] regs IH]; intros e e'.
  { split; [set_solver|done]. }
  subst e'. cbn [for_each]. set (f := for_each _ regs) in *.
  unfold run_state. erewrite run_bind by apply registerComponent_run.
  match goal with |- context [f ?e1] => specialize (IH e1); destruct (f e1) as [[tr e2] o] end.
  cbn in *. destruct IH as [-> ->].
  split; case_decide; cbn; set_solver.
Qed.

(** After a component has registered, in either mode and whatever other
    components register later, [getComponentState] answers with the component state
    of the last transition; a component that has not registered gets an error and
    its out-parameter is not assigned. *)
Theorem getComponentState_registered (regs : list (string * StateUpdateMode.t))
    (c out : string) (e : t) :
  let e' := run_state (for_each (λ '(d, m), registerComponent d m) regs e) in
  run_outcome (getComponentState c out e') =
    Ret (if decide (c ∈ m_registeredComponents e ∨ c ∈ regs.*1)
         then (ComponentClientReturnType.K_SUCCESS, m_currentComponentState e)
         else (ComponentClientReturnType.K_GENERAL_ERROR, out)).
Proof.
  destruct (register_all regs e) as [Hreg Hst]. cbv zeta. unfold getComponentState.
  erewrite run_bind by done. rewrite Hreg, Hst.
  case_decide as H1; case_decide as H2; try done; exfalso;
    rewrite elem_of_union, elem_of_list_to_set in H1; tauto.
Qed.

Definition is_error (st : ComponentClientReturnType.t) : Prop :=
  st = ComponentClientReturnType.K_GENERAL_ERROR ∨ st = ComponentClientReturnType.K_INVALID.
#[export] Instance is_error_dec st : Decision (is_error st).
Proof. apply _. Defined.

Lemma confirmComponentState_run c s st e :
  confirmComponentState c s st e =
    ([], if decide (m_componentPendingConfirms e = ∅) then upd_confirms (λ _, true) e
         else if decide (is_error st) then e
         else upd_confirms (λ _, bool_decide (m_componentPendingConfirms e ∖ {[c]} = ∅))
                (upd_pendingConfirms (λ X, X ∖ {[c]}) e), Ret tt).
Proof. unfold confirmComponentState, is_error. cpp_run. Qed.

(** One answer: the components pending after it, and what has been noticed. *)
Lemma confirm_one c s st e :
  let e' := run_state (confirmComponentState c s st e) in
  (∀ d, d ∈ m_componentPendingConfirms e' ↔
     d ∈ m_componentPendingConfirms e ∧ (d = c → is_error st)) ∧
  (m_componentPendingConfirms e' = ∅ → m_componentConfirmsReceived e' = true).
Proof.
  rewrite confirmComponentState_run. cbn.
  destruct (decide (m_componentPendingConfirms e = ∅)) as [Hnone|Hsome];
    [|destruct (decide (is_error st)) as [Herr|Hok]]; cbn.
  - rewrite Hnone. split; [set_solver|done].
  - split; [tauto|done].
  - split; [set_solver|]. intros He. by apply bool_decide_eq_true.
Qed.

(** Component confirmations are complete exactly when every pending component
    has given an answer that is not an error: after any sequence of confirmations,
    a component is pending iff it was and none of its answers was a proper one; and
    when none is pending after at least one of them, the Execution Manager has
    noticed. *)
Theorem confirmations_complete
    (answers : list (string * string * ComponentClientReturnType.t)) (e : t) :
  let e' := run_state
    (for_each (λ '(c, s, st), confirmComponentState c s st) answers e) in
  (∀ c, c ∈ m_componentPendingConfirms e' ↔
     c ∈ m_componentPendingConfirms e ∧
     ∀ s st, (c, s, st) ∈ answers → is_error st) ∧
  (answers ≠ [] → m_componentPendingConfirms e' = ∅ →
     m_componentConfirmsReceived e' = true).
Proof.
  revert e. induction answers as [|[[c s] st] answers IH]; intros e e'; subst e'.
  { cbn. split; [|done]. intros c. setoid_rewrite elem_of_nil. tauto. }
  cbn [for_each]. destruct (confirm_one c s st e) as [Hpend Hnote].
  set (f := for_each _ answers) in *. unfold run_state in *.
  destruct (confirmComponentState c s st e) as [[tr e1] [[]|w]] eqn:Hrun;
    [|by rewrite confirmComponentState_run in Hrun].
  erewrite run_bind by exact Hrun. specialize (IH e1). cbn in Hpend, Hnote.
  destruct (f e1) as [[tr2 e2] o] eqn:Hf. cbn in *. destruct IH as [IHp IHn]. split.
  - intros d. rewrite IHp, Hpend. setoid_rewrite elem_of_cons. naive_solver.
  - intros _ He. destruct answers as [|a answers]; [|by apply IHn].
    unfold f in Hf. cbn in Hf. unfold mret, cpp_ret in Hf. simplify_eq. by apply Hnote.
Qed.
