(* ===== verification/EMServer.v ===== *)
(** * The Execution Manager's server

    [applications/ExecutionManager/src/msm_handler.cpp] and
    [execution_manager_server.cpp]: which process may change the machine state, and
    the RPC handlers, which call the Execution Manager or queue a method for the
    worker thread. *)

From stdpp Require Import base list gmap strings.
From S2P Require Import Prelude CppString Constants Common Queues ExecutionManager.

Local Open Scope Z_scope.

(** ** [MsmHandler] *)

Module MsmHandler.
Record t := mk { m_msmPId : Z }.

Definition init : t := mk (-1).

Definition registerMsm (processId : Z) (appName : string) (h : t) : bool * t :=
  if bool_decide ((m_msmPId h = -1 ∨ m_msmPId h = processId) ∧ appName ≠ "")
  then (true, mk processId)
  else (false, h).

Definition checkMsm (processId : Z) (h : t) : bool := bool_decide (processId = m_msmPId h).

Definition msmPid (h : t) : Z := m_msmPId h.
End MsmHandler.

(** ** The server *)

(** A queued method is [std::bind(&ExecutionManager::setMachineState, &m_em, state)]:
    its bound argument. *)
Record server := mk_server {
  m_em : ExecutionManager.t;
  m_msmHandler : MsmHandler.t;
  em_queue : ThreadQueue.t string;
  isRunning : bool;
}.

Definition upd_em (f : ExecutionManager.t → ExecutionManager.t) (s : server) : server :=
  mk_server (f (m_em s)) (m_msmHandler s) (em_queue s) (isRunning s).
Definition upd_handler (f : MsmHandler.t → MsmHandler.t) (s : server) : server :=
  mk_server (m_em s) (f (m_msmHandler s)) (em_queue s) (isRunning s).
Definition upd_queue (f : ThreadQueue.t string → ThreadQueue.t string) (s : server) : server :=
  mk_server (m_em s) (m_msmHandler s) (f (em_queue s)) (isRunning s).

(** The constructor queues the transition to the start-up state and starts the
    worker thread ([while (isRunning) getExecutor()]). *)
Definition construct_server (em : ExecutionManager.t) (h : MsmHandler.t) : server :=
  mk_server em h (ThreadQueue.addMethod (Some MACHINE_STATE_STARTUP) (ThreadQueue.mk [])) true.

(** The destructor clears [isRunning] and joins the worker. *)
Definition stop_server (s : server) : server :=
  mk_server (m_em s) (m_msmHandler s) (em_queue s) false.

(** A call on [m_em] from a handler. *)
Definition on_em {A} (m : cpp ExecutionManager.t call A) : cpp server call A := λ s,
  match m (m_em s) with (tr, e, o) => (tr, upd_em (λ _, e) s, o) end.

(** Requests of the interface [ExecutionManagement], and the fields each handler
    sets in its results; a field the handler does not set is [None]. *)
Inductive rpc :=
  | reportApplicationState_rpc (appName : string) (state : Z)
  | register_rpc (pid : Z) (appName : string)
  | getMachineState_rpc (pid : Z)
  | setMachineState_rpc (pid : Z) (state : string)
  | registerComponent_rpc (component : string) (mode : StateUpdateMode.t)
  | getComponentState_rpc (component : string)
  | confirmComponentState_rpc (component state : string) (status : ComponentClientReturnType.t).

Record results := mk_results {
  res_state : option string;
  res_error : option StateError.t;
  res_component : option ComponentClientReturnType.t;
}.

Definition no_results : results := mk_results None None None.

Definition handle_reportApplicationState (appName : string) (state : Z) : cpp server call results :=
  on_em (reportApplicationState (c_str appName) state) ;;
  mret no_results.

Definition handle_register (pid : Z) (appName : string) : cpp server call results :=
  s ← get;
  match MsmHandler.registerMsm pid appName (m_msmHandler s) with
  | (ok, h) =>
      modify (upd_handler (λ _, h)) ;;
      mret (mk_results None (Some (if ok : bool then StateError.K_SUCCESS
                                   else StateError.K_INVALID_REQUEST)) None)
  end.

Definition handle_getMachineState : cpp server call results :=
  state ← on_em getMachineState;
  mret (mk_results (Some state) (Some StateError.K_SUCCESS) None).

(** The results are not set on either path. *)
Definition handle_setMachineState (pid : Z) (state : string) : cpp server call results :=
  s ← get;
  if negb (MsmHandler.checkMsm pid (m_msmHandler s)) then mret no_results
  else
    modify (upd_queue (ThreadQueue.addMethod (Some (c_str state)))) ;;
    mret no_results.

Definition handle_registerComponent (component : string) (mode : StateUpdateMode.t) :
    cpp server call results :=
  on_em (registerComponent (c_str component) mode) ;;
  mret no_results.

Definition handle_getComponentState (component : string) : cpp server call results :=
  '(result, state) ← on_em (getComponentState (c_str component) "");
  mret (mk_results (Some state) None (Some result)).

Definition handle_confirmComponentState (component state : string)
    (status : ComponentClientReturnType.t) : cpp server call results :=
  on_em (confirmComponentState (c_str component) (c_str state) status) ;;
  mret no_results.

Definition handle (r : rpc) : cpp server call results :=
  match r with
  | reportApplicationState_rpc appName state => handle_reportApplicationState appName state
  | register_rpc pid appName => handle_register pid appName
  | getMachineState_rpc _ => handle_getMachineState
  | setMachineState_rpc pid state => handle_setMachineState pid state
  | registerComponent_rpc component mode => handle_registerComponent component mode
  | getComponentState_rpc component => handle_getComponentState component
  | confirmComponentState_rpc component state status =>
      handle_confirmComponentState component state status
  end.

(** ** Properties of the registration *)

(** The first process that registers with a name is the state manager for
    good: whatever is registered afterwards, its process id is kept, only that id
    passes [checkMsm], and another id is refused. *)
Theorem msm_registration_sticks (pid : Z) (name : string) (regs : list (Z * string))
    (h : MsmHandler.t) :
  pid ≠ -1 → name ≠ "" → MsmHandler.m_msmPId h = -1 →
  let h' := foldl (λ h '(p, n), (MsmHandler.registerMsm p n h).2)
              (MsmHandler.registerMsm pid name h).2 regs in
  MsmHandler.msmPid h' = pid ∧
  (∀ p, MsmHandler.checkMsm p h' = true ↔ p = pid) ∧
  (∀ p n, (MsmHandler.registerMsm p n h').1 = true ↔ p = pid ∧ n ≠ "").
Proof.
  intros Hpid Hname Hh h'. assert (MsmHandler.m_msmPId h' = pid) as Hm.
  { subst h'. unfold MsmHandler.registerMsm at 2. rewrite bool_decide_eq_true_2 by auto.
    cbn [snd]. generalize (eq_refl (MsmHandler.m_msmPId (MsmHandler.mk pid))).
    generalize (MsmHandler.mk pid) at 1 3. induction regs as [|[p n] regs IH];
      intros h0 H0; cbn [foldl]; [done|].
    apply IH. unfold MsmHandler.registerMsm. case_bool_decide as Hc; [|done].
    cbn in *. destruct Hc as [[?|?] _]; congruence. }
  clearbody h'. split; [done|]. split.
  - intros p. unfold MsmHandler.checkMsm. by rewrite bool_decide_eq_true, Hm.
  - intros p n. unfold MsmHandler.registerMsm. rewrite Hm.
    case_bool_decide as Hc; cbn; naive_solver.
Qed.

(** Before any registration the id is -1, so a request that carries the process
    id -1 passes the check and its transition is queued. *)
Theorem unregistered_minus_one_accepted (s : server) (state : string) :
  m_msmHandler s = MsmHandler.init →
  handle_setMachineState (-1) state s =
    ([], upd_queue (ThreadQueue.addMethod (Some (c_str state))) s, Ret no_results).
Proof. intros H. unfold handle_setMachineState. erewrite run_bind by done. by rewrite H. Qed.

(** A transition requested by a process that is not the registered manager is
    not queued, and its reply is the same as that of an accepted one: the handler
    leaves the result field unset in both cases. *)
Theorem setMachineState_authorised (pid : Z) (state : string) (s : server) :
  handle_setMachineState pid state s =
    ([], if decide (pid = MsmHandler.m_msmPId (m_msmHandler s))
         then upd_queue (ThreadQueue.addMethod (Some (c_str state))) s else s,
     Ret no_results).
Proof.
  unfold handle_setMachineState, MsmHandler.checkMsm. erewrite run_bind by done.
  by case_decide as H; case_bool_decide.
Qed.
