(* ===== verification/EMSystem.v ===== *)
(** * The Execution Manager process: two threads over one state

    The RPC thread serves requests ([EMServer.handle]) while the worker thread takes
    methods from the queue and runs [setMachineState]. The system is a transition
    relation: a request is one step; the worker takes one step per phase of
    [setMachineState] (the check, the kills, the starts with the poll, the
    notification, the first evaluation of the condition, each test and each body of
    the waiting loop, the confirmation), so requests come between any two phases. The
    calls to the client ([confirm], [SetComponentState]) return here; [EMClient] has their
    waiting and their exceptions.
    [log] is a history variable: the calls made and the queued, begun and ended
    transitions. *)

From stdpp Require Import base list gmap strings relations.
From S2P Require Import Prelude CppString Constants Common Queues ExecutionManager.
From S2P Require Import ExecutionManagerSpec EMServer.

(** ** The system *)

Inductive pc :=
  | Idle
  | Take
  | Check (state : string)
  | Kill | Start | Change | Log | Test | Body | Finish.

#[export] Instance pc_eq_dec : EqDecision pc.
Proof. solve_decision. Defined.

Inductive event :=
  | Called (c : call)
  | Queued (by_ : option Z) (state : string)
  | Begun (state : string)
  | Ended (state : string) (r : StateError.t).

Record sys := mk_sys { sv : server; at_ : pc; log : list event }.

(** The worker runs a phase on the Execution Manager. *)
Definition phase {A} (m : cpp ExecutionManager.t call A) (next : A → pc * list event)
    (σ : sys) : option sys :=
  match on_em m (sv σ) with
  | (tr, sv', Ret a) =>
      Some (mk_sys sv' (next a).1 (log σ ++ (Called <$> tr) ++ (next a).2))
  | (_, _, Stop _) => None
  end.

Definition pending (σ : sys) : string := m_pendingState (m_em (sv σ)).

Definition worker (alive : nat → string → bool) (σ : sys) : option sys :=
  match at_ σ with
  | Idle =>
      if isRunning (sv σ) then Some (mk_sys (sv σ) Take (log σ)) else None
  | Take =>
      match ThreadQueue.getExecutor (em_queue (sv σ)) with
      | (fs, q, Ret _) =>
          Some (mk_sys (upd_queue (λ _, q) (sv σ))
                  (match fs with state :: _ => Check state | [] => Idle end)
                  (log σ ++ (Begun <$> fs)))
      | (_, _, Stop _) => None
      end
  | Check state =>
      phase (sms_check state) (λ refused : bool,
        if refused then (Idle, [Ended state StateError.K_INVALID_STATE]) else (Kill, [])) σ
  | Kill => phase killProcessesForState (λ _, (Start, [])) σ
  | Start =>
      phase (startApplicationsForState alive) (λ started : bool,
        if started then (Change, [])
        else (Idle, [Ended (pending σ) StateError.K_INVALID_REQUEST])) σ
  | Change => phase changeComponentsState (λ _, (Log, [])) σ
  | Log => phase sms_log (λ _, (Test, [])) σ
  | Test => phase wait_test (λ continue : bool, (if continue then Body else Finish, [])) σ
  | Body => phase wait_body (λ _, (Test, [])) σ
  | Finish => phase sms_finish (λ r, (Idle, [Ended (pending σ) r])) σ
  end.

(** The transition a request queues, and the process it comes from. *)
Definition queued_by (r : rpc) (s : server) : list (Z * string) :=
  match r with
  | setMachineState_rpc pid state =>
      if MsmHandler.checkMsm pid (m_msmHandler s) then [(pid, c_str state)] else []
  | _ => []
  end.

Definition queued_event (q : Z * string) : event := Queued (Some q.1) q.2.

Inductive step : sys → sys → Prop :=
  | step_worker alive σ σ' :
      worker alive σ = Some σ' → step σ σ'
  | step_rpc r tr sv' res σ :
      handle r (sv σ) = (tr, sv', Ret res) →
      step σ (mk_sys sv' (at_ σ)
                (log σ ++ (Called <$> tr) ++ (queued_event <$> queued_by r (sv σ))))
  | step_stop σ :
      step σ (mk_sys (stop_server (sv σ)) (at_ σ) (log σ)).

Inductive initial : sys → Prop :=
  | initial_intro reader em :
      construct reader = Ret em →
      initial (mk_sys (construct_server em MsmHandler.init) Idle
                 [Queued None MACHINE_STATE_STARTUP]).

Definition reachable (σ : sys) : Prop := ∃ σ0, initial σ0 ∧ rtc step σ0 σ.

Lemma reachable_ind (P : sys → Prop) :
  (∀ σ, initial σ → P σ) →
  (∀ σ σ', reachable σ → P σ → step σ σ' → P σ') →
  ∀ σ, reachable σ → P σ.
Proof.
  intros Hinit Hstep σ (σ0 & H0 & Hrtc). revert σ Hrtc.
  apply (rtc_ind_r (λ σ, P σ)); [by apply Hinit|].
  intros σ σ' Hr Hs HP. eapply Hstep; eauto. by exists σ0.
Qed.

(** ** Shapes of the steps *)

Lemma phase_inv {A} (m : cpp ExecutionManager.t call A) next σ σ' :
  phase m next σ = Some σ' →
  ∃ tr e a, m (m_em (sv σ)) = (tr, e, Ret a) ∧
    σ' = mk_sys (upd_em (λ _, e) (sv σ)) (next a).1
           (log σ ++ (Called <$> tr) ++ (next a).2).
Proof.
  unfold phase, on_em. destruct (m (m_em (sv σ))) as [[tr e] [a|w]]; [|done].
  intros [= <-]. eauto.
Qed.

Lemma on_em_inv {A} (m : cpp ExecutionManager.t call A) s tr s' a :
  on_em m s = (tr, s', Ret a) →
  ∃ e, m (m_em s) = (tr, e, Ret a) ∧ s' = upd_em (λ _, e) s.
Proof.
  unfold on_em. destruct (m (m_em s)) as [[tr0 e] o]. intros [= <- <- <-]. eauto.
Qed.

Lemma serve_run_silent q e tr e' o : serve q e = (tr, e', o) → tr = [].
Proof. intros H. pose proof (serve_silent q e) as Hq. unfold run_trace in Hq. by rewrite H in Hq. Qed.

(** What a request does to the server. *)
Inductive handled (r : rpc) (s : server) : server → Prop :=
  | handled_em q e :
      serve q (m_em s) = ([], e, Ret tt) → queued_by r s = [] →
      handled r s (upd_em (λ _, e) s)
  | handled_register p n :
      queued_by r s = [] →
      handled r s (upd_handler (λ h, (MsmHandler.registerMsm p n h).2) s)
  | handled_refused : queued_by r s = [] → handled r s s
  | handled_queued pid state :
      queued_by r s = [(pid, state)] → pid = MsmHandler.m_msmPId (m_msmHandler s) →
      handled r s (upd_queue (ThreadQueue.addMethod (Some state)) s).

(** A handler that serves one request of the Execution Manager. *)
Lemma handled_on_em {A} q (m : cpp ExecutionManager.t call A) (f : A → results) r s tr s' res :
  (m ;; mret tt) ≡ serve q → queued_by r s = [] →
  (a ← on_em m; mret (f a)) s = (tr, s', Ret res) →
  tr = [] ∧ handled r s s'.
Proof.
  intros Hm Hq (tr1 & s1 & a & tr2 & H1 & H2 & ->)%run_bind_inv.
  unfold mret, cpp_ret in H2. injection H2 as <- <- _.
  apply on_em_inv in H1 as (e & Hrun & ->).
  assert (serve q (m_em s) = (tr1, e, Ret tt)) as Hserve.
  { rewrite <- (Hm (m_em s)). erewrite run_bind by exact Hrun. cbn. by rewrite app_nil_r. }
  pose proof (serve_run_silent _ _ _ _ _ Hserve) as ->. split; [done|].
  by eapply handled_em.
Qed.

Lemma unit_ret {S E} (m : cpp S E unit) : (m ;; mret tt) ≡ m.
Proof.
  intros s. unfold mbind, cpp_bind. destruct (m s) as [[tr s'] [[]|w]]; [|done].
  cbn. by rewrite app_nil_r.
Qed.

(** A request makes no call. *)
Lemma handle_inv r s tr s' res :
  handle r s = (tr, s', Ret res) → tr = [] ∧ handled r s s'.
Proof.
  destruct r as [n st|p n|p|p st|c m|c|c st ret]; cbn [handle]; intros H.
  - refine (handled_on_em (ReportApplicationState (c_str n) st) _ (λ _, no_results)
      _ _ _ _ _ _ _ H); [apply unit_ret|done].
  - unfold handle_register in H. erewrite run_bind in H by done.
    destruct (MsmHandler.registerMsm p n (m_msmHandler s)) as [ok h] eqn:Hreg.
    cbn in H. injection H as <- <- _. split; [done|].
    replace h with (MsmHandler.registerMsm p n (m_msmHandler s)).2 by (by rewrite Hreg).
    by apply (handled_register _ s p n).
  - by refine (handled_on_em GetMachineState _
      (λ st, mk_results (Some st) (Some StateError.K_SUCCESS) None) _ _ _ _ _ _ _ H).
  - unfold handle_setMachineState in H. erewrite run_bind in H by done.
    destruct (MsmHandler.checkMsm p (m_msmHandler s)) eqn:Hc; cbn in H;
      injection H as <- <- _; (split; [done|]).
    + apply (handled_queued _ _ p); [cbn; by rewrite Hc|].
      by apply bool_decide_eq_true in Hc.
    + apply handled_refused. cbn. by rewrite Hc.
  - refine (handled_on_em (RegisterComponent (c_str c) m) _ (λ _, no_results)
      _ _ _ _ _ _ _ H); [apply unit_ret|done].
  - unfold handle_getComponentState in H.
    apply (handled_on_em (GetComponentState (c_str c)) (getComponentState (c_str c) "")
      (λ '(result, state), mk_results (Some state) None (Some result)) _ _ tr s' res);
      [done|done|]. rewrite <- H. unfold mbind, cpp_bind.
    by destruct (on_em _ s) as [[? ?] [[? ?]|?]].
  - refine (handled_on_em (ConfirmComponentState (c_str c) (c_str st) ret) _
      (λ _, no_results) _ _ _ _ _ _ _ H); [apply unit_ret|done].
Qed.

(** The successor of [σ] when a phase changes the Execution Manager to [e]. *)
Definition go (σ : sys) (e : ExecutionManager.t) (p : pc) (evs : list event) : sys :=
  mk_sys (upd_em (λ _, e) (sv σ)) p (log σ ++ evs).

(** The worker's steps, spelled out. *)
Inductive worker_case (σ : sys) : sys → Prop :=
  | wc_enter :
      at_ σ = Idle → isRunning (sv σ) = true → worker_case σ (mk_sys (sv σ) Take (log σ ++ []))
  | wc_take st q :
      at_ σ = Take → em_queue (sv σ) = ThreadQueue.mk (Some st :: q) →
      worker_case σ (mk_sys (upd_queue (λ _, ThreadQueue.mk q) (sv σ)) (Check st)
                       (log σ ++ [Begun st]))
  | wc_skip q :
      at_ σ = Take → em_queue (sv σ) = ThreadQueue.mk (None :: q) →
      worker_case σ (mk_sys (upd_queue (λ _, ThreadQueue.mk q) (sv σ)) Idle (log σ ++ []))
  | wc_refuse st :
      at_ σ = Check st → refuses (m_em (sv σ)) st = true →
      worker_case σ (go σ (flags_reset (m_em (sv σ))) Idle
                       [Ended st StateError.K_INVALID_STATE])
  | wc_accept st :
      at_ σ = Check st → refuses (m_em (sv σ)) st = false →
      worker_case σ (go σ (upd_pending (λ _, st) (flags_reset (m_em (sv σ)))) Kill [])
  | wc_kill :
      at_ σ = Kill →
      worker_case σ
        (go σ (upd_subscribers (filter (λ s, s ∉ to_kill (m_em (sv σ)) (pending σ))) (m_em (sv σ)))
           Start (Called <$> (killProcess <$> in_order (to_kill (m_em (sv σ)) (pending σ)))))
  | wc_start polls :
      at_ σ = Start → Forall is_poll polls →
      worker_case σ
        (go σ (m_em (sv σ)) Change
           (Called <$> ((startProcess <$> in_order (to_start (m_em (sv σ)) (pending σ))) ++ polls)))
  | wc_start_fail polls :
      at_ σ = Start → Forall is_poll polls → pending σ = MACHINE_STATE_STARTUP →
      worker_case σ
        (go σ (m_em (sv σ)) Idle
           ((Called <$> ((startProcess <$> in_order (to_start (m_em (sv σ)) (pending σ))) ++ polls))
              ++ [Ended (pending σ) StateError.K_INVALID_REQUEST]))
  | wc_change e tr :
      at_ σ = Change → changeComponentsState (m_em (sv σ)) = (tr, e, Ret tt) →
      worker_case σ (go σ e Log (Called <$> tr))
  | wc_log :
      at_ σ = Log →
      worker_case σ
        (go σ (upd_ready (λ _, settled (m_em (sv σ))) (touch (m_em (sv σ)))) Test [])
  | wc_test (continue : bool) :
      at_ σ = Test →
      continue = negb (m_readyToTransitToNextState (m_em (sv σ))) &&
        negb (is_component_state (pending σ) && m_componentConfirmsReceived (m_em (sv σ))) →
      worker_case σ (go σ (m_em (sv σ)) (if continue then Body else Finish) [])
  | wc_body :
      at_ σ = Body →
      worker_case σ (go σ (iterate (m_em (sv σ))) Test [])
  | wc_finish :
      at_ σ = Finish →
      worker_case σ
        (go σ (upd_current (λ _, pending σ) (m_em (sv σ))) Idle
           [Called (confirm StateError.K_SUCCESS); Ended (pending σ) StateError.K_SUCCESS]).

Lemma worker_inv alive σ σ' : worker alive σ = Some σ' → worker_case σ σ'.
Proof.
  unfold worker. destruct (at_ σ) as [| |st| | | | | | |] eqn:Hat; intros H.
  - destruct (isRunning (sv σ)) eqn:Hrun; [|done]. injection H as <-.
    rewrite <- (app_nil_r (log σ)). by apply wc_enter.
  - rewrite ThreadQueue.getExecutor_take in H.
    destruct (em_queue (sv σ)) as [[|[st|] q]] eqn:Hq; simplify_eq/=.
    + by apply wc_take.
    + by apply wc_skip.
  - apply phase_inv in H as (tr & e & a & Hrun & ->).
    rewrite sms_check_run in Hrun. injection Hrun as <- <- <-.
    destruct (refuses (m_em (sv σ)) st) eqn:Hr; [by apply wc_refuse|by apply wc_accept].
  - apply phase_inv in H as (tr & e & a & Hrun & ->).
    rewrite killProcessesForState_run in Hrun. injection Hrun as <- <- <-.
    cbn [fst snd]. rewrite app_nil_r. by apply wc_kill.
  - apply phase_inv in H as (tr & e & a & Hrun & ->).
    destruct (startApplicationsForState_run alive (m_em (sv σ))) as (polls & Hp & _ & Hs).
    rewrite Hs in Hrun. injection Hrun as <- <- <-. unfold started.
    case_decide as Hst; [destruct (critical_alive _ _ _ _)|]; cbn [fst snd].
    + rewrite app_nil_r. by apply wc_start.
    + by apply wc_start_fail.
    + rewrite app_nil_r. by apply wc_start.
  - apply phase_inv in H as (tr & e & [] & Hrun & ->).
    cbn [fst snd]. rewrite app_nil_r. by apply wc_change.
  - apply phase_inv in H as (tr & e & a & Hrun & ->).
    unfold sms_log in Hrun. erewrite run_bind in Hrun by apply isConfirmAvailable_run.
    injection Hrun as <- <- <-. by apply wc_log.
  - apply phase_inv in H as (tr & e & a & Hrun & ->).
    rewrite wait_test_run in Hrun. injection Hrun as <- <- <-. by apply wc_test.
  - apply phase_inv in H as (tr & e & a & Hrun & ->).
    rewrite iterate_run in Hrun. injection Hrun as <- <- <-. by apply wc_body.
  - apply phase_inv in H as (tr & e & a & Hrun & ->).
    rewrite sms_finish_run in Hrun. injection Hrun as <- <- <-. by apply wc_finish.
Qed.

(** A step of the system is a worker's step, a served request or the stop. *)
Inductive step_case (σ : sys) : sys → Prop :=
  | sc_worker σ' : worker_case σ σ' → step_case σ σ'
  | sc_rpc r s' :
      handled r (sv σ) s' →
      step_case σ (mk_sys s' (at_ σ) (log σ ++ (queued_event <$> queued_by r (sv σ))))
  | sc_stop : step_case σ (mk_sys (stop_server (sv σ)) (at_ σ) (log σ)).

Lemma step_inv σ σ' : step σ σ' → step_case σ σ'.
Proof.
  intros [alive ? ? H|r tr s' res ? H|?].
  - by eapply sc_worker, worker_inv.
  - apply handle_inv in H as [-> H]. by apply sc_rpc.
  - apply sc_stop.
Qed.

(** ** Order of the transitions *)

Definition queued_of (ev : event) : option string :=
  match ev with Queued _ s => Some s | _ => None end.
Definition ended_of (ev : event) : option (string * StateError.t) :=
  match ev with Ended s r => Some (s, r) | _ => None end.

Definition in_progress (σ : sys) : list string :=
  match at_ σ with Idle | Take => [] | Check s => [s] | _ => [pending σ] end.

Definition waiting_queue (σ : sys) : list string :=
  omap id (ThreadQueue.m_methodsQueue (em_queue (sv σ))).

Lemma queued_of_called tr : omap queued_of (Called <$> tr) = [].
Proof. by induction tr. Qed.
Lemma ended_of_called tr : omap ended_of (Called <$> tr) = [].
Proof. by induction tr. Qed.

Lemma serve_pending q e e' :
  serve q e = ([], e', Ret tt) → transition_part e' = transition_part e.
Proof.
  intros H. pose proof (serve_transition_part q _ e eq_refl) as Hp.
  unfold run_state in Hp. by rewrite H in Hp.
Qed.

Definition fifo_inv (σ : sys) : Prop :=
  omap queued_of (log σ)
    = (omap ended_of (log σ)).*1 ++ in_progress σ ++ waiting_queue σ.

Lemma changeComponentsState_pending e tr e' :
  changeComponentsState e = (tr, e', Ret tt) → m_pendingState e' = m_pendingState e.
Proof. rewrite changeComponentsState_run. cbv zeta. by intros [= _ <-]. Qed.

Lemma worker_case_fifo σ σ' : worker_case σ σ' → fifo_inv σ → fifo_inv σ'.
Proof.
  unfold fifo_inv, in_progress, waiting_queue. intros Hw Hinv.
  destruct Hw as [Hat Hr|st q Hat Hq|q Hat Hq|st Hat|st Hat|Hat|polls Hat|polls Hat|e tr Hat Hrun
    |Hat|c Hat|Hat|Hat]; rewrite Hat in Hinv; cbn [go log sv at_ em_queue upd_em upd_queue];
    rewrite !omap_app, ?queued_of_called, ?ended_of_called, ?app_nil_r; cbn;
    rewrite ?app_nil_r, ?fmap_app; cbn.
  - done.
  - rewrite Hinv, Hq. done.
  - rewrite Hinv, Hq. done.
  - rewrite Hinv. by rewrite <- (assoc_L (++)).
  - done.
  - done.
  - done.
  - rewrite Hinv. unfold pending. by rewrite <- (assoc_L (++)).
  - rewrite Hinv. unfold pending. cbn. by rewrite (changeComponentsState_pending _ _ _ Hrun).
  - rewrite Hinv. unfold pending. cbn. by destruct (touch_part (m_em (sv σ))) as (_ & -> & _).
  - rewrite Hinv. by destruct c.
  - rewrite Hinv. unfold pending. cbn. by destruct (iterate_part (m_em (sv σ))) as (_ & -> & _).
  - rewrite Hinv. unfold pending. by rewrite <- (assoc_L (++)).
Qed.

Lemma handled_fifo r σ s' :
  handled r (sv σ) s' → fifo_inv σ →
  fifo_inv (mk_sys s' (at_ σ) (log σ ++ (queued_event <$> queued_by r (sv σ)))).
Proof.
  unfold fifo_inv, in_progress, waiting_queue, pending. intros Hh Hinv. cbn [log at_ sv].
  assert (∀ l, omap ended_of (queued_event <$> l) = []) as Hended by (by intros l; induction l).
  rewrite !omap_app, Hended, app_nil_r, Hinv.
  destruct Hh as [q e Hserve Hq|p n Hq|Hq|pid st Hq _]; rewrite Hq; cbn; rewrite ?app_nil_r.
  - apply serve_pending, transition_part_eq in Hserve as [-> _]. done.
  - done.
  - done.
  - rewrite omap_app. cbn. by rewrite !(assoc_L (++)).
Qed.

(** A step only adds to the log. *)
Lemma step_log σ σ' : step σ σ' → ∃ evs, log σ' = log σ ++ evs.
Proof.
  intros Hs. apply step_inv in Hs as [σ1 Hw|r s1 Hh|].
  - destruct Hw; by eexists.
  - by eexists.
  - exists []. by rewrite app_nil_r.
Qed.

Lemma reachable_fifo σ : reachable σ → fifo_inv σ.
Proof.
  revert σ. apply (reachable_ind fifo_inv).
  - by intros σ [reader em H].
  - intros σ σ' _ Hinv Hs. apply step_inv in Hs as [σ1 Hw|r s1 Hh|].
    + by eapply worker_case_fifo.
    + by apply handled_fifo.
    + done.
Qed.

Lemma reachable_first σ : reachable σ → head (omap queued_of (log σ)) = Some MACHINE_STATE_STARTUP.
Proof.
  revert σ. apply (reachable_ind (λ σ, head (omap queued_of (log σ)) = Some _)).
  - by intros σ [reader em H].
  - intros σ σ' _ Hinv [evs ->]%step_log. rewrite omap_app.
    by destruct (omap queued_of (log σ)).
Qed.

(** C10: Transitions run one at a time in the order in which they were queued: at
    every moment, the transitions queued so far are the ones that have ended, then
    the one in progress, then the ones waiting in the queue. The first is the
    start-up transition. *)
Theorem transitions_in_order (σ : sys) :
  reachable σ →
  omap queued_of (log σ) = (omap ended_of (log σ)).*1 ++ in_progress σ ++ waiting_queue σ ∧
  head (omap queued_of (log σ)) = Some MACHINE_STATE_STARTUP.
Proof. intros Hr. split; [by apply reachable_fifo|by apply reachable_first]. Qed.

(** ** Confirmations and the current state *)

Definition success_of (ev : event) : option string :=
  match ev with Ended s StateError.K_SUCCESS => Some s | _ => None end.
Definition confirm_of (ev : event) : option StateError.t :=
  match ev with Called (confirm st) => Some st | _ => None end.

Lemma quiet_calls {A} (f : A → call) l :
  (∀ x, confirm_of (Called (f x)) = None) →
  omap confirm_of (Called <$> (f <$> l)) = [] ∧ omap success_of (Called <$> (f <$> l)) = [].
Proof.
  intros Hf. induction l as [|x l [IH1 IH2]]; [done|]. cbn in *. by rewrite Hf.
Qed.

Lemma quiet_polls polls :
  Forall is_poll polls →
  omap confirm_of (Called <$> polls) = [] ∧ omap success_of (Called <$> polls) = [].
Proof. induction 1 as [|[] polls ? ? [IH1 IH2]]; try done. Qed.

Lemma quiet_queued l :
  omap confirm_of (queued_event <$> l) = [] ∧ omap success_of (queued_event <$> l) = [].
Proof. by induction l as [|x l [IH1 IH2]]. Qed.

Definition commit_inv (σ : sys) : Prop :=
  m_currentState (m_em (sv σ)) = default "" (last (omap success_of (log σ))) ∧
  omap confirm_of (log σ) = (λ _, StateError.K_SUCCESS) <$> omap success_of (log σ).

(** A step that neither confirms nor commits. *)
Lemma commit_inv_quiet σ s' p evs :
  omap confirm_of evs = [] → omap success_of evs = [] →
  m_currentState (m_em s') = m_currentState (m_em (sv σ)) →
  commit_inv σ → commit_inv (mk_sys s' p (log σ ++ evs)).
Proof.
  unfold commit_inv. intros Hc Hs Hcur [H1 H2]. cbn [sv log].
  by rewrite !omap_app, Hc, Hs, !app_nil_r, Hcur.
Qed.

Lemma worker_case_commit σ σ' : worker_case σ σ' → commit_inv σ → commit_inv σ'.
Proof.
  intros Hw Hinv. destruct Hw as [Hat Hr|st q Hat Hq|q Hat Hq|st Hat|st Hat|Hat|polls Hat Hp
    |polls Hat Hp|e tr Hat Hrun|Hat|c Hat|Hat|Hat]; unfold go.
  1-12: apply commit_inv_quiet; try done.
  - by apply quiet_calls.
  - by apply quiet_calls.
  - rewrite fmap_app, omap_app. destruct (quiet_polls polls Hp) as [-> _].
    by rewrite app_nil_r; apply quiet_calls.
  - rewrite fmap_app, omap_app. destruct (quiet_polls polls Hp) as [_ ->].
    by rewrite app_nil_r; apply quiet_calls.
  - rewrite omap_app, fmap_app, omap_app. destruct (quiet_polls polls Hp) as [-> _].
    cbn. rewrite !app_nil_r. by apply quiet_calls.
  - rewrite omap_app, fmap_app, omap_app. destruct (quiet_polls polls Hp) as [_ ->].
    cbn. rewrite !app_nil_r. by apply quiet_calls.
  - rewrite changeComponentsState_run in Hrun. injection Hrun as <- _. by apply quiet_calls.
  - rewrite changeComponentsState_run in Hrun. injection Hrun as <- _. by apply quiet_calls.
  - rewrite changeComponentsState_run in Hrun. by injection Hrun as _ <-.
  - cbn. unfold touch. by case_match.
  - unfold iterate. rewrite wait_body_run. cbn. unfold touch.
    destruct (is_component_state _), (_ !! _); done.
  - destruct Hinv as [_ H2]. unfold commit_inv. cbn [sv log].
    rewrite !omap_app, H2. cbn. by rewrite last_snoc, fmap_app.
Qed.

Lemma reachable_commit σ : reachable σ → commit_inv σ.
Proof.
  revert σ. apply (reachable_ind commit_inv).
  - intros σ [reader em H]. unfold construct in H.
    destruct (getStatesSupportedByApplication reader), (getMachineStates reader);
      cbn in H; by simplify_eq.
  - intros σ σ' _ Hinv Hs. apply step_inv in Hs as [σ1 Hw|r s1 Hh|].
    + by eapply worker_case_commit.
    + destruct (quiet_queued (queued_by r (sv σ))).
      apply commit_inv_quiet; [done|done| |done].
      destruct Hh as [q e Hserve _|p n _|_|pid st _ _]; try done.
      apply serve_pending in Hserve. unfold transition_part in Hserve. cbn.
      by injection Hserve.
    + done.
Qed.

(** The current machine state is the state of the last transition that ended
    with [K_SUCCESS] (none before the first), and the State Manager has been sent
    exactly one confirmation, [K_SUCCESS], for each of them. *)
Theorem current_state_confirmed (σ : sys) :
  reachable σ →
  m_currentState (m_em (sv σ)) = default "" (last (omap success_of (log σ))) ∧
  omap confirm_of (log σ) = (λ _, StateError.K_SUCCESS) <$> omap success_of (log σ).
Proof. apply reachable_commit. Qed.

