(* ===== verification/EMInvariant.v ===== *)
(** * Invariant of the Execution Manager process

    A well-formedness invariant of the state, preserved by every step of the system
    of [EMSystem], and the meaning of a confirmation: for a state other than
    [Running] and [Suspend], the allowed processes were exactly the active ones at
    some moment of the wait. *)

From stdpp Require Import base list gmap strings relations.
From S2P Require Import Prelude CppString Constants Common Queues ExecutionManager.
From S2P Require Import ExecutionManagerSpec EMServer EMSystem.

(** ** Well-formed states *)

Record em_wf (e : ExecutionManager.t) : Prop := {
  wf_allowed s : is_Some (m_allowedProcessesForState e !! s) → s ∈ m_machineManifestStates e;
  wf_current : m_currentState e = "" ∨ m_currentState e ∈ m_machineManifestStates e;
  wf_pending : m_pendingState e = "" ∨ m_pendingState e ∈ m_machineManifestStates e;
  wf_component :
    m_currentComponentState e ∈ [""; COMPONENT_STATE_ON; COMPONENT_STATE_OFF];
  wf_confirms : m_componentPendingConfirms e ⊆ m_registeredComponents e;
  wf_subscribers c : c ∈ m_componentStateUpdateSbscrs e → c ∈ m_registeredComponents e;
}.

(** The worker is between the acceptance of a transition and its end. *)
Definition busy (p : pc) : bool :=
  match p with Idle | Take | Check _ => false | _ => true end.
(** ... and the components have been told. *)
Definition told (p : pc) : bool :=
  match p with Log | Test | Body | Finish => true | _ => false end.

Record sys_wf (σ : sys) : Prop := {
  swf_em : em_wf (m_em (sv σ));
  swf_busy : busy (at_ σ) →
    pending σ ∈ m_machineManifestStates (m_em (sv σ)) ∧
    pending σ ≠ m_currentState (m_em (sv σ));
  swf_told : told (at_ σ) →
    m_currentComponentState (m_em (sv σ)) =
      if decide (pending σ = MACHINE_STATE_SUSPEND) then COMPONENT_STATE_OFF
      else COMPONENT_STATE_ON;
}.

Lemma construct_wf reader e : construct reader = Ret e → em_wf e.
Proof.
  unfold construct. destruct (getStatesSupportedByApplication reader) as [m|]; [|done].
  destruct (getMachineStates reader) as [states|]; [|done]. cbn.
  intros [= <-]. split; cbn.
  - intros s. rewrite filterStates_lookup. case_decide; [done|]. by intros [? ?].
  - by left.
  - by left.
  - constructor.
  - set_solver.
  - intros c Hc. by apply elem_of_nil in Hc.
Qed.

(** Changes that touch one group of members. *)
Lemma em_wf_ext e e' :
  transition_part e' = transition_part e →
  m_componentPendingConfirms e' ⊆ m_registeredComponents e' →
  (∀ c, c ∈ m_componentStateUpdateSbscrs e' → c ∈ m_registeredComponents e') →
  em_wf e → em_wf e'.
Proof.
  unfold transition_part. intros H Hc Hs [Wa Wc Wp Wst _ _].
  injection H as _ Ha Hcur Hp Hst Hm. rewrite <- ?Ha, <- ?Hcur, <- ?Hp, <- ?Hst, <- ?Hm in *.
  split; try done; congruence.
Qed.

(** Registered components only grow, pending ones and subscribers stay among them. *)
Lemma serve_components q e e' :
  serve q e = ([], e', Ret tt) →
  m_componentPendingConfirms e ⊆ m_registeredComponents e →
  (∀ c, c ∈ m_componentStateUpdateSbscrs e → c ∈ m_registeredComponents e) →
  m_componentPendingConfirms e' ⊆ m_registeredComponents e' ∧
  (∀ c, c ∈ m_componentStateUpdateSbscrs e' → c ∈ m_registeredComponents e').
Proof.
  intros H Hc Hs. destruct q as [p st|c m|c|c s st|]; cbn [serve] in H.
  - unfold reportApplicationState, modify, mret, cpp_ret, halt in H.
    repeat case_match; simplify_eq; done.
  - rewrite registerComponent_run in H. injection H as <-.
    case_decide; cbn; (split; [set_solver|]); intros d;
      rewrite ?elem_of_app, ?list_elem_of_singleton; set_solver.
  - unfold getComponentState in H. cbv [mbind cpp_bind get mret cpp_ret] in H.
    case_decide; by simplify_eq/=.
  - rewrite confirmComponentState_run in H. injection H as <-.
    repeat case_decide; cbn; (split; [set_solver|done]).
  - by injection H as <-.
Qed.

Lemma serve_wf q e e' : serve q e = ([], e', Ret tt) → em_wf e → em_wf e'.
Proof.
  intros H [Wa Wc Wp Wst Wconf Wsub].
  destruct (serve_components _ _ _ H Wconf Wsub).
  apply (em_wf_ext e); [exact (serve_pending _ _ _ H)|done|done|by split].
Qed.

Lemma touch_wf e : m_pendingState e ∈ m_machineManifestStates e → em_wf e → em_wf (touch e).
Proof.
  intros Hp [Wa Wc Wp Wst Wconf Wsub]. unfold touch.
  destruct (m_allowedProcessesForState e !! m_pendingState e); split; try done.
  cbn. intros s. destruct (decide (m_pendingState e = s)) as [<-|Hne]; [done|].
  rewrite lookup_insert_ne by done. apply Wa.
Qed.

Lemma upd_ready_wf f e : em_wf e → em_wf (upd_ready f e).
Proof. by intros [Wa Wc Wp Wst Wconf Wsub]. Qed.
Lemma upd_confirms_wf f e : em_wf e → em_wf (upd_confirms f e).
Proof. by intros [Wa Wc Wp Wst Wconf Wsub]. Qed.
#[export] Hint Resolve upd_ready_wf upd_confirms_wf touch_wf : cpp.

(** ** The invariant *)

Lemma refuses_false e s :
  refuses e s = false ↔ s ∈ m_machineManifestStates e ∧ s ≠ m_currentState e.
Proof.
  unfold refuses. rewrite bool_decide_eq_false.
  destruct (decide (s ∈ m_machineManifestStates e)); tauto.
Qed.

Lemma iterate_wf e : m_pendingState e ∈ m_machineManifestStates e → em_wf e → em_wf (iterate e).
Proof.
  intros Hp Hwf. unfold iterate. rewrite wait_body_run. cbn.
  destruct (is_component_state _); unfold id; auto with cpp.
Qed.

Lemma touch_component e : m_currentComponentState (touch e) = m_currentComponentState e.
Proof. unfold touch. by case_match. Qed.

Lemma iterate_states e : states_part (iterate e) = states_part e ∧
  m_currentComponentState (iterate e) = m_currentComponentState e.
Proof.
  unfold iterate. rewrite wait_body_run. cbn. unfold touch.
  destruct (is_component_state _), (_ !! _); done.
Qed.

Lemma worker_case_wf σ σ' : worker_case σ σ' → sys_wf σ → sys_wf σ'.
Proof.
  intros Hw [Hwf Hbusy Htold]. unfold pending in *.
  destruct Hw as [Hat Hr|st q Hat Hq|q Hat Hq|st Hat Hr|st Hat Hr|Hat|polls Hat Hp
    |polls Hat Hp|e tr Hat Hrun|Hat|c Hat|Hat|Hat]; rewrite Hat in Hbusy, Htold.
  - by split.
  - by split.
  - by split.
  - split; [|done|done]. cbn. unfold flags_reset. auto with cpp.
  - apply refuses_false in Hr as [Hin Hne]. split; [|by intros _|done].
    destruct Hwf as [Wa Wc Wp Wst Wconf Wsub]. split; try done. cbn. by right.
  - destruct (Hbusy I) as [Hin Hne]. split; [|by intros _|done].
    destruct Hwf as [Wa Wc Wp Wst Wconf Wsub]. split; try done. cbn. intros c.
    rewrite list_elem_of_filter. naive_solver.
  - split; [done|by intros _; apply Hbusy|done].
  - by split.
  - destruct (Hbusy I) as [Hin Hne]. rewrite changeComponentsState_run in Hrun.
    injection Hrun as _ <-. split; [|by intros _|by intros _].
    destruct Hwf as [Wa Wc Wp Wst Wconf Wsub]. split; try done; cbn.
    + case_decide; set_solver.
    + set_solver.
  - destruct (Hbusy I) as [Hin Hne].
    pose proof (touch_states_part (m_em (sv σ))) as Hst.
    apply states_part_eq in Hst as (Hc & Hp & Hm).
    split; unfold pending; cbn; [by auto with cpp|intros _; by rewrite Hc, Hp, Hm|].
    rewrite Hp, touch_component. intros _. by apply Htold.
  - destruct c; (split; [done|intros _; by apply Hbusy|intros _; by apply Htold]).
  - destruct (Hbusy I) as [Hin Hne].
    destruct (iterate_states (m_em (sv σ))) as [(Hc & Hp & Hm)%states_part_eq Hst].
    split; unfold pending; cbn; [by apply iterate_wf|intros _; by rewrite Hc, Hp, Hm|].
    rewrite Hp, Hst. intros _. by apply Htold.
  - destruct (Hbusy I) as [Hin Hne].
    split; [|done|done]. destruct Hwf as [Wa Wc Wp Wst Wconf Wsub]. split; try done; by right.
Qed.

Lemma reachable_wf (σ : sys) : reachable σ → sys_wf σ.
Proof.
  revert σ. apply reachable_ind.
  - intros σ [reader em H]. split; [by eapply construct_wf|done|done].
  - intros σ σ' _ Hwf Hs. apply step_inv in Hs as [σ1 Hw|r s1 Hh|].
    + by eapply worker_case_wf.
    + destruct Hwf as [Hwf Hbusy Htold].
      destruct Hh as [q e Hserve _|p n _|_|pid st _ _]; try by split.
      pose proof (serve_pending _ _ _ Hserve) as Hpart. unfold transition_part in Hpart.
      injection Hpart as _ _ Hc Hp Hst Hm.
      split; unfold pending in *; cbn; [by eapply serve_wf|..];
        rewrite ?Hc, ?Hp, ?Hst, ?Hm; done.
    + by destruct Hwf.
Qed.

(** C22: The state of the Execution Manager stays well formed under every
    interleaving of requests with the phases of a transition: states are declared
    ones, processes are kept for declared states only, the component state is one of
    the two, pending components and subscribers are registered; while a transition
    is carried out its target is a declared state other than the current one, and
    once the components have been notified their state is the one of the target. *)
Theorem system_well_formed (σ : sys) : reachable σ → sys_wf σ.
Proof. apply reachable_wf. Qed.

(** ** What a confirmation means *)

(** Executions, with all their states, the latest first. *)
Inductive execution : list sys → Prop :=
  | execution_init σ : initial σ → execution [σ]
  | execution_step σ σ' h : execution (σ :: h) → step σ σ' → execution (σ' :: σ :: h).

(** The worker is in the waiting loop, or has just left it. *)
Definition looping (p : pc) : bool := match p with Test | Body | Finish => true | _ => false end.

(** In the history [h] the processes were settled for the transition to [s] when the
    worker looked, and it has been in the loop of that transition since. *)
Definition settled_during (s : string) (h : list sys) : Prop :=
  ∃ h1 σ0 h2, h = h1 ++ σ0 :: h2 ∧
    Forall (λ σ, looping (at_ σ) ∧ pending σ = s) h1 ∧
    (at_ σ0 = Log ∨ at_ σ0 = Body) ∧ pending σ0 = s ∧
    m_activeProcesses (m_em (sv σ0)) = allowed_for (m_em (sv σ0)) s.

Lemma settled_during_cons s σ h :
  looping (at_ σ) → pending σ = s → settled_during s h → settled_during s (σ :: h).
Proof.
  intros Hl Hp (h1 & σ0 & h2 & -> & H1 & H2). exists (σ :: h1), σ0, h2.
  split; [done|]. split; [by constructor|done].
Qed.

Lemma settled_during_now s σ' σ h :
  looping (at_ σ') → pending σ' = s → (at_ σ = Log ∨ at_ σ = Body) → pending σ = s →
  settled (m_em (sv σ)) = true → settled_during s (σ' :: σ :: h).
Proof.
  intros Hl Hp Hat Hp' Hs. exists [σ'], σ, h. split; [done|].
  split; [by repeat constructor|]. split; [done|]. split; [done|].
  apply settled_spec in Hs. unfold pending in Hp'. by rewrite Hp' in Hs.
Qed.

Definition ready_inv (h : list sys) : Prop :=
  match h with
  | [] => True
  | σ :: _ =>
      (looping (at_ σ) → m_readyToTransitToNextState (m_em (sv σ)) = true →
         settled_during (pending σ) h) ∧
      (at_ σ = Finish → is_component_state (pending σ) = false →
         m_readyToTransitToNextState (m_em (sv σ)) = true)
  end.

Lemma touch_pending e : m_pendingState (touch e) = m_pendingState e.
Proof. apply touch_part. Qed.

Lemma worker_case_ready σ σ' h :
  worker_case σ σ' → ready_inv (σ :: h) → ready_inv (σ' :: σ :: h).
Proof.
  intros Hw [Hset Hfin].
  destruct Hw as [Hat Hr|st q Hat Hq|q Hat Hq|st Hat Hr|st Hat Hr|Hat|polls Hat Hp
    |polls Hat Hp|e tr Hat Hrun|Hat|c Hat Hc|Hat|Hat]; rewrite Hat in Hset, Hfin;
    try (split; cbn; done).
  - split; [|done]. intros _ Hr. cbn in Hr.
    apply settled_during_now; [done|done|by left| |done].
    unfold pending; cbn. by rewrite touch_pending.
  - split.
    + intros _ Hr. apply settled_during_cons; [by destruct c|done|]. by apply Hset.
    + cbn. intros Hf Hcs. destruct c; [done|]. unfold pending in *. cbn in *.
      rewrite Hcs in Hc. by destruct (m_readyToTransitToNextState (m_em (sv σ))).
  - split; [|done]. intros _ Hr. cbn in Hr.
    destruct (iterate_part (m_em (sv σ))) as (_ & Hp & Hready & _).
    rewrite Hready in Hr. apply settled_during_now; [done|done|by right| |done].
    unfold pending; cbn. by rewrite Hp.
Qed.

Lemma ready_inv_frame σ σ' h :
  at_ σ' = at_ σ → pending σ' = pending σ →
  m_readyToTransitToNextState (m_em (sv σ')) = m_readyToTransitToNextState (m_em (sv σ)) →
  ready_inv (σ :: h) → ready_inv (σ' :: σ :: h).
Proof.
  intros Hat Hp Hr [Hset Hfin]. split; rewrite Hat, Hp, Hr; [|done].
  intros Hl Hready. apply settled_during_cons; [by rewrite Hat|done|]. by apply Hset.
Qed.

(** C11: For every declared state other than [Running] and [Suspend]: when the worker
    is about to confirm the transition, there was a moment since it began to wait for
    this transition at which the active processes were exactly the ones allowed in
    the state, whatever requests were served before, during and after it. *)
Theorem confirmed_only_after_settling (σ : sys) (h : list sys) :
  execution (σ :: h) → at_ σ = Finish → is_component_state (pending σ) = false →
  settled_during (pending σ) (σ :: h).
Proof.
  intros Hexec Hat Hc. assert (ready_inv (σ :: h)) as [Hset Hfin].
  { clear Hat Hc. revert Hexec. generalize (σ :: h).
    induction 1 as [σ0 [reader em H]|σ0 σ' h0 Hexec IH Hs]; [by split|].
    apply step_inv in Hs as [σ1 Hw|r s1 Hh|].
    - by eapply worker_case_ready.
    - apply ready_inv_frame; try done.
      + destruct Hh as [q e Hserve _|p n _|_|pid st _ _]; try done.
        by apply serve_pending, transition_part_eq in Hserve as [? _].
      + destruct Hh as [q e Hserve _|p n _|_|pid st _ _]; try done.
        apply serve_pending in Hserve. unfold transition_part in Hserve.
        by injection Hserve.
    - by apply ready_inv_frame. }
  apply Hset; [by rewrite Hat|by apply Hfin].
Qed.
