(* ===== verification/EMRefinement.v ===== *)
(** * An abstract machine-state controller, and that the process implements it

    What the Execution Manager promises, without phases, flags or queues: a
    transition has a target; the controller observes whether the running processes
    are the allowed ones; it commits the target after a positive observation (or, in
    the two states in which components are asked, also without one), or gives up a
    start-up. [EMSystem] is shown to implement it, step by step. *)

From stdpp Require Import base list gmap strings relations.
From S2P Require Import Prelude CppString Constants Common Queues ExecutionManager.
From S2P Require Import ExecutionManagerSpec EMServer EMSystem EMInvariant.

(** ** The specification *)

Record controller := mk_controller {
  a_current : string;
  a_target : option (string * bool);
  a_running : gset string;
  a_commits : list string;
}.

Section specification.
(** The declared states and the processes of each state. *)
Context (declared : list string) (allowed : string → gset string).

Inductive astep : controller → controller → Prop :=
  | a_accept c s :
      a_target c = None → s ∈ declared → s ≠ a_current c →
      astep c (mk_controller (a_current c) (Some (s, false)) (a_running c) (a_commits c))
  | a_observe c s b :
      a_target c = Some (s, b) →
      astep c (mk_controller (a_current c)
                 (Some (s, bool_decide (a_running c = allowed s))) (a_running c) (a_commits c))
  | a_commit c s b :
      a_target c = Some (s, b) → b = true ∨ is_component_state s = true →
      astep c (mk_controller s None (a_running c) (a_commits c ++ [s]))
  | a_abort c b :
      a_target c = Some (MACHINE_STATE_STARTUP, b) →
      astep c (mk_controller (a_current c) None (a_running c) (a_commits c))
  | a_report c X :
      astep c (mk_controller (a_current c) (a_target c) X (a_commits c)).

Definition astart (c : controller) : Prop :=
  a_current c = "" ∧ a_target c = None ∧ a_commits c = [].

(** Commits are to declared states, and the current state is the last one. *)
Lemma controller_safe c c' :
  astart c → rtc astep c c' →
  Forall (λ s, s ∈ declared) (a_commits c') ∧
  a_current c' = default "" (last (a_commits c')) ∧
  (∀ s b, a_target c' = Some (s, b) → s ∈ declared ∧ s ≠ a_current c').
Proof.
  intros (Hc & Ht & Hl). revert c'. apply (rtc_ind_r (λ c', _ ∧ _ ∧ _)).
  - rewrite Hc, Ht, Hl. by repeat split.
  - intros c1 c2 _ Hs (H1 & H2 & H3). destruct Hs as [c1 s|c1 s b Hb|c1 s b Hb|c1 b Hb|c1 X];
      cbn in *; try done.
    + split; [done|]. split; [done|]. intros ? ? [= <- <-]. done.
    + split; [done|]. split; [done|]. intros ? ? [= <- <-]. by eapply H3.
    + destruct (H3 s b Hb). rewrite last_snoc. split; [|by split].
      rewrite Forall_app. by split; [|constructor].
Qed.

(** ** The refinement *)

Definition observed (σ : sys) : bool :=
  looping (at_ σ) && m_readyToTransitToNextState (m_em (sv σ)).

Record refines (σ : sys) (c : controller) : Prop := {
  ref_current : a_current c = m_currentState (m_em (sv σ));
  ref_target : a_target c = if busy (at_ σ) then Some (pending σ, observed σ) else None;
  ref_running : a_running c = m_activeProcesses (m_em (sv σ));
  ref_commits : a_commits c = omap success_of (log σ);
  ref_declared : declared = m_machineManifestStates (m_em (sv σ));
  ref_allowed s : allowed s = allowed_for (m_em (sv σ)) s;
  ref_finish : at_ σ = Finish →
    m_readyToTransitToNextState (m_em (sv σ)) = true ∨ is_component_state (pending σ) = true;
}.

(** The abstract state that matches a state of the process. *)
Definition abstract (σ : sys) : controller :=
  mk_controller (m_currentState (m_em (sv σ)))
    (if busy (at_ σ) then Some (pending σ, observed σ) else None)
    (m_activeProcesses (m_em (sv σ))) (omap success_of (log σ)).

Lemma refines_abstract σ c : refines σ c → c = abstract σ.
Proof. intros [Hc Ht Hr Hl _ _ _]. destruct c. unfold abstract. cbn in *. by subst. Qed.

(** What does not change, and what holds when the worker is about to confirm. *)
Record static (σ : sys) : Prop := {
  st_declared : declared = m_machineManifestStates (m_em (sv σ));
  st_allowed s : allowed s = allowed_for (m_em (sv σ)) s;
  st_finish : at_ σ = Finish →
    m_readyToTransitToNextState (m_em (sv σ)) = true ∨ is_component_state (pending σ) = true;
}.

Lemma abstract_refines σ : static σ → refines σ (abstract σ).
Proof. by intros [Hd Ha Hf]. Qed.

Lemma static_settled σ :
  static σ → settled (m_em (sv σ)) = bool_decide (m_activeProcesses (m_em (sv σ)) = allowed (pending σ)).
Proof. intros [_ Ha _]. unfold settled. by rewrite Ha. Qed.

Lemma worker_static σ σ' : worker_case σ σ' → static σ → static σ'.
Proof.
  intros Hw [Hd Ha Hf].
  destruct Hw as [Hat Hr|st q Hat Hq|q Hat Hq|st Hat Hr|st Hat Hr|Hat|polls Hat Hp
    |polls Hat Hp|e tr Hat Hrun|Hat|c Hat Hc|Hat|Hat]; try by split.
  - rewrite changeComponentsState_run in Hrun. injection Hrun as _ <-. by split.
  - pose proof (touch_states_part (m_em (sv σ))) as (_ & _ & Hm)%states_part_eq.
    split; [by rewrite Hd, <- Hm| |done].
    intros s. rewrite Ha, <- allowed_for_touch. done.
  - split; [by destruct c|by destruct c|]. cbn. intros Hfin.
    destruct c; [done|]. unfold pending in *. cbn.
    destruct (m_readyToTransitToNextState (m_em (sv σ))); [by left|right].
    by destruct (is_component_state _).
  - destruct (iterate_states (m_em (sv σ))) as [(_ & _ & Hm)%states_part_eq _].
    destruct (iterate_part (m_em (sv σ))) as (_ & _ & _ & Hall).
    split; [by rewrite Hd, <- Hm| |done]. intros s. rewrite Ha, <- Hall. done.
Qed.

Lemma handled_static r σ s' evs :
  handled r (sv σ) s' → static σ → static (mk_sys s' (at_ σ) (log σ ++ evs)).
Proof.
  intros Hh [Hd Ha Hf]. destruct Hh as [q e Hserve _|p n _|_|pid st _ _]; try by split.
  apply serve_pending in Hserve. pose proof (transition_part_eq _ _ Hserve) as [Hp Hall].
  unfold transition_part in Hserve. injection Hserve as Hr _ _ _ _ Hm.
  split; unfold pending in *; cbn; rewrite ?Hp, ?Hr, ?Hm; try done.
  intros s. by rewrite Hall.
Qed.

(** A worker's step is a step of the controller or none of its concern. *)
Lemma worker_simulates σ σ' :
  worker_case σ σ' → static σ → sys_wf σ →
  abstract σ' = abstract σ ∨ astep (abstract σ) (abstract σ').
Proof.
  intros Hw Hst Hwf. pose proof (static_settled σ Hst) as Hset.
  destruct Hst as [Hd Ha Hf]. unfold abstract.
  destruct Hw as [Hat Hr|st q Hat Hq|q Hat Hq|st Hat Hr|st Hat Hr|Hat|polls Hat Hp
    |polls Hat Hp Hstart|e tr Hat Hrun|Hat|c Hat Hc|Hat|Hat];
    unfold observed, go; cbn [log sv at_]; rewrite ?Hat, ?omap_app;
    cbn [busy looping andb].
  - left. cbn. by rewrite !app_nil_r.
  - left. cbn. by rewrite !app_nil_r.
  - left. cbn. by rewrite !app_nil_r.
  - left. cbn. by rewrite !app_nil_r.
  - right. apply refuses_false in Hr as [Hin Hne]. rewrite <- Hd in Hin.
    cbn. rewrite !app_nil_r. by apply a_accept.
  - left. by rewrite (proj2 (quiet_calls killProcess _ ltac:(done))), !app_nil_r.
  - left. rewrite fmap_app, omap_app, (proj2 (quiet_polls polls Hp)).
    by rewrite (proj2 (quiet_calls startProcess _ ltac:(done))), !app_nil_r.
  - right. rewrite fmap_app, omap_app, (proj2 (quiet_polls polls Hp)).
    rewrite (proj2 (quiet_calls startProcess _ ltac:(done))). cbn. rewrite !app_nil_r.
    rewrite Hstart. by apply (a_abort (mk_controller _ _ _ _) false).
  - left. rewrite changeComponentsState_run in Hrun. injection Hrun as <- <-.
    by rewrite (proj2 (quiet_calls (SetComponentState _) _ ltac:(done))), !app_nil_r.
  - right. destruct (touch_part (m_em (sv σ))) as (Hact & Hp & _).
    pose proof (touch_states_part (m_em (sv σ))) as (Hcur & _ & _)%states_part_eq.
    unfold pending in *. cbn. rewrite !app_nil_r, Hact, Hp, Hcur, Hset.
    by apply (a_observe (mk_controller _ _ _ _) _ false).
  - left. cbn. rewrite !app_nil_r. by destruct c.
  - right. destruct (iterate_part (m_em (sv σ))) as (Hact & Hp & Hr & _).
    destruct (iterate_states (m_em (sv σ))) as [(Hcur & _ & _)%states_part_eq _].
    unfold pending in *. cbn. rewrite !app_nil_r, Hact, Hp, Hcur, Hr, Hset.
    eapply (a_observe (mk_controller _ _ _ _)). reflexivity.
  - right. cbn. eapply (a_commit (mk_controller _ _ _ _)); [done|]. by apply Hf.
Qed.

Lemma handled_simulates r σ s' :
  handled r (sv σ) s' →
  astep (abstract σ)
    (abstract (mk_sys s' (at_ σ) (log σ ++ (queued_event <$> queued_by r (sv σ))))).
Proof.
  intros Hh. unfold abstract, observed, pending. cbn [sv at_ log].
  rewrite omap_app, (proj2 (quiet_queued _)), app_nil_r.
  assert (m_currentState (m_em s') = m_currentState (m_em (sv σ)) ∧
          m_pendingState (m_em s') = m_pendingState (m_em (sv σ)) ∧
          m_readyToTransitToNextState (m_em s')
            = m_readyToTransitToNextState (m_em (sv σ))) as (-> & -> & ->).
  { destruct Hh as [q e Hserve _|p n _|_|pid st _ _]; try done.
    apply serve_pending in Hserve. unfold transition_part in Hserve.
    injection Hserve as Hr _ Hc Hp _ _. by cbn. }
  by apply (a_report (mk_controller _ _ _ _)).
Qed.
End specification.

(** The controller depends on the sets of processes only through their elements'
    function. *)
Lemma astep_ext declared allowed allowed' c c' :
  (∀ s, allowed s = allowed' s) → astep declared allowed c c' → astep declared allowed' c c'.
Proof.
  intros Ha Hs. destruct Hs as [c s|c s b Hb|c s b Hb|c b Hb|c X].
  - by apply a_accept.
  - rewrite Ha. by eapply a_observe.
  - by eapply a_commit.
  - by eapply a_abort.
  - by apply a_report.
Qed.

(** C2: The Execution Manager process implements the controller: every reachable
    state of the two-threaded system is matched by a controller state that a run of
    the controller reaches, in which the current state, the target, the running
    processes and the committed states are those of the process. Hence it commits
    only declared states, each after an observation or in a component state. *)
Theorem process_implements_controller (σ : sys) :
  reachable σ →
  let declared := m_machineManifestStates (m_em (sv σ)) in
  let allowed := allowed_for (m_em (sv σ)) in
  ∃ c0 c, astart c0 ∧ rtc (astep declared allowed) c0 c ∧ refines declared allowed σ c.
Proof.
  intros Hr. assert (∃ declared allowed c0, astart c0 ∧ static declared allowed σ ∧
    rtc (astep declared allowed) c0 (abstract σ)) as (declared & allowed & c0 & Hc0 & Hst & Hrtc).
  { revert σ Hr. apply reachable_ind.
    - intros σ [reader em H].
      exists (m_machineManifestStates em), (allowed_for em),
        (abstract (mk_sys (construct_server em MsmHandler.init) Idle [])).
      unfold construct in H. destruct (getStatesSupportedByApplication reader); [|done].
      destruct (getMachineStates reader); [|done]. cbn in H. injection H as <-.
      by split; [|split].
    - intros σ σ' Hr (declared & allowed & c0 & Hc0 & Hst & Hrtc) Hs.
      exists declared, allowed, c0. split; [done|].
      apply step_inv in Hs as [σ1 Hw|r s1 Hh|].
      + split; [by eapply worker_static|].
        destruct (worker_simulates _ _ _ _ Hw Hst (reachable_wf σ Hr)) as [->|Ha];
          [done|by eapply rtc_r].
      + split; [by eapply handled_static|]. eapply rtc_r; [done|]. by apply handled_simulates.
      + by destruct Hst. }
  assert (declared = m_machineManifestStates (m_em (sv σ))) as -> by apply Hst.
  exists c0, (abstract σ). split; [done|]. split; [|by apply abstract_refines; destruct Hst].
  eapply rtc_subrel; [|exact Hrtc]. intros c1 c2. apply astep_ext, Hst.
Qed.
