(* ===== verification/EMProgress.v ===== *)
(** * Progress of the worker thread

    When the worker can take a step, and when the waiting loop, left alone by the
    other threads, comes to its end. *)

From stdpp Require Import base list gmap strings relations.
From S2P Require Import Prelude CppString Constants Common Queues ExecutionManager.
From S2P Require Import ExecutionManagerSpec EMServer EMSystem EMInvariant.

Local Arguments worker : simpl never.

(** [n] steps of the worker, with no request between them. *)
Fixpoint worker_n (alive : nat → string → bool) (n : nat) (σ : sys) : option sys :=
  match n with
  | O => Some σ
  | S n => σ' ← worker alive σ; worker_n alive n σ'
  end.

Lemma worker_n_steps alive n σ σ' : worker_n alive n σ = Some σ' → rtc step σ σ'.
Proof.
  revert σ. induction n as [|n IH]; cbn; intros σ H; [by simplify_eq|].
  destruct (worker alive σ) as [σ1|] eqn:Hw; [|done]. cbn in H.
  eapply rtc_l; [by eapply step_worker|by apply IH].
Qed.

Lemma phase_run {A} (m : cpp ExecutionManager.t call A) next σ tr e a :
  m (m_em (sv σ)) = (tr, e, Ret a) →
  phase m next σ =
    Some (mk_sys (upd_em (λ _, e) (sv σ)) (next a).1 (log σ ++ (Called <$> tr) ++ (next a).2)).
Proof. intros H. unfold phase, on_em. by rewrite H. Qed.

Lemma sms_log_run e : sms_log e = ([], upd_ready (λ _, settled e) (touch e), Ret tt).
Proof. unfold sms_log. by erewrite run_bind by apply isConfirmAvailable_run. Qed.

(** The worker in the last phases of a transition. *)
Lemma worker_log alive σ :
  at_ σ = Log →
  worker alive σ =
    Some (go σ (upd_ready (λ _, settled (m_em (sv σ))) (touch (m_em (sv σ)))) Test []).
Proof.
  intros Hat. unfold worker. rewrite Hat. by erewrite phase_run by apply sms_log_run.
Qed.

Definition keep_waiting (e : ExecutionManager.t) : bool :=
  negb (m_readyToTransitToNextState e) &&
  negb (is_component_state (m_pendingState e) && m_componentConfirmsReceived e).

Lemma worker_test alive σ :
  at_ σ = Test →
  worker alive σ =
    Some (go σ (m_em (sv σ)) (if keep_waiting (m_em (sv σ)) then Body else Finish) []).
Proof. intros Hat. unfold worker. rewrite Hat. by erewrite phase_run by apply wait_test_run. Qed.

Lemma worker_body alive σ :
  at_ σ = Body → worker alive σ = Some (go σ (iterate (m_em (sv σ))) Test []).
Proof. intros Hat. unfold worker. rewrite Hat. by erewrite phase_run by apply iterate_run. Qed.

(** A worker in a transition always goes on. *)
Lemma worker_goes alive σ :
  at_ σ ≠ Idle → at_ σ ≠ Take → is_Some (worker alive σ).
Proof.
  destruct (at_ σ) as [| |st| | | | | | |] eqn:Hat; try done; intros _ _.
  - unfold worker. rewrite Hat. erewrite phase_run by apply sms_check_run. eauto.
  - unfold worker. rewrite Hat. erewrite phase_run by apply killProcessesForState_run. eauto.
  - unfold worker. rewrite Hat.
    destruct (startApplicationsForState_run alive (m_em (sv σ))) as (polls & _ & _ & Hs).
    erewrite phase_run by exact Hs. eauto.
  - unfold worker. rewrite Hat. erewrite phase_run by apply changeComponentsState_run. eauto.
  - rewrite worker_log by done. eauto.
  - rewrite worker_test by done. eauto.
  - rewrite worker_body by done. eauto.
  - unfold worker. rewrite Hat. erewrite phase_run by apply sms_finish_run. eauto.
Qed.

(** In [EMSystem], where the calls to the client return, the worker has no next step
    exactly when it is between transitions and has been stopped, or waits for a method and
    nothing is queued (also when it has been stopped: the destructor's [join] then does not
    return). [EMClient] has the calls that wait. *)
Lemma worker_stuck_iff (alive : nat → string → bool) (σ : sys) :
  worker alive σ = None ↔
  at_ σ = Idle ∧ isRunning (sv σ) = false ∨ at_ σ = Take ∧ em_queue (sv σ) = ThreadQueue.mk [].
Proof.
  destruct (decide (at_ σ = Idle)) as [Hat|Hidle]; [|destruct (decide (at_ σ = Take)) as [Hat|Htake]].
  - unfold worker. rewrite Hat. destruct (isRunning (sv σ)); naive_solver.
  - unfold worker. rewrite Hat, ThreadQueue.getExecutor_take.
    destruct (em_queue (sv σ)) as [[|[st|] q]]; naive_solver.
  - destruct (worker_goes alive σ Hidle Htake) as [σ' ->]. naive_solver.
Qed.

(** Neither condition of the loop can become true without another thread. *)
Definition hopeless (e : ExecutionManager.t) : Prop :=
  settled e = false ∧
  (is_component_state (m_pendingState e) = true → m_componentPendingConfirms e ≠ ∅).

Lemma iterate_confirms e :
  m_componentPendingConfirms (iterate e) = m_componentPendingConfirms e ∧
  (is_component_state (m_pendingState e) = true →
   m_componentConfirmsReceived (iterate e) = bool_decide (m_componentPendingConfirms e = ∅)).
Proof.
  unfold iterate. rewrite wait_body_run. cbn.
  unfold touch. by destruct (is_component_state _), (_ !! _).
Qed.

Lemma settled_part e e' :
  m_activeProcesses e' = m_activeProcesses e → m_pendingState e' = m_pendingState e →
  (∀ s, allowed_for e' s = allowed_for e s) → settled e' = settled e.
Proof. intros Ha Hp Hall. unfold settled. by rewrite Ha, Hp, Hall. Qed.

Definition spinning (σ : sys) : Prop :=
  hopeless (m_em (sv σ)) ∧
  (at_ σ = Body ∨ at_ σ = Test ∧ keep_waiting (m_em (sv σ)) = true).

Lemma spinning_step alive σ σ' : spinning σ → worker alive σ = Some σ' → spinning σ'.
Proof.
  intros [[Hs Hc] [Hat|[Hat Hk]]].
  - rewrite worker_body by done. intros [= <-].
    destruct (iterate_part (m_em (sv σ))) as (Ha & Hp & Hr & Hall).
    destruct (iterate_confirms (m_em (sv σ))) as [Hpc Hcr].
    split; [split|right; split]; cbn; [by rewrite (settled_part (m_em (sv σ)))|by rewrite Hp, Hpc|done|].
    unfold keep_waiting. rewrite Hr, Hs, Hp.
    destruct (is_component_state _); [|done]. rewrite Hcr by done. cbn.
    rewrite bool_decide_eq_false_2 by auto. done.
  - rewrite worker_test, Hk by done. intros [= <-]. split; [done|by left].
Qed.

Lemma spinning_n alive n σ σ' :
  spinning σ → worker_n alive n σ = Some σ' → at_ σ' ≠ Finish.
Proof.
  revert σ. induction n as [|n IH]; cbn; intros σ Hsp H.
  - simplify_eq. destruct Hsp as [_ [->|[-> _]]]; done.
  - destruct (worker alive σ) as [σ1|] eqn:Hw; [|done]. cbn in H.
    eapply IH; [|exact H]. by eapply spinning_step.
Qed.

Local Ltac unroll := cbn [mbind option_bind go sv at_ log m_em upd_em].

(** The waiting loop can end without another thread. *)
Definition can_end (e : ExecutionManager.t) : Prop :=
  settled e = true ∨
  is_component_state (m_pendingState e) = true ∧
  (m_componentConfirmsReceived e = true ∨ m_componentPendingConfirms e = ∅).

Section left_alone.
Context (alive : nat → string → bool) (σ : sys) (Hat : at_ σ = Log).

Let e := m_em (sv σ).
Let e1 := upd_ready (λ _, settled e) (touch e).

Lemma logged_part :
  m_pendingState e1 = m_pendingState e ∧ settled e1 = settled e ∧
  m_componentPendingConfirms e1 = m_componentPendingConfirms e ∧
  keep_waiting e1 = negb (settled e) &&
    negb (is_component_state (m_pendingState e) && m_componentConfirmsReceived e).
Proof.
  split; [apply touch_pending|]. split.
  { apply settled_part; [apply touch_part|apply touch_pending|apply allowed_for_touch]. }
  unfold keep_waiting, e1, touch. by case_match.
Qed.

Lemma ends_in_time :
  can_end e → ∃ n σ', n ≤ 4 ∧ worker_n alive n σ = Some σ' ∧ at_ σ' = Finish.
Proof.
  intros Hend. destruct logged_part as (Hp & Hs & Hpc & Hk).
  destruct (keep_waiting e1) eqn:Hk1.
  - assert (keep_waiting (iterate e1) = false) as Hk2.
    { destruct (iterate_part e1) as (_ & Hp2 & Hr & _).
      destruct (iterate_confirms e1) as [_ Hcr].
      unfold keep_waiting. rewrite Hp2, Hr, Hs, Hp in *.
      destruct Hend as [Hset|[Hc Hpend]]; [by rewrite Hset|].
      rewrite Hcr, Hpc, Hc by done. rewrite Hc in Hk.
      destruct Hpend as [Hcr'|Hpend]; [rewrite Hcr' in Hk|rewrite bool_decide_eq_true_2 by done];
        by destruct (settled e). }
    eexists 4, _. split; [done|]. cbn [worker_n]. rewrite worker_log by done. unroll.
    rewrite worker_test by done. unroll. fold e e1. rewrite Hk1, worker_body by done. unroll.
    rewrite worker_test by done. unroll. fold e e1. by rewrite Hk2.
  - eexists 2, _. split; [lia|]. cbn [worker_n]. rewrite worker_log by done. unroll.
    rewrite worker_test by done. unroll. fold e e1. by rewrite Hk1.
Qed.

Lemma ends_only_if n σ' : worker_n alive n σ = Some σ' → at_ σ' = Finish → can_end e.
Proof.
  intros Hn Hf. destruct (decide (settled e = true)) as [|Hs%not_true_is_false]; [by left|].
  destruct logged_part as (Hp & Hs1 & Hpc & Hk). rewrite Hs in Hk. cbn in Hk.
  destruct n as [|n]; cbn in Hn; [simplify_eq; congruence|].
  rewrite worker_log in Hn by done. cbn in Hn. destruct n as [|n]; cbn in Hn; [by simplify_eq|].
  destruct (is_component_state (m_pendingState e)) eqn:Hc; [|exfalso].
  - right. split; [done|].
    destruct (decide (m_componentPendingConfirms e = ∅)) as [|Hne]; [by right|].
    destruct (m_componentConfirmsReceived e) eqn:Hcr; [by left|exfalso].
    eapply (spinning_n alive (S n) _ σ'); [|exact Hn|done].
    unfold spinning, hopeless. unroll. fold e e1. rewrite Hs1, Hpc. auto.
  - eapply (spinning_n alive (S n) _ σ'); [|exact Hn|done].
    unfold spinning, hopeless. unroll. fold e e1. rewrite Hs1, Hp, Hc. auto.
Qed.
End left_alone.

(** C23: Left alone by the other threads, the waiting loop comes to its end if and
    only if, when it is entered, the active processes are exactly the allowed ones
    or, in the two component states, the components have confirmed or none of them
    is pending; and it then ends within two evaluations of its condition. Otherwise
    it spins: only a report or a confirmation from another thread ends it. *)
Theorem wait_left_alone (alive : nat → string → bool) (σ : sys) :
  at_ σ = Log →
  ((∃ n σ', worker_n alive n σ = Some σ' ∧ at_ σ' = Finish) ↔ can_end (m_em (sv σ))) ∧
  (can_end (m_em (sv σ)) →
     ∃ n σ', n ≤ 4 ∧ worker_n alive n σ = Some σ' ∧ at_ σ' = Finish).
Proof.
  intros Hat. pose proof (ends_in_time alive σ Hat) as Hin. split; [split|done].
  - intros (n & σ' & Hn & Hf). by eapply ends_only_if.
  - intros (n & σ' & _ & H)%Hin. by exists n, σ'.
Qed.

(** ** The sequential function is an execution of the system *)

(** The remote call that serves a request. The names of a request are C strings. *)
Definition rpc_of (r : request) : rpc :=
  match r with
  | ReportApplicationState appName state => reportApplicationState_rpc appName state
  | RegisterComponent component mode => registerComponent_rpc component mode
  | GetComponentState component => getComponentState_rpc component
  | ConfirmComponentState component state status =>
      confirmComponentState_rpc component state status
  | GetMachineState => getMachineState_rpc 0
  end.

Definition c_request (r : request) : bool :=
  match r with
  | ReportApplicationState n _ | RegisterComponent n _ | GetComponentState n =>
      bool_decide (c_str n = n)
  | ConfirmComponentState n s _ => bool_decide (c_str n = n ∧ c_str s = s)
  | GetMachineState => true
  end.

Lemma on_em_run {A} (m : cpp ExecutionManager.t call A) s tr e a :
  m (m_em s) = (tr, e, Ret a) → on_em m s = (tr, upd_em (λ _, e) s, Ret a).
Proof. intros H. unfold on_em. by rewrite H. Qed.

Lemma on_em_ret {A B} (m : cpp ExecutionManager.t call A) (f : A → B) s tr e a :
  m (m_em s) = (tr, e, Ret a) →
  (x ← on_em m; mret (f x)) s = (tr, upd_em (λ _, e) s, Ret (f a)).
Proof.
  intros H. erewrite run_bind by by apply on_em_run. cbn. by rewrite app_nil_r.
Qed.

Lemma serve_rpc r s e :
  c_request r = true → serve r (m_em s) = ([], e, Ret tt) →
  ∃ res, handle (rpc_of r) s = ([], upd_em (λ _, e) s, Ret res).
Proof.
  destruct r as [n st|n md|n|n st code|]; cbn [c_request serve rpc_of handle]; intros Hn H;
    rewrite ?bool_decide_eq_true in Hn.
  - unfold handle_reportApplicationState. rewrite Hn. eexists.
    by eapply (on_em_ret _ (λ _, no_results)).
  - unfold handle_registerComponent. rewrite Hn. eexists. by eapply (on_em_ret _ (λ _, no_results)).
  - apply run_bind_inv in H as (tr1 & e1 & [res st] & tr2 & H & H2 & Htr).
    injection H2 as <- <-. rewrite app_nil_r in Htr. subst tr1.
    unfold handle_getComponentState. rewrite Hn. eexists.
    erewrite run_bind by by eapply on_em_run. done.
  - unfold handle_confirmComponentState. destruct Hn as [-> ->]. eexists.
    by eapply (on_em_ret _ (λ _, no_results)).
  - injection H as <-. eexists. unfold handle_getMachineState. by erewrite run_bind by done.
Qed.

Lemma rpc_of_queues_nothing r s : queued_by (rpc_of r) s = [].
Proof. by destruct r. Qed.

(** The Execution Manager with state [e] inside the system. *)
Definition during (s : server) (e : ExecutionManager.t) (p : pc) (l : list event) : sys :=
  mk_sys (upd_em (λ _, e) s) p l.

Lemma serve_steps s p l batch e e' tr :
  forallb c_request batch = true → for_each serve batch e = (tr, e', Ret tt) →
  rtc step (during s e p l) (during s e' p l).
Proof.
  revert e tr. induction batch as [|r batch IH]; cbn [for_each forallb]; intros e tr Hc H.
  { by injection H as <- <-. }
  apply andb_true_iff in Hc as [Hr Hc].
  apply run_bind_inv in H as (tr1 & e1 & [] & tr2 & H1 & H2 & _).
  pose proof (serve_run_silent _ _ _ _ _ H1) as ->.
  destruct (serve_rpc r (upd_em (λ _, e) s) e1 Hr H1) as [res Hres].
  eapply rtc_l; [|by eapply IH].
  pose proof (step_rpc _ _ _ _ (during s e p l) Hres) as Hs.
  rewrite rpc_of_queues_nothing in Hs. cbn in Hs. by rewrite app_nil_r in Hs.
Qed.

(** A phase whose computation returns is a step of the worker. *)
Lemma phase_step {A} (alive : nat → string → bool) (m : cpp ExecutionManager.t call A) next s e p l tr e' a :
  worker alive (during s e p l) = phase m next (during s e p l) →
  m e = (tr, e', Ret a) →
  step (during s e p l) (during s e' (next a).1 (l ++ (Called <$> tr) ++ (next a).2)).
Proof.
  intros Hw Hm. eapply (step_worker alive). rewrite Hw. unfold during.
  by erewrite phase_run by exact Hm.
Qed.

Lemma wait_steps (alive : nat → string → bool) s l others e tr e' :
  forallb (forallb c_request) others = true → wait others e = (tr, e', Ret tt) →
  rtc step (during s e Test l) (during s e' Finish l).
Proof.
  assert (∀ e, step (during s e Test l) (during s e (if keep_waiting e then Body else Finish) l)) as Htest.
  { intros e0. rewrite <- (app_nil_r l) at 2. apply (step_worker alive). by apply worker_test. }
  assert (∀ e, step (during s e Body l) (during s (iterate e) Test l)) as Hbody.
  { intros e0. rewrite <- (app_nil_r l) at 2. apply (step_worker alive). by apply worker_body. }
  revert e tr. induction others as [|batch others IH]; cbn [wait forallb]; intros e tr Hc H;
    apply run_bind_inv in H as (tr1 & e1 & c & tr2 & Ht & H & _);
    rewrite wait_test_run in Ht; injection Ht as <- <- Hcont; change (keep_waiting e = c) in Hcont;
    specialize (Htest e) as Hstep; rewrite Hcont in Hstep; destruct c.
  - by apply run_bind_inv in H as (? & ? & ? & ? & _ & H & _).
  - injection H as <- <-. by apply rtc_once.
  - apply andb_true_iff in Hc as [Hb Hc].
    apply run_bind_inv in H as (tr3 & e3 & [] & tr4 & Hrun & H & _).
    apply run_bind_inv in H as (tr5 & e5 & [] & tr6 & Hserve & H & _).
    rewrite iterate_run in Hrun. injection Hrun as <- <-.
    eapply rtc_l; [exact Hstep|]. eapply rtc_l; [by apply Hbody|].
    etrans; [by eapply serve_steps|]. by eapply IH.
  - injection H as <- <-. by apply rtc_once.
Qed.

Lemma wait_pending others e tr e' :
  wait others e = (tr, e', Ret tt) → tr = [] ∧ m_pendingState e' = m_pendingState e.
Proof.
  intros H. pose proof (wait_silent others e) as Hs. unfold run_trace in Hs.
  pose proof (wait_states_part others _ e eq_refl) as Hp. unfold run_state in Hp.
  rewrite H in Hs, Hp. split; [done|]. by apply states_part_eq in Hp as (_ & ? & _).
Qed.

Lemma accepted_steps (alive : nat → string → bool) s l others e st tr e' r :
  forallb (forallb c_request) others = true → m_pendingState e = st →
  (killProcessesForState ;;
   started ← startApplicationsForState alive;
   if negb started then mret StateError.K_INVALID_REQUEST
   else changeComponentsState ;; sms_log ;; wait others ;; sms_finish) e = (tr, e', Ret r) →
  rtc step (during s e Kill l) (during s e' Idle (l ++ (Called <$> tr) ++ [Ended st r])).
Proof.
  intros Hc Hp H.
  apply run_bind_inv in H as (tr1 & e1 & [] & tr2 & Hk & H & ->).
  pose proof Hk as Hk'. rewrite killProcessesForState_run in Hk'. injection Hk' as _ He1.
  assert (m_pendingState e1 = st) as Hp1 by by rewrite <- He1.
  eapply rtc_l; [by eapply (phase_step alive killProcessesForState (λ _, (Start, [])))|].
  apply run_bind_inv in H as (tr3 & e3 & ok & tr4 & Hs & H & ->).
  pose proof (Hs) as Hs'.
  destruct (startApplicationsForState_run alive e1) as (polls & _ & _ & Hrun).
  rewrite Hrun in Hs'. injection Hs' as _ <- _. clear Hrun.
  eapply rtc_l; [eapply (phase_step alive (startApplicationsForState alive) (λ started : bool,
    if started then (Change, [])
    else (Idle, [Ended (m_pendingState e1) StateError.K_INVALID_REQUEST]))); [done|exact Hs]|].
  destruct ok; cbn [negb fst snd] in *.
  2: { injection H as <- <- <-. rewrite Hp1. by rewrite !app_nil_r, fmap_app, <- !(assoc_L (++)). }
  apply run_bind_inv in H as (tr5 & e5 & [] & tr6 & Hch & H & ->).
  apply changeComponentsState_pending in Hch as Hp5.
  eapply rtc_l; [by eapply (phase_step alive changeComponentsState (λ _, (Log, [])))|].
  apply run_bind_inv in H as (tr7 & e7 & [] & tr8 & Hlog & H & ->).
  pose proof Hlog as Hp7. rewrite sms_log_run in Hp7. injection Hp7 as Htr7 He7.
  assert (m_pendingState e7 = st) as Hp7 by (rewrite <- He7; cbn; rewrite touch_pending; congruence).
  eapply rtc_l; [by eapply (phase_step alive sms_log (λ _, (Test, [])))|].
  apply run_bind_inv in H as (tr9 & e9 & [] & tr10 & Hw & H & ->).
  apply wait_pending in Hw as Hp9. destruct Hp9 as [-> Hp9].
  etrans; [by eapply (wait_steps alive)|].
  rewrite sms_finish_run in H. injection H as <- <- <-.
  eapply rtc_l; [by eapply (phase_step alive sms_finish (λ r, (Idle, [Ended (m_pendingState e9) r]))), sms_finish_run|].
  rewrite <- Htr7, Hp9, Hp7. cbn [fst snd]. rewrite !fmap_app. cbn [fmap list_fmap].
  by rewrite !app_nil_r, <- !(assoc_L (++)).
Qed.

(** The sequential [setMachineState], with the requests [others] served between
    the iterations of its loop, is an execution of the two-threaded system: whatever
    it returns, the system gets from the moment the worker has taken the method to
    the same state of the Execution Manager, with the same calls and result in its
    history. So what is proved of the function holds of those executions. *)
Lemma setMachineState_is_execution (alive : nat → string → bool)
    (others : list (list request)) (σ : sys) (st : string) (tr : list call)
    (e' : ExecutionManager.t) (r : StateError.t) :
  at_ σ = Check st → forallb (forallb c_request) others = true →
  setMachineState alive others st (m_em (sv σ)) = (tr, e', Ret r) →
  rtc step σ (mk_sys (upd_em (λ _, e') (sv σ)) Idle (log σ ++ (Called <$> tr) ++ [Ended st r])).
Proof.
  intros Hat Hc H. assert (σ = during (sv σ) (m_em (sv σ)) (Check st) (log σ)) as Hσ.
  { destruct σ as [[] p l]. cbn in *. by subst. }
  apply run_bind_inv in H as (tr1 & e1 & refused & tr2 & Hch & H & ->).
  rewrite Hσ at 1. eapply rtc_l; [by eapply (phase_step alive (sms_check st) (λ refused : bool,
    if refused then (Idle, [Ended st StateError.K_INVALID_STATE]) else (Kill, [])))|].
  rewrite sms_check_run in Hch. injection Hch as <- He1 Hr. destruct refused.
  - injection H as <- <- <-. done.
  - rewrite Hr in He1. cbn [fst snd]. rewrite !app_nil_r.
    eapply accepted_steps; [done| |exact H]. by rewrite <- He1.
Qed.
