(* ===== verification/EMClient.v ===== *)
(** * The Execution Manager's client, in its process

    [applications/ExecutionManager/src/execution_manager_client.cpp] with the threads it
    starts. [EMSystem] takes the calls of [setMachineState] to the client as calls that
    return; here they can wait and throw. [confirm] starts a thread that sends the
    confirmation and waits for the State Manager's answer, and its assignment to
    [m_sendThread] destroys the thread of the confirmation before: the destructor joins
    it, and throws what the thread has thrown ([kj::Thread]). [SetComponentState] waits in
    [connect] while the component's server has no room for a connection, and the worker
    holds [m_componentPendingConfirmsMutex] meanwhile.

    The process still reaches no other states of the Execution Manager than [EMSystem]
    ([process_sys]), and all of them ([sys_process]). *)

From stdpp Require Import base list gmap strings relations.
From S2P Require Import Prelude CppString Constants Common Queues ExecutionManager.
From S2P Require Import ExecutionManagerSpec EMServer EMSystem EMInvariant EMProgress.

Local Arguments worker : simpl never.

(** ** [kj::AsyncIoProvider::PipeThread] *)

(** A thread that sends a confirmation: it waits for the connection or the answer; the
    answer has come; an exception (no connection, or it broke) has left the function. *)
Module PipeThread.
Inductive t :=
  | Sending (status : StateError.t)
  | Returned
  | Threw (type : kj_exception).

(** The destructor. A thread that was never started ([None]) is not joined. *)
Definition destroy (thread : option t) : outcome unit :=
  match thread with
  | None | Some Returned => Ret tt
  | Some (Sending _) => Stop Blocked
  | Some (Threw type) => Stop (Thrown (KjException type))
  end.
End PipeThread.

(** ** The process *)

(** [replaced]: while [confirm] has not returned, the thread that [m_sendThread] was
    before. [notifying]: the subscribers to which [changeComponentsState] has still to
    connect. [full]: the components whose servers have no room for a connection.
    [ended]: an exception has left the worker's function, so the process is gone. *)
Record em_process := mk_em_process {
  system : sys;
  m_sendThread : option PipeThread.t;
  replaced : option (option PipeThread.t);
  notifying : list string;
  full : gset string;
  ended : bool;
}.

Definition with_system (σ : sys) (c : em_process) : em_process :=
  mk_em_process σ (m_sendThread c) (replaced c) (notifying c) (full c) (ended c).

(** [confirm]: the new thread runs before the old one is destroyed. *)
Definition confirm_start (status : StateError.t) (c : em_process) : em_process :=
  mk_em_process (system c) (Some (PipeThread.Sending status)) (Some (m_sendThread c))
    (notifying c) (full c) (ended c).

(** ... and its end: it returns, waits, or ends the program, since nobody catches
    exceptions in the worker's thread. *)
Definition confirm_end (alive : nat → string → bool) (old : option PipeThread.t) (c : em_process) :
    option em_process :=
  match PipeThread.destroy old with
  | Ret _ =>
      σ ← worker alive (system c);
      Some (mk_em_process σ (m_sendThread c) None (notifying c) (full c) (ended c))
  | Stop (Thrown _) =>
      Some (mk_em_process (system c) (m_sendThread c) (replaced c) (notifying c) (full c) true)
  | Stop _ => None
  end.

Definition subscribers (σ : sys) : list string := m_componentStateUpdateSbscrs (m_em (sv σ)).

(** A step of the worker's thread. The component state changes before the first
    connection is made. *)
Definition client_worker (alive : nat → string → bool) (c : em_process) : option em_process :=
  if ended c then None
  else
    match notifying c with
    | component :: rest =>
        if decide (component ∈ full c) then None
        else Some (mk_em_process (system c) (m_sendThread c) (replaced c) rest (full c) (ended c))
    | [] =>
        match at_ (system c), replaced c with
        | Change, _ =>
            σ ← worker alive (system c);
            Some (mk_em_process σ (m_sendThread c) (replaced c) (subscribers (system c)) (full c) (ended c))
        | Finish, None => Some (confirm_start StateError.K_SUCCESS c)
        | Finish, Some old => confirm_end alive old c
        | _, _ => σ ← worker alive (system c); Some (with_system σ c)
        end
    end.

(** [confirmComponentState] locks the mutex to take a component off the pending ones. *)
Definition locks (r : rpc) (s : server) : bool :=
  match r with
  | confirmComponentState_rpc _ _ status =>
      bool_decide (m_componentPendingConfirms (m_em s) ≠ ∅ ∧
        status ≠ ComponentClientReturnType.K_GENERAL_ERROR ∧ status ≠ ComponentClientReturnType.K_INVALID)
  | _ => false
  end.

(** Steps of the other threads and of the world. *)
Inductive label :=
  | Worker
  | Served
  | Stopped
  | Room          (** servers accept connections, or their queues fill *)
  | Answered      (** the State Manager answers a confirmation *)
  | Failed.       (** a connection to it fails *)

Definition ends_thread (l : label) (t t' : option PipeThread.t) : Prop :=
  (∃ status, t = Some (PipeThread.Sending status)) ∧
  (l = Answered ∧ t' = Some PipeThread.Returned ∨ l = Failed ∧ ∃ type, t' = Some (PipeThread.Threw type)).

Inductive process_step : label → em_process → em_process → Prop :=
  | ps_worker alive c c' :
      client_worker alive c = Some c' → process_step Worker c c'
  | ps_rpc r c tr sv' res :
      ended c = false → notifying c = [] ∨ locks r (sv (system c)) = false →
      handle r (sv (system c)) = (tr, sv', Ret res) →
      process_step Served c (with_system (mk_sys sv' (at_ (system c))
        (log (system c) ++ (Called <$> tr) ++ (queued_event <$> queued_by r (sv (system c))))) c)
  | ps_stop c :
      ended c = false →
      process_step Stopped c
        (with_system (mk_sys (stop_server (sv (system c))) (at_ (system c)) (log (system c))) c)
  | ps_room full' c :
      ended c = false →
      process_step Room c (mk_em_process (system c) (m_sendThread c) (replaced c) (notifying c) full' (ended c))
  | ps_new l t' c :
      ended c = false → ends_thread l (m_sendThread c) t' →
      process_step l c (mk_em_process (system c) t' (replaced c) (notifying c) (full c) (ended c))
  | ps_old l old t' c :
      ended c = false → replaced c = Some old → ends_thread l old t' →
      process_step l c (mk_em_process (system c) (m_sendThread c) (Some t') (notifying c) (full c) (ended c)).

Inductive process_initial : em_process → Prop :=
  | process_initial_intro σ full : initial σ → process_initial (mk_em_process σ None None [] full false).

Definition process_steps (P : label → Prop) : em_process → em_process → Prop :=
  rtc (λ c c', ∃ l, P l ∧ process_step l c c').

Definition process_reachable (c : em_process) : Prop :=
  ∃ c0, process_initial c0 ∧ process_steps (λ _, True) c0 c.

(** ** The process and [EMSystem] *)

(** A step changes the Execution Manager as a step of [EMSystem] does, or not at all. *)
Lemma process_step_sys l c c' :
  process_step l c c' → system c' = system c ∨ step (system c) (system c').
Proof.
  intros [alive c0 c1 Ht|r c0 tr sv' res He Hlock Hr|c0 He|full' c0 He|l0 t' c0 He Hends|l0 old t' c0 He Hold Hends];
    try (by left).
  - assert (∀ f : sys → em_process, (∀ σ, system (f σ) = σ) →
      (σ ← worker alive (system c0); Some (f σ)) = Some c1 → step (system c0) (system c1)) as Hw.
    { intros f Hf. destruct (worker alive (system c0)) as [σ|] eqn:Hw; [|done]. intros [= <-].
      rewrite Hf. by eapply step_worker. }
    unfold client_worker in Ht. destruct (ended c0); [done|].
    destruct (notifying c0) as [|s rest]; [|case_decide; [done|injection Ht as <-; by left]].
    destruct (at_ (system c0)); try (right; eapply Hw; [|exact Ht]; done).
    destruct (replaced c0) as [old|]; [|injection Ht as <-; by left].
    unfold confirm_end in Ht. destruct (PipeThread.destroy old) as [|[]]; try done.
    + right. eapply Hw; [|exact Ht]. done.
    + injection Ht as <-. by left.
  - right. by eapply step_rpc.
  - right. apply step_stop.
Qed.

Lemma process_steps_sys P c c' : process_steps P c c' → rtc step (system c) (system c').
Proof.
  induction 1 as [|c c1 c' (l & _ & Hs) _ IH]; [done|].
  apply process_step_sys in Hs as [<-|Hs]; [done|]. by eapply rtc_l.
Qed.

(** What is proved of the reachable states of [EMSystem] holds in this process. *)
Lemma process_sys c : process_reachable c → reachable (system c).
Proof.
  intros (c0 & [σ full0 Hi] & Hs). exists σ. split; [done|]. by apply process_steps_sys in Hs.
Qed.

(** Between the calls to the client, with its last confirmation answered. *)
Definition idle_client (t : option PipeThread.t) (σ : sys) : em_process := mk_em_process σ t None [] ∅ false.

Definition answered (t : option PipeThread.t) : Prop := t = None ∨ t = Some PipeThread.Returned.

Lemma any_label c c' l : process_step l c c' → ∃ l, True ∧ process_step l c c'.
Proof. intros Hs. by exists l. Qed.

(** All the connections are made. *)
Lemma notifies σ t l : process_steps (λ _, True) (mk_em_process σ t None l ∅ false) (idle_client t σ).
Proof.
  induction l as [|s l IH]; [done|]. eapply rtc_l; [|exact IH].
  eapply any_label, (ps_worker (λ _ _, false)). unfold client_worker. cbn. by rewrite decide_False by set_solver.
Qed.

Lemma step_process t σ σ' :
  answered t → step σ σ' →
  ∃ t', answered t' ∧ process_steps (λ _, True) (idle_client t σ) (idle_client t' σ').
Proof.
  intros Ht Hs. destruct Hs as [alive σ σ' Hw|r tr sv' res σ Hr|σ].
  - destruct (decide (at_ σ = Change)) as [Hat|Hchange]; [|destruct (decide (at_ σ = Finish)) as [Hat|Hfinish]].
    + exists t. split; [done|]. eapply rtc_l; [|apply (notifies σ' t (subscribers σ))].
      eapply any_label, (ps_worker alive). unfold client_worker. cbn. by rewrite Hat, Hw.
    + exists (Some PipeThread.Returned). split; [by right|].
      eapply rtc_l; [eapply any_label, (ps_worker alive); unfold client_worker; cbn; by rewrite Hat|].
      eapply rtc_l; [eapply any_label, (ps_worker alive);
        unfold client_worker, confirm_start, confirm_end; cbn; rewrite Hat; by destruct Ht as [-> | ->]; cbn; rewrite Hw|].
      apply rtc_once. eapply any_label. apply (ps_new Answered (Some PipeThread.Returned)); [done|].
      split; [by eexists|by left].
    + exists t. split; [done|]. apply rtc_once. eapply any_label, (ps_worker alive).
      unfold client_worker. cbn. destruct (at_ σ); try done; by rewrite Hw.
  - exists t. split; [done|]. apply rtc_once.
    eapply any_label, (ps_rpc r (idle_client t σ)); [done|by left|exact Hr].
  - exists t. split; [done|]. apply rtc_once. by apply (any_label _ _ Stopped), (ps_stop (idle_client t σ)).
Qed.

(** With a State Manager that answers and components that take connections, the process
    does all that [EMSystem] does. *)
Lemma sys_process σ : reachable σ → ∃ c, process_reachable c ∧ system c = σ.
Proof.
  intros Hr. cut (∃ t, answered t ∧ process_reachable (idle_client t σ)).
  { intros (t & _ & Hp). by exists (idle_client t σ). }
  revert σ Hr. apply reachable_ind.
  - intros σ Hi. exists None. split; [by left|]. exists (idle_client None σ). split; [by constructor|done].
  - intros σ σ' _ (t & Ht & c0 & Hi & Hc) Hs. destruct (step_process t σ σ' Ht Hs) as (t' & Ht' & Hc').
    exists t'. split; [done|]. exists c0. split; [done|]. by etrans.
Qed.

(** ** When the worker waits *)

(** The calls to the client are made at their places in the transition. *)
Definition in_place (c : em_process) : Prop :=
  (replaced c ≠ None → at_ (system c) = Finish) ∧ (notifying c ≠ [] → at_ (system c) = Log).

Lemma worker_change alive σ : at_ σ = Change → ∃ σ', worker alive σ = Some σ' ∧ at_ σ' = Log.
Proof.
  intros Hat. unfold worker. rewrite Hat. erewrite phase_run by apply changeComponentsState_run. by eexists.
Qed.

Lemma client_worker_in_place alive c c' : client_worker alive c = Some c' → in_place c → in_place c'.
Proof.
  unfold client_worker, in_place. intros Ht [Hr Hn]. destruct (ended c); [done|].
  destruct (notifying c) as [|s rest] eqn:Hnot.
  2: { case_decide; [done|]. injection Ht as <-. cbn. split; [done|]. intros _. by apply Hn. }
  destruct (decide (at_ (system c) = Finish)) as [Hat|Hne].
  - rewrite Hat in Ht. destruct (replaced c) as [old|]; [|by injection Ht as <-; cbn; rewrite Hnot].
    unfold confirm_end in Ht. destruct (PipeThread.destroy old) as [|[]]; try done.
    + destruct (worker alive (system c)); [|done]. injection Ht as <-. cbn. by rewrite Hnot.
    + injection Ht as <-. cbn. by rewrite Hnot.
  - assert (replaced c = None) as Hnone by (destruct (replaced c); [by destruct Hne; apply Hr|done]).
    rewrite Hnone in Ht. destruct (decide (at_ (system c) = Change)) as [Hat|Hch].
    + destruct (worker_change alive (system c) Hat) as (σ & Hw & Hlog). rewrite Hat, Hw in Ht. injection Ht as <-. done.
    + destruct (worker alive (system c)) as [σ|]; [|by destruct (at_ (system c))].
      assert (c' = with_system σ c) as -> by (destruct (at_ (system c)); cbn in Ht; congruence).
      cbn. by rewrite Hnone, Hnot.
Qed.

Lemma process_step_in_place l c c' : process_step l c c' → in_place c → in_place c'.
Proof.
  intros [alive c0 c1 Ht|r c0 tr sv' res He Hlock Hr|c0 He|full' c0 He|l0 t' c0 He Hends|l0 old t' c0 He Hold Hends];
    try done; [by eapply client_worker_in_place|].
  intros [Hr Hn]. split; cbn; [intros _; apply Hr; congruence|done].
Qed.

Lemma reachable_in_place c : process_reachable c → in_place c.
Proof.
  intros (c0 & Hi & Hs). assert (in_place c0) as H0 by (by destruct Hi; split).
  clear Hi. induction Hs as [|c c1 c' (l & _ & Hl) _ IH]; [done|]. by eapply IH, process_step_in_place.
Qed.

(** The destructor of the confirmation before waits, or throws. *)
Definition unanswered (t : option PipeThread.t) : Prop :=
  match t with Some (PipeThread.Sending _) | Some (PipeThread.Threw _) => True | _ => False end.

Lemma worker_busy alive σ : at_ σ ≠ Idle → at_ σ ≠ Take → ∃ σ', worker alive σ = Some σ'.
Proof. apply worker_goes. Qed.

(** C26: The worker's thread has no next step in exactly these cases: the process is gone;
    it is between transitions and has been stopped; nothing is queued; a component that
    has to be told its state has a server without room for another connection; or the
    next confirmation has begun while the State Manager has not answered the one before. *)
Theorem worker_waits_iff (alive : nat → string → bool) (c : em_process) :
  process_reachable c →
  (client_worker alive c = None ↔
     ended c = true ∨
     (at_ (system c) = Idle ∧ isRunning (sv (system c)) = false) ∨
     (at_ (system c) = Take ∧ em_queue (sv (system c)) = ThreadQueue.mk []) ∨
     (at_ (system c) = Log ∧ ∃ component rest, notifying c = component :: rest ∧ component ∈ full c) ∨
     (at_ (system c) = Finish ∧ ∃ status, replaced c = Some (Some (PipeThread.Sending status)))).
Proof.
  intros Hreach. destruct (reachable_in_place c Hreach) as [Hr Hn]. unfold client_worker.
  destruct (ended c); [naive_solver|]. destruct (notifying c) as [|s rest] eqn:Hnot.
  2: { assert (at_ (system c) = Log) as -> by by apply Hn. case_decide; naive_solver. }
  destruct (decide (at_ (system c) = Finish)) as [Hat|Hne].
  - rewrite Hat. destruct (replaced c) as [old|]; [|naive_solver]. unfold confirm_end.
    destruct (worker_busy alive (system c)) as [σ Hw]; [congruence..|].
    destruct old as [[]|]; cbn; rewrite ?Hw; cbn; naive_solver.
  - assert (replaced c = None) as Hnone by (destruct (replaced c); [by destruct Hne; apply Hr|done]).
    pose proof (worker_stuck_iff alive (system c)) as Hw. rewrite Hnone.
    destruct (worker alive (system c)) as [σ|]; destruct (at_ (system c)); cbn; naive_solver.
Qed.

(** ** A State Manager that does not answer *)

(** The next confirmation has not begun, or is waiting for the one before. *)
Definition held_up (c : em_process) : Prop :=
  (replaced c = None ∧ unanswered (m_sendThread c)) ∨
  ∃ old, replaced c = Some old ∧ unanswered old.

Definition successes (c : em_process) : list string := omap success_of (log (system c)).
Definition current (c : em_process) : string := m_currentState (m_em (sv (system c))).

Lemma worker_no_success alive σ σ' :
  worker alive σ = Some σ' → at_ σ ≠ Finish →
  m_currentState (m_em (sv σ')) = m_currentState (m_em (sv σ)) ∧
  omap success_of (log σ') = omap success_of (log σ).
Proof.
  intros Hw Hne. apply worker_inv in Hw.
  destruct Hw as [Hat Hr|st q Hat Hq|q Hat Hq|st Hat|st Hat|Hat|polls Hat Hp
    |polls Hat Hp|e tr Hat Hrun|Hat|b Hat|Hat|Hat]; unfold go; cbn [sv log upd_em upd_queue m_em];
    rewrite ?omap_app; cbn [omap list_omap success_of]; rewrite ?app_nil_r; try done.
  - split; [done|]. by rewrite (proj2 (quiet_calls killProcess _ (λ _, eq_refl))), app_nil_r.
  - split; [done|]. rewrite fmap_app, omap_app, (proj2 (quiet_polls polls Hp)).
    by rewrite (proj2 (quiet_calls startProcess _ (λ _, eq_refl))), !app_nil_r.
  - split; [done|]. rewrite fmap_app, !omap_app, (proj2 (quiet_polls polls Hp)).
    by rewrite (proj2 (quiet_calls startProcess _ (λ _, eq_refl))), !app_nil_r.
  - rewrite changeComponentsState_run in Hrun. injection Hrun as <- <-. split; [done|].
    by rewrite (proj2 (quiet_calls (SetComponentState _) _ (λ _, eq_refl))), app_nil_r.
  - split; [|done]. cbn. unfold touch. by case_match.
  - split; [|done]. unfold iterate. rewrite wait_body_run. cbn. unfold touch.
    by destruct (is_component_state _), (_ !! _).
Qed.

Lemma handle_no_success r s tr s' res :
  handle r s = (tr, s', Ret res) →
  m_currentState (m_em s') = m_currentState (m_em s) ∧
  omap success_of ((Called <$> tr) ++ (queued_event <$> queued_by r s)) = [].
Proof.
  intros Hr. apply handle_inv in Hr as [-> Hh]. cbn. split; [|apply quiet_queued].
  destruct Hh as [q e Hserve _|p n _|_|pid st _ _]; try done.
  apply serve_pending in Hserve. unfold transition_part in Hserve. cbn. by injection Hserve.
Qed.

Lemma held_up_client_worker alive c c' :
  in_place c → held_up c → client_worker alive c = Some c' →
  held_up c' ∧ current c' = current c ∧ successes c' = successes c ∧
  (replaced c ≠ None → ended c' = true).
Proof.
  intros [Hr Hn] Hheld. unfold client_worker. destruct (ended c); [done|].
  destruct (notifying c) as [|s rest].
  2: { case_decide; [done|]. intros [= <-]. split; [exact Hheld|]. split_and!; try done.
       intros Hold. specialize (Hr Hold). rewrite Hn in Hr by done. done. }
  destruct (decide (at_ (system c) = Finish)) as [Hat|Hne].
  - rewrite Hat. destruct Hheld as [[-> Hu]|(old & Hold & Hu)].
    + intros [= <-]. split_and!; try done. right. by exists (m_sendThread c).
    + rewrite Hold. unfold confirm_end. destruct old as [[]|]; try done. intros [= <-]. split_and!; try done.
      right. by eexists.
  - destruct Hheld as [[Hnone Hu]|(old & Hold & _)]; [|destruct Hne; apply Hr; congruence].
    rewrite Hnone. destruct (worker alive (system c)) as [σ|] eqn:Hw.
    + destruct (worker_no_success alive _ _ Hw Hne) as [H1 H2].
      intros Ht. assert (system c' = σ ∧ m_sendThread c' = m_sendThread c ∧ replaced c' = None) as (Hs & Hsend & Hrep)
        by (destruct (at_ (system c)); cbn in Ht; by simplify_eq).
      unfold current, successes. rewrite Hs. split_and!; try done. left. by rewrite Hsend.
    + by destruct (at_ (system c)).
Qed.

Lemma held_up_step l c c' :
  in_place c → held_up c → l ≠ Answered → process_step l c c' →
  held_up c' ∧ current c' = current c ∧ successes c' = successes c.
Proof.
  intros Hplace Hheld Hl Hs.
  destruct Hs as [alive c c' Ht|r c tr sv' res He Hlock Hr|c He|full' c He|l t' c He Hends|l old t' c He Hold Hends].
  - destruct (held_up_client_worker alive c c' Hplace Hheld Ht) as (? & ? & ? & _). done.
  - destruct (handle_no_success _ _ _ _ _ Hr) as [H1 H2]. split; [exact Hheld|]. split; [exact H1|].
    unfold successes. cbn [system with_system log]. by rewrite omap_app, H2, app_nil_r.
  - done.
  - done.
  - destruct Hends as [_ [[-> _]|(_ & type & ->)]]; [done|]. split; [|done].
    destruct Hheld as [[Hnone _]|?]; [by left|by right].
  - destruct Hends as [_ [[-> _]|(_ & type & ->)]]; [done|]. split; [|done]. right. by exists (Some (PipeThread.Threw type)).
Qed.

(** C25: Once the State Manager stops answering, no transition is completed any more: from a
    moment when its last confirmation has no answer (it waits, or its connection has
    failed) and as long as none comes, whatever else happens, the machine state stays what
    it is and no transition ends with success; the worker's only step in the next
    confirmation is the one by which an exception that nobody catches ends the process. *)
Theorem unanswered_confirmation_blocks (c c' : em_process) :
  process_reachable c → replaced c = None → unanswered (m_sendThread c) →
  process_steps (λ l, l ≠ Answered) c c' →
  current c' = current c ∧ successes c' = successes c ∧
  ∀ alive c'', replaced c' ≠ None → client_worker alive c' = Some c'' → ended c'' = true.
Proof.
  intros Hreach Hnone Hu Hs.
  assert (in_place c' ∧ held_up c' ∧ current c' = current c ∧ successes c' = successes c) as (Hp & Hh & Hc & Hsucc).
  { revert Hs. apply (rtc_ind_r (λ c', in_place c' ∧ held_up c' ∧ current c' = current c ∧ successes c' = successes c)).
    - split; [by apply reachable_in_place|]. split; [by left|done].
    - intros c1 c2 _ (l & Hl & Hs) (Hp & Hh & Hc & Hsucc).
      destruct (held_up_step l c1 c2 Hp Hh Hl Hs) as (Hh2 & Hc2 & Hs2).
      split; [by eapply process_step_in_place|]. split; [done|]. by rewrite Hc2, Hs2. }
  split_and!; [done..|]. intros alive c'' Hold Ht. by apply (held_up_client_worker alive c' c'').
Qed.
