(* ===== verification/EMUnwinding.v ===== *)
(** * The end of the Execution Manager when it cannot listen

    [main] of [em_main.cpp] makes the server before it uses the address. The server's
    constructor has queued the start-up and started the worker; when [parseAddress] or
    [listen] throws, the server's destructor clears [isRunning] and joins the worker, which
    may have begun the start-up. Nobody can send a request meanwhile. *)

From stdpp Require Import base list gmap strings relations.
From S2P Require Import Prelude CppString Constants Common Queues ExecutionManager.
From S2P Require Import ExecutionManagerSpec EMServer EMSystem EMProgress.

Local Arguments worker : simpl never.

(** ** The steps *)

(** The worker goes on, and at some moment the destructor clears the flag. *)
Inductive unwinding_step : sys → sys → Prop :=
  | us_worker alive σ σ' : worker alive σ = Some σ' → unwinding_step σ σ'
  | us_stop σ : unwinding_step σ (mk_sys (stop_server (sv σ)) (at_ σ) (log σ)).

Definition unwinds : sys → sys → Prop := rtc unwinding_step.

(** The worker's function has returned, so [join] returns, and then [main]. No
    confirmation is sent in these runs ([unwinding_quiet]), so that the client's
    destructor has no thread to wait for. *)
Definition left (σ : sys) : Prop := at_ σ = Idle ∧ isRunning (sv σ) = false.

(** The worker waits for a method, or for the processes of the start-up. *)
Definition stranded (σ : sys) : Prop :=
  match at_ σ with
  | Take => em_queue (sv σ) = ThreadQueue.mk []
  | Change | Log | Test | Body => True
  | _ => False
  end.

(** ** The states *)

Definition queue_of (σ : sys) : list (option string) := ThreadQueue.m_methodsQueue (em_queue (sv σ)).

(** The start-up is the only transition, and nobody has reported. In the loop the State
    Manager's process, at least, has been started and is missed. *)
Record starting (σ : sys) : Prop := {
  st_active : m_activeProcesses (m_em (sv σ)) = ∅;
  st_place :
    match at_ σ with
    | Idle | Take => queue_of σ = [Some MACHINE_STATE_STARTUP] ∨ queue_of σ = []
    | Check st => st = MACHINE_STATE_STARTUP ∧ queue_of σ = []
    | Kill | Start => pending σ = MACHINE_STATE_STARTUP ∧ queue_of σ = []
    | Finish => False
    | p => pending σ = MACHINE_STATE_STARTUP ∧ allowed_for (m_em (sv σ)) MACHINE_STATE_STARTUP ≠ ∅ ∧
           (p = Test → m_readyToTransitToNextState (m_em (sv σ)) = false)
    end;
  st_quiet s : Ended s StateError.K_SUCCESS ∉ log σ;
}.

Local Ltac not_ended :=
  intros ? Hin; repeat (apply elem_of_cons in Hin as [Hin|Hin]; [discriminate|]); by apply elem_of_nil in Hin.

Lemma initial_starting reader em :
  construct reader = Ret em →
  starting (mk_sys (construct_server em MsmHandler.init) Idle [Queued None MACHINE_STATE_STARTUP]).
Proof.
  intros Hc. unfold construct in Hc.
  destruct (getStatesSupportedByApplication reader), (getMachineStates reader); cbn in Hc; simplify_eq.
  split; [done|by left|]. not_ended.
Qed.

(** A start-up that goes on has started a process. *)
Lemma start_goes_on alive σ σ' :
  at_ σ = Start → worker alive σ = Some σ' → pending σ = MACHINE_STATE_STARTUP →
  at_ σ' = Change ∧ allowed_for (m_em (sv σ)) MACHINE_STATE_STARTUP ≠ ∅ ∨ at_ σ' = Idle.
Proof.
  intros Hat Hw Hp. unfold worker in Hw. rewrite Hat in Hw.
  destruct (startApplicationsForState_run alive (m_em (sv σ))) as (polls & _ & _ & Hs).
  erewrite phase_run in Hw by exact Hs. injection Hw as <-. cbn [at_].
  destruct (started alive (m_em (sv σ))) eqn:Hst; [left; split; [done|]|by right].
  unfold started in Hst. unfold pending in Hp. rewrite Hp, decide_True in Hst by done.
  apply critical_alive_true in Hst as (i & p & _ & Hin & _). rewrite elem_of_in_order in Hin.
  unfold to_start in Hin. set_solver.
Qed.

Lemma no_success_app σ evs :
  (∀ s, Ended s StateError.K_SUCCESS ∉ log σ) → (∀ s, Ended s StateError.K_SUCCESS ∉ evs) →
  ∀ s, Ended s StateError.K_SUCCESS ∉ log σ ++ evs.
Proof. intros H1 H2 s [Hin|Hin]%elem_of_app; [by eapply H1|by eapply H2]. Qed.

Lemma called_no_success (l : list call) s : Ended s StateError.K_SUCCESS ∉ (Called <$> l : list event).
Proof. by intros (? & ? & _)%list_elem_of_fmap. Qed.

Lemma unsettled e :
  m_activeProcesses e = ∅ → m_pendingState e = MACHINE_STATE_STARTUP →
  allowed_for e MACHINE_STATE_STARTUP ≠ ∅ → settled e = false.
Proof. intros Ha Hp Hne. unfold settled. rewrite Ha, Hp. by apply bool_decide_eq_false. Qed.

Lemma starting_worker alive σ σ' : worker alive σ = Some σ' → starting σ → starting σ'.
Proof.
  intros Hw [Ha Hpl Hq]. pose proof (worker_inv alive σ σ' Hw) as Hcase. revert Hw.
  destruct Hcase as [Hat Hr|st q Hat Hqu|q Hat Hqu|st Hat Hr|st Hat Hr|Hat|polls Hat Hp
    |polls Hat Hp|e tr Hat Hrun|Hat|b Hat Hb|Hat|Hat]; intros Hw; rewrite Hat in Hpl;
    unfold queue_of, pending in *; try rewrite Hqu in Hpl; cbn in Hpl.
  - split; [done|exact Hpl|]. apply no_success_app; [done|]. not_ended.
  - destruct Hpl as [Hpl|]; [|done]. injection Hpl as -> ->.
    split; [done|by split|]. apply no_success_app; [done|]. not_ended.
  - by destruct Hpl.
  - destruct Hpl as [-> Hpl]. split; [done|by right|]. apply no_success_app; [done|]. not_ended.
  - destruct Hpl as [-> Hpl]. split; [done|by split|]. apply no_success_app; [done|]. not_ended.
  - split; [done|exact Hpl|]. apply no_success_app; [done|apply called_no_success].
  - destruct Hpl as [Hpend Hpl]. destruct (start_goes_on alive _ _ Hat Hw Hpend) as [[_ Hne]|]; [|done].
    split; [done|by split_and!|]. apply no_success_app; [done|apply called_no_success].
  - destruct Hpl as [Hpend Hpl]. split; [done|by right|]. apply no_success_app; [done|].
    intros s [Hin|Hin]%elem_of_app; [by apply called_no_success in Hin|].
    by apply list_elem_of_singleton in Hin.
  - rewrite changeComponentsState_run in Hrun. injection Hrun as <- <-.
    split; [done|by split_and!; destruct Hpl as (? & ? & _)|].
    apply no_success_app; [done|apply called_no_success].
  - destruct Hpl as (Hpend & Hne & _). destruct (touch_part (m_em (sv σ))) as (Hta & Htp & _).
    split; [by cbn; rewrite Hta| |apply no_success_app; [done|not_ended]].
    cbn. rewrite Htp. split; [done|]. split.
    + change (allowed_for (touch (m_em (sv σ))) MACHINE_STATE_STARTUP ≠ ∅). by rewrite allowed_for_touch.
    + intros _. by apply unsettled.
  - destruct Hpl as (Hpend & Hne & Hr). unfold pending in Hb. rewrite Hr, Hpend in Hb by done. subst b.
    split; [done|by split_and!|]. apply no_success_app; [done|]. not_ended.
  - destruct Hpl as (Hpend & Hne & _). destruct (iterate_part (m_em (sv σ))) as (Hia & Hip & Hir & Hall).
    split; [by cbn; rewrite Hia| |apply no_success_app; [done|not_ended]].
    cbn [go at_]. unfold pending. cbn [sv m_em upd_em go]. rewrite Hip, Hir, Hall. split_and!; [done..|]. intros _. by apply unsettled.
  - done.
Qed.

Lemma unwinding_starting σ σ' : unwinding_step σ σ' → starting σ → starting σ'.
Proof. intros [alive σ1 σ2 Hw|σ1]; [by eapply starting_worker|]. by intros [Ha Hpl Hq]. Qed.

Lemma unwinds_starting σ σ' : unwinds σ σ' → starting σ → starting σ'.
Proof. induction 1 as [|σ σ1 σ' Hs _ IH]; [done|]. intros H. by eapply IH, unwinding_starting. Qed.

(** ** Whether [main] returns *)

Lemma unwinding_stranded σ σ' : unwinding_step σ σ' → starting σ → stranded σ → stranded σ'.
Proof.
  intros [alive σ1 σ2 Hw|σ1]; [|done]. intros [_ Hpl _] Hst. apply worker_inv in Hw. revert Hst.
  unfold stranded in *. destruct Hw as [Hat Hr|st q Hat Hqu|q Hat Hqu|st Hat Hr|st Hat Hr|Hat|polls Hat Hp
    |polls Hat Hp|e tr Hat Hrun|Hat|b Hat Hb|Hat|Hat]; rewrite Hat in *; try done; try congruence.
  destruct b; [done|]. intros _. destruct Hpl as (Hpend & _ & Hr).
  unfold pending in *. rewrite Hr, Hpend in Hb by done. done.
Qed.

Lemma stranded_stays σ σ' : unwinds σ σ' → starting σ → stranded σ → ¬ left σ'.
Proof.
  induction 1 as [σ|σ σ1 σ' Hs _ IH]; intros Hst Hstr.
  - intros [Hat _]. unfold stranded in Hstr. by rewrite Hat in Hstr.
  - apply IH; [by eapply unwinding_starting|by eapply unwinding_stranded].
Qed.

(** No process answers. *)
Definition none_alive : nat → string → bool := λ _ _, false.

Lemma worker_running alive σ σ' : worker alive σ = Some σ' → isRunning (sv σ') = isRunning (sv σ).
Proof. intros Hw. apply worker_inv in Hw. by destruct Hw. Qed.

(** The worker, left alone, ends the start-up and is between transitions. *)
Definition comes_back (σ : sys) : Prop :=
  ∃ σ', unwinds σ σ' ∧ at_ σ' = Idle ∧ queue_of σ' = [] ∧ isRunning (sv σ') = isRunning (sv σ).

Lemma comes_back_after σ σ1 : worker none_alive σ = Some σ1 → comes_back σ1 → comes_back σ.
Proof.
  intros Hw (σ' & Hu & Hi & Hq & Hr). exists σ'. split; [eapply rtc_l; [by eapply us_worker|done]|].
  by rewrite Hr, (worker_running _ _ _ Hw).
Qed.

Lemma start_comes_back σ : at_ σ = Start → starting σ → comes_back σ.
Proof.
  intros Hat [_ Hpl _]. rewrite Hat in Hpl. destruct Hpl as [Hp Hq].
  destruct (worker_goes none_alive σ) as [σ1 Hw]; [congruence..|].
  apply (comes_back_after σ σ1 Hw). unfold worker in Hw. rewrite Hat in Hw.
  destruct (startApplicationsForState_run none_alive (m_em (sv σ))) as (polls & _ & _ & Hs).
  erewrite phase_run in Hw by exact Hs. injection Hw as <-. eexists. split; [done|].
  split; [|done]. cbn [at_]. unfold started. unfold pending in Hp. rewrite Hp, decide_True by done.
  destruct (critical_alive _ _ _ _) eqn:Hc; [|done].
  by apply critical_alive_true in Hc as (? & ? & _ & _ & ? & _).
Qed.

Lemma kill_comes_back σ : at_ σ = Kill → starting σ → comes_back σ.
Proof.
  intros Hat Hst. destruct (worker_goes none_alive σ) as [σ1 Hw]; [congruence..|].
  apply (comes_back_after σ σ1 Hw), start_comes_back; [|by eapply starting_worker].
  apply worker_inv in Hw. destruct Hw; (done || congruence).
Qed.

Lemma check_comes_back σ st : at_ σ = Check st → starting σ → comes_back σ.
Proof.
  intros Hat Hst. destruct (worker_goes none_alive σ) as [σ1 Hw]; [congruence..|].
  apply (comes_back_after σ σ1 Hw). pose proof (starting_worker _ _ _ Hw Hst) as Hst1.
  apply worker_inv in Hw. destruct Hw; try congruence; [|by apply kill_comes_back].
  eexists. split; [done|]. split_and!; [done| |done].
  destruct Hst as [_ Hpl _]. rewrite Hat in Hpl. apply Hpl.
Qed.

Lemma take_comes_back σ : at_ σ = Take → queue_of σ = [Some MACHINE_STATE_STARTUP] → starting σ → comes_back σ.
Proof.
  intros Hat Hq Hst. destruct (worker none_alive σ) as [σ1|] eqn:Hw.
  - apply (comes_back_after σ σ1 Hw). pose proof (starting_worker _ _ _ Hw Hst) as Hst1.
    unfold queue_of in Hq. apply worker_inv in Hw.
    destruct Hw as [|st q _ Hqu|q _ Hqu| | | | | | | | | |]; try congruence; rewrite Hqu in Hq; [|done].
    by apply (check_comes_back _ st).
  - unfold queue_of in Hq. apply worker_stuck_iff in Hw as [[Hi _]|[_ He]]; [congruence|]. by rewrite He in Hq.
Qed.

Lemma idle_leaves σ : at_ σ = Idle → ∃ σ', unwinds σ σ' ∧ left σ'.
Proof. intros Hat. eexists. split; [apply rtc_once, us_stop|by split]. Qed.

Lemma comes_back_leaves σ : comes_back σ → ∃ σ', unwinds σ σ' ∧ left σ'.
Proof.
  intros (σ1 & Hu & Hi & _). destruct (idle_leaves σ1 Hi) as (σ' & Hu' & Hl). exists σ'. split; [by etrans|done].
Qed.

(** [main] can still return exactly when the worker is not stranded. *)
Lemma stranded_iff σ : starting σ → stranded σ ↔ ∀ σ', unwinds σ σ' → ¬ left σ'.
Proof.
  intros Hst. split; [intros Hstr σ' Hu; by eapply stranded_stays|]. intros Hnever.
  assert (¬ ∃ σ', unwinds σ σ' ∧ left σ') as Hno by (intros (σ' & Hu & Hl); by eapply Hnever).
  pose proof Hst as [_ Hpl _]. unfold stranded. destruct (at_ σ) as [| |st| | | | | | |] eqn:Hat; try done.
  - by apply Hno, idle_leaves.
  - destruct Hpl as [Hq|Hq]; [|unfold queue_of in Hq; by destruct (em_queue (sv σ)); cbn in *; subst].
    by destruct Hno; apply comes_back_leaves, take_comes_back.
  - by apply Hno, comes_back_leaves, (check_comes_back σ st).
  - by apply Hno, comes_back_leaves, kill_comes_back.
  - by apply Hno, comes_back_leaves, start_comes_back.
Qed.

Lemma unwinds_steps σ σ' : unwinds σ σ' → rtc step σ σ'.
Proof.
  apply rtc_subrel. intros σ1 σ2 [alive ? ? Hw|?]; [by eapply step_worker|apply step_stop].
Qed.

Lemma no_successes l : (∀ s, Ended s StateError.K_SUCCESS ∉ l) → omap success_of l = [].
Proof.
  induction l as [|ev l IH]; intros Hno; [done|]. cbn.
  rewrite IH by (intros s Hin; apply (Hno s); by right).
  destruct ev as [| | |s []]; try done. destruct (Hno s). by left.
Qed.

(** The State Manager is sent no confirmation. *)
Lemma unwinding_quiet σ σ' :
  initial σ → unwinds σ σ' → starting σ → omap confirm_of (log σ') = [].
Proof.
  intros Hi Hu Hst. destruct (unwinds_starting σ σ' Hu Hst) as [_ _ Hq].
  destruct (reachable_commit σ') as [_ ->]; [exists σ; split; [done|by apply unwinds_steps]|].
  by rewrite no_successes.
Qed.

(** An idle worker that has not been stopped waits for a method when none is queued. *)
Lemma idle_takes σ :
  at_ σ = Idle → isRunning (sv σ) = true → unwinding_step σ (mk_sys (sv σ) Take (log σ)).
Proof. intros Hat Hr. apply (us_worker none_alive). unfold worker. by rewrite Hat, Hr. Qed.

Lemma empty_queue σ : queue_of σ = [] → em_queue (sv σ) = ThreadQueue.mk [].
Proof. unfold queue_of. destruct (em_queue (sv σ)). cbn. by intros ->. Qed.

Lemma some_run_strands σ :
  starting σ → at_ σ = Idle → isRunning (sv σ) = true → ∃ σ', unwinds σ σ' ∧ stranded σ'.
Proof.
  intros Hst Hat Hrun. pose proof (idle_takes σ Hat Hrun) as Htake.
  pose proof Hst as [_ Hpl _]. rewrite Hat in Hpl. destruct Hpl as [Hq|Hq].
  - destruct (take_comes_back (mk_sys (sv σ) Take (log σ)) eq_refl Hq) as (σ1 & Hu & Hi & Hq1 & Hr1);
      [by eapply unwinding_starting|].
    exists (mk_sys (sv σ1) Take (log σ1)). split; [|by apply (empty_queue σ1)].
    eapply rtc_l; [exact Htake|]. eapply rtc_r; [exact Hu|]. apply idle_takes; [done|by rewrite Hr1].
  - exists (mk_sys (sv σ) Take (log σ)). split; [by apply rtc_once|by apply (empty_queue σ)].
Qed.
