(* ===== verification/EMExamples.v ===== *)
(** * A machine, and the Execution Manager's theorems on it

    A manifest with four states and three processes, executions of the system on it
    (by evaluation of [play], the system as a function of a schedule), and the
    instances of the theorems whose hypotheses need a concrete state. *)

From stdpp Require Import base list gmap strings relations.
From S2P Require Import Prelude CppString Constants Common Queues ExecutionManager.
From S2P Require Import ExecutionManagerSpec EMServer EMSystem EMInvariant EMRefinement EMProgress EMClient.

(** ** Schedules *)

Inductive action :=
  | DoWorker
  | DoRpc (r : rpc)
  | DoStop.

(** Every process answers as active. *)
Definition all_alive : nat → string → bool := λ _ _, true.

Definition perform (a : action) (σ : sys) : option sys :=
  match a with
  | DoWorker => worker all_alive σ
  | DoRpc r =>
      match handle r (sv σ) with
      | (tr, s, Ret _) =>
          Some (mk_sys s (at_ σ)
            (log σ ++ (Called <$> tr) ++ (queued_event <$> queued_by r (sv σ))))
      | (_, _, Stop _) => None
      end
  | DoStop => Some (mk_sys (stop_server (sv σ)) (at_ σ) (log σ))
  end.

(** The states of a run, the latest first. *)
Fixpoint play (acts : list action) (σ : sys) (h : list sys) : option (sys * list sys) :=
  match acts with
  | [] => Some (σ, h)
  | a :: acts => σ' ← perform a σ; play acts σ' (σ :: h)
  end.

Lemma perform_step a σ σ' : perform a σ = Some σ' → step σ σ'.
Proof.
  destruct a as [|r|]; cbn [perform]; intros H.
  - by eapply step_worker.
  - destruct (handle r (sv σ)) as [[tr s] [res|]] eqn:Hh; [|done]. injection H as <-.
    by eapply step_rpc.
  - injection H as <-. apply step_stop.
Qed.

Lemma play_execution acts σ h σ' h' :
  execution (σ :: h) → play acts σ h = Some (σ', h') → execution (σ' :: h').
Proof.
  revert σ h. induction acts as [|a acts IH]; cbn [play]; intros σ h He H.
  { by injection H as <- <-. }
  destruct (perform a σ) as [σ1|] eqn:Hp; [|done]. eapply IH; [|exact H].
  econstructor; [done|by eapply perform_step].
Qed.

Lemma execution_reachable σ h : execution (σ :: h) → reachable σ.
Proof.
  remember (σ :: h) as l eqn:Hl. intros He. revert σ h Hl.
  induction He as [σ0 Hi|σ0 σ1 h0 He IH Hs]; intros σ h [= <- _].
  - by exists σ0.
  - destruct (IH σ0 h0 eq_refl) as (σi & Hi & Hr). exists σi. split; [done|by eapply rtc_r].
Qed.

(** ** The machine *)

Definition demo_reader : IManifestReader := {|
  getStatesSupportedByApplication := Ret
    {[ "Starting-up" := {[ "msm_main" ]};
       "Living" := {[ "msm_main"; "app_nav" ]};
       "Running" := {[ "msm_main"; "app_nav"; "app_video" ]};
       "Parked" := {[ "app_nav" ]} ]};
  getMachineStates := Ret ["Starting-up"; "Living"; "Running"; "Suspend"];
|}.

Definition demo_em : ExecutionManager.t :=
  match construct demo_reader with
  | Ret e => e
  | Stop _ => mk ∅ false false ∅ "" "" "" [] ∅ ∅ ∅ []
  end.

Lemma demo_construct : construct demo_reader = Ret demo_em.
Proof. vm_compute. reflexivity. Qed.

Definition demo_start : sys :=
  mk_sys (construct_server demo_em MsmHandler.init) Idle [Queued None MACHINE_STATE_STARTUP].

Lemma demo_initial : initial demo_start.
Proof. exact (initial_intro _ _ demo_construct). Qed.

(** The start-up, the registration of the State Manager and the transition to
    [Living], up to the moment before its confirmation. *)
Definition demo_schedule : list action :=
  replicate 8 DoWorker ++ [DoRpc (reportApplicationState_rpc "msm_main" 1); DoWorker] ++
  replicate 2 DoWorker ++
  [DoRpc (register_rpc 42 "MSM");
   DoRpc (setMachineState_rpc 42 "Living");
   DoRpc (registerComponent_rpc "display" StateUpdateMode.K_EVENT)] ++
  replicate 8 DoWorker ++
  [DoRpc (reportApplicationState_rpc "app_nav" 1); DoWorker; DoWorker].

Definition isSome {A} (o : option A) : bool := match o with Some _ => true | None => false end.

Definition demo_run : sys * list sys := default (demo_start, []) (play demo_schedule demo_start []).

Definition demo_now : sys := demo_run.1.

Example demo_confirms :
  at_ demo_now = Finish ∧ pending demo_now = "Living" ∧
  m_currentState (m_em (sv demo_now)) = "Starting-up".
Proof. vm_compute. done. Qed.


Lemma demo_execution : execution (demo_now :: demo_run.2).
Proof.
  assert (isSome (play demo_schedule demo_start []) = true) as Hs by (vm_compute; reflexivity).
  unfold demo_now, demo_run. destruct (play demo_schedule demo_start []) as [[σ h]|] eqn:Hp;
    [|discriminate].
  apply (play_execution demo_schedule demo_start []); [apply execution_init, demo_initial|done].
Qed.

Lemma demo_reachable : reachable demo_now.
Proof. exact (execution_reachable _ _ demo_execution). Qed.

(** The Execution Manager in the state [Living], both processes running. *)
Definition living : ExecutionManager.t :=
  upd_current (λ _, "Living") (upd_active (λ _, {[ "msm_main"; "app_nav" ]}) demo_em).

(** ** The theorems on the machine *)

Lemma setMachineState_completes_witness :
  ∃ tr e', setMachineState all_alive
      (reports_of (to_kill living "Running") (to_start living "Running") :: [] :: [])
      "Running" living = (tr, e', Ret StateError.K_SUCCESS) ∧
    m_currentState e' = "Running" ∧ m_activeProcesses e' = allowed_for living "Running".
Proof.
  apply (setMachineState_completes all_alive living "Running").
  - vm_compute. reflexivity.
  - vm_compute. reflexivity.
  - apply reports_of_for.
Defined.

Lemma setMachineState_refuses_witness :
  run_trace (setMachineState all_alive [] "Parked" living) = [] ∧
  run_state (setMachineState all_alive [] "Parked" living)
    = upd_confirms (λ _, false) (upd_ready (λ _, false) living).
Proof. apply (setMachineState_refuses all_alive [] "Parked" living). left. apply (bool_decide_unpack _). vm_compute. exact I. Defined.

(** [Suspend] has no processes: both are killed, nothing is started. *)
Definition suspending := setMachineState all_alive [[]; []] "Suspend" living.

Lemma setMachineState_success_witness :
  m_currentState (run_state suspending) = "Suspend" ∧
  m_pendingState (run_state suspending) = "Suspend" ∧
  ∃ polls, Forall is_poll polls ∧ ("Suspend" ≠ MACHINE_STATE_STARTUP → polls = []) ∧
    run_trace suspending =
      (killProcess <$> in_order (m_activeProcesses living ∖ allowed_for living "Suspend")) ++
      (startProcess <$> in_order (allowed_for living "Suspend" ∖ m_activeProcesses living)) ++
      polls ++
      (SetComponentState (if decide ("Suspend" = MACHINE_STATE_SUSPEND)
                          then COMPONENT_STATE_OFF else COMPONENT_STATE_ON) <$>
         filter (λ c, c ∉ m_activeProcesses living ∖ allowed_for living "Suspend")
           (m_componentStateUpdateSbscrs living)) ++
      [confirm StateError.K_SUCCESS].
Proof.
  apply (setMachineState_success all_alive [[]; []] "Suspend" living).
  vm_compute. reflexivity.
Defined.

(** A machine whose critical application never answers. *)
Definition dead : nat → string → bool := λ _ _, false.

Definition failing := setMachineState dead [] "Starting-up" demo_em.

Lemma setMachineState_failure_keeps_state_witness :
  m_currentState (run_state failing) = m_currentState demo_em ∧
  m_pendingState (run_state failing) = "Starting-up" ∧
  m_activeProcesses (run_state failing) = m_activeProcesses demo_em ∧
  (∀ st, confirm st ∉ run_trace failing) ∧
  kill_calls demo_em "Starting-up" ++ start_calls demo_em "Starting-up"
    `prefix_of` run_trace failing.
Proof.
  apply (setMachineState_failure_keeps_state dead [] "Starting-up" demo_em).
  vm_compute. reflexivity.
Defined.

Lemma startup_again_fails_witness :
  run_outcome (setMachineState all_alive [] MACHINE_STATE_STARTUP living)
    = Ret StateError.K_INVALID_REQUEST.
Proof.
  apply (startup_again_fails all_alive [] living).
  - vm_compute. constructor.
  - vm_compute. discriminate.
  - intros p Hp _. change (p ∈ ({[ "msm_main" ]} : gset string)) in Hp. set_solver.
Defined.

Lemma component_state_confirmed_at_once_witness :
  ∃ tr e', setMachineState all_alive ([] :: []) "Running" living
      = (tr, e', Ret StateError.K_SUCCESS) ∧
    m_currentState e' = "Running" ∧ m_activeProcesses e' = m_activeProcesses living.
Proof.
  apply (component_state_confirmed_at_once all_alive [] "Running" living).
  - by left.
  - vm_compute. do 2 constructor. constructor.
  - vm_compute. discriminate.
  - reflexivity.
  - reflexivity.
Defined.

Lemma reportApplicationState_spec_witness :
  reportApplicationState "app_nav" 4 living = ([], living, Stop Undefined).
Proof. exact (reportApplicationState_spec "app_nav" 4 living ltac:(lia)). Defined.

Lemma confirmations_complete_witness :
  m_componentConfirmsReceived (run_state (for_each (λ '(c, s, st), confirmComponentState c s st)
    [("display", "kOn", ComponentClientReturnType.K_SUCCESS)] living)) = true.
Proof.
  apply (confirmations_complete [("display", "kOn", ComponentClientReturnType.K_SUCCESS)] living).
  - discriminate.
  - vm_compute. reflexivity.
Defined.

Lemma msm_registration_sticks_witness :
  MsmHandler.msmPid (foldl (λ h '(p, n), (MsmHandler.registerMsm p n h).2)
    (MsmHandler.registerMsm 42 "MSM" MsmHandler.init).2 [(7%Z, "other"); ((-1)%Z, "x")]) = 42%Z.
Proof.
  refine (proj1 (msm_registration_sticks 42 "MSM" [(7%Z, "other"); ((-1)%Z, "x")]
                   MsmHandler.init _ _ _)); [discriminate|discriminate|reflexivity].
Defined.

Lemma unregistered_minus_one_accepted_witness :
  handle_setMachineState (-1) "Living" (sv demo_start) =
    ([], upd_queue (ThreadQueue.addMethod (Some (c_str "Living"))) (sv demo_start), Ret no_results).
Proof. apply (unregistered_minus_one_accepted (sv demo_start) "Living"). reflexivity. Defined.

Lemma transitions_in_order_witness :
  omap queued_of (log demo_now)
    = (omap ended_of (log demo_now)).*1 ++ in_progress demo_now ++ waiting_queue demo_now ∧
  head (omap queued_of (log demo_now)) = Some MACHINE_STATE_STARTUP.
Proof. apply (transitions_in_order demo_now). exact demo_reachable. Defined.

Lemma current_state_confirmed_witness :
  m_currentState (m_em (sv demo_now)) = default "" (last (omap success_of (log demo_now))) ∧
  omap confirm_of (log demo_now) = (λ _, StateError.K_SUCCESS) <$> omap success_of (log demo_now).
Proof. apply (current_state_confirmed demo_now). exact demo_reachable. Defined.


Lemma system_well_formed_witness : sys_wf demo_now.
Proof. apply (system_well_formed demo_now). exact demo_reachable. Defined.

Lemma confirmed_only_after_settling_witness :
  settled_during (pending demo_now) (demo_now :: demo_run.2).
Proof.
  apply (confirmed_only_after_settling demo_now demo_run.2).
  - exact demo_execution.
  - vm_compute. reflexivity.
  - vm_compute. reflexivity.
Defined.

Lemma process_implements_controller_witness :
  let declared := m_machineManifestStates (m_em (sv demo_now)) in
  let allowed := allowed_for (m_em (sv demo_now)) in
  ∃ c0 c, astart c0 ∧ rtc (astep declared allowed) c0 c ∧ refines declared allowed demo_now c.
Proof. apply (process_implements_controller demo_now). exact demo_reachable. Defined.

(** The worker has entered the loop of the start-up, and nobody has reported. *)
Definition demo_log_phase : sys :=
  default demo_start (fst <$> play (replicate 6 DoWorker) demo_start []).

Lemma wait_left_alone_witness :
  (∃ n σ', worker_n all_alive n demo_log_phase = Some σ' ∧ at_ σ' = Finish) ↔
    can_end (m_em (sv demo_log_phase)).
Proof. refine (proj1 (wait_left_alone all_alive demo_log_phase _)). vm_compute. reflexivity. Defined.

Definition demo_checked : sys := default demo_start (fst <$> play [DoWorker; DoWorker] demo_start []).

Definition startup_run :=
  setMachineState all_alive [[ReportApplicationState "msm_main" 1]; []] "Starting-up"
    (m_em (sv demo_checked)).

Lemma setMachineState_is_execution_witness :
  rtc step demo_checked
    (mk_sys (upd_em (λ _, run_state startup_run) (sv demo_checked)) Idle
       (log demo_checked ++ (Called <$> run_trace startup_run)
          ++ [Ended "Starting-up" StateError.K_SUCCESS])).
Proof.
  apply (setMachineState_is_execution all_alive [[ReportApplicationState "msm_main" 1]; []]
           demo_checked "Starting-up").
  - vm_compute. reflexivity.
  - vm_compute. reflexivity.
  - vm_compute. reflexivity.
Defined.

(** ** The process with its client *)

Definition act (a : action) (c : em_process) : option em_process :=
  match a with
  | DoWorker => client_worker all_alive c
  | DoRpc r =>
      if negb (ended c) && (bool_decide (notifying c = []) || negb (locks r (sv (system c))))
      then σ ← perform a (system c); Some (with_system σ c)
      else None
  | DoStop => None
  end.

Definition acts (l : list action) (c : em_process) : option em_process := foldl (λ c a, c ≫= act a) (Some c) l.

Lemma act_step a c c' : act a c = Some c' → ∃ l, l ≠ Answered ∧ process_step l c c'.
Proof.
  destruct a as [|r|]; cbn [act]; [intros Ht; exists Worker; split; [done|by eapply ps_worker]| |done].
  destruct (ended c) eqn:He; [done|]. cbn [negb andb].
  destruct (bool_decide (notifying c = []) || negb (locks r (sv (system c)))) eqn:Hlock; [|done].
  cbn [perform]. destruct (handle r (sv (system c))) as [[tr s] [res|]] eqn:Hh; [|done].
  intros [= <-]. exists Served. split; [done|]. apply (ps_rpc r c tr s res); [done| |done].
  apply orb_true_iff in Hlock as [H%bool_decide_eq_true|H%negb_true_iff]; auto.
Qed.

Lemma acts_steps l c c' : acts l c = Some c' → process_steps (λ l, l ≠ Answered) c c'.
Proof.
  unfold acts. revert c. induction l as [|a l IH]; cbn [foldl]; intros c H; [by simplify_eq|].
  destruct (act a c) as [c1|] eqn:Ha; cbn in H; rewrite Ha in H.
  - destruct (act_step a c c1 Ha) as (lab & Hl & Hs). eapply rtc_l; [by exists lab|by apply IH].
  - exfalso. clear -H. by induction l.
Qed.

Definition demo_process : em_process := mk_em_process demo_start None None [] ∅ false.

(** The start-up, whose confirmation the State Manager does not answer. *)
Definition startup_actions : list action :=
  replicate 8 DoWorker ++ [DoRpc (reportApplicationState_rpc "msm_main" 1); DoWorker] ++ replicate 3 DoWorker.

(** The transition to [Living], until its confirmation has begun. *)
Definition living_actions : list action :=
  [DoRpc (register_rpc 42 "MSM"); DoRpc (setMachineState_rpc 42 "Living");
   DoRpc (registerComponent_rpc "display" StateUpdateMode.K_EVENT)] ++
  replicate 9 DoWorker ++
  [DoRpc (reportApplicationState_rpc "app_nav" 1)] ++ replicate 3 DoWorker.

Definition unconfirmed : em_process := default demo_process (acts startup_actions demo_process).
Definition waiting : em_process := default demo_process (acts living_actions unconfirmed).

Lemma acts_defined l c : isSome (acts l c) = true → acts l c = Some (default demo_process (acts l c)).
Proof. by destruct (acts l c). Qed.

Lemma unconfirmed_reachable : process_reachable unconfirmed.
Proof.
  exists demo_process. split; [by constructor; apply demo_initial|].
  assert (acts startup_actions demo_process = Some unconfirmed) as Hacts
    by (apply acts_defined; vm_compute; reflexivity).
  apply acts_steps in Hacts. eapply rtc_subrel; [|exact Hacts]. intros c c' (l & _ & Hs). by exists l.
Qed.

Lemma waiting_steps : process_steps (λ l, l ≠ Answered) unconfirmed waiting.
Proof. apply (acts_steps living_actions), acts_defined. vm_compute. reflexivity. Qed.

Lemma waiting_reachable : process_reachable waiting.
Proof.
  destruct unconfirmed_reachable as (c0 & Hi & Hs). exists c0. split; [done|]. etrans; [exact Hs|].
  eapply rtc_subrel; [|exact waiting_steps]. intros c c' (l & _ & Hl). by exists l.
Qed.

Lemma worker_waits_iff_witness :
  client_worker all_alive waiting = None ∧ at_ (system waiting) = Finish.
Proof.
  split; [|vm_compute; reflexivity]. apply (worker_waits_iff all_alive waiting).
  - exact waiting_reachable.
  - do 4 right. split; [vm_compute; reflexivity|]. exists StateError.K_SUCCESS. vm_compute. reflexivity.
Defined.

Lemma unanswered_confirmation_blocks_witness :
  pending (system waiting) = "Living" ∧ current waiting = "Starting-up" ∧ successes waiting = ["Starting-up"].
Proof.
  split; [vm_compute; reflexivity|].
  destruct (unanswered_confirmation_blocks unconfirmed waiting) as (Hc & Hs & _).
  - exact unconfirmed_reachable.
  - vm_compute. reflexivity.
  - vm_compute. exact I.
  - exact waiting_steps.
  - rewrite Hc, Hs. split; vm_compute; reflexivity.
Defined.
