(* ===== verification/Json.v ===== *)
(** * JSON values

    The part of [tools/json/json.hpp] (nlohmann::json 3.7.0) the program uses on
    values: the value type, construction from initializer lists, member access, and
    the conversions. Objects are [std::map]s: a list of members with strictly
    ascending keys. The text of a value is in
    [JsonLexer], [JsonParser] and [JsonDump]; here it is an interface ([Text]). Binary
    values and the [discarded] marker of parser callbacks do not occur in the program. *)

From stdpp Require Import base list strings sorting.
From S2P Require Import Prelude.

(** ** Values *)

(** [value_t] with the value. A double is kept as its 64-bit pattern. *)
Inductive json :=
  | JNull
  | JObject (members : list (string * json))
  | JArray (elements : list json)
  | JString (s : string)
  | JBoolean (b : bool)
  | JInteger (z : Z)
  | JUnsigned (z : Z)
  | JFloat (bits : Z).

(** The induction principle with the hypotheses for the nested values. *)
Section json_ind.
Context (P : json → Prop)
  (Hnull : P JNull)
  (Hobject : ∀ ms, Forall (λ m, P m.2) ms → P (JObject ms))
  (Harray : ∀ js, Forall P js → P (JArray js))
  (Hstring : ∀ s, P (JString s))
  (Hboolean : ∀ b, P (JBoolean b))
  (Hinteger : ∀ z, P (JInteger z))
  (Hunsigned : ∀ z, P (JUnsigned z))
  (Hfloat : ∀ f, P (JFloat f)).

Fixpoint json_nested_ind (j : json) : P j :=
  match j with
  | JNull => Hnull
  | JObject ms => Hobject ms
      ((fix go ms : Forall (λ m, P m.2) ms :=
          match ms with
          | [] => List.Forall_nil _
          | m :: ms => List.Forall_cons _ m ms (json_nested_ind m.2) (go ms)
          end) ms)
  | JArray js => Harray js
      ((fix go js : Forall P js :=
          match js with
          | [] => List.Forall_nil _
          | j :: js => List.Forall_cons _ j js (json_nested_ind j) (go js)
          end) js)
  | JString s => Hstring s
  | JBoolean b => Hboolean b
  | JInteger z => Hinteger z
  | JUnsigned z => Hunsigned z
  | JFloat f => Hfloat f
  end.
End json_ind.

(** ** [std::map<std::string, json>] *)

Section members.
Context {V : Type}.

(** [m.find(key)]. *)
Fixpoint member (key : string) (ms : list (string * V)) : option V :=
  match ms with
  | [] => None
  | (k, v) :: ms => if decide (k = key) then Some v else member key ms
  end.

(** [m.emplace(key, v)]: a key that is present keeps its value. *)
Fixpoint emplace (key : string) (v : V) (ms : list (string * V)) : list (string * V) :=
  match ms with
  | [] => [(key, v)]
  | (k, w) :: rest =>
      if decide (k = key) then ms
      else if decide (String.le key k) then (key, v) :: ms
      else (k, w) :: emplace key v rest
  end.

(** [m[key] = v]. *)
Fixpoint assign (key : string) (v : V) (ms : list (string * V)) : list (string * V) :=
  match ms with
  | [] => [(key, v)]
  | (k, w) :: rest =>
      if decide (k = key) then (key, v) :: rest
      else if decide (String.le key k) then (key, v) :: ms
      else (k, w) :: assign key v rest
  end.

Definition key_lt (k1 k2 : string) : Prop := String.le k1 k2 ∧ k1 ≠ k2.
Definition members_ok (ms : list (string * V)) : Prop := StronglySorted key_lt ms.*1.

Lemma key_lt_trans k1 k2 k3 : key_lt k1 k2 → key_lt k2 k3 → key_lt k1 k3.
Proof.
  intros [H1 N1] [H2 N2]. split; [by trans k2|].
  intros ->. apply N2. by apply (anti_symm String.le).
Qed.

Lemma key_lt_total k1 k2 : k1 ≠ k2 → ¬ String.le k1 k2 → key_lt k2 k1.
Proof. intros Hne Hle. split; [|done]. by destruct (total String.le k1 k2). Qed.

Lemma assign_keys key v ms x : x ∈ (assign key v ms).*1 ↔ x = key ∨ x ∈ ms.*1.
Proof.
  induction ms as [|[k w] ms IH]; cbn.
  - rewrite elem_of_cons. done.
  - repeat case_decide; subst; cbn; rewrite ?elem_of_cons; rewrite ?IH; tauto.
Qed.

Lemma assign_ok key v ms : members_ok ms → members_ok (assign key v ms).
Proof.
  unfold members_ok. induction ms as [|[k w] ms IH]; cbn; intros Hs.
  { repeat constructor. }
  apply StronglySorted_inv in Hs as [Hs Hall].
  case_decide as Heq; subst; [by constructor|]. case_decide as Hle; cbn.
  - constructor; [by constructor|]. constructor; [by split|].
    eapply Forall_impl; [exact Hall|]. intros k' Hk'. eapply key_lt_trans; [|exact Hk'].
    by split.
  - constructor; [by apply IH|]. apply Forall_forall. intros x Hx%assign_keys.
    rewrite Forall_forall in Hall. destruct Hx as [->|Hx]; [|by apply Hall].
    by apply key_lt_total.
Qed.

Lemma member_assign key v ms k : 
  member k (assign key v ms) = if decide (k = key) then Some v else member k ms.
Proof.
  induction ms as [|[k' w] ms IH]; cbn; repeat (case_decide; cbn); subst; try done; try congruence.
Qed.

Lemma member_None key ms : member key ms = None ↔ key ∉ ms.*1.
Proof.
  induction ms as [|[k w] ms IH]; cbn; [split; [intros _ ?%elem_of_nil|]; done|].
  rewrite not_elem_of_cons. case_decide; naive_solver.
Qed.

Lemma emplace_fresh key v ms : key ∉ ms.*1 → emplace key v ms = assign key v ms.
Proof.
  induction ms as [|[k w] ms IH]; cbn; [done|]. rewrite not_elem_of_cons. intros [Hk Hms].
  repeat case_decide; [congruence|done|]. by rewrite IH.
Qed.

Lemma emplace_present key v ms : members_ok ms → key ∈ ms.*1 → emplace key v ms = ms.
Proof.
  unfold members_ok. induction ms as [|[k w] ms IH]; cbn; intros Hs Hin.
  { by apply elem_of_nil in Hin. }
  apply StronglySorted_inv in Hs as [Hs Hall]. rewrite Forall_forall in Hall.
  apply elem_of_cons in Hin as [->|Hin]; [by rewrite decide_True|].
  destruct (Hall key Hin) as [Hle Hne]. rewrite decide_False by done.
  rewrite decide_False; [by rewrite IH|]. intros Hle'. by apply Hne, (anti_symm String.le).
Qed.

Lemma emplace_ok key v ms : members_ok ms → members_ok (emplace key v ms).
Proof.
  intros Hs. destruct (decide (key ∈ ms.*1)); [by rewrite emplace_present|].
  rewrite emplace_fresh by done. by apply assign_ok.
Qed.

Lemma member_emplace key v ms k :
  members_ok ms →
  member k (emplace key v ms) =
    if decide (k = key) then Some (default v (member key ms)) else member k ms.
Proof.
  intros Hs. destruct (decide (key ∈ ms.*1)) as [Hin|Hin].
  - rewrite emplace_present by done. case_decide as Hk; [|done]. subst.
    destruct (member key ms) eqn:Hm; [done|]. by apply member_None in Hm.
  - rewrite emplace_fresh, member_assign by done. case_decide; [|done].
    apply member_None in Hin. by rewrite Hin.
Qed.

Lemma member_elem_of key v ms : members_ok ms → (key, v) ∈ ms ↔ member key ms = Some v.
Proof.
  unfold members_ok. induction ms as [|[k w] ms IH]; cbn; intros Hs.
  { rewrite elem_of_nil. done. }
  apply StronglySorted_inv in Hs as [Hs Hall]. rewrite elem_of_cons, IH by done.
  rewrite Forall_forall in Hall. case_decide as Hk.
  - subst. split; [|by intros [= ->]; left]. intros [?|Hm]; [by simplify_eq|].
    exfalso. destruct (Hall key) as [_ Hne]; [|done].
    apply list_elem_of_fmap. exists (key, v). split; [done|]. by apply IH.
  - split; [|by right]. intros [?|?]; [by simplify_eq|done].
Qed.
End members.

(** ** Construction *)

Definition is_pair (j : json) : option (string * json) :=
  match j with JArray [JString k; v] => Some (k, v) | _ => None end.

(** [basic_json(initializer_list_t)]: an object when every element is an array of a
    string and a value, otherwise an array. *)
Definition init_list (init : list json) : json :=
  match mapM is_pair init with
  | Some ms => JObject (foldl (λ o m, emplace m.1 m.2 o) [] ms)
  | None => JArray init
  end.

(** [json{{k1, v1}, ...}]: the elements are initializer lists themselves. *)
Definition object_of (ms : list (string * json)) : json :=
  init_list ((λ m, init_list [JString m.1; m.2]) <$> ms).

Lemma object_of_members ms :
  object_of ms = JObject (foldl (λ o m, emplace m.1 m.2 o) [] ms).
Proof.
  unfold object_of, init_list at 1.
  replace (mapM is_pair _) with (Some ms); [done|].
  symmetry. apply mapM_Some. induction ms as [|[k v] ms IH]; constructor; done.
Qed.

(** ** Access *)

(** [at(key)]. *)
Definition at_key (key : string) (j : json) : outcome json :=
  match j with
  | JObject ms =>
      match member key ms with
      | Some v => Ret v
      | None => Stop (Thrown (JsonOutOfRange 403))
      end
  | _ => Stop (Thrown (JsonTypeError 304))
  end.

(** [find(key) != cend()]. *)
Definition has_key (key : string) (j : json) : bool :=
  match j with
  | JObject ms => match member key ms with Some _ => true | None => false end
  | _ => false
  end.

(** [j[key]] on a constant: the key must exist. *)
Definition subscript (key : string) (j : json) : outcome json :=
  match j with
  | JObject ms =>
      match member key ms with
      | Some v => Ret v
      | None => Stop Undefined
      end
  | _ => Stop (Thrown (JsonTypeError 305))
  end.

(** [j[key] = v]: null becomes an object. *)
Definition subscript_assign (key : string) (v : json) (j : json) : outcome json :=
  match j with
  | JNull => Ret (JObject [(key, v)])
  | JObject ms => Ret (JObject (assign key v ms))
  | _ => Stop (Thrown (JsonTypeError 305))
  end.

Definition json_clear (j : json) : json :=
  match j with
  | JNull => JNull
  | JObject _ => JObject []
  | JArray _ => JArray []
  | JString _ => JString ""
  | JBoolean _ => JBoolean false
  | JInteger _ => JInteger 0
  | JUnsigned _ => JUnsigned 0
  | JFloat _ => JFloat 0
  end.

(** ** Conversions

    [Codec A]: the overloads of [to_json] and [from_json] for a type; [Lawful] is
    what they promise. The overloads for strings and vectors are the library's. *)

Class Codec (A : Type) := {
  to_json : A → json;
  from_json : json → outcome A;
}.

Class Lawful (A : Type) `{Codec A} := from_to_json (a : A) : from_json (to_json a) = Ret a.

#[export] Instance string_codec : Codec string := {
  to_json := JString;
  from_json j := match j with JString s => Ret s | _ => Stop (Thrown (JsonTypeError 302)) end;
}.

#[export] Instance string_lawful : Lawful string.
Proof. by intros s. Qed.

#[export] Instance vector_codec `{Codec A} : Codec (list A) := {
  to_json l := JArray (to_json <$> l);
  from_json j :=
    match j with
    | JArray js => traverse from_json js
    | _ => Stop (Thrown (JsonTypeError 302))
    end;
}.

#[export] Instance vector_lawful `{Lawful A} : Lawful (list A).
Proof.
  intros l. cbn. induction l as [|a l IH]; [done|]. cbn. by rewrite from_to_json, IH.
Qed.

(** [j.at(key).get_to(field)]. *)
Definition get_field {A} `{Codec A} (key : string) (j : json) : outcome A :=
  v ← at_key key j; from_json v.

(** A conversion reads the members it asks for and no others. *)
Lemma get_field_object {A} `{Codec A} key ms v :
  member key ms = Some v → get_field (A := A) key (JObject ms) = from_json v.
Proof. intros H1. unfold get_field. cbn. by rewrite H1. Qed.

(** [j == "s"]. *)
Definition equals_string (s : string) (j : json) : bool :=
  match j with JString t => bool_decide (s = t) | _ => false end.

(** The members of an object made from distinct keys. *)
Lemma member_foldl_emplace {V} (ms o : list (string * V)) key v :
  NoDup ms.*1 → (∀ k, k ∈ ms.*1 → k ∉ o.*1) →
  member key (foldl (λ o m, emplace m.1 m.2 o) o ms) = Some v ↔
    member key o = Some v ∨ (key, v) ∈ ms.
Proof.
  revert o. induction ms as [|[k w] ms IH]; intros o Hnd Hfresh; cbn.
  { rewrite elem_of_nil. tauto. }
  cbn in Hnd. apply NoDup_cons in Hnd as [Hk Hnd].
  assert (k ∉ o.*1) as Hko by (apply Hfresh; by left).
  rewrite emplace_fresh by done. rewrite IH; [|done|].
  - rewrite member_assign, elem_of_cons. case_decide as Hd.
    + subst key. apply member_None in Hko. split; [intros [?|?]; simplify_eq; auto|].
      intros [?|[?|?]]; simplify_eq; auto.
    + split; [tauto|]. intros [?|[?|?]]; simplify_eq; auto.
  - intros k' Hk' [->|Hk'']%assign_keys; [by apply Hk|].
    eapply Hfresh; [right; exact Hk'|done].
Qed.

Lemma get_field_object_of {A} `{Lawful A} key ms (a : A) :
  NoDup ms.*1 → (key, to_json a) ∈ ms → get_field key (object_of ms) = Ret a.
Proof.
  intros Hnd Hin. rewrite object_of_members. erewrite get_field_object.
  - by apply from_to_json.
  - apply member_foldl_emplace; [done| |by right]. intros k _ Hk. by apply elem_of_nil in Hk.
Qed.

(** [NLOHMANN_JSON_SERIALIZE_ENUM]: the first pair is the default in both
    directions. *)
Section serialize_enum.
Context {E : Type} `{EqDecision E} (first : E * string) (rest : list (E * string)).

Definition enum_to_json (e : E) : json :=
  JString (default first (snd <$> list_find (λ p, p.1 = e) (first :: rest))).2.

Definition enum_from_json (j : json) : outcome E :=
  Ret (default first (snd <$> list_find (λ p, equals_string p.2 j) (first :: rest))).1.
End serialize_enum.

(** ** Text *)

(** Writing a value to a stream and reading one from a stream. [dump] gives what has
    been written when it returns or throws; reading a value does not look at what
    follows it, [accepts] does. *)
Class Text := {
  dump : json → string * outcome unit;
  parse : string → outcome json;
  accepts : string → bool;
}.

(** A number in the parser's normal form: signed integers are negative, and both kinds of
    integers have 64 bits ([JsonParsed.normal] brings other values into it, which does not
    change their text). Doubles are left out. *)
Definition number_ok (j : json) : bool :=
  match j with
  | JInteger z => (- 2 ^ 63 <=? z)%Z && (z <? 0)%Z
  | JUnsigned z => (0 <=? z)%Z && (z <? 2 ^ 64)%Z
  | JFloat _ => false
  | _ => true
  end.

Fixpoint storable (j : json) : Prop :=
  match j with
  | JObject ms => members_ok ms ∧ foldr (λ m, and (storable m.2)) True ms
  | JArray js => foldr (λ j, and (storable j)) True js
  | _ => number_ok j = true
  end.

(** A value without numbers. *)
Fixpoint textual (j : json) : Prop :=
  match j with
  | JObject ms => foldr (λ m, and (textual m.2)) True ms
  | JArray js => foldr (λ j, and (textual j)) True js
  | JInteger _ | JUnsigned _ | JFloat _ => False
  | _ => True
  end.

(** What the program relies on: what has been written is accepted and read back, and
    what an exception has cut off is not accepted. Writing a value without numbers either
    returns or throws. *)
Class TextLaws `{Text} := {
  read_back j s : storable j → dump j = (s, Ret tt) → accepts s = true ∧ parse s = Ret j;
  cut_off j s e : storable j → dump j = (s, Stop (Thrown e)) → accepts s = false;
  text_throws j s w : textual j → dump j = (s, Stop w) → ∃ e, w = Thrown e;
  accepted_parses s : accepts s = true → ∃ j, parse s = Ret j;
}.
