(* ===== verification/JsonLexer.v ===== *)
(** * JSON: the lexer

    [tools/json/json.hpp], class [lexer]: tokens of a byte sequence. Reading a byte
    consumes it; [unget] leaves it. At the end of the input [get] gives [eof], which
    no case but the last ones matches. *)

From Stdlib Require Import Ascii.
From stdpp Require Import base list strings numbers.
From S2P Require Import Prelude CppString Json.

Local Open Scope Z_scope.

(** A byte as the lexer compares it. *)
Definition byte_of (c : ascii) : Z := Z.of_N (N_of_ascii c).
(** [to_char_type]. *)
Definition char_of (z : Z) : ascii := ascii_of_N (Z.to_N (Z.land z 255)).

Definition between (lo hi z : Z) : bool := (lo <=? z) && (z <=? hi).

(** ** Tokens *)

Inductive token :=
  | literal_true
  | literal_false
  | literal_null
  | value_string (s : string)
  | value_unsigned (z : Z)
  | value_integer (z : Z)
  | value_float (bits : Z)
  | begin_array
  | begin_object
  | end_array
  | end_object
  | name_separator
  | value_separator
  | parse_error
  | end_of_input.

#[export] Instance token_eq_dec : EqDecision token.
Proof. solve_decision. Defined.

(** ** Strings *)

Definition hex_digit (c : ascii) : option Z :=
  let b := byte_of c in
  if between 48 57 b then Some (b - 48)
  else if between 65 70 b then Some (b - 55)
  else if between 97 102 b then Some (b - 87)
  else None.

(** [get_codepoint]: the value of four hexadecimal digits. *)
Definition get_codepoint (s : string) : option (Z * string) :=
  match s with
  | String c1 (String c2 (String c3 (String c4 s))) =>
      d1 ← hex_digit c1; d2 ← hex_digit c2; d3 ← hex_digit c3; d4 ← hex_digit c4;
      Some (Z.shiftl d1 12 + Z.shiftl d2 8 + Z.shiftl d3 4 + d4, s)
  | _ => None
  end.

(** The bytes of a code point. *)
Definition encode (cp : Z) : string :=
  let continuation n := char_of (Z.lor 128 (Z.land (Z.shiftr cp n) 63)) in
  if cp <? 128 then String (char_of cp) ""
  else if cp <=? 2047 then
    String (char_of (Z.lor 192 (Z.shiftr cp 6))) (String (continuation 0) "")
  else if cp <=? 65535 then
    String (char_of (Z.lor 224 (Z.shiftr cp 12)))
      (String (continuation 6) (String (continuation 0) ""))
  else
    String (char_of (Z.lor 240 (Z.shiftr cp 18)))
      (String (continuation 12) (String (continuation 6) (String (continuation 0) ""))).

(** The escape [\u], after its two characters: one code unit, or a pair of
    surrogates. *)
Definition scan_unicode (s : string) : option (string * string) :=
  '(cp1, s) ← get_codepoint s;
  if between 55296 56319 cp1 then
    match s with
    | String "\" (String "u" s) =>
        '(cp2, s) ← get_codepoint s;
        if between 56320 57343 cp2
        then Some (encode (Z.shiftl cp1 10 + cp2 - 56613888), s)
        else None
    | _ => None
    end
  else if between 56320 57343 cp1 then None
  else Some (encode cp1, s).

(** The character after a backslash. *)
Definition scan_escape (s : string) : option (string * string) :=
  match s with
  | EmptyString => None
  | String c s =>
      let b := byte_of c in
      let add z := Some (String (char_of z) "", s) in
      if b =? 34 then add 34
      else if b =? 92 then add 92
      else if b =? 47 then add 47
      else if b =? 98 then add 8
      else if b =? 102 then add 12
      else if b =? 110 then add 10
      else if b =? 114 then add 13
      else if b =? 116 then add 9
      else if b =? 117 then scan_unicode s
      else None
  end.

(** The ranges of the bytes that follow a first byte of a longer sequence. *)
Definition utf8_ranges (b : Z) : option (list (Z * Z)) :=
  if between 194 223 b then Some [(128, 191)]
  else if b =? 224 then Some [(160, 191); (128, 191)]
  else if between 225 236 b || between 238 239 b then Some [(128, 191); (128, 191)]
  else if b =? 237 then Some [(128, 159); (128, 191)]
  else if b =? 240 then Some [(144, 191); (128, 191); (128, 191)]
  else if between 241 243 b then Some [(128, 191); (128, 191); (128, 191)]
  else if b =? 244 then Some [(128, 143); (128, 191); (128, 191)]
  else None.

(** [next_byte_in_range]: the bytes added and what follows them. *)
Fixpoint next_byte_in_range (ranges : list (Z * Z)) (s : string) : option (string * string) :=
  match ranges with
  | [] => Some ("", s)
  | (lo, hi) :: ranges =>
      match s with
      | String c s =>
          if between lo hi (byte_of c) then
            '(added, s) ← next_byte_in_range ranges s; Some (String c added, s)
          else None
      | EmptyString => None
      end
  end.

(** Control characters are invalid, other ASCII characters are added as they are. *)
Definition control_character (b : Z) : bool := b <=? 31.
Definition plain_character (b : Z) : bool := b <=? 127.

(** One turn of the loop of [scan_string]. *)
Inductive item :=
  | Add (added rest : string)
  | Close (rest : string)
  | Bad.

Definition scan_item (s : string) : item :=
  match s with
  | EmptyString => Bad
  | String c s =>
      let b := byte_of c in
      if b =? 34 then Close s
      else if b =? 92 then
        match scan_escape s with Some (added, s) => Add added s | None => Bad end
      else if control_character b then Bad
      else if plain_character b then Add (String c "") s
      else
        match utf8_ranges b with
        | Some ranges =>
            match next_byte_in_range ranges s with
            | Some (added, s) => Add (String c added) s
            | None => Bad
            end
        | None => Bad
        end
  end.

(** [scan_string], after the opening quote. Every turn consumes a byte, so the length
    of the input is enough fuel. *)
Fixpoint scan_string_loop (fuel : nat) (token_buffer s : string) : token * string :=
  match fuel with
  | O => (parse_error, s)
  | S fuel =>
      match scan_item s with
      | Add added s => scan_string_loop fuel (token_buffer +:+ added) s
      | Close s => (value_string token_buffer, s)
      | Bad => (parse_error, s)
      end
  end.

Definition scan_string (s : string) : token * string :=
  scan_string_loop (S (String.length s)) "" s.

(** ** Numbers *)

(** The states of the automaton, named as its labels. *)
Inductive number_state :=
  | sn_minus | sn_zero | sn_any1 | sn_decimal1 | sn_decimal2 | sn_exponent | sn_sign | sn_any2.

Inductive number_type := nt_unsigned | nt_integer | nt_float.

(** What the automaton does on a byte: go on in a state, stop (the byte is not part
    of the number), or fail. *)
Inductive number_move := Go (st : number_state) | Done | Fail.

Definition is_digit (b : Z) : bool := between 48 57 b.
Definition is_exponent (b : Z) : bool := (b =? 101) || (b =? 69).

Definition on_byte (b : option Z) (f : Z → number_move) (at_end : number_move) : number_move :=
  match b with Some b => f b | None => at_end end.

Definition scan_number_minus (b : option Z) : number_move :=
  on_byte b (λ b, if b =? 48 then Go sn_zero else if between 49 57 b then Go sn_any1 else Fail) Fail.

Definition scan_number_zero (b : option Z) : number_move :=
  on_byte b (λ b,
    if b =? 46 then Go sn_decimal1 else if is_exponent b then Go sn_exponent else Done) Done.

Definition scan_number_any1 (b : option Z) : number_move :=
  on_byte b (λ b,
    if is_digit b then Go sn_any1
    else if b =? 46 then Go sn_decimal1 else if is_exponent b then Go sn_exponent else Done) Done.

Definition scan_number_decimal1 (b : option Z) : number_move :=
  on_byte b (λ b, if is_digit b then Go sn_decimal2 else Fail) Fail.

Definition scan_number_decimal2 (b : option Z) : number_move :=
  on_byte b (λ b,
    if is_digit b then Go sn_decimal2 else if is_exponent b then Go sn_exponent else Done) Done.

Definition scan_number_exponent (b : option Z) : number_move :=
  on_byte b (λ b,
    if (b =? 43) || (b =? 45) then Go sn_sign else if is_digit b then Go sn_any2 else Fail) Fail.

Definition scan_number_sign (b : option Z) : number_move :=
  on_byte b (λ b, if is_digit b then Go sn_any2 else Fail) Fail.

Definition scan_number_any2 (b : option Z) : number_move :=
  on_byte b (λ b, if is_digit b then Go sn_any2 else Done) Done.

Definition number_step (st : number_state) : option Z → number_move :=
  match st with
  | sn_minus => scan_number_minus
  | sn_zero => scan_number_zero
  | sn_any1 => scan_number_any1
  | sn_decimal1 => scan_number_decimal1
  | sn_decimal2 => scan_number_decimal2
  | sn_exponent => scan_number_exponent
  | sn_sign => scan_number_sign
  | sn_any2 => scan_number_any2
  end.

(** The type is changed on entering these states. *)
Definition type_after (st : number_state) (ty : number_type) : number_type :=
  match st with
  | sn_minus => nt_integer
  | sn_decimal1 | sn_exponent => nt_float
  | _ => ty
  end.

(** The value of a sequence of decimal digits. *)
Fixpoint digits_value (acc : Z) (s : string) : Z :=
  match s with
  | EmptyString => acc
  | String c s => digits_value (10 * acc + (byte_of c - 48)) s
  end.

Definition uint64_max : Z := 2 ^ 64 - 1.
Definition int64_min : Z := - 2 ^ 63.

(** ** The scanner *)

Section scanner.
(** [strtod] on the text of a number (with the locale's decimal point). *)
Context (strtod : string → Z) (decimal_point_char : ascii).

(** The conversion at the end of [scan_number]: integers that fit in 64 bits, and
    doubles otherwise. *)
Definition number_token (ty : number_type) (token_buffer : string) : token :=
  match ty with
  | nt_unsigned =>
      let x := digits_value 0 token_buffer in
      if x <=? uint64_max then value_unsigned x else value_float (strtod token_buffer)
  | nt_integer =>
      let x := match token_buffer with String _ s => - digits_value 0 s | _ => 0 end in
      if int64_min <=? x then value_integer x else value_float (strtod token_buffer)
  | nt_float => value_float (strtod token_buffer)
  end.

Fixpoint scan_number_from (st : number_state) (ty : number_type) (token_buffer s : string) :
    token * string :=
  let ty := type_after st ty in
  match number_step st (match s with String c _ => Some (byte_of c) | _ => None end), s with
  | Go st', String c s =>
      let added := match st' with sn_decimal1 => decimal_point_char | _ => c end in
      scan_number_from st' ty (token_buffer +:+ String added "") s
  | Done, _ => (number_token ty token_buffer, s)
  | _, _ => (parse_error, s)
  end.

(** The first character is a digit or a minus sign. *)
Definition scan_number (c : ascii) (s : string) : token * string :=
  let st := if byte_of c =? 45 then sn_minus else if byte_of c =? 48 then sn_zero else sn_any1 in
  scan_number_from st nt_unsigned (String c "") s.

(** [scan_literal], after the first character. *)
Fixpoint scan_literal (text : string) (result : token) (s : string) : token * string :=
  match text with
  | EmptyString => (result, s)
  | String t text =>
      match s with
      | String c s => if decide (c = t) then scan_literal text result s else (parse_error, s)
      | EmptyString => (parse_error, s)
      end
  end.

Definition is_whitespace (b : Z) : bool := (b =? 32) || (b =? 9) || (b =? 10) || (b =? 13).

(** [scan], after the byte order mark. *)
Fixpoint scan (s : string) : token * string :=
  match s with
  | EmptyString => (end_of_input, "")
  | String c s =>
      let b := byte_of c in
      if is_whitespace b then scan s
      else if b =? 91 then (begin_array, s)
      else if b =? 93 then (end_array, s)
      else if b =? 123 then (begin_object, s)
      else if b =? 125 then (end_object, s)
      else if b =? 58 then (name_separator, s)
      else if b =? 44 then (value_separator, s)
      else if b =? 116 then scan_literal "rue" literal_true s
      else if b =? 102 then scan_literal "alse" literal_false s
      else if b =? 110 then scan_literal "ull" literal_null s
      else if b =? 34 then scan_string s
      else if (b =? 45) || is_digit b then scan_number c s
      else if b =? 0 then (end_of_input, s)
      else (parse_error, s)
  end.

(** The first [scan], which skips a byte order mark. *)
Definition first_scan (s : string) : token * string :=
  match s with
  | String c s1 =>
      if byte_of c =? 239 then
        match s1 with
        | String c1 (String c2 s2) =>
            if (byte_of c1 =? 187) && (byte_of c2 =? 191) then scan s2 else (parse_error, s2)
        | _ => (parse_error, "")
        end
      else scan s
  | EmptyString => scan s
  end.
End scanner.

(** ** Every scan consumes input *)

Lemma next_byte_in_range_length ranges s added s' :
  next_byte_in_range ranges s = Some (added, s') → (String.length s' <= String.length s)%nat.
Proof.
  revert s added. induction ranges as [|[lo hi] ranges IH]; cbn; intros s added H.
  { by injection H as <- <-. }
  destruct s as [|c s]; [done|]. destruct (between lo hi (byte_of c)); [|done].
  destruct (next_byte_in_range ranges s) as [[a r]|] eqn:Hn; [|done].
  cbn in H. injection H as <- <-. apply IH in Hn. cbn. lia.
Qed.

Lemma get_codepoint_length s cp s' :
  get_codepoint s = Some (cp, s') → (String.length s' <= String.length s)%nat.
Proof.
  unfold get_codepoint. destruct s as [|c1 [|c2 [|c3 [|c4 s]]]]; try done.
  destruct (hex_digit c1), (hex_digit c2), (hex_digit c3), (hex_digit c4); try done.
  cbn. intros [= _ <-]. lia.
Qed.

Lemma scan_unicode_length s added s' :
  scan_unicode s = Some (added, s') → (String.length s' <= String.length s)%nat.
Proof.
  unfold scan_unicode. destruct (get_codepoint s) as [[cp1 s1]|] eqn:H1; [|done]. cbn.
  apply get_codepoint_length in H1. destruct (between 55296 56319 cp1).
  - destruct s1 as [|a [|b s2]]; try done; [by repeat case_match|].
    destruct (get_codepoint s2) as [[cp2 s3]|] eqn:H2.
    + apply get_codepoint_length in H2. cbn in *. intros H.
      assert (s' = s3) as -> by (repeat case_match; by simplify_eq). lia.
    + intros H. exfalso. by repeat case_match.
  - destruct (between 56320 57343 cp1); [done|]. intros [= _ <-]. done.
Qed.

Lemma scan_escape_length s added s' :
  scan_escape s = Some (added, s') → (String.length s' <= String.length s)%nat.
Proof.
  unfold scan_escape. destruct s as [|c s]; [done|]. cbn [String.length].
  repeat case_match; intros Hr; try done; simplify_eq; try lia.
  apply scan_unicode_length in Hr. lia.
Qed.

Lemma scan_item_length s :
  match scan_item s with
  | Add _ rest | Close rest => (String.length rest < String.length s)%nat
  | Bad => True
  end.
Proof.
  destruct s as [|c s]; [done|]. unfold scan_item. cbn [String.length].
  destruct (byte_of c =? 34); [lia|]. destruct (byte_of c =? 92).
  { destruct (scan_escape s) as [[a r]|] eqn:H; [|done]. apply scan_escape_length in H. lia. }
  destruct (control_character _); [done|]. destruct (plain_character _); [lia|].
  destruct (utf8_ranges (byte_of c)) as [rs|]; [|done].
  destruct (next_byte_in_range rs s) as [[a r]|] eqn:H; [|done].
  apply next_byte_in_range_length in H. lia.
Qed.

Lemma scan_string_loop_length fuel buf s :
  (String.length (scan_string_loop fuel buf s).2 <= String.length s)%nat.
Proof.
  revert buf s. induction fuel as [|fuel IH]; intros buf s; cbn; [done|].
  pose proof (scan_item_length s) as Hi.
  destruct (scan_item s) as [a r|r|]; cbn; [|lia|done]. pose proof (IH (buf +:+ a) r). lia.
Qed.

(** ... and the length of the input is enough fuel. *)
Lemma scan_string_loop_fuel fuel buf s :
  (String.length s < fuel)%nat →
  scan_string_loop fuel buf s = scan_string_loop (S (String.length s)) buf s.
Proof.
  revert fuel buf. induction s as [s IH] using (induction_ltof1 _ String.length).
  unfold ltof in IH. intros [|fuel] buf Hf; [lia|]. cbn [scan_string_loop].
  pose proof (scan_item_length s) as Hi. destruct (scan_item s) as [a r|r|]; try done.
  rewrite (IH r Hi fuel) by lia. by rewrite (IH r Hi (String.length s)) by lia.
Qed.

Section scan_length.
Context (strtod : string → Z) (decimal_point_char : ascii).

Lemma scan_number_from_length st ty buf s :
  (String.length (scan_number_from strtod decimal_point_char st ty buf s).2
     <= String.length s)%nat.
Proof.
  revert st ty buf. induction s as [|c s IH]; intros st ty buf; cbn [scan_number_from].
  - by destruct (number_step _ None).
  - destruct (number_step _ _); cbn; [|done|done]. etrans; [apply IH|]. lia.
Qed.

Lemma scan_literal_length text t s :
  (String.length (scan_literal text t s).2 <= String.length s)%nat.
Proof.
  revert s. induction text as [|x text IH]; intros [|c s]; cbn; try done.
  case_decide; cbn; [|lia]. pose proof (IH s). lia.
Qed.

Lemma scan_length s t s' :
  scan strtod decimal_point_char s = (t, s') →
  (String.length s' < String.length s)%nat ∨ t = end_of_input ∧ s' = "".
Proof.
  intros Hr. assert (s' = (scan strtod decimal_point_char s).2) as -> by by rewrite Hr.
  destruct s as [|c s]; [right; by injection Hr|left]. clear Hr t.
  induction s as [s IH] using (induction_ltof1 _ String.length) in c |- *. unfold ltof in IH.
  cbn [scan String.length].
  pose proof (scan_literal_length "rue" literal_true s).
  pose proof (scan_literal_length "alse" literal_false s).
  pose proof (scan_literal_length "ull" literal_null s).
  pose proof (scan_string_loop_length (S (String.length s)) "" s).
  pose proof (λ st, scan_number_from_length st nt_unsigned (String c "") s) as Hn.
  unfold scan_string, scan_number. destruct (is_whitespace (byte_of c)).
  { destruct s as [|d s]; [cbn; lia|]. etrans; [apply IH; cbn; lia|]. cbn. lia. }
  repeat (case_match; cbn [snd]; try lia); apply Nat.lt_succ_r, Hn.
Qed.
End scan_length.

(** ** Tests *)

Definition demo_scan (s : string) : token * string := scan (λ _, 0) "." s.

Example scan_string_example :
  demo_scan (" " +:+ String (char_of 34) ("a\u00e9\n" +:+ String (char_of 34) ", 1"))
    = (value_string (String "a" (String (char_of 195) (String (char_of 169)
         (String (char_of 10) "")))), ", 1").
Proof. vm_compute. reflexivity. Qed.

Example scan_number_examples :
  demo_scan "18446744073709551615]" = (value_unsigned 18446744073709551615, "]") ∧
  demo_scan "18446744073709551616" = (value_float 0, "") ∧
  demo_scan "-0," = (value_integer 0, ",") ∧ demo_scan "01" = (value_unsigned 0, "1") ∧
  demo_scan "-9223372036854775808" = (value_integer int64_min, "") ∧
  demo_scan "-" = (parse_error, "") ∧ demo_scan "1.5e+3}" = (value_float 0, "}").
Proof. vm_compute. done. Qed.
