(* ===== verification/JsonParser.v ===== *)
(** * JSON: the parser

    [tools/json/json.hpp], class [parser] with [json_sax_dom_parser]: a loop over
    tokens with an explicit stack of the open arrays and objects. *)

From Stdlib Require Import Ascii.
From stdpp Require Import base list strings numbers.
From S2P Require Import Prelude CppString Json JsonLexer.

(** An open array with the elements so far, or an open object with the members so far
    and the key of the value that comes next. *)
Inductive frame :=
  | InArray (elements : list json)
  | InObject (members : list (string * json)) (key : string).

(** The top of the loop: the last token begins a value, or a value has just been
    completed ([skip_to_state_evaluation]). *)
Inductive turn :=
  | OnToken (last_token : token)
  | OnValue (v : json).

(** What a turn leads to: another turn with the rest of the input, or the end. *)
Inductive progress :=
  | Continue (stack : list frame) (t : turn) (s : string)
  | Finished (r : outcome (json * string)).

Definition syntax_error : progress := Finished (Stop (Thrown (JsonParseError 101))).

Section parser.
Context (strtod : string → Z) (decimal_point_char : ascii) (isfinite : Z → bool).

Definition get_token (s : string) : token * string := scan strtod decimal_point_char s.

(** A key and the separator, after which the next token begins the value. *)
Definition after_key (stack : list frame) (members : list (string * json)) (key s : string) :
    progress :=
  match get_token s with
  | (name_separator, s) =>
      match get_token s with
      | (t, s) => Continue (InObject members key :: stack) (OnToken t) s
      end
  | _ => syntax_error
  end.

(** The first part of the loop: a token where a value is expected. *)
Definition on_token (stack : list frame) (last_token : token) (s : string) : progress :=
  match last_token with
  | begin_object =>
      match get_token s with
      | (end_object, s) => Continue stack (OnValue (JObject [])) s
      | (value_string key, s) => after_key stack [] key s
      | _ => syntax_error
      end
  | begin_array =>
      match get_token s with
      | (end_array, s) => Continue stack (OnValue (JArray [])) s
      | (t, s) => Continue (InArray [] :: stack) (OnToken t) s
      end
  | value_float bits =>
      if isfinite bits then Continue stack (OnValue (JFloat bits)) s
      else Finished (Stop (Thrown (JsonOutOfRange 406)))
  | literal_false => Continue stack (OnValue (JBoolean false)) s
  | literal_null => Continue stack (OnValue JNull) s
  | literal_true => Continue stack (OnValue (JBoolean true)) s
  | value_integer z => Continue stack (OnValue (JInteger z)) s
  | value_string str => Continue stack (OnValue (JString str)) s
  | value_unsigned z => Continue stack (OnValue (JUnsigned z)) s
  | _ => syntax_error
  end.

(** The second part: a value has been completed in the innermost open structure. *)
Definition on_value (stack : list frame) (v : json) (s : string) : progress :=
  match stack with
  | [] => Finished (Ret (v, s))
  | InArray elements :: stack =>
      match get_token s with
      | (value_separator, s) =>
          match get_token s with
          | (t, s) => Continue (InArray (elements ++ [v]) :: stack) (OnToken t) s
          end
      | (end_array, s) => Continue stack (OnValue (JArray (elements ++ [v]))) s
      | _ => syntax_error
      end
  | InObject members key :: stack =>
      let members := assign key v members in
      match get_token s with
      | (value_separator, s) =>
          match get_token s with
          | (value_string key, s) => after_key stack members key s
          | _ => syntax_error
          end
      | (end_object, s) => Continue stack (OnValue (JObject members)) s
      | _ => syntax_error
      end
  end.

Definition sax_step (stack : list frame) (t : turn) (s : string) : progress :=
  match t with
  | OnToken last_token => on_token stack last_token s
  | OnValue v => on_value stack v s
  end.

(** [sax_parse_internal]. *)
Fixpoint sax_parse_internal (fuel : nat) (stack : list frame) (t : turn) (s : string) :
    outcome (json * string) :=
  match fuel with
  | O => Stop Blocked
  | S fuel =>
      match sax_step stack t s with
      | Continue stack t s => sax_parse_internal fuel stack t s
      | Finished r => r
      end
  end.

(** Every two turns consume a byte. *)
Definition parse_fuel (s : string) : nat := S (2 * S (String.length s)).

(** The constructor reads the first token. *)
Definition parse_value (s : string) : outcome (json * string) :=
  let '(t, rest) := first_scan strtod decimal_point_char s in
  sax_parse_internal (parse_fuel s) [] (OnToken t) rest.

(** [operator>>]: what follows the value is not looked at. *)
Definition json_parse (s : string) : outcome json :=
  fst <$> parse_value s.

(** [json::accept]: the value is the whole input. *)
Definition json_accept (s : string) : bool :=
  match parse_value s with
  | Ret (_, rest) => bool_decide ((get_token rest).1 = end_of_input)
  | Stop _ => false
  end.
End parser.

(** ** Termination *)

(** A token that cannot begin a value ends the loop. *)
Definition starts_value (t : token) : bool :=
  match t with
  | parse_error | end_of_input | name_separator | value_separator | end_array | end_object => false
  | _ => true
  end.

Definition weight (t : turn) (s : string) : nat :=
  match t with
  | OnToken tok => if starts_value tok then 2 * String.length s + 2 else 1
  | OnValue _ => 2 * String.length s + 1
  end.

Section termination.
Context (strtod : string → Z) (decimal_point_char : ascii) (isfinite : Z → bool).
Notation step := (sax_step strtod decimal_point_char isfinite).
Notation loop := (sax_parse_internal strtod decimal_point_char isfinite).
Notation scan := (scan strtod decimal_point_char).

(** A token that is not the end of the input has been read from it. *)
Lemma get_token_length s t s' :
  scan s = (t, s') → t ≠ end_of_input → String.length s' < String.length s.
Proof. intros H Ht. apply scan_length in H as [?|[? _]]; done. Qed.

Lemma weight_token s t s' : scan s = (t, s') → weight (OnToken t) s' < 2 * String.length s + 1 ∨
  s = "" ∧ weight (OnToken t) s' = 1.
Proof.
  intros H. pose proof H as Hl. apply scan_length in Hl as [Hl|[-> ->]].
  - left. cbn. destruct (starts_value t); lia.
  - destruct s; [by right|]. left. cbn. lia.
Qed.

Lemma after_key_weight stack ms k s stack' t' s' :
  after_key strtod decimal_point_char stack ms k s = Continue stack' t' s' →
  weight t' s' < 2 * String.length s.
Proof.
  unfold after_key, get_token. destruct (scan s) as [t1 s1] eqn:H1.
  destruct t1; try done. destruct (scan s1) as [t2 s2] eqn:H2. intros [= _ <- <-].
  apply get_token_length in H1; [|done]. apply weight_token in H2 as [?|[-> ->]]; lia.
Qed.

Lemma sax_step_weight stack t s stack' t' s' :
  step stack t s = Continue stack' t' s' → weight t' s' < weight t s.
Proof.
  destruct t as [tok|v]; cbn [sax_step]; intros H.
  - destruct tok; cbn [on_token] in H; unfold get_token in H; try done;
      try (injection H as _ <- <-; cbn; lia).
    + case_match; [injection H as _ <- <-; cbn; lia|done].
    + destruct (scan s) as [t1 s1] eqn:H1. destruct t1; try injection H as _ <- <-;
        try (apply weight_token in H1 as [?|[-> ?]]; cbn in *; lia).
      apply get_token_length in H1; [|done]. cbn. lia.
    + destruct (scan s) as [t1 s1] eqn:H1. destruct t1; try done.
      * apply get_token_length in H1; [|done]. apply after_key_weight in H. cbn. lia.
      * apply get_token_length in H1; [|done]. injection H as _ <- <-. cbn. lia.
  - destruct stack as [|[es|ms k] stack]; [done|..]; cbn [on_value] in H; unfold get_token in H;
      destruct (scan s) as [t1 s1] eqn:H1; destruct t1; try done;
      apply get_token_length in H1; try done.
    + injection H as _ <- <-. cbn. lia.
    + destruct (scan s1) as [t2 s2] eqn:H2. injection H as _ <- <-.
      apply weight_token in H2 as [?|[-> ?]]; cbn in *; lia.
    + injection H as _ <- <-. cbn. lia.
    + destruct (scan s1) as [t2 s2] eqn:H2. destruct t2; try done.
      apply get_token_length in H2; [|done]. apply after_key_weight in H. cbn. lia.
Qed.

Lemma loop_terminates fuel stack t s :
  weight t s < fuel → loop fuel stack t s ≠ Stop Blocked.
Proof.
  revert stack t s. induction fuel as [|fuel IH]; intros stack t s Hw; [lia|].
  cbn [sax_parse_internal]. destruct (step stack t s) as [stack' t' s'|r] eqn:Hs.
  - apply sax_step_weight in Hs. apply IH. lia.
  - intros ->. destruct t as [tok|v]; cbn [sax_step] in Hs.
    + destruct tok; cbn [on_token] in Hs; unfold after_key, get_token in Hs; try done;
        repeat case_match; done.
    + destruct stack as [|[es|ms k] stack]; cbn [on_value] in Hs; unfold after_key in Hs;
        [done|..]; repeat case_match; done.
Qed.

(** More fuel than needed changes nothing. *)
Lemma loop_fuel_mono fuel k stack t s :
  loop fuel stack t s ≠ Stop Blocked → loop (fuel + k) stack t s = loop fuel stack t s.
Proof.
  revert stack t s. induction fuel as [|fuel IH]; intros stack t s Hb; [done|].
  cbn [sax_parse_internal Nat.add] in *. destruct (step stack t s); [by apply IH|done].
Qed.

Lemma first_scan_length s t s' :
  first_scan strtod decimal_point_char s = (t, s') → String.length s' <= String.length s.
Proof.
  assert (∀ s t s', scan s = (t, s') → String.length s' <= String.length s) as Hle.
  { intros s0 t0 s0' [?|[_ ->]]%scan_length; cbn; lia. }
  unfold first_scan. destruct s as [|c s]; [by intros ?%Hle|].
  destruct (Z.eqb _ _); [|by intros ?%Hle].
  destruct s as [|c1 [|c2 s2]]; [intros [= _ <-]; cbn; lia..|].
  destruct (_ && _); [intros ?%Hle|intros [= _ <-]]; cbn; lia.
Qed.

Lemma parse_fuel_enough s t rest :
  first_scan strtod decimal_point_char s = (t, rest) →
  loop (parse_fuel s) [] (OnToken t) rest ≠ Stop Blocked.
Proof.
  intros H%first_scan_length. apply loop_terminates. unfold parse_fuel. cbn.
  destruct (starts_value t); lia.
Qed.

(** How a turn or the loop may fail. *)
Definition parser_stop (w : stop) : Prop :=
  w = Thrown (JsonParseError 101) ∨ w = Thrown (JsonOutOfRange 406).

Lemma sax_step_stop stack t s w : step stack t s = Finished (Stop w) → parser_stop w.
Proof.
  assert (∀ w, syntax_error = Finished (Stop w) → parser_stop w) as Hse
    by (intros ? [= <-]; by left).
  destruct t as [tok|v]; cbn [sax_step].
  - destruct tok; cbn [on_token]; unfold after_key; try done; try apply Hse;
      repeat case_match; try done; try apply Hse. intros [= <-]. by right.
  - destruct stack as [|[es|ms k] stack]; cbn [on_value]; unfold after_key; [done|..];
      repeat case_match; try done; apply Hse.
Qed.

Lemma loop_stop fuel stack t s w :
  loop fuel stack t s = Stop w → w = Blocked ∨ parser_stop w.
Proof.
  revert stack t s. induction fuel as [|fuel IH]; intros stack t s; cbn [sax_parse_internal].
  { intros [= <-]. by left. }
  destruct (step stack t s) as [stack' t' s'|r] eqn:Hs; [apply IH|].
  intros ->. right. by eapply sax_step_stop.
Qed.

Lemma json_parse_stop s w :
  json_parse strtod decimal_point_char isfinite s = Stop w → parser_stop w.
Proof.
  unfold json_parse, parse_value. destruct (first_scan _ _ s) as [t rest] eqn:Hf.
  pose proof (parse_fuel_enough s t rest Hf) as Hb.
  destruct (sax_parse_internal _ _ _ _ _ _) as [[j r]|w'] eqn:Hl; [done|].
  intros [= <-]. apply loop_stop in Hl as [->|?]; done.
Qed.
End termination.

(** C35: Parsing terminates: for every input the parser returns a value or throws a
    parse error (101) or, for a number too large for a double, an out-of-range error
    (406); the fuel of the model is never used up. *)
Theorem parse_total (strtod : string → Z) (decimal_point_char : ascii) (isfinite : Z → bool)
    (s : string) :
  (∃ j, json_parse strtod decimal_point_char isfinite s = Ret j) ∨
  json_parse strtod decimal_point_char isfinite s = Stop (Thrown (JsonParseError 101)) ∨
  json_parse strtod decimal_point_char isfinite s = Stop (Thrown (JsonOutOfRange 406)).
Proof.
  destruct (json_parse _ _ _ s) as [j|w] eqn:Hp; [left; by exists j|right].
  apply json_parse_stop in Hp as [-> | ->]; [by left|by right].
Qed.

(** ** Tests *)

Definition demo_parse (s : string) : outcome json := json_parse (λ _, 0%Z) "." (λ _, true) s.

(** Double quotes are written as apostrophes. *)
Fixpoint quoted (s : string) : string :=
  match s with
  | EmptyString => ""
  | String c s => String (if decide (c = "'"%char) then ascii_of_nat 34 else c) (quoted s)
  end.

Example parse_object :
  demo_parse (quoted " {'b': [1, -2, true, null], 'a': {}, 'b': 'x'} rest")
    = Ret (JObject [("a", JObject []); ("b", JString "x")]).
Proof. vm_compute. reflexivity. Qed.

Example parse_errors :
  demo_parse (quoted "{'a': }") = Stop (Thrown (JsonParseError 101)) ∧
  demo_parse "[1,]" = Stop (Thrown (JsonParseError 101)) ∧
  demo_parse "" = Stop (Thrown (JsonParseError 101)).
Proof. vm_compute. done. Qed.
