(* ===== verification/JsonDump.v ===== *)
(** * JSON: the serializer

    [tools/json/json.hpp], class [serializer], as [operator<<] uses it on a file
    stream: no indentation, no escapes for non-ASCII characters, strict handling of
    UTF-8 errors. Writing goes on until an exception, so the text written so far is
    part of the result; strings are written through a buffer of 512 bytes. *)

From Stdlib Require Import Ascii.
From stdpp Require Import base list strings numbers.
From S2P Require Import Prelude CppString Json JsonLexer.

Local Open Scope Z_scope.

(** ** Writing *)

(** What has been written, and whether the writer returned. *)
Definition writer : Type := string * outcome unit.

Definition write (s : string) : writer := (s, Ret tt).

Definition and_then (w1 w2 : writer) : writer :=
  match w1 with
  | (s1, Ret _) => (s1 +:+ w2.1, w2.2)
  | _ => w1
  end.
Infix "&>" := and_then (at level 61, left associativity).

(** ** Strings *)

Definition UTF8_ACCEPT : Z := 0.
Definition UTF8_REJECT : Z := 1.

(** The classes of the bytes and the transitions of the automaton. *)
Definition utf8d : list Z :=
  replicate 128 0 ++ replicate 16 1 ++ replicate 16 9 ++ replicate 32 7 ++
  [8; 8] ++ replicate 30 2 ++
  [10; 3; 3; 3; 3; 3; 3; 3; 3; 3; 3; 3; 3; 4; 3; 3] ++
  [11; 6; 6; 6; 5; 8; 8; 8; 8; 8; 8; 8; 8; 8; 8; 8] ++
  [0; 1; 2; 3; 5; 8; 7; 1; 1; 1; 4; 6; 1; 1; 1; 1] ++
  [1; 1; 1; 1; 1; 1; 1; 1; 1; 1; 1; 1; 1; 1; 1; 1;  1; 0; 1; 1; 1; 1; 1; 0; 1; 0; 1; 1; 1; 1; 1; 1] ++
  [1; 2; 1; 1; 1; 1; 1; 2; 1; 2; 1; 1; 1; 1; 1; 1;  1; 1; 1; 1; 1; 1; 1; 2; 1; 1; 1; 1; 1; 1; 1; 1] ++
  [1; 2; 1; 1; 1; 1; 1; 1; 1; 2; 1; 1; 1; 1; 1; 1;  1; 1; 1; 1; 1; 1; 1; 3; 1; 3; 1; 1; 1; 1; 1; 1] ++
  [1; 3; 1; 1; 1; 1; 1; 3; 1; 3; 1; 1; 1; 1; 1; 1;  1; 3; 1; 1; 1; 1; 1; 1; 1; 1; 1; 1; 1; 1; 1; 1].

Definition utf8d_at (i : Z) : Z := default 0 (utf8d !! Z.to_nat i).

(** [decode]: the new state and code point, on 32 bits. *)
Definition decode (state codep byte : Z) : Z * Z :=
  let type := utf8d_at byte in
  let codep' :=
    if negb (state =? UTF8_ACCEPT)
    then Z.lor (Z.land byte 63) (Z.shiftl codep 6 mod 2 ^ 32)
    else Z.land (Z.shiftr 255 type) byte in
  (utf8d_at (256 + state * 16 + type), codep').

(** [snprintf("%04x")]. *)
Definition hex_char (d : Z) : ascii := char_of (if d <? 10 then 48 + d else 87 + d).
Definition hex4 (n : Z) : string :=
  String (hex_char (Z.land (Z.shiftr n 12) 15)) (String (hex_char (Z.land (Z.shiftr n 8) 15))
    (String (hex_char (Z.land (Z.shiftr n 4) 15)) (String (hex_char (Z.land n 15)) ""))).

(** What is put in the buffer for a code point whose last byte is [c]. *)
Definition escape (codepoint : Z) (c : ascii) : string :=
  let backslash z := String (char_of 92) (String (char_of z) "") in
  if codepoint =? 8 then backslash 98
  else if codepoint =? 9 then backslash 116
  else if codepoint =? 10 then backslash 110
  else if codepoint =? 12 then backslash 102
  else if codepoint =? 13 then backslash 114
  else if codepoint =? 34 then backslash 34
  else if codepoint =? 92 then backslash 92
  else if codepoint <=? 31 then backslash 117 +:+ hex4 codepoint
  else String c "".

Definition string_buffer_size : Z := 512.

(** Writing beyond the array is undefined; [snprintf] also writes a null byte. *)
Definition overflows (string_buffer : string) : bool := string_buffer_size <=? size string_buffer.

Fixpoint dump_escaped_loop (s : string) (state codep : Z) (out string_buffer : string) : writer :=
  match s with
  | EmptyString =>
      if state =? UTF8_ACCEPT then (out +:+ string_buffer, Ret tt)
      else (out, Stop (Thrown (JsonTypeError 316)))
  | String c s =>
      let '(state, codep) := decode state codep (byte_of c) in
      if state =? UTF8_ACCEPT then
        let string_buffer := string_buffer +:+ escape codep c in
        if overflows string_buffer then (out, Stop Undefined)
        else if string_buffer_size - size string_buffer <? 13
        then dump_escaped_loop s state codep (out +:+ string_buffer) ""
        else dump_escaped_loop s state codep out string_buffer
      else if state =? UTF8_REJECT then (out, Stop (Thrown (JsonTypeError 316)))
      else
        let string_buffer := string_buffer +:+ String c "" in
        if overflows string_buffer then (out, Stop Undefined)
        else dump_escaped_loop s state codep out string_buffer
  end.

Definition dump_escaped (s : string) : writer := dump_escaped_loop s UTF8_ACCEPT 0 "" "".

(** ** Integers *)

Fixpoint count_digits_loop (fuel : nat) (n_digits x : Z) : Z :=
  match fuel with
  | O => n_digits
  | S fuel =>
      if x <? 10 then n_digits
      else if x <? 100 then n_digits + 1
      else if x <? 1000 then n_digits + 2
      else if x <? 10000 then n_digits + 3
      else count_digits_loop fuel (n_digits + 4) (x / 10000)
  end.

(** 64 bits have at most 20 digits. *)
Definition count_digits (x : Z) : Z := count_digits_loop 8 1 x.

Definition digit (d : Z) : ascii := char_of (48 + d).
Definition digits_to_99 (i : Z) : string := String (digit (i / 10)) (String (digit (i mod 10)) "").

(** The buffer is filled from its end. *)
Fixpoint fill_digits (fuel : nat) (abs_value : Z) (filled : string) : string :=
  match fuel with
  | O => filled
  | S fuel =>
      if 100 <=? abs_value
      then fill_digits fuel (abs_value / 100) (digits_to_99 (abs_value mod 100) +:+ filled)
      else if 10 <=? abs_value then digits_to_99 abs_value +:+ filled
      else String (digit abs_value) filled
  end.

(** The text has the [n_chars] bytes that have been counted, or the buffer is not
    filled as it should. *)
Definition dump_abs (abs_value : Z) : outcome string :=
  let text := fill_digits 16 abs_value "" in
  if size text =? count_digits abs_value then Ret text else Stop Undefined.

(** [std::abs] of the smallest integer is undefined. *)
Definition dump_integer (x : Z) : writer :=
  if x =? 0 then write "0"
  else if 0 <=? x then
    match dump_abs x with Ret text => write text | Stop w => ("", Stop w) end
  else if x =? int64_min then ("", Stop Undefined)
  else
    match dump_abs (- x) with Ret text => write ("-" +:+ text) | Stop w => ("", Stop w) end.

(** ** Values *)

Definition quote : string := String (char_of 34) "".

(** The loops over the elements: commas between, none after the last. *)
Section separated.
Context {A : Type} (w : A → writer).
Fixpoint separated (l : list A) : writer :=
  match l with
  | [] => write ""
  | [x] => w x
  | x :: rest => w x &> write "," &> separated rest
  end.
End separated.

Section serializer.
(** The text of a double: [to_chars] of the library (Grisu2). *)
Context (isfinite : Z → bool) (float_text : Z → string).

Fixpoint json_dump (j : json) : writer :=
  match j with
  | JObject [] => write "{}"
  | JObject ms =>
      write "{" &>
      separated (λ m, write quote &> dump_escaped m.1 &> write (quote +:+ ":") &> json_dump m.2) ms &>
      write "}"
  | JArray [] => write "[]"
  | JArray js => write "[" &> separated json_dump js &> write "]"
  | JString s => write quote &> dump_escaped s &> write quote
  | JBoolean true => write "true"
  | JBoolean false => write "false"
  | JInteger z => dump_integer z
  | JUnsigned z => dump_integer z
  | JFloat bits => if isfinite bits then write (float_text bits) else write "null"
  | JNull => write "null"
  end.
End serializer.

Example dump_example :
  json_dump (λ _, true) (λ _, "") 
    (JObject [("a", JArray [JUnsigned 105; JInteger (-10); JNull]);
              ("b", JString (String (char_of 10) "x"))])
    = write ("{" +:+ quote +:+ "a" +:+ quote +:+ ":[105,-10,null]," +:+ quote +:+ "b" +:+ quote
             +:+ ":" +:+ quote +:+ "\nx" +:+ quote +:+ "}").
Proof. vm_compute. reflexivity. Qed.
