(* ===== verification/JsonNumbers.v ===== *)
(** * JSON: the text of integers

    [count_digits] and [dump_integer] of the serializer write the decimal digits of a
    64-bit integer into a buffer of the counted size, and [scan_number] of the lexer
    reads them back. *)

From Stdlib Require Import Ascii.
From stdpp Require Import base list strings numbers.
From S2P Require Import Prelude CppString Json JsonLexer JsonDump.

Local Open Scope Z_scope.

(** ** Digits *)

Notation digits_only := (all_chars (λ c, is_digit (byte_of c))).

Lemma digits_value_app acc s1 s2 :
  digits_value acc (s1 +:+ s2) = digits_value (digits_value acc s1) s2.
Proof.
  revert acc. induction s1 as [|c s1 IH]; intros acc; [by rewrite str_app_nil_l|].
  rewrite str_app_cons. cbn [digits_value]. apply IH.
Qed.

Lemma byte_of_digit d : 0 <= d <= 9 → byte_of (digit d) = 48 + d.
Proof.
  intros Hd. assert (d = 0 ∨ d = 1 ∨ d = 2 ∨ d = 3 ∨ d = 4 ∨ d = 5 ∨ d = 6 ∨ d = 7 ∨ d = 8 ∨ d = 9)
    as Hcases by lia.
  destruct_or! Hcases; subst d; reflexivity.
Qed.

Lemma is_digit_digit d : 0 <= d <= 9 → is_digit (byte_of (digit d)) = true.
Proof.
  intros Hd. unfold is_digit, between. rewrite byte_of_digit by done.
  apply andb_true_iff. rewrite !Z.leb_le. lia.
Qed.

(** [t] is the decimal notation of [x], without leading zeros. *)
Definition notation_of (x : Z) (t : string) : Prop :=
  ∃ c t', t = String c t' ∧ between 49 57 (byte_of c) = true ∧ digits_only t = true ∧
    digits_value 0 t = x ∧ 10 ^ (size t - 1) <= x < 10 ^ size t.

Lemma one_digit x : 1 <= x <= 9 → notation_of x (String (digit x) "").
Proof.
  intros Hx. eexists _, _. split; [done|]. rewrite byte_of_digit by lia.
  unfold between. rewrite andb_true_iff, !Z.leb_le. split; [lia|].
  cbn [all_chars digits_value]. rewrite is_digit_digit, byte_of_digit by lia.
  split; [done|]. split; [lia|]. change (size (String (digit x) "")) with 1. cbn. lia.
Qed.

Lemma two_digits i : 0 <= i <= 99 →
  digits_only (digits_to_99 i) = true ∧ ∀ acc, digits_value acc (digits_to_99 i) = 100 * acc + i.
Proof.
  intros Hi. unfold digits_to_99. cbn [all_chars digits_value].
  pose proof (Z.div_mod i 10 ltac:(lia)). pose proof (Z.mod_pos_bound i 10 ltac:(lia)).
  rewrite !is_digit_digit, !byte_of_digit by lia. split; [done|]. intros acc. lia.
Qed.

Lemma two_digits_notation x : 10 <= x <= 99 → notation_of x (digits_to_99 x).
Proof.
  intros Hx. destruct (two_digits x) as [Hd Hv]; [lia|].
  eexists _, _. split; [done|]. pose proof (Z.div_mod x 10 ltac:(lia)).
  pose proof (Z.mod_pos_bound x 10 ltac:(lia)). rewrite byte_of_digit by lia.
  unfold between. rewrite andb_true_iff, !Z.leb_le. split; [lia|].
  split; [done|]. split; [rewrite Hv; lia|].
  change (size (digits_to_99 x)) with 2. cbn. lia.
Qed.

(** Two more digits. *)
Lemma notation_step x t : 100 <= x → notation_of (x / 100) t → notation_of x (t +:+ digits_to_99 (x mod 100)).
Proof.
  intros Hx (c & t' & -> & Hc & Hd & Hv & Hb).
  pose proof (Z.div_mod x 100 ltac:(lia)). pose proof (Z.mod_pos_bound x 100 ltac:(lia)).
  destruct (two_digits (x mod 100)) as [Hd2 Hv2]; [lia|].
  exists c, (t' +:+ digits_to_99 (x mod 100)). rewrite str_app_cons. split; [done|].
  split; [done|]. rewrite <- str_app_cons, all_chars_app, digits_value_app, Hd, Hd2, Hv, Hv2.
  split; [done|]. split; [lia|].
  assert (size (String c t' +:+ digits_to_99 (x mod 100)) = size (String c t') + 2) as ->.
  { rewrite size_app. done. }
  pose proof (size_nonneg t'). rewrite size_cons in *.
  replace (1 + size t' - 1) with (size t') in Hb by lia.
  replace (1 + size t' + 2 - 1) with (size t' + 2) by lia.
  rewrite (Z.pow_add_r 10 (1 + size t') 2), (Z.pow_add_r 10 (size t') 2) by lia.
  set (p := 10 ^ size t') in *. set (q := 10 ^ (1 + size t')) in *. lia.
Qed.

(** ** The buffer *)

Lemma fill_digits_notation fuel x filled :
  0 < x < 100 ^ Z.of_nat fuel →
  ∃ t, fill_digits fuel x filled = t +:+ filled ∧ notation_of x t.
Proof.
  revert x filled. induction fuel as [|fuel IH]; intros x filled Hx; [cbn in Hx; lia|].
  cbn [fill_digits]. destruct (Z.leb_spec 100 x) as [H100|H100].
  - destruct (IH (x / 100) (digits_to_99 (x mod 100) +:+ filled)) as (t & -> & Ht).
    { split; [apply Z.div_str_pos; lia|]. apply Z.div_lt_upper_bound; [lia|].
      rewrite Nat2Z.inj_succ, Z.pow_succ_r in Hx by lia. lia. }
    exists (t +:+ digits_to_99 (x mod 100)). split; [by rewrite str_app_assoc|].
    by apply notation_step.
  - destruct (Z.leb_spec 10 x).
    + exists (digits_to_99 x). split; [done|]. apply two_digits_notation. lia.
    + exists (String (digit x) ""). rewrite str_app_cons, str_app_nil_l.
      split; [done|]. apply one_digit. lia.
Qed.

Lemma pow10_unique n m x :
  0 <= n → 0 <= m → 10 ^ n <= x < 10 ^ (n + 1) → 10 ^ m <= x < 10 ^ (m + 1) → n = m.
Proof.
  intros Hn Hm [Hn1 Hn2] [Hm1 Hm2].
  destruct (Z.lt_trichotomy n m) as [H|[H|H]]; [exfalso|done|exfalso].
  - assert (10 ^ (n + 1) <= 10 ^ m) by (apply Z.pow_le_mono_r; lia). lia.
  - assert (10 ^ (m + 1) <= 10 ^ n) by (apply Z.pow_le_mono_r; lia). lia.
Qed.

Lemma count_digits_loop_bounds fuel n x :
  0 < x < 10000 ^ Z.of_nat fuel →
  n <= count_digits_loop fuel n x ∧
  10 ^ (count_digits_loop fuel n x - n) <= x < 10 ^ (count_digits_loop fuel n x - n + 1).
Proof.
  revert n x. induction fuel as [|fuel IH]; intros n x Hx; [cbn in Hx; lia|].
  cbn [count_digits_loop].
  destruct (Z.ltb_spec x 10); [replace (n - n) with 0 by lia; cbn; lia|].
  destruct (Z.ltb_spec x 100); [replace (n + 1 - n) with 1 by lia; cbn; lia|].
  destruct (Z.ltb_spec x 1000); [replace (n + 2 - n) with 2 by lia; cbn; lia|].
  destruct (Z.ltb_spec x 10000); [replace (n + 3 - n) with 3 by lia; cbn; lia|].
  destruct (IH (n + 4) (x / 10000)) as [Hle Hb].
  { split; [apply Z.div_str_pos; lia|]. apply Z.div_lt_upper_bound; [lia|].
    rewrite Nat2Z.inj_succ, Z.pow_succ_r in Hx by lia. lia. }
  set (r := count_digits_loop fuel (n + 4) (x / 10000)) in *.
  split; [lia|]. replace (r - n) with (r - (n + 4) + 4) by lia.
  replace (r - (n + 4) + 4 + 1) with (r - (n + 4) + 1 + 4) by lia.
  rewrite !(Z.pow_add_r 10 _ 4) by lia. set (p := 10 ^ (r - (n + 4))) in *.
  set (q := 10 ^ (r - (n + 4) + 1)) in *.
  pose proof (Z.div_mod x 10000 ltac:(lia)). pose proof (Z.mod_pos_bound x 10000 ltac:(lia)). lia.
Qed.

Lemma count_digits_size x t : 0 < x < 2 ^ 64 → notation_of x t → count_digits x = size t.
Proof.
  intros Hx (c & t' & -> & _ & _ & _ & Hb).
  destruct (count_digits_loop_bounds 8 1 x) as [Hle Hc]; [cbn; lia|].
  fold (count_digits x) in *. rewrite size_cons in *. pose proof (size_nonneg t').
  assert (count_digits x - 1 = size t'); [|lia]. apply (pow10_unique _ _ x); [lia..|].
  replace (1 + size t' - 1) with (size t') in Hb by lia. by rewrite Z.add_comm in Hb.
Qed.

Lemma dump_abs_notation x :
  0 < x < 2 ^ 64 → ∃ t, dump_abs x = Ret t ∧ notation_of x t.
Proof.
  intros Hx. unfold dump_abs. destruct (fill_digits_notation 16 x "") as (t & -> & Ht).
  { cbn. lia. }
  exists t. rewrite str_app_nil_r. rewrite (count_digits_size x t) by done.
  by rewrite Z.eqb_refl.
Qed.

(** The text of an integer. *)
Definition integer_text (x : Z) (t : string) : Prop :=
  (x = 0 ∧ t = "0") ∨ (0 < x ∧ notation_of x t) ∨
  (x < 0 ∧ ∃ t', t = String "-" t' ∧ notation_of (- x) t').

Lemma dump_integer_text x :
  - 2 ^ 63 < x < 2 ^ 64 → ∃ t, dump_integer x = write t ∧ integer_text x t.
Proof.
  intros Hx. unfold dump_integer. destruct (Z.eqb_spec x 0) as [->|H0].
  { eexists. split; [done|]. by left. }
  destruct (Z.leb_spec 0 x).
  - destruct (dump_abs_notation x) as (t & -> & Ht); [lia|]. eexists. split; [done|].
    right; left. split; [lia|done].
  - destruct (Z.eqb_spec x int64_min) as [->|]; [unfold int64_min in Hx; lia|].
    destruct (dump_abs_notation (- x)) as (t & -> & Ht); [lia|]. eexists. split; [done|].
    right; right. split; [lia|]. exists t. by rewrite str_app_cons, str_app_nil_l.
Qed.

(** ** The lexer *)

(** The text after a number that is not read as part of it. *)
Definition ends_number (rest : string) : bool :=
  match rest with
  | EmptyString => true
  | String c _ =>
      negb (is_digit (byte_of c) || (byte_of c =? 46) || is_exponent (byte_of c))
  end.

Section scan.
Context (strtod : string → Z) (decimal_point_char : ascii).
Notation scan := (scan strtod decimal_point_char).
Notation number_token := (number_token strtod).
Notation scan_number_from := (scan_number_from strtod decimal_point_char).

Lemma scan_digits ty buf t rest :
  digits_only t = true → ends_number rest = true →
  scan_number_from sn_any1 ty buf (t +:+ rest) = (number_token ty (buf +:+ t), rest).
Proof.
  revert buf. induction t as [|c t IH]; intros buf Hd Hr.
  - rewrite str_app_nil_l, str_app_nil_r. destruct rest as [|c rest]; [done|].
    cbn in Hr. apply negb_true_iff, orb_false_iff in Hr as [[H1 H2]%orb_false_iff H3].
    cbn. by rewrite H1, H2, H3.
  - cbn in Hd. apply andb_true_iff in Hd as [Hc Hd]. rewrite str_app_cons.
    cbn. rewrite Hc. rewrite IH by done.
    by rewrite str_app_assoc, str_app_cons, str_app_nil_l.
Qed.

(** The first digit of a notation is not whitespace, a bracket or a quote. *)
Lemma scan_first_digit c s :
  between 49 57 (byte_of c) = true ∨ c = "-"%char ∨ c = "0"%char →
  scan (String c s) = scan_number strtod decimal_point_char c s.
Proof.
  intros Hc. destruct c as [[] [] [] [] [] [] [] []];
    try reflexivity; exfalso; destruct Hc as [Hc|[Hc|Hc]]; vm_compute in Hc; discriminate Hc.
Qed.

Lemma scan_notation x t rest :
  notation_of x t → x < 2 ^ 64 → ends_number rest = true →
  scan (t +:+ rest) = (value_unsigned x, rest).
Proof.
  intros (c & t' & -> & Hc & Hd & Hv & _) Hx Hr. rewrite str_app_cons.
  rewrite scan_first_digit by auto. unfold scan_number.
  cbn [all_chars] in Hd. apply andb_true_iff in Hd as [_ Hd].
  unfold between in Hc. apply andb_true_iff in Hc as [H1%Z.leb_le H2%Z.leb_le].
  destruct (Z.eqb_spec (byte_of c) 45); [lia|]. destruct (Z.eqb_spec (byte_of c) 48); [lia|].
  rewrite scan_digits by done. rewrite str_app_cons, str_app_nil_l.
  unfold JsonLexer.number_token. rewrite Hv. unfold uint64_max.
  by destruct (Z.leb_spec x (2 ^ 64 - 1)); [|lia].
Qed.

Lemma scan_negative x t rest :
  notation_of x t → x <= 2 ^ 63 → ends_number rest = true →
  scan (String "-" (t +:+ rest)) = (value_integer (- x), rest).
Proof.
  intros (c & t' & -> & Hc & Hd & Hv & _) Hx Hr. rewrite scan_first_digit by auto.
  unfold scan_number. change (byte_of "-" =? 45) with true. cbn iota. rewrite str_app_cons.
  cbn.
  cbn [all_chars] in Hd. apply andb_true_iff in Hd as [_ Hd].
  destruct (Z.eqb_spec (byte_of c) 48) as [H48|H48].
  { rewrite H48 in Hc. done. }
  rewrite Hc. cbn iota. rewrite scan_digits by done.
  cbn [JsonLexer.number_token]. rewrite str_app_assoc, !str_app_cons, !str_app_nil_l, Hv. unfold int64_min.
  destruct (Z.leb_spec (- 2 ^ 63) (- x)); [done|lia].
Qed.

(** A written integer is read back; its kind is its sign. *)
Lemma scan_integer x t rest :
  integer_text x t → - 2 ^ 63 <= x < 2 ^ 64 → ends_number rest = true →
  scan (t +:+ rest) = (if x <? 0 then value_integer x else value_unsigned x, rest).
Proof.
  intros [[-> ->]|[[H0 Ht]|(H0 & t' & -> & Ht)]] Hx Hr.
  - rewrite str_app_cons, str_app_nil_l, scan_first_digit by auto.
    destruct rest as [|c rest]; [done|]. cbn in Hr.
    apply negb_true_iff, orb_false_iff in Hr as [[H1 H2]%orb_false_iff H3].
    unfold scan_number. cbn [byte_of]. change (byte_of "0" =? 45) with false.
    change (byte_of "0" =? 48) with true. cbn iota.
    cbn. by rewrite H2, H3.
  - destruct (Z.ltb_spec x 0); [lia|]. apply scan_notation; [done|lia|done].
  - destruct (Z.ltb_spec x 0); [|lia]. rewrite str_app_cons.
    rewrite (scan_negative (- x)) by (done || lia). by rewrite Z.opp_involutive.
Qed.
End scan.

(** [dump_integer] is correct on the 64-bit range: every integer except the
    smallest one is written as its decimal notation, which fills the buffer exactly, and
    the lexer reads the same integer from the text, whatever follows that is not part of
    a number; for the smallest signed integer the program has no defined behaviour. *)
Theorem integers_read_back (strtod : string → Z) (decimal_point_char : ascii) (x : Z)
    (rest : string) :
  int64_min < x → x <= uint64_max → ends_number rest = true →
  ∃ t, dump_integer x = (t, Ret tt) ∧
    scan strtod decimal_point_char (t +:+ rest)
      = (if x <? 0 then value_integer x else value_unsigned x, rest).
Proof.
  unfold int64_min, uint64_max. intros H1 H2 Hr.
  destruct (dump_integer_text x) as (t & Hd & Ht); [lia|].
  exists t. split; [done|]. apply scan_integer; [done|lia|done].
Qed.

Lemma integers_read_back_witness :
  int64_min < -1234567 ∧ -1234567 <= uint64_max ∧ ends_number "," = true ∧
  ∃ t, dump_integer (-1234567) = (t, Ret tt) ∧
    demo_scan (t +:+ ",") = (value_integer (-1234567), ",").
Proof.
  split; [done|]. split; [done|]. split; [done|].
  apply (integers_read_back (λ _, 0) "." (-1234567) ","); done.
Defined.
