(* ===== verification/JsonUtf8.v ===== *)
(** * JSON: strings

    The serializer checks UTF-8 with a table-driven automaton ([decode]), the lexer with
    ranges of bytes ([next_byte_in_range]): they accept the same strings. A string that
    is written is read back; an exception leaves a text without a closing quote. *)

From Stdlib Require Import Ascii.
From stdpp Require Import base list strings numbers.
From S2P Require Import Prelude CppString Json JsonLexer JsonDump.

Local Open Scope Z_scope.

(** ** Checking all bytes *)

Definition all_bytes : list ascii := (λ n, ascii_of_N (N.of_nat n)) <$> seq 0 256.

Lemma forall_bytes (P : ascii → bool) : forallb P all_bytes = true → ∀ c, P c = true.
Proof.
  intros H c. rewrite forallb_forall in H. apply H. apply list_elem_of_In, list_elem_of_fmap.
  exists (N.to_nat (N_of_ascii c)). rewrite N2Nat.id, ascii_N_embedding. split; [done|].
  apply elem_of_seq. pose proof (N_ascii_bounded c). lia.
Qed.

Lemma byte_of_range c : 0 <= byte_of c < 256.
Proof. unfold byte_of. pose proof (N_ascii_bounded c). lia. Qed.

Example utf8d_size : length utf8d = 400%nat.
Proof. reflexivity. Qed.

(** ** The two UTF-8 automata *)

(** The continuation bytes a state of the serializer's automaton waits for. *)
Definition expects (state : Z) : option (list (Z * Z)) :=
  if state =? 0 then Some []
  else if state =? 2 then Some [(128, 191)]
  else if state =? 3 then Some [(128, 191); (128, 191)]
  else if state =? 4 then Some [(160, 191); (128, 191)]
  else if state =? 5 then Some [(128, 159); (128, 191)]
  else if state =? 6 then Some [(144, 191); (128, 191); (128, 191)]
  else if state =? 7 then Some [(128, 191); (128, 191); (128, 191)]
  else if state =? 8 then Some [(128, 143); (128, 191); (128, 191)]
  else None.

Definition next_state (state : Z) (c : ascii) : Z := (decode state 0 (byte_of c)).1.

Lemma decode_state state cp c : (decode state cp (byte_of c)).1 = next_state state c.
Proof. done. Qed.

(** A first byte of a longer sequence: the lexer's ranges are what the automaton's
    state expects, and both reject the same bytes. *)
Lemma lead_byte c :
  128 <= byte_of c →
  utf8_ranges (byte_of c) = expects (next_state 0 c) ∧ next_state 0 c ≠ 0 ∧
  (next_state 0 c ≠ 1 → expects (next_state 0 c) ≠ None).
Proof.
  intros Hc. set (P := λ c, (byte_of c <? 128) ||
    bool_decide (utf8_ranges (byte_of c) = expects (next_state 0 c) ∧ next_state 0 c ≠ 0 ∧
      (next_state 0 c = 1 ∨ expects (next_state 0 c) ≠ None))).
  assert (P c = true) as HP by (apply forall_bytes; vm_compute; reflexivity).
  unfold P in HP. destruct (Z.ltb_spec (byte_of c) 128); [lia|]. cbn [orb] in HP.
  apply bool_decide_eq_true in HP. tauto.
Qed.

Lemma ascii_byte c : byte_of c < 128 → next_state 0 c = 0.
Proof.
  intros Hc. assert ((128 <=? byte_of c) || (next_state 0 c =? 0) = true) as HP.
  { revert c Hc. assert (∀ c, (128 <=? byte_of c) || (next_state 0 c =? 0) = true) as H; [|auto].
    apply (forall_bytes (λ c, (128 <=? byte_of c) || (next_state 0 c =? 0))).
    vm_compute. reflexivity. }
  destruct (Z.leb_spec 128 (byte_of c)); [lia|]. by apply Z.eqb_eq.
Qed.

(** A continuation byte. *)
Definition continuation_ok (state : Z) (c : ascii) : bool :=
  match expects state with
  | Some ((lo, hi) :: ranges) =>
      if between lo hi (byte_of c)
      then bool_decide (expects (next_state state c) = Some ranges)
      else next_state state c =? 1
  | _ => true
  end.

Lemma continuation_byte state c lo hi ranges :
  2 <= state <= 8 → expects state = Some ((lo, hi) :: ranges) →
  if between lo hi (byte_of c) then expects (next_state state c) = Some ranges
  else next_state state c = 1.
Proof.
  intros Hs He. assert (continuation_ok state c = true) as Hok.
  { clear He. revert c. apply forall_bytes.
    assert (state = 2 ∨ state = 3 ∨ state = 4 ∨ state = 5 ∨ state = 6 ∨ state = 7 ∨ state = 8)
      as Hcases by lia.
    destruct_or! Hcases; subst state; vm_compute; reflexivity. }
  unfold continuation_ok in Hok. rewrite He in Hok. destruct (between lo hi (byte_of c)).
  - by apply bool_decide_eq_true in Hok.
  - by apply Z.eqb_eq in Hok.
Qed.

(** Lower bounds of the code point so far: a complete longer sequence is beyond the
    ASCII characters, so it is never escaped. *)
Definition low (state : Z) : Z :=
  if state =? 2 then 2 else if (state =? 4) || (state =? 6) then 0 else 1.

Definition codepoint_ok (state cp : Z) (ranges : list (Z * Z)) : Prop :=
  low state <= cp < 2 ^ (26 - 6 * Z.of_nat (length ranges)).

Lemma lead_codepoint c cp ranges :
  128 <= byte_of c → utf8_ranges (byte_of c) = Some ranges →
  codepoint_ok (next_state 0 c) (decode 0 cp (byte_of c)).2 ranges.
Proof.
  intros Hc Hr. change (decode 0 cp (byte_of c)).2 with (decode 0 0 (byte_of c)).2.
  set (P := λ c, match utf8_ranges (byte_of c) with
    | Some ranges => (low (next_state 0 c) <=? (decode 0 0 (byte_of c)).2) &&
        ((decode 0 0 (byte_of c)).2 <? 2 ^ (26 - 6 * Z.of_nat (length ranges)))
    | None => true
    end).
  assert (P c = true) as HP by (apply forall_bytes; vm_compute; reflexivity).
  unfold P in HP. rewrite Hr in HP. apply andb_true_iff in HP as [H1 H2].
  split; [by apply Z.leb_le|by apply Z.ltb_lt].
Qed.

Lemma land_shifted a b : 0 <= a < 2 ^ 6 → Z.land a (b * 2 ^ 6) = 0.
Proof.
  intros Ha. apply Z.bits_inj'. intros n Hn. rewrite Z.land_spec, Z.bits_0.
  destruct (Z.lt_ge_cases n 6).
  - rewrite Z.mul_pow2_bits_low by done. apply andb_false_r.
  - rewrite <- (Z.mod_small a (2 ^ 6)) by done. rewrite Z.mod_pow2_bits_high by lia. done.
Qed.

Lemma lor_bounds a cp k :
  0 <= a < 2 ^ 6 → 0 <= cp < 2 ^ k → 0 <= k <= 26 →
  let cp' := Z.lor a (Z.shiftl cp 6 mod 2 ^ 32) in
  a <= cp' ∧ 64 * cp <= cp' ∧ cp' < 2 ^ (k + 6).
Proof.
  intros Ha Hcp Hk. cbv zeta. rewrite Z.shiftl_mul_pow2 by lia.
  assert (2 ^ k <= 2 ^ 26) by (apply Z.pow_le_mono_r; lia).
  rewrite Z.mod_small by lia.
  pose proof (Z.add_lor_land a (cp * 2 ^ 6)) as Hl. rewrite land_shifted in Hl by done.
  rewrite Z.pow_add_r by lia. nia.
Qed.

Lemma continuation_codepoint state cp c lo hi ranges :
  2 <= state <= 8 → expects state = Some ((lo, hi) :: ranges) →
  between lo hi (byte_of c) = true → codepoint_ok state cp ((lo, hi) :: ranges) →
  let cp' := (decode state cp (byte_of c)).2 in
  if bool_decide (ranges = []) then 128 <= cp'
  else codepoint_ok (next_state state c) cp' ranges.
Proof.
  intros Hs He Hb [Hlow Hup]. cbv zeta.
  pose proof (continuation_byte state c lo hi ranges Hs He) as Hn. rewrite Hb in Hn.
  unfold between in Hb. apply andb_true_iff in Hb as [H1%Z.leb_le H2%Z.leb_le].
  assert ((decode state cp (byte_of c)).2 = Z.lor (Z.land (byte_of c) 63) (Z.shiftl cp 6 mod 2 ^ 32))
    as ->.
  { unfold decode. destruct (Z.eqb_spec state UTF8_ACCEPT) as [->|]; [unfold UTF8_ACCEPT in Hs; lia|done]. }
  assert (Z.land (byte_of c) 63 = byte_of c mod 2 ^ 6) as -> by by rewrite <- Z.land_ones.
  assert (0 <= cp) by (unfold low in Hlow; repeat case_match; lia).
  destruct (lor_bounds (byte_of c mod 2 ^ 6) cp (26 - 6 * Z.of_nat (length ((lo, hi) :: ranges))))
    as (Ha & Hc & Hu).
  { by apply Z.mod_pos_bound. }
  { done. }
  { cbn [length] in *. destruct ranges as [|? [|? [|? ?]]]; cbn in *; try lia.
    exfalso. unfold expects in He. repeat case_match; simplify_eq. }
  cbv zeta in *. set (cp' := Z.lor _ _) in *.
  assert (byte_of c mod 2 ^ 6 = byte_of c - 128) as Hm.
  { assert (128 <= lo ∧ hi <= 191) by (unfold expects in He; repeat case_match; simplify_eq; lia).
    symmetry. apply (Z.mod_unique _ _ 2); lia. }
  assert (2 <= cp' ∧ (ranges = [] → 128 <= cp')) as [H2' H128].
  { assert (state = 2 ∨ state = 3 ∨ state = 4 ∨ state = 5 ∨ state = 6 ∨ state = 7 ∨ state = 8)
      as Hcases by lia.
    destruct_or! Hcases; subst state; vm_compute in He; simplify_eq;
      unfold low in Hlow; cbn in Hlow; split; try done; lia. }
  case_bool_decide as Hr; [by apply H128|]. split.
  - unfold low. repeat case_match; lia.
  - eapply Z.lt_le_trans; [exact Hu|]. apply Z.pow_le_mono_r; cbn [length]; lia.
Qed.

(** ** Escaped strings *)

(** The text of an accepted string, without the buffer. *)
Fixpoint escaped (s : string) (state cp : Z) : option string :=
  match s with
  | EmptyString => if state =? UTF8_ACCEPT then Some "" else None
  | String c s =>
      let '(state, cp) := decode state cp (byte_of c) in
      if state =? UTF8_ACCEPT then (λ t, escape cp c +:+ t) <$> escaped s state cp
      else if state =? UTF8_REJECT then None
      else (λ t, String c t) <$> escaped s state cp
  end.

(** The bytes of an unfinished character are in the buffer, at most three of them. *)
Definition pending (state : Z) : Z :=
  if state =? 0 then 0 else if state =? 2 then 3 else if state <=? 5 then 2 else 1.

Definition room (state : Z) (buf : string) : Prop :=
  0 <= state <= 8 ∧ size buf <= string_buffer_size - 13 + pending state.

Lemma room_accept buf : size buf <= string_buffer_size - 13 → room UTF8_ACCEPT buf.
Proof. unfold room, UTF8_ACCEPT. cbn. lia. Qed.

Lemma pending_bounds state : 0 <= pending state <= 3.
Proof. unfold pending. repeat case_match; lia. Qed.

Lemma pending_step state c :
  0 <= state <= 8 → state ≠ 1 → next_state state c ≠ 0 → next_state state c ≠ 1 →
  2 <= next_state state c <= 8 ∧ pending state + 1 <= pending (next_state state c).
Proof.
  intros Hs H1 Hn0 Hn1.
  set (P := λ c, let s' := next_state state c in (s' =? 0) || (s' =? 1) ||
    ((2 <=? s') && (s' <=? 8) && (pending state + 1 <=? pending s'))).
  assert (P c = true) as HP.
  { assert (state = 0 ∨ state = 2 ∨ state = 3 ∨ state = 4 ∨ state = 5 ∨ state = 6 ∨ state = 7 ∨
      state = 8) as Hcases by lia. subst P. clear Hn0 Hn1.
    revert c. apply forall_bytes. destruct_or! Hcases; subst state; vm_compute; reflexivity. }
  unfold P in HP. destruct (Z.eqb_spec (next_state state c) 0); [done|].
  destruct (Z.eqb_spec (next_state state c) 1); [done|]. cbn [orb] in HP.
  apply andb_true_iff in HP as [[H2 H8]%andb_true_iff Hp]. lia.
Qed.

Lemma size_escape cp c : size (escape cp c) <= 6.
Proof. unfold escape. repeat case_match; done. Qed.

Lemma room_no_overflow state buf added :
  room state buf → size added <= 6 → overflows (buf +:+ added) = false.
Proof.
  intros [_ Hr] Ha. pose proof (pending_bounds state). unfold overflows, string_buffer_size in *.
  rewrite size_app. apply Z.leb_gt. lia.
Qed.

Lemma dump_escaped_loop_text s state cp out buf :
  room state buf → state ≠ 1 →
  match escaped s state cp with
  | Some t => dump_escaped_loop s state cp out buf = (out +:+ buf +:+ t, Ret tt)
  | None => ∃ o, dump_escaped_loop s state cp out buf = (o, Stop (Thrown (JsonTypeError 316)))
  end.
Proof.
  revert state cp out buf.
  induction s as [|c s IH]; intros state cp out buf Hroom Hs; cbn [escaped dump_escaped_loop].
  { destruct (state =? UTF8_ACCEPT); [|by eexists]. by rewrite str_app_nil_r. }
  pose proof (pending_step state c (proj1 Hroom) Hs) as Hp. rewrite <- (decode_state _ cp) in Hp.
  destruct (decode state cp (byte_of c)) as [state' cp']. cbn [fst] in Hp.
  destruct (Z.eqb_spec state' UTF8_ACCEPT) as [->|Hacc].
  - rewrite (room_no_overflow state) by (done || apply size_escape).
    destruct (Z.ltb_spec (string_buffer_size - size (buf +:+ escape cp' c)) 13) as [Hf|Hf];
      [specialize (IH UTF8_ACCEPT cp' (out +:+ buf +:+ escape cp' c) "")
      |specialize (IH UTF8_ACCEPT cp' out (buf +:+ escape cp' c))];
      destruct (escaped s _ cp') as [t|]; cbn [fmap option_fmap option_map];
      try (apply IH; [apply room_accept; first [lia|done]|done]);
      (rewrite IH; [|apply room_accept; first [lia|done]|done]);
      by rewrite ?str_app_nil_l, ?str_app_assoc.
  - destruct (Z.eqb_spec state' UTF8_REJECT) as [->|Hrej]; [by eexists|].
    rewrite (room_no_overflow state) by done.
    destruct (Hp Hacc Hrej) as [Hs' Hpend].
    assert (room state' (buf +:+ String c "")) as Hroom'.
    { split; [lia|]. rewrite size_app. destruct Hroom as [_ Hb].
      change (size (String c "")) with 1. lia. }
    specialize (IH state' cp' out (buf +:+ String c "") Hroom' ltac:(lia)).
    destruct (escaped s state' cp') as [t|]; cbn [fmap option_fmap option_map]; [|done].
    rewrite IH. by rewrite !str_app_assoc, str_app_cons, str_app_nil_l.
Qed.

Lemma dump_escaped_text s :
  match escaped s 0 0 with
  | Some t => dump_escaped s = (t, Ret tt)
  | None => ∃ o, dump_escaped s = (o, Stop (Thrown (JsonTypeError 316)))
  end.
Proof.
  assert (room UTF8_ACCEPT "") as Hr by by apply room_accept.
  pose proof (dump_escaped_loop_text s UTF8_ACCEPT 0 "" "" Hr ltac:(done)) as H.
  change UTF8_ACCEPT with 0 in H. destruct (escaped s 0 0) as [t|]; [|done].
  unfold dump_escaped. change UTF8_ACCEPT with 0. by rewrite H, !str_app_nil_l.
Qed.

Lemma dump_escaped_ret s t : dump_escaped s = (t, Ret tt) ↔ escaped s 0 0 = Some t.
Proof.
  pose proof (dump_escaped_text s) as H. destruct (escaped s 0 0) as [t'|].
  - rewrite H. split; intros; by simplify_eq.
  - destruct H as [o ->]. split; intros; by simplify_eq.
Qed.

(** In the accepting state the code point so far does not matter. *)
Lemma escaped_accept s cp cp' : escaped s 0 cp = escaped s 0 cp'.
Proof. by destruct s. Qed.

(** An ASCII character is scanned back from its escape. *)
Lemma scan_ascii c rest :
  byte_of c < 128 → scan_item (escape (byte_of c) c +:+ rest) = Add (String c "") rest.
Proof.
  intros Hc. destruct c as [[] [] [] [] [] [] [] []];
    try (exfalso; vm_compute in Hc; done); reflexivity.
Qed.

Lemma escape_high cp c : 128 <= cp → escape cp c = String c "".
Proof.
  intros Hcp. unfold escape. repeat (case_match; [lia|]). done.
Qed.

Lemma expects_nil state : expects state = Some [] → state = 0.
Proof. unfold expects. destruct (Z.eqb_spec state 0); [done|]. repeat case_match; done. Qed.

Lemma expects_cons state r ranges : expects state = Some (r :: ranges) → 2 <= state <= 8.
Proof.
  unfold expects. repeat case_match; intros; simplify_eq; lia.
Qed.

Lemma next_byte_cons lo hi ranges c s added rest :
  between lo hi (byte_of c) = true → next_byte_in_range ranges s = Some (added, rest) →
  next_byte_in_range ((lo, hi) :: ranges) (String c s) = Some (String c added, rest).
Proof. intros Hb Hn. cbn [next_byte_in_range]. by rewrite Hb, Hn. Qed.

(** The bytes of a longer sequence are copied, and the lexer takes them in its ranges. *)
Lemma scan_continuation ranges s state cp t :
  expects state = Some ranges → ranges ≠ [] → codepoint_ok state cp ranges →
  escaped s state cp = Some t →
  ∃ added s' t', s = added +:+ s' ∧ t = added +:+ t' ∧ escaped s' 0 0 = Some t' ∧
    (String.length s' < String.length s)%nat ∧
    ∀ rest, next_byte_in_range ranges (t +:+ rest) = Some (added, t' +:+ rest).
Proof.
  revert s state cp t. induction ranges as [|[lo hi] ranges IH]; [done|].
  intros s state cp t He _ Hcp Ht. pose proof (expects_cons _ _ _ He) as Hs.
  destruct s as [|c s]; cbn [escaped] in Ht.
  { destruct (Z.eqb_spec state UTF8_ACCEPT); [unfold UTF8_ACCEPT in *; lia|done]. }
  pose proof (continuation_byte state c lo hi ranges Hs He) as Hn.
  pose proof (continuation_codepoint state cp c lo hi ranges Hs He) as Hc.
  rewrite <- (decode_state _ cp) in Hn, Hc.
  destruct (decode state cp (byte_of c)) as [state' cp']. cbn [fst snd] in *.
  destruct (between lo hi (byte_of c)) eqn:Hb; [|by rewrite Hn in Ht].
  specialize (Hc eq_refl Hcp). cbv zeta in Hc.
  destruct ranges as [|r ranges]; cbn [bool_decide] in Hc.
  - apply expects_nil in Hn as ->. change (0 =? UTF8_ACCEPT) with true in Ht. cbn iota in Ht.
    destruct (escaped s 0 cp') as [t0|] eqn:Ht0; [|done]. cbn in Ht. injection Ht as <-.
    rewrite escape_high by exact Hc. exists (String c ""), s, t0.
    rewrite !str_app_cons, !str_app_nil_l. split; [done|]. split; [done|].
    split; [by rewrite (escaped_accept _ _ cp')|]. split; [cbn; lia|].
    intros rest. rewrite str_app_cons. by apply next_byte_cons.
  - pose proof (expects_cons _ _ _ Hn) as Hs'.
    destruct (Z.eqb_spec state' UTF8_ACCEPT); [unfold UTF8_ACCEPT in *; lia|].
    destruct (Z.eqb_spec state' UTF8_REJECT); [unfold UTF8_REJECT in *; lia|].
    destruct (escaped s state' cp') as [t0|] eqn:Ht0; [|done]. cbn in Ht. injection Ht as <-.
    destruct (IH s state' cp' t0) as (added & s' & t' & -> & -> & Hs0 & Hl & Hnext); try done.
    exists (String c added), s', t'. rewrite !str_app_cons. split; [done|]. split; [done|].
    split; [done|]. split; [cbn; lia|]. intros rest.
    rewrite str_app_cons. by apply next_byte_cons.
Qed.

(** One step of the lexer on the text of a string. *)
Lemma scan_escaped_item s t :
  escaped s 0 0 = Some t →
  (s = "" ∧ t = "") ∨
  ∃ added s' t', s = added +:+ s' ∧ escaped s' 0 0 = Some t' ∧
    (String.length s' < String.length s)%nat ∧
    ∀ rest, scan_item (t +:+ rest) = Add added (t' +:+ rest).
Proof.
  destruct s as [|c s]; cbn [escaped].
  { change (0 =? UTF8_ACCEPT) with true. intros [= <-]. by left. }
  intros Ht. right. destruct (Z.lt_ge_cases (byte_of c) 128) as [Hc|Hc].
  - pose proof (ascii_byte c Hc) as Hn. unfold next_state in Hn.
    assert ((decode 0 0 (byte_of c)).2 = byte_of c) as Hcp.
    { revert c Hc Ht Hn. assert (∀ c, (128 <=? byte_of c) || ((decode 0 0 (byte_of c)).2 =? byte_of c) = true)
        as H; [|intros c Hc _ _; specialize (H c); apply orb_true_iff in H as [H|H]; lia].
      apply (forall_bytes (λ c, (128 <=? byte_of c) || ((decode 0 0 (byte_of c)).2 =? byte_of c))).
      vm_compute. reflexivity. }
    destruct (decode 0 0 (byte_of c)) as [state' cp']. cbn [fst snd] in *. subst state' cp'.
    change (0 =? UTF8_ACCEPT) with true in Ht. cbn iota in Ht.
    destruct (escaped s 0 (byte_of c)) as [t0|] eqn:Ht0; [|done]. cbn in Ht. injection Ht as <-.
    exists (String c ""), s, t0. rewrite str_app_cons, str_app_nil_l. split; [done|].
    split; [by rewrite (escaped_accept _ _ (byte_of c))|]. split; [cbn; lia|].
    intros rest. rewrite str_app_assoc. by apply scan_ascii.
  - destruct (lead_byte c Hc) as (Hr & Hn0 & Hn1).
    pose proof (lead_codepoint c 0) as Hcp. unfold next_state in *.
    destruct (decode 0 0 (byte_of c)) as [state' cp']. cbn [fst snd] in *.
    destruct (Z.eqb_spec state' UTF8_ACCEPT); [done|].
    destruct (Z.eqb_spec state' UTF8_REJECT); [done|].
    destruct (escaped s state' cp') as [t0|] eqn:Ht0; [|done]. cbn in Ht. injection Ht as <-.
    destruct (expects state') as [ranges|] eqn:He; [|by destruct Hn1].
    destruct ranges as [|r ranges]; [by apply expects_nil in He|].
    destruct (scan_continuation (r :: ranges) s state' cp' t0) as (added & s' & t' & -> & -> & Hs' & Hl & Hnext);
      try done.
    { by apply Hcp. }
    exists (String c added), s', t'. rewrite str_app_cons. split; [done|]. split; [done|].
    split; [cbn; lia|]. intros rest. rewrite str_app_cons.
    assert (34 < byte_of c ∧ 92 < byte_of c ∧ 127 < byte_of c) as (? & ? & ?) by lia.
    unfold scan_item, control_character, plain_character.
    destruct (Z.eqb_spec (byte_of c) 34); [lia|].
    destruct (Z.eqb_spec (byte_of c) 92); [lia|]. destruct (Z.leb_spec (byte_of c) 31); [lia|].
    destruct (Z.leb_spec (byte_of c) 127); [lia|]. by rewrite Hr, Hnext.
Qed.

Lemma scan_string_escaped s t :
  escaped s 0 0 = Some t → ∀ rest, scan_string (t +:+ quote +:+ rest) = (value_string s, rest).
Proof.
  intros Ht rest. unfold scan_string.
  cut (∀ buf fuel, (String.length (t +:+ quote +:+ rest) < fuel)%nat →
    scan_string_loop fuel buf (t +:+ quote +:+ rest) = (value_string (buf +:+ s), rest)).
  { intros H. by rewrite H by lia. }
  revert t Ht. induction s as [s IH] using (induction_ltof1 _ String.length). unfold ltof in IH.
  intros t Ht buf [|fuel] Hf; [lia|]. cbn [scan_string_loop].
  destruct (scan_escaped_item s t Ht) as [[-> ->]|(added & s' & t' & -> & Ht' & Hl & Hi)].
  - rewrite str_app_nil_l, str_app_nil_r. unfold quote.
    rewrite str_app_cons, str_app_nil_l. done.
  - pose proof (scan_item_length (t +:+ quote +:+ rest)) as Hlen. rewrite Hi in Hlen |- *.
    rewrite (IH s' Hl t' Ht') by lia. by rewrite str_app_assoc.
Qed.

(** An unfinished string: only whole characters have been flushed from the buffer. *)
Lemma dump_escaped_loop_stop s state cp out buf sofar t w :
  (∃ s', escaped s' 0 0 = Some out) →
  (∀ u, escaped (sofar +:+ u) 0 0 = (λ t, out +:+ buf +:+ t) <$> escaped u state cp) →
  dump_escaped_loop s state cp out buf = (t, Stop w) →
  ∃ s', escaped s' 0 0 = Some t.
Proof.
  revert state cp out buf sofar.
  induction s as [|c s IH]; intros state cp out buf sofar Hout Hinv; cbn [dump_escaped_loop].
  { destruct (state =? UTF8_ACCEPT); [done|]. by intros [= <- _]. }
  assert (∀ u, escaped ((sofar +:+ String c "") +:+ u) 0 0
    = (λ t, out +:+ buf +:+ t) <$> escaped (String c u) state cp) as Hc.
  { intros u. by rewrite str_app_assoc, str_app_cons, str_app_nil_l. }
  cbn [escaped] in Hc. destruct (decode state cp (byte_of c)) as [state' cp'].
  destruct (Z.eqb_spec state' UTF8_ACCEPT) as [->|].
  - assert (∀ u, escaped ((sofar +:+ String c "") +:+ u) 0 0
      = (λ t, out +:+ (buf +:+ escape cp' c) +:+ t) <$> escaped u UTF8_ACCEPT cp') as Hc'.
    { intros u. rewrite Hc. destruct (escaped u _ cp'); [|done]. cbn.
      by rewrite !str_app_assoc. }
    destruct (overflows _); [by intros [= <- _]|].
    destruct (_ <? 13); [|by apply (IH _ _ _ _ (sofar +:+ String c ""))].
    apply (IH _ _ _ _ (sofar +:+ String c "")).
    + exists ((sofar +:+ String c "") +:+ ""). rewrite Hc'. cbn. by rewrite str_app_nil_r.
    + intros u. rewrite Hc'. destruct (escaped u _ cp'); [|done]. cbn.
      by rewrite str_app_nil_l, !str_app_assoc.
  - destruct (state' =? UTF8_REJECT); [by intros [= <- _]|].
    destruct (overflows _); [by intros [= <- _]|].
    apply (IH _ _ _ _ (sofar +:+ String c "")); [done|]. intros u. rewrite Hc.
    destruct (escaped u _ cp'); [|done]. cbn. by rewrite !str_app_assoc, str_app_cons, str_app_nil_l.
Qed.

Lemma dump_escaped_stop s t w :
  dump_escaped s = (t, Stop w) → ∃ s', escaped s' 0 0 = Some t.
Proof.
  apply (dump_escaped_loop_stop s _ _ _ _ ""); [by exists ""|]. intros u.
  rewrite str_app_nil_l. change UTF8_ACCEPT with 0. destruct (escaped u 0 0); [|done]. cbn.
  by rewrite !str_app_nil_l.
Qed.

(** The text of a string without its closing quote. *)
Lemma scan_string_unfinished s t :
  escaped s 0 0 = Some t → ∃ rest, scan_string t = (parse_error, rest).
Proof.
  intros Ht. unfold scan_string.
  cut (∀ buf fuel, (String.length t < fuel)%nat →
    ∃ rest, scan_string_loop fuel buf t = (parse_error, rest)).
  { intros H. apply H. lia. }
  revert t Ht. induction s as [s IH] using (induction_ltof1 _ String.length). unfold ltof in IH.
  intros t Ht buf [|fuel] Hf; [lia|]. cbn [scan_string_loop].
  destruct (scan_escaped_item s t Ht) as [[-> ->]|(added & s' & t' & -> & Ht' & Hl & Hi)].
  - by exists "".
  - specialize (Hi ""). rewrite !str_app_nil_r in Hi.
    pose proof (scan_item_length t) as Hlen. rewrite Hi in Hlen |- *. apply (IH s'); [done..|lia].
Qed.

(** ** Well-formed strings *)

(** A sequence of characters: ASCII, or a first byte and the bytes its ranges ask for
    (table 3-7 of the Unicode standard, as [scan_string] lists it). *)
Inductive well_formed : string → Prop :=
  | wf_nil : well_formed ""
  | wf_ascii c s : byte_of c < 128 → well_formed s → well_formed (String c s)
  | wf_sequence c ranges added s :
      128 <= byte_of c → utf8_ranges (byte_of c) = Some ranges →
      next_byte_in_range ranges (added +:+ s) = Some (added, s) →
      well_formed s → well_formed (String c (added +:+ s)).

(** What follows the bytes does not matter. *)
Lemma next_byte_extend ranges added s :
  next_byte_in_range ranges (added +:+ s) = Some (added, s) →
  ∀ s', next_byte_in_range ranges (added +:+ s') = Some (added, s').
Proof.
  revert added. induction ranges as [|[lo hi] ranges IH]; intros added Hn s'.
  - cbn in *. injection Hn as <- _. by rewrite str_app_nil_l.
  - destruct added as [|c added].
    { rewrite str_app_nil_l in Hn. cbn in Hn. destruct s as [|c s]; [done|].
      destruct (between lo hi (byte_of c)); [|done].
      destruct (next_byte_in_range ranges s) as [[? ?]|]; discriminate Hn. }
    rewrite str_app_cons in *. cbn [next_byte_in_range] in *.
    destruct (between lo hi (byte_of c)); [|done].
    destruct (next_byte_in_range ranges (added +:+ s)) as [[a r]|] eqn:Ha; [|done].
    cbn in Hn. injection Hn as -> ->. by rewrite (IH added Ha s').
Qed.

Lemma escaped_well_formed s t : escaped s 0 0 = Some t → well_formed s.
Proof.
  revert t. induction s as [s IH] using (induction_ltof1 _ String.length). unfold ltof in IH.
  intros t Ht. destruct s as [|c s]; [constructor|].
  destruct (Z.lt_ge_cases (byte_of c) 128) as [Hc|Hc].
  - pose proof (ascii_byte c Hc) as Hn. rewrite <- (decode_state _ 0) in Hn. cbn [escaped] in Ht.
    destruct (decode 0 0 (byte_of c)) as [state' cp']. cbn [fst] in Hn. subst state'.
    change (0 =? UTF8_ACCEPT) with true in Ht. cbn iota in Ht.
    rewrite (escaped_accept _ _ 0) in Ht. destruct (escaped s 0 0) as [t0|] eqn:Ht0; [|done].
    apply wf_ascii; [done|]. apply (IH s ltac:(cbn; lia) t0 Ht0).
  - destruct (lead_byte c Hc) as (Hr & Hn0 & Hn1). pose proof (lead_codepoint c 0) as Hcp.
    unfold next_state in *. cbn [escaped] in Ht.
    destruct (decode 0 0 (byte_of c)) as [state' cp']. cbn [fst snd] in *.
    destruct (Z.eqb_spec state' UTF8_ACCEPT); [done|].
    destruct (Z.eqb_spec state' UTF8_REJECT); [done|].
    destruct (escaped s state' cp') as [t0|] eqn:Ht0; [|done].
    destruct (expects state') as [ranges|] eqn:He; [|by destruct Hn1].
    destruct ranges as [|r ranges]; [by apply expects_nil in He|].
    destruct (scan_continuation (r :: ranges) s state' cp' t0)
      as (added & s' & t' & -> & -> & Hs' & Hl & Hnext); try done; [by apply Hcp|].
    apply (wf_sequence c (r :: ranges)); [done|done| |].
    + apply (next_byte_extend _ _ t'). specialize (Hnext ""). by rewrite !str_app_nil_r in Hnext.
    + apply (IH s' ltac:(cbn; lia) t' Hs').
Qed.

Lemma escaped_sequence ranges state cp added s t :
  expects state = Some ranges → ranges ≠ [] →
  next_byte_in_range ranges (added +:+ s) = Some (added, s) → escaped s 0 0 = Some t →
  is_Some (escaped (added +:+ s) state cp).
Proof.
  revert state cp added. induction ranges as [|[lo hi] ranges IH]; [done|].
  intros state cp added He _ Hn Ht. pose proof (expects_cons _ _ _ He) as Hs.
  destruct added as [|c added].
  { rewrite str_app_nil_l in Hn. cbn in Hn. destruct s as [|c s]; [done|].
    destruct (between lo hi (byte_of c)); [|done].
    destruct (next_byte_in_range ranges s) as [[? ?]|]; discriminate Hn. }
  rewrite str_app_cons in *. cbn [next_byte_in_range] in Hn.
  pose proof (continuation_byte state c lo hi ranges Hs He) as Hb.
  destruct (between lo hi (byte_of c)); [|done].
  destruct (next_byte_in_range ranges (added +:+ s)) as [[a r]|] eqn:Ha; [|done].
  cbn in Hn. injection Hn as -> ->. cbn [escaped].
  rewrite <- (decode_state _ cp) in Hb. destruct (decode state cp (byte_of c)) as [state' cp'].
  cbn [fst] in Hb. destruct ranges as [|r ranges].
  - apply expects_nil in Hb as ->. cbn in Ha. injection Ha as <-. rewrite str_app_nil_l.
    change (0 =? UTF8_ACCEPT) with true. cbn iota. rewrite (escaped_accept _ _ 0), Ht. by eexists.
  - pose proof (expects_cons _ _ _ Hb).
    destruct (Z.eqb_spec state' UTF8_ACCEPT); [unfold UTF8_ACCEPT in *; lia|].
    destruct (Z.eqb_spec state' UTF8_REJECT); [unfold UTF8_REJECT in *; lia|].
    destruct (IH state' cp' added Hb ltac:(done) Ha Ht) as [t0 ->]. by eexists.
Qed.

Lemma well_formed_escaped s : well_formed s → is_Some (escaped s 0 0).
Proof.
  induction 1 as [|c s Hc Hs [t Ht]|c ranges added s Hc Hr Hn Hs [t Ht]]; [by eexists|..];
    cbn [escaped].
  - pose proof (ascii_byte c Hc) as Hn. rewrite <- (decode_state _ 0) in Hn.
    destruct (decode 0 0 (byte_of c)) as [state' cp']. cbn [fst] in Hn. subst state'.
    change (0 =? UTF8_ACCEPT) with true. cbn iota. rewrite (escaped_accept _ _ 0), Ht. by eexists.
  - destruct (lead_byte c Hc) as (Hr' & Hn0 & Hn1). rewrite Hr in Hr'.
    unfold next_state in *. destruct (decode 0 0 (byte_of c)) as [state' cp']. cbn [fst] in *.
    destruct ranges as [|r ranges]; [symmetry in Hr'; by apply expects_nil in Hr'|].
    pose proof (expects_cons _ _ _ (eq_sym Hr')).
    destruct (Z.eqb_spec state' UTF8_ACCEPT); [done|].
    destruct (Z.eqb_spec state' UTF8_REJECT); [unfold UTF8_REJECT in *; lia|].
    destruct (escaped_sequence (r :: ranges) state' cp' added s t) as [t0 ->]; try done.
Qed.

(** The two UTF-8 validators of the library agree: the serializer's automaton writes
    a string without an exception exactly when the string is a sequence of characters
    as the lexer's byte ranges describe them; every other string is refused with type
    error 316. In neither case is the buffer of 512 bytes written beyond its end. *)
Theorem utf8_validators_agree (s : string) :
  (∃ t, dump_escaped s = (t, Ret tt) ∧ well_formed s) ∨
  (∃ t, dump_escaped s = (t, Stop (Thrown (JsonTypeError 316))) ∧ ¬ well_formed s).
Proof.
  pose proof (dump_escaped_text s) as H. destruct (escaped s 0 0) as [t|] eqn:Ht.
  - left. exists t. split; [done|]. by eapply escaped_well_formed.
  - right. destruct H as [o ->]. exists o. split; [done|]. intros Hwf.
    apply well_formed_escaped in Hwf as [t Ht']. congruence.
Qed.
