(* ===== verification/JsonRoundTrip.v ===== *)
(** * JSON: what is written is read back

    A storable value that has been written without an exception is accepted and parsed
    back; what an exception has cut off is not accepted. This is the contract
    [TextLaws] the storage relies on. *)

From Stdlib Require Import Ascii.
From stdpp Require Import base list strings numbers sorting.
From S2P Require Import Prelude CppString Json JsonLexer JsonParser JsonDump JsonNumbers JsonUtf8.

Local Open Scope Z_scope.

(** ** Values *)

Lemma and_then_ret w1 w2 t :
  (w1 &> w2) = (t, Ret tt) ↔ ∃ t1 t2, w1 = (t1, Ret tt) ∧ w2 = (t2, Ret tt) ∧ t = t1 +:+ t2.
Proof.
  destruct w1 as [s1 [[]|w]], w2 as [s2 o]; cbn; split.
  - intros [= <- ->]. eauto.
  - by intros (t1 & t2 & [= ->] & [= -> ->] & ->).
  - done.
  - by intros (t1 & t2 & ? & _).
Qed.

Lemma and_then_stop w1 w2 t e :
  (w1 &> w2) = (t, Stop e) →
  w1 = (t, Stop e) ∨ ∃ t1 t2, w1 = (t1, Ret tt) ∧ w2 = (t2, Stop e) ∧ t = t1 +:+ t2.
Proof.
  destruct w1 as [s1 [[]|w]], w2 as [s2 o]; cbn; [|by left]. intros [= <- ->]. right. eauto.
Qed.

Lemma write_ret s t : write s = (t, Ret tt) ↔ t = s.
Proof. unfold write. split; [by intros [= ->]|by intros ->]. Qed.

(** Members that are in order are put back in the same order. *)
Lemma assign_last {V} key (v : V) ms :
  Forall (λ k, key_lt k key) ms.*1 → assign key v ms = ms ++ [(key, v)].
Proof.
  induction ms as [|[k w] ms IH]; cbn; [done|]. rewrite list.Forall_cons. intros [[Hle Hne] Hall].
  rewrite decide_False by done. rewrite decide_False; [by rewrite IH|].
  intros Hle'. by apply Hne, (anti_symm String.le).
Qed.

Lemma foldl_assign_ok {V} (acc ms : list (string * V)) :
  members_ok (acc ++ ms) → foldl (λ o m, assign m.1 m.2 o) acc ms = acc ++ ms.
Proof.
  revert acc. induction ms as [|[k v] ms IH]; intros acc Hok; cbn; [by rewrite app_nil_r|].
  rewrite assign_last.
  - rewrite IH; by rewrite <- app_assoc.
  - unfold members_ok in Hok. rewrite fmap_app in Hok.
    apply Forall_forall. intros x Hx.
    eapply StronglySorted_app_1_elem_of; [exact Hok|done|]. by left.
Qed.

Section values.
Context (strtod : string → Z) (decimal_point_char : ascii) (isfinite : Z → bool)
  (float_text : Z → string).
Notation scan := (scan strtod decimal_point_char).
Notation loop := (sax_parse_internal strtod decimal_point_char isfinite).
Notation after_key := (after_key strtod decimal_point_char).
Notation dump := (json_dump isfinite float_text).

(** The parser, on the text [t] and whatever follows it, completes the value [j]. *)
Definition reads (t : string) (j : json) : Prop :=
  ∃ n, ∀ stack rest fuel, ends_number rest = true →
    ∃ tok s, scan (t +:+ rest) = (tok, s) ∧ starts_value tok = true ∧
      loop (n + fuel) stack (OnToken tok) s = loop fuel stack (OnValue j) rest.

(** A value of one token. *)
Lemma reads_token t j tok :
  starts_value tok = true →
  (∀ rest, ends_number rest = true → scan (t +:+ rest) = (tok, rest)) →
  (∀ stack s, on_token strtod decimal_point_char isfinite stack tok s
    = Continue stack (OnValue j) s) →
  reads t j.
Proof.
  intros Htok Hscan Hon. exists 1%nat. intros stack rest fuel Hr. exists tok, rest.
  split; [by apply Hscan|]. split; [done|]. cbn [Nat.add sax_parse_internal sax_step].
  by rewrite Hon.
Qed.

Lemma scan_quoted s t rest :
  escaped s 0 0 = Some t →
  scan (quote +:+ t +:+ quote +:+ rest) = (value_string s, rest).
Proof.
  intros Ht. unfold quote at 1. rewrite str_app_cons, str_app_nil_l.
  by apply (scan_string_escaped s t Ht rest).
Qed.

Lemma scan_comma s : scan ("," +:+ s) = (value_separator, s).
Proof. done. Qed.

Lemma scan_colon s : scan (":" +:+ s) = (name_separator, s).
Proof. done. Qed.

(** The elements of an array, up to its bracket. *)
Lemma reads_elements js te :
  js ≠ [] → Forall (λ j, ∀ t, dump j = (t, Ret tt) → reads t j) js →
  separated dump js = (te, Ret tt) →
  ∃ n, ∀ stack es rest fuel, ∃ tok s,
    scan (te +:+ "]" +:+ rest) = (tok, s) ∧ starts_value tok = true ∧
    loop (n + fuel) (InArray es :: stack) (OnToken tok) s
      = loop fuel stack (OnValue (JArray (es ++ js))) rest.
Proof.
  intros Hne Hall. revert te Hne. induction Hall as [|j js Hj Hall IH]; intros te Hne Hte; [done|].
  destruct js as [|j' js]; cbn [separated] in Hte.
  - apply Hj in Hte as [n Hn]. exists (n + 1)%nat. intros stack es rest fuel.
    destruct (Hn (InArray es :: stack) ("]" +:+ rest) (1 + fuel)%nat eq_refl)
      as (tok & s & Hs & Ht & Hl).
    exists tok, s. split; [done|]. split; [done|]. rewrite <- Nat.add_assoc, Hl. reflexivity.
  - apply and_then_ret in Hte as (t0 & t2 & Hte & H2 & ->).
    apply and_then_ret in Hte as (t1 & tc & H1 & ->%write_ret & ->).
    apply Hj in H1 as [n Hn]. destruct (IH t2 ltac:(done) H2) as [m Hm].
    exists (n + (1 + m))%nat. intros stack es rest fuel.
    destruct (Hm stack (es ++ [j]) rest fuel) as (tok' & s' & Hs' & Ht' & Hl').
    destruct (Hn (InArray es :: stack) ("," +:+ t2 +:+ "]" +:+ rest) (1 + m + fuel)%nat eq_refl)
      as (tok & s & Hs & Ht & Hl).
    exists tok, s. rewrite !str_app_assoc. split; [done|]. split; [done|].
    rewrite <- Nat.add_assoc, Hl. cbn [Nat.add sax_parse_internal sax_step on_value].
    unfold get_token. rewrite scan_comma, Hs'. by rewrite Hl', <- app_assoc.
Qed.

(** The members of an object: a member's text is its key and its value. *)
Definition member_text (m : string * json) : writer :=
  write quote &> dump_escaped m.1 &> write (quote +:+ ":") &> dump m.2.

Lemma member_text_ret m t :
  member_text m = (t, Ret tt) →
  ∃ tk tv, escaped m.1 0 0 = Some tk ∧ dump m.2 = (tv, Ret tt) ∧
    t = quote +:+ tk +:+ quote +:+ ":" +:+ tv.
Proof.
  unfold member_text. intros (t0 & tv & Ht & Hv & ->)%and_then_ret.
  apply and_then_ret in Ht as (t1 & tc & Ht & ->%write_ret & ->).
  apply and_then_ret in Ht as (tq & tk & ->%write_ret & Hk%dump_escaped_ret & ->).
  exists tk, tv. split; [done|]. split; [done|]. by rewrite !str_app_assoc.
Qed.

Definition reads_rest (n : nat) (stack : list frame) (r : progress) (j : json) (rest : string) : Prop :=
  ∃ stack' t' s', r = Continue stack' t' s' ∧
    ∀ fuel, loop (n + fuel) stack' t' s' = loop fuel stack (OnValue j) rest.

(** The members of an object, up to its brace. *)
Lemma reads_members ms tm :
  ms ≠ [] → Forall (λ m, ∀ t, dump m.2 = (t, Ret tt) → reads t m.2) ms →
  separated member_text ms = (tm, Ret tt) →
  ∃ n, ∀ stack acc rest, ∃ key s,
    scan (tm +:+ "}" +:+ rest) = (value_string key, s) ∧
    reads_rest n stack (after_key stack acc key s)
      (JObject (foldl (λ o m, assign m.1 m.2 o) acc ms)) rest.
Proof.
  intros Hne Hall. revert tm Hne.
  induction Hall as [|[k v] ms Hj Hall IH]; intros tm Hne Htm; [done|].
  destruct ms as [|m' ms]; cbn [separated] in Htm.
  - apply member_text_ret in Htm as (tk & tv & Hk & Hv & ->).
    apply Hj in Hv as [n Hn]. exists (n + 1)%nat. intros stack acc rest. cbn [fst snd] in *.
    exists k, (":" +:+ tv +:+ "}" +:+ rest). rewrite !str_app_assoc.
    split; [by apply scan_quoted|]. unfold reads_rest, JsonParser.after_key, get_token.
    rewrite scan_colon.
    destruct (Hn (InObject acc k :: stack) ("}" +:+ rest) 0%nat eq_refl) as (tok & s & Hs & _ & _).
    rewrite Hs. eexists _, _, _. split; [done|]. intros fuel.
    destruct (Hn (InObject acc k :: stack) ("}" +:+ rest) (1 + fuel)%nat eq_refl)
      as (tok' & s' & Hs' & _ & Hl).
    rewrite Hs in Hs'. injection Hs' as <- <-. rewrite <- Nat.add_assoc, Hl. reflexivity.
  - apply and_then_ret in Htm as (t0 & t2 & Htm & H2 & ->).
    apply and_then_ret in Htm as (t1 & tc & Htm & ->%write_ret & ->).
    apply member_text_ret in Htm as (tk & tv & Hk & Hv & ->).
    apply Hj in Hv as [n Hn]. destruct (IH t2 ltac:(done) H2) as [m Hm].
    exists (n + (1 + m))%nat. intros stack acc rest. cbn [fst snd] in *.
    exists k, (":" +:+ tv +:+ "," +:+ t2 +:+ "}" +:+ rest). rewrite !str_app_assoc.
    split; [by apply scan_quoted|]. unfold reads_rest, JsonParser.after_key, get_token.
    rewrite scan_colon.
    destruct (Hn (InObject acc k :: stack) ("," +:+ t2 +:+ "}" +:+ rest) 0%nat eq_refl)
      as (tok & s & Hs & _ & _).
    rewrite Hs. eexists _, _, _. split; [done|]. intros fuel.
    destruct (Hn (InObject acc k :: stack) ("," +:+ t2 +:+ "}" +:+ rest) (1 + m + fuel)%nat eq_refl)
      as (tok' & s' & Hs' & _ & Hl).
    rewrite Hs in Hs'. injection Hs' as <- <-. rewrite <- Nat.add_assoc, Hl.
    destruct (Hm stack (assign k v acc) rest) as (key & s2 & Hs2 & st & t' & s' & Ha & Hl').
    cbn [Nat.add sax_parse_internal sax_step on_value]. unfold get_token.
    rewrite scan_comma, Hs2, Ha. apply Hl'.
Qed.

Lemma storable_elements js :
  foldr (λ j, and (storable j)) True js → Forall storable js.
Proof. induction js; cbn; [constructor|]. intros [? ?]. constructor; auto. Qed.

Lemma storable_members ms :
  foldr (λ m : string * json, and (storable m.2)) True ms → Forall (λ m, storable m.2) ms.
Proof. induction ms; cbn; [constructor|]. intros [? ?]. constructor; auto. Qed.

Lemma reads_integer x t :
  dump_integer x = (t, Ret tt) → - 2 ^ 63 <= x < 2 ^ 64 →
  reads t (if x <? 0 then JInteger x else JUnsigned x).
Proof.
  intros Hd Hx. assert (- 2 ^ 63 < x < 2 ^ 64) as Hx'.
  { destruct (Z.eq_dec x int64_min) as [->|Hne]; [by vm_compute in Hd|].
    unfold int64_min in Hne. lia. }
  destruct (dump_integer_text x Hx') as (t' & Hd' & Ht). rewrite Hd' in Hd.
  apply write_ret in Hd as ->.
  apply reads_token with (tok := if x <? 0 then value_integer x else value_unsigned x).
  - by destruct (x <? 0).
  - intros rest Hr. by apply scan_integer.
  - intros stack s. by destruct (x <? 0).
Qed.

(** The brackets, given that what is between them is read back. *)
Lemma reads_object ms t :
  Forall (λ m, ∀ t, storable m.2 → dump m.2 = (t, Ret tt) → reads t m.2) ms →
  storable (JObject ms) → dump (JObject ms) = (t, Ret tt) → reads t (JObject ms).
Proof.
  intros IH Hst Hd. destruct ms as [|m ms].
  { apply write_ret in Hd as ->. exists 1%nat. intros stack rest fuel _.
    by exists begin_object, (String "}" rest). }
  destruct Hst as [Hok Hst%storable_members].
  change (write "{" &> separated member_text (m :: ms) &> write "}" = (t, Ret tt)) in Hd.
  apply and_then_ret in Hd as (t0 & tc & Hd & ->%write_ret & ->).
  apply and_then_ret in Hd as (tb & tm & ->%write_ret & Htm & ->).
  destruct (reads_members (m :: ms) tm) as [n Hn]; [done| |done|].
  { apply Forall_forall. intros x Hx t. rewrite Forall_forall in IH, Hst. auto. }
  exists (S n). intros stack rest fuel _.
  destruct (Hn stack [] rest) as (key & s & Hs & st & t' & s' & Ha & Hl).
  exists begin_object, (tm +:+ "}" +:+ rest). rewrite !str_app_assoc. split; [done|].
  split; [done|]. cbn [Nat.add sax_parse_internal sax_step on_token]. unfold get_token.
  rewrite Hs, Ha, Hl. by rewrite (foldl_assign_ok [] (m :: ms)).
Qed.

Lemma reads_array js t :
  Forall (λ j, ∀ t, storable j → dump j = (t, Ret tt) → reads t j) js →
  storable (JArray js) → dump (JArray js) = (t, Ret tt) → reads t (JArray js).
Proof.
  intros IH Hst Hd. destruct js as [|j js].
  { apply write_ret in Hd as ->. exists 1%nat. intros stack rest fuel _.
    by exists begin_array, (String "]" rest). }
  apply storable_elements in Hst.
  change (write "[" &> separated dump (j :: js) &> write "]" = (t, Ret tt)) in Hd.
  apply and_then_ret in Hd as (t0 & tc & Hd & ->%write_ret & ->).
  apply and_then_ret in Hd as (tb & te & ->%write_ret & Hte & ->).
  destruct (reads_elements (j :: js) te) as [n Hn]; [done| |done|].
  { apply Forall_forall. intros x Hx t. rewrite Forall_forall in IH, Hst. auto. }
  exists (S n). intros stack rest fuel _.
  destruct (Hn stack [] rest fuel) as (tok & s & Hs & Ht & Hl).
  exists begin_array, (te +:+ "]" +:+ rest). rewrite !str_app_assoc. split; [done|].
  split; [done|]. cbn [Nat.add sax_parse_internal sax_step on_token]. unfold get_token.
  rewrite Hs. by destruct tok.
Qed.

(** Every storable value that is written without an exception is read back. *)
Lemma reads_dump j : ∀ t, storable j → dump j = (t, Ret tt) → reads t j.
Proof.
  induction j as [|ms IH|js IH|str|b|z|z|f] using json_nested_ind; intros t Hst Hd.
  - apply write_ret in Hd as ->. by apply reads_token with (tok := literal_null).
  - by apply reads_object.
  - by apply reads_array.
  - change (write quote &> dump_escaped str &> write quote = (t, Ret tt)) in Hd.
    apply and_then_ret in Hd as (t0 & tc & Hd & ->%write_ret & ->).
    apply and_then_ret in Hd as (tq & ts & ->%write_ret & Hs%dump_escaped_ret & ->).
    apply reads_token with (tok := value_string str); [done| |done].
    intros rest _. rewrite !str_app_assoc. by apply scan_quoted.
  - destruct b; apply write_ret in Hd as ->;
      [apply reads_token with (tok := literal_true)|apply reads_token with (tok := literal_false)];
      done.
  - apply andb_true_iff in Hst as [H1%Z.leb_le H2%Z.ltb_lt].
    pose proof (reads_integer z t Hd ltac:(lia)) as Hr.
    by destruct (Z.ltb_spec z 0); [|lia].
  - apply andb_true_iff in Hst as [H1%Z.leb_le H2%Z.ltb_lt].
    pose proof (reads_integer z t Hd ltac:(lia)) as Hr.
    by destruct (Z.ltb_spec z 0); [lia|].
  - done.
Qed.

(** ** Values that are cut off *)

(** The parser throws on the text [t] where it expects a value. *)
Definition fails (t : string) : Prop :=
  ∃ n, ∀ stack fuel, ∃ tok s, scan t = (tok, s) ∧ tok ≠ end_array ∧
    loop (n + fuel) stack (OnToken tok) s = Stop (Thrown (JsonParseError 101)).

Lemma scan_unfinished s t w :
  dump_escaped s = (t, Stop w) → ∃ rest, scan (quote +:+ t) = (parse_error, rest).
Proof.
  intros [s' Hs']%dump_escaped_stop. unfold quote. rewrite str_app_cons, str_app_nil_l.
  change (scan (String _ t)) with (scan_string t). by apply scan_string_unfinished with s'.
Qed.

Lemma fails_token t rest : scan t = (parse_error, rest) → fails t.
Proof. intros H. exists 1%nat. intros stack fuel. by exists parse_error, rest. Qed.

Lemma fails_elements js te e :
  Forall (λ j, ∀ t, dump j = (t, Ret tt) → reads t j) js →
  Forall (λ j, ∀ t, dump j = (t, Stop (Thrown e)) → fails t) js →
  separated dump js = (te, Stop (Thrown e)) →
  ∃ n, ∀ stack es fuel, ∃ tok s, scan te = (tok, s) ∧ tok ≠ end_array ∧
    loop (n + fuel) (InArray es :: stack) (OnToken tok) s = Stop (Thrown (JsonParseError 101)).
Proof.
  intros Hr Hf. revert te. induction Hf as [|j js Hj Hf IH]; intros te Hte; [done|].
  apply list.Forall_cons in Hr as [Hrj Hr].
  destruct js as [|j' js]; cbn [separated] in Hte.
  - destruct (Hj te Hte) as [n Hn]. exists n. intros stack es. apply (Hn (InArray es :: stack)).
  - apply and_then_stop in Hte as [Hte|(t0 & t2 & Hte & H2 & ->)].
    + apply and_then_stop in Hte as [Hte|(? & ? & _ & [=] & _)].
      destruct (Hj te Hte) as [n Hn]. exists n. intros stack es. apply (Hn (InArray es :: stack)).
    + apply and_then_ret in Hte as (t1 & tc & H1 & ->%write_ret & ->).
      apply Hrj in H1 as [n Hn]. destruct (IH Hr t2 H2) as [m Hm].
      exists (n + (1 + m))%nat. intros stack es fuel.
      destruct (Hm stack (es ++ [j]) fuel) as (tok' & s' & Hs' & Ht' & Hl').
      destruct (Hn (InArray es :: stack) ("," +:+ t2) (1 + m + fuel)%nat eq_refl)
        as (tok & s & Hs & Ht & Hl).
      exists tok, s. rewrite !str_app_assoc. split; [done|]. split; [by intros ->|].
      rewrite <- Nat.add_assoc, Hl. cbn [Nat.add sax_parse_internal sax_step on_value].
      unfold get_token. by rewrite scan_comma, Hs', Hl'.
Qed.

(** After the brace or a comma: the key is unfinished, or its value fails. *)
Definition fails_member (n : nat) (stack : list frame) acc (t : string) : Prop :=
  ∃ tok s, scan t = (tok, s) ∧
    (tok = parse_error ∨
     ∃ key stack' t' s', tok = value_string key ∧ after_key stack acc key s = Continue stack' t' s' ∧
       ∀ fuel, loop (n + fuel) stack' t' s' = Stop (Thrown (JsonParseError 101))).

Lemma fails_member_text m tm e :
  (∀ t, dump m.2 = (t, Stop (Thrown e)) → fails t) →
  member_text m = (tm, Stop (Thrown e)) →
  ∃ n, ∀ stack acc, fails_member n stack acc tm.
Proof.
  intros Hf Htm. unfold member_text in Htm.
  apply and_then_stop in Htm as [Htm|(t0 & tv & Htm & [n Hn]%Hf & ->)].
  - exists 0%nat. intros stack acc. apply and_then_stop in Htm as [Htm|(? & ? & _ & [=] & _)].
    apply and_then_stop in Htm as [[=]|(tq & tk & ->%write_ret & Hk & ->)].
    apply scan_unfinished in Hk as [rest Hk]. exists parse_error, rest. auto.
  - exists n. intros stack acc.
    apply and_then_ret in Htm as (t1 & tc & Htm & ->%write_ret & ->).
    apply and_then_ret in Htm as (tq & tk & ->%write_ret & Hk%dump_escaped_ret & ->).
    exists (value_string m.1), (":" +:+ tv). rewrite !str_app_assoc.
    split; [by apply scan_quoted|]. right. exists m.1.
    destruct (Hn (InObject acc m.1 :: stack) 0%nat) as (tok & s & Hs & _ & _).
    unfold JsonParser.after_key, get_token. rewrite scan_colon, Hs.
    eexists _, _, _. split; [done|]. split; [done|]. intros fuel.
    destruct (Hn (InObject acc m.1 :: stack) fuel) as (tok' & s' & Hs' & _ & Hl).
    rewrite Hs in Hs'. by injection Hs' as <- <-.
Qed.

Lemma fails_members ms tm e :
  Forall (λ m, ∀ t, dump m.2 = (t, Ret tt) → reads t m.2) ms →
  Forall (λ m, ∀ t, dump m.2 = (t, Stop (Thrown e)) → fails t) ms →
  separated member_text ms = (tm, Stop (Thrown e)) →
  ∃ n, ∀ stack acc, fails_member n stack acc tm.
Proof.
  intros Hr Hf. revert tm. induction Hf as [|[k v] ms Hj Hf IH]; intros tm Htm; [done|].
  apply list.Forall_cons in Hr as [Hrj Hr].
  destruct ms as [|m' ms]; cbn [separated] in Htm; [by eapply fails_member_text|].
  apply and_then_stop in Htm as [Htm|(t0 & t2 & Htm & H2 & ->)].
  { apply and_then_stop in Htm as [Htm|(? & ? & _ & [=] & _)]. by eapply fails_member_text. }
  apply and_then_ret in Htm as (t1 & tc & Htm & ->%write_ret & ->).
  apply member_text_ret in Htm as (tk & tv & Hk & Hv & ->). cbn [fst snd] in *.
  apply Hrj in Hv as [n Hn]. destruct (IH Hr t2 H2) as [m Hm].
  exists (n + (1 + m))%nat. intros stack acc.
  exists (value_string k), (":" +:+ tv +:+ "," +:+ t2). rewrite !str_app_assoc.
  split; [by apply scan_quoted|]. right. exists k. unfold JsonParser.after_key, get_token.
  rewrite scan_colon.
  destruct (Hn (InObject acc k :: stack) ("," +:+ t2) 0%nat eq_refl) as (tok & s & Hs & _ & _).
  rewrite Hs. eexists _, _, _. split; [done|]. split; [done|]. intros fuel.
  destruct (Hn (InObject acc k :: stack) ("," +:+ t2) (1 + m + fuel)%nat eq_refl)
    as (tok' & s' & Hs' & _ & Hl).
  rewrite Hs in Hs'. injection Hs' as <- <-. rewrite <- Nat.add_assoc, Hl.
  destruct (Hm stack (assign k v acc)) as (tok2 & s2 & Hs2 & Ht2).
  cbn [Nat.add sax_parse_internal sax_step on_value]. unfold get_token.
  rewrite scan_comma, Hs2. destruct Ht2 as [->|(key & st & t' & s' & -> & Ha & Hl')]; [done|].
  rewrite Ha. apply Hl'.
Qed.

Lemma dump_integer_throws x t e : dump_integer x ≠ (t, Stop (Thrown e)).
Proof. unfold dump_integer, dump_abs, write. repeat case_match; simplify_eq; intros ?; by simplify_eq. Qed.

Lemma separated_stop {A} (w : A → writer) l t stop :
  separated w l = (t, Stop stop) → ∃ x s, x ∈ l ∧ w x = (s, Stop stop).
Proof.
  revert t. induction l as [|x l IH]; intros t; [done|]. destruct l as [|y l]; cbn [separated].
  - intros H. exists x, t. split; [by left|done].
  - intros [[H|(? & ? & _ & [=] & _)]%and_then_stop|(t1 & t2 & _ & H & _)]%and_then_stop.
    + exists x, t. split; [by left|done].
    + destruct (IH t2 H) as (z & s & Hz & Hs). exists z, s. split; [by right|done].
Qed.

Lemma textual_members ms :
  foldr (λ m : string * json, and (textual m.2)) True ms → Forall (λ m, textual m.2) ms.
Proof. induction ms; cbn; [constructor|]. intros [? ?]. constructor; auto. Qed.

Lemma textual_elements js : foldr (λ j, and (textual j)) True js → Forall textual js.
Proof. induction js; cbn; [constructor|]. intros [? ?]. constructor; auto. Qed.

Lemma dump_escaped_throws s t w : dump_escaped s = (t, Stop w) → ∃ e, w = Thrown e.
Proof.
  intros H. pose proof (dump_escaped_text s) as Ht. destruct (escaped s 0 0).
  - rewrite Ht in H. done.
  - destruct Ht as [o Ho]. rewrite Ho in H. injection H as _ <-. eauto.
Qed.

Lemma dump_textual j : ∀ t w, textual j → dump j = (t, Stop w) → ∃ e, w = Thrown e.
Proof.
  induction j as [|ms IH|js IH|str|b|z|z|f] using json_nested_ind; intros t w Hj Hd; try done.
  - destruct ms as [|m ms]; [done|]. apply textual_members in Hj. rewrite Forall_forall in IH, Hj.
    change (write "{" &> separated member_text (m :: ms) &> write "}" = (t, Stop w)) in Hd.
    apply and_then_stop in Hd as [[[=]|(tb & tm & _ & Hd & _)]%and_then_stop|(? & ? & _ & [=] & _)].
    apply separated_stop in Hd as (x & s & Hx & Hd).
    unfold member_text in Hd. apply and_then_stop in Hd as [Hd|(? & tv & _ & Hd & _)].
    + apply and_then_stop in Hd as [Hd|(? & ? & _ & [=] & _)].
      apply and_then_stop in Hd as [[=]|(? & ? & _ & Hd & _)]. by eapply dump_escaped_throws.
    + by apply (IH x Hx tv w (Hj x Hx)).
  - destruct js as [|j js]; [done|]. apply textual_elements in Hj. rewrite Forall_forall in IH, Hj.
    change (write "[" &> separated dump (j :: js) &> write "]" = (t, Stop w)) in Hd.
    apply and_then_stop in Hd as [[[=]|(tb & tm & _ & Hd & _)]%and_then_stop|(? & ? & _ & [=] & _)].
    apply separated_stop in Hd as (x & s & Hx & Hd). by apply (IH x Hx s w (Hj x Hx)).
  - change (write quote &> dump_escaped str &> write quote = (t, Stop w)) in Hd.
    apply and_then_stop in Hd as [[[=]|(? & ? & _ & Hd & _)]%and_then_stop|(? & ? & _ & [=] & _)].
    by eapply dump_escaped_throws.
  - by destruct b.
Qed.

Lemma fails_dump e j : ∀ t, storable j → dump j = (t, Stop (Thrown e)) → fails t.
Proof.
  induction j as [|ms IH|js IH|str|b|z|z|f] using json_nested_ind; intros t Hst Hd; try done.
  - destruct ms as [|m ms]; [done|]. destruct Hst as [_ Hst%storable_members].
    change (write "{" &> separated member_text (m :: ms) &> write "}" = (t, Stop (Thrown e))) in Hd.
    apply and_then_stop in Hd as [Hd|(? & ? & _ & [=] & _)].
    apply and_then_stop in Hd as [[=]|(tb & tm & ->%write_ret & Htm & ->)].
    destruct (fails_members (m :: ms) tm e) as [n Hn]; [..|done|].
    { eapply Forall_impl; [exact Hst|]. intros x Hx t Ht. by apply reads_dump. }
    { apply Forall_forall. intros x Hx t Ht. rewrite Forall_forall in IH, Hst.
      by apply (IH x Hx t); [apply Hst|]. }
    exists (S n). intros stack fuel. exists begin_object, tm. split; [done|]. split; [done|].
    cbn [Nat.add sax_parse_internal sax_step on_token]. unfold get_token.
    destruct (Hn stack []) as (tok & s & -> & [->|(key & st & t' & s' & -> & Ha & Hl)]); [done|].
    rewrite Ha. apply Hl.
  - destruct js as [|j js]; [done|]. apply storable_elements in Hst.
    change (write "[" &> separated dump (j :: js) &> write "]" = (t, Stop (Thrown e))) in Hd.
    apply and_then_stop in Hd as [Hd|(? & ? & _ & [=] & _)].
    apply and_then_stop in Hd as [[=]|(tb & te & ->%write_ret & Hte & ->)].
    destruct (fails_elements (j :: js) te e) as [n Hn]; [..|done|].
    { eapply Forall_impl; [exact Hst|]. intros x Hx t Ht. by apply reads_dump. }
    { apply Forall_forall. intros x Hx t Ht. rewrite Forall_forall in IH, Hst.
      by apply (IH x Hx t); [apply Hst|]. }
    exists (S n). intros stack fuel. exists begin_array, te. split; [done|]. split; [done|].
    cbn [Nat.add sax_parse_internal sax_step on_token]. unfold get_token.
    destruct (Hn stack [] fuel) as (tok & s & -> & Ht & Hl). by destruct tok.
  - change (write quote &> dump_escaped str &> write quote = (t, Stop (Thrown e))) in Hd.
    apply and_then_stop in Hd as [Hd|(? & ? & _ & [=] & _)].
    apply and_then_stop in Hd as [[=]|(tq & ts & ->%write_ret & Hs & ->)].
    apply scan_unfinished in Hs as [rest Hs]. by eapply fails_token.
  - by destruct b.
  - by apply dump_integer_throws in Hd.
  - by apply dump_integer_throws in Hd.
Qed.

End values.

(** ** The text interface *)

Section text.
Context (strtod : string → Z) (decimal_point_char : ascii) (isfinite : Z → bool)
  (float_text : Z → string).

(** [operator<<], [operator>>] and [accept] are the interface. *)
Definition nlohmann_text : Text := {|
  dump := json_dump isfinite float_text;
  parse := json_parse strtod decimal_point_char isfinite;
  accepts := json_accept strtod decimal_point_char isfinite;
|}.

(** A text that is read as a value is parsed to the end. *)
Lemma parse_value_reads j t :
  reads strtod decimal_point_char isfinite t j →
  parse_value strtod decimal_point_char isfinite t = Ret (j, "").
Proof.
  intros [n Hn]. destruct (Hn [] "" 1%nat eq_refl) as (tok & s & Hs & Ht & Hl).
  rewrite str_app_nil_r in Hs. unfold parse_value.
  assert (first_scan strtod decimal_point_char t = (tok, s)) as Hf.
  { destruct t as [|c t]; [done|]. unfold first_scan.
    destruct (Z.eqb_spec (byte_of c) 239) as [Hc|]; [|done]. exfalso.
    destruct c as [[] [] [] [] [] [] [] []]; vm_compute in Hc; try discriminate Hc.
    injection Hs as <- _. done. }
  rewrite Hf. pose proof (parse_fuel_enough _ _ isfinite t tok s Hf) as Hb.
  cbn [sax_parse_internal sax_step on_value] in Hl.
  rewrite <- (loop_fuel_mono _ _ _ _ (n + 1) _ _ _ Hb), Nat.add_comm.
  rewrite loop_fuel_mono; rewrite Hl; done.
Qed.

Lemma parse_value_dumped j t :
  storable j → json_dump isfinite float_text j = (t, Ret tt) →
  parse_value strtod decimal_point_char isfinite t = Ret (j, "").
Proof. intros Hst Hd. by eapply parse_value_reads, reads_dump. Qed.

(** A text that does not begin with the first byte of a byte order mark. *)
Lemma first_scan_plain c t :
  byte_of c ≠ 239 → first_scan strtod decimal_point_char (String c t)
    = JsonLexer.scan strtod decimal_point_char (String c t).
Proof. intros Hc. unfold first_scan. by destruct (Z.eqb_spec (byte_of c) 239). Qed.

Definition begins_with (cs : list ascii) (t : string) : Prop :=
  ∃ c t', t = String c t' ∧ c ∈ cs.

Lemma begins_with_and_then cs w1 w2 : begins_with cs w1.1 → begins_with cs (w1 &> w2).1.
Proof.
  destruct w1 as [s1 [[]|w]]; cbn; [|done]. intros (c & t & -> & Hc).
  exists c, (t +:+ w2.1). by rewrite str_app_cons.
Qed.

(** Only strings, arrays and objects throw while they are written. *)
Lemma dump_throws_first j t e :
  storable j → json_dump isfinite float_text j = (t, Stop (Thrown e)) →
  begins_with ["{"%char; "["%char; char_of 34] t.
Proof.
  intros Hst Hd. assert (t = (json_dump isfinite float_text j).1) as -> by by rewrite Hd.
  destruct j as [|[|m ms]|[|j js]|s|[]|z|z|f]; try done; cbn [json_dump].
  1-3: repeat apply begins_with_and_then; eexists _, _; (split; [reflexivity|]); rewrite !elem_of_cons; auto.
  all: exfalso; by eapply dump_integer_throws.
Qed.

Lemma json_accept_cut_off j t e :
  storable j → json_dump isfinite float_text j = (t, Stop (Thrown e)) →
  json_accept strtod decimal_point_char isfinite t = false.
Proof.
  intros Hst Hd. pose proof (dump_throws_first j t e Hst Hd) as (c & t' & Heq & Hc).
  destruct (fails_dump strtod decimal_point_char isfinite float_text e j t Hst Hd) as [n Hn].
  destruct (Hn [] 0%nat) as (tok & s & Hs & _ & Hl).
  assert (first_scan strtod decimal_point_char t = (tok, s)) as Hf.
  { rewrite Heq, first_scan_plain, <- Heq; [done|]. intros Hb.
    rewrite !elem_of_cons, elem_of_nil in Hc. destruct_or! Hc; by subst c. }
  unfold json_accept, parse_value. rewrite Hf.
  pose proof (parse_fuel_enough _ _ isfinite t tok s Hf) as Hb.
  rewrite Nat.add_0_r in Hl.
  rewrite <- (loop_fuel_mono _ _ _ _ n _ _ _ Hb), Nat.add_comm.
  rewrite loop_fuel_mono; by rewrite Hl.
Qed.

#[export] Instance nlohmann_text_laws : @TextLaws nlohmann_text.
Proof.
  split.
  - intros j s Hst Hd. cbn in *. unfold json_accept, json_parse.
    rewrite (parse_value_dumped j s Hst Hd). done.
  - intros j s e. apply json_accept_cut_off.
  - intros j s w. apply dump_textual.
  - intros s Hs. cbn in *. unfold json_accept, json_parse in *.
    destruct (parse_value _ _ _ s) as [[j r]|w]; [|done]. by exists j.
Qed.
End text.

(** C14: Writing and reading a value are inverse: every value without doubles whose
    integers have 64 bits, the signed ones being negative as the parser makes them, once
    [operator<<] has written it without an exception, is accepted as a whole and read back
    equal, at any depth of arrays and objects. *)
Theorem dump_parse_round_trip (strtod : string → Z) (decimal_point_char : ascii)
    (isfinite : Z → bool) (float_text : Z → string) (j : json) (t : string) :
  storable j → json_dump isfinite float_text j = (t, Ret tt) →
  json_accept strtod decimal_point_char isfinite t = true ∧
  json_parse strtod decimal_point_char isfinite t = Ret j.
Proof.
  intros Hst Hd. unfold json_accept, json_parse.
  by rewrite (parse_value_dumped strtod decimal_point_char isfinite float_text j t Hst Hd).
Qed.

Definition demo_value : json :=
  JObject [("a", JArray [JUnsigned 105; JInteger (-10); JNull; JObject []]);
           ("b", JString (String (ascii_of_nat 195) (String (ascii_of_nat 169) "'")))].

Lemma dump_parse_round_trip_witness :
  json_dump (λ _, true) (λ _, "") demo_value = ((json_dump (λ _, true) (λ _, "") demo_value).1, Ret tt) ∧
  json_accept (λ _, 0) "."%char (λ _, true) (json_dump (λ _, true) (λ _, "") demo_value).1 = true ∧
  json_parse (λ _, 0) "."%char (λ _, true) (json_dump (λ _, true) (λ _, "") demo_value).1 = Ret demo_value.
Proof.
  assert (json_dump (λ _, true) (λ _, "") demo_value
    = ((json_dump (λ _, true) (λ _, "") demo_value).1, Ret tt)) as Hd by (vm_compute; reflexivity).
  split; [exact Hd|].
  apply (dump_parse_round_trip (λ _, 0) "."%char (λ _, true) (λ _, "") demo_value); [|exact Hd].
  split; [apply (bool_decide_unpack _); vm_compute; exact I|].
  cbn. repeat split; constructor.
Defined.
