(* ===== verification/JsonParsed.v ===== *)
(** * JSON: what is read can be written

    Every value the parser returns, from any text, is well formed: the keys of its
    objects ascend strictly, its strings and keys are UTF-8, its integers have 64 bits.
    So the serializer writes it, and what it writes is read back. *)

From Stdlib Require Import Ascii.
From stdpp Require Import base list strings numbers.
From S2P Require Import Prelude CppString Json JsonLexer JsonParser JsonDump JsonNumbers JsonUtf8.
From S2P Require Import JsonRoundTrip.

Local Open Scope Z_scope.

(** ** Bytes of a code point *)

Lemma byte_of_char z : 0 <= z < 256 → byte_of (char_of z) = z.
Proof.
  intros Hz. unfold byte_of, char_of. change 255 with (Z.ones 8). rewrite Z.land_ones by done.
  rewrite Z.mod_small by done. rewrite N_ascii_embedding; [lia|].
  change 256%N with (Z.to_N 256). lia.
Qed.

(** A bit pattern above smaller bits is a sum. *)
Lemma lor_shifted a b n : 0 <= n → 0 <= b < 2 ^ n → Z.lor (a * 2 ^ n) b = a * 2 ^ n + b.
Proof.
  intros Hn Hb. rewrite <- Z.add_lor_land.
  replace (Z.land (a * 2 ^ n) b) with 0; [lia|]. symmetry.
  apply Z.bits_inj'. intros k Hk. rewrite Z.land_spec, Z.bits_0.
  destruct (Z.lt_ge_cases k n).
  - by rewrite Z.mul_pow2_bits_low by done.
  - destruct (Z.eq_dec b 0) as [->|]; [by rewrite Z.bits_0, andb_false_r|].
    rewrite (Z.bits_above_log2 b k), andb_false_r; [done|lia|].
    apply Z.lt_le_trans with n; [|done]. apply (proj1 (Z.log2_lt_pow2 b n ltac:(lia))). lia.
Qed.

Lemma continuation_value cp n :
  0 <= n → Z.lor 128 (Z.land (Z.shiftr cp n) 63) = 128 + cp / 2 ^ n mod 64.
Proof.
  intros Hn. change 63 with (Z.ones 6). rewrite Z.land_ones by done.
  rewrite Z.shiftr_div_pow2 by done. change 128 with (2 * 2 ^ 6) at 1.
  apply lor_shifted; [done|]. by apply Z.mod_pos_bound.
Qed.

(** One more byte of a sequence. *)
Lemma next_byte_char lo hi ranges z added rest :
  0 <= z < 256 → lo <= z <= hi → next_byte_in_range ranges (added +:+ rest) = Some (added, rest) →
  next_byte_in_range ((lo, hi) :: ranges) (String (char_of z) added +:+ rest)
    = Some (String (char_of z) added, rest).
Proof.
  intros Hz Hb Hn. rewrite str_app_cons. apply next_byte_cons; [|done].
  rewrite byte_of_char by done. unfold between. rewrite andb_true_iff, !Z.leb_le. lia.
Qed.

Definition scalar_value (cp : Z) : Prop := 0 <= cp < 1114112 ∧ ¬ (55296 <= cp <= 57343).

Lemma encode_1 cp : 0 <= cp < 128 → encode cp = String (char_of cp) "".
Proof. intros Hc. unfold encode. by rewrite (proj2 (Z.ltb_lt cp 128)) by lia. Qed.

Lemma encode_2_bytes cp : 128 <= cp <= 2047 →
  encode cp = String (char_of (192 + cp / 64)) (String (char_of (128 + cp mod 64)) "").
Proof.
  intros Hcp. unfold encode. rewrite (proj2 (Z.ltb_ge cp 128)), (proj2 (Z.leb_le cp 2047)) by lia.
  rewrite continuation_value by done. change (2 ^ 0) with 1. rewrite Z.div_1_r.
  rewrite Z.shiftr_div_pow2 by done. change (2 ^ 6) with 64.
  assert (2 <= cp / 64 < 32) by (split; [apply Z.div_le_lower_bound|apply Z.div_lt_upper_bound]; lia).
  change 192 with (6 * 2 ^ 5). rewrite lor_shifted by (cbn; lia). done.
Qed.

Lemma encode_3_bytes h x1 x0 :
  0 <= h <= 15 → 0 <= x1 < 64 → 0 <= x0 < 64 → 2047 < (h * 64 + x1) * 64 + x0 →
  encode ((h * 64 + x1) * 64 + x0)
    = String (char_of (224 + h)) (String (char_of (128 + x1)) (String (char_of (128 + x0)) "")).
Proof.
  intros Hh H1 H0 Hcp. set (cp := _ + x0) in *. unfold encode.
  rewrite (proj2 (Z.ltb_ge cp 128)), (proj2 (Z.leb_gt cp 2047)), (proj2 (Z.leb_le cp 65535)) by lia.
  rewrite !continuation_value by done. change (2 ^ 0) with 1. rewrite Z.div_1_r.
  rewrite Z.shiftr_div_pow2 by done. change (2 ^ 12) with (64 * 64). change (2 ^ 6) with 64.
  rewrite <- Z.div_div by done.
  assert (cp / 64 = h * 64 + x1) as -> by (symmetry; apply (Z.div_unique _ _ _ x0); lia).
  assert ((h * 64 + x1) / 64 = h) as -> by (symmetry; apply (Z.div_unique _ _ _ x1); lia).
  assert ((h * 64 + x1) mod 64 = x1) as -> by (symmetry; apply (Z.mod_unique _ _ h); lia).
  assert (cp mod 64 = x0) as -> by (symmetry; apply (Z.mod_unique _ _ (h * 64 + x1)); lia).
  change 224 with (14 * 2 ^ 4). rewrite lor_shifted by (cbn; lia). done.
Qed.

Lemma encode_4_bytes h x2 x1 x0 :
  0 <= h <= 4 → 0 <= x2 < 64 → 0 <= x1 < 64 → 0 <= x0 < 64 →
  65535 < ((h * 64 + x2) * 64 + x1) * 64 + x0 →
  encode (((h * 64 + x2) * 64 + x1) * 64 + x0)
    = String (char_of (240 + h)) (String (char_of (128 + x2))
        (String (char_of (128 + x1)) (String (char_of (128 + x0)) ""))).
Proof.
  intros Hh H2 H1 H0 Hcp. set (cp := _ + x0) in *. unfold encode.
  rewrite (proj2 (Z.ltb_ge cp 128)), (proj2 (Z.leb_gt cp 2047)), (proj2 (Z.leb_gt cp 65535)) by lia.
  rewrite !continuation_value by done. change (2 ^ 0) with 1. rewrite Z.div_1_r.
  rewrite Z.shiftr_div_pow2 by done. change (2 ^ 18) with (64 * (64 * 64)).
  change (2 ^ 12) with (64 * 64). change (2 ^ 6) with 64. rewrite <- !Z.div_div by done.
  assert (cp / 64 = (h * 64 + x2) * 64 + x1) as -> by (symmetry; apply (Z.div_unique _ _ _ x0); lia).
  assert (((h * 64 + x2) * 64 + x1) / 64 = h * 64 + x2) as ->
    by (symmetry; apply (Z.div_unique _ _ _ x1); lia).
  assert ((h * 64 + x2) / 64 = h) as -> by (symmetry; apply (Z.div_unique _ _ _ x2); lia).
  assert ((h * 64 + x2) mod 64 = x2) as -> by (symmetry; apply (Z.mod_unique _ _ h); lia).
  assert (((h * 64 + x2) * 64 + x1) mod 64 = x1) as ->
    by (symmetry; apply (Z.mod_unique _ _ (h * 64 + x2)); lia).
  assert (cp mod 64 = x0) as -> by (symmetry; apply (Z.mod_unique _ _ ((h * 64 + x2) * 64 + x1)); lia).
  change 240 with (30 * 2 ^ 3). rewrite lor_shifted by (cbn; lia). done.
Qed.

Lemma char_of_byte c : char_of (byte_of c) = c.
Proof.
  unfold char_of. change 255 with (Z.ones 8). rewrite Z.land_ones by done.
  pose proof (byte_of_range c). rewrite Z.mod_small by done. unfold byte_of.
  by rewrite N2Z.id, ascii_N_embedding.
Qed.

(** [case_range H] splits on the value of an integer between two literals. *)
Ltac case_range x lo hi :=
  lazymatch eval vm_compute in (Z.ltb lo hi) with
  | true => destruct (Z.eq_dec x lo) as [->|?]; [|case_range x (Z.succ lo) hi]
  | false => replace x with lo in * by lia
  end.

(** The text starts with a first byte, and the others are in the ranges it asks for. *)
Definition sequence (t : string) : Prop :=
  ∃ c ranges added,
    t = String c added ∧ 128 <= byte_of c ∧ utf8_ranges (byte_of c) = Some ranges ∧
    next_byte_in_range ranges (added +:+ "") = Some (added, "").

Lemma sequence_lead lead ranges added :
  128 <= lead < 256 → utf8_ranges lead = Some ranges →
  next_byte_in_range ranges (added +:+ "") = Some (added, "") →
  sequence (String (char_of lead) added).
Proof.
  intros Hl Hr Hn. exists (char_of lead), ranges, added. rewrite byte_of_char by lia.
  repeat split; [lia|done|done].
Qed.

Lemma encode_2 cp : 128 <= cp <= 2047 → sequence (encode cp).
Proof.
  intros Hcp. rewrite encode_2_bytes by done. pose proof (Z.mod_pos_bound cp 64 eq_refl).
  assert (2 <= cp / 64 < 32) by (split; [apply Z.div_le_lower_bound|apply Z.div_lt_upper_bound]; lia).
  apply sequence_lead with (ranges := [(128, 191)]); [lia| |].
  - unfold utf8_ranges, between.
    by rewrite (proj2 (Z.leb_le 194 _)), (proj2 (Z.leb_le _ 223)) by lia.
  - apply next_byte_char; [lia|lia|done].
Qed.

Lemma encode_3 cp : 2047 < cp <= 65535 → scalar_value cp → sequence (encode cp).
Proof.
  intros Hcp [_ Hs].
  pose proof (Z.mod_pos_bound cp 64 eq_refl). pose proof (Z.div_mod cp 64 ltac:(lia)).
  set (y := cp / 64) in *.
  pose proof (Z.mod_pos_bound y 64 eq_refl). pose proof (Z.div_mod y 64 ltac:(lia)).
  set (h := y / 64) in *. set (x1 := y mod 64) in *. set (x0 := cp mod 64) in *.
  clearbody h x1 x0. clearbody y. assert (0 <= h <= 15) as Hh by lia.
  assert (cp = (h * 64 + x1) * 64 + x0) as -> by lia. rewrite encode_3_bytes by lia.
  assert (∃ lo hi, utf8_ranges (224 + h) = Some [(lo, hi); (128, 191)] ∧ lo <= 128 + x1 <= hi)
    as (lo & hi & Hr & Hx1).
  { case_range h 0 15; eexists _, _; (split; [reflexivity|lia]). }
  apply sequence_lead with (ranges := [(lo, hi); (128, 191)]); [lia|done|].
  apply next_byte_char; [lia|done|]. apply next_byte_char; [lia|lia|done].
Qed.

Lemma encode_4 cp : 65535 < cp → scalar_value cp → sequence (encode cp).
Proof.
  intros Hcp [Hb _].
  pose proof (Z.mod_pos_bound cp 64 eq_refl). pose proof (Z.div_mod cp 64 ltac:(lia)).
  set (y := cp / 64) in *.
  pose proof (Z.mod_pos_bound y 64 eq_refl). pose proof (Z.div_mod y 64 ltac:(lia)).
  set (z := y / 64) in *.
  pose proof (Z.mod_pos_bound z 64 eq_refl). pose proof (Z.div_mod z 64 ltac:(lia)).
  set (h := z / 64) in *. set (x2 := z mod 64) in *. set (x1 := y mod 64) in *.
  set (x0 := cp mod 64) in *.
  clearbody h x2 x1 x0. clearbody z. clearbody y. assert (0 <= h <= 4) as Hh by lia.
  assert (cp = ((h * 64 + x2) * 64 + x1) * 64 + x0) as -> by lia. rewrite encode_4_bytes by lia.
  assert (∃ lo hi, utf8_ranges (240 + h) = Some [(lo, hi); (128, 191); (128, 191)] ∧
    lo <= 128 + x2 <= hi) as (lo & hi & Hr & Hx2).
  { case_range h 0 4; eexists _, _; (split; [reflexivity|lia]). }
  apply sequence_lead with (ranges := [(lo, hi); (128, 191); (128, 191)]); [lia|done|].
  apply next_byte_char; [lia|done|]. apply next_byte_char; [lia|lia|].
  apply next_byte_char; [lia|lia|done].
Qed.

Lemma encode_sequence cp : scalar_value cp → 128 <= cp → sequence (encode cp).
Proof.
  intros Hs Hc. destruct (Z.le_gt_cases cp 2047); [apply encode_2; lia|].
  destruct (Z.le_gt_cases cp 65535); [by apply encode_3|by apply encode_4].
Qed.

(** The bytes of a Unicode scalar value are UTF-8. *)
Lemma encode_well_formed cp : scalar_value cp → well_formed (encode cp).
Proof.
  intros Hs. destruct (Z.lt_ge_cases cp 128) as [Hc|Hc].
  - destruct Hs. rewrite encode_1 by lia. apply wf_ascii; [rewrite byte_of_char; lia|constructor].
  - destruct (encode_sequence cp Hs Hc) as (c & ranges & added & -> & Hl & Hr & Hn).
    rewrite <- (str_app_nil_r added). by apply (wf_sequence c ranges added ""); [..|constructor].
Qed.

(** ** Strings *)

Lemma well_formed_app s t : well_formed s → well_formed t → well_formed (s +:+ t).
Proof.
  intros Hs Ht. induction Hs as [|c s Hc Hs IH|c ranges added s Hc Hr Hn Hs IH].
  - by rewrite str_app_nil_l.
  - rewrite str_app_cons. by apply wf_ascii.
  - rewrite str_app_cons, str_app_assoc. eapply wf_sequence; [done..| |done].
    by eapply next_byte_extend.
Qed.

Lemma well_formed_ascii z : 0 <= z < 128 → well_formed (String (char_of z) "").
Proof. intros Hz. apply wf_ascii; [rewrite byte_of_char; lia|constructor]. Qed.

Lemma hex_digit_bound c d : hex_digit c = Some d → 0 <= d < 16.
Proof.
  unfold hex_digit, between. intros H.
  repeat (case_match; rewrite ?andb_true_iff, ?Z.leb_le in *; simplify_eq; try lia).
Qed.

Lemma get_codepoint_bound s cp s' : get_codepoint s = Some (cp, s') → 0 <= cp < 65536.
Proof.
  unfold get_codepoint. destruct s as [|c1 [|c2 [|c3 [|c4 s]]]]; try done. intros H.
  repeat match type of H with
  | (hex_digit ?c ≫= _) = _ =>
      let d := fresh "d" in destruct (hex_digit c) as [d|] eqn:?; [cbn [mbind option_bind] in H|done]
  end.
  injection H as <- <-.
  repeat match goal with Hd : hex_digit _ = Some _ |- _ => apply hex_digit_bound in Hd end.
  rewrite !Z.shiftl_mul_pow2 by done. lia.
Qed.

Lemma scan_unicode_well_formed s added rest :
  scan_unicode s = Some (added, rest) → well_formed added.
Proof.
  unfold scan_unicode. destruct (get_codepoint s) as [[cp1 s1]|] eqn:H1; [|done].
  apply get_codepoint_bound in H1. cbn [mbind option_bind].
  destruct (between 55296 56319 cp1) eqn:Hh.
  - destruct s1 as [|c1 [|c2 s1]]; intros H; try (repeat case_match; done).
    assert (∃ cp2 s2, get_codepoint s1 = Some (cp2, s2) ∧ between 56320 57343 cp2 = true ∧
      added = encode (Z.shiftl cp1 10 + cp2 - 56613888)) as (cp2 & s2 & _ & Hl & ->).
    { repeat case_match; try done; simplify_eq.
      destruct (get_codepoint s1) as [[cp2 s2]|]; [|done]. cbn [mbind option_bind] in H.
      destruct (between 56320 57343 cp2) eqn:?; [|done]. injection H as <- <-. by eexists _, _. }
    apply encode_well_formed. unfold between in *. rewrite andb_true_iff, !Z.leb_le in *.
    unfold scalar_value. rewrite Z.shiftl_mul_pow2 by done. change (2 ^ 10) with 1024. lia.
  - destruct (between 56320 57343 cp1) eqn:Hl; [done|]. intros [= <- _].
    apply encode_well_formed. unfold between in *. rewrite andb_false_iff, !Z.leb_gt in *.
    unfold scalar_value. lia.
Qed.

Lemma scan_escape_well_formed s added rest :
  scan_escape s = Some (added, rest) → well_formed added.
Proof.
  unfold scan_escape. destruct s as [|c s]; [done|].
  repeat (case_match; [intros [= <- _]; by apply well_formed_ascii|]).
  case_match; [apply scan_unicode_well_formed|done].
Qed.

Lemma scan_item_well_formed s added rest : scan_item s = Add added rest → well_formed added.
Proof.
  unfold scan_item. destruct s as [|c s]; [done|].
  destruct (byte_of c =? 34); [done|]. destruct (byte_of c =? 92).
  - destruct (scan_escape s) as [[a r]|] eqn:He; [|done]. intros [= <- <-].
    by eapply scan_escape_well_formed.
  - destruct (control_character (byte_of c)); [done|]. unfold plain_character.
    destruct (Z.leb_spec (byte_of c) 127) as [Hc|Hc].
    { intros [= <- _]. apply wf_ascii; [lia|constructor]. }
    destruct (utf8_ranges (byte_of c)) as [ranges|] eqn:Hr; [|done].
    destruct (next_byte_in_range ranges s) as [[a r]|] eqn:Hn; [|done]. intros [= <- _].
    rewrite <- (str_app_nil_r a). eapply wf_sequence; [lia|done| |constructor].
    clear Hr Hc. revert s a r Hn. induction ranges as [|[lo hi] ranges IH]; cbn; intros s a r Hn.
    { by simplify_eq. }
    destruct s as [|c' s]; [done|]. destruct (between lo hi (byte_of c')) eqn:Hb; [|done].
    destruct (next_byte_in_range ranges s) as [[a' r']|] eqn:Hn'; [|done].
    injection Hn as <- <-. rewrite str_app_cons. rewrite Hb. by rewrite (IH _ _ _ Hn').
Qed.

(** ** Numbers *)

Lemma digits_value_nonneg s acc : 0 <= acc → digits_only s = true → 0 <= digits_value acc s.
Proof.
  revert acc. induction s as [|c s IH]; intros acc Ha Hd; [done|].
  cbn [all_chars] in Hd. apply andb_true_iff in Hd as [Hc Hd].
  cbn [digits_value]. apply IH; [|done]. unfold is_digit, between in Hc.
  rewrite andb_true_iff, !Z.leb_le in Hc. lia.
Qed.

(** What the parser makes of a token is within the bounds of its type. *)
Definition token_ok (t : token) : Prop :=
  match t with
  | value_string s => well_formed s
  | value_unsigned z => 0 <= z <= uint64_max
  | value_integer z => int64_min <= z <= 0
  | _ => True
  end.

(** The characters read so far, as long as the number is an integer. *)
Definition number_so_far (st : number_state) (ty : number_type) (buffer : string) : Prop :=
  match type_after st ty with
  | nt_unsigned => digits_only buffer = true ∧ (st = sn_zero ∨ st = sn_any1)
  | nt_integer => (∃ c digits, buffer = String c digits ∧ digits_only digits = true) ∧
      (st = sn_minus ∨ st = sn_zero ∨ st = sn_any1)
  | nt_float => True
  end.

Section tokens.
Context (strtod : string → Z) (decimal_point_char : ascii).

Lemma number_token_ok st ty buffer :
  number_so_far st ty buffer → token_ok (number_token strtod (type_after st ty) buffer).
Proof.
  unfold number_so_far, number_token. destruct (type_after st ty); [|..|done].
  - intros [Hd _]. pose proof (digits_value_nonneg buffer 0 ltac:(lia) Hd).
    destruct (Z.leb_spec (digits_value 0 buffer) uint64_max); [cbn; lia|done].
  - intros [(c & ds & -> & Hd) _]. pose proof (digits_value_nonneg ds 0 ltac:(lia) Hd).
    destruct (Z.leb_spec int64_min (- digits_value 0 ds)); [cbn; lia|done].
Qed.

Lemma digits_only_snoc s c :
  digits_only s = true → is_digit (byte_of c) = true → digits_only (s +:+ String c "") = true.
Proof. intros Hs Hc. rewrite all_chars_app, Hs. cbn [all_chars]. by rewrite Hc. Qed.

Lemma between_digit lo b : 48 <= lo → between lo 57 b = true → is_digit b = true.
Proof. unfold is_digit, between. rewrite !andb_true_iff, !Z.leb_le. lia. Qed.

Lemma number_step_not_minus st b : number_step st b ≠ Go sn_minus.
Proof.
  destruct b as [b|]; destruct st; intros H; vm_compute in H; repeat case_match; done.
Qed.

Lemma number_so_far_step st ty buffer c st' :
  number_so_far st ty buffer → number_step st (Some (byte_of c)) = Go st' →
  number_so_far st' (type_after st ty)
    (buffer +:+ String (match st' with sn_decimal1 => decimal_point_char | _ => c end) "").
Proof.
  intros H Hst. unfold number_so_far in *.
  destruct (type_after st ty) eqn:Hty; [| |].
  3: { pose proof (number_step_not_minus st (Some (byte_of c))). by destruct st'. }
  - destruct H as [Hd [-> | ->]]; cbn in Hst; unfold scan_number_zero, scan_number_any1 in Hst; cbn in Hst;
      repeat case_match; simplify_eq; cbn; try done.
    split; [by apply digits_only_snoc|by right].
  - destruct H as [(c0 & ds & -> & Hd) [-> | [-> | ->]]]; cbn in Hst;
      unfold scan_number_minus, scan_number_zero, scan_number_any1 in Hst; cbn in Hst;
      repeat case_match; simplify_eq; cbn; try done;
      (split; [exists c0, (ds +:+ String c ""); split; [done|]; apply digits_only_snoc; [done|]|tauto]);
      try done.
    + unfold is_digit, between. rewrite andb_true_iff, !Z.leb_le.
      match goal with Hb : (byte_of c =? 48) = true |- _ => apply Z.eqb_eq in Hb end. lia.
    + by apply (between_digit 49).
Qed.

Lemma scan_number_from_ok st ty buffer s t rest :
  number_so_far st ty buffer →
  scan_number_from strtod decimal_point_char st ty buffer s = (t, rest) → token_ok t.
Proof.
  revert st ty buffer. induction s as [|c s IH]; intros st ty buffer H Hs; cbn [scan_number_from] in Hs.
  - destruct (number_step st None); simplify_eq; [done| |done]. by apply number_token_ok.
  - destruct (number_step st (Some (byte_of c))) as [st'| |] eqn:Hst; simplify_eq; [| |done].
    + eapply IH; [|exact Hs]. by apply number_so_far_step.
    + by apply number_token_ok.
Qed.
End tokens.

(** ** Tokens *)

Lemma scan_string_ok s t rest : scan_string s = (t, rest) → token_ok t.
Proof.
  unfold scan_string. generalize (S (String.length s)) as fuel. intros fuel.
  assert (well_formed "") as Hb by constructor. revert Hb. generalize "" as buf. revert s.
  induction fuel as [|fuel IH]; intros s buf Hb H; cbn [scan_string_loop] in H.
  { by injection H as <- _. }
  destruct (scan_item s) as [added s'|s'|] eqn:Hi; [|by injection H as <- _..].
  eapply IH; [|exact H]. apply well_formed_app; [done|]. by eapply scan_item_well_formed.
Qed.

Section scan.
Context (strtod : string → Z) (decimal_point_char : ascii).

Lemma scan_number_ok c s t rest :
  (byte_of c =? 45) || is_digit (byte_of c) = true →
  scan_number strtod decimal_point_char c s = (t, rest) → token_ok t.
Proof.
  intros Hc. unfold scan_number. apply scan_number_from_ok. unfold number_so_far.
  destruct (Z.eqb_spec (byte_of c) 45) as [H45|H45]; cbn [type_after].
  - split; [|by left]. by exists c, "".
  - cbn [orb] in Hc. destruct (byte_of c =? 48); cbn [type_after all_chars];
      (split; [by rewrite Hc|by auto]).
Qed.

Lemma scan_literal_ok text result s t rest :
  token_ok result → scan_literal text result s = (t, rest) → token_ok t.
Proof.
  revert s. induction text as [|c text IH]; intros s Hr H; cbn in H; [by simplify_eq|].
  destruct s; [by simplify_eq|]. case_match; [by eapply IH|by simplify_eq].
Qed.

Lemma scan_ok s t rest : JsonLexer.scan strtod decimal_point_char s = (t, rest) → token_ok t.
Proof.
  induction s as [|c s IH]; cbn [JsonLexer.scan]; [by intros [= <- _]|].
  destruct (is_whitespace (byte_of c)); [done|].
  do 6 (case_match; [by intros [= <- _]|]).
  do 3 (case_match; [by apply scan_literal_ok|]).
  case_match; [by apply scan_string_ok|].
  case_match; [by apply scan_number_ok|].
  case_match; by intros [= <- _].
Qed.

Lemma first_scan_ok s t rest :
  first_scan strtod decimal_point_char s = (t, rest) → token_ok t.
Proof.
  unfold first_scan. repeat case_match; try apply scan_ok; by intros [= <- _].
Qed.
End scan.

(** ** Values *)

(** What the parser returns: [isfinite] tells the doubles it accepts. *)
Section valid.
Context (isfinite : Z → bool).

Fixpoint valid (j : json) : Prop :=
  match j with
  | JObject ms => members_ok ms ∧ foldr (λ m, and (well_formed m.1 ∧ valid m.2)) True ms
  | JArray js => foldr (λ j, and (valid j)) True js
  | JString s => well_formed s
  | JUnsigned z => 0 <= z <= uint64_max
  | JInteger z => int64_min <= z <= 0
  | JFloat bits => isfinite bits = true
  | _ => True
  end.

Definition member_valid (m : string * json) : Prop := well_formed m.1 ∧ valid m.2.

Lemma foldr_and {A} (P : A → Prop) l : foldr (λ x, and (P x)) True l ↔ Forall P l.
Proof.
  induction l as [|x l IH]; cbn; [done|]. by rewrite list.Forall_cons, IH.
Qed.

Definition members_valid (ms : list (string * json)) : Prop :=
  members_ok ms ∧ Forall member_valid ms.

Lemma valid_object ms : valid (JObject ms) ↔ members_valid ms.
Proof. unfold members_valid. cbn. by rewrite (foldr_and member_valid). Qed.

Lemma valid_array js : valid (JArray js) ↔ Forall valid js.
Proof. cbn. apply foldr_and. Qed.

Lemma assign_valid key v ms :
  well_formed key → valid v → members_valid ms → members_valid (assign key v ms).
Proof.
  intros Hk Hv [Hok Hms]. split; [by apply assign_ok|]. clear Hok.
  induction Hms as [|[k w] ms Hm Hms IH]; cbn [assign]; [by repeat constructor|].
  case_decide as Heq; [subst; by constructor|].
  case_decide; repeat (constructor; try done).
Qed.
End valid.

(** ** The parser *)

Section parser.
Context (strtod : string → Z) (decimal_point_char : ascii) (isfinite : Z → bool).
Notation valid := (valid isfinite).
Notation members_valid := (members_valid isfinite).

Definition frame_ok (f : frame) : Prop :=
  match f with
  | InArray es => Forall valid es
  | InObject ms key => members_valid ms ∧ well_formed key
  end.

Definition turn_ok (t : turn) : Prop :=
  match t with OnToken tok => token_ok tok | OnValue v => valid v end.

Definition progress_ok (p : progress) : Prop :=
  match p with
  | Continue stack t _ => Forall frame_ok stack ∧ turn_ok t
  | Finished (Ret (v, _)) => valid v
  | Finished (Stop _) => True
  end.

Lemma get_token_ok s : token_ok (get_token strtod decimal_point_char s).1.
Proof.
  destruct (get_token strtod decimal_point_char s) as [t rest] eqn:H.
  by eapply (scan_ok strtod decimal_point_char).
Qed.

Lemma members_valid_nil : members_valid [].
Proof. by repeat constructor. Qed.

Lemma after_key_ok stack ms key s :
  Forall frame_ok stack → members_valid ms → well_formed key →
  progress_ok (after_key strtod decimal_point_char stack ms key s).
Proof.
  intros Hst Hms Hk. unfold after_key. destruct (get_token _ _ s) as [[] s1]; try done.
  pose proof (get_token_ok s1). destruct (get_token _ _ s1) as [t s2].
  split; [|done]. by constructor.
Qed.

Lemma on_token_ok stack t s :
  Forall frame_ok stack → token_ok t →
  progress_ok (on_token strtod decimal_point_char isfinite stack t s).
Proof.
  intros Hst Ht. pose proof (get_token_ok s) as Hg.
  destruct t; cbn [on_token]; try done.
  - case_match; done.
  - destruct (get_token _ _ s) as [[] s1]; cbn [fst] in Hg;
      (split; [|by cbn]); first [done | by repeat constructor].
  - destruct (get_token _ _ s) as [[] s1]; try done.
    + apply after_key_ok; [done|apply members_valid_nil|done].
    + split; [done|]. cbn [turn_ok]. apply valid_object, members_valid_nil.
Qed.

Lemma on_value_ok stack v s :
  Forall frame_ok stack → valid v →
  progress_ok (on_value strtod decimal_point_char stack v s).
Proof.
  intros Hst Hv. destruct stack as [|[es|ms key] stack]; [done|..]; cbn [on_value];
    apply list.Forall_cons in Hst as [Hf Hst]; pose proof (get_token_ok s) as Hg;
    destruct (get_token _ _ s) as [[] s1]; try done; cbn [fst] in Hg.
  - split; [done|]. cbn [turn_ok]. apply valid_array, Forall_app_2; [done|by constructor].
  - pose proof (get_token_ok s1) as Hg1. destruct (get_token _ _ s1) as [t s2].
    split; [|done]. constructor; [|done]. apply Forall_app_2; [done|by constructor].
  - split; [done|]. cbn [turn_ok]. destruct Hf. apply valid_object. by apply assign_valid.
  - pose proof (get_token_ok s1) as Hg1. destruct (get_token _ _ s1) as [[] s2]; try done.
    destruct Hf. apply after_key_ok; [done|by apply assign_valid|done].
Qed.

Lemma sax_parse_internal_ok fuel stack t s v rest :
  Forall frame_ok stack → turn_ok t →
  sax_parse_internal strtod decimal_point_char isfinite fuel stack t s = Ret (v, rest) → valid v.
Proof.
  revert stack t s. induction fuel as [|fuel IH]; intros stack t s Hst Ht H; [done|].
  cbn [sax_parse_internal] in H.
  assert (progress_ok (sax_step strtod decimal_point_char isfinite stack t s)) as Hp.
  { destruct t; [by apply on_token_ok|by apply on_value_ok]. }
  destruct (sax_step _ _ _ stack t s) as [stack' t' s'|r].
  - destruct Hp. by eapply IH.
  - by subst r.
Qed.

Lemma json_parse_valid s j :
  json_parse strtod decimal_point_char isfinite s = Ret j → valid j.
Proof.
  unfold json_parse, parse_value. destruct (first_scan _ _ s) as [t rest] eqn:Hf.
  apply first_scan_ok in Hf. intros H.
  destruct (sax_parse_internal _ _ _ _ _ _) as [[v r]|] eqn:Hl; [|done]. injection H as <-.
  by eapply sax_parse_internal_ok in Hl.
Qed.
End parser.

(** ** The serializer *)

(** A property of all the signed integers and doubles in a value. *)
Fixpoint all_numbers (P : json → bool) (j : json) : bool :=
  match j with
  | JObject ms => forallb (λ m, all_numbers P m.2) ms
  | JArray js => forallb (all_numbers P) js
  | JInteger _ | JFloat _ => P j
  | _ => true
  end.

(** The smallest integer, which [dump_integer] cannot write. *)
Definition not_smallest (j : json) : bool :=
  match j with JInteger z => negb (z =? int64_min) | _ => true end.

Definition no_double (j : json) : bool := match j with JFloat _ => false | _ => true end.

(** As the parser reads it: [-0] is written without its sign. *)
Fixpoint normal (j : json) : json :=
  match j with
  | JObject ms => JObject ((λ m, (m.1, normal m.2)) <$> ms)
  | JArray js => JArray (normal <$> js)
  | JInteger z => if 0 <=? z then JUnsigned z else JInteger z
  | _ => j
  end.

(** [w] returns, or the program ends before. *)
Definition dumps (w : writer) (returns : bool) : Prop :=
  ∃ t, w = (t, if returns then Ret tt else Stop Undefined).

Lemma and_then_dumps w1 w2 b1 b2 : dumps w1 b1 → dumps w2 b2 → dumps (w1 &> w2) (b1 && b2).
Proof. intros [t1 ->] [t2 ->]. by destruct b1; eexists. Qed.

Lemma write_dumps s : dumps (write s) true.
Proof. by eexists. Qed.

Lemma separated_dumps {A} (w : A → writer) (P : A → bool) l :
  Forall (λ x, dumps (w x) (P x)) l → dumps (separated w l) (forallb P l).
Proof.
  induction 1 as [|x [|y l] Hx Hl IH]; [apply write_dumps|cbn; by rewrite andb_true_r|].
  cbn [forallb]. rewrite <- (andb_true_r (P x)). apply and_then_dumps; [|exact IH].
  apply and_then_dumps; [done|apply write_dumps].
Qed.

(** What is between two texts that are written. *)
Lemma between_dumps s1 w b s2 : dumps w b → dumps (write s1 &> w &> write s2) b.
Proof.
  intros Hw. rewrite <- (andb_true_l b), <- (andb_true_r (true && b)).
  by apply and_then_dumps; [apply and_then_dumps; [apply write_dumps|]|apply write_dumps].
Qed.

Lemma dump_escaped_dumps s : well_formed s → dumps (dump_escaped s) true.
Proof. intros [t Ht]%well_formed_escaped. exists t. by apply dump_escaped_ret. Qed.

Lemma dump_integer_dumps z : - 2 ^ 63 <= z < 2 ^ 64 → dumps (dump_integer z) (negb (z =? int64_min)).
Proof.
  intros Hz. destruct (Z.eqb_spec z int64_min) as [->|Hne]; [by eexists; vm_compute|].
  destruct (dump_integer_text z) as (t & -> & _); [unfold int64_min in Hne; lia|by eexists].
Qed.

Lemma valid_dumps isfinite float_text j :
  valid isfinite j → dumps (json_dump isfinite float_text j) (all_numbers not_smallest j).
Proof.
  induction j as [|ms IH|js IH|s|b|z|z|f] using json_nested_ind; intros Hv; cbn [json_dump].
  - apply write_dumps.
  - destruct ms as [|m ms]; [apply write_dumps|]. apply valid_object in Hv as [_ Hv].
    apply between_dumps, (separated_dumps _ (λ m, all_numbers not_smallest m.2)).
    rewrite Forall_forall in *. intros x Hx. destruct (Hv x Hx) as [Hk Hval].
    apply (and_then_dumps _ _ true); [|by apply IH]. by apply between_dumps, dump_escaped_dumps.
  - destruct js as [|j js]; [apply write_dumps|]. apply valid_array in Hv.
    apply between_dumps, separated_dumps. rewrite Forall_forall in *. intros x Hx. by apply IH; [|apply Hv].
  - by apply between_dumps, dump_escaped_dumps.
  - destruct b; apply write_dumps.
  - cbn in Hv. apply dump_integer_dumps. unfold int64_min in *. lia.
  - cbn in Hv. unfold uint64_max in Hv. destruct (dump_integer_dumps z) as [t Ht]; [lia|].
    exists t. rewrite Ht. by rewrite (proj2 (Z.eqb_neq z int64_min)) by (unfold int64_min; lia).
  - rewrite Hv. apply write_dumps.
Qed.

Lemma separated_ext {A B} (w : A → writer) (w' : B → writer) (f : A → B) l :
  Forall (λ x, w' (f x) = w x) l → separated w' (f <$> l) = separated w l.
Proof. induction 1 as [|x [|y l] Hx Hl IH]; [done|done|]. cbn in *. by rewrite Hx, IH. Qed.

(** The same text. *)
Lemma normal_dump isfinite float_text j :
  json_dump isfinite float_text (normal j) = json_dump isfinite float_text j.
Proof.
  induction j as [|ms IH|js IH|s|b|z|z|f] using json_nested_ind; try done; cbn [normal].
  - destruct ms as [|m ms]; [done|]. cbn [json_dump fmap list_fmap].
    pose proof (separated_ext (λ m, write quote &> dump_escaped m.1 &> write (quote +:+ ":") &> json_dump isfinite float_text m.2)
      (λ m, write quote &> dump_escaped m.1 &> write (quote +:+ ":") &> json_dump isfinite float_text m.2)
      (λ m, (m.1, normal m.2)) (m :: ms)) as Hsep. cbn [fmap list_fmap] in Hsep. rewrite Hsep; [done|].
    eapply Forall_impl; [|exact IH]. cbn. by intros x ->.
  - destruct js as [|j js]; [done|]. cbn [json_dump fmap list_fmap].
    by rewrite <- (separated_ext (json_dump isfinite float_text) _ normal (j :: js) IH).
  - by destruct (0 <=? z).
Qed.

Lemma normal_storable isfinite j :
  valid isfinite j → all_numbers no_double j = true → storable (normal j).
Proof.
  induction j as [|ms IH|js IH|s|b|z|z|f] using json_nested_ind; intros Hv Hn; try done; cbn [normal].
  - apply valid_object in Hv as [Hok Hv]. cbn [all_numbers] in Hn. apply Is_true_true, forallb_True in Hn.
    split; [unfold members_ok; by rewrite <- list_fmap_compose|].
    apply (foldr_and (λ m : string * json, storable m.2)), Forall_fmap.
    rewrite Forall_forall in *. intros x Hx. apply IH; [done|by apply Hv|by apply Is_true_true, Hn].
  - apply valid_array in Hv. cbn [all_numbers] in Hn. apply Is_true_true, forallb_True in Hn.
    cbn [storable]. apply foldr_and, Forall_fmap. rewrite Forall_forall in *. intros x Hx.
    by apply IH; [|apply Hv|apply Is_true_true, Hn].
  - cbn in Hv. unfold int64_min in Hv. destruct (Z.leb_spec 0 z); cbn; rewrite andb_true_iff, Z.leb_le, Z.ltb_lt; lia.
  - cbn in *. unfold uint64_max in Hv. rewrite andb_true_iff, Z.leb_le, Z.ltb_lt. lia.
Qed.

(** C34: What has been read can be written. Whatever the text, a value the parser returns
    has objects with strictly ascending keys, UTF-8 strings and keys, integers of 64
    bits (never a positive one with a sign) and finite doubles. The serializer writes it
    without an exception and within its buffers, unless the smallest 64-bit integer
    occurs, which has no defined behaviour ([std::abs]); and what it writes is parsed, when
    there are no doubles, to the same value, in which [-0] has become [0]. *)
Theorem parsed_can_be_written (strtod : string → Z) (decimal_point_char : ascii)
    (isfinite : Z → bool) (float_text : Z → string) (s : string) (j : json) :
  json_parse strtod decimal_point_char isfinite s = Ret j →
  valid isfinite j ∧
  ∃ t, json_dump isfinite float_text j
      = (t, if all_numbers not_smallest j then Ret tt else Stop Undefined) ∧
    (all_numbers not_smallest j = true → all_numbers no_double j = true →
     json_parse strtod decimal_point_char isfinite t = Ret (normal j)).
Proof.
  intros Hp. pose proof (json_parse_valid _ _ _ _ _ Hp) as Hv. split; [done|].
  destruct (valid_dumps isfinite float_text j Hv) as [t Ht]. exists t. split; [done|].
  intros Hn Hd. rewrite Hn, <- normal_dump in Ht. pose proof (normal_storable isfinite j Hv Hd) as Hst.
  unfold json_parse. by rewrite (parse_value_dumped _ _ _ float_text _ t Hst Ht).
Qed.

Definition demo_text : string := quoted "{'b': [1, -2, '\ud83d\ude00'], 'a': null, 'b': [10, -20, -0]} end".

Lemma parsed_can_be_written_witness :
  ∃ t, json_dump (λ _, true) (λ _, "")
      (JObject [("a", JNull); ("b", JArray [JUnsigned 10; JInteger (-20); JInteger 0])]) = (t, Ret tt) ∧
    json_parse (λ _, 0) "."%char (λ _, true) t
      = Ret (JObject [("a", JNull); ("b", JArray [JUnsigned 10; JInteger (-20); JUnsigned 0])]).
Proof.
  destruct (parsed_can_be_written (λ _, 0) "."%char (λ _, true) (λ _, "") demo_text
    (JObject [("a", JNull); ("b", JArray [JUnsigned 10; JInteger (-20); JInteger 0])])) as (_ & t & Ht & Hr);
    [vm_compute; reflexivity|].
  exists t. split; [exact Ht|]. apply Hr; reflexivity.
Defined.
