(* ===== verification/JsonGrammar.v ===== *)
(** * JSON: the grammar

    The grammar of RFC 8259 as inductive relations between a text and its value: what
    the lexer and the parser of [json.hpp] have to recognise. [JsonTokens] proves the
    lexer against it, [JsonRecognizer] the parser. *)

From Stdlib Require Import Ascii.
From stdpp Require Import base list strings numbers.
From S2P Require Import Prelude CppString Json JsonLexer JsonDump JsonNumbers JsonParsed.

Local Open Scope Z_scope.

(** ** White space *)

Inductive ws : string → Prop :=
  | ws_nil : ws ""
  | ws_cons c w : c ∈ [" "; "009"; "010"; "013"]%char → ws w → ws (String c w).

(** ** Strings *)

(** The escapes of two characters: the second one, and the character meant. *)
Definition escapes : list (ascii * ascii) :=
  [(ascii_of_nat 34, ascii_of_nat 34); ("\", "\"); ("/", "/"); ("b", "008"); ("f", "012");
   ("n", "010"); ("r", "013"); ("t", "009")]%char.

(** Four hexadecimal digits. *)
Definition hex4 (h : string) (cp : Z) : Prop :=
  ∃ c1 c2 c3 c4 d1 d2 d3 d4,
    h = String c1 (String c2 (String c3 (String c4 ""))) ∧
    hex_digit c1 = Some d1 ∧ hex_digit c2 = Some d2 ∧ hex_digit c3 = Some d3 ∧
    hex_digit c4 = Some d4 ∧ cp = ((d1 * 16 + d2) * 16 + d3) * 16 + d4.

Definition escape_u (h : string) : string := String "\" (String "u" h).

(** One character of a string: its text, and the bytes (UTF-8) it stands for. *)
Inductive char_text : string → string → Prop :=
  | unescaped cp :
      scalar_value cp → 32 <= cp → cp ≠ 34 → cp ≠ 92 → char_text (encode cp) (encode cp)
  | escaped_char c d :
      (c, d) ∈ escapes → char_text (String "\" (String c "")) (String d "")
  | escaped_unit h cp :
      hex4 h cp → scalar_value cp → char_text (escape_u h) (encode cp)
  | escaped_pair h1 h2 high low :
      hex4 h1 high → 55296 <= high <= 56319 → hex4 h2 low → 56320 <= low <= 57343 →
      char_text (escape_u h1 +:+ escape_u h2)
        (encode (65536 + (high - 55296) * 1024 + (low - 56320))).

Inductive chars_text : string → string → Prop :=
  | chars_nil : chars_text "" ""
  | chars_cons t b ts bs : char_text t b → chars_text ts bs → chars_text (t +:+ ts) (b +:+ bs).

Inductive string_text : string → string → Prop :=
  | string_quoted t s : chars_text t s → string_text (quote +:+ t +:+ quote) s.

(** ** Numbers *)

Inductive digits_text : string → Prop :=
  | digits_some c t : is_digit (byte_of c) = true → digits_only t = true → digits_text (String c t).

Inductive int_text : string → Prop :=
  | int_zero : int_text "0"
  | int_digits c t : between 49 57 (byte_of c) = true → digits_only t = true → int_text (String c t).

Inductive exp_text : string → Prop :=
  | exp_none : exp_text ""
  | exp_some c sign t :
      c ∈ ["e"; "E"]%char → sign ∈ [""; "+"; "-"] → digits_text t → exp_text (String c (sign +:+ t)).

(** A number with a fraction or an exponent is a double, other numbers are integers. *)
Definition number_type_of (sign f e : string) : number_type :=
  match f, e with
  | EmptyString, EmptyString => if decide (sign = "") then nt_unsigned else nt_integer
  | _, _ => nt_float
  end.

Section grammar.
Context (strtod : string → Z) (decimal_point_char : ascii) (isfinite : Z → bool).

(** The text of a fraction, and the text that [strtod] is given for it. *)
Inductive frac_text : string → string → Prop :=
  | frac_none : frac_text "" ""
  | frac_some t : digits_text t → frac_text (String "." t) (String decimal_point_char t).

(** A number with its conversion: integers if they fit in 64 bits, doubles otherwise. *)
Inductive number_text : string → token → Prop :=
  | number sign i f f' e :
      sign ∈ [""; "-"] → int_text i → frac_text f f' → exp_text e →
      number_text (sign +:+ i +:+ f +:+ e)
        (number_token strtod (number_type_of sign f e) (sign +:+ i +:+ f' +:+ e)).

(** The value of a number: a double must be finite. *)
Definition number_json (t : token) : option json :=
  match t with
  | value_unsigned z => Some (JUnsigned z)
  | value_integer z => Some (JInteger z)
  | value_float bits => if isfinite bits then Some (JFloat bits) else None
  | _ => None
  end.

(** ** Values

    Of several members with the same key the last one counts; the members are kept in
    the order of their keys. *)

Definition object_members (ms : list (string * json)) : list (string * json) :=
  foldl (λ o m, assign m.1 m.2 o) [] ms.

Inductive value_text : string → json → Prop :=
  | value_null : value_text "null" JNull
  | value_true : value_text "true" (JBoolean true)
  | value_false : value_text "false" (JBoolean false)
  | value_number t n j : number_text t n → number_json n = Some j → value_text t j
  | value_str t s : string_text t s → value_text t (JString s)
  | value_array_empty w : ws w → value_text ("[" +:+ w +:+ "]") (JArray [])
  | value_array t js : elements_text t js → value_text ("[" +:+ t +:+ "]") (JArray js)
  | value_object_empty w : ws w → value_text ("{" +:+ w +:+ "}") (JObject [])
  | value_object t ms :
      members_text t ms → value_text ("{" +:+ t +:+ "}") (JObject (object_members ms))
with elements_text : string → list json → Prop :=
  | elements_one w1 t j w2 :
      ws w1 → value_text t j → ws w2 → elements_text (w1 +:+ t +:+ w2) [j]
  | elements_more w1 t j w2 ts js :
      ws w1 → value_text t j → ws w2 → elements_text ts js →
      elements_text (w1 +:+ t +:+ w2 +:+ "," +:+ ts) (j :: js)
with members_text : string → list (string * json) → Prop :=
  | members_one w1 tk k w2 w3 t j w4 :
      ws w1 → string_text tk k → ws w2 → ws w3 → value_text t j → ws w4 →
      members_text (w1 +:+ tk +:+ w2 +:+ ":" +:+ w3 +:+ t +:+ w4) [(k, j)]
  | members_more w1 tk k w2 w3 t j w4 ts ms :
      ws w1 → string_text tk k → ws w2 → ws w3 → value_text t j → ws w4 → members_text ts ms →
      members_text (w1 +:+ tk +:+ w2 +:+ ":" +:+ w3 +:+ t +:+ w4 +:+ "," +:+ ts) ((k, j) :: ms).

(** What is added to the grammar: a byte order mark is skipped, and a byte 0 ends the
    input. *)
Definition byte_order_mark : string :=
  String (ascii_of_nat 239) (String (ascii_of_nat 187) (String (ascii_of_nat 191) "")).

Inductive input_end : string → Prop :=
  | end_of_text : input_end ""
  | end_at_zero s : input_end (String (ascii_of_nat 0) s).

Inductive document_text : string → json → Prop :=
  | document mark w1 t j w2 e :
      mark ∈ [""; byte_order_mark] → ws w1 → value_text t j → ws w2 → input_end e →
      document_text (mark +:+ w1 +:+ t +:+ w2 +:+ e) j.
End grammar.

Scheme value_text_mut := Induction for value_text Sort Prop
  with elements_text_mut := Induction for elements_text Sort Prop
  with members_text_mut := Induction for members_text Sort Prop.
