(* ===== verification/JsonTokens.v ===== *)
(** * JSON: the lexer recognises the lexemes

    The lexer of [json.hpp] against the grammar: each token it returns is that of a
    lexeme of the grammar at the beginning of its input, and it reads every lexeme. *)

From Stdlib Require Import Ascii.
From stdpp Require Import base list strings numbers.
From S2P Require Import Prelude CppString Json JsonLexer JsonDump JsonNumbers JsonUtf8.
From S2P Require Import JsonParsed JsonGrammar.

Local Open Scope Z_scope.

Ltac listed := rewrite !elem_of_cons; tauto.
Ltac unlisted H := rewrite !elem_of_cons, elem_of_nil in H; destruct_or! H; try done.

Lemma between_iff lo hi b : between lo hi b = true ↔ lo <= b <= hi.
Proof. unfold between. by rewrite andb_true_iff, !Z.leb_le. Qed.

(** ** Longer sequences of UTF-8 *)

Lemma next_byte_inv lo hi ranges s added rest :
  next_byte_in_range ((lo, hi) :: ranges) s = Some (added, rest) →
  ∃ a s' added', s = String a s' ∧ lo <= byte_of a <= hi ∧
    next_byte_in_range ranges s' = Some (added', rest) ∧ added = String a added'.
Proof.
  cbn [next_byte_in_range]. destruct s as [|a s]; [done|].
  destruct (between lo hi (byte_of a)) eqn:Hb; [|done]. apply between_iff in Hb.
  destruct (next_byte_in_range ranges s) as [[a' r]|] eqn:Hn; [|done].
  intros [= <- <-]. by exists a, s, a'.
Qed.

Ltac next_bytes H :=
  lazymatch type of H with
  | next_byte_in_range [] _ = Some _ => cbn [next_byte_in_range] in H; injection H as <- <-
  | _ =>
      let a := fresh "a" in let s := fresh "s" in let added := fresh "added" in
      let Ha := fresh "Ha" in
      apply next_byte_inv in H as (a & s & added & -> & Ha & H & ->); next_bytes H
  end.

(** The code point of a first byte and the bytes that follow it. *)
Definition lead_value (c : ascii) : Z :=
  if byte_of c <? 224 then byte_of c - 192 else if byte_of c <? 240 then byte_of c - 224 else byte_of c - 240.

Fixpoint sequence_value (v : Z) (added : string) : Z :=
  match added with
  | EmptyString => v
  | String c added => sequence_value (v * 64 + (byte_of c - 128)) added
  end.

(** These bytes encode this code point. *)
Definition encodes (cp : Z) (bytes : string) : Prop := scalar_value cp ∧ 128 <= cp ∧ encode cp = bytes.

Lemma sequence_2 c a :
  194 <= byte_of c <= 223 → 128 <= byte_of a <= 191 →
  encodes (sequence_value (lead_value c) (String a "")) (String c (String a "")).
Proof.
  intros Hc Ha. unfold lead_value. rewrite (proj2 (Z.ltb_lt _ 224)) by lia. cbn [sequence_value].
  split; [unfold scalar_value; lia|]. split; [lia|]. rewrite encode_2_bytes by lia.
  set (cp := (byte_of c - 192) * 64 + (byte_of a - 128)). assert (cp / 64 = byte_of c - 192) as ->
    by (symmetry; apply (Z.div_unique _ _ _ (byte_of a - 128)); lia).
  assert (cp mod 64 = byte_of a - 128) as ->
    by (symmetry; apply (Z.mod_unique _ _ (byte_of c - 192)); lia).
  rewrite !Zplus_minus. by rewrite !char_of_byte.
Qed.

Lemma sequence_3 c a1 a0 (cp := ((byte_of c - 224) * 64 + (byte_of a1 - 128)) * 64 + (byte_of a0 - 128)) :
  224 <= byte_of c <= 239 → 128 <= byte_of a1 <= 191 → 128 <= byte_of a0 <= 191 →
  2047 < cp → ¬ (55296 <= cp <= 57343) →
  encodes (sequence_value (lead_value c) (String a1 (String a0 ""))) (String c (String a1 (String a0 ""))).
Proof.
  intros Hc H1 H0 Hlow Hs. unfold lead_value. rewrite (proj2 (Z.ltb_ge _ 224)), (proj2 (Z.ltb_lt _ 240)) by lia.
  cbn [sequence_value]. subst cp. split; [unfold scalar_value; lia|]. split; [lia|].
  rewrite encode_3_bytes by lia. rewrite !Zplus_minus. by rewrite !char_of_byte.
Qed.

Lemma sequence_4 c a2 a1 a0
    (cp := (((byte_of c - 240) * 64 + (byte_of a2 - 128)) * 64 + (byte_of a1 - 128)) * 64
             + (byte_of a0 - 128)) :
  240 <= byte_of c <= 244 → 128 <= byte_of a2 <= 191 → 128 <= byte_of a1 <= 191 →
  128 <= byte_of a0 <= 191 → 65535 < cp < 1114112 →
  encodes (sequence_value (lead_value c) (String a2 (String a1 (String a0 ""))))
    (String c (String a2 (String a1 (String a0 "")))).
Proof.
  intros Hc H2 H1 H0 Hb. unfold lead_value. rewrite (proj2 (Z.ltb_ge _ 224)), (proj2 (Z.ltb_ge _ 240)) by lia.
  cbn [sequence_value]. subst cp. split; [unfold scalar_value; lia|]. split; [lia|].
  rewrite encode_4_bytes by lia. rewrite !Zplus_minus. by rewrite !char_of_byte.
Qed.

(** The ranges of the lexer are the encodings of the scalar values. *)
Lemma sequence_codepoint c ranges s added rest :
  utf8_ranges (byte_of c) = Some ranges → next_byte_in_range ranges s = Some (added, rest) →
  s = added +:+ rest ∧ encodes (sequence_value (lead_value c) added) (String c added).
Proof.
  intros Hr Hn. unfold utf8_ranges in Hr.
  destruct (between 194 223 (byte_of c)) eqn:H2; [apply between_iff in H2; simplify_eq|].
  { next_bytes Hn. split; [done|]. by apply sequence_2. }
  destruct (Z.eqb_spec (byte_of c) 224); [simplify_eq; next_bytes Hn|].
  { split; [done|]. apply sequence_3; lia. }
  destruct (between 225 236 (byte_of c) || between 238 239 (byte_of c)) eqn:H3;
    [simplify_eq; next_bytes Hn|].
  { rewrite orb_true_iff, !between_iff in H3. split; [done|]. apply sequence_3; lia. }
  destruct (Z.eqb_spec (byte_of c) 237); [simplify_eq; next_bytes Hn|].
  { split; [done|]. apply sequence_3; lia. }
  destruct (Z.eqb_spec (byte_of c) 240); [simplify_eq; next_bytes Hn|].
  { split; [done|]. apply sequence_4; lia. }
  destruct (between 241 243 (byte_of c)) eqn:H4; [simplify_eq; next_bytes Hn|].
  { rewrite between_iff in H4. split; [done|]. apply sequence_4; lia. }
  destruct (Z.eqb_spec (byte_of c) 244); [simplify_eq; next_bytes Hn|done].
  split; [done|]. apply sequence_4; lia.
Qed.

Lemma sequence_sound c ranges s added rest :
  utf8_ranges (byte_of c) = Some ranges → next_byte_in_range ranges s = Some (added, rest) →
  s = added +:+ rest ∧ ∃ cp, scalar_value cp ∧ 128 <= cp ∧ encode cp = String c added.
Proof. intros Hr Hn. destruct (sequence_codepoint c ranges s added rest Hr Hn) as [? ?]. eauto. Qed.

(** ** One character of a string *)

Lemma get_codepoint_iff s cp rest :
  get_codepoint s = Some (cp, rest) ↔ ∃ h, hex4 h cp ∧ s = h +:+ rest.
Proof.
  split.
  - unfold get_codepoint. destruct s as [|c1 [|c2 [|c3 [|c4 s]]]]; try done.
    destruct (hex_digit c1) as [d1|] eqn:H1, (hex_digit c2) as [d2|] eqn:H2,
      (hex_digit c3) as [d3|] eqn:H3, (hex_digit c4) as [d4|] eqn:H4; try done.
    cbn [mbind option_bind]. intros [= <- <-].
    exists (String c1 (String c2 (String c3 (String c4 "")))). split; [|done].
    exists c1, c2, c3, c4, d1, d2, d3, d4. rewrite !Z.shiftl_mul_pow2 by done.
    repeat split; try done. lia.
  - intros (h & (c1 & c2 & c3 & c4 & d1 & d2 & d3 & d4 & -> & H1 & H2 & H3 & H4 & ->) & ->).
    rewrite !str_app_cons, str_app_nil_l. cbn [get_codepoint]. rewrite H1, H2, H3, H4.
    cbn [mbind option_bind]. rewrite !Z.shiftl_mul_pow2 by done. do 2 f_equal. lia.
Qed.

Definition escape_of (c : ascii) : option ascii :=
  (λ p, p.2.2) <$> list_find (λ p, p.1 = c) escapes.

Lemma scan_escape_cons c s :
  scan_escape (String c s) =
    if decide (c = "u"%char) then scan_unicode s else (λ d, (String d "", s)) <$> escape_of c.
Proof. by destruct c as [[] [] [] [] [] [] [] []]. Qed.

Lemma escape_of_iff c d : escape_of c = Some d ↔ (c, d) ∈ escapes.
Proof.
  split.
  - unfold escape_of. intros H. destruct (list_find _ escapes) as [[i [c' d']]|] eqn:Hf; [|done].
    apply list_find_Some in Hf as (Hi & Hc & _). cbn in *. simplify_eq.
    by eapply list_elem_of_lookup_2.
  - unfold escapes. rewrite !elem_of_cons, elem_of_nil. intros H. by destruct_or! H; simplify_eq.
Qed.

Lemma scan_unicode_sound s added rest :
  scan_unicode s = Some (added, rest) →
  ∃ t, char_text (escape_u t) added ∧ s = t +:+ rest.
Proof.
  unfold scan_unicode. destruct (get_codepoint s) as [[cp1 s1]|] eqn:H1; [|done].
  pose proof (get_codepoint_bound _ _ _ H1) as Hb. apply get_codepoint_iff in H1 as (h1 & Hh1 & ->).
  cbn [mbind option_bind]. destruct (between 55296 56319 cp1) eqn:Hhigh.
  - rewrite between_iff in Hhigh. intros H.
    destruct s1 as [|c1 [|c2 s2]]; [done|by repeat case_match|].
    assert (c1 = "\" ∧ c2 = "u")%char as [-> ->] by by repeat case_match.
    destruct (get_codepoint s2) as [[cp2 s3]|] eqn:H2; [|done]. cbn [mbind option_bind] in H.
    apply get_codepoint_iff in H2 as (h2 & Hh2 & ->).
    destruct (between 56320 57343 cp2) eqn:Hlow; [|done]. rewrite between_iff in Hlow.
    injection H as <- <-. exists (h1 +:+ escape_u h2). split; [|by rewrite str_app_assoc].
    rewrite Z.shiftl_mul_pow2 by done.
    replace (cp1 * 2 ^ 10 + cp2 - 56613888)
      with (65536 + (cp1 - 55296) * 1024 + (cp2 - 56320)) by lia.
    by apply escaped_pair.
  - destruct (between 56320 57343 cp1) eqn:Hlow; [done|]. intros [= <- <-].
    rewrite <- not_true_iff_false, between_iff in Hhigh, Hlow. exists h1. split; [|done].
    apply escaped_unit; [done|]. unfold scalar_value. lia.
Qed.

Lemma hex4_bound h cp : hex4 h cp → 0 <= cp < 65536.
Proof. intros H. apply (get_codepoint_bound (h +:+ "") cp ""), get_codepoint_iff. eauto. Qed.

Lemma scan_item_sound s added rest :
  scan_item s = Add added rest → ∃ t, char_text t added ∧ s = t +:+ rest.
Proof.
  unfold scan_item. destruct s as [|c s]; [done|]. pose proof (byte_of_range c).
  destruct (Z.eqb_spec (byte_of c) 34); [done|]. destruct (Z.eqb_spec (byte_of c) 92) as [H92|H92].
  - assert (c = "\"%char) as -> by (rewrite <- (char_of_byte c), H92; reflexivity).
    destruct (scan_escape s) as [[a r]|] eqn:He; [|done]. intros [= -> ->].
    destruct s as [|c s]; [done|]. rewrite scan_escape_cons in He. case_decide as Hu.
    + subst c. apply scan_unicode_sound in He as (t & Ht & ->). by exists (escape_u t).
    + destruct (escape_of c) as [d|] eqn:Hd; [|done]. cbn in He. injection He as <- <-.
      apply escape_of_iff in Hd. exists (String "\" (String c "")). split; [by constructor|done].
  - unfold control_character, plain_character. destruct (Z.leb_spec (byte_of c) 31); [done|].
    destruct (Z.leb_spec (byte_of c) 127).
    + intros [= <- <-]. exists (String c ""). split; [|done].
      rewrite <- (char_of_byte c). rewrite <- encode_1 by lia.
      apply unescaped; [unfold scalar_value; lia|lia..].
    + destruct (utf8_ranges (byte_of c)) as [ranges|] eqn:Hr; [|done].
      destruct (next_byte_in_range ranges s) as [[a r]|] eqn:Hn; [|done]. intros [= <- <-].
      destruct (sequence_sound c ranges s a r Hr Hn) as (-> & cp & Hs & Hcp & He).
      exists (String c a). split; [|done]. rewrite <- He. apply unescaped; [done|lia..].
Qed.

(** A character is scanned, whatever follows it. *)
Lemma scan_unescaped cp rest :
  scalar_value cp → 32 <= cp → cp ≠ 34 → cp ≠ 92 →
  scan_item (encode cp +:+ rest) = Add (encode cp) rest.
Proof.
  intros Hs H32 H34 H92. destruct (Z.lt_ge_cases cp 128) as [Hc|Hc].
  - rewrite encode_1, str_app_cons, str_app_nil_l by lia. unfold scan_item.
    rewrite byte_of_char by lia. unfold control_character, plain_character.
    rewrite (proj2 (Z.eqb_neq cp 34)), (proj2 (Z.eqb_neq cp 92)) by done.
    by rewrite (proj2 (Z.leb_gt cp 31)), (proj2 (Z.leb_le cp 127)) by lia.
  - destruct (encode_sequence cp Hs Hc) as (c & ranges & added & -> & Hl & Hr & Hn).
    rewrite str_app_cons. unfold scan_item, control_character, plain_character.
    rewrite (proj2 (Z.eqb_neq _ 34)), (proj2 (Z.eqb_neq _ 92)) by lia.
    rewrite (proj2 (Z.leb_gt _ 31)), (proj2 (Z.leb_gt _ 127)) by lia.
    by rewrite Hr, (next_byte_extend ranges added "" Hn).
Qed.

Lemma scan_backslash s :
  scan_item (String "\" s) = match scan_escape s with Some (added, s) => Add added s | None => Bad end.
Proof. done. Qed.

Lemma get_codepoint_hex4 h cp rest : hex4 h cp → get_codepoint (h +:+ rest) = Some (cp, rest).
Proof. intros H. apply get_codepoint_iff. by exists h. Qed.

Lemma scan_char t b rest : char_text t b → scan_item (t +:+ rest) = Add b rest.
Proof.
  intros [cp Hs H32 H34 H92|c d Hcd|h cp Hh Hs|h1 h2 high low H1 Hhigh H2 Hlow].
  - by apply scan_unescaped.
  - rewrite !str_app_cons, str_app_nil_l, scan_backslash, scan_escape_cons.
    apply escape_of_iff in Hcd. rewrite Hcd. case_decide; [by subst|done].
  - unfold escape_u. rewrite !str_app_cons, scan_backslash, scan_escape_cons, decide_True by done.
    unfold scan_unicode. rewrite (get_codepoint_hex4 h cp rest Hh). cbn [mbind option_bind].
    destruct Hs as [_ Hs]. destruct (between 55296 56319 cp) eqn:Hb1; [apply between_iff in Hb1; lia|].
    destruct (between 56320 57343 cp) eqn:Hb2; [apply between_iff in Hb2; lia|done].
  - unfold escape_u. rewrite !str_app_cons, str_app_assoc, !str_app_cons, scan_backslash.
    rewrite scan_escape_cons, decide_True by done.
    unfold scan_unicode. rewrite (get_codepoint_hex4 h1 high _ H1). cbn [mbind option_bind].
    rewrite (proj2 (between_iff 55296 56319 high)) by done.
    rewrite (get_codepoint_hex4 h2 low rest H2). cbn [mbind option_bind].
    rewrite (proj2 (between_iff 56320 57343 low)) by done.
    rewrite Z.shiftl_mul_pow2 by done. do 2 f_equal. lia.
Qed.

(** ** Strings *)

Lemma scan_item_close s rest : scan_item s = Close rest → s = quote +:+ rest.
Proof.
  unfold scan_item. destruct s as [|c s]; [done|]. destruct (Z.eqb_spec (byte_of c) 34) as [H34|H34].
  - intros [= <-]. by rewrite <- (char_of_byte c), H34.
  - destruct (byte_of c =? 92); [by destruct (scan_escape s) as [[]|]|].
    destruct (control_character _); [done|]. destruct (plain_character _); [done|].
    destruct (utf8_ranges _); [|done]. by destruct (next_byte_in_range _ _) as [[]|].
Qed.

Lemma scan_string_sound fuel buf s str rest :
  scan_string_loop fuel buf s = (value_string str, rest) →
  ∃ t b, chars_text t b ∧ str = buf +:+ b ∧ s = t +:+ quote +:+ rest.
Proof.
  revert buf s. induction fuel as [|fuel IH]; intros buf s H; cbn [scan_string_loop] in H; [done|].
  destruct (scan_item s) as [added s'|s'|] eqn:Hi; [|injection H as <- <-|done].
  - apply scan_item_sound in Hi as (t & Ht & ->). apply IH in H as (ts & bs & Hts & -> & ->).
    exists (t +:+ ts), (added +:+ bs). rewrite !str_app_assoc. by split; [constructor|].
  - exists "", "". split; [constructor|]. rewrite str_app_nil_r, str_app_nil_l. split; [done|].
    by apply scan_item_close.
Qed.

Lemma scan_string_complete t b rest :
  chars_text t b → ∀ fuel buf, (String.length (t +:+ quote +:+ rest) <= fuel)%nat →
  scan_string_loop fuel buf (t +:+ quote +:+ rest) = (value_string (buf +:+ b), rest).
Proof.
  induction 1 as [|t b ts bs Ht Hts IH]; intros fuel buf Hf.
  - rewrite str_app_nil_l in *. unfold quote in *. rewrite str_app_cons, str_app_nil_l in *.
    destruct fuel; [cbn [String.length] in Hf; lia|]. by rewrite str_app_nil_r.
  - rewrite str_app_assoc in *. pose proof (scan_char t b (ts +:+ quote +:+ rest) Ht) as Hi.
    pose proof (scan_item_length (t +:+ ts +:+ quote +:+ rest)) as Hl. rewrite Hi in Hl.
    destruct fuel as [|fuel]; [lia|]. cbn [scan_string_loop]. rewrite Hi, IH by lia.
    by rewrite str_app_assoc.
Qed.

(** ** Numbers *)

Section numbers.
Context (strtod : string → Z) (decimal_point_char : ascii).
Notation scan_number_from := (scan_number_from strtod decimal_point_char).
Notation number_token := (number_token strtod).
Notation frac_text := (frac_text decimal_point_char).
Notation number_text := (number_text strtod decimal_point_char).

(** The first byte of a text. *)
Definition first_byte (s : string) : option Z :=
  match s with String c _ => Some (byte_of c) | EmptyString => None end.

Lemma scan_number_go st st' ty buf c s :
  number_step st (Some (byte_of c)) = Go st' →
  scan_number_from st ty buf (String c s) =
    scan_number_from st' (type_after st ty)
      (buf +:+ String (match st' with sn_decimal1 => decimal_point_char | _ => c end) "") s.
Proof. intros H. cbn [JsonLexer.scan_number_from]. by rewrite H. Qed.

Lemma scan_number_done st ty buf s :
  number_step st (first_byte s) = Done →
  scan_number_from st ty buf s = (number_token (type_after st ty) buf, s).
Proof. intros H. destruct s; cbn [JsonLexer.scan_number_from]; cbn in H; by rewrite H. Qed.

(** A scan that succeeds goes on with a byte or is done. *)
Lemma scan_number_inv st ty buf s tok rest :
  scan_number_from st ty buf s = (tok, rest) → tok ≠ parse_error →
  (∃ c s' st', s = String c s' ∧ number_step st (Some (byte_of c)) = Go st' ∧
     scan_number_from st' (type_after st ty)
       (buf +:+ String (match st' with sn_decimal1 => decimal_point_char | _ => c end) "") s'
       = (tok, rest)) ∨
  number_step st (first_byte s) = Done ∧ tok = number_token (type_after st ty) buf ∧ s = rest.
Proof.
  intros H Htok. destruct s as [|c s]; cbn [JsonLexer.scan_number_from first_byte] in *.
  - right. destruct (number_step st None) eqn:Hs; by simplify_eq.
  - destruct (number_step st (Some (byte_of c))) as [st'| |] eqn:Hs; simplify_eq; [left; eauto 6|by right].
Qed.

Lemma byte_char c z : byte_of c = z → c = char_of z.
Proof. intros <-. by rewrite char_of_byte. Qed.

Lemma str_snoc buf c t : (buf +:+ String c "") +:+ t = buf +:+ String c t.
Proof. by rewrite str_app_assoc, str_app_cons, str_app_nil_l. Qed.

(** The moves of the automaton. *)
Lemma any2_go b st : number_step sn_any2 (Some b) = Go st → st = sn_any2 ∧ is_digit b = true.
Proof. cbn. destruct (is_digit b); naive_solver. Qed.

Lemma exponent_char c : is_exponent (byte_of c) = true → c ∈ ["e"; "E"]%char.
Proof.
  unfold is_exponent. rewrite orb_true_iff, !Z.eqb_eq, !elem_of_cons.
  intros [H|H]; apply byte_char in H as ->; auto.
Qed.

Lemma any2_sound buf s tok rest :
  scan_number_from sn_any2 nt_float buf s = (tok, rest) → tok ≠ parse_error →
  ∃ t, digits_only t = true ∧ s = t +:+ rest ∧ tok = value_float (strtod (buf +:+ t)).
Proof.
  revert buf. induction s as [|c s IH]; intros buf H Htok;
    destruct (scan_number_inv _ _ _ _ _ _ H Htok) as [(c' & s' & st & [= -> ->] & Hg & H')|(_ & -> & ->)];
    try (exists ""; by rewrite str_app_nil_r).
  apply any2_go in Hg as [-> Hd]. destruct (IH _ H' Htok) as (t & Ht & -> & ->).
  exists (String c' t). cbn [all_chars]. rewrite Hd, str_snoc. by split.
Qed.

Lemma sign_sound buf s tok rest :
  scan_number_from sn_sign nt_float buf s = (tok, rest) → tok ≠ parse_error →
  ∃ t, digits_text t ∧ s = t +:+ rest ∧ tok = value_float (strtod (buf +:+ t)).
Proof.
  intros H Htok.
  destruct (scan_number_inv _ _ _ _ _ _ H Htok) as [(c & s' & st & -> & Hg & H')|(Hd & _)].
  - cbn in Hg. destruct (is_digit (byte_of c)) eqn:Hc; [|done]. injection Hg as <-.
    apply any2_sound in H' as (t & Ht & -> & ->); [|done].
    exists (String c t). rewrite str_snoc. by split; [constructor|].
  - exfalso. destruct s; cbn in Hd; by repeat case_match.
Qed.

(** A state in which the number cannot end. *)
Lemma not_done st s : st ∈ [sn_minus; sn_decimal1; sn_exponent; sn_sign] →
  number_step st (first_byte s) ≠ Done.
Proof.
  intros Hst H. unlisted Hst; subst; destruct s; cbn in H; by repeat case_match.
Qed.

Lemma exponent_sound ty buf s tok rest :
  scan_number_from sn_exponent ty buf s = (tok, rest) → tok ≠ parse_error →
  ∃ sign t, sign ∈ [""; "+"; "-"] ∧ digits_text t ∧ s = sign +:+ t +:+ rest ∧
    tok = value_float (strtod (buf +:+ sign +:+ t)).
Proof.
  intros H Htok.
  destruct (scan_number_inv _ _ _ _ _ _ H Htok) as [(c & s' & st & -> & Hg & H')|(Hd & _)];
    [|by apply not_done in Hd; [|listed]].
  cbn in Hg, H'. destruct ((byte_of c =? 43) || (byte_of c =? 45)) eqn:Hs;
    [|destruct (is_digit (byte_of c)) eqn:Hc; [|done]]; injection Hg as <-.
  - apply sign_sound in H' as (t & Ht & -> & ->); [|done].
    exists (String c ""), t. rewrite !str_app_cons, !str_app_nil_l, str_snoc. split_and!; [|done..].
    rewrite orb_true_iff, !Z.eqb_eq in Hs. destruct Hs as [Hs|Hs]; apply byte_char in Hs as ->; listed.
  - apply any2_sound in H' as (t & Ht & -> & ->); [|done].
    exists "", (String c t). rewrite !str_app_nil_l, str_snoc. split_and!; [listed|by constructor|done|done].
Qed.

(** The exponent, from a state that has read its letter. *)
Lemma exp_sound ty buf c s tok rest :
  is_exponent (byte_of c) = true →
  scan_number_from sn_exponent ty (buf +:+ String c "") s = (tok, rest) → tok ≠ parse_error →
  ∃ e, exp_text e ∧ e ≠ "" ∧ String c s = e +:+ rest ∧ tok = value_float (strtod (buf +:+ e)).
Proof.
  intros Hc H Htok. apply exponent_sound in H as (sign & t & Hs & Ht & -> & ->); [|done].
  exists (String c (sign +:+ t)). rewrite str_snoc, str_app_cons, str_app_assoc.
  split_and!; try done. by constructor; [apply exponent_char|..].
Qed.

Lemma decimal2_sound buf s tok rest :
  scan_number_from sn_decimal2 nt_float buf s = (tok, rest) → tok ≠ parse_error →
  ∃ t e, digits_only t = true ∧ exp_text e ∧ s = t +:+ e +:+ rest ∧
    tok = value_float (strtod (buf +:+ t +:+ e)).
Proof.
  revert buf. induction s as [|c s IH]; intros buf H Htok;
    destruct (scan_number_inv _ _ _ _ _ _ H Htok) as [(c' & s' & st & [= -> ->] & Hg & H')|(_ & -> & ->)];
    try (exists "", ""; rewrite !str_app_nil_l, str_app_nil_r; split_and!; constructor).
  cbn in Hg, H'. destruct (is_digit (byte_of c')) eqn:Hd; [injection Hg as <-|
    destruct (is_exponent (byte_of c')) eqn:He; [injection Hg as <-|done]].
  - destruct (IH _ H' Htok) as (t & e & Ht & He & -> & ->).
    exists (String c' t), e. cbn [all_chars]. rewrite Hd, str_snoc, !str_app_cons. by split_and!.
  - destruct (exp_sound _ _ _ _ _ _ He H' Htok) as (e & Hte & _ & -> & ->).
    exists "", e. rewrite !str_app_nil_l. by split_and!.
Qed.

(** A fraction, from a state that has read its point. *)
Lemma frac_sound buf s tok rest :
  scan_number_from sn_decimal1 nt_float buf s = (tok, rest) → tok ≠ parse_error →
  ∃ t e, digits_text t ∧ exp_text e ∧ s = t +:+ e +:+ rest ∧
    tok = value_float (strtod (buf +:+ t +:+ e)).
Proof.
  intros H Htok.
  destruct (scan_number_inv _ _ _ _ _ _ H Htok) as [(c & s' & st & -> & Hg & H')|(Hd & _)];
    [|by apply not_done in Hd; [|listed]].
  cbn in Hg, H'. destruct (is_digit (byte_of c)) eqn:Hc; [|done]. injection Hg as <-.
  apply decimal2_sound in H' as (t & e & Ht & He & -> & ->); [|done].
  exists (String c t), e. rewrite str_snoc, !str_app_cons. by split_and!; [constructor|..].
Qed.

(** What may follow the integer part: from [sn_zero] and [sn_any1]. *)
Definition suffix_token (ty : number_type) (buf f f' e : string) : token :=
  number_token (match f, e with EmptyString, EmptyString => ty | _, _ => nt_float end)
    (buf +:+ f' +:+ e).

Lemma suffix_sound st ty buf c s tok rest :
  st = sn_decimal1 ∧ byte_of c = 46 ∨ st = sn_exponent ∧ is_exponent (byte_of c) = true →
  scan_number_from st ty
    (buf +:+ String (match st with sn_decimal1 => decimal_point_char | _ => c end) "") s = (tok, rest) →
  tok ≠ parse_error →
  ∃ f f' e, frac_text f f' ∧ exp_text e ∧ String c s = f +:+ e +:+ rest ∧
    tok = suffix_token ty buf f f' e.
Proof.
  intros [[-> Hc]|[-> Hc]] H Htok.
  - apply byte_char in Hc as ->.
    assert (scan_number_from sn_decimal1 nt_float (buf +:+ String decimal_point_char "") s = (tok, rest))
      as H' by by destruct s.
    apply frac_sound in H' as (t & e & Ht & He & -> & ->); [|done].
    exists (String "." t), (String decimal_point_char t), e.
    unfold suffix_token. rewrite str_snoc, !str_app_cons. by split_and!; [constructor|..].
  - destruct (exp_sound _ _ _ _ _ _ Hc H Htok) as (e & Hte & Hne & -> & ->).
    exists "", "", e. split_and!; [constructor|done..|]. unfold suffix_token. by destruct e.
Qed.
Lemma zero_sound ty buf s tok rest :
  scan_number_from sn_zero ty buf s = (tok, rest) → tok ≠ parse_error →
  ∃ f f' e, frac_text f f' ∧ exp_text e ∧ s = f +:+ e +:+ rest ∧ tok = suffix_token ty buf f f' e.
Proof.
  intros H Htok.
  destruct (scan_number_inv _ _ _ _ _ _ H Htok) as [(c & s' & st & -> & Hg & H')|(_ & -> & ->)].
  - eapply suffix_sound; [|exact H'|done]. cbn in Hg.
    destruct (Z.eqb_spec (byte_of c) 46); [injection Hg as <-; by left|].
    destruct (is_exponent (byte_of c)); [injection Hg as <-; by right|done].
  - exists "", "", "". unfold suffix_token. rewrite !str_app_nil_l, str_app_nil_r.
    by split_and!; [constructor|constructor|..].
Qed.

Lemma any1_sound ty buf s tok rest :
  scan_number_from sn_any1 ty buf s = (tok, rest) → tok ≠ parse_error →
  ∃ t f f' e, digits_only t = true ∧ frac_text f f' ∧ exp_text e ∧ s = t +:+ f +:+ e +:+ rest ∧
    tok = suffix_token ty (buf +:+ t) f f' e.
Proof.
  revert buf. induction s as [|c s IH]; intros buf H Htok;
    destruct (scan_number_inv _ _ _ _ _ _ H Htok) as [(c' & s' & st & [= -> ->] & Hg & H')|(_ & -> & ->)];
    try (exists "", "", "", ""; unfold suffix_token; rewrite !str_app_nil_l, !str_app_nil_r;
      by split_and!; [|constructor|constructor|..]).
  cbn in Hg. destruct (is_digit (byte_of c')) eqn:Hd.
  { injection Hg as <-. destruct (IH _ H' Htok) as (t & f & f' & e & Ht & Hf & He & -> & ->).
    exists (String c' t), f, f', e. cbn [all_chars]. rewrite Hd, str_snoc, !str_app_cons. by split_and!. }
  edestruct (suffix_sound st) as (f & f' & e & Hf & He & Heq & ->); [|exact H'|done|].
  - destruct (Z.eqb_spec (byte_of c') 46); [injection Hg as <-; by left|].
    destruct (is_exponent (byte_of c')); [injection Hg as <-; by right|done].
  - exists "", f, f', e. rewrite str_app_nil_r, str_app_nil_l. by split_and!.
Qed.

(** The number without its sign: its first digit has been read. *)
Lemma unsigned_sound ty buf c s tok rest :
  between 48 57 (byte_of c) = true →
  scan_number_from (if byte_of c =? 48 then sn_zero else sn_any1) ty (buf +:+ String c "") s
    = (tok, rest) → tok ≠ parse_error →
  ∃ i f f' e, int_text i ∧ frac_text f f' ∧ exp_text e ∧ String c s = i +:+ f +:+ e +:+ rest ∧
    tok = suffix_token ty (buf +:+ i) f f' e.
Proof.
  intros Hc H Htok. rewrite between_iff in Hc. destruct (Z.eqb_spec (byte_of c) 48) as [H48|H48].
  - apply byte_char in H48 as ->. apply zero_sound in H as (f & f' & e & Hf & He & -> & ->); [|done].
    exists "0", f, f', e. by split_and!; [constructor|..].
  - apply any1_sound in H as (t & f & f' & e & Ht & Hf & He & -> & ->); [|done].
    exists (String c t), f, f', e. rewrite str_snoc, !str_app_cons.
    split_and!; try done. constructor; [|done]. rewrite between_iff. lia.
Qed.

Lemma suffix_number_token sign ty i f f' e :
  ty = (if decide (sign = "") then nt_unsigned else nt_integer) →
  suffix_token ty (sign +:+ i) f f' e
    = number_token (number_type_of sign f e) (sign +:+ i +:+ f' +:+ e).
Proof. intros ->. unfold suffix_token. rewrite str_app_assoc. by destruct f, e. Qed.

Lemma scan_number_sound c s tok rest :
  (byte_of c =? 45) || is_digit (byte_of c) = true →
  scan_number strtod decimal_point_char c s = (tok, rest) → tok ≠ parse_error →
  ∃ t, number_text t tok ∧ String c s = t +:+ rest.
Proof.
  unfold scan_number. intros Hc H Htok. destruct (Z.eqb_spec (byte_of c) 45) as [H45|H45].
  - apply byte_char in H45 as ->.
    destruct (scan_number_inv _ _ _ _ _ _ H Htok) as [(c & s' & st & -> & Hg & H')|(Hd & _)];
      [|by apply not_done in Hd; [|listed]].
    cbn [number_step on_byte type_after] in Hg, H'. unfold scan_number_minus, on_byte in Hg.
    assert (between 48 57 (byte_of c) = true ∧
      st = if byte_of c =? 48 then sn_zero else sn_any1) as [Hb ->].
    { rewrite between_iff. destruct (Z.eqb_spec (byte_of c) 48); [split; [lia|by injection Hg]|].
      destruct (between 49 57 (byte_of c)) eqn:Hb; [|done]. rewrite between_iff in Hb.
      split; [lia|by injection Hg]. }
    assert (scan_number_from (if byte_of c =? 48 then sn_zero else sn_any1) nt_integer
      ("-" +:+ String c "") s' = (tok, rest)) as H1 by by destruct (byte_of c =? 48).
    apply unsigned_sound in H1 as (i & f & f' & e & Hi & Hf & He & Heq & ->); [|done..].
    exists ("-" +:+ i +:+ f +:+ e). rewrite suffix_number_token by done.
    split; [by constructor; [listed|..]|]. rewrite Heq, !str_app_assoc. reflexivity.
  - cbn [orb] in Hc. change (String c "") with ("" +:+ String c "") in H.
    apply unsigned_sound in H as (i & f & f' & e & Hi & Hf & He & Heq & ->); [|done..].
    exists ("" +:+ i +:+ f +:+ e). rewrite suffix_number_token by done.
    split; [by constructor; [listed|..]|]. rewrite Heq, !str_app_assoc. reflexivity.
Qed.
(** Every number is scanned, when what follows does not go on with it. *)
Lemma ends_done st rest :
  st ∈ [sn_zero; sn_any1; sn_decimal2; sn_any2] → ends_number rest = true →
  number_step st (first_byte rest) = Done.
Proof.
  rewrite !elem_of_cons, elem_of_nil. intros Hst Hr. destruct rest as [|c rest].
  { by destruct_or! Hst; subst. }
  cbn [ends_number] in Hr. apply negb_true_iff, orb_false_iff in Hr as [[H1 H2]%orb_false_iff H3].
  destruct_or! Hst; subst; cbn; by rewrite ?H1, ?H2, ?H3.
Qed.

Lemma any2_complete buf t rest :
  digits_only t = true → ends_number rest = true →
  scan_number_from sn_any2 nt_float buf (t +:+ rest) = (value_float (strtod (buf +:+ t)), rest).
Proof.
  revert buf. induction t as [|c t IH]; intros buf Ht Hr.
  - rewrite str_app_nil_l, str_app_nil_r, scan_number_done; [done|]. apply ends_done; [listed|done].
  - cbn [all_chars] in Ht. apply andb_true_iff in Ht as [Hc Ht]. rewrite str_app_cons.
    rewrite (scan_number_go _ sn_any2) by (cbn; by rewrite Hc). rewrite IH by done. by rewrite str_snoc.
Qed.

Lemma digits_complete st buf t rest :
  st ∈ [sn_exponent; sn_sign] → digits_text t → ends_number rest = true →
  scan_number_from st nt_float buf (t +:+ rest) = (value_float (strtod (buf +:+ t)), rest).
Proof.
  rewrite !elem_of_cons, elem_of_nil. intros Hst [c t' Hc Ht] Hr. rewrite str_app_cons.
  assert (number_step st (Some (byte_of c)) = Go sn_any2) as Hg.
  { destruct_or! Hst; subst; cbn; rewrite Hc; [|done]. unfold is_digit in Hc.
    rewrite between_iff in Hc. by rewrite !(proj2 (Z.eqb_neq _ _)) by lia. }
  rewrite (scan_number_go _ _ _ _ _ _ Hg).
  assert (type_after st nt_float = nt_float) as -> by (by destruct_or! Hst; subst).
  rewrite any2_complete by done. by rewrite str_snoc.
Qed.

Lemma exp_complete st ty buf e rest :
  st ∈ [sn_zero; sn_any1; sn_decimal2] → exp_text e → ends_number rest = true →
  scan_number_from st ty buf (e +:+ rest)
    = (number_token (match e with EmptyString => type_after st ty | _ => nt_float end) (buf +:+ e), rest).
Proof.
  intros Hst [|c sign t Hc Hs Ht] Hr.
  { rewrite str_app_nil_l, str_app_nil_r, scan_number_done; [done|].
    apply ends_done; [|done]. rewrite !elem_of_cons in *. tauto. }
  rewrite !str_app_cons, str_app_assoc.
  assert (number_step st (Some (byte_of c)) = Go sn_exponent) as Hg
    by (unlisted Hst; unlisted Hc; by subst).
  rewrite (scan_number_go _ _ _ _ _ _ Hg).
  unlisted Hs; subst sign.
  - rewrite !str_app_nil_l. assert (∀ ty s buf, scan_number_from sn_exponent ty buf s
      = scan_number_from sn_exponent nt_float buf s) as -> by by intros ? [].
    rewrite digits_complete by (done || listed). by rewrite str_snoc.
  - rewrite !str_app_cons, !str_app_nil_l. rewrite (scan_number_go _ sn_sign) by done.
    cbn [type_after]. rewrite digits_complete by (done || listed). by rewrite !str_snoc.
  - rewrite !str_app_cons, !str_app_nil_l. rewrite (scan_number_go _ sn_sign) by done.
    cbn [type_after]. rewrite digits_complete by (done || listed). by rewrite !str_snoc.
Qed.

Lemma decimal2_complete buf t e rest :
  digits_only t = true → exp_text e → ends_number rest = true →
  scan_number_from sn_decimal2 nt_float buf (t +:+ e +:+ rest)
    = (value_float (strtod (buf +:+ t +:+ e)), rest).
Proof.
  intros Ht He Hr. revert buf Ht. induction t as [|c t IH]; intros buf Ht.
  - rewrite !str_app_nil_l, exp_complete by (done || listed). by destruct e.
  - cbn [all_chars] in Ht. apply andb_true_iff in Ht as [Hc Ht]. rewrite !str_app_cons.
    rewrite (scan_number_go _ sn_decimal2) by (cbn; by rewrite Hc). rewrite IH by done.
    by rewrite str_snoc.
Qed.

Lemma suffix_complete st ty buf f f' e rest :
  st ∈ [sn_zero; sn_any1] → frac_text f f' → exp_text e → ends_number rest = true →
  scan_number_from st ty buf (f +:+ e +:+ rest) = (suffix_token ty buf f f' e, rest).
Proof.
  intros Hst Hf He Hr. unfold suffix_token.
  assert (type_after st ty = ty) as Hty.
  { by unlisted Hst; subst. }
  destruct Hf as [|t [c t' Hc Ht]].
  - rewrite !str_app_nil_l, exp_complete; [by rewrite Hty|..|done|done].
    rewrite !elem_of_cons in *. tauto.
  - rewrite !str_app_cons. assert (number_step st (Some (byte_of ".")) = Go sn_decimal1) as Hg.
    { by unlisted Hst; subst. }
    rewrite (scan_number_go _ _ _ _ _ _ Hg). rewrite (scan_number_go _ sn_decimal2) by (cbn; by rewrite Hc).
    cbn [type_after]. rewrite decimal2_complete by done. by rewrite !str_snoc.
Qed.

Lemma any1_complete ty buf t f f' e rest :
  digits_only t = true → frac_text f f' → exp_text e → ends_number rest = true →
  scan_number_from sn_any1 ty buf (t +:+ f +:+ e +:+ rest)
    = (suffix_token ty (buf +:+ t) f f' e, rest).
Proof.
  intros Ht Hf He Hr. revert buf Ht. induction t as [|c t IH]; intros buf Ht.
  - rewrite str_app_nil_l, str_app_nil_r. apply suffix_complete; (done || listed).
  - cbn [all_chars] in Ht. apply andb_true_iff in Ht as [Hc Ht]. rewrite str_app_cons.
    rewrite (scan_number_go _ sn_any1) by (cbn; by rewrite Hc). cbn [type_after]. rewrite IH by done.
    by rewrite str_snoc.
Qed.

Lemma scan_number_complete t tok rest :
  number_text t tok → ends_number rest = true →
  scan strtod decimal_point_char (t +:+ rest) = (tok, rest).
Proof.
  intros [sign i f f' e Hs Hi Hf He] Hr. rewrite !str_app_assoc.
  unlisted Hs; subst sign.
  - rewrite str_app_nil_l. destruct Hi as [|c ds Hc Ht]; rewrite str_app_cons, scan_first_digit by auto.
    + change (scan_number strtod decimal_point_char "0")
        with (scan_number_from sn_zero nt_unsigned "0").
      rewrite str_app_nil_l, (suffix_complete _ _ _ f f' e) by (done || listed).
      by destruct f, e.
    + unfold scan_number. rewrite between_iff in Hc.
      rewrite !(proj2 (Z.eqb_neq _ _)) by lia. rewrite (any1_complete _ _ ds f f' e) by done.
      by destruct f, e.
  - rewrite str_app_cons, str_app_nil_l, scan_first_digit by auto.
    change (scan_number strtod decimal_point_char "-")
      with (scan_number_from sn_minus nt_unsigned "-").
    destruct Hi as [|c ds Hc Ht]; rewrite str_app_cons.
    + rewrite (scan_number_go _ sn_zero) by done. cbn [type_after].
      rewrite str_app_nil_l, (suffix_complete _ _ _ f f' e) by (done || listed).
      by destruct f, e.
    + pose proof Hc as Hb. rewrite between_iff in Hb. rewrite (scan_number_go _ sn_any1).
      2: { cbn. by rewrite (proj2 (Z.eqb_neq _ 48)), Hc by lia. }
      cbn [type_after]. rewrite (any1_complete _ _ ds f f' e) by done. rewrite str_snoc.
      by destruct f, e.
Qed.
End numbers.

(** ** Lexemes *)

Section lexemes.
Context (strtod : string → Z) (decimal_point_char : ascii).
Notation scan := (scan strtod decimal_point_char).

Inductive lexeme : string → token → Prop :=
  | lex_begin_array : lexeme "[" begin_array
  | lex_end_array : lexeme "]" end_array
  | lex_begin_object : lexeme "{" begin_object
  | lex_end_object : lexeme "}" end_object
  | lex_colon : lexeme ":" name_separator
  | lex_comma : lexeme "," value_separator
  | lex_true : lexeme "true" literal_true
  | lex_false : lexeme "false" literal_false
  | lex_null : lexeme "null" literal_null
  | lex_string t s : string_text t s → lexeme t (value_string s)
  | lex_number t tok : number_text strtod decimal_point_char t tok → lexeme t tok.

(** White space, a lexeme, and the rest of the input. *)
Definition scanned (s : string) (tok : token) (rest : string) : Prop :=
  ∃ w t, ws w ∧ lexeme t tok ∧ s = w +:+ t +:+ rest.

Lemma whitespace_char c : is_whitespace (byte_of c) = true ↔ c ∈ [" "; "009"; "010"; "013"]%char.
Proof.
  unfold is_whitespace. rewrite !orb_true_iff, !Z.eqb_eq. split.
  - intros [[[H|H]|H]|H]; apply byte_char in H as ->; listed.
  - intros H. unlisted H; subst; cbn; tauto.
Qed.

Lemma scan_ws w s : ws w → scan (w +:+ s) = scan s.
Proof.
  induction 1 as [|c w Hc Hw IH]; [done|]. rewrite str_app_cons. cbn [JsonLexer.scan].
  by rewrite (proj2 (whitespace_char c) Hc).
Qed.

Lemma scan_literal_sound text result s tok rest :
  scan_literal text result s = (tok, rest) → tok ≠ parse_error → tok = result ∧ s = text +:+ rest.
Proof.
  revert s. induction text as [|x text IH]; intros s H Htok; cbn [scan_literal] in H; [by simplify_eq|].
  destruct s as [|c s]; [by simplify_eq|]. case_decide; [|by simplify_eq]. subst c.
  destruct (IH s H Htok) as [-> ->]. done.
Qed.

Lemma number_token_kind ty buf :
  match number_token strtod ty buf with
  | value_unsigned _ | value_integer _ | value_float _ => True
  | _ => False
  end.
Proof. unfold number_token. destruct ty; repeat case_match; done. Qed.

Lemma number_text_kind t tok : number_text strtod decimal_point_char t tok →
  match tok with value_unsigned _ | value_integer _ | value_float _ => True | _ => False end.
Proof. intros [sign i f f' e _ _ _ _]. apply number_token_kind. Qed.

(** A string token comes from a string, the other ones are no strings. *)
Lemma scan_string_token s tok rest :
  scan_string s = (tok, rest) → tok ≠ parse_error →
  ∃ str t, tok = value_string str ∧ string_text (quote +:+ t +:+ quote) str ∧
    s = t +:+ quote +:+ rest.
Proof.
  unfold scan_string. intros H Htok. assert (∃ str, tok = value_string str) as [str ->].
  { revert H. generalize (S (String.length s)) as fuel, "" as buf. intros fuel. revert s.
    induction fuel as [|fuel IH]; intros s buf H; cbn [scan_string_loop] in H; [by simplify_eq|].
    destruct (scan_item s); [by eapply IH|simplify_eq; eauto|by simplify_eq]. }
  apply scan_string_sound in H as (t & b & Ht & -> & ->). exists b, t. split_and!; [done|by constructor|done].
Qed.

Lemma scan_sound s tok rest :
  scan s = (tok, rest) → tok ≠ parse_error →
  tok = end_of_input ∧ (∃ w e, ws w ∧ input_end e ∧ s = w +:+ e) ∨ scanned s tok rest.
Proof.
  intros H Htok. induction s as [|c s IH]; cbn [JsonLexer.scan] in H.
  { injection H as <- <-. left. split; [done|]. exists "", "". by split_and!; [constructor|constructor|]. }
  destruct (is_whitespace (byte_of c)) eqn:Hw.
  { apply whitespace_char in Hw. destruct (IH H) as [(-> & w & e & Hws & He & ->)|(w & t & Hws & Hl & ->)].
    - left. split; [done|]. exists (String c w), e. by split_and!; [constructor|..].
    - right. exists (String c w), t. by split_and!; [constructor|..]. }
  assert (∀ t, lexeme t tok → String c s = t +:+ rest → scanned (String c s) tok rest) as Hlex.
  { intros t Ht ->. exists "", t. by split_and!; [constructor|..]. }
  repeat match type of H with
  | (if byte_of c =? ?z then (?t, s) else _) = _ =>
      destruct (Z.eqb_spec (byte_of c) z) as [Hc|_];
        [apply byte_char in Hc as ->; injection H as <- <-;
         first [left; split; [done|]; exists "", (String (char_of z) s); by split_and!; [constructor|constructor|]
               |right; eapply Hlex; [econstructor|reflexivity]]|]
  | (if byte_of c =? ?z then scan_literal ?l ?t s else _) = _ =>
      destruct (Z.eqb_spec (byte_of c) z) as [Hc|_];
        [apply byte_char in Hc as ->; apply scan_literal_sound in H as [-> ->]; [|done];
         right; eapply Hlex; [econstructor|reflexivity]|]
  end.
  destruct (Z.eqb_spec (byte_of c) 34) as [Hc|_].
  { apply byte_char in Hc as ->. apply scan_string_token in H as (str & t & -> & Ht & ->); [|done].
    right. apply (Hlex (quote +:+ t +:+ quote)); [by constructor|]. by rewrite !str_app_assoc. }
  destruct ((byte_of c =? 45) || is_digit (byte_of c)) eqn:Hd.
  { apply scan_number_sound in H as (t & Ht & Heq); [|done..]. right.
    apply (Hlex t); [by constructor|done]. }
  destruct (Z.eqb_spec (byte_of c) 0) as [Hc|_]; [|by injection H as <- <-].
  apply byte_char in Hc as ->. injection H as <- <-. left. split; [done|].
  exists "", (String (char_of 0) s). by split_and!; [constructor|constructor|].
Qed.

Lemma scan_quote s : scan (quote +:+ s) = scan_string s.
Proof. done. Qed.

(** What follows a lexeme: a number must be delimited. *)
Definition delimits (tok : token) (rest : string) : Prop :=
  match tok with
  | value_unsigned _ | value_integer _ | value_float _ => ends_number rest = true
  | _ => True
  end.

Lemma scan_lexeme t tok rest : lexeme t tok → delimits tok rest → scan (t +:+ rest) = (tok, rest).
Proof.
  intros [| | | | | | | | |t' s [t'' s' Ht]|t' tok' Ht] Hd; try reflexivity.
  - rewrite !str_app_assoc, scan_quote. unfold scan_string.
    rewrite (scan_string_complete t'' s' rest Ht); [done|lia].
  - apply scan_number_complete; [done|]. pose proof (number_text_kind t' tok' Ht) as Hk.
    by destruct tok'.
Qed.

Lemma scan_complete s tok rest : scanned s tok rest → delimits tok rest → scan s = (tok, rest).
Proof. intros (w & t & Hw & Ht & ->) Hd. rewrite scan_ws by done. by apply scan_lexeme. Qed.

Lemma scan_end w e : ws w → input_end e → (scan (w +:+ e)).1 = end_of_input.
Proof. intros Hw He. rewrite scan_ws by done. by destruct He. Qed.

(** The first token: a byte order mark is skipped. *)
Lemma first_scan_sound s tok rest :
  first_scan strtod decimal_point_char s = (tok, rest) → tok ≠ parse_error →
  ∃ mark s', mark ∈ [""; byte_order_mark] ∧ s = mark +:+ s' ∧ scan s' = (tok, rest).
Proof.
  intros H Htok. unfold first_scan in H. destruct s as [|c s]; [exists "", ""; split_and!; [listed|done..]|].
  destruct (Z.eqb_spec (byte_of c) 239) as [Hc|_]; [|exists "", (String c s); split_and!; [listed|done..]].
  destruct s as [|c1 [|c2 s]]; [by simplify_eq..|].
  destruct (Z.eqb_spec (byte_of c1) 187) as [Hc1|]; [|cbn [andb] in H; by simplify_eq].
  destruct (Z.eqb_spec (byte_of c2) 191) as [Hc2|]; [|cbn [andb] in H; by simplify_eq].
  apply byte_char in Hc as ->. apply byte_char in Hc1 as ->. apply byte_char in Hc2 as ->.
  exists byte_order_mark, s. split_and!; [listed|done|exact H].
Qed.

Lemma first_scan_mark mark s :
  mark ∈ [""; byte_order_mark] → (mark = "" → ∀ c s', s = String c s' → byte_of c ≠ 239) →
  first_scan strtod decimal_point_char (mark +:+ s) = scan s.
Proof.
  intros Hm Hs. unlisted Hm; subst; [|done]. rewrite str_app_nil_l. unfold first_scan.
  destruct s as [|c s]; [done|]. by rewrite (proj2 (Z.eqb_neq _ _)) by (by eapply Hs).
Qed.
End lexemes.
