(* ===== verification/JsonEscapes.v ===== *)
(** * JSON: the serializer's other options for strings

    [serializer::dump_escaped] of [tools/json/json.hpp] with every value of
    [ensure_ascii] and of the error handler. [JsonDump] has the options of [operator<<]
    alone ([dump_escaped_default]). Every text that is written is read back by the lexer
    of [JsonLexer], and there is an exception exactly where the handler says so. *)

From Stdlib Require Import Ascii.
From stdpp Require Import base list strings numbers.
From S2P Require Import Prelude CppString Json JsonLexer JsonDump JsonUtf8 JsonNumbers JsonParsed.
From S2P Require Import JsonGrammar JsonTokens.

Local Open Scope Z_scope.

(** ** The code *)

Inductive error_handler_t := strict | replace | ignore.
#[export] Instance error_handler_t_eq_dec : EqDecision error_handler_t.
Proof. solve_decision. Defined.

Section options.
Context (ensure_ascii : bool) (error_handler : error_handler_t).

Definition u_escape (n : Z) : string := String "\" (String "u" (JsonDump.hex4 n)).

(** The two [snprintf]: one code unit, or a pair of surrogates. *)
Definition unicode_escape (codepoint : Z) : string :=
  if codepoint <=? 65535 then u_escape codepoint
  else u_escape ((55232 + Z.shiftr codepoint 10) mod 2 ^ 16) +:+
       u_escape ((56320 + Z.land codepoint 1023) mod 2 ^ 16).

(** The escapes of two characters and of the control characters are those of [escape];
    all the code points they are for are below 127. *)
Definition escape_any (codepoint : Z) (c : ascii) : string :=
  if ensure_ascii && (127 <=? codepoint) then unicode_escape codepoint else escape codepoint c.

(** U+FFFD *)
Definition replacement : string :=
  if ensure_ascii then "\ufffd"
  else String (char_of 239) (String (char_of 191) (String (char_of 189) "")).

(** The buffer is written when less than 13 bytes are left in it. *)
Definition flush (out string_buffer : string) : string * string :=
  if string_buffer_size - size string_buffer <? 13 then (out +:+ string_buffer, "")
  else (out, string_buffer).

(** The loop: [bytes_after_last_accept] bytes of the buffer belong to whole characters;
    [undumped_chars] bytes have been read since. A byte that ends such a sequence is
    read again ([--i]); so every byte is read twice at most. *)
Fixpoint dump_loop (fuel : nat) (s : string) (state codep : Z) (out string_buffer : string)
    (bytes_after_last_accept : nat) (undumped_chars : Z) : writer :=
  match fuel, s with
  | O, _ => (out, Stop Blocked)
  | S _, EmptyString =>
      if state =? UTF8_ACCEPT then (out +:+ string_buffer, Ret tt)
      else
        let accepted := String.substring 0 bytes_after_last_accept string_buffer in
        match error_handler with
        | strict => (out, Stop (Thrown (JsonTypeError 316)))
        | ignore => (out +:+ accepted, Ret tt)
        | replace => (out +:+ accepted +:+ replacement, Ret tt)
        end
  | S fuel, String c rest =>
      let '(state, codep) := decode state codep (byte_of c) in
      if state =? UTF8_ACCEPT then
        let string_buffer := string_buffer +:+ escape_any codep c in
        if overflows string_buffer then (out, Stop Undefined)
        else
          let '(out, string_buffer) := flush out string_buffer in
          dump_loop fuel rest state codep out string_buffer (String.length string_buffer) 0
      else if state =? UTF8_REJECT then
        let again := if 0 <? undumped_chars then s else rest in
        let accepted := String.substring 0 bytes_after_last_accept string_buffer in
        match error_handler with
        | strict => (out, Stop (Thrown (JsonTypeError 316)))
        | ignore => dump_loop fuel again UTF8_ACCEPT codep out accepted bytes_after_last_accept 0
        | replace =>
            let string_buffer := accepted +:+ replacement in
            if overflows string_buffer then (out, Stop Undefined)
            else
              let '(out, string_buffer) := flush out string_buffer in
              dump_loop fuel again UTF8_ACCEPT codep out string_buffer (String.length string_buffer) 0
        end
      else
        let string_buffer := if ensure_ascii then string_buffer else string_buffer +:+ String c "" in
        if overflows string_buffer then (out, Stop Undefined)
        else dump_loop fuel rest state codep out string_buffer bytes_after_last_accept (undumped_chars + 1)
  end.

Definition dump_escaped_with (s : string) : writer :=
  dump_loop (S (2 * String.length s)) s UTF8_ACCEPT 0 "" "" 0 0.
End options.

Example escapes_example :
  let s := String (char_of 195) (String (char_of 164) (String (char_of 240) (String (char_of 159)
    (String (char_of 65) (String (char_of 255) (String (char_of 226) "")))))) in
  dump_escaped_with true replace s = ("\u00e4\ufffdA\ufffd\ufffd", Ret tt) ∧
  dump_escaped_with true ignore s = ("\u00e4A", Ret tt) ∧
  (dump_escaped_with true strict s).2 = Stop (Thrown (JsonTypeError 316)) ∧
  dump_escaped_with true strict (encode 128512) = ("\ud83d\ude00", Ret tt).
Proof. by vm_compute. Qed.

(** ** The characters of a string, and what is none *)

(** The bytes [taken] are in the first ranges but not in all, and what follows is not in
    the next one. *)
Inductive partial : list (Z * Z) → string → string → Prop :=
  | partial_end lo hi ranges : partial ((lo, hi) :: ranges) "" ""
  | partial_stop lo hi ranges c s :
      between lo hi (byte_of c) = false → partial ((lo, hi) :: ranges) "" (String c s)
  | partial_more lo hi ranges c taken s :
      between lo hi (byte_of c) = true → ranges ≠ [] → partial ranges taken s →
      partial ((lo, hi) :: ranges) (String c taken) s.

(** A string from left to right: code points, and [None] for as many bytes as begin no
    character (a byte that cannot be the first, or the beginning of one that is not
    completed). *)
Inductive reads : string → list (option Z) → Prop :=
  | reads_nil : reads "" []
  | reads_ascii c s ps : byte_of c < 128 → reads s ps → reads (String c s) (Some (byte_of c) :: ps)
  | reads_sequence c ranges added s ps :
      utf8_ranges (byte_of c) = Some ranges →
      next_byte_in_range ranges (added +:+ s) = Some (added, s) → reads s ps →
      reads (String c (added +:+ s)) (Some (sequence_value (lead_value c) added) :: ps)
  | reads_no_first c s ps :
      128 <= byte_of c → utf8_ranges (byte_of c) = None → reads s ps → reads (String c s) (None :: ps)
  | reads_partial c ranges taken s ps :
      utf8_ranges (byte_of c) = Some ranges → partial ranges taken s → reads s ps →
      reads (String c (taken +:+ s)) (None :: ps).

Lemma ranges_or_partial ranges s :
  (∃ added rest, s = added +:+ rest ∧ next_byte_in_range ranges s = Some (added, rest)) ∨
  (∃ taken rest, s = taken +:+ rest ∧ partial ranges taken rest).
Proof.
  revert s. induction ranges as [|[lo hi] ranges IH]; intros s.
  { left. exists "", s. by rewrite str_app_nil_l. }
  destruct s as [|c s]; [right; exists "", ""; split; [done|constructor]|].
  destruct (between lo hi (byte_of c)) eqn:Hb.
  - destruct (IH s) as [(added & rest & -> & Hn)|(taken & rest & -> & Hp)].
    + left. exists (String c added), rest. rewrite str_app_cons. split; [done|].
      by apply next_byte_cons.
    + right. exists (String c taken), rest. rewrite str_app_cons. split; [done|].
      apply partial_more; [done|by inversion Hp|done].
  - right. exists "", (String c s). split; [done|]. by apply partial_stop.
Qed.

(** Every string can be read. *)
Lemma reads_total s : ∃ ps, reads s ps.
Proof.
  induction s as [s IH] using (induction_ltof1 _ String.length). unfold ltof in IH.
  destruct s as [|c s]; [exists []; constructor|].
  destruct (Z.lt_ge_cases (byte_of c) 128) as [Hc|Hc].
  { destruct (IH s) as [ps Hps]; [cbn; lia|]. eexists. by apply reads_ascii. }
  destruct (utf8_ranges (byte_of c)) as [ranges|] eqn:Hr.
  - destruct (ranges_or_partial ranges s) as [(added & rest & -> & Hn)|(taken & rest & -> & Hp)];
      (destruct (IH rest) as [ps Hps]; [cbn; rewrite length_str_app; lia|]);
      eexists; [by eapply reads_sequence|by eapply reads_partial].
  - destruct (IH s) as [ps Hps]; [cbn; lia|]. eexists. by apply reads_no_first.
Qed.

(** ** The automaton on a character *)

Definition first_ok (c : ascii) : bool :=
  match utf8_ranges (byte_of c) with
  | Some ranges => bool_decide (expects (next_state 0 c) = Some ranges ∧ (decode 0 0 (byte_of c)).2 = lead_value c)
  | None => (byte_of c <? 128) || (next_state 0 c =? 1)
  end.

Lemma first_byte c : first_ok c = true.
Proof. revert c. apply forall_bytes. vm_compute. reflexivity. Qed.

Lemma decode_first cp c ranges :
  utf8_ranges (byte_of c) = Some ranges →
  ∃ state, decode 0 cp (byte_of c) = (state, lead_value c) ∧ expects state = Some ranges.
Proof.
  intros Hr. pose proof (first_byte c) as H. unfold first_ok in H. rewrite Hr in H.
  apply bool_decide_eq_true in H as [He Hv]. exists (next_state 0 c). split; [|done].
  rewrite <- Hv. done.
Qed.

Lemma decode_no_first cp c :
  128 <= byte_of c → utf8_ranges (byte_of c) = None → (decode 0 cp (byte_of c)).1 = UTF8_REJECT.
Proof.
  intros Hc Hr. pose proof (first_byte c) as H. unfold first_ok in H. rewrite Hr in H.
  destruct (Z.ltb_spec (byte_of c) 128); [lia|]. by apply Z.eqb_eq in H.
Qed.

Lemma decode_ascii cp c : byte_of c < 128 → decode 0 cp (byte_of c) = (UTF8_ACCEPT, byte_of c).
Proof.
  intros Hc. pose proof (ascii_byte c Hc) as Hn. unfold next_state in Hn.
  assert ((decode 0 0 (byte_of c)).2 = byte_of c) as Hcp.
  { assert (∀ c, (128 <=? byte_of c) || ((decode 0 0 (byte_of c)).2 =? byte_of c) = true) as H.
    { apply (forall_bytes (λ c, (128 <=? byte_of c) || ((decode 0 0 (byte_of c)).2 =? byte_of c))).
      vm_compute. reflexivity. }
    specialize (H c). apply orb_true_iff in H as [H|H]; lia. }
  change (decode 0 cp (byte_of c)) with (decode 0 0 (byte_of c)).
  destruct (decode 0 0 (byte_of c)). cbn in *. by subst.
Qed.

Lemma continuation_bounds state c lo hi ranges :
  expects state = Some ((lo, hi) :: ranges) → between lo hi (byte_of c) = true →
  128 <= byte_of c <= 191 ∧ (length ranges <= 2)%nat.
Proof.
  intros He Hb. unfold between in Hb. apply andb_true_iff in Hb as [H1%Z.leb_le H2%Z.leb_le].
  unfold expects in He. repeat case_match; simplify_eq; cbn; lia.
Qed.

Lemma decode_next state cp c lo hi ranges :
  expects state = Some ((lo, hi) :: ranges) → between lo hi (byte_of c) = true → 0 <= cp < 2 ^ 20 →
  ∃ state', decode state cp (byte_of c) = (state', cp * 64 + (byte_of c - 128)) ∧
    expects state' = Some ranges.
Proof.
  intros He Hb Hcp. pose proof (expects_cons _ _ _ He) as Hs.
  pose proof (continuation_byte state c lo hi ranges Hs He) as Hn. rewrite Hb in Hn.
  exists (next_state state c). split; [|done]. rewrite <- (decode_state state cp).
  assert ((decode state cp (byte_of c)).2 = cp * 64 + (byte_of c - 128)) as <-; [|by destruct (decode _ _ _)].
  unfold decode. rewrite (proj2 (Z.eqb_neq state UTF8_ACCEPT)) by (unfold UTF8_ACCEPT; lia). cbn [negb snd].
  destruct (continuation_bounds state c lo hi ranges He Hb) as [Hc _].
  change 63 with (Z.ones 6). rewrite Z.land_ones by done.
  rewrite Z.shiftl_mul_pow2, (Z.mod_small (cp * 2 ^ 6)) by lia.
  assert (byte_of c mod 2 ^ 6 = byte_of c - 128) as Hm by (symmetry; apply (Z.mod_unique _ _ 2); lia).
  rewrite Hm. pose proof (Z.add_lor_land (byte_of c - 128) (cp * 2 ^ 6)) as Hl.
  rewrite land_shifted in Hl by lia. lia.
Qed.

(** Every byte of a sequence has six bits of the code point. *)
Lemma next_value state c lo hi ranges cp :
  expects state = Some ((lo, hi) :: ranges) → between lo hi (byte_of c) = true →
  0 <= cp < 2 ^ (26 - 6 * Z.of_nat (S (length ranges))) →
  0 <= cp < 2 ^ 20 ∧ 0 <= cp * 64 + (byte_of c - 128) < 2 ^ (26 - 6 * Z.of_nat (length ranges)).
Proof.
  intros He Hb Hcp. destruct (continuation_bounds state c lo hi ranges He Hb) as [Hc Hl].
  replace (26 - 6 * Z.of_nat (length ranges)) with (6 + (26 - 6 * Z.of_nat (S (length ranges)))) by lia.
  rewrite Z.pow_add_r by lia. change (2 ^ 6) with 64. split; [|lia]. split; [lia|].
  eapply Z.lt_le_trans; [apply Hcp|]. apply Z.pow_le_mono_r; lia.
Qed.

Lemma sequence_byte_inv lo hi ranges added s :
  next_byte_in_range ((lo, hi) :: ranges) (added +:+ s) = Some (added, s) →
  ∃ c added', added = String c added' ∧ between lo hi (byte_of c) = true ∧
    next_byte_in_range ranges (added' +:+ s) = Some (added', s).
Proof.
  destruct added as [|c added]; intros Hn; cbn [next_byte_in_range] in Hn.
  - rewrite str_app_nil_l in Hn. destruct s as [|c s]; [done|]. destruct (between lo hi (byte_of c)); [|done].
    destruct (next_byte_in_range ranges s) as [[? ?]|]; discriminate Hn.
  - rewrite str_app_cons in Hn. exists c, added. destruct (between lo hi (byte_of c)); [|done].
    destruct (next_byte_in_range ranges (added +:+ s)) as [[? ?]|]; [|done]. by injection Hn as -> ->.
Qed.

Lemma decode_stop state cp c lo hi ranges :
  expects state = Some ((lo, hi) :: ranges) → between lo hi (byte_of c) = false →
  (decode state cp (byte_of c)).1 = UTF8_REJECT.
Proof.
  intros He Hb. pose proof (continuation_byte state c lo hi ranges (expects_cons _ _ _ He) He) as Hn.
  by rewrite Hb in Hn.
Qed.

(** ** The loop on a character *)

Lemma substring_app s t : String.substring 0 (String.length s) (s +:+ t) = s.
Proof.
  induction s as [|c s IH]; [rewrite str_app_nil_l; by destruct t|].
  rewrite str_app_cons. cbn [String.length String.substring]. by rewrite IH.
Qed.

Lemma substring_all s : String.substring 0 (String.length s) s = s.
Proof. rewrite <- (str_app_nil_r s) at 2. apply substring_app. Qed.

Lemma size_u_escape n : size (u_escape n) = 6.
Proof. done. Qed.

Lemma size_unicode_escape cp : size (unicode_escape cp) <= 12.
Proof. unfold unicode_escape. case_match; [|rewrite size_app]; rewrite ?size_u_escape; lia. Qed.

Lemma size_escape_any a cp c : size (escape_any a cp c) <= 12.
Proof.
  unfold escape_any. pose proof (size_unicode_escape cp). pose proof (size_escape cp c). case_match; lia.
Qed.

Section loop.
Context (a : bool) (h : error_handler_t).

Definition roomy (base : string) : Prop := size base <= string_buffer_size - 13.

(** The text [t] is written after what has been written and buffered, or there is an
    exception. *)
Definition result (t : option string) (out base : string) (w : writer) : Prop :=
  match t with
  | Some t => w = (out +:+ base +:+ t, Ret tt)
  | None => ∃ o, w = (o, Stop (Thrown (JsonTypeError 316)))
  end.

(** From a state between two characters. *)
Definition writes (fuel : nat) (s : string) (t : option string) : Prop := ∀ cp out base,
  roomy base → result t out base (dump_loop a h fuel s 0 cp out base (String.length base) 0).

Lemma flush_spec out buf :
  size buf < string_buffer_size →
  let '(out', base) := flush out buf in roomy base ∧ out' +:+ base = out +:+ buf.
Proof.
  intros Hs. unfold flush, roomy. destruct (Z.ltb_spec (string_buffer_size - size buf) 13).
  - split; [done|]. by rewrite str_app_nil_r.
  - split; [lia|done].
Qed.

Lemma overflows_false buf : size buf < string_buffer_size → overflows buf = false.
Proof. intros Hs. apply Z.leb_gt. lia. Qed.

(** What has been written for a character goes before the rest. *)
Lemma result_prefix t x out base out' base' w :
  out' +:+ base' = out +:+ base +:+ x → result t out' base' w → result ((λ t, x +:+ t) <$> t) out base w.
Proof.
  intros Heq. destruct t as [t|]; cbn; [|done]. intros ->. f_equal.
  by rewrite <- !str_app_assoc, Heq, !str_app_assoc.
Qed.

Lemma accept_step fuel rest t state cp cp' c out base junk acc und :
  writes fuel rest t → decode state cp (byte_of c) = (UTF8_ACCEPT, cp') →
  size (base +:+ junk +:+ escape_any a cp' c) < string_buffer_size →
  result ((λ t, (junk +:+ escape_any a cp' c) +:+ t) <$> t) out base
    (dump_loop a h (S fuel) (String c rest) state cp out (base +:+ junk) acc und).
Proof.
  intros Hw Hd Hs. cbn [dump_loop]. rewrite Hd. change (UTF8_ACCEPT =? UTF8_ACCEPT) with true. cbn iota.
  rewrite str_app_assoc, (overflows_false _ Hs).
  pose proof (flush_spec out _ Hs) as Hf. destruct (flush _ _) as [out' base']. destruct Hf as [Hr Heq].
  by apply (result_prefix _ _ _ _ _ _ _ Heq), Hw.
Qed.

Lemma escape_any_low cp c : cp < 127 → escape_any a cp c = escape cp c.
Proof. intros Hcp. unfold escape_any. rewrite (proj2 (Z.leb_gt 127 cp)) by lia. by rewrite andb_false_r. Qed.

Lemma escape_any_high cp c :
  128 <= cp → escape_any a cp c = if a then unicode_escape cp else String c "".
Proof.
  intros Hcp. unfold escape_any. rewrite (proj2 (Z.leb_le 127 cp)) by lia. rewrite andb_true_r.
  destruct a; [done|]. by apply escape_high.
Qed.

(** The bytes of a character that is not complete yet. *)
Definition kept (junk : string) (c : ascii) : string := if a then junk else junk +:+ String c "".

Lemma size_kept junk c : size (kept junk c) <= size junk + 1.
Proof. unfold kept. destruct a; [lia|]. rewrite size_app. change (size (String c "")) with 1. lia. Qed.

Lemma kept_append junk c x added :
  (if a then x else junk +:+ String c added) = (if a then x else kept junk c +:+ added).
Proof. unfold kept. destruct a; [done|]. by rewrite str_app_assoc, str_app_cons, str_app_nil_l. Qed.

Lemma undecided_step fuel c s state cp state' cp' out base junk acc und :
  decode state cp (byte_of c) = (state', cp') → 1 < state' → roomy base → size junk <= 3 →
  dump_loop a h (S fuel) (String c s) state cp out (base +:+ junk) acc und
    = dump_loop a h fuel s state' cp' out (base +:+ kept junk c) acc (und + 1).
Proof.
  intros Hd Hst Hroom Hj. cbn [dump_loop]. rewrite Hd.
  rewrite (proj2 (Z.eqb_neq state' UTF8_ACCEPT)), (proj2 (Z.eqb_neq state' UTF8_REJECT))
    by (unfold UTF8_ACCEPT, UTF8_REJECT; lia).
  assert ((if a then base +:+ junk else (base +:+ junk) +:+ String c "") = base +:+ kept junk c) as ->
    by (unfold kept; destruct a; [done|by rewrite str_app_assoc]).
  pose proof (size_kept junk c). rewrite overflows_false; [done|].
  unfold roomy, string_buffer_size in *. rewrite size_app. lia.
Qed.

(** The last byte of a sequence. *)
Lemma last_step fuel c s t state cp cp' out base junk acc und :
  decode state cp (byte_of c) = (UTF8_ACCEPT, cp') → 128 <= cp' → writes fuel s t → roomy base → size junk <= 3 →
  (a = true → junk = "") →
  result ((λ t, (if a then unicode_escape cp' else junk +:+ String c "") +:+ t) <$> t) out base
    (dump_loop a h (S fuel) (String c s) state cp out (base +:+ junk) acc und).
Proof.
  intros Hd Hcp Hw Hroom Hj Ha.
  assert ((if a then unicode_escape cp' else junk +:+ String c "") = junk +:+ escape_any a cp' c) as ->.
  { rewrite escape_any_high by done. destruct a; [|done]. by rewrite Ha, str_app_nil_l. }
  apply accept_step; [done|done|]. unfold roomy, string_buffer_size in *. rewrite !size_app, escape_any_high by done.
  pose proof (size_unicode_escape cp'). destruct a; [rewrite Ha by done; change (size "") with 0; lia|].
  change (size (String c "")) with 1. lia.
Qed.

(** The bytes of a sequence after the first. *)
Lemma loop_sequence ranges : ∀ state cp fuel added s t out base junk und,
  expects state = Some ranges → ranges ≠ [] → 0 <= cp < 2 ^ (26 - 6 * Z.of_nat (length ranges)) →
  next_byte_in_range ranges (added +:+ s) = Some (added, s) → 128 <= sequence_value cp added →
  writes fuel s t → roomy base → size junk + Z.of_nat (length ranges) <= 4 → (a = true → junk = "") →
  result ((λ t, (if a then unicode_escape (sequence_value cp added) else junk +:+ added) +:+ t) <$> t) out base
    (dump_loop a h (String.length added + fuel) (added +:+ s) state cp out (base +:+ junk) (String.length base) und).
Proof.
  induction ranges as [|[lo hi] ranges IH]; intros state cp fuel added s t out base junk und He Hne Hcp Hn Hv Hw
    Hroom Hj Ha; [done|].
  apply sequence_byte_inv in Hn as (c & added' & -> & Hb & Hn). rename added' into added. cbn [length] in Hj, Hcp.
  destruct (next_value state c lo hi ranges cp He Hb Hcp) as [Hcp20 Hcp'].
  destruct (decode_next state cp c lo hi ranges He Hb Hcp20) as (state' & Hd & He').
  rewrite str_app_cons. cbn [String.length Nat.add sequence_value] in *. destruct ranges as [|r ranges].
  - apply expects_nil in He'. subst state'. cbn [next_byte_in_range] in Hn. injection Hn as <-.
    rewrite str_app_nil_l. cbn in Hv |- *. apply last_step; try done. cbn in Hj. lia.
  - pose proof (expects_cons _ _ _ He') as Hs'. cbn [length] in Hj. pose proof (size_kept junk c).
    rewrite (undecided_step _ _ _ _ _ _ _ _ _ _ _ _ Hd), kept_append by (done || lia).
    apply IH; try done; [cbn [length]; lia|]. intros Ht. unfold kept. rewrite Ht. by apply Ha.
Qed.

(** *** Bytes that are no character *)

(** What is written for them. *)
Definition bad_text : option string :=
  match h with strict => None | replace => Some (replacement a) | ignore => Some "" end.

Definition after_bad (t : option string) : option string := x ← bad_text; (λ t, x +:+ t) <$> t.

Lemma size_replacement : size (replacement a) <= 6.
Proof. by unfold replacement; destruct a. Qed.

Lemma writes_nil fuel t : writes fuel "" t → t = Some "".
Proof.
  intros Hw. specialize (Hw 0 "" ""). unfold roomy in Hw. destruct fuel; destruct t as [t|]; cbn in Hw;
    rewrite ?str_app_nil_l in Hw.
  - by specialize (Hw ltac:(done)).
  - by destruct (Hw ltac:(done)).
  - specialize (Hw ltac:(done)). by injection Hw as <-.
  - by destruct (Hw ltac:(done)).
Qed.

(** The byte that is rejected is read again, unless it is the first. *)
Lemma reject_step fuel s t again state cp c rest out base junk und :
  writes fuel again t → roomy base → (decode state cp (byte_of c)).1 = UTF8_REJECT → s = String c rest →
  again = (if 0 <? und then s else rest) →
  result (after_bad t) out base (dump_loop a h (S fuel) s state cp out (base +:+ junk) (String.length base) und).
Proof.
  intros Hw Hr Hd -> ->. cbn [dump_loop]. destruct (decode state cp (byte_of c)) as [st cp']. cbn in Hd. subst st.
  change (UTF8_REJECT =? UTF8_ACCEPT) with false. change (UTF8_REJECT =? UTF8_REJECT) with true. cbn iota.
  rewrite substring_app. unfold after_bad, bad_text, writes in *. revert Hw.
  destruct h; intros Hw; cbn [mbind option_bind].
  - by eexists.
  - pose proof size_replacement. assert (size (base +:+ replacement a) < string_buffer_size) as Hs
      by (unfold roomy, string_buffer_size in *; rewrite size_app; lia).
    rewrite (overflows_false _ Hs). pose proof (flush_spec out _ Hs) as Hf.
    destruct (flush _ _) as [out' base']. destruct Hf as [Hr' Heq].
    by apply (result_prefix _ _ _ _ _ _ _ Heq), Hw.
  - replace ((λ t, "" +:+ t) <$> t) with t by (destruct t; cbn; by rewrite ?str_app_nil_l).
    by apply Hw.
Qed.

(** The string ends before the character does. *)
Lemma end_step fuel t state cp out base junk und :
  writes fuel "" t → state ≠ UTF8_ACCEPT →
  result (after_bad t) out base (dump_loop a h (S fuel) "" state cp out (base +:+ junk) (String.length base) und).
Proof.
  intros ->%writes_nil Hst. cbn [dump_loop]. rewrite (proj2 (Z.eqb_neq _ _) Hst), substring_app.
  unfold after_bad, bad_text. destruct h; cbn [mbind option_bind fmap option_fmap option_map result].
  - by eexists.
  - by rewrite str_app_nil_r.
  - by rewrite !str_app_nil_r.
Qed.

Lemma loop_partial ranges taken s : partial ranges taken s → ∀ state cp fuel t out base junk und,
  expects state = Some ranges → writes fuel s t → roomy base → 0 < und →
  size junk + Z.of_nat (length ranges) <= 4 →
  result (after_bad t) out base
    (dump_loop a h (String.length taken + S fuel) (taken +:+ s) state cp out (base +:+ junk) (String.length base) und).
Proof.
  induction 1 as [lo hi ranges|lo hi ranges c s Hb|lo hi ranges c taken s Hb Hne Hp IH];
    intros state cp fuel t out base junk und He Hw Hroom Hund Hj; pose proof (expects_cons _ _ _ He) as Hs.
  - apply end_step; [done|unfold UTF8_ACCEPT; lia].
  - rewrite str_app_nil_l. cbn [String.length Nat.add].
    apply (reject_step _ _ _ (String c s) _ _ c s); try done; [by eapply decode_stop|].
    by rewrite (proj2 (Z.ltb_lt 0 und)).
  - rewrite str_app_cons. cbn [String.length Nat.add].
    pose proof (continuation_byte state c lo hi ranges Hs He) as Hn. rewrite Hb, <- (decode_state _ cp) in Hn.
    destruct (decode state cp (byte_of c)) as [state' cp'] eqn:Hd. cbn in Hn.
    destruct ranges as [|r ranges]; [done|]. pose proof (expects_cons _ _ _ Hn) as Hs'.
    cbn [length] in *. pose proof (size_kept junk c).
    rewrite (undecided_step _ _ _ _ _ _ _ _ _ _ _ _ Hd) by (done || lia).
    apply IH; try done; cbn [length]; lia.
Qed.

(** ** The text of a string *)

Definition piece_text (p : option Z) : option string :=
  match p with
  | Some cp =>
      Some (if cp <? 128 then escape_any a cp (char_of cp) else if a then unicode_escape cp else encode cp)
  | None => bad_text
  end.

Fixpoint text_of (ps : list (option Z)) : option string :=
  match ps with
  | [] => Some ""
  | p :: ps => x ← piece_text p; (λ t, x +:+ t) <$> text_of ps
  end.

Lemma writes_ascii fuel c s t :
  byte_of c < 128 → writes fuel s t → writes (S fuel) (String c s) ((λ t, escape_any a (byte_of c) c +:+ t) <$> t).
Proof.
  intros Hc Hw cp out base Hroom.
  pose proof (accept_step fuel s t 0 cp (byte_of c) c out base "" (String.length base) 0 Hw
    (decode_ascii cp c Hc)) as Ha.
  rewrite str_app_nil_r in Ha. rewrite (str_app_nil_l (escape_any _ _ _)) in Ha. apply Ha.
  rewrite size_app. pose proof (size_escape_any a (byte_of c) c). unfold roomy, string_buffer_size in *. lia.
Qed.

(** The first byte of a sequence. *)
Lemma first_step fuel c s cp out base ranges :
  utf8_ranges (byte_of c) = Some ranges → roomy base →
  ∃ state junk, expects state = Some ranges ∧ size junk <= 1 ∧ junk = (if a then "" else String c "") ∧
    dump_loop a h (S fuel) (String c s) 0 cp out base (String.length base) 0
      = dump_loop a h fuel s state (lead_value c) out (base +:+ junk) (String.length base) 1.
Proof.
  intros Hr Hroom. destruct (decode_first cp c ranges Hr) as (state & Hd & He).
  exists state, (if a then "" else String c ""). split; [done|]. split; [by destruct a|]. split; [done|].
  assert (1 < state) as Hst.
  { destruct ranges as [|[lo hi] ranges]; [|apply expects_cons in He; lia].
    exfalso. unfold utf8_ranges in Hr. repeat case_match; simplify_eq. }
  rewrite <- (str_app_nil_r base) at 1.
  rewrite (undecided_step _ _ _ _ _ _ _ _ _ _ _ _ Hd) by done. unfold kept. by rewrite str_app_nil_l.
Qed.

Definition first_bounds (c : ascii) : bool :=
  match utf8_ranges (byte_of c) with
  | Some ranges => bool_decide (ranges ≠ [] ∧ (length ranges <= 3)%nat ∧
      0 <= lead_value c < 2 ^ (26 - 6 * Z.of_nat (length ranges)))
  | None => true
  end.

Lemma first_ranges c ranges :
  utf8_ranges (byte_of c) = Some ranges →
  ranges ≠ [] ∧ (length ranges <= 3)%nat ∧ 0 <= lead_value c < 2 ^ (26 - 6 * Z.of_nat (length ranges)).
Proof.
  intros Hr. assert (first_bounds c = true) as H by (apply forall_bytes; vm_compute; reflexivity).
  unfold first_bounds in H. rewrite Hr in H. by apply bool_decide_eq_true in H.
Qed.

Lemma writes_sequence fuel c ranges added s t :
  utf8_ranges (byte_of c) = Some ranges → next_byte_in_range ranges (added +:+ s) = Some (added, s) →
  writes fuel s t →
  writes (S (String.length added + fuel)) (String c (added +:+ s))
    ((λ t, (if a then unicode_escape (sequence_value (lead_value c) added) else String c added) +:+ t) <$> t).
Proof.
  intros Hr Hn Hw cp out base Hroom. destruct (first_ranges c ranges Hr) as (Hne & Hlen & Hlead).
  destruct (sequence_codepoint c ranges _ _ _ Hr Hn) as (_ & _ & Hcp & _).
  destruct (first_step (String.length added + fuel) c (added +:+ s) cp out base ranges Hr Hroom)
    as (state & junk & He & Hj & -> & ->).
  pose proof (loop_sequence ranges state (lead_value c) fuel added s t out base (if a then "" else String c "") 1
    He Hne Hlead Hn Hcp Hw Hroom ltac:(lia) ltac:(by destruct a)) as Hl.
  destruct a; exact Hl.
Qed.

Lemma writes_bad fuel c s t :
  128 <= byte_of c → utf8_ranges (byte_of c) = None → writes fuel s t →
  writes (S fuel) (String c s) (after_bad t).
Proof.
  intros Hc Hr Hw cp out base Hroom. rewrite <- (str_app_nil_r base) at 2.
  apply (reject_step fuel _ t s _ _ c s); try done. by apply decode_no_first.
Qed.

Lemma writes_partial fuel c ranges taken s t :
  utf8_ranges (byte_of c) = Some ranges → partial ranges taken s → writes fuel s t →
  writes (S (String.length taken + S fuel)) (String c (taken +:+ s)) (after_bad t).
Proof.
  intros Hr Hp Hw cp out base Hroom. destruct (first_ranges c ranges Hr) as (_ & Hlen & _).
  destruct (first_step (String.length taken + S fuel) c (taken +:+ s) cp out base ranges Hr Hroom)
    as (state & junk & He & Hj & _ & ->).
  apply (loop_partial ranges taken s Hp); try done. lia.
Qed.

(** Enough fuel gives the text. *)
Lemma writes_reads s ps : reads s ps → ∀ fuel, (2 * String.length s < fuel)%nat → writes fuel s (text_of ps).
Proof.
  induction 1 as [|c s ps Hc Hs IH|c ranges added s ps Hr Hn Hs IH|c s ps Hc Hr Hs IH|c ranges taken s ps Hr Hp Hs IH];
    intros fuel Hf; cbn [String.length] in Hf; rewrite ?length_str_app in Hf;
    cbn [text_of piece_text mbind option_bind].
  - destruct fuel as [|fuel]; [lia|]. intros cp out base _. cbn. by rewrite str_app_nil_r.
  - rewrite (proj2 (Z.ltb_lt _ 128)), char_of_byte by done. destruct fuel as [|fuel]; [lia|].
    apply writes_ascii; [done|apply IH; lia].
  - destruct (sequence_codepoint c ranges _ _ _ Hr Hn) as (_ & _ & Hcp & Henc).
    rewrite (proj2 (Z.ltb_ge _ 128)), Henc by done.
    replace fuel with (S (String.length added + (fuel - S (String.length added)))) by lia.
    apply (writes_sequence _ _ ranges); [done..|]. apply IH. lia.
  - destruct fuel as [|fuel]; [lia|]. apply writes_bad; [done..|apply IH; lia].
  - replace fuel with (S (String.length taken + S (fuel - S (S (String.length taken))))) by lia.
    apply (writes_partial _ _ ranges); [done..|]. apply IH. lia.
Qed.

Lemma dump_escaped_with_text s ps : reads s ps → result (text_of ps) "" "" (dump_escaped_with a h s).
Proof. intros Hs. apply (writes_reads s ps Hs); [lia|done]. Qed.
End loop.

(** ** What is written is read back *)

Lemma hex_digit_char d : 0 <= d < 16 → hex_digit (hex_char d) = Some d.
Proof. intros Hd. case_range d 0 15; reflexivity. Qed.

Lemma land_15 n k : 0 <= k → Z.land (Z.shiftr n k) 15 = n / 2 ^ k mod 16.
Proof.
  intros Hk. change 15 with (Z.ones 4). by rewrite Z.land_ones, Z.shiftr_div_pow2 by done.
Qed.

(** The four digits of [snprintf]. *)
Lemma hex4_digits n : 0 <= n < 65536 → JsonGrammar.hex4 (JsonDump.hex4 n) n.
Proof.
  intros Hn. unfold JsonDump.hex4. rewrite !land_15 by done.
  assert (Z.land n 15 = n mod 16) as -> by (change 15 with (Z.ones 4); by rewrite Z.land_ones).
  change (2 ^ 12) with (16 * (16 * 16)). change (2 ^ 8) with (16 * 16). change (2 ^ 4) with 16.
  rewrite <- !Z.div_div by done.
  eexists _, _, _, _, _, _, _, _. split; [done|].
  split_and!; [by apply hex_digit_char, Z.mod_pos_bound..|].
  assert (0 <= n / 16 / 16 / 16 < 16) as Hh.
  { split; [repeat apply Z.div_pos; lia|]. repeat apply Z.div_lt_upper_bound; lia. }
  rewrite (Z.mod_small (n / 16 / 16 / 16)) by done.
  pose proof (Z.div_mod n 16 ltac:(lia)). pose proof (Z.div_mod (n / 16) 16 ltac:(lia)).
  pose proof (Z.div_mod (n / 16 / 16) 16 ltac:(lia)). lia.
Qed.

Lemma chars_one t b : char_text t b → chars_text t b.
Proof. intros Ht. rewrite <- (str_app_nil_r t), <- (str_app_nil_r b). by constructor; [|constructor]. Qed.

Lemma unicode_escape_text cp : scalar_value cp → chars_text (unicode_escape cp) (encode cp).
Proof.
  intros Hs. pose proof Hs as [Hb Hsur].
  apply chars_one. unfold unicode_escape. destruct (Z.leb_spec cp 65535).
  { apply escaped_unit; [apply hex4_digits; lia|done]. }
  rewrite Z.shiftr_div_pow2 by done. change 1023 with (Z.ones 10). rewrite Z.land_ones by done.
  change (2 ^ 10) with 1024. pose proof (Z.div_mod cp 1024 ltac:(lia)). pose proof (Z.mod_pos_bound cp 1024 ltac:(lia)).
  assert (64 <= cp / 1024 < 1088) as Hq
    by (split; [apply Z.div_le_lower_bound|apply Z.div_lt_upper_bound]; lia).
  rewrite !Z.mod_small by lia.
  replace cp with (65536 + (55232 + cp / 1024 - 55296) * 1024 + (56320 + cp mod 1024 - 56320)) at 3 by lia.
  apply escaped_pair; [apply hex4_digits; lia|lia|apply hex4_digits; lia|lia].
Qed.

Lemma chars_text_app t1 b1 t2 b2 : chars_text t1 b1 → chars_text t2 b2 → chars_text (t1 +:+ t2) (b1 +:+ b2).
Proof.
  intros H1 H2. induction H1 as [|t b ts bs Ht _ IH]; [by rewrite !str_app_nil_l|].
  rewrite !str_app_assoc. by constructor.
Qed.

Lemma escape_text c : byte_of c < 128 → char_text (escape (byte_of c) c) (String c "").
Proof.
  intros Hc. pose proof (scan_ascii c "" Hc) as Hi. rewrite str_app_nil_r in Hi.
  apply scan_item_sound in Hi as (t & Ht & ->). by rewrite str_app_nil_r.
Qed.

(** What a piece stands for when the text is read. *)
Definition piece_bytes (h : error_handler_t) (p : option Z) : string :=
  match p with
  | Some cp => encode cp
  | None => if decide (h = replace) then encode 65533 else ""
  end.

Definition bytes_of (h : error_handler_t) (ps : list (option Z)) : string :=
  foldr (λ p r, piece_bytes h p +:+ r) "" ps.

Definition printable (c : ascii) : bool := between 32 126 (byte_of c).

Definition valid_piece (p : option Z) : Prop := match p with Some cp => scalar_value cp | None => True end.

Lemma reads_valid s ps : reads s ps → Forall valid_piece ps.
Proof.
  induction 1 as [|c s ps Hc _ IH|c ranges added s ps Hr Hn _ IH|c s ps _ _ _ IH|c ranges taken s ps _ _ _ IH];
    constructor; try done; cbn [valid_piece].
  - pose proof (byte_of_range c). unfold scalar_value. lia.
  - by destruct (sequence_codepoint c ranges _ _ _ Hr Hn) as (_ & ? & _).
Qed.

Lemma reads_bytes h s ps : reads s ps → None ∉ ps → bytes_of h ps = s.
Proof.
  induction 1 as [|c s ps Hc _ IH|c ranges added s ps Hr Hn _ IH|c s ps _ _ _ IH|c ranges taken s ps _ _ _ IH];
    intros Hnone; cbn [bytes_of foldr]; try (exfalso; apply Hnone; by left); [done|..];
    fold (bytes_of h ps); (rewrite IH by (intros Hin; apply Hnone; by right)); cbn [piece_bytes].
  - pose proof (byte_of_range c). rewrite encode_1 by lia. by rewrite char_of_byte, str_app_cons, str_app_nil_l.
  - destruct (sequence_codepoint c ranges _ _ _ Hr Hn) as (_ & _ & _ & ->). by rewrite str_app_cons.
Qed.

Lemma printable_escape c : byte_of c < 127 → all_chars printable (escape (byte_of c) c) = true.
Proof.
  intros Hc. assert ((127 <=? byte_of c) || all_chars printable (escape (byte_of c) c) = true) as H.
  { revert c Hc. assert (∀ c, (127 <=? byte_of c) || all_chars printable (escape (byte_of c) c) = true) as H; [|auto].
    apply (forall_bytes (λ c, (127 <=? byte_of c) || all_chars printable (escape (byte_of c) c))).
    vm_compute. reflexivity. }
  destruct (Z.leb_spec 127 (byte_of c)); [lia|done].
Qed.

Lemma printable_hex d : printable (hex_char (Z.land d 15)) = true.
Proof.
  change 15 with (Z.ones 4). rewrite Z.land_ones by done. change (2 ^ 4) with 16.
  pose proof (Z.mod_pos_bound d 16 ltac:(lia)) as Hd. set (x := d mod 16) in *. clearbody x.
  case_range x 0 15; reflexivity.
Qed.

Lemma printable_u_escape n : all_chars printable (u_escape n) = true.
Proof. unfold u_escape, JsonDump.hex4. cbn [all_chars]. by rewrite !printable_hex. Qed.

Lemma printable_unicode cp : all_chars printable (unicode_escape cp) = true.
Proof.
  unfold unicode_escape. case_match; [|rewrite all_chars_app]; by rewrite !printable_u_escape.
Qed.

Lemma escape_any_text a c :
  byte_of c < 128 →
  chars_text (escape_any a (byte_of c) c) (String c "") ∧
  (a = true → all_chars printable (escape_any a (byte_of c) c) = true).
Proof.
  intros Hc. pose proof (byte_of_range c). unfold escape_any.
  destruct (a && (127 <=? byte_of c)) eqn:Ha.
  - split; [|intros _; apply printable_unicode]. rewrite <- (char_of_byte c) at 2.
    rewrite <- encode_1 by lia. apply unicode_escape_text. unfold scalar_value. lia.
  - split.
    + by apply chars_one, escape_text.
    + intros ->. cbn in Ha. apply printable_escape. by apply Z.leb_gt in Ha.
Qed.

Lemma piece_ok a h p t :
  valid_piece p → piece_text a h p = Some t →
  chars_text t (piece_bytes h p) ∧ (a = true → all_chars printable t = true).
Proof.
  destruct p as [cp|]; cbn [valid_piece piece_text piece_bytes].
  - intros Hs [= <-]. destruct (Z.ltb_spec cp 128) as [Hc|Hc].
    + assert (cp = byte_of (char_of cp)) as -> by (rewrite byte_of_char; [done|destruct Hs; lia]).
      rewrite char_of_byte, encode_1, char_of_byte by (destruct Hs; rewrite byte_of_char by lia; lia).
      apply escape_any_text. destruct Hs. rewrite byte_of_char; lia.
    + destruct a; [split; [by apply unicode_escape_text|intros _; apply printable_unicode]|].
      split; [|done]. apply chars_one, unescaped; [done|lia..].
  - intros _. unfold bad_text. destruct h; [done|intros [= <-]..].
    + rewrite decide_True by done. destruct a; (split; [|done]).
      * change (replacement true) with (u_escape 65533). change (u_escape 65533) with (unicode_escape 65533).
        apply unicode_escape_text. unfold scalar_value. lia.
      * change (replacement false) with (encode 65533). rewrite <- (str_app_nil_r (encode 65533)).
        apply chars_cons; [apply unescaped; unfold scalar_value; lia|constructor].
    + split; [constructor|done].
Qed.

Lemma text_ok a h ps t :
  Forall valid_piece ps → text_of a h ps = Some t →
  chars_text t (bytes_of h ps) ∧ (a = true → all_chars printable t = true).
Proof.
  intros Hv. revert t. induction Hv as [|p ps Hp _ IH]; cbn [text_of]; intros t Ht.
  { injection Ht as <-. split; [constructor|done]. }
  destruct (piece_text a h p) as [x|] eqn:Hx; [|done]. cbn in Ht.
  destruct (text_of a h ps) as [y|]; [|done]. injection Ht as <-.
  destruct (piece_ok a h p x Hp Hx) as [H1 H2], (IH y eq_refl) as [H3 H4]. split.
  - by apply chars_text_app.
  - intros Ha. by rewrite all_chars_app, H2, H4.
Qed.

Lemma text_of_None a h ps : text_of a h ps = None ↔ h = strict ∧ None ∈ ps.
Proof.
  induction ps as [|p ps IH]; [split; [done|by intros [_ ?%not_elem_of_nil]]|].
  cbn [text_of]. rewrite elem_of_cons. destruct p as [cp|], h; cbn in *;
    destruct (text_of a _ ps); naive_solver.
Qed.

(** The options of [operator<<] are one case. *)
Lemma dump_loop_default fuel : ∀ s state codep out buf acc und,
  (String.length s < fuel)%nat →
  dump_loop false strict fuel s state codep out buf acc und = dump_escaped_loop s state codep out buf.
Proof.
  induction fuel as [|fuel IH]; intros s state codep out buf acc und Hf; [lia|].
  destruct s as [|c s]; cbn [String.length] in Hf; cbn [dump_loop dump_escaped_loop]; [done|].
  destruct (decode state codep (byte_of c)) as [st cp]. unfold escape_any. cbn [andb].
  repeat case_match; unfold flush in *; simplify_eq; try done; try (apply IH; lia);
    by repeat case_match; simplify_eq; apply IH; lia.
Qed.

Lemma dump_escaped_default s : dump_escaped_with false strict s = dump_escaped s.
Proof. apply dump_loop_default. lia. Qed.

(** ** The options' contract *)

(** C32: for every string, every [ensure_ascii] and every error handler, [dump_escaped]
    ends: with the exception 316 when the handler is [strict] and some bytes are no
    character, and otherwise with a text that the parser reads back as the string in which
    such bytes are gone ([ignore]) or are U+FFFD ([replace]), so as the string itself when
    it is valid; with [ensure_ascii] the text is printable ASCII. *)
Theorem dump_escaped_options (a : bool) (h : error_handler_t) (s : string) :
  (∃ ps, reads s ps) ∧
  ∀ ps, reads s ps →
    if decide (h = strict ∧ None ∈ ps)
    then ∃ o, dump_escaped_with a h s = (o, Stop (Thrown (JsonTypeError 316)))
    else ∃ t, dump_escaped_with a h s = (t, Ret tt) ∧
      (a = true → all_chars printable t = true) ∧
      (∀ rest, scan_string (t +:+ quote +:+ rest) = (value_string (bytes_of h ps), rest)) ∧
      (None ∉ ps → bytes_of h ps = s).
Proof.
  split; [apply reads_total|]. intros ps Hps. pose proof (dump_escaped_with_text a h s ps Hps) as Hr.
  destruct (decide _) as [Hd|Hd].
  - apply (text_of_None a) in Hd. by rewrite Hd in Hr.
  - destruct (text_of a h ps) as [t|] eqn:Ht; [|by apply text_of_None in Ht].
    cbn in Hr. rewrite !str_app_nil_l in Hr. exists t.
    destruct (text_ok a h ps t (reads_valid s ps Hps) Ht) as [Hc Hp]. split_and!; [done..| |by apply reads_bytes].
    intros rest. unfold scan_string. rewrite (scan_string_complete t _ rest Hc) by lia. by rewrite str_app_nil_l.
Qed.

(** An a-umlaut and a byte that is no character. *)
Lemma dump_escaped_options_witness :
  let s := String (char_of 195) (String (char_of 164) (String (char_of 255) "")) in
  dump_escaped_with true replace s = ("\u00e4\ufffd", Ret tt) ∧
  bytes_of replace [Some 228; None] = encode 228 +:+ encode 65533 ∧
  ∃ t, dump_escaped_with true replace s = (t, Ret tt) ∧ all_chars printable t = true ∧
    scan_string (t +:+ quote) = (value_string (encode 228 +:+ encode 65533), "").
Proof.
  intros s. split; [by vm_compute|]. split; [by vm_compute|].
  assert (reads s [Some 228; None]) as Hps.
  { apply (reads_sequence (char_of 195) [(128, 191)] (String (char_of 164) "") (String (char_of 255) ""));
      [by vm_compute..|]. apply reads_no_first; [by vm_compute..|constructor]. }
  pose proof (proj2 (dump_escaped_options true replace s) _ Hps) as H.
  rewrite decide_False in H by (by intros [? _]). destruct H as (t & Ht & Hp & Hs & _).
  exists t. split; [done|]. split; [by apply Hp|]. specialize (Hs ""). by rewrite str_app_nil_r in Hs.
Defined.
