(* ===== verification/JsonRecognizer.v ===== *)
(** * JSON: the parser recognises the grammar

    The loop of [json.hpp] with its explicit stack against the grammar of [JsonGrammar]:
    it accepts exactly the documents, and returns their values. *)

From Stdlib Require Import Ascii.
From stdpp Require Import base list strings numbers.
From S2P Require Import Prelude CppString Json JsonLexer JsonParser JsonDump JsonNumbers.
From S2P Require Import JsonRoundTrip JsonParsed JsonGrammar JsonTokens.

Local Open Scope Z_scope.

Section recognizer.
Context (strtod : string → Z) (decimal_point_char : ascii) (isfinite : Z → bool).
Notation scan := (scan strtod decimal_point_char).
Notation loop := (sax_parse_internal strtod decimal_point_char isfinite).
Notation step := (sax_step strtod decimal_point_char isfinite).
Notation after_key := (after_key strtod decimal_point_char).
Notation reads := (reads strtod decimal_point_char isfinite).
Notation reads_rest := (reads_rest strtod decimal_point_char isfinite).
Notation lexeme := (lexeme strtod decimal_point_char).
Notation scanned := (scanned strtod decimal_point_char).
Notation value_text := (value_text strtod decimal_point_char isfinite).
Notation elements_text := (elements_text strtod decimal_point_char isfinite).
Notation members_text := (members_text strtod decimal_point_char isfinite).
Notation document_text := (document_text strtod decimal_point_char isfinite).

(** ** Every text of the grammar is read *)

Lemma ends_ws w s : ws w → ends_number s = true → ends_number (w +:+ s) = true.
Proof. intros [|c w' Hc _] Hs; [done|]. by unlisted Hc; subst. Qed.

Lemma scan_ws_char w c s tok :
  ws w → scan (String c s) = (tok, s) → scan (w +:+ String c "" +:+ s) = (tok, s).
Proof. intros Hw Hs. by rewrite scan_ws, str_app_cons, str_app_nil_l. Qed.

Definition elements_read (te : string) (js : list json) : Prop :=
  ∃ n, ∀ stack es rest fuel, ∃ tok s,
    scan (te +:+ "]" +:+ rest) = (tok, s) ∧ starts_value tok = true ∧
    loop (n + fuel) (InArray es :: stack) (OnToken tok) s
      = loop fuel stack (OnValue (JArray (es ++ js))) rest.

Definition members_read (tm : string) (ms : list (string * json)) : Prop :=
  ∃ n, ∀ stack acc rest, ∃ key s,
    scan (tm +:+ "}" +:+ rest) = (value_string key, s) ∧
    reads_rest n stack (after_key stack acc key s)
      (JObject (foldl (λ o m, assign m.1 m.2 o) acc ms)) rest.

(** A value inside an open structure, up to the character after it. *)
Lemma reads_inside w1 t j w2 n :
  (∀ stack rest fuel, ends_number rest = true → ∃ tok s,
     scan (t +:+ rest) = (tok, s) ∧ starts_value tok = true ∧
     loop (n + fuel) stack (OnToken tok) s = loop fuel stack (OnValue j) rest) →
  ws w1 → ws w2 → ∀ stack fuel rest, ends_number rest = true →
  ∃ tok s, scan (w1 +:+ t +:+ w2 +:+ rest) = (tok, s) ∧ starts_value tok = true ∧
    loop (n + fuel) stack (OnToken tok) s = loop fuel stack (OnValue j) (w2 +:+ rest).
Proof. intros Hn H1 H2 stack fuel rest Hr. rewrite scan_ws by done. apply Hn. by apply ends_ws. Qed.

Lemma elements_one_read w1 t j w2 :
  ws w1 → reads t j → ws w2 → elements_read (w1 +:+ t +:+ w2) [j].
Proof.
  intros H1 [n Hn] H2. exists (n + 1)%nat. intros stack es rest fuel. rewrite !str_app_assoc.
  destruct (reads_inside w1 t j w2 n Hn H1 H2 (InArray es :: stack) (1 + fuel)%nat ("]" +:+ rest) eq_refl)
    as (tok & s & Hs & Ht & Hl).
  exists tok, s. split; [done|]. split; [done|]. rewrite <- Nat.add_assoc, Hl.
  cbn [Nat.add sax_parse_internal sax_step on_value]. unfold get_token.
  by rewrite (scan_ws_char w2 "]" rest end_array).
Qed.

Lemma elements_more_read w1 t j w2 ts js :
  ws w1 → reads t j → ws w2 → elements_read ts js →
  elements_read (w1 +:+ t +:+ w2 +:+ "," +:+ ts) (j :: js).
Proof.
  intros H1 [n Hn] H2 [m Hm]. exists (n + (1 + m))%nat. intros stack es rest fuel.
  rewrite !str_app_assoc.
  destruct (Hm stack (es ++ [j]) rest fuel) as (tok' & s' & Hs' & Ht' & Hl').
  destruct (reads_inside w1 t j w2 n Hn H1 H2 (InArray es :: stack) (1 + m + fuel)%nat
    ("," +:+ ts +:+ "]" +:+ rest) eq_refl) as (tok & s & Hs & Ht & Hl).
  exists tok, s. split; [done|]. split; [done|]. rewrite <- Nat.add_assoc, Hl.
  cbn [Nat.add sax_parse_internal sax_step on_value]. unfold get_token.
  rewrite (scan_ws_char w2 "," _ value_separator) by done. by rewrite Hs', Hl', <- app_assoc.
Qed.

Lemma scan_key w1 tk k rest :
  ws w1 → string_text tk k → scan (w1 +:+ tk +:+ rest) = (value_string k, rest).
Proof. intros H1 Hk. rewrite scan_ws by done. by apply (scan_lexeme _ _ tk (value_string k)); [constructor|]. Qed.

(** A key, the colon and its value. *)
Lemma member_read w2 w3 t j w4 n :
  (∀ stack rest fuel, ends_number rest = true → ∃ tok s,
     scan (t +:+ rest) = (tok, s) ∧ starts_value tok = true ∧
     loop (n + fuel) stack (OnToken tok) s = loop fuel stack (OnValue j) rest) →
  ws w2 → ws w3 → ws w4 → ∀ stack acc k rest, ends_number rest = true →
  ∃ tok s, after_key stack acc k (w2 +:+ ":" +:+ w3 +:+ t +:+ w4 +:+ rest)
      = Continue (InObject acc k :: stack) (OnToken tok) s ∧
    ∀ fuel, loop (n + fuel) (InObject acc k :: stack) (OnToken tok) s
      = loop fuel (InObject acc k :: stack) (OnValue j) (w4 +:+ rest).
Proof.
  intros Hn H2 H3 H4 stack acc k rest Hr. unfold JsonParser.after_key, get_token.
  rewrite (scan_ws_char w2 ":" _ name_separator) by done.
  destruct (reads_inside w3 t j w4 n Hn H3 H4 (InObject acc k :: stack) 0%nat rest Hr)
    as (tok & s & Hs & _ & _).
  exists tok, s. rewrite Hs. split; [done|]. intros fuel.
  destruct (reads_inside w3 t j w4 n Hn H3 H4 (InObject acc k :: stack) fuel rest Hr)
    as (tok' & s' & Hs' & _ & Hl). rewrite Hs in Hs'. by injection Hs' as <- <-.
Qed.

Lemma members_one_read w1 tk k w2 w3 t j w4 :
  ws w1 → string_text tk k → ws w2 → ws w3 → reads t j → ws w4 →
  members_read (w1 +:+ tk +:+ w2 +:+ ":" +:+ w3 +:+ t +:+ w4) [(k, j)].
Proof.
  intros H1 Hk H2 H3 [n Hn] H4. exists (n + 1)%nat. intros stack acc rest. rewrite !str_app_assoc.
  eexists k, _. split; [by apply scan_key|].
  destruct (member_read w2 w3 t j w4 n Hn H2 H3 H4 stack acc k ("}" +:+ rest) eq_refl)
    as (tok & s & -> & Hl).
  eexists _, _, _. split; [done|]. intros fuel. rewrite <- Nat.add_assoc, Hl.
  cbn [Nat.add sax_parse_internal sax_step on_value]. unfold get_token.
  by rewrite (scan_ws_char w4 "}" rest end_object).
Qed.

Lemma members_more_read w1 tk k w2 w3 t j w4 ts ms :
  ws w1 → string_text tk k → ws w2 → ws w3 → reads t j → ws w4 → members_read ts ms →
  members_read (w1 +:+ tk +:+ w2 +:+ ":" +:+ w3 +:+ t +:+ w4 +:+ "," +:+ ts) ((k, j) :: ms).
Proof.
  intros H1 Hk H2 H3 [n Hn] H4 [m Hm]. exists (n + (1 + m))%nat. intros stack acc rest.
  rewrite !str_app_assoc. eexists k, _. split; [by apply scan_key|].
  destruct (member_read w2 w3 t j w4 n Hn H2 H3 H4 stack acc k ("," +:+ ts +:+ "}" +:+ rest) eq_refl)
    as (tok & s & -> & Hl).
  eexists _, _, _. split; [done|]. intros fuel. rewrite <- Nat.add_assoc, Hl.
  destruct (Hm stack (assign k j acc) rest) as (key & s2 & Hs2 & st & t' & s' & Ha & Hl').
  cbn [Nat.add sax_parse_internal sax_step on_value]. unfold get_token.
  rewrite (scan_ws_char w4 "," _ value_separator) by done. rewrite Hs2, Ha. apply Hl'.
Qed.

Lemma reads_lexeme t j tok :
  starts_value tok = true → lexeme t tok →
  (∀ stack s, on_token strtod decimal_point_char isfinite stack tok s = Continue stack (OnValue j) s) →
  reads t j.
Proof.
  intros Htok Ht Hon. apply reads_token with tok; [done| |done]. intros rest Hr.
  apply scan_lexeme; [done|]. by destruct tok.
Qed.

(** An open structure: its first character, and then the loop inside it. *)
Lemma reads_structure open t j tok :
  lexeme open tok → tok = begin_array ∨ tok = begin_object →
  (∃ n, ∀ stack rest fuel, ∃ stack' t' s', 
     on_token strtod decimal_point_char isfinite stack tok (t +:+ rest) = Continue stack' t' s' ∧
     loop (n + fuel) stack' t' s' = loop fuel stack (OnValue j) rest) →
  reads (open +:+ t) j.
Proof.
  intros Hl Htok [n Hn]. exists (S n). intros stack rest fuel _. exists tok, (t +:+ rest).
  rewrite str_app_assoc, (scan_lexeme _ _ open tok) by (done || by destruct Htok; subst).
  split; [done|]. split; [by destruct Htok; subst|].
  destruct (Hn stack rest fuel) as (stack' & t' & s' & Hon & Hloop).
  cbn [Nat.add sax_parse_internal sax_step]. by rewrite Hon.
Qed.

Lemma array_read te js : elements_read te js → reads ("[" +:+ te +:+ "]") (JArray js).
Proof.
  intros [n Hn]. apply (reads_structure "[" _ _ begin_array); [constructor|by left|]. exists n.
  intros stack rest fuel. destruct (Hn stack [] rest fuel) as (tok & s & Hs & Ht & Hl).
  exists (InArray [] :: stack), (OnToken tok), s. cbn [on_token]. unfold get_token.
  rewrite str_app_assoc, Hs. split; [by destruct tok|done].
Qed.

Lemma object_read tm ms : members_read tm ms → reads ("{" +:+ tm +:+ "}") (JObject (object_members ms)).
Proof.
  intros [n Hn]. apply (reads_structure "{" _ _ begin_object); [constructor|by right|]. exists n.
  intros stack rest fuel. destruct (Hn stack [] rest) as (key & s & Hs & st & t' & s' & Ha & Hl).
  exists st, t', s'. cbn [on_token]. unfold get_token. by rewrite str_app_assoc, Hs, Ha.
Qed.

Lemma value_reads t j : value_text t j → reads t j.
Proof.
  intros H. induction H as
    [| | |t n j Hn Hj|t s Hs|w Hw|t js _ Hn|w Hw|t ms _ Hn|w1 t j w2 H1 _ IH H2
    |w1 t j w2 ts js H1 _ IH H2 _ IHs|w1 tk k w2 w3 t j w4 H1 Hk H2 H3 _ IH H4
    |w1 tk k w2 w3 t j w4 ts ms H1 Hk H2 H3 _ IH H4 _ IHs] using value_text_mut
    with (P := λ t j _, reads t j) (P0 := λ te js _, elements_read te js)
      (P1 := λ tm ms _, members_read tm ms).
  - by apply (reads_lexeme "null" JNull literal_null); [|constructor|].
  - by apply (reads_lexeme "true" (JBoolean true) literal_true); [|constructor|].
  - by apply (reads_lexeme "false" (JBoolean false) literal_false); [|constructor|].
  - apply reads_lexeme with n; [by destruct n|by constructor|]. intros stack s. cbn.
    destruct n; cbn in *; try done; [by simplify_eq..|]. destruct (isfinite bits); by simplify_eq.
  - by apply (reads_lexeme t (JString s) (value_string s)); [|constructor|].
  - apply (reads_structure "[" _ _ begin_array); [constructor|by left|]. exists 0%nat.
    intros stack rest fuel. eexists _, _, _. cbn [on_token]. unfold get_token.
    rewrite str_app_assoc, (scan_ws_char w "]" rest end_array) by done. by split.
  - by apply array_read.
  - apply (reads_structure "{" _ _ begin_object); [constructor|by right|]. exists 0%nat.
    intros stack rest fuel. eexists _, _, _. cbn [on_token]. unfold get_token.
    rewrite str_app_assoc, (scan_ws_char w "}" rest end_object) by done. by split.
  - by apply object_read.
  - by apply elements_one_read.
  - by apply elements_more_read.
  - by apply members_one_read.
  - by apply members_more_read.
Qed.

Lemma value_start_byte c s tok rest :
  scan (String c s) = (tok, rest) → starts_value tok = true → byte_of c ≠ 239.
Proof. intros H Ht Hc. apply byte_char in Hc as ->. by injection H as <- <-. Qed.

Lemma document_parsed s j :
  document_text s j →
  ∃ rest, parse_value strtod decimal_point_char isfinite s = Ret (j, rest) ∧
    (get_token strtod decimal_point_char rest).1 = end_of_input.
Proof.
  intros [mark w1 t j' w2 e Hm H1 Ht H2 He]. exists (w2 +:+ e). split; [|by apply scan_end].
  destruct (value_reads t j' Ht) as [n Hn].
  assert (ends_number (w2 +:+ e) = true) as Hend by (apply ends_ws; [done|by destruct He]).
  destruct (Hn [] (w2 +:+ e) 0%nat Hend) as (tok & r & Hs & Hst & _).
  rewrite <- (scan_ws _ _ w1) in Hs by done.
  assert (first_scan strtod decimal_point_char (mark +:+ w1 +:+ t +:+ w2 +:+ e) = (tok, r)) as Hf.
  { rewrite first_scan_mark; [done..|]. intros _ c s' Hc. rewrite Hc in Hs.
    by eapply value_start_byte. }
  unfold parse_value. rewrite Hf.
  pose proof (parse_fuel_enough _ _ isfinite _ _ _ Hf) as Hb. set (fuel := parse_fuel _) in *.
  rewrite <- (loop_fuel_mono _ _ _ fuel (n + 1)) by done.
  destruct (Hn [] (w2 +:+ e) (S fuel) Hend) as (tok' & r' & Hs' & _ & Hl).
  rewrite scan_ws in Hs by done. rewrite Hs in Hs'. injection Hs' as <- <-.
  replace (fuel + (n + 1))%nat with (n + S fuel)%nat by lia. by rewrite Hl.
Qed.

(** ** Only texts of the grammar are read *)

(** The loop returns only from a token that begins a value. *)
Lemma loop_starts_value fuel stack tok s r :
  loop fuel stack (OnToken tok) s = Ret r → starts_value tok = true.
Proof. destruct fuel; [done|]. by destruct tok. Qed.

Lemma scan_token s tok s' : scan s = (tok, s') → tok ≠ parse_error → tok ≠ end_of_input → scanned s tok s'.
Proof. intros Hs He Hend. by destruct (scan_sound _ _ s tok s' Hs He) as [[? _]|?]. Qed.

Lemma scan_value_token fuel stack s tok s' r :
  scan s = (tok, s') → loop fuel stack (OnToken tok) s' = Ret r → scanned s tok s'.
Proof. intros Hs Hl%loop_starts_value. apply scan_token; [done|by destruct tok..]. Qed.

(** Lexemes of one text. *)
Lemma lexeme_text t tok : lexeme t tok →
  match tok with
  | begin_array => t = "[" | end_array => t = "]" | begin_object => t = "{" | end_object => t = "}"
  | name_separator => t = ":" | value_separator => t = ","
  | literal_true => t = "true" | literal_false => t = "false" | literal_null => t = "null"
  | value_string s => string_text t s
  | parse_error | end_of_input => False
  | _ => number_text strtod decimal_point_char t tok
  end.
Proof.
  intros [| | | | | | | | |t' s Ht|t' tok' Ht]; try done.
  pose proof (number_text_kind _ _ t' tok' Ht) as Hk. by destruct tok'.
Qed.

(** From the token that begins a value the loop comes to the value, with less fuel. *)
Definition value_sound (fuel : nat) : Prop :=
  ∀ stack lex tok s r, lexeme lex tok → loop fuel stack (OnToken tok) s = Ret r →
  ∃ t j rest fuel', value_text t j ∧ lex +:+ s = t +:+ rest ∧ (fuel' < fuel)%nat ∧
    loop fuel' stack (OnValue j) rest = Ret r.

Definition elements_sound (fuel : nat) : Prop :=
  ∀ stack acc lex tok s r, lexeme lex tok → loop fuel (InArray acc :: stack) (OnToken tok) s = Ret r →
  ∃ te js rest fuel', (∀ w, ws w → elements_text (w +:+ te) js) ∧ lex +:+ s = te +:+ "]" +:+ rest ∧
    (fuel' < fuel)%nat ∧ loop fuel' stack (OnValue (JArray (acc ++ js))) rest = Ret r.

Definition members_sound (fuel : nat) : Prop :=
  ∀ stack acc key s stack' t' s' r,
  after_key stack acc key s = Continue stack' t' s' → loop fuel stack' t' s' = Ret r →
  ∃ tm ms rest fuel', (∀ w tk, ws w → string_text tk key → members_text (w +:+ tk +:+ tm) ms) ∧
    s = tm +:+ "}" +:+ rest ∧ (fuel' < fuel)%nat ∧
    loop fuel' stack (OnValue (JObject (foldl (λ o m, assign m.1 m.2 o) acc ms))) rest = Ret r.

Lemma elements_step fuel :
  value_sound fuel → (∀ f, (f < fuel)%nat → elements_sound f) → elements_sound fuel.
Proof.
  intros Hv IH stack acc lex tok s r Hlex Hl.
  destruct (Hv _ lex tok s r Hlex Hl) as (t & j & rest & f & Ht & Heq & Hf & Hl').
  destruct f as [|f]; [done|]. cbn [sax_parse_internal sax_step on_value] in Hl'.
  unfold get_token in Hl'. destruct (scan rest) as [t1 s1] eqn:H1. destruct t1; try done.
  - apply scan_token in H1 as (w2 & t2 & Hw2 & Ht2%lexeme_text & ->); [|done..]. subst t2.
    exists (t +:+ w2), [j], s1, f. rewrite Heq, str_app_assoc. split_and!; [|done|lia|done].
    intros w Hw. by constructor.
  - apply scan_token in H1 as (w2 & t2 & Hw2 & Ht2%lexeme_text & ->); [|done..]. subst t2.
    destruct (scan s1) as [t3 s3] eqn:H3.
    destruct (scan_value_token _ _ _ _ _ _ H3 Hl') as (w3 & lex3 & Hw3 & Hlex3 & ->).
    destruct (IH f ltac:(lia) stack (acc ++ [j]) lex3 t3 s3 r Hlex3 Hl')
      as (te & js & rest' & f' & Hte & Heq' & Hf' & Hl'').
    exists (t +:+ w2 +:+ "," +:+ w3 +:+ te), (j :: js), rest', f'.
    rewrite <- app_assoc in Hl''. split_and!; [|by rewrite Heq, Heq', !str_app_assoc|lia|done].
    intros w Hw. apply elements_more; auto.
Qed.

Lemma members_step fuel :
  value_sound fuel → (∀ f, (f < fuel)%nat → members_sound f) → members_sound fuel.
Proof.
  intros Hv IH stack acc key s stack' t' s' r Hk Hl.
  unfold JsonParser.after_key, get_token in Hk.
  destruct (scan s) as [t1 s1] eqn:H1. destruct t1; try done.
  apply scan_token in H1 as (w2 & c2 & Hw2 & Hc2%lexeme_text & ->); [|done..]. subst c2.
  destruct (scan s1) as [tok s2] eqn:H2. injection Hk as <- <- <-.
  destruct (scan_value_token _ _ _ _ _ _ H2 Hl) as (w3 & lex & Hw3 & Hlex & ->).
  destruct (Hv _ lex tok s2 r Hlex Hl) as (t & j & rest & f & Ht & Heq & Hf & Hl').
  destruct f as [|f]; [done|]. cbn [sax_parse_internal sax_step on_value] in Hl'.
  unfold get_token in Hl'. destruct (scan rest) as [t4 s4] eqn:H4. destruct t4; try done.
  - apply scan_token in H4 as (w4 & c4 & Hw4 & Hc4%lexeme_text & ->); [|done..]. subst c4.
    exists (w2 +:+ ":" +:+ w3 +:+ t +:+ w4), [(key, j)], s4, f.
    split_and!; [|by rewrite Heq, !str_app_assoc|lia|done].
    intros w tk Hw Htk. by constructor.
  - apply scan_token in H4 as (w4 & c4 & Hw4 & Hc4%lexeme_text & ->); [|done..]. subst c4.
    destruct (scan s4) as [t5 s5] eqn:H5. destruct t5 as [| | |key'| | | | | | | | | | |]; try done.
    apply scan_token in H5 as (w5 & tk' & Hw5 & Htk'%lexeme_text & ->); [|done..].
    destruct (after_key stack (assign key j acc) key' s5) as [stack6 t6 s6|r6] eqn:H6.
    + destruct (IH f ltac:(lia) _ _ _ _ _ _ _ r H6 Hl')
        as (tm & ms & rest' & f' & Htm & -> & Hf' & Hl'').
      exists (w2 +:+ ":" +:+ w3 +:+ t +:+ w4 +:+ "," +:+ w5 +:+ tk' +:+ tm), ((key, j) :: ms), rest', f'.
      split_and!; [|by rewrite Heq, !str_app_assoc|lia|done].
      intros w tk Hw Htk. apply members_more; auto.
    + unfold JsonParser.after_key, get_token in H6. repeat case_match; by simplify_eq.
Qed.

Lemma value_step fuel :
  (∀ f, (f < fuel)%nat → elements_sound f ∧ members_sound f) → value_sound fuel.
Proof.
  intros IH stack lex tok s r Hlex Hl. destruct fuel as [|fuel]; [done|].
  pose proof (lexeme_text lex tok Hlex) as Htext.
  assert (∀ j, value_text lex j → loop fuel stack (OnValue j) s = Ret r →
    ∃ t j rest fuel', value_text t j ∧ lex +:+ s = t +:+ rest ∧ (fuel' < S fuel)%nat ∧
      loop fuel' stack (OnValue j) rest = Ret r) as Hone.
  { intros j Hj Hlj. exists lex, j, s, fuel. split_and!; [done..|lia|done]. }
  cbn [sax_parse_internal sax_step] in Hl.
  destruct tok; cbn [on_token] in Hl; try done; subst;
    try (eapply Hone; [|exact Hl]; by econstructor).
  - destruct (isfinite bits) eqn:Hb; [|done]. eapply Hone; [|exact Hl].
    apply value_number with (value_float bits); [done|]. cbn. by rewrite Hb.
  - unfold get_token in Hl. destruct (scan s) as [t1 s1] eqn:H1.
    destruct (decide (t1 = end_array)) as [->|Hne].
    + apply scan_token in H1 as (w & t2 & Hw & Ht2%lexeme_text & ->); [|done..]. subst t2.
      exists ("[" +:+ w +:+ "]"), (JArray []), s1, fuel. rewrite !str_app_assoc.
      split_and!; [by constructor|done|lia|done].
    + assert (loop fuel (InArray [] :: stack) (OnToken t1) s1 = Ret r) as Hl' by by destruct t1.
      destruct (scan_value_token _ _ _ _ _ _ H1 Hl') as (w & lex1 & Hw & Hlex1 & ->).
      destruct (IH fuel ltac:(lia)) as [Hel _].
      destruct (Hel stack [] lex1 t1 s1 r Hlex1 Hl') as (te & js & rest & f & Hte & Heq & Hf & Hl'').
      exists ("[" +:+ (w +:+ te) +:+ "]"), (JArray js), rest, f. rewrite Heq, !str_app_assoc.
      split_and!; [rewrite <- (str_app_assoc w); constructor; auto|done|lia|done].
  - unfold get_token in Hl. destruct (scan s) as [t1 s1] eqn:H1.
    destruct t1 as [| | |key| | | | | | | | | | |]; try done;
      apply scan_token in H1 as (w & t2 & Hw & Ht2%lexeme_text & ->); try done.
    + destruct (after_key stack [] key s1) as [stack2 t3 s3|r2] eqn:H2.
      * destruct (IH fuel ltac:(lia)) as [_ Hmem].
        destruct (Hmem _ _ _ _ _ _ _ r H2 Hl) as (tm & ms & rest & f & Htm & -> & Hf & Hl').
        exists ("{" +:+ (w +:+ t2 +:+ tm) +:+ "}"), (JObject (object_members ms)), rest, f.
        rewrite !str_app_assoc.
        split_and!; [|done|lia|done].
        rewrite <- (str_app_assoc t2), <- (str_app_assoc w). constructor. auto.
      * unfold JsonParser.after_key, get_token in H2. repeat case_match; by simplify_eq.
    + subst t2. exists ("{" +:+ w +:+ "}"), (JObject []), s1, fuel. rewrite !str_app_assoc.
      split_and!; [by constructor|done|lia|done].
Qed.

Lemma loop_sound fuel : value_sound fuel ∧ elements_sound fuel ∧ members_sound fuel.
Proof.
  induction fuel as [fuel IH] using lt_wf_ind.
  assert (value_sound fuel) as Hv by (apply value_step; intros f Hf; apply (IH f Hf)).
  split_and!; [done|apply elements_step|apply members_step]; try done; intros f Hf; apply (IH f Hf).
Qed.

Lemma parsed_document s j rest :
  parse_value strtod decimal_point_char isfinite s = Ret (j, rest) →
  ∃ mark w t, mark ∈ [""; byte_order_mark] ∧ ws w ∧ value_text t j ∧ s = mark +:+ w +:+ t +:+ rest.
Proof.
  unfold parse_value. destruct (first_scan _ _ s) as [tok s'] eqn:Hf. intros Hl.
  pose proof (loop_starts_value _ _ _ _ _ Hl) as Hst.
  apply first_scan_sound in Hf as (mark & s1 & Hm & -> & Hs1); [|by destruct tok].
  destruct (scan_value_token _ _ _ _ _ _ Hs1 Hl) as (w & lex & Hw & Hlex & ->).
  destruct (proj1 (loop_sound _) [] lex tok s' _ Hlex Hl) as (t & j' & rest' & f & Ht & Heq & _ & Hl').
  destruct f; [done|]. cbn in Hl'. injection Hl' as -> ->.
  exists mark, w, t. by rewrite Heq.
Qed.

Lemma accepts_documents s j :
  json_accept strtod decimal_point_char isfinite s = true ∧
    json_parse strtod decimal_point_char isfinite s = Ret j ↔ document_text s j.
Proof.
  unfold json_accept, json_parse. split.
  - intros [Ha Hp]. destruct (parse_value _ _ _ s) as [[j' rest]|w] eqn:Hv; [|done].
    cbn in Hp. injection Hp as ->. apply bool_decide_eq_true in Ha.
    apply parsed_document in Hv as (mark & w1 & t & Hm & Hw1 & Ht & ->).
    destruct (scan rest) as [tok rest'] eqn:Hs. unfold get_token in Ha. rewrite Hs in Ha.
    cbn in Ha. subst tok. destruct (scan_sound _ _ _ _ _ Hs) as [(_ & w2 & e & Hw2 & He & ->)|Hl]; [done| |].
    + by constructor.
    + destruct Hl as (w & l & _ & Hl%lexeme_text & _). done.
  - intros Hd. destruct (document_parsed s j Hd) as (rest & -> & Ha). cbn. by rewrite Ha.
Qed.

(** The grammar is unambiguous. *)
Lemma document_unique s j1 j2 : document_text s j1 → document_text s j2 → j1 = j2.
Proof. intros [_ H1]%accepts_documents [_ H2]%accepts_documents. congruence. Qed.

End recognizer.

(** ** The theorems *)

(** C8: The parser recognises exactly the grammar of RFC 8259. For every input, the
    library accepts it and returns the value [j] if and only if the input is a document
    of the grammar (a value between white space, after an optional byte order mark, up
    to the end or a byte 0) whose value is [j]: strings of Unicode scalar values with
    their escapes, numbers with their conversion, arrays in order, objects in which
    the last member of a name counts. So neither the explicit stack, nor the scanning
    of the lexer, nor the fuel of the model accepts too much or too little, and no
    document has two values. *)
Theorem parser_recognises_grammar (strtod : string → Z) (decimal_point_char : ascii)
    (isfinite : Z → bool) (s : string) (j : json) :
  json_accept strtod decimal_point_char isfinite s = true ∧
    json_parse strtod decimal_point_char isfinite s = Ret j ↔
  document_text strtod decimal_point_char isfinite s j.
Proof. apply accepts_documents. Qed.

(** What the serializer writes are documents of the grammar: every value without
    doubles whose integers have 64 bits, once it has been written without an exception,
    is a text of RFC 8259 that means this value, for any reader. *)
Theorem dump_writes_documents (strtod : string → Z) (decimal_point_char : ascii)
    (isfinite : Z → bool) (float_text : Z → string) (j : json) (t : string) :
  storable j → json_dump isfinite float_text j = (t, Ret tt) →
  document_text strtod decimal_point_char isfinite t j.
Proof.
  intros Hst Hd. apply accepts_documents. unfold json_accept, json_parse.
  by rewrite (parse_value_dumped strtod decimal_point_char isfinite float_text j t Hst Hd).
Qed.

Lemma dump_writes_documents_witness :
  document_text (λ _, 0) "." (λ _, true) (json_dump (λ _, true) (λ _, "") demo_value).1 demo_value.
Proof.
  apply (dump_writes_documents (λ _, 0) "."%char (λ _, true) (λ _, "") demo_value).
  - split; [apply (bool_decide_unpack _); vm_compute; exact I|]. cbn. repeat split; constructor.
  - vm_compute. reflexivity.
Defined.

(** ** Tests *)

Definition demo_document : string → json → Prop := document_text (λ _, 0) "." (λ _, true).

Example documents :
  demo_document (quoted " {'a': 1, 'b': [-0, true ,1E+2], 'a': '\u00e9\/'} ")
    (JObject [("a", JString (String (ascii_of_nat 195) (String (ascii_of_nat 169) "/")));
              ("b", JArray [JInteger 0; JBoolean true; JFloat 0])]) ∧
  demo_document (byte_order_mark +:+ "null" +:+ String (ascii_of_nat 0) "]") JNull.
Proof. split; apply accepts_documents; vm_compute; split; reflexivity. Qed.

Example no_documents j :
  ¬ demo_document "01" j ∧ ¬ demo_document "[1,]" j ∧ ¬ demo_document "1.e2" j ∧
  ¬ demo_document (quoted "'\ud800'") j ∧ ¬ demo_document "" j ∧ ¬ demo_document "nul" j.
Proof. split_and!; intros [H _]%accepts_documents; vm_compute in H; discriminate H. Qed.
