(* ===== verification/JsonPretty.v ===== *)
(** * JSON: pretty printing

    The other half of [serializer::dump] of [json.hpp]: with [pretty_print], every element
    is on a line of its own after an indentation, which is copied from a string of the
    serializer that is doubled, once, when it is too short. What is written is read back;
    with a step of more than 1025 the copy leaves the string. *)

From Stdlib Require Import Ascii.
From stdpp Require Import base list strings numbers.
From S2P Require Import Prelude CppString Json JsonLexer JsonParser JsonDump JsonNumbers JsonUtf8.
From S2P Require Import JsonRoundTrip JsonParsed JsonGrammar JsonTokens JsonRecognizer.

Local Open Scope Z_scope.

(** ** The serializer *)

(** The state is the size of [indent_string]; the effects are the pieces that are
    written. *)
Notation pretty_writer := (cpp Z string unit).

Definition written (w : writer) : pretty_writer := λ size, ([w.1], size, w.2).

Definition newline : string := String (ascii_of_nat 10) "".
Definition repeated (indent_char : ascii) (n : nat) : string := Nat.iter n (String indent_char) "".

(** [indent_string(512, indent_char)] *)
Definition indent_string_size : Z := 512.

(** The first [n] characters of the string: what [resize] has added is spaces, whatever
    [indent_char] is. *)
Definition indent_text (indent_char : ascii) (n : Z) : string :=
  repeated indent_char (Z.to_nat (Z.min n indent_string_size)) +:+
  repeated " " (Z.to_nat (n - indent_string_size)).

(** [if (indent_string.size() < new_indent)
    indent_string.resize(indent_string.size() * 2, ' ')] *)
Definition resize_indent (new_indent : Z) : pretty_writer :=
  modify (λ size, if size <? new_indent then size * 2 else size).

(** [write_characters(indent_string.c_str(), n)]: the string is followed by a null byte,
    and by nothing that may be read. *)
Definition write_indent (indent_char : ascii) (n : Z) : pretty_writer :=
  size ← get;
  if n <=? size then emit (indent_text indent_char n)
  else if n =? size + 1 then emit (indent_text indent_char size +:+ String zero "")
  else halt Undefined.

(** A comma and a new line after every element but the last. *)
Section lines.
Context {A : Type} (w : A → pretty_writer).
Fixpoint lines (l : list A) : pretty_writer :=
  match l with
  | [] => mret tt
  | [x] => w x
  | x :: rest => w x;; emit ("," +:+ newline);; lines rest
  end.
End lines.

Section serializer.
Context (isfinite : Z → bool) (float_text : Z → string) (indent_char : ascii).
Notation dump := (json_dump isfinite float_text).

(** [current_indent + indent_step] of unsigned integers. *)
Definition deeper (indent_step current_indent : Z) : Z := (current_indent + indent_step) mod 2 ^ 32.

Fixpoint pretty (indent_step current_indent : Z) (j : json) : pretty_writer :=
  let new_indent := deeper indent_step current_indent in
  match j with
  | JObject ((_ :: _) as ms) =>
      emit ("{" +:+ newline);;
      resize_indent new_indent;;
      lines (λ m,
        write_indent indent_char new_indent;;
        emit quote;;
        written (dump_escaped m.1);;
        emit (quote +:+ ": ");;
        pretty indent_step new_indent m.2) ms;;
      emit newline;;
      write_indent indent_char current_indent;;
      emit "}"
  | JArray ((_ :: _) as js) =>
      emit ("[" +:+ newline);;
      resize_indent new_indent;;
      lines (λ j, write_indent indent_char new_indent;; pretty indent_step new_indent j) js;;
      emit newline;;
      write_indent indent_char current_indent;;
      emit "]"
  | _ => written (dump j)
  end.

(** [operator<<] into a stream of this width and with this fill character, which is the
    indentation's character; and what the stream receives. *)
Definition write_json (width : Z) (j : json) : list string * outcome unit :=
  let indentation := width mod 2 ^ 32 in
  if 0 <? width
  then let r := pretty indentation 0 j indent_string_size in (run_trace r, run_outcome r)
  else ([(dump j).1], (dump j).2).
End serializer.

(** ** What has been written *)

Definition text_of (pieces : list string) : string := foldr String.append "" pieces.

Lemma text_of_app l1 l2 : text_of (l1 ++ l2) = text_of l1 +:+ text_of l2.
Proof. induction l1 as [|s l1 IH]; cbn [app text_of foldr]; [done|]. fold (text_of (l1 ++ l2)). rewrite IH. by rewrite str_app_assoc. Qed.

Lemma text_of_cons s l : text_of (s :: l) = s +:+ text_of l.
Proof. done. Qed.

(** The characters that the parser takes for white space. *)
Definition white (c : ascii) : Prop := c ∈ [" "; "009"; "010"; "013"]%char.

Lemma ws_repeated c n : white c → ws (repeated c n).
Proof. intros Hc. induction n as [|n IH]; [constructor|]. by constructor. Qed.

Lemma ws_newline w : ws w → ws (newline +:+ w).
Proof. intros Hw. unfold newline. rewrite str_app_cons, str_app_nil_l. constructor; [by apply (bool_decide_unpack _)|done]. Qed.

Lemma ws_app u w : ws u → ws w → ws (u +:+ w).
Proof.
  intros Hu Hw. induction Hu as [|c u Hc _ IH]; [by rewrite str_app_nil_l|]. rewrite str_app_cons. by constructor.
Qed.

Lemma ws_indent c n : white c → ws (indent_text c n).
Proof. intros Hc. apply ws_app; apply ws_repeated; [done|by left]. Qed.

(** [m], from a string of this size, writes a text that satisfies [Q], and the string
    does not become shorter. *)
Definition writes (size : Z) (m : pretty_writer) (Q : string → Prop) : Prop :=
  ∃ tr size', m size = (tr, size', Ret tt) ∧ size <= size' ∧ Q (text_of tr).

Lemma writes_bind size (m : pretty_writer) (f : unit → pretty_writer) (P Q : string → Prop) :
  writes size m P → (∀ size' s1, size <= size' → P s1 → writes size' (f tt) (λ s2, Q (s1 +:+ s2))) →
  writes size (a ← m; f a) Q.
Proof.
  intros (tr & size1 & Hm & Hle & HP) Hf. destruct (Hf size1 (text_of tr) Hle HP) as (tr2 & size2 & Hf2 & Hle2 & HQ).
  exists (tr ++ tr2), size2. unfold mbind, cpp_bind. rewrite Hm, Hf2, text_of_app.
  split; [done|]. split; [lia|done].
Qed.

Lemma writes_emit size s (Q : string → Prop) : Q s → writes size (emit s) Q.
Proof. intros HQ. exists [s], size. split; [done|]. split; [lia|]. cbn. by rewrite str_app_nil_r. Qed.

(** [m] writes exactly this text. *)
Lemma writes_then size (m : pretty_writer) (f : unit → pretty_writer) s (Q : string → Prop) :
  writes size m (λ t, t = s) → (∀ size', size <= size' → writes size' (f tt) (λ t, Q (s +:+ t))) →
  writes size (a ← m; f a) Q.
Proof. intros Hm Hf. eapply writes_bind; [exact Hm|]. intros size' s1 Hle ->. by apply Hf. Qed.

Lemma writes_indent indent_char size n : 0 <= n <= size → writes size (write_indent indent_char n) (λ t, t = indent_text indent_char n).
Proof.
  intros Hn. exists [indent_text indent_char n], size. unfold write_indent, mbind, cpp_bind, get.
  rewrite (proj2 (Z.leb_le n size)) by lia. split; [done|]. split; [lia|]. cbn. by rewrite str_app_nil_r.
Qed.

Lemma writes_written size s w : w = (s, Ret tt) → writes size (written w) (λ t, t = s).
Proof. intros ->. exists [s], size. split; [done|]. split; [lia|]. cbn. by rewrite str_app_nil_r. Qed.

Lemma writes_mono size (m : pretty_writer) (P Q : string → Prop) :
  writes size m P → (∀ t, P t → Q t) → writes size m Q.
Proof. intros (tr & size' & Hm & Hle & HP) HPQ. exists tr, size'. auto. Qed.

(** Doubling is enough for a step of at most 512. *)
Lemma resize_enough size new (f : unit → pretty_writer) (Q : string → Prop) :
  512 <= size → new <= size + 512 →
  (∀ size', size <= size' → new <= size' → writes size' (f tt) Q) →
  writes size (a ← resize_indent new; f a) Q.
Proof.
  intros Hsize Hnew Hf. unfold writes, resize_indent, modify, mbind, cpp_bind.
  destruct (Hf (if size <? new then size * 2 else size)) as (tr & size' & Hr & Hle & HQ).
  - destruct (Z.ltb_spec size new); lia.
  - destruct (Z.ltb_spec size new); lia.
  - exists tr, size'. rewrite Hr. split; [done|]. split; [|done].
    destruct (Z.ltb_spec size new); lia.
Qed.

Section reading.
Context (strtod : string → Z) (decimal_point_char : ascii) (isfinite : Z → bool)
  (float_text : Z → string) (indent_char : ascii) (Hwhite : white indent_char).
Notation dump := (json_dump isfinite float_text).
Notation pretty := (pretty isfinite float_text indent_char).
Notation reads := (reads strtod decimal_point_char isfinite).
Notation elements_read := (elements_read strtod decimal_point_char isfinite).
Notation members_read := (members_read strtod decimal_point_char isfinite).

Lemma separated_ret {A} (w : A → writer) l t :
  separated w l = (t, Ret tt) → Forall (λ x, ∃ tx, w x = (tx, Ret tt)) l.
Proof.
  revert t. induction l as [|x l IH]; intros t Ht; [constructor|].
  destruct l as [|y l]; cbn [separated] in Ht; [by constructor; [eexists|]|].
  apply and_then_ret in Ht as (t1 & t2 & H1 & H2 & ->).
  apply and_then_ret in H1 as (t3 & t4 & H3 & _ & ->).
  constructor; [by eexists|]. by eapply IH.
Qed.

(** A key that has been escaped is a string of the grammar. *)
Lemma escaped_string_text s t : escaped s 0 0 = Some t → string_text (quote +:+ t +:+ quote) s.
Proof.
  intros Ht. pose proof (scan_string_escaped s t Ht "") as Hscan.
  apply scan_string_token in Hscan as (str & u & [= ->] & Hu & Heq); [|done].
  rewrite !str_app_nil_r in Heq. by rewrite Heq.
Qed.

(** The value is written, and the parser reads it. *)
Definition prettily_read (j : json) : Prop :=
  ∀ indent_step current_indent size t, storable j → dump j = (t, Ret tt) →
    0 <= indent_step <= 512 → 0 <= current_indent <= size → 512 <= size →
    writes size (pretty indent_step current_indent j) (λ t, reads t j).

Definition indented (n : Z) : string := newline +:+ indent_text indent_char n.

Lemma ws_indented n : ws (indented n).
Proof. by apply ws_newline, ws_indent. Qed.

(** The elements of an array, after the first new line. *)
Lemma pretty_elements indent_step n size js :
  js ≠ [] → Forall prettily_read js → Forall storable js → Forall (λ j, ∃ t, dump j = (t, Ret tt)) js →
  0 <= indent_step <= 512 → 0 <= n <= size → 512 <= size →
  writes size (lines (λ j, write_indent indent_char n;; pretty indent_step n j) js)
    (λ te, ∀ w, ws w → elements_read (newline +:+ te +:+ w) js).
Proof.
  intros Hne Hall Hst Hd Hstep. revert size Hne Hst Hd.
  induction Hall as [|j js Hj _ IH]; intros size Hne Hst Hd Hn Hsize; [done|].
  apply list.Forall_cons in Hst as [Hst Hsts], Hd as [[t Hd] Hds].
  assert (∀ size', size <= size' →
    writes size' (write_indent indent_char n;; pretty indent_step n j) (λ t, ∃ tj, t = indent_text indent_char n +:+ tj ∧ reads tj j))
    as Hone.
  { intros size' Hle. eapply writes_then; [apply writes_indent; lia|]. intros size2 Hle2.
    eapply writes_mono; [apply (Hj indent_step n size2 t); (done || lia)|]. eauto. }
  destruct js as [|j' js]; cbn [lines].
  - eapply writes_mono; [apply Hone; lia|]. intros te (tj & -> & Hread) w Hw.
    rewrite !str_app_assoc, <- (str_app_assoc newline). by apply elements_one_read; [apply ws_indented| |].
  - eapply writes_bind; [apply Hone; lia|]. intros size1 te Hle (tj & -> & Hread).
    eapply writes_then; [by apply writes_emit|]. intros size2 Hle2.
    eapply writes_mono; [apply IH; (done || lia)|]. intros ts Hts w Hw.
    replace (newline +:+ ((indent_text indent_char n +:+ tj) +:+ ("," +:+ newline) +:+ ts) +:+ w)
      with (indented n +:+ tj +:+ "" +:+ "," +:+ (newline +:+ ts +:+ w))
      by (unfold indented; by rewrite !str_app_assoc, str_app_nil_l).
    by apply elements_more_read; [apply ws_indented| |constructor|apply Hts].
Qed.

(** The members of an object. *)
Lemma pretty_members indent_step n size ms :
  ms ≠ [] → Forall (λ m, prettily_read m.2) ms → Forall (λ m, storable m.2) ms →
  Forall (λ m, ∃ t, member_text isfinite float_text m = (t, Ret tt)) ms →
  0 <= indent_step <= 512 → 0 <= n <= size → 512 <= size →
  writes size (lines (λ m, write_indent indent_char n;; emit quote;; written (dump_escaped m.1);; emit (quote +:+ ": ");;
                         pretty indent_step n m.2) ms)
    (λ tm, ∀ w, ws w → members_read (newline +:+ tm +:+ w) ms).
Proof.
  intros Hne Hall Hst Hd Hstep. revert size Hne Hst Hd.
  induction Hall as [|[k j] ms Hj _ IH]; intros size Hne Hst Hd Hn Hsize; [done|].
  apply list.Forall_cons in Hst as [Hst Hsts], Hd as [[t Hd] Hds]. cbn [snd] in *.
  apply member_text_ret in Hd as (tk & tv & Hk & Hv & _). cbn [fst snd] in *.
  assert (∀ size', size <= size' →
    writes size' (write_indent indent_char n;; emit quote;; written (dump_escaped k);; emit (quote +:+ ": ");;
                  pretty indent_step n j)
      (λ t, ∃ tj, t = indent_text indent_char n +:+ (quote +:+ tk +:+ quote) +:+ ":" +:+ " " +:+ tj ∧ reads tj j))
    as Hone.
  { intros size' Hle. eapply writes_then; [apply writes_indent; lia|]. intros size2 Hle2.
    eapply writes_then; [by apply writes_emit|]. intros size3 Hle3.
    eapply writes_then; [by apply writes_written, dump_escaped_ret|]. intros size4 Hle4.
    eapply writes_then; [by apply writes_emit|]. intros size5 Hle5.
    eapply writes_mono; [apply (Hj indent_step n size5 tv); (done || lia)|].
    intros tj Hread. exists tj. split; [|done]. by rewrite !str_app_assoc. }
  assert (ws " ") as Hsp by (apply (ws_repeated " " 1); by left).
  pose proof (escaped_string_text k tk Hk) as Hkey.
  destruct ms as [|m' ms]; cbn [lines fst snd].
  - eapply writes_mono; [apply Hone; lia|]. intros tm (tj & -> & Hread) w Hw.
    replace (newline +:+ (indent_text indent_char n +:+ (quote +:+ tk +:+ quote) +:+ ":" +:+ " " +:+ tj) +:+ w)
      with (indented n +:+ (quote +:+ tk +:+ quote) +:+ "" +:+ ":" +:+ " " +:+ tj +:+ w)
      by (unfold indented; by rewrite !str_app_assoc, str_app_nil_l).
    apply members_one_read; (done || apply ws_indented || constructor).
  - eapply writes_bind; [apply Hone; lia|]. intros size1 tm Hle (tj & -> & Hread).
    eapply writes_then; [by apply writes_emit|]. intros size2 Hle2.
    eapply writes_mono; [apply IH; (done || lia)|]. intros ts Hts w Hw.
    replace (newline +:+ ((indent_text indent_char n +:+ (quote +:+ tk +:+ quote) +:+ ":" +:+ " " +:+ tj)
        +:+ ("," +:+ newline) +:+ ts) +:+ w)
      with (indented n +:+ (quote +:+ tk +:+ quote) +:+ "" +:+ ":" +:+ " " +:+ tj +:+ "" +:+ "," +:+ (newline +:+ ts +:+ w))
      by (unfold indented; by rewrite !str_app_assoc, !str_app_nil_l).
    apply members_more_read; first [done|apply ws_indented|constructor|by apply Hts].
Qed.

Lemma deeper_bounds indent_step c size :
  0 <= indent_step <= 512 → 0 <= c <= size → 0 <= deeper indent_step c <= size + 512.
Proof.
  intros Hs Hc. unfold deeper. pose proof (Z.mod_pos_bound (c + indent_step) (2 ^ 32) eq_refl).
  pose proof (Z.mod_le (c + indent_step) (2 ^ 32)). lia.
Qed.

Lemma pretty_reads j : prettily_read j.
Proof.
  induction j as [|ms IH|js IH|str|b|z|z|f] using json_nested_ind; intros indent_step c size t Hst Hd Hstep Hc Hsize;
    try (eapply writes_mono; [apply writes_written; exact Hd|]; intros ? ->; by eapply reads_dump).
  - destruct ms as [|m ms].
    { eapply writes_mono; [by apply writes_written|]. intros ? ->. by eapply reads_dump. }
    destruct Hst as [Hok Hst%storable_members].
    change (write "{" &> separated (member_text isfinite float_text) (m :: ms) &> write "}" = (t, Ret tt)) in Hd.
    apply and_then_ret in Hd as (t0 & tc & Hd & ->%write_ret & ->).
    apply and_then_ret in Hd as (tb & tm & ->%write_ret & Hds%separated_ret & ->).
    pose proof (deeper_bounds indent_step c size Hstep Hc) as Hn. cbn [JsonPretty.pretty].
    eapply writes_then; [by apply writes_emit|]. intros size1 Hle1.
    apply resize_enough; [lia..|]. intros size2 Hle2 Hnew.
    eapply writes_bind; [apply (pretty_members _ _ _ (m :: ms)); [done|exact IH|done|done|lia..]|].
    intros size3 tm' Hle3 Htm. eapply writes_then; [by apply writes_emit|]. intros size4 Hle4.
    eapply writes_then; [apply writes_indent; lia|]. intros size5 Hle5. apply writes_emit.
    pose proof (object_read _ _ _ _ _ (Htm (indented c) (ws_indented c))) as Hread.
    replace (("{" +:+ newline) +:+ tm' +:+ newline +:+ indent_text indent_char c +:+ "}")
      with ("{" +:+ (newline +:+ tm' +:+ indented c) +:+ "}") by (unfold indented; by rewrite !str_app_assoc).
    unfold object_members in Hread. by rewrite (foldl_assign_ok [] (m :: ms)) in Hread.
  - destruct js as [|j js].
    { eapply writes_mono; [by apply writes_written|]. intros ? ->. by eapply reads_dump. }
    apply storable_elements in Hst.
    change (write "[" &> separated dump (j :: js) &> write "]" = (t, Ret tt)) in Hd.
    apply and_then_ret in Hd as (t0 & tc & Hd & ->%write_ret & ->).
    apply and_then_ret in Hd as (tb & te & ->%write_ret & Hds%separated_ret & ->).
    pose proof (deeper_bounds indent_step c size Hstep Hc) as Hn. cbn [JsonPretty.pretty].
    eapply writes_then; [by apply writes_emit|]. intros size1 Hle1.
    apply resize_enough; [lia..|]. intros size2 Hle2 Hnew.
    eapply writes_bind; [apply (pretty_elements _ _ _ (j :: js)); [done|exact IH|done|done|lia..]|].
    intros size3 te' Hle3 Hte. eapply writes_then; [by apply writes_emit|]. intros size4 Hle4.
    eapply writes_then; [apply writes_indent; lia|]. intros size5 Hle5. apply writes_emit.
    pose proof (array_read _ _ _ _ _ (Hte (indented c) (ws_indented c))) as Hread.
    replace (("[" +:+ newline) +:+ te' +:+ newline +:+ indent_text indent_char c +:+ "]")
      with ("[" +:+ (newline +:+ te' +:+ indented c) +:+ "]") by (unfold indented; by rewrite !str_app_assoc).
    exact Hread.
Qed.
End reading.

(** ** What a stream receives *)

Definition nonempty_structure (j : json) : Prop :=
  match j with JObject (_ :: _) | JArray (_ :: _) => True | _ => False end.

Lemma lines_stop {A} (w : A → pretty_writer) x l size tr size' stop :
  w x size = (tr, size', Stop stop) → lines w (x :: l) size = (tr, size', Stop stop).
Proof. intros Hw. destruct l as [|y l]; cbn [lines]; [done|]. unfold mbind, cpp_bind. by rewrite Hw. Qed.

Lemma indent_leaves indent_char n size : size + 1 < n → write_indent indent_char n size = ([], size, Stop Undefined).
Proof.
  intros Hn. unfold write_indent, mbind, cpp_bind, get.
  rewrite (proj2 (Z.leb_gt n size)), (proj2 (Z.eqb_neq n (size + 1))) by lia. done.
Qed.

Lemma pretty_leaves isfinite float_text indent_char width j :
  1025 < width < 2 ^ 32 → nonempty_structure j →
  run_outcome (pretty isfinite float_text indent_char width 0 j indent_string_size) = Stop Undefined.
Proof.
  intros Hw Hj. assert (deeper width 0 = width) as Hn by (unfold deeper; rewrite Z.mod_small; lia).
  assert (∀ s : Z, s = 1024 → write_indent indent_char width s = ([], s, Stop Undefined)) as Hleave
    by (intros s ->; apply indent_leaves; lia).
  assert ((if indent_string_size <? width then indent_string_size * 2 else indent_string_size) = 1024) as Hsize.
  { unfold indent_string_size. destruct (Z.ltb_spec 512 width); lia. }
  destruct j as [|[|m ms]|[|j js]| | | | |]; try done; cbn [pretty]; rewrite Hn;
    unfold mbind at 1, cpp_bind at 1, emit at 1; cbn beta iota;
    unfold mbind at 1, cpp_bind at 1, resize_indent, modify; cbn beta iota; rewrite Hsize;
    unfold mbind at 1, cpp_bind at 1;
    erewrite lines_stop by (unfold mbind, cpp_bind; by rewrite Hleave); done.
Qed.

(** C36: Values are written into a stream of any width up to 512 so that they are read back:
    compactly when the width is not positive, and otherwise with a line for every element
    and indented by the width, if the stream's fill character is white space to the
    parser. For a width beyond 1025 the indentation is longer than the string it is copied
    from, which is only doubled once, and writing an array or object that is not empty has
    no defined behaviour, with any fill character. *)
Theorem stream_width_bounds (strtod : string → Z) (decimal_point_char : ascii)
    (isfinite : Z → bool) (float_text : Z → string) (fill : ascii) (width : Z) (j : json) (t : string) :
  storable j → json_dump isfinite float_text j = (t, Ret tt) → width < 2 ^ 32 →
  let '(pieces, result) := write_json isfinite float_text fill width j in
  (width <= 512 → width <= 0 ∨ white fill → result = Ret tt ∧
     json_accept strtod decimal_point_char isfinite (text_of pieces) = true ∧
     json_parse strtod decimal_point_char isfinite (text_of pieces) = Ret j) ∧
  (1025 < width → nonempty_structure j → result = Stop Undefined).
Proof.
  intros Hst Hd Hmax. unfold write_json.
  assert (∀ t', reads strtod decimal_point_char isfinite t' j →
    json_accept strtod decimal_point_char isfinite t' = true ∧
    json_parse strtod decimal_point_char isfinite t' = Ret j) as Hparse.
  { intros t' Hread. unfold json_accept, json_parse. by rewrite (parse_value_reads _ _ _ _ _ Hread). }
  destruct (Z.ltb_spec 0 width) as [Hw|Hw]; cbn [fst snd].
  - rewrite Z.mod_small by lia. split.
    + intros Hle [?|Hwhite]; [lia|].
      destruct (pretty_reads strtod decimal_point_char isfinite float_text fill Hwhite j width 0
        indent_string_size t Hst Hd) as (tr & size' & Hrun & _ & Hread); [unfold indent_string_size; lia..|].
      rewrite Hrun. split; [done|]. by apply Hparse.
    + intros Hbig Hne. by apply pretty_leaves.
  - split; [|lia]. intros _ _. rewrite Hd. split; [done|]. apply Hparse. cbn. rewrite str_app_nil_r.
    by eapply reads_dump.
Qed.

Example pretty_demo :
  write_json (λ _, true) (λ _, "") " " 2 (JObject [("a", JArray [JUnsigned 1; JNull])])
  = (["{" +:+ newline; "  "; quote; "a"; quote +:+ ": ";
      "[" +:+ newline; "    "; "1"; "," +:+ newline; "    "; "null"; newline; "  "; "]";
      newline; ""; "}"], Ret tt).
Proof. vm_compute. reflexivity. Qed.

(** With another fill character something else is read. *)
Example fill_misread :
  let pieces := (write_json (λ _, true) (λ _, "") "1" 2 (JArray [JUnsigned 1; JUnsigned 2])).1 in
  text_of pieces = "[" +:+ newline +:+ "111," +:+ newline +:+ "112" +:+ newline +:+ "]" ∧
  json_parse (λ _, 0) "."%char (λ _, true) (text_of pieces) = Ret (JArray [JUnsigned 111; JUnsigned 112]).
Proof. by vm_compute. Qed.

(** A tab is the fill character. *)
Lemma stream_width_bounds_witness :
  let '(pieces, result) := write_json (λ _, true) (λ _, "") "009" 4 demo_value in
  result = Ret tt ∧ json_accept (λ _, 0) "."%char (λ _, true) (text_of pieces) = true ∧
  json_parse (λ _, 0) "."%char (λ _, true) (text_of pieces) = Ret demo_value.
Proof.
  pose proof (stream_width_bounds (λ _, 0) "."%char (λ _, true) (λ _, "") "009" 4 demo_value
    (json_dump (λ _, true) (λ _, "") demo_value).1) as H.
  destruct (write_json _ _ _ _ _) as [pieces result]. apply H.
  - split; [apply (bool_decide_unpack _); vm_compute; exact I|]. cbn. repeat split; constructor.
  - vm_compute. reflexivity.
  - lia.
  - lia.
  - right. apply (bool_decide_unpack _). vm_compute. exact I.
Defined.
