(* ===== verification/Manifests.v ===== *)
(** * Manifests

    [common/other/include/manifests.hpp] and [src/manifests.cpp]: the manifests of
    applications and of the machine, and their JSON form. Every [to_json]/[from_json]
    pair is an instance of [Codec], and its round trip one of [Lawful]. *)

From stdpp Require Import base list strings.
From S2P Require Import Prelude Json.

(** ** Data *)

Record MachineInstanceMode := mk_MachineInstanceMode {
  functionGroup : string;
  mode : string;
}.

Inductive StartupOptionKindEnum :=
  | commandLineLongForm
  | commandLineShortForm
  | commandLineSimpleForm.
#[export] Instance StartupOptionKindEnum_eq_dec : EqDecision StartupOptionKindEnum.
Proof. solve_decision. Defined.

Record StartupOption := mk_StartupOption {
  optionKind : StartupOptionKindEnum;
  optionName : string;
  optionArg : string;
}.

Record ModeDepStartupConfig := mk_ModeDepStartupConfig {
  modes : list MachineInstanceMode;
  startupOptions : list StartupOption;
}.

Record Process := mk_Process {
  process_name : string;
  modeDependentStartupConf : list ModeDepStartupConfig;
}.

Record ApplicationManifestInternal := mk_ApplicationManifestInternal {
  app_manifestId : string;
  processes : list Process;
}.

Record ApplicationManifest := mk_ApplicationManifest {
  app_manifest : ApplicationManifestInternal;
}.

Record Mode := mk_Mode { mode_mode : string }.

Record ModeDeclarationGroup := mk_ModeDeclarationGroup {
  functionGroupName : string;
  modeDeclarations : list Mode;
}.

Record MachineManifestInternal := mk_MachineManifestInternal {
  machine_manifestId : string;
  modeDeclarationGroups : list ModeDeclarationGroup;
}.

Record MachineManifest := mk_MachineManifest {
  machine_manifest : MachineManifestInternal;
}.

(** ** [StartupOption::makeCommandLineOption] *)

Definition makeCommandLineOption (o : StartupOption) : string :=
  let res := optionName o in
  match optionKind o with
  | commandLineShortForm =>
      "-" +:+ res +:+ (if decide (optionArg o = "") then "" else " " +:+ optionArg o)
  | commandLineLongForm =>
      "--" +:+ res +:+ (if decide (optionArg o = "") then "" else "=" +:+ optionArg o)
  | commandLineSimpleForm => res
  end.

(** ** JSON *)

#[export] Instance StartupOptionKindEnum_codec : Codec StartupOptionKindEnum := {
  to_json := enum_to_json (commandLineSimpleForm, "commandLineSimpleForm")
    [(commandLineShortForm, "commandLineShortForm"); (commandLineLongForm, "commandLineLongForm")];
  from_json := enum_from_json (commandLineSimpleForm, "commandLineSimpleForm")
    [(commandLineShortForm, "commandLineShortForm"); (commandLineLongForm, "commandLineLongForm")];
}.

#[export] Instance MachineInstanceMode_codec : Codec MachineInstanceMode := {
  to_json m := object_of [("Function_group", to_json (functionGroup m)); ("Mode", to_json (mode m))];
  from_json j :=
    functionGroup ← get_field "Function_group" j;
    mode ← get_field "Mode" j;
    Ret (mk_MachineInstanceMode functionGroup mode);
}.

#[export] Instance StartupOption_codec : Codec StartupOption := {
  to_json o := object_of
    [("Option_kind", to_json (optionKind o)); ("Option_name", to_json (optionName o));
     ("Option_arg", to_json (optionArg o))];
  from_json j :=
    optionKind ← get_field "Option_kind" j;
    optionName ← get_field "Option_name" j;
    optionArg ← get_field "Option_arg" j;
    Ret (mk_StartupOption optionKind optionName optionArg);
}.

#[export] Instance ModeDepStartupConfig_codec : Codec ModeDepStartupConfig := {
  to_json c := object_of
    [("Startup_options", to_json (startupOptions c));
     ("Mode_in_machine_instance_refs", to_json (modes c))];
  from_json j :=
    modes ← get_field "Mode_in_machine_instance_refs" j;
    startupOptions ← get_field "Startup_options" j;
    Ret (mk_ModeDepStartupConfig modes startupOptions);
}.

#[export] Instance Process_codec : Codec Process := {
  to_json p := object_of
    [("Process_name", to_json (process_name p));
     ("Mode_dependent_startup_configs", to_json (modeDependentStartupConf p))];
  from_json j :=
    name ← get_field "Process_name" j;
    conf ← get_field "Mode_dependent_startup_configs" j;
    Ret (mk_Process name conf);
}.

#[export] Instance ApplicationManifestInternal_codec : Codec ApplicationManifestInternal := {
  to_json m := object_of
    [("Application_manifest_id", to_json (app_manifestId m)); ("Process", to_json (processes m))];
  from_json j :=
    manifestId ← get_field "Application_manifest_id" j;
    processes ← get_field "Process" j;
    Ret (mk_ApplicationManifestInternal manifestId processes);
}.

#[export] Instance ApplicationManifest_codec : Codec ApplicationManifest := {
  to_json m := object_of [("Application_manifest", to_json (app_manifest m))];
  from_json j := manifest ← get_field "Application_manifest" j; Ret (mk_ApplicationManifest manifest);
}.

#[export] Instance Mode_codec : Codec Mode := {
  to_json m := object_of [("Mode", to_json (mode_mode m))];
  from_json j := mode ← get_field "Mode" j; Ret (mk_Mode mode);
}.

#[export] Instance ModeDeclarationGroup_codec : Codec ModeDeclarationGroup := {
  to_json g := object_of
    [("Function_group_name", to_json (functionGroupName g));
     ("Mode_declarations", to_json (modeDeclarations g))];
  from_json j :=
    functionGroupName ← get_field "Function_group_name" j;
    modeDeclarations ← get_field "Mode_declarations" j;
    Ret (mk_ModeDeclarationGroup functionGroupName modeDeclarations);
}.

#[export] Instance MachineManifestInternal_codec : Codec MachineManifestInternal := {
  to_json m := object_of
    [("Machine_manifest_id", to_json (machine_manifestId m));
     ("Mode_declaration_group", to_json (modeDeclarationGroups m))];
  from_json j :=
    manifestId ← get_field "Machine_manifest_id" j;
    modeDeclarationGroups ← get_field "Mode_declaration_group" j;
    Ret (mk_MachineManifestInternal manifestId modeDeclarationGroups);
}.

#[export] Instance MachineManifest_codec : Codec MachineManifest := {
  to_json m := object_of [("Machine_manifest", to_json (machine_manifest m))];
  from_json j := manifest ← get_field "Machine_manifest" j; Ret (mk_MachineManifest manifest);
}.

(** ** Round trips *)

(** A record whose members have distinct literal keys: every field is found in the
    object and read back by its own law. *)
Local Ltac record_law codec :=
  intros []; unfold codec; cbn [to_json from_json];
  repeat (erewrite get_field_object_of;
    [|apply (bool_decide_unpack _); vm_compute; exact I
     |repeat first [apply list_elem_of_here|apply list_elem_of_further]];
    cbn [mbind outcome_bind]);
  reflexivity.

#[export] Instance StartupOptionKindEnum_lawful : Lawful StartupOptionKindEnum.
Proof. by intros []. Qed.
#[export] Instance MachineInstanceMode_lawful : Lawful MachineInstanceMode.
Proof. record_law MachineInstanceMode_codec. Qed.
#[export] Instance StartupOption_lawful : Lawful StartupOption.
Proof. record_law StartupOption_codec. Qed.
#[export] Instance ModeDepStartupConfig_lawful : Lawful ModeDepStartupConfig.
Proof. record_law ModeDepStartupConfig_codec. Qed.
#[export] Instance Process_lawful : Lawful Process.
Proof. record_law Process_codec. Qed.
#[export] Instance ApplicationManifestInternal_lawful : Lawful ApplicationManifestInternal.
Proof. record_law ApplicationManifestInternal_codec. Qed.
#[export] Instance ApplicationManifest_lawful : Lawful ApplicationManifest.
Proof. record_law ApplicationManifest_codec. Qed.
#[export] Instance Mode_lawful : Lawful Mode.
Proof. record_law Mode_codec. Qed.
#[export] Instance ModeDeclarationGroup_lawful : Lawful ModeDeclarationGroup.
Proof. record_law ModeDeclarationGroup_codec. Qed.
#[export] Instance MachineManifestInternal_lawful : Lawful MachineManifestInternal.
Proof. record_law MachineManifestInternal_codec. Qed.
#[export] Instance MachineManifest_lawful : Lawful MachineManifest.
Proof. record_law MachineManifest_codec. Qed.

(** A manifest of an application or of the machine is read back from its JSON
    value unchanged. *)
Theorem manifests_round_trip (a : ApplicationManifest) (m : MachineManifest) :
  from_json (to_json a) = Ret a ∧ from_json (to_json m) = Ret m.
Proof. split; apply from_to_json. Qed.

(** The kind of a start-up option is read without an error from any JSON value:
    the three names give their kinds, and everything else (another string, a number,
    null) silently gives the simple form, so that the option's argument and dashes
    are dropped from the command line. *)
Theorem option_kind_total (j : json) (name arg : string) :
  ∃ k, from_json j = Ret k ∧
    (j = JString "commandLineLongForm" ∧ k = commandLineLongForm ∨
     j = JString "commandLineShortForm" ∧ k = commandLineShortForm ∨
     j ≠ JString "commandLineLongForm" ∧ j ≠ JString "commandLineShortForm" ∧
     k = commandLineSimpleForm ∧ makeCommandLineOption (mk_StartupOption k name arg) = name).
Proof.
  destruct (decide (equals_string "commandLineLongForm" j)) as [Hl|Hl];
    [|destruct (decide (equals_string "commandLineShortForm" j)) as [Hs|Hs]].
  - exists commandLineLongForm. destruct j; try done. apply bool_decide_unpack in Hl.
    subst. split; [done|by left].
  - exists commandLineShortForm. destruct j; try done. apply bool_decide_unpack in Hs.
    subst. split; [done|by right; left].
  - exists commandLineSimpleForm. split.
    + cbn [from_json StartupOptionKindEnum_codec]. unfold enum_from_json. f_equal. cbn [list_find].
      case_decide; [done|]. rewrite !decide_False by done. done.
    + right; right. repeat split; intros ->; [by apply Hl|by apply Hs].
Qed.

