(* ===== verification/ManifestSchema.v ===== *)
(** * The types of manifests

    The conversions of [manifests.cpp] as a type checker: a schema for each manifest,
    the JSON values that have it, and the exception the first deviation gives. *)

From stdpp Require Import base list strings numbers.
From S2P Require Import Prelude Json Manifests.

(** ** Schemas *)

Inductive schema :=
  | SAny
  | SString
  | SArray (elements : schema)
  | SRecord (fields : list (string * schema)).

(** The value has the type; a record may have more members than the schema names. *)
Fixpoint typed (s : schema) (j : json) : bool :=
  match s, j with
  | SAny, _ => true
  | SString, JString _ => true
  | SArray s, JArray js => forallb (typed s) js
  | SRecord fields, JObject ms =>
      forallb (λ f, match member f.1 ms with Some v => typed f.2 v | None => false end) fields
  | SRecord fields, _ => match fields with [] => true | _ => false end
  | _, _ => false
  end.

Fixpoint first_error {A} (f : A → option exn) (l : list A) : option exn :=
  match l with
  | [] => None
  | x :: l => match f x with Some e => Some e | None => first_error f l end
  end.

(** The first deviation in the order of reading: the fields of a record in the order of
    the schema, the elements of an array in theirs. *)
Fixpoint deviation (s : schema) (j : json) : option exn :=
  match s with
  | SAny => None
  | SString => match j with JString _ => None | _ => Some (JsonTypeError 302) end
  | SArray s =>
      match j with JArray js => first_error (deviation s) js | _ => Some (JsonTypeError 302) end
  | SRecord fields =>
      first_error (λ f,
        match j with
        | JObject ms =>
            match member f.1 ms with Some v => deviation f.2 v | None => Some (JsonOutOfRange 403) end
        | _ => Some (JsonTypeError 304)
        end) fields
  end.

Section schema_ind.
Context (P : schema → Prop) (Hany : P SAny) (Hstring : P SString)
  (Harray : ∀ s, P s → P (SArray s))
  (Hrecord : ∀ fields, Forall (λ f, P f.2) fields → P (SRecord fields)).

Fixpoint schema_nested_ind (s : schema) : P s :=
  match s with
  | SAny => Hany
  | SString => Hstring
  | SArray s => Harray s (schema_nested_ind s)
  | SRecord fields => Hrecord fields
      ((fix go fields : Forall (λ f, P f.2) fields :=
          match fields with
          | [] => List.Forall_nil _
          | f :: fields => List.Forall_cons _ f fields (schema_nested_ind f.2) (go fields)
          end) fields)
  end.
End schema_ind.

Lemma first_error_None {A} (f : A → option exn) l : first_error f l = None ↔ Forall (λ x, f x = None) l.
Proof.
  induction l as [|x l IH]; cbn; [by split; [constructor|]|].
  rewrite list.Forall_cons, <- IH. by destruct (f x); naive_solver.
Qed.

(** A value has the type exactly when it does not deviate from it. *)
Lemma typed_deviation s j : typed s j = true ↔ deviation s j = None.
Proof.
  revert j. induction s as [| |s IH|fields IH] using schema_nested_ind; intros j.
  - done.
  - by destruct j.
  - destruct j; try done. cbn [typed deviation]. rewrite first_error_None, forallb_forall, Forall_forall.
    setoid_rewrite <- list_elem_of_In. setoid_rewrite IH. done.
  - assert (∀ ms, typed (SRecord fields) (JObject ms) = true ↔
      deviation (SRecord fields) (JObject ms) = None) as Hobj.
    { intros ms. cbn [typed deviation]. rewrite first_error_None, forallb_forall, Forall_forall.
      setoid_rewrite <- list_elem_of_In. rewrite Forall_forall in IH.
      split; intros H f Hf; specialize (H f Hf); destruct (member f.1 ms); try done;
        (apply (IH f); [by apply list_elem_of_In|done]). }
    destruct j; [|apply Hobj|..]; destruct fields; done.
Qed.

(** ** Conversions that check a schema *)

Definition checks {A} (s : schema) (f : json → outcome A) : Prop :=
  ∀ j, match deviation s j with
       | None => ∃ a, f j = Ret a
       | Some e => f j = Stop (Thrown e)
       end.

Class Typed (A : Type) `{Codec A} := {
  schema_of : schema;
  from_json_checks : checks schema_of (from_json (A := A));
}.
Arguments schema_of A {_ _}.

#[export, refine] Instance string_typed : Typed string := { schema_of := SString }.
Proof. intros []; cbn; eauto. Defined.

#[export, refine] Instance vector_typed `{Typed A} : Typed (list A) := { schema_of := SArray (schema_of A) }.
Proof.
  intros [| |js| | | | |]; try reflexivity. cbn. induction js as [|j js IH]; cbn; [eauto|].
  pose proof (from_json_checks j) as Hj. destruct (deviation (schema_of A) j) as [e|].
  - by rewrite Hj.
  - destruct Hj as [a ->]. cbn. destruct (first_error _ js); [by rewrite IH|].
    destruct IH as [l ->]. cbn. eauto.
Defined.

#[export, refine] Instance kind_typed : Typed StartupOptionKindEnum := { schema_of := SAny }.
Proof. intros j. cbn. unfold enum_from_json. eauto. Defined.

(** Reading a field, and then the rest of the record. *)
Lemma checks_field `{Typed A} {B} key fields (f : A → json → outcome B) :
  (∀ a, checks (SRecord fields) (f a)) →
  checks (SRecord ((key, schema_of A) :: fields)) (λ j, a ← get_field key j; f a j).
Proof.
  intros Hf j. unfold get_field, at_key. cbn [deviation first_error fst snd].
  destruct j as [|ms|js|s|b|z|z|x]; try reflexivity.
  destruct (member key ms) as [v|]; [|reflexivity]. cbn [mbind outcome_bind].
  pose proof (from_json_checks v) as Hv. destruct (deviation (schema_of A) v) as [e|].
  - by rewrite Hv.
  - destruct Hv as [a ->]. cbn [mbind outcome_bind]. exact (Hf a (JObject ms)).
Qed.

Lemma checks_end {B} (b : B) : checks (SRecord []) (λ _, Ret b).
Proof. intros j. cbn. eauto. Qed.

Local Ltac record_checks := repeat first [apply checks_end|apply checks_field; intros ?].

#[export, refine] Instance MachineInstanceMode_typed : Typed MachineInstanceMode :=
  { schema_of := SRecord [("Function_group", schema_of string); ("Mode", schema_of string)] }.
Proof. record_checks. Defined.
#[export, refine] Instance StartupOption_typed : Typed StartupOption :=
  { schema_of := SRecord
      [("Option_kind", schema_of StartupOptionKindEnum); ("Option_name", schema_of string);
       ("Option_arg", schema_of string)] }.
Proof. record_checks. Defined.
#[export, refine] Instance ModeDepStartupConfig_typed : Typed ModeDepStartupConfig :=
  { schema_of := SRecord
      [("Mode_in_machine_instance_refs", schema_of (list MachineInstanceMode));
       ("Startup_options", schema_of (list StartupOption))] }.
Proof. record_checks. Defined.
#[export, refine] Instance Process_typed : Typed Process :=
  { schema_of := SRecord
      [("Process_name", schema_of string);
       ("Mode_dependent_startup_configs", schema_of (list ModeDepStartupConfig))] }.
Proof. record_checks. Defined.
#[export, refine] Instance ApplicationManifestInternal_typed : Typed ApplicationManifestInternal :=
  { schema_of := SRecord
      [("Application_manifest_id", schema_of string); ("Process", schema_of (list Process))] }.
Proof. record_checks. Defined.
#[export, refine] Instance ApplicationManifest_typed : Typed ApplicationManifest :=
  { schema_of := SRecord [("Application_manifest", schema_of ApplicationManifestInternal)] }.
Proof. record_checks. Defined.
#[export, refine] Instance Mode_typed : Typed Mode := { schema_of := SRecord [("Mode", schema_of string)] }.
Proof. record_checks. Defined.
#[export, refine] Instance ModeDeclarationGroup_typed : Typed ModeDeclarationGroup :=
  { schema_of := SRecord
      [("Function_group_name", schema_of string); ("Mode_declarations", schema_of (list Mode))] }.
Proof. record_checks. Defined.
#[export, refine] Instance MachineManifestInternal_typed : Typed MachineManifestInternal :=
  { schema_of := SRecord
      [("Machine_manifest_id", schema_of string);
       ("Mode_declaration_group", schema_of (list ModeDeclarationGroup))] }.
Proof. record_checks. Defined.
#[export, refine] Instance MachineManifest_typed : Typed MachineManifest :=
  { schema_of := SRecord [("Machine_manifest", schema_of MachineManifestInternal)] }.
Proof. record_checks. Defined.

(** ** The schemas of the two manifests *)

Lemma reads_iff_typed `{Typed A} j : (∃ a : A, from_json j = Ret a) ↔ typed (schema_of A) j = true.
Proof.
  rewrite typed_deviation. pose proof (from_json_checks j) as Hj.
  destruct (deviation (schema_of A) j); [|naive_solver]. rewrite Hj. naive_solver.
Qed.

Lemma untyped_throws `{Typed A} j :
  typed (schema_of A) j = false → ∃ e,
    deviation (schema_of A) j = Some e ∧ from_json (A := A) j = Stop (Thrown e).
Proof.
  intros Hj. pose proof (from_json_checks j) as Hf. destruct (deviation (schema_of A) j) eqn:Hd; [by eauto|].
  apply typed_deviation in Hd. congruence.
Qed.

Lemma written_typed `{Lawful A, !Typed A} (a : A) : typed (schema_of A) (to_json a) = true.
Proof. apply reads_iff_typed. exists a. apply from_to_json. Qed.

Definition application_schema : schema :=
  SRecord [("Application_manifest", SRecord
    [("Application_manifest_id", SString);
     ("Process", SArray (SRecord
       [("Process_name", SString);
        ("Mode_dependent_startup_configs", SArray (SRecord
          [("Mode_in_machine_instance_refs", SArray (SRecord
             [("Function_group", SString); ("Mode", SString)]));
           ("Startup_options", SArray (SRecord
             [("Option_kind", SAny); ("Option_name", SString); ("Option_arg", SString)]))]))]))])].

Definition machine_schema : schema :=
  SRecord [("Machine_manifest", SRecord
    [("Machine_manifest_id", SString);
     ("Mode_declaration_group", SArray (SRecord
       [("Function_group_name", SString);
        ("Mode_declarations", SArray (SRecord [("Mode", SString)]))]))])].

(** C15: The manifests are typed: [from_json] reads an application manifest from exactly
    the values of its schema, and a machine manifest from exactly those of its own; from
    any other value it throws the exception of the first deviation in the order of
    reading (304 where a record is expected, 403 for a missing field, 302 where a string
    or an array is expected), and nothing else; and what [to_json] writes always has the
    type. The kind of a start-up option has no type: any value is read. *)
Theorem manifests_typed (j : json) :
  ((∃ a : ApplicationManifest, from_json j = Ret a) ↔ typed application_schema j = true) ∧
  ((∃ m : MachineManifest, from_json j = Ret m) ↔ typed machine_schema j = true) ∧
  (typed application_schema j = false → ∃ e,
     deviation application_schema j = Some e ∧
     from_json (A := ApplicationManifest) j = Stop (Thrown e)) ∧
  (typed machine_schema j = false → ∃ e,
     deviation machine_schema j = Some e ∧ from_json (A := MachineManifest) j = Stop (Thrown e)) ∧
  (∀ a : ApplicationManifest, typed application_schema (to_json a) = true) ∧
  (∀ m : MachineManifest, typed machine_schema (to_json m) = true).
Proof.
  change application_schema with (schema_of ApplicationManifest).
  change machine_schema with (schema_of MachineManifest).
  split_and!; [apply reads_iff_typed|apply reads_iff_typed|apply untyped_throws
    |apply untyped_throws|apply written_typed|apply written_typed].
Qed.

(** A misspelt field, and a string where a list is expected. *)
Example deviations :
  deviation machine_schema (object_of [("Machine_manifest", object_of
    [("Machine_manifest_id", JString "m"); ("Mode_declarations_group", JArray [])])])
    = Some (JsonOutOfRange 403) ∧
  deviation machine_schema (object_of [("Machine_manifest", object_of
    [("Machine_manifest_id", JString "m"); ("Mode_declaration_group", JString "Running")])])
    = Some (JsonTypeError 302) ∧
  deviation machine_schema (JArray []) = Some (JsonTypeError 304).
Proof. repeat split; reflexivity. Qed.
