(* ===== verification/ManifestReader.v ===== *)
(** * The manifest reader

    [common/other/include/manifest_reader.hpp] and [src/manifest_reader.cpp]: which
    processes are allowed in which machine state, read from the manifests of the
    installed applications, and the declared machine states. The directory, the
    files and the JSON text are what the operating system and [json.hpp] give. *)

From stdpp Require Import base list gmap strings.
From S2P Require Import Prelude CppString Constants Common Json Manifests.
From S2P Require Import ExecutionManager ExecutionManagerSpec.

Record ManifestReaderConf := mk_conf {
  pathToApplicationsFolder : string;
  machineManifestFilePath : string;
}.

Definition default_conf : ManifestReaderConf :=
  mk_conf "./bin/applications" "../applications/ExecutionManager/machine_manifest.json".

Definition machineStateFunctionGroup : string := "MachineState".
Definition manifestFile : string := "/manifest.json".

(** The names of the entries of a directory, or the reason it cannot be opened. *)
Definition directories : Type := string → string + list string.

(** ** The contribution of a manifest *)

Notation states_map := (gmap string (gset string)).

(** [res[state].insert(name)]. *)
Definition insert_process (name : string) (res : states_map) (state : string) : states_map :=
  <[state := {[name]} ∪ default ∅ (res !! state)]> res.

(** The modes of a process in the order of the three nested loops. *)
Definition process_modes (p : Process) : list MachineInstanceMode :=
  modeDependentStartupConf p ≫= modes.

Definition add_process (manifestId : string) (res : states_map) (p : Process) : states_map :=
  foldl (λ res m,
    if decide (functionGroup m = machineStateFunctionGroup)
    then insert_process (getServiceName manifestId (process_name p)) res (mode m)
    else res) res (process_modes p).

Definition add_manifest (res : states_map) (m : ApplicationManifest) : states_map :=
  foldl (add_process (app_manifestId (app_manifest m))) res (processes (app_manifest m)).

(** The states of the first group with the expected name. *)
Definition machine_states (m : MachineManifest) : list string :=
  match list_find (λ g, functionGroupName g = machineStateFunctionGroup)
          (modeDeclarationGroups (machine_manifest m)) with
  | Some (_, g) => mode_mode <$> modeDeclarations g
  | None => []
  end.

(** ** The reader *)

Section reader.
Context `{Text} (conf : ManifestReaderConf) (dirs : directories) (fs : file_system).

(** A file that cannot be opened reads as the empty text. *)
Definition getJsonData (manifestPath : string) : outcome json :=
  parse (default "" (fs manifestPath)).

Definition getListOfApplications : outcome (gset string) :=
  match dirs (pathToApplicationsFolder conf) with
  | inl error =>
      Stop (Thrown (RuntimeError ("Error opening directory: " +:+ pathToApplicationsFolder conf
                                  +:+ " " +:+ error)))
  | inr names => Ret (list_to_set (filter (λ n, n ≠ "." ∧ n ≠ "..") names))
  end.

Definition readManifest (file : string) : outcome ApplicationManifest :=
  content ← getJsonData (pathToApplicationsFolder conf +:+ "/" +:+ file +:+ manifestFile);
  from_json content.

Fixpoint readManifests (res : states_map) (files : list string) : outcome states_map :=
  match files with
  | [] => Ret res
  | file :: files => m ← readManifest file; readManifests (add_manifest res m) files
  end.

Definition reader_getStatesSupportedByApplication : outcome states_map :=
  applicationNames ← getListOfApplications;
  readManifests ∅ (in_order applicationNames).

Definition reader_getMachineStates : outcome (list string) :=
  manifestData ← getJsonData (machineManifestFilePath conf);
  manifest ← from_json manifestData;
  Ret (machine_states manifest).

(** The interface the Execution Manager is built on. *)
Definition ManifestReader : IManifestReader := {|
  getStatesSupportedByApplication := reader_getStatesSupportedByApplication;
  getMachineStates := reader_getMachineStates;
|}.
End reader.

(** ** What a manifest contributes *)

(** The manifest says that the process [name] may run in [state]. *)
Definition declares (m : ApplicationManifest) (state name : string) : Prop :=
  ∃ p mo, p ∈ processes (app_manifest m) ∧ mo ∈ process_modes p ∧
    functionGroup mo = machineStateFunctionGroup ∧ mode mo = state ∧
    name = getServiceName (app_manifestId (app_manifest m)) (process_name p).

(** The processes of a state; a state without an entry has none. *)
Definition processes_of (res : states_map) (state : string) : gset string :=
  default ∅ (res !! state).

Lemma processes_of_insert name res s s' x :
  x ∈ processes_of (insert_process name res s) s' ↔ x ∈ processes_of res s' ∨ (x = name ∧ s' = s).
Proof.
  unfold processes_of, insert_process. destruct (decide (s = s')) as [->|Hne].
  - rewrite lookup_insert_eq. cbn. set_solver.
  - rewrite lookup_insert_ne by done. naive_solver.
Qed.

Lemma processes_of_add_process id res p s x :
  x ∈ processes_of (add_process id res p) s ↔
    x ∈ processes_of res s ∨
    ∃ mo, mo ∈ process_modes p ∧ functionGroup mo = machineStateFunctionGroup ∧ mode mo = s ∧
      x = getServiceName id (process_name p).
Proof.
  unfold add_process. revert res. induction (process_modes p) as [|mo l IH]; intros res; cbn [foldl].
  { split; [by left|]. intros [?|(? & Hin & _)]; [done|by apply elem_of_nil in Hin]. }
  rewrite IH. setoid_rewrite elem_of_cons. case_decide as Hg.
  - rewrite processes_of_insert. naive_solver.
  - naive_solver.
Qed.

Lemma processes_of_add_manifest res m s x :
  x ∈ processes_of (add_manifest res m) s ↔ x ∈ processes_of res s ∨ declares m s x.
Proof.
  unfold add_manifest, declares. revert res.
  induction (processes (app_manifest m)) as [|p l IH]; intros res; cbn [foldl].
  { split; [by left|]. intros [?|(? & ? & Hin & _)]; [done|by apply elem_of_nil in Hin]. }
  rewrite IH, processes_of_add_process. setoid_rewrite elem_of_cons. naive_solver.
Qed.

(** ** Properties *)

Section properties.
Context `{Text} (conf : ManifestReaderConf) (dirs : directories) (fs : file_system).

Lemma readManifests_spec files res0 res :
  readManifests conf fs res0 files = Ret res →
  ∀ s x, x ∈ processes_of res s ↔
    x ∈ processes_of res0 s ∨
    ∃ file m, file ∈ files ∧ readManifest conf fs file = Ret m ∧ declares m s x.
Proof.
  revert res0. induction files as [|file files IH]; cbn [readManifests]; intros res0 Hr s x.
  { injection Hr as <-. split; [by left|].
    intros [?|(? & ? & Hin & _)]; [done|by apply elem_of_nil in Hin]. }
  destruct (readManifest conf fs file) as [m|w] eqn:Hm; [|done]. cbn in Hr.
  rewrite (IH _ Hr), processes_of_add_manifest. split.
  - intros [[Hx|Hx]|(f & m' & Hf & Hm' & Hx)]; [by left| |].
    + right. exists file, m. split; [by left|done].
    + right. exists f, m'. split; [by right|done].
  - intros [Hx|(f & m' & [->|Hf]%elem_of_cons & Hm' & Hx)]; [by left; left| |].
    + left; right. rewrite Hm in Hm'. by injection Hm' as <-.
    + right. by exists f, m'.
Qed.

Lemma readManifests_errors files res0 w :
  readManifests conf fs res0 files = Stop w ↔
  ∃ before file after, files = before ++ file :: after ∧ readManifest conf fs file = Stop w ∧
    ∀ f, f ∈ before → ∃ m, readManifest conf fs f = Ret m.
Proof.
  revert res0. induction files as [|file files IH]; cbn [readManifests]; intros res0.
  { split; [done|]. by intros ([] & ? & ? & ? & _). }
  destruct (readManifest conf fs file) as [m|w'] eqn:Hm; cbn.
  - rewrite IH. split.
    + intros (before & f & after & -> & Hf & Hb). exists (file :: before), f, after.
      split; [done|]. split; [done|]. intros g [->|Hg]%elem_of_cons; [by exists m|by apply Hb].
    + intros ([|g before] & f & after & Heq & Hf & Hb); simplify_eq/=; [congruence|].
      exists before, f, after. split; [done|]. split; [done|].
      intros g' Hg'. apply Hb. by right.
  - split.
    + intros [= ->]. exists [], file, files. split; [done|]. split; [done|].
      intros f Hf. by apply elem_of_nil in Hf.
    + intros ([|g before] & f & after & Heq & Hf & Hb); simplify_eq/=; [congruence|].
      destruct (Hb g) as [m Hg]; [by left|]. congruence.
Qed.

(** The map the reader returns holds, for every machine state, exactly the
    processes that the manifest of some installed application declares for it, under
    their service names. *)
Theorem reader_states_exact (res : states_map) (s x : string) :
  reader_getStatesSupportedByApplication conf dirs fs = Ret res →
  x ∈ processes_of res s ↔
  ∃ names file m, dirs (pathToApplicationsFolder conf) = inr names ∧
    file ∈ names ∧ file ≠ "." ∧ file ≠ ".." ∧
    readManifest conf fs file = Ret m ∧ declares m s x.
Proof.
  unfold reader_getStatesSupportedByApplication, getListOfApplications.
  destruct (dirs _) as [e|names]; [done|]. cbn [mbind outcome_bind]. intros Hr.
  rewrite (readManifests_spec _ _ _ Hr). setoid_rewrite elem_of_in_order.
  setoid_rewrite elem_of_list_to_set. setoid_rewrite list_elem_of_filter.
  unfold processes_of at 1. rewrite lookup_empty. cbn. split.
  - intros [Hx|(file & m & ((? & ?) & ?) & ? & ?)]; [by apply elem_of_empty in Hx|].
    by exists names, file, m.
  - intros (names' & file & m & [= <-] & ? & ? & ? & ? & ?). right. by exists file, m.
Qed.

(** Reading fails exactly when the directory cannot be opened, with a
    [runtime_error], or when some manifest cannot be read, with the error of the
    first such manifest in the order of the application names: one bad manifest
    prevents the whole system from starting. *)
Theorem reader_states_errors (w : stop) :
  reader_getStatesSupportedByApplication conf dirs fs = Stop w ↔
  (∃ error, dirs (pathToApplicationsFolder conf) = inl error ∧
     w = Thrown (RuntimeError ("Error opening directory: " +:+ pathToApplicationsFolder conf
                               +:+ " " +:+ error))) ∨
  (∃ names before file after, dirs (pathToApplicationsFolder conf) = inr names ∧
     in_order (list_to_set (filter (λ n, n ≠ "." ∧ n ≠ "..") names)) = before ++ file :: after ∧
     readManifest conf fs file = Stop w ∧
     ∀ f, f ∈ before → ∃ m, readManifest conf fs f = Ret m).
Proof.
  unfold reader_getStatesSupportedByApplication, getListOfApplications.
  destruct (dirs _) as [e|names]; cbn [mbind outcome_bind].
  - split; [intros [= <-]; left; eauto|].
    intros [(e' & [= <-] & ->)|(? & ? & ? & ? & ? & _)]; done.
  - rewrite readManifests_errors. split.
    + intros (before & file & after & ?). right. by exists names, before, file, after.
    + intros [(? & ? & _)|(? & before & file & after & [= <-] & ?)]; [done|].
      by exists before, file, after.
Qed.

(** The Execution Manager built from the manifests allows in a declared machine
    state exactly the processes that an installed application's manifest declares for
    it, and none in a state that the machine manifest does not declare. *)
Theorem manager_from_manifests (e : ExecutionManager.t) (s x : string) :
  construct (ManifestReader conf dirs fs) = Ret e →
  (∃ content m, getJsonData fs (machineManifestFilePath conf) = Ret content ∧
     from_json content = Ret m ∧ m_machineManifestStates e = machine_states m) ∧
  (x ∈ allowed_for e s ↔
     s ∈ m_machineManifestStates e ∧
     ∃ res, reader_getStatesSupportedByApplication conf dirs fs = Ret res ∧
       x ∈ processes_of res s).
Proof.
  unfold construct. cbn [getStatesSupportedByApplication getMachineStates ManifestReader].
  destruct (reader_getStatesSupportedByApplication conf dirs fs) as [res|] eqn:Hres; [|done].
  unfold reader_getMachineStates. cbn [mbind outcome_bind].
  destruct (getJsonData fs _) as [content|] eqn:Hc; [|done]. cbn [mbind outcome_bind].
  destruct (from_json content) as [m|] eqn:Hm; [|done]. cbn [mbind outcome_bind].
  intros [= <-]. split; [by exists content, m|].
  cbn [m_machineManifestStates]. unfold allowed_for. cbn [m_allowedProcessesForState].
  rewrite filterStates_lookup. case_decide as Hs.
  - split; [intros Hx; split; [done|by exists res]|].
    by intros [_ (? & [= <-] & Hx)].
  - split; [intros Hx; by apply elem_of_empty in Hx|]. by intros [? _].
Qed.

(** When the machine manifest has no group named "MachineState", the Execution
    Manager is built without an error and then refuses every transition, the start-up
    included. *)
Theorem no_state_group_refuses_all (e : ExecutionManager.t) (content : json)
    (m : MachineManifest) alive others (s : string) :
  construct (ManifestReader conf dirs fs) = Ret e →
  getJsonData fs (machineManifestFilePath conf) = Ret content → from_json content = Ret m →
  (∀ g, g ∈ modeDeclarationGroups (machine_manifest m) →
     functionGroupName g ≠ machineStateFunctionGroup) →
  run_outcome (setMachineState alive others s e) = Ret StateError.K_INVALID_STATE.
Proof.
  unfold construct. cbn [getStatesSupportedByApplication getMachineStates ManifestReader].
  destruct (reader_getStatesSupportedByApplication conf dirs fs) as [res|] eqn:Hres; [|done].
  unfold reader_getMachineStates. cbn [mbind outcome_bind]. intros He Hc Hm Hg.
  rewrite Hc in He. cbn [mbind outcome_bind] in He. rewrite Hm in He. cbn [mbind outcome_bind] in He.
  injection He as <-. rewrite setMachineState_refused_run; [done|].
  apply bool_decide_eq_true. left. cbn. unfold machine_states.
  rewrite (proj2 (list_find_None _ _)); [apply not_elem_of_nil|].
  apply Forall_forall. exact Hg.
Qed.
End properties.

(** ** An installation *)

(** The text of a value is the value's number in a table: enough of an interface to
    run the reader without the parser. *)
Definition demo_manifest : ApplicationManifest :=
  mk_ApplicationManifest (mk_ApplicationManifestInternal "msm"
    [mk_Process "msm" [mk_ModeDepStartupConfig
      [mk_MachineInstanceMode "MachineState" "Starting-up";
       mk_MachineInstanceMode "AudioState" "Muted";
       mk_MachineInstanceMode "MachineState" "Running"] []]]).

Definition demo_machine : MachineManifest :=
  mk_MachineManifest (mk_MachineManifestInternal "hu"
    [mk_ModeDeclarationGroup "MachineState" [mk_Mode "Starting-up"; mk_Mode "Living"]]).

Definition demo_text : Text := {|
  dump j := ("", Ret tt);
  parse s :=
    if decide (s = "machine") then Ret (to_json demo_machine)
    else if decide (s = "msm") then Ret (to_json demo_manifest)
    else if decide (s = "no group") then
      Ret (to_json (mk_MachineManifest (mk_MachineManifestInternal "hu" [])))
    else Stop (Thrown (JsonParseError 101));
  accepts s := true;
|}.

Definition demo_dirs : directories := λ d,
  if decide (d = "./bin/applications") then inr ["."; "msm"; ".."] else inl "No such file".

Definition demo_files (machine : string) : file_system := λ f,
  if decide (f = "./bin/applications/msm/manifest.json") then Some "msm"
  else if decide (f = "../applications/ExecutionManager/machine_manifest.json") then Some machine
  else None.

Definition demo_res : states_map :=
  match reader_getStatesSupportedByApplication (H := demo_text) default_conf demo_dirs
          (demo_files "machine") with
  | Ret res => res
  | Stop _ => ∅
  end.

Lemma reader_states_exact_witness :
  "msm_msm" ∈ processes_of demo_res "Running" ↔
  ∃ names file m, demo_dirs "./bin/applications" = inr names ∧
    file ∈ names ∧ file ≠ "." ∧ file ≠ ".." ∧
    readManifest (H := demo_text) default_conf (demo_files "machine") file = Ret m ∧
    declares m "Running" "msm_msm".
Proof.
  apply (reader_states_exact (H := demo_text) default_conf demo_dirs (demo_files "machine")).
  vm_compute. reflexivity.
Defined.

Definition demo_manager (machine : string) : ExecutionManager.t :=
  match construct (ManifestReader (H := demo_text) default_conf demo_dirs (demo_files machine)) with
  | Ret e => e
  | Stop _ => mk ∅ false false ∅ "" "" "" [] ∅ ∅ ∅ []
  end.

Lemma manager_from_manifests_witness :
  "msm_msm" ∈ allowed_for (demo_manager "machine") "Starting-up" ↔
     "Starting-up" ∈ m_machineManifestStates (demo_manager "machine") ∧
     ∃ res, reader_getStatesSupportedByApplication (H := demo_text) default_conf demo_dirs
              (demo_files "machine") = Ret res ∧
       "msm_msm" ∈ processes_of res "Starting-up".
Proof.
  refine (proj2 (manager_from_manifests (H := demo_text) default_conf demo_dirs
                   (demo_files "machine") _ _ _ _)).
  vm_compute. reflexivity.
Defined.

Lemma no_state_group_refuses_all_witness :
  run_outcome (setMachineState (λ _ _, true) [] "Starting-up" (demo_manager "no group"))
    = Ret StateError.K_INVALID_STATE.
Proof.
  apply (no_state_group_refuses_all (H := demo_text) default_conf demo_dirs (demo_files "no group")
           _ (to_json (mk_MachineManifest (mk_MachineManifestInternal "hu" [])))
           (mk_MachineManifest (mk_MachineManifestInternal "hu" []))).
  - vm_compute. reflexivity.
  - vm_compute. reflexivity.
  - vm_compute. reflexivity.
  - intros g Hg. by apply elem_of_nil in Hg.
Defined.

Example demo_startup_allowed :
  in_order (allowed_for (demo_manager "machine") "Starting-up") = ["msm_msm"] ∧
  in_order (allowed_for (demo_manager "machine") "Running") = [].
Proof. vm_compute. done. Qed.
