(* ===== verification/Kvs.v ===== *)
(** * Persistent key-value storage

    [per/src/kvstype.cpp] and [per/src/keyvaluestorage.cpp]: values that may be
    missing, and a store kept as a JSON object and written to a file on request. *)

From Stdlib Require Import Ascii.
From stdpp Require Import base list gmap strings.
From S2P Require Import Prelude CppString Json JsonParser JsonRoundTrip.

(** ** [per::KvsType] *)

Module KvsType.
Inductive Status := kSuccess | kSuccessDefaultValue | kNotFound | kCheckSumError | kGeneralError.
#[global] Instance Status_eq_dec : EqDecision Status.
Proof. solve_decision. Defined.

(** [KvsType::Type]. *)
Inductive kind := KNotSupported | kString | kNotSet.
#[global] Instance kind_eq_dec : EqDecision kind.
Proof. solve_decision. Defined.

Record t := mk { m_status : Status; m_type : kind; m_value : string }.

Definition of_string (value : string) : t := mk kSuccess kString value.
Definition unset : t := mk kNotFound kNotSet "".

Definition GetType (v : t) : kind := m_type v.
Definition GetString (v : t) : outcome string :=
  if decide (m_status v = kSuccess) then Ret (m_value v)
  else Stop (Thrown (RuntimeError "No value in Kvs pair")).
End KvsType.

(** The overloads of [to_json] and [from_json]; the first one may throw. *)
Definition kvs_to_json (v : KvsType.t) : outcome json :=
  s ← KvsType.GetString v; Ret (object_of [("value", to_json s)]).

Definition kvs_from_json (j : json) : outcome KvsType.t :=
  result ← get_field "value" j; Ret (KvsType.of_string result).

(** ** [per::KeyValueStorage] *)

Record KeyValueStorage := mk_kvs { dbLocation : string; m_data : json }.

(** The files of the disk, and whether a file can be opened for writing. *)
Notation disk := (gmap string string).

(** [m_data[key]] as a reference: a missing key is added with the value null. *)
Definition subscript_ref (key : string) (j : json) : outcome json :=
  match j with
  | JNull => Ret (JObject [(key, JNull)])
  | JObject ms => Ret (JObject (emplace key JNull ms))
  | _ => Stop (Thrown (JsonTypeError 305))
  end.

Section storage.
Context `{Text} (writable : string → bool).

Definition construct_kvs (files : disk) (db : string) : outcome KeyValueStorage :=
  match files !! db with
  | Some text =>
      if accepts text then data ← parse text; Ret (mk_kvs db data)
      else Ret (mk_kvs db JNull)
  | None => Ret (mk_kvs db JNull)
  end.

Definition HasKey (key : string) (s : KeyValueStorage) : bool := has_key key (m_data s).

Definition GetValue (key : string) (s : KeyValueStorage) : outcome KvsType.t :=
  noexcept
    (if HasKey key s then v ← subscript key (m_data s); kvs_from_json v
     else Ret KvsType.unset).

(** [m_data[key] = value]: the language (C++14) leaves open whether the left side or
    the conversion of the right side comes first. *)
Definition SetValue (right_first : bool) (key : string) (value : KvsType.t)
    (s : KeyValueStorage) : KeyValueStorage * outcome unit :=
  let store := λ data, mk_kvs (dbLocation s) data in
  if right_first then
    match kvs_to_json value with
    | Ret v =>
        match subscript_assign key v (m_data s) with
        | Ret data => (store data, Ret tt)
        | Stop w => (s, Stop w)
        end
    | Stop w => (s, Stop w)
    end
  else
    match subscript_ref key (m_data s) with
    | Ret data =>
        match kvs_to_json value with
        | Ret v =>
            match subscript_assign key v data with
            | Ret data' => (store data', Ret tt)
            | Stop w => (store data, Stop w)
            end
        | Stop w => (store data, Stop w)
        end
    | Stop w => (s, Stop w)
    end.

Definition RemoveAllKeys (s : KeyValueStorage) : KeyValueStorage :=
  mk_kvs (dbLocation s) (json_clear (m_data s)).

(** The file is emptied when it is opened; a file that cannot be opened is not
    noticed. *)
Definition SyncToStorage (files : disk) (s : KeyValueStorage) : disk * outcome unit :=
  let '(text, o) := dump (m_data s) in
  ((if writable (dbLocation s) then <[dbLocation s := text]> files else files), o).
End storage.

(** ** The store is a map from keys to strings *)

Definition kvs_value (v : string) : json := JObject [("value", JString v)].

(** [data] holds the entries of [m]. *)
Definition represents (data : json) (m : gmap string string) : Prop :=
  (data = JNull ∧ m = ∅) ∨
  (∃ ms, data = JObject ms ∧ members_ok ms ∧ ∀ k, member k ms = kvs_value <$> m !! k).

Lemma represents_set rf key v s m :
  represents (m_data s) m →
  ∃ data, SetValue rf key (KvsType.of_string v) s = (mk_kvs (dbLocation s) data, Ret tt) ∧
    represents data (<[key := v]> m).
Proof.
  intros Hr. unfold SetValue. change (kvs_to_json (KvsType.of_string v)) with (Ret (kvs_value v)).
  assert (∀ ms, members_ok ms → (∀ k, k ≠ key → member k ms = kvs_value <$> m !! k) →
    represents (JObject (assign key (kvs_value v) ms)) (<[key:=v]> m)) as Hset.
  { intros ms Hok Hms. right. eexists. split; [done|]. split; [by apply assign_ok|].
    intros k. rewrite member_assign. case_decide as Hk.
    - subst. by rewrite lookup_insert_eq.
    - rewrite lookup_insert_ne by done. by apply Hms. }
  destruct Hr as [[-> ->]|(ms & -> & Hok & Hms)]; destruct rf; cbn.
  - eexists. split; [done|]. apply (Hset []); [constructor|]. intros k _. by rewrite lookup_empty.
  - rewrite decide_True by done. eexists. split; [done|].
    apply (Hset []); [constructor|]. intros k _. by rewrite lookup_empty.
  - eexists. split; [done|]. apply Hset; auto.
  - eexists. split; [done|]. apply Hset; [by apply emplace_ok|].
    intros k Hk. rewrite member_emplace, decide_False by done. apply Hms.
Qed.

Lemma represents_clear data m : represents data m → represents (json_clear data) ∅.
Proof.
  intros [[-> _]|(ms & -> & _ & _)]; [by left|]. right. eexists. split; [done|].
  split; [constructor|]. intros k. by rewrite lookup_empty.
Qed.

Lemma represents_get db data m key :
  represents data m →
  HasKey key (mk_kvs db data) = bool_decide (is_Some (m !! key)) ∧
  GetValue key (mk_kvs db data) =
    Ret (match m !! key with Some v => KvsType.of_string v | None => KvsType.unset end).
Proof.
  unfold GetValue, HasKey. cbn [m_data]. intros [[-> ->]|(ms & -> & _ & Hms)]; cbn.
  - by rewrite lookup_empty.
  - rewrite Hms. by destruct (m !! key) as [v|].
Qed.

Lemma represents_storable data m : represents data m → storable data.
Proof.
  intros [[-> _]|(ms & -> & Hok & Hms)]; [done|]. split; [done|].
  assert (Forall (λ x : string * json, storable x.2) ms) as Hall.
  { apply Forall_forall. intros [k v] Hin. apply member_elem_of in Hin; [|done].
    rewrite Hms in Hin. destruct (m !! k) as [s|]; [|done]. injection Hin as <-.
    cbn. repeat split. repeat constructor. }
  clear Hok Hms. induction Hall; cbn; auto.
Qed.

Lemma represents_textual data m : represents data m → textual data.
Proof.
  intros [[-> _]|(ms & -> & Hok & Hms)]; [done|].
  assert (Forall (λ x : string * json, textual x.2) ms) as Hall.
  { apply Forall_forall. intros [k v] Hin. apply member_elem_of in Hin; [|done].
    rewrite Hms in Hin. destruct (m !! k) as [s|]; [|done]. by injection Hin as <-. }
  clear Hok Hms. induction Hall; cbn; auto.
Qed.

Section sync.
Context `{TextLaws} (writable : string → bool).

Lemma sync_restart files db data m :
  represents data m → writable db = true →
  (SyncToStorage writable files (mk_kvs db data)).2 = Ret tt →
  construct_kvs (SyncToStorage writable files (mk_kvs db data)).1 db = Ret (mk_kvs db data).
Proof.
  intros Hr Hw Hs. unfold SyncToStorage in *. cbn in *. rewrite Hw in *.
  destruct (dump data) as [text o] eqn:Hd. cbn in *. subst o.
  destruct (read_back data text) as [Ha Hp]; [by eapply represents_storable|done|].
  unfold construct_kvs. by rewrite lookup_insert_eq, Ha, Hp.
Qed.

Lemma sync_outcome files db data m :
  represents data m →
  (SyncToStorage writable files (mk_kvs db data)).2 = Ret tt ∨
  ∃ e, (SyncToStorage writable files (mk_kvs db data)).2 = Stop (Thrown e).
Proof.
  intros Hr. unfold SyncToStorage. cbn. destruct (dump data) as [text [[]|w]] eqn:Hd; cbn; [by left|].
  right. destruct (text_throws data text w) as [e ->]; [by eapply represents_textual|done|]. eauto.
Qed.
End sync.

(** A client's history: values are set and all keys removed. *)
Inductive kvs_op := OSet (right_first : bool) (key value : string) | ORemoveAll.

Definition kvs_step (s : KeyValueStorage) (op : kvs_op) : KeyValueStorage :=
  match op with
  | OSet rf k v => (SetValue rf k (KvsType.of_string v) s).1
  | ORemoveAll => RemoveAllKeys s
  end.

Definition map_step (m : gmap string string) (op : kvs_op) : gmap string string :=
  match op with OSet _ k v => <[k := v]> m | ORemoveAll => ∅ end.

Definition kvs_run (ops : list kvs_op) (s : KeyValueStorage) := foldl kvs_step s ops.
Definition map_run (ops : list kvs_op) (m : gmap string string) := foldl map_step m ops.

Lemma kvs_run_represents ops s m :
  represents (m_data s) m →
  dbLocation (kvs_run ops s) = dbLocation s ∧
  represents (m_data (kvs_run ops s)) (map_run ops m).
Proof.
  revert s m. induction ops as [|op ops IH]; intros s m Hr; cbn; [done|].
  destruct op as [rf k v|]; cbn.
  - destruct (represents_set rf k v s m Hr) as (data & -> & Hd). by apply (IH (mk_kvs _ data)).
  - apply (IH (RemoveAllKeys s)). cbn. by eapply represents_clear.
Qed.

(** A store that starts without a file behaves as a finite map: after any history
    of [SetValue] and [RemoveAllKeys], in either order of evaluation, [HasKey] and
    [GetValue] answer with the entries of the map, and never end the program. *)
Theorem kvs_implements_map (db : string) (ops : list kvs_op) (key : string) :
  let s := kvs_run ops (mk_kvs db JNull) in
  let m := map_run ops ∅ in
  HasKey key s = bool_decide (is_Some (m !! key)) ∧
  GetValue key s =
    Ret (match m !! key with Some v => KvsType.of_string v | None => KvsType.unset end).
Proof.
  cbv zeta. destruct (kvs_run_represents ops (mk_kvs db JNull) ∅) as [_ Hr]; [by left|].
  destruct (kvs_run ops (mk_kvs db JNull)) as [db' data]. by apply represents_get.
Qed.

(** C13: What has been synchronised survives a restart: when [SyncToStorage] returns
    and the file could be opened, a store constructed from the file is the same store. *)
Theorem kvs_survives_restart `{TextLaws} (writable : string → bool) (files files' : disk)
    (db : string) (ops : list kvs_op) :
  let s := kvs_run ops (mk_kvs db JNull) in
  writable db = true →
  SyncToStorage writable files s = (files', Ret tt) →
  construct_kvs files' db = Ret s.
Proof.
  cbv zeta. intros Hw Hs.
  destruct (kvs_run_represents ops (mk_kvs db JNull) ∅) as [Hdb Hr]; [by left|].
  destruct (kvs_run ops (mk_kvs db JNull)) as [db' data]. cbn in Hdb, Hr. subst db'.
  pose proof (sync_restart writable files db data _ Hr Hw) as Hc. rewrite Hs in Hc. by apply Hc.
Qed.

(** C33: A failed synchronisation loses everything that was stored: when [SyncToStorage]
    throws (a key or value that is not UTF-8), the file has already been emptied and
    holds the beginning of the text, which is not accepted at the next start; the store
    constructed from it is empty. *)
Theorem failed_sync_loses_all `{TextLaws} (writable : string → bool) (files files' : disk)
    (db : string) (ops : list kvs_op) (e : exn) :
  let s := kvs_run ops (mk_kvs db JNull) in
  writable db = true →
  SyncToStorage writable files s = (files', Stop (Thrown e)) →
  construct_kvs files' db = Ret (mk_kvs db JNull) ∧
  ∀ key, HasKey key (mk_kvs db JNull) = false.
Proof.
  cbv zeta. intros Hw Hs.
  destruct (kvs_run_represents ops (mk_kvs db JNull) ∅) as [Hdb Hr]; [by left|].
  destruct (kvs_run ops (mk_kvs db JNull)) as [db' data]. cbn in Hdb, Hr. subst db'.
  unfold SyncToStorage in Hs. cbn in Hs. destruct (dump data) as [text o] eqn:Hd.
  rewrite Hw in Hs. injection Hs as <- ->.
  pose proof (cut_off data text e ltac:(by eapply represents_storable) Hd) as Ha.
  unfold construct_kvs. by rewrite lookup_insert_eq, Ha.
Qed.

(** [GetValue] ends the program exactly on an entry that is not an object with a
    string member "value": the conversion throws inside a [noexcept] function. *)
Theorem GetValue_terminates (key : string) (s : KeyValueStorage) :
  GetValue key s = Stop Terminated ↔
  ∃ ms v, m_data s = JObject ms ∧ member key ms = Some v ∧
    ¬ ∃ vs str, v = JObject vs ∧ member "value" vs = Some (JString str).
Proof.
  unfold GetValue, HasKey. destruct (m_data s) as [|ms| | | | | |] eqn:Hd; cbn;
    try (split; [done|]; by intros (? & ? & ? & _)).
  destruct (member key ms) as [v|] eqn:Hm; cbn.
  - unfold kvs_from_json, get_field. destruct v as [|vs| | | | | |]; cbn;
      try (split; [intros _; eexists _, _; split; [done|]; split; [exact Hm|];
                   by intros (? & ? & ? & _)|done]).
    destruct (member "value" vs) as [w|] eqn:Hv; cbn.
    + destruct w; cbn;
        try (split; [intros _; eexists _, _; split; [done|]; split; [exact Hm|];
                     intros (? & ? & [= <-] & ?); congruence|done]).
      split; [done|]. intros (? & ? & [= <-] & Hm' & Hn). exfalso. apply Hn.
      rewrite Hm in Hm'. injection Hm' as <-. eauto.
    + split; [intros _; eexists _, _; split; [done|]; split; [exact Hm|];
              intros (? & ? & [= <-] & ?); congruence|done].
  - split; [done|]. intros (? & ? & [= <-] & ? & _). congruence.
Qed.

(** Setting a value that is not set throws. Whether the store is unchanged
    depends on the order of evaluation, which C++14 leaves open: when the left side
    comes first, the key is left with a null value, [HasKey] finds it, and the next
    [GetValue] ends the program. *)
Theorem SetValue_unset (key : string) (s : KeyValueStorage) (m : gmap string string) :
  represents (m_data s) m → m !! key = None →
  SetValue true key KvsType.unset s
    = (s, Stop (Thrown (RuntimeError "No value in Kvs pair"))) ∧
  ∃ s', SetValue false key KvsType.unset s
          = (s', Stop (Thrown (RuntimeError "No value in Kvs pair"))) ∧
    HasKey key s' = true ∧ GetValue key s' = Stop Terminated.
Proof.
  intros Hr Hm. split; [done|]. unfold SetValue, HasKey, GetValue. cbn [m_data kvs_to_json].
  destruct Hr as [[-> _]|(ms & -> & Hok & Hms)]; cbn.
  - eexists. split; [done|]. cbn. by rewrite decide_True by done.
  - eexists. split; [done|]. unfold HasKey. cbn.
    by rewrite member_emplace, decide_True, Hms, Hm by done.
Qed.

(** ** Examples

    With the text of the library; no doubles are stored, so the functions on doubles are
    not called. *)

Definition demo_text : Text := nlohmann_text (λ _, 0%Z) "."%char (λ _, true) (λ _, "").

Definition demo_ops : list kvs_op :=
  [OSet true "m" "a"; OSet false "m" "b"].

(** A store of one value that is not UTF-8. *)
Definition broken_ops : list kvs_op := [OSet true "m" (String (ascii_of_nat 255) "")].

#[local] Existing Instance demo_text.
#[local] Instance demo_text_laws : TextLaws (H := demo_text) := nlohmann_text_laws _ _ _ _.

Definition demo_store := kvs_run demo_ops (mk_kvs "db.json" JNull).
Definition broken_store := kvs_run broken_ops (mk_kvs "db.json" JNull).

Lemma demo_dump : dump (m_data demo_store) = (quoted "{'m':{'value':'b'}}", Ret tt).
Proof. vm_compute. reflexivity. Qed.

(** The last value is still in the buffer when the exception is thrown. *)
Lemma broken_dump :
  dump (m_data broken_store) = (quoted "{'m':{'value':'", Stop (Thrown (JsonTypeError 316))).
Proof. vm_compute. reflexivity. Qed.

Lemma kvs_survives_restart_witness :
  SyncToStorage (λ _, true) ∅ demo_store = (<["db.json" := quoted "{'m':{'value':'b'}}"]> ∅, Ret tt) ∧
  construct_kvs (<["db.json" := quoted "{'m':{'value':'b'}}"]> ∅) "db.json" = Ret demo_store.
Proof.
  assert (SyncToStorage (λ _, true) ∅ demo_store
    = (<["db.json" := quoted "{'m':{'value':'b'}}"]> ∅, Ret tt)) as Hs.
  { unfold SyncToStorage. by rewrite demo_dump. }
  split; [exact Hs|].
  exact (kvs_survives_restart (λ _, true) ∅ _ "db.json" demo_ops eq_refl Hs).
Defined.

Lemma failed_sync_loses_all_witness :
  SyncToStorage (λ _, true) ∅ broken_store
    = (<["db.json" := quoted "{'m':{'value':'"]> ∅, Stop (Thrown (JsonTypeError 316))) ∧
  construct_kvs (<["db.json" := quoted "{'m':{'value':'"]> ∅) "db.json" = Ret (mk_kvs "db.json" JNull) ∧
  ∀ key, HasKey key (mk_kvs "db.json" JNull) = false.
Proof.
  assert (SyncToStorage (λ _, true) ∅ broken_store
    = (<["db.json" := quoted "{'m':{'value':'"]> ∅, Stop (Thrown (JsonTypeError 316)))) as Hs.
  { unfold SyncToStorage. by rewrite broken_dump. }
  split; [exact Hs|].
  exact (failed_sync_loses_all (λ _, true) ∅ _ "db.json" broken_ops (JsonTypeError 316) eq_refl Hs).
Defined.

Lemma SetValue_unset_witness :
  SetValue true "k" KvsType.unset (mk_kvs "db.json" JNull)
    = (mk_kvs "db.json" JNull, Stop (Thrown (RuntimeError "No value in Kvs pair"))) ∧
  ∃ s', SetValue false "k" KvsType.unset (mk_kvs "db.json" JNull)
          = (s', Stop (Thrown (RuntimeError "No value in Kvs pair"))) ∧
    HasKey "k" s' = true ∧ GetValue "k" s' = Stop Terminated.
Proof. apply (SetValue_unset "k" (mk_kvs "db.json" JNull) ∅); [by left|done]. Defined.
