(* ===== verification/ApplicationHandler.v ===== *)
(** * Application handler

    [applications/ExecutionManager/src/application_handler.cpp]: starting and stopping
    services through [systemctl] and asking [pidof] whether a process runs. What the
    operating system answers ([IOsInterface]) comes from the environment. *)

From Stdlib Require Import Ascii.
From stdpp Require Import base list strings numbers.
From S2P Require Import Prelude CppString Constants Common JsonLexer JsonNumbers.

Local Open Scope Z_scope.

(** ** Starting and stopping *)

(** [fork] and, in the child, [execvp], which only returns when it fails. *)
Inductive fork_result :=
  | ForkFailed
  | Forked (pid : Z) (execvp_fails : bool).

(** The processes that come back from a call. *)
Inductive role := Parent | Child.

(** [convertToNullTerminatingArgv]: pointers to the strings, and a null pointer. *)
Definition convertToNullTerminatingArgv (vectorToConvert : list string) : list (option string) :=
  (Some <$> vectorToConvert) ++ [None].

(** The arguments of [execvp] in the child. *)
Definition exec_arguments (processName action : string) : list (option string) :=
  convertToNullTerminatingArgv [SYSTEMCTL; USER; action; processName +:+ SERVICE_EXTENSION].

(** [execProcess]: what is executed in the child, and which processes return, with which
    result. *)
Definition execProcess (processName action : string) (f : fork_result) :
    option (string * list (option string)) * list (role * bool) :=
  match f with
  | ForkFailed => (None, [(Parent, false)])
  | Forked _ execvp_fails =>
      (Some (SYSTEMCTL, exec_arguments processName action),
       (Parent, false) ::
       (if execvp_fails : bool then let res := -1 in [(Child, -1 =? res)] else []))
  end.

Definition startProcess (serviceName : string) := execProcess serviceName SYSTEMCTL_START.
Definition killProcess (serviceName : string) := execProcess serviceName SYSTEMCTL_STOP.

(** ** Asking for a process *)

(** The digits at the beginning; [None] when the buffer ends with them. *)
Fixpoint leading_digits (s : string) : option string :=
  match s with
  | String c rest => if is_digit (byte_of c) then String c <$> leading_digits rest else Some ""
  | EmptyString => None
  end.

Definition int_range (z : Z) : outcome Z :=
  if between (- 2 ^ 31) (2 ^ 31 - 1) z then Ret z else Stop Undefined.

(** [atoi] on a buffer: white space, a sign, digits. Beyond the range of [int] and
    beyond the end of the buffer the behaviour is undefined. *)
Definition atoi (buffer : string) : outcome Z :=
  match skip_space buffer with
  | EmptyString => Stop Undefined
  | String c rest =>
      let negative := byte_of c =? 45 in
      let number := if negative || (byte_of c =? 43) then rest else String c rest in
      match leading_digits number with
      | None => Stop Undefined
      | Some ds => int_range (if negative then - digits_value 0 ds else digits_value 0 ds)
      end
  end.

Definition maxPidLen : nat := 128.
Definition nulls (n : nat) : string := Nat.iter n (String zero) "".

(** The buffer has been cleared before [fread] writes the output into it. *)
Definition pidline (output : string) : string :=
  let read := str_take maxPidLen output in
  read +:+ nulls (maxPidLen - String.length read).

(** The command; when there is no underscore, the position wraps around to 0. *)
Definition pidof_command (serviceName : string) : outcome string :=
  appName ← substr serviceName (wrap (find_first_of serviceName "_" + 1)) npos;
  Ret ("pidof " +:+ appName).

(** [isActiveProcess], given what the command prints. *)
Definition isActiveProcess (serviceName : string) (output : string → string) : outcome bool :=
  cmd ← pidof_command serviceName;
  pidno ← atoi (pidline (output cmd));
  Ret (1 <? pidno).

(** ** What the commands do *)

(** In the Execution Manager itself starting or stopping a service always answers
    false, whether or not it has worked. The child runs exactly
    [systemctl --user <action> <service>.service] with a terminated argument list; only
    when that cannot be executed does it come back, as a second Execution Manager, with
    the answer true. *)
Theorem execProcess_results (processName action : string) (f : fork_result) :
  (∀ b, (Parent, b) ∈ (execProcess processName action f).2 ↔ b = false) ∧
  (∀ b, (Child, b) ∈ (execProcess processName action f).2 ↔ b = true ∧ ∃ pid, f = Forked pid true) ∧
  (∀ file argv, (execProcess processName action f).1 = Some (file, argv) →
     file = "systemctl" ∧
     argv = [Some "systemctl"; Some "--user"; Some action; Some (processName +:+ ".service"); None]).
Proof.
  destruct f as [|pid []]; cbn; (split; [|split]).
  1,4,7: intros b; rewrite ?elem_of_cons, ?elem_of_nil; naive_solver.
  1,3,5: intros b; rewrite ?elem_of_cons, ?elem_of_nil; naive_solver.
  - done.
  - by intros file argv [= <- <-].
  - by intros file argv [= <- <-].
Qed.

Lemma pidof_after_underscore s t :
  lacks "_" s → fits (s +:+ String "_" t) → pidof_command (s +:+ String "_" t) = Ret ("pidof " +:+ t).
Proof.
  intros Hs Hf. unfold pidof_command. rewrite find_first_of_sep by done.
  unfold fits in Hf. rewrite size_app, size_cons in Hf.
  pose proof (size_nonneg s). pose proof (size_nonneg t).
  rewrite wrap_small by (unfold npos in Hf; lia).
  replace (s +:+ String "_" t) with ((s +:+ "_") +:+ t)
    by by rewrite str_app_assoc, str_app_cons, str_app_nil_l.
  replace (size s + 1) with (size (s +:+ "_")) by by rewrite size_app.
  by rewrite substr_app_suffix by lia.
Qed.

Lemma str_take_app_more n s t :
  str_take (String.length s + n) (s +:+ t) = s +:+ str_take n t.
Proof.
  induction s as [|c s IH]; [by rewrite !str_app_nil_l|].
  rewrite !str_app_cons. cbn. by rewrite IH.
Qed.

(** What ends a number in the buffer. *)
Definition no_digit_first (s : string) : bool :=
  match s with String c _ => negb (is_digit (byte_of c)) | EmptyString => true end.

Lemma leading_digits_app t u :
  all_chars (λ c, is_digit (byte_of c)) t = true → u ≠ "" → no_digit_first u = true →
  leading_digits (t +:+ u) = Some t.
Proof.
  intros Ht Hu Hn. induction t as [|c t IH].
  - rewrite str_app_nil_l. destruct u as [|d u]; [done|]. cbn in *.
    by destruct (is_digit (byte_of d)).
  - cbn in Ht. apply andb_true_iff in Ht as [Hc Ht]. rewrite str_app_cons. cbn [leading_digits].
    by rewrite Hc, IH.
Qed.

Lemma digit_first_plain c :
  between 49 57 (byte_of c) = true →
  Common.is_space c = false ∧ (byte_of c =? 45) = false ∧ (byte_of c =? 43) = false.
Proof.
  destruct c as [[] [] [] [] [] [] [] []]; intros H; try (vm_compute in H; discriminate H);
    vm_compute; done.
Qed.

Lemma atoi_notation x t u :
  notation_of x t → x < 2 ^ 31 → u ≠ "" → no_digit_first u = true → atoi (t +:+ u) = Ret x.
Proof.
  intros (c & t' & -> & Hc & Hd & Hv & Hb) Hx Hu Hn.
  pose proof (leading_digits_app (String c t') u Hd Hu Hn) as Hl.
  rewrite str_app_cons in *. unfold atoi. destruct (digit_first_plain c Hc) as (Hs & H45 & H43).
  cbn [skip_space]. rewrite Hs, H45, H43. cbn [orb]. rewrite Hl, Hv.
  unfold int_range, between. pose proof (Z.pow_nonneg 10 (size (String c t') - 1)).
  destruct (Z.leb_spec (- 2 ^ 31) x); [|lia]. by destruct (Z.leb_spec x (2 ^ 31 - 1)); [|lia].
Qed.

Lemma notation_short x t : notation_of x t → x < 2 ^ 31 → (String.length t <= 10)%nat.
Proof.
  intros (c & t' & -> & _ & _ & _ & Hb & _) Hx.
  destruct (Z.le_gt_cases (size (String c t')) 10) as [?|Hs]; [unfold size in *; lia|].
  assert (10 ^ 10 <= 10 ^ (size (String c t') - 1)) by (apply Z.pow_le_mono_r; lia). lia.
Qed.

Lemma pidline_notation x t rest :
  notation_of x t → x < 2 ^ 31 → no_digit_first rest = true →
  atoi (pidline (t +:+ rest)) = Ret x.
Proof.
  intros Ht Hx Hr. pose proof (notation_short x t Ht Hx) as Hlen. unfold pidline, maxPidLen.
  replace 128%nat with (String.length t + (128 - String.length t))%nat by lia.
  rewrite str_take_app_more, str_app_assoc.
  destruct (128 - String.length t)%nat as [|k] eqn:Hk; [lia|].
  apply atoi_notation; [done|done|..].
  - destruct rest as [|d rest]; cbn [str_take].
    + rewrite str_app_nil_l, str_app_nil_r.
      by replace (String.length t + S k - String.length t)%nat with (S k) by lia.
    + by rewrite str_app_cons.
  - destruct rest as [|d rest]; cbn [str_take].
    + rewrite str_app_nil_l, str_app_nil_r.
      by replace (String.length t + S k - String.length t)%nat with (S k) by lia.
    + by rewrite str_app_cons.
Qed.

(** [isActiveProcess] asks for the part of the service name after its first
    underscore, which is the process name exactly when the manifest's id has none; the
    answer is that the command printed a process id greater than 1 first. *)
Theorem isActiveProcess_asks (manifestId processName : string) (output : string → string) :
  fits (getServiceName manifestId processName) →
  (∀ a b, manifestId = a +:+ "_" +:+ b → lacks "_" a →
     pidof_command (getServiceName manifestId processName)
       = Ret ("pidof " +:+ b +:+ "_" +:+ processName)) ∧
  (lacks "_" manifestId →
     pidof_command (getServiceName manifestId processName) = Ret ("pidof " +:+ processName) ∧
     (output ("pidof " +:+ processName) = "" →
        isActiveProcess (getServiceName manifestId processName) output = Ret false) ∧
     ∀ x t rest, output ("pidof " +:+ processName) = t +:+ rest → notation_of x t → x < 2 ^ 31 →
        no_digit_first rest = true →
        isActiveProcess (getServiceName manifestId processName) output = Ret (1 <? x)).
Proof.
  unfold getServiceName. rewrite str_app_cons, str_app_nil_l. intros Hf. split.
  - intros a b -> Ha. rewrite str_app_cons, str_app_nil_l in *.
    rewrite str_app_assoc, str_app_cons in *. by rewrite pidof_after_underscore.
  - intros Hm. pose proof (pidof_after_underscore _ _ Hm Hf) as Hp. split; [done|].
    unfold isActiveProcess. rewrite Hp. cbn [mbind outcome_bind]. split.
    + intros ->. done.
    + intros x t rest -> Ht Hx Hr. by rewrite (pidline_notation x t rest).
Qed.

Lemma isActiveProcess_asks_witness :
  isActiveProcess (getServiceName "MSM" "proc1") (λ _, "4711 4712") = Ret true ∧
  pidof_command (getServiceName "my_app" "proc1") = Ret "pidof app_proc1".
Proof.
  split.
  - refine (proj2 (proj2 (proj2 (isActiveProcess_asks "MSM" "proc1" (λ _, "4711 4712") _) _))
      4711 "4711" " 4712" _ _ _ _); try done. by exists "4"%char, "711".
  - by apply (proj1 (isActiveProcess_asks "my_app" "proc1" (λ _, "") eq_refl) "my" "app").
Defined.
