(* ===== verification/MachineStateClient.v ===== *)
(** * Machine state client

    [common/machine_state_client/src/machine_state_client.cpp]: the library with which
    the Machine State Manager asks for transitions. The answer to a request only says
    that it has been queued; the result of the transition comes later as a call of
    [confirmStateTransition] on a server of the client's own, in another thread, through
    the member [m_promise]. *)

From stdpp Require Import base list strings numbers.
From S2P Require Import Prelude Constants.

(** ** [std::promise] and its future *)

Module Promise.
Section promise.
Context {A : Type}.

(** The shared state: the value, once it is set, and whether the future has been taken. *)
Record t := mk { value : option A; retrieved : bool }.

Definition fresh : t := mk None false.

Definition get_future (p : t) : outcome t :=
  if retrieved p then Stop (Thrown (FutureError future_already_retrieved))
  else Ret (mk (value p) true).

Definition set_value (a : A) (p : t) : outcome t :=
  match value p with
  | Some _ => Stop (Thrown (FutureError promise_already_satisfied))
  | None => Ret (mk (Some a) (retrieved p))
  end.
End promise.
Arguments t : clear implicits.
End Promise.

(** ** Replies of a remote procedure call *)

Inductive rpc_reply (A : Type) :=
  | Replied (a : A)
  | Failed (e : kj_exception).
Arguments Replied {A} a.
Arguments Failed {A} e.

Definition exceptionLambda (e : kj_exception) : StateError.t :=
  match e with
  | OVERLOADED | DISCONNECTED => StateError.K_TIMEOUT
  | _ => StateError.K_INVALID_REQUEST
  end.

(** ** [MachineStateClient] *)

Module MachineStateClient.

(** Whether a call of [SetMachineState] is waiting for the future. *)
Inductive phase := Idle | Waiting.
#[global] Instance phase_eq_dec : EqDecision phase.
Proof. solve_decision. Defined.

Record t := mk {
  m_serverThread : bool;
  m_promise : Promise.t StateError.t;
  m_phase : phase;
}.

Definition init : t := mk false Promise.fresh Idle.

Definition set_promise (p : Promise.t StateError.t) (ph : phase) (s : t) : t :=
  mk (m_serverThread s) p ph.

(** [Register] starts the server, whatever the reply. *)
Definition Register (reply : rpc_reply StateError.t) (s : t) : t * StateError.t :=
  (mk true (m_promise s) (m_phase s),
   match reply with Replied r => r | Failed e => exceptionLambda e end).

(** [GetMachineState]: [state] is only written on a reply. *)
Definition GetMachineState (reply : rpc_reply (string * StateError.t)) (state : string) :
    string * StateError.t :=
  match reply with
  | Replied (st, r) => (st, r)
  | Failed e => (state, exceptionLambda e)
  end.

(** [waitForConfirm] up to the wait. *)
Definition waitForConfirm_begin (s : t) : t * option (outcome StateError.t) :=
  match Promise.get_future (m_promise s) with
  | Ret p => (set_promise p Waiting s, None)
  | Stop w => (s, Some (Stop w))
  end.

(** An exception that leaves a function given to [then] is turned into one of the
    library, which [wait] throws. *)
Definition continuation {A} (o : outcome A) : outcome A :=
  match o with Stop (Thrown _) => Stop (Thrown (KjException FAILED)) | _ => o end.

(** [SetMachineState] up to the wait: a result, or nothing while it waits. *)
Definition SetMachineState_begin (reply : rpc_reply StateError.t) (s : t) :
    t * option (outcome StateError.t) :=
  match reply with
  | Replied StateError.K_SUCCESS =>
      let '(s, r) := waitForConfirm_begin s in (s, continuation <$> r)
  | Replied r => (s, Some (Ret r))
  | Failed e => (s, Some (Ret (exceptionLambda e)))
  end.

(** [waitForConfirm] after the wait: the future is ready, and the promise is replaced. *)
Definition waitForConfirm_ready (s : t) : option (t * StateError.t) :=
  match m_phase s, Promise.value (m_promise s) with
  | Waiting, Some val => Some (set_promise Promise.fresh Idle s, val)
  | _, _ => None
  end.

(** ... or the time has passed. *)
Definition waitForConfirm_timeout (s : t) : option (t * StateError.t) :=
  match m_phase s, Promise.value (m_promise s) with
  | Waiting, None => Some (set_promise (m_promise s) Idle s, StateError.K_TIMEOUT)
  | _, _ => None
  end.

(** [MachineStateServer::confirmStateTransition], in the server's thread; an exception
    becomes an error reply to the caller. *)
Definition confirmStateTransition (result : StateError.t) (s : t) : t :=
  match Promise.set_value result (m_promise s) with
  | Ret p => set_promise p (m_phase s) s
  | Stop _ => s
  end.

(** ** Histories *)

(** What can happen to a client: its owner calls it, its server is called, and a wait
    ends. *)
Inductive event :=
  | ERegister (reply : rpc_reply StateError.t)
  | ESet (reply : rpc_reply StateError.t)
  | EConfirm (result : StateError.t)
  | EReady
  | ETimeout.

(** An event that can happen gives the new state and, when a call of [SetMachineState]
    ends, its outcome. *)
Definition client_step (e : event) (s : t) : option (t * option (outcome StateError.t)) :=
  match e with
  | ERegister reply =>
      if decide (m_phase s = Idle) then Some ((Register reply s).1, None) else None
  | ESet reply => if decide (m_phase s = Idle) then Some (SetMachineState_begin reply s) else None
  | EConfirm result => if m_serverThread s then Some (confirmStateTransition result s, None) else None
  | EReady => '(s, r) ← waitForConfirm_ready s; Some (s, Some (Ret r))
  | ETimeout => '(s, r) ← waitForConfirm_timeout s; Some (s, Some (Ret r))
  end.

(** A history and the outcomes of the calls that ended, in order. *)
Fixpoint client_run (es : list event) (s : t) : option (t * list (outcome StateError.t)) :=
  match es with
  | [] => Some (s, [])
  | e :: es =>
      '(s, r) ← client_step e s;
      '(s, rs) ← client_run es s;
      Some (s, option_list r ++ rs)
  end.

Lemma client_run_app es1 es2 s :
  client_run (es1 ++ es2) s =
    ('(s, rs1) ← client_run es1 s; '(s, rs2) ← client_run es2 s; Some (s, rs1 ++ rs2)).
Proof.
  revert s. induction es1 as [|e es1 IH]; intros s; cbn [app client_run].
  - cbn. by destruct (client_run es2 s) as [[??]|].
  - destruct (client_step e s) as [[s1 r]|]; [|done]. cbn. rewrite IH.
    destruct (client_run es1 s1) as [[s2 rs1]|]; [|done]. cbn.
    destruct (client_run es2 s2) as [[s3 rs2]|]; [|done]. cbn. by rewrite (assoc_L (++)).
Qed.

(** ** The state of a client *)

(** A waiting client holds the future. *)
Definition holds_future (s : t) : Prop :=
  m_phase s = Waiting → Promise.retrieved (m_promise s) = true.

(** Usable: the future can be taken by the next call, or has been taken by this one. *)
Definition usable (s : t) : Prop :=
  Promise.retrieved (m_promise s) = bool_decide (m_phase s = Waiting).

(** Spent: the future has been given up. *)
Definition spent (s : t) : Prop :=
  m_phase s = Idle ∧ Promise.retrieved (m_promise s) = true.

Lemma confirm_same result s :
  m_phase (confirmStateTransition result s) = m_phase s ∧
  Promise.retrieved (m_promise (confirmStateTransition result s)) = Promise.retrieved (m_promise s) ∧
  m_serverThread (confirmStateTransition result s) = m_serverThread s.
Proof.
  unfold confirmStateTransition, Promise.set_value. by destruct (Promise.value (m_promise s)).
Qed.

(** What a call does when it is begun. *)
Lemma SetMachineState_begin_spec reply s :
  SetMachineState_begin reply s =
    match reply with
    | Replied StateError.K_SUCCESS =>
        if Promise.retrieved (m_promise s)
        then (s, Some (Stop (Thrown (KjException FAILED))))
        else (set_promise (Promise.mk (Promise.value (m_promise s)) true) Waiting s, None)
    | Replied r => (s, Some (Ret r))
    | Failed e => (s, Some (Ret (exceptionLambda e)))
    end.
Proof.
  destruct reply as [[]|e]; try done. cbn. unfold waitForConfirm_begin, Promise.get_future.
  by destruct (Promise.retrieved (m_promise s)).
Qed.

Lemma holds_future_step s e s' r :
  holds_future s → client_step e s = Some (s', r) → holds_future s'.
Proof.
  unfold holds_future. intros Hh. destruct e as [reply|reply|result| |]; cbn.
  - case_decide; [|done]. by intros [= <- _].
  - case_decide; [|done]. rewrite SetMachineState_begin_spec. intros [= Hs].
    repeat case_match; by simplify_eq.
  - destruct (m_serverThread s); [|done]. intros [= <- _].
    destruct (confirm_same result s) as (-> & -> & _). done.
  - unfold waitForConfirm_ready. by repeat case_match; intros; simplify_eq/=.
  - unfold waitForConfirm_timeout. by repeat case_match; intros; simplify_eq/=.
Qed.

Lemma usable_step s e s' r :
  usable s → client_step e s = Some (s', r) → e ≠ ETimeout →
  usable s' ∧ ∀ o, r = Some o → ∃ v, o = Ret v.
Proof.
  unfold usable. intros Hu. destruct e as [reply|reply|result| |]; cbn; intros Hs He; [..|done].
  - case_decide; [|done]. injection Hs as <- <-. done.
  - case_decide as Hp; [|done]. injection Hs as Hs. rewrite SetMachineState_begin_spec in Hs.
    rewrite Hu, Hp in Hs. cbn in Hs.
    assert (s' = s ∧ (∃ v, r = Some (Ret v)) ∨ usable s' ∧ r = None) as [[-> [v ->]]|[? ->]].
    { repeat case_match; simplify_eq; eauto. by right. }
    + split; [done|]. intros o [= <-]. eauto.
    + by split.
  - destruct (m_serverThread s); [|done]. injection Hs as <- <-.
    destruct (confirm_same result s) as (-> & -> & _). by split.
  - unfold waitForConfirm_ready in Hs. repeat case_match; simplify_eq/=.
    split; [done|]. intros o [= <-]. eauto.
Qed.

Lemma client_run_cons e es s s' rs :
  client_run (e :: es) s = Some (s', rs) ↔
  ∃ s1 r rs', client_step e s = Some (s1, r) ∧ client_run es s1 = Some (s', rs') ∧
    rs = option_list r ++ rs'.
Proof.
  cbn. destruct (client_step e s) as [[s1 r]|]; cbn.
  - destruct (client_run es s1) as [[s2 rs']|] eqn:Hr; cbn.
    + split; [intros [= <- <-]; eauto 10|]. intros (? & ? & ? & [= <- <-] & Hr' & ->).
      rewrite Hr in Hr'. by injection Hr' as <- <-.
    + split; [done|]. intros (? & ? & ? & [= <- <-] & Hr' & _). congruence.
  - split; [done|]. by intros (? & ? & ? & ? & _).
Qed.

Lemma client_run_usable es s s' rs :
  usable s → ETimeout ∉ es → client_run es s = Some (s', rs) →
  usable s' ∧ Forall (λ o, ∃ v, o = Ret v) rs.
Proof.
  revert s rs. induction es as [|e es IH]; intros s rs Hu Hes Hr.
  { injection Hr as <- <-. by split. }
  apply not_elem_of_cons in Hes as [He Hes].
  apply client_run_cons in Hr as (s1 & r & rs' & Hs & Hr & ->).
  destruct (usable_step _ _ _ _ Hu Hs (not_eq_sym He)) as [Hu1 Hret].
  destruct (IH s1 rs' Hu1 Hes Hr) as [Hu' Hall]. split; [done|].
  apply Forall_app. split; [|done]. destruct r as [o|]; constructor; [auto|constructor].
Qed.

Lemma client_run_holds es s s' rs :
  holds_future s → client_run es s = Some (s', rs) → holds_future s'.
Proof.
  revert s rs. induction es as [|e es IH]; intros s rs Hh Hr; [by injection Hr as <- <-|].
  apply client_run_cons in Hr as (s1 & r & rs' & Hs & Hr & ->).
  by eapply IH, Hr; eapply holds_future_step.
Qed.

(** What a spent client answers. *)
Definition spent_outcome (e : event) : list (outcome StateError.t) :=
  match e with
  | ESet (Replied StateError.K_SUCCESS) => [Stop (Thrown (KjException FAILED))]
  | ESet (Replied r) => [Ret r]
  | ESet (Failed e) => [Ret (exceptionLambda e)]
  | _ => []
  end.

Lemma spent_step s e s' r :
  spent s → client_step e s = Some (s', r) → spent s' ∧ option_list r = spent_outcome e.
Proof.
  unfold spent. intros [Hp Hret]. destruct e as [reply|reply|result| |]; cbn; intros Hs.
  - rewrite decide_True in Hs by done. by injection Hs as <- <-.
  - rewrite decide_True, SetMachineState_begin_spec, Hret in Hs by done.
    repeat case_match; by simplify_eq.
  - destruct (m_serverThread s); [|done]. injection Hs as <- <-.
    by destruct (confirm_same result s) as (-> & -> & _).
  - unfold waitForConfirm_ready in Hs. by rewrite Hp in Hs.
  - unfold waitForConfirm_timeout in Hs. by rewrite Hp in Hs.
Qed.

Lemma spent_run es s s' rs :
  spent s → client_run es s = Some (s', rs) → rs = flat_map spent_outcome es.
Proof.
  revert s rs. induction es as [|e es IH]; intros s rs Hsp Hr; [by injection Hr as <- <-|].
  apply client_run_cons in Hr as (s1 & r & rs' & Hs & Hr & ->). cbn.
  destruct (spent_step _ _ _ _ Hsp Hs) as [Hsp1 ->]. by rewrite (IH s1 rs').
Qed.

(** As long as no wait for a confirmation has timed out, no call of
    [SetMachineState] throws, in whatever order requests and confirmations come. *)
Theorem no_timeout_no_throw (es : list event) (s : t) (rs : list (outcome StateError.t)) :
  ETimeout ∉ es → client_run es init = Some (s, rs) → Forall (λ o, ∃ v, o = Ret v) rs.
Proof. intros Hes Hr. by destruct (client_run_usable es init s rs eq_refl Hes Hr). Qed.

(** One wait that times out disables the client for good: the promise is not
    replaced, so every later call whose request is accepted throws what the library makes
    of [future_already_retrieved], whatever is confirmed. *)
Theorem timeout_disables_client (es1 es2 : list event) (s : t)
    (rs : list (outcome StateError.t)) :
  client_run (es1 ++ ETimeout :: es2) init = Some (s, rs) →
  ∃ rs1, rs = rs1 ++ Ret StateError.K_TIMEOUT :: flat_map spent_outcome es2.
Proof.
  rewrite client_run_app. destruct (client_run es1 init) as [[s1 rs1]|] eqn:H1; [|done]. cbn [mbind option_bind].
  intros Hr. destruct (client_run (ETimeout :: es2) s1) as [[s2 rs2]|] eqn:H2; [|done].
  cbn in Hr. injection Hr as <- <-. exists rs1. f_equal.
  apply client_run_cons in H2 as (s3 & r & rs3 & Hs & H2 & ->).
  assert (holds_future s1) as Hh by (eapply client_run_holds, H1; done).
  cbn in Hs. unfold waitForConfirm_timeout in Hs.
  destruct (m_phase s1) eqn:Hp; [done|]. destruct (Promise.value (m_promise s1)); [done|].
  cbn in Hs. injection Hs as <- <-. cbn. f_equal. eapply spent_run, H2. split; [done|].
  by apply Hh.
Qed.

(** The rounds of a client whose transitions are confirmed while it waits, and of one
    that finds a confirmation at once and gets its own later. *)
Definition in_order (r : StateError.t) : list event :=
  [ESet (Replied StateError.K_SUCCESS); EConfirm r; EReady].
Definition behind (r : StateError.t) : list event :=
  [ESet (Replied StateError.K_SUCCESS); EReady; EConfirm r].

(** An idle client with a confirmation nobody has waited for. *)
Definition ahead (r : StateError.t) : t := mk true (Promise.mk (Some r) false) Idle.

Lemma behind_run rs prev :
  ∃ last, client_run (flat_map behind rs) (ahead prev)
    = Some (ahead last, Ret <$> take (length rs) (prev :: rs)).
Proof.
  revert prev. induction rs as [|r rs IH]; intros prev; [by exists prev|].
  destruct (IH r) as [last Hl]. exists last.
  change (flat_map behind (r :: rs)) with (behind r ++ flat_map behind rs).
  rewrite client_run_app. change (client_run (behind r) (ahead prev)) with (Some (ahead r, [Ret prev])).
  cbn [mbind option_bind]. by rewrite Hl.
Qed.

Lemma in_order_run rs :
  client_run (flat_map in_order rs) (mk true Promise.fresh Idle)
    = Some (mk true Promise.fresh Idle, Ret <$> rs).
Proof.
  induction rs as [|r rs IH]; [done|].
  change (flat_map in_order (r :: rs)) with (in_order r ++ flat_map in_order rs).
  rewrite client_run_app.
  change (client_run (in_order r) _) with (Some (mk true Promise.fresh Idle, [Ret r])).
  cbn [mbind option_bind]. by rewrite IH.
Qed.

(** Confirmations and requests are not matched. When every transition is confirmed
    while its call waits, each call returns its own result. After one confirmation that
    no call has asked for (the one of the start-up, sent once the Machine State Manager
    has reported), each call returns at once with the result of the transition before
    it, for any number of transitions. *)
Theorem confirmations_off_by_one (reply : rpc_reply StateError.t) (r0 : StateError.t)
    (rs : list StateError.t) :
  (∃ s, client_run (ERegister reply :: flat_map in_order rs) init = Some (s, Ret <$> rs)) ∧
  (∃ s, client_run (ERegister reply :: EConfirm r0 :: flat_map behind rs) init
    = Some (s, Ret <$> take (length rs) (r0 :: rs))).
Proof.
  split.
  - exists (mk true Promise.fresh Idle). apply client_run_cons.
    eexists _, None, _. split; [reflexivity|]. by rewrite in_order_run.
  - destruct (behind_run rs r0) as [last Hl]. exists (ahead last). apply client_run_cons.
    eexists _, None, _. split; [reflexivity|]. split; [|reflexivity]. apply client_run_cons.
    exists (ahead r0), None, (Ret <$> take (length rs) (r0 :: rs)). by rewrite Hl.
Qed.

Definition demo_events : list event :=
  [ERegister (Replied StateError.K_SUCCESS); ESet (Replied StateError.K_SUCCESS);
   EConfirm StateError.K_SUCCESS; EReady; ESet (Replied StateError.K_INVALID_STATE)].

Lemma no_timeout_no_throw_witness :
  ETimeout ∉ demo_events ∧
  client_run demo_events init = Some (mk true Promise.fresh Idle,
    [Ret StateError.K_SUCCESS; Ret StateError.K_INVALID_STATE]) ∧
  Forall (λ o, ∃ v : StateError.t, o = Ret v) [Ret StateError.K_SUCCESS; Ret StateError.K_INVALID_STATE].
Proof.
  assert (ETimeout ∉ demo_events) as Hn.
  { unfold demo_events. repeat (apply not_elem_of_cons; split; [done|]). apply not_elem_of_nil. }
  split; [exact Hn|]. split; [reflexivity|].
  apply (no_timeout_no_throw demo_events (mk true Promise.fresh Idle)); [exact Hn|reflexivity].
Defined.

Lemma timeout_disables_client_witness :
  ∃ rs1, [Ret StateError.K_TIMEOUT; Stop (Thrown (KjException FAILED))]
    = rs1 ++ Ret StateError.K_TIMEOUT ::
        flat_map spent_outcome [EConfirm StateError.K_SUCCESS; ESet (Replied StateError.K_SUCCESS)].
Proof.
  apply (timeout_disables_client
    [ERegister (Replied StateError.K_SUCCESS); ESet (Replied StateError.K_SUCCESS)]
    [EConfirm StateError.K_SUCCESS; ESet (Replied StateError.K_SUCCESS)]
    (mk true (Promise.mk (Some StateError.K_SUCCESS) true) Idle)).
  reflexivity.
Defined.
End MachineStateClient.
