(* ===== verification/TransitionProtocol.v ===== *)
(** * The transition protocol between the two managers

    The process of the Execution Manager ([EMSystem]) together with the client of the
    Machine State Manager ([MachineStateClient]): a request for a transition is queued
    and answered at once; when a transition has been made, a confirmation is sent from a
    thread of its own ([ExecutionManagerClient::confirm]) to the client's server, where
    it ends a wait. Confirmations carry no name of a state, arrive in any order, and are
    lost when the client's server does not answer. *)

From stdpp Require Import base list gmap strings relations.
From S2P Require Import Prelude CppString Constants Common Queues ExecutionManager.
From S2P Require Import ExecutionManagerSpec EMServer EMSystem EMExamples MachineStateClient.
Import MachineStateClient (m_phase, m_promise, m_serverThread, client_step, event, EConfirm,
  EReady, ERegister, ESet, ETimeout, Waiting, spent, holds_future).

(** ** The two processes *)

Record protocol := mk_protocol {
  em : sys;
  client : MachineStateClient.t;
  (** confirmations on their way *)
  in_flight : list StateError.t;
  (** the states the client has asked for and the Execution Manager has queued *)
  asked : list string;
  (** the results of the waits that a confirmation has ended *)
  answers : list StateError.t;
}.

Definition upd_client (c : MachineStateClient.t) (p : protocol) : protocol :=
  mk_protocol (em p) c (in_flight p) (asked p) (answers p).
Definition upd_in_flight (l : list StateError.t) (p : protocol) : protocol :=
  mk_protocol (em p) (client p) l (asked p) (answers p).
Definition upd_answers (l : list StateError.t) (p : protocol) : protocol :=
  mk_protocol (em p) (client p) (in_flight p) (asked p) l.

(** The Execution Manager takes a step; the confirmations it calls for are sent. *)
Definition confirmations_since (σ σ' : sys) : list StateError.t :=
  omap confirm_of (drop (length (log σ)) (log σ')).
Definition em_to (σ : sys) (p : protocol) : protocol :=
  mk_protocol σ (client p) (in_flight p ++ confirmations_since (em p) σ) (asked p) (answers p).

(** The Execution Manager serves a request; the transition it queues was asked for by
    the client. *)
Definition serve_request (r : rpc) (p : protocol) : option (protocol * results) :=
  match handle r (sv (em p)) with
  | (tr, s, Ret res) =>
      let queued := queued_by r (sv (em p)) in
      let p := em_to (mk_sys s (at_ (em p))
                        (log (em p) ++ (Called <$> tr) ++ (queued_event <$> queued))) p in
      Some (mk_protocol (em p) (client p) (in_flight p) (asked p ++ queued.*2) (answers p), res)
  | (_, _, Stop _) => None
  end.

Definition client_does (e : event) (p : protocol) : option protocol :=
  '(c, _) ← client_step e (client p); Some (upd_client c p).

(** What can happen. [SetMachineState] sends the request; its reply may come ([None]),
    or fail although the request has been served, or the request is not sent at all. *)
Inductive happening :=
  | Worker (alive : nat → string → bool)
  | OtherRequest (r : rpc)
  | StopServer
  | RegisterClient (reply : rpc_reply StateError.t)
  | AskFor (pid : Z) (state : string) (failure : option kj_exception)
  | NotSent (failure : kj_exception)
  | Arrives (i : nat)
  | Lost (i : nat)
  | WaitEnds
  | TimesOut.

Definition happen (h : happening) (p : protocol) : option protocol :=
  match h with
  | Worker alive => σ ← worker alive (em p); Some (em_to σ p)
  | OtherRequest r =>
      match queued_by r (sv (em p)) with
      | [] => fst <$> serve_request r p
      | _ => None
      end
  | StopServer => Some (em_to (mk_sys (stop_server (sv (em p))) (at_ (em p)) (log (em p))) p)
  | RegisterClient reply => client_does (ERegister reply) p
  | AskFor pid state failure =>
      '(p, res) ← serve_request (setMachineState_rpc pid state) p;
      client_does (ESet (match failure with
                         | None => Replied (default StateError.K_SUCCESS (res_error res))
                         | Some e => Failed e
                         end)) p
  | NotSent failure => client_does (ESet (Failed failure)) p
  | Arrives i =>
      r ← in_flight p !! i;
      client_does (EConfirm r) (upd_in_flight (delete i (in_flight p)) p)
  | Lost i => _ ← in_flight p !! i; Some (upd_in_flight (delete i (in_flight p)) p)
  | WaitEnds =>
      match client_step EReady (client p) with
      | Some (c, Some (Ret r)) => Some (upd_answers (answers p ++ [r]) (upd_client c p))
      | _ => None
      end
  | TimesOut => client_does ETimeout p
  end.

Definition protocol_step (p p' : protocol) : Prop := ∃ h, happen h p = Some p'.

Inductive protocol_initial : protocol → Prop :=
  | protocol_initial_intro σ :
      initial σ → protocol_initial (mk_protocol σ MachineStateClient.init [] [] []).

Definition protocol_reachable (p : protocol) : Prop :=
  ∃ p0, protocol_initial p0 ∧ rtc protocol_step p0 p.

Lemma protocol_reachable_ind (P : protocol → Prop) :
  (∀ p, protocol_initial p → P p) →
  (∀ p p', protocol_reachable p → P p → protocol_step p p' → P p') →
  ∀ p, protocol_reachable p → P p.
Proof.
  intros Hi Hs p (p0 & H0 & Hrtc). revert p Hrtc.
  apply (rtc_ind_r (λ p, P p)); [by apply Hi|].
  intros p p' Hr Hst HP. eapply Hs; eauto. by exists p0.
Qed.

(** ** What a step does *)

(** The Execution Manager takes a step or stays. *)
Inductive em_moves (p p' : protocol) : Prop :=
  | em_stays : em p' = em p → in_flight p' = in_flight p → asked p' = asked p → em_moves p p'
  | em_steps evs :
      step (em p) (em p') → log (em p') = log (em p) ++ evs →
      in_flight p' = in_flight p ++ omap confirm_of evs →
      asked p' = asked p ++ omap queued_of evs → em_moves p p'.

Lemma confirmations_since_app σ σ' evs :
  log σ' = log σ ++ evs → confirmations_since σ σ' = omap confirm_of evs.
Proof. intros H. unfold confirmations_since. by rewrite H, drop_app_length. Qed.

Lemma worker_queues_nothing σ σ' evs :
  worker_case σ σ' → log σ' = log σ ++ evs → omap queued_of evs = [].
Proof.
  intros Hw Hlog.
  destruct Hw; cbn [go log] in Hlog; apply (inj (app (log σ))) in Hlog as <-;
    rewrite ?omap_app, ?queued_of_called; done.
Qed.

Lemma omap_queued_event l : omap queued_of (queued_event <$> l) = l.*2.
Proof. induction l as [|[] l IH]; [done|]. cbn. by rewrite IH. Qed.

Lemma serve_request_moves r p p' res :
  serve_request r p = Some (p', res) →
  em_moves p p' ∧ client p' = client p ∧ answers p' = answers p.
Proof.
  unfold serve_request. destruct (handle r (sv (em p))) as [[tr s] [res0|]] eqn:Hh; [|done].
  intros [= <- <-]. split; [|done].
  eapply (em_steps _ _ ((Called <$> tr) ++ (queued_event <$> queued_by r (sv (em p))))); cbn.
  - by eapply step_rpc.
  - done.
  - f_equal. by apply confirmations_since_app.
  - f_equal. by rewrite omap_app, queued_of_called, omap_queued_event.
Qed.

(** What a happening does to the client's side. *)
Inductive client_moves (p p' : protocol) : Prop :=
  | client_stays : client p' = client p → answers p' = answers p → client_moves p p'
  | client_asks e o :
      client_step e (client p) = Some (client p', o) →
      (∃ reply, e = ERegister reply ∨ e = ESet reply) ∨ e = ETimeout →
      answers p' = answers p → client_moves p p'
  | client_answered r :
      client_step EReady (client p) = Some (client p', Some (Ret r)) →
      answers p' = answers p ++ [r] → client_moves p p'.

Inductive protocol_case (p p' : protocol) : Prop :=
  | pc_moves : em_moves p p' → client_moves p p' → protocol_case p p'
  | pc_arrives i r :
      in_flight p !! i = Some r → in_flight p' = delete i (in_flight p) → em p' = em p →
      client_step (EConfirm r) (client p) = Some (client p', None) →
      asked p' = asked p → answers p' = answers p → protocol_case p p'
  | pc_lost i r :
      in_flight p !! i = Some r → in_flight p' = delete i (in_flight p) → em p' = em p →
      client p' = client p → asked p' = asked p → answers p' = answers p → protocol_case p p'.

Lemma client_does_inv e p p' :
  client_does e p = Some p' →
  ∃ c o, client_step e (client p) = Some (c, o) ∧ p' = upd_client c p.
Proof.
  unfold client_does. destruct (client_step e (client p)) as [[c o]|]; [|done].
  intros [= <-]. eauto.
Qed.

Lemma em_to_moves σ p :
  step (em p) σ → omap queued_of (drop (length (log (em p))) (log σ)) = [] →
  em_moves p (em_to σ p).
Proof.
  intros Hs Hq. destruct (step_log _ _ Hs) as [evs Hl].
  rewrite Hl, drop_app_length in Hq.
  apply (em_steps _ _ evs); [done|done| |].
  - cbn. f_equal. by apply confirmations_since_app.
  - cbn. by rewrite Hq, app_nil_r.
Qed.

Lemma happen_inv h p p' : happen h p = Some p' → protocol_case p p'.
Proof.
  destruct h as [alive|r| |reply|pid state failure|failure|i|i| |]; cbn [happen]; intros H.
  - destruct (worker alive (em p)) as [σ|] eqn:Hw; [|done]. injection H as <-.
    apply pc_moves; [|by constructor]. apply em_to_moves; [by eapply step_worker|].
    destruct (step_log _ _ (step_worker _ _ _ Hw)) as [evs Hl]. rewrite Hl, drop_app_length.
    by eapply worker_queues_nothing; [eapply worker_inv|].
  - destruct (queued_by r (sv (em p))); [|done].
    destruct (serve_request r p) as [[p1 res]|] eqn:Hr; [|done]. injection H as <-.
    apply serve_request_moves in Hr as (Hm & Hc & Ha). apply pc_moves; [done|by constructor].
  - injection H as <-. apply pc_moves; [|by constructor].
    apply em_to_moves; [apply step_stop|]. cbn. by rewrite drop_all.
  - apply client_does_inv in H as (c & o & Hc & ->).
    apply pc_moves; [by constructor|]. eapply client_asks; eauto.
  - destruct (serve_request _ p) as [[p1 res]|] eqn:Hr; [|done].
    apply serve_request_moves in Hr as (Hm & Hcl & Ha).
    apply client_does_inv in H as (c & o & Hc & ->). rewrite Hcl in Hc.
    apply pc_moves; [by destruct Hm; econstructor|]. eapply client_asks; eauto.
  - apply client_does_inv in H as (c & o & Hc & ->).
    apply pc_moves; [by constructor|]. eapply client_asks; eauto.
  - destruct (in_flight p !! i) as [r|] eqn:Hi; [|done].
    apply client_does_inv in H as (c & o & Hc & ->).
    eapply pc_arrives; eauto. cbn in Hc |- *. destruct (m_serverThread (client p)); [|done].
    by injection Hc as <- <-.
  - destruct (in_flight p !! i) as [r|] eqn:Hi; [|done]. injection H as <-. by eapply pc_lost.
  - destruct (client_step EReady (client p)) as [[c [[r|]|]]|] eqn:Hc; try done.
    injection H as <-. apply pc_moves; [by constructor|]. by eapply client_answered.
  - apply client_does_inv in H as (c & o & Hc & ->).
    apply pc_moves; [by constructor|]. eapply client_asks; eauto.
Qed.

(** ** Each answer uses up a confirmation *)

(** A confirmation that has arrived and that no wait has taken. *)
Definition arrived (p : protocol) : list StateError.t :=
  option_list (Promise.value (m_promise (client p))).

Definition all_success (l : list StateError.t) : Prop := Forall (λ r, r = StateError.K_SUCCESS) l.

(** Confirmations are only sent for successes, and each is in one place at most. *)
Definition accounted (p : protocol) : Prop :=
  all_success (answers p ++ arrived p ++ in_flight p) ∧
  length (answers p ++ arrived p ++ in_flight p) ≤ length (omap confirm_of (log (em p))).

Definition asked_in_order (p : protocol) : Prop :=
  omap queued_of (log (em p)) = MACHINE_STATE_STARTUP :: asked p.

(** Only a confirmation that arrives puts a value into the promise. *)
Lemma client_step_value e c c' o :
  client_step e c = Some (c', o) →
  (∃ reply, e = ERegister reply ∨ e = ESet reply) ∨ e = ETimeout →
  Promise.value (m_promise c') = Promise.value (m_promise c).
Proof.
  intros Hs [[reply [-> | ->]] | ->]; cbn in Hs.
  - case_decide; [|done]. by injection Hs as <- _.
  - case_decide; [|done]. rewrite MachineStateClient.SetMachineState_begin_spec in Hs.
    repeat case_match; by simplify_eq.
  - unfold MachineStateClient.waitForConfirm_timeout in Hs. repeat case_match; by simplify_eq/=.
Qed.

Lemma client_answered_value c c' r :
  client_step EReady c = Some (c', Some (Ret r)) →
  Promise.value (m_promise c) = Some r ∧ Promise.value (m_promise c') = None.
Proof.
  cbn. unfold MachineStateClient.waitForConfirm_ready.
  destruct (m_phase c); [done|]. destruct (Promise.value (m_promise c)) as [v|]; [|done].
  cbn. by intros [= <- <-].
Qed.

Lemma client_confirmed_value c c' r :
  client_step (EConfirm r) c = Some (c', None) →
  Promise.value (m_promise c') = Some (default r (Promise.value (m_promise c))) ∧
  m_phase c' = m_phase c ∧ Promise.retrieved (m_promise c') = Promise.retrieved (m_promise c).
Proof.
  cbn. destruct (m_serverThread c); [|done]. intros [= <-].
  unfold MachineStateClient.confirmStateTransition, Promise.set_value.
  by destruct (Promise.value (m_promise c)) eqn:Hv; cbn; rewrite ?Hv.
Qed.

Lemma client_moves_accounted p p' l :
  client_moves p p' →
  (all_success (answers p ++ arrived p ++ l) → all_success (answers p' ++ arrived p' ++ l)) ∧
  length (answers p' ++ arrived p' ++ l) = length (answers p ++ arrived p ++ l).
Proof.
  unfold arrived. intros [-> -> |e o Hs He -> |r Hs ->].
  - done.
  - by rewrite (client_step_value _ _ _ _ Hs He).
  - apply client_answered_value in Hs as [-> ->]. cbn. by rewrite <- !app_assoc.
Qed.

Lemma em_moves_sends p p' :
  reachable (em p) → reachable (em p') → em_moves p p' →
  ∃ sent, in_flight p' = in_flight p ++ sent ∧ all_success sent ∧
    omap confirm_of (log (em p')) = omap confirm_of (log (em p)) ++ sent.
Proof.
  intros _ Hr [-> -> _ |evs _ Hl Hf _].
  - exists []. rewrite !app_nil_r. split_and!; [done|constructor|done].
  - exists (omap confirm_of evs). rewrite Hl, omap_app. split_and!; try done.
    destruct (reachable_commit _ Hr) as [_ Hc]. rewrite Hl, omap_app in Hc.
    assert (all_success (omap confirm_of (log (em p)) ++ omap confirm_of evs)) as Hall.
    { rewrite Hc. apply Forall_fmap, Forall_true. done. }
    by apply Forall_app in Hall as [_ Hall].
Qed.

Lemma protocol_em_reachable p : protocol_reachable p → reachable (em p).
Proof.
  revert p. apply protocol_reachable_ind.
  - intros p [σ H]. by exists σ.
  - intros p p' _ (σ0 & H0 & Hrtc) [h Hh]. apply happen_inv in Hh.
    destruct Hh as [[-> _ _|evs Hs _ _ _] _|? ? ? ? -> ? ?|? ? ? ? -> ? ? ?];
      exists σ0; (split; [done|]); [done|by eapply rtc_r|done..].
Qed.

Lemma delete_success l i r :
  l !! i = Some r → all_success l → r = StateError.K_SUCCESS ∧ all_success (delete i l).
Proof.
  intros Hi Hl. split; [by apply (Forall_lookup_1 _ _ _ _ Hl Hi)|].
  by apply Forall_delete.
Qed.

Lemma protocol_accounted p : protocol_reachable p → accounted p ∧ asked_in_order p.
Proof.
  revert p. apply protocol_reachable_ind.
  { intros p [σ H]. destruct H. split; [|done]. split; [constructor|done]. }
  intros p p' Hr [[Hall Hlen] Hord] Hst.
  assert (protocol_reachable p') as Hr'.
  { destruct Hr as (p0 & ? & ?). exists p0. split; [done|by eapply rtc_r]. }
  apply protocol_em_reachable in Hr, Hr'.
  destruct Hst as [h Hh]. apply happen_inv in Hh as [Hm Hc|i r Hi Hf He Hs Ha Hans|i r Hi Hf He Hc Ha Hans].
  - destruct (em_moves_sends p p' Hr Hr' Hm) as (sent & Hf & Hsent & Hlog).
    destruct (client_moves_accounted p p' (in_flight p') Hc) as [H1 H2].
    split; [split|].
    + apply H1. rewrite Hf, !(assoc_L (++)). apply Forall_app.
      split; [by rewrite <- !(assoc_L (++))|done].
    + rewrite H2, Hf, Hlog. rewrite !length_app in *. lia.
    + unfold asked_in_order in *. destruct Hm as [-> _ ->|evs _ -> _ ->]; [done|].
      by rewrite omap_app, Hord.
  - unfold asked_in_order. rewrite He, Ha. split; [|done].
    apply client_confirmed_value in Hs as [Hv _]. unfold accounted, arrived in *.
    rewrite Hv, Hans, Hf, He. clear Hv Hans Hf He.
    unfold all_success in Hall. rewrite !Forall_app in Hall. destruct Hall as (H1 & H2 & H3).
    destruct (delete_success _ _ _ Hi H3) as [-> H3'].
    pose proof (length_delete (in_flight p) i ltac:(by eexists)) as Hd.
    pose proof (lookup_lt_Some _ _ _ Hi).
    unfold all_success. rewrite !Forall_app.
    destruct (Promise.value (m_promise (client p))) as [v|];
      rewrite ?length_app in *; cbn in *; (split; [split_and!; try done|lia]).
    by repeat constructor.
  - unfold asked_in_order, accounted, arrived in *. rewrite He, Hc, Ha, Hans, Hf. split; [|done].
    unfold all_success in *. rewrite !Forall_app in *. destruct Hall as (H1 & H2 & H3).
    destruct (delete_success _ _ _ Hi H3) as [_ H3'].
    pose proof (length_delete (in_flight p) i ltac:(by eexists)).
    rewrite !length_app in *. split; [done|lia].
Qed.

(** C12: The results of [SetMachineState] are not those of the requests they answer.
    In any run of the two processes, with replies and confirmations lost or late, the
    start-up comes first and then the states asked for, in their order; every answer
    that a wait has given is [K_SUCCESS]; and after [k] answers at least [k] of these
    transitions have been made, but the start-up is one of them: what an answer to the
    client's request stands for is that the request before it has been done. *)
Theorem answers_lag_behind (p : protocol) :
  protocol_reachable p →
  (∃ waiting, MACHINE_STATE_STARTUP :: asked p
     = (omap ended_of (log (em p))).*1 ++ in_progress (em p) ++ waiting) ∧
  all_success (answers p) ∧
  length (answers p) ≤ length (omap success_of (log (em p))).
Proof.
  intros Hr. pose proof (protocol_em_reachable p Hr) as Hem.
  destruct (protocol_accounted p Hr) as [[Hall Hlen] Hord]. split_and!.
  - exists (waiting_queue (em p)). rewrite <- Hord. by apply reachable_fifo.
  - by apply Forall_app in Hall as [Hall _].
  - destruct (reachable_commit _ Hem) as [_ Hc].
    rewrite Hc, length_fmap, length_app in Hlen. lia.
Qed.

(** ** A call that nobody will answer *)












(** ** Runs *)

Fixpoint play_protocol (hs : list happening) (p : protocol) : option protocol :=
  match hs with
  | [] => Some p
  | h :: hs => p' ← happen h p; play_protocol hs p'
  end.

Lemma play_protocol_steps hs p p' : play_protocol hs p = Some p' → rtc protocol_step p p'.
Proof.
  revert p. induction hs as [|h hs IH]; intros p H; cbn in H; [by injection H as <-|].
  destruct (happen h p) as [p1|] eqn:Hh; [|done]. eapply rtc_l; [by exists h|by apply IH].
Qed.


Definition demo_protocol : protocol := mk_protocol demo_start MachineStateClient.init [] [] [].

Lemma demo_protocol_reachable hs p :
  play_protocol hs demo_protocol = Some p → protocol_reachable p.
Proof.
  intros H. exists demo_protocol. split; [|by eapply play_protocol_steps].
  constructor. exact demo_initial.
Qed.

Definition turns (n : nat) : list happening := replicate n (Worker all_alive).

(** The Machine State Manager registers and reports; the start-up is made. *)
Definition started_up : list happening :=
  [OtherRequest (register_rpc 42 "MSM"); RegisterClient (Replied StateError.K_SUCCESS)] ++
  turns 8 ++ [OtherRequest (reportApplicationState_rpc "msm_main" 1)] ++ turns 3.

(** It asks for [Living], and gets its answer before the transition has begun. *)
Definition answered_early : list happening :=
  started_up ++ [AskFor 42 "Living" None; Arrives 0; WaitEnds].

Definition protocol_after (hs : list happening) : protocol :=
  default demo_protocol (play_protocol hs demo_protocol).

Example first_answer_is_the_start_up :
  let p := protocol_after answered_early in
  answers p = [StateError.K_SUCCESS] ∧ asked p = ["Living"] ∧
  m_currentState (m_em (sv (em p))) = "Starting-up" ∧
  omap ended_of (log (em p)) = [("Starting-up", StateError.K_SUCCESS)].
Proof. vm_compute. done. Qed.

Lemma answered_early_plays : play_protocol answered_early demo_protocol = Some (protocol_after answered_early).
Proof.
  assert (isSome (play_protocol answered_early demo_protocol) = true) as Hs by (vm_compute; reflexivity).
  unfold protocol_after. by destruct (play_protocol answered_early demo_protocol).
Qed.

Lemma answers_lag_behind_witness :
  (∃ waiting, MACHINE_STATE_STARTUP :: asked (protocol_after answered_early)
     = (omap ended_of (log (em (protocol_after answered_early)))).*1 ++
       in_progress (em (protocol_after answered_early)) ++ waiting) ∧
  all_success (answers (protocol_after answered_early)) ∧
  length (answers (protocol_after answered_early))
    ≤ length (omap success_of (log (em (protocol_after answered_early)))).
Proof.
  exact (answers_lag_behind (protocol_after answered_early)
    (demo_protocol_reachable _ _ answered_early_plays)).
Defined.





