(* ===== verification/SocketServer.v ===== *)
(** * Socket server of the Machine State Manager

    [applications/MachineStateManager/src/socket_server.cpp]: a thread that accepts one
    client, receives requested states from it and puts them in a queue, from which
    [getData] takes them. The calls of the socket interface are effects; what they
    return comes from the environment. *)

From Stdlib Require Import Ascii.
From stdpp Require Import base list strings numbers.
From S2P Require Import Prelude CppString Queues.

Local Open Scope Z_scope.

Definition BUFFER_SIZE : Z := 100000.

(** What [recv] returns: the bytes put in the buffer, or a result that is not positive
    (the peer has closed, or an error). *)
Inductive recv_result :=
  | Bytes (bytes : string)
  | NotPositive.

(** [std::string{buff}]: up to the first null byte. The buffer has been cleared before
    [recv], so there is one unless the buffer is full. *)
Definition string_of_buffer (buffer_size : Z) (bytes : string) : outcome string :=
  match first_index zero bytes with
  | Some i => Ret (str_take i bytes)
  | None => if size bytes <? buffer_size then Ret bytes else Stop Undefined
  end.

Module SocketServer.
Record t := mk {
  m_isAlive : bool;
  m_receivedData : SafeQueue.t;
  m_worker : bool;
}.

(** The calls of [ISocketInterface]. *)
Inductive call := Socket | Bind | Listen | Accept | Recv | Close.

(** The constructor goes on after errors, which are only logged. *)
Definition construct : list call * t := ([Socket; Bind; Listen], mk true (SafeQueue.mk []) false).

Definition startServer (s : t) : t := mk (m_isAlive s) (m_receivedData s) true.
Definition closeServer (s : t) : t := mk false (m_receivedData s) (m_worker s).

(** One turn of the listener's loop: whether it goes on. *)
Definition receive (r : recv_result) (s : t) : outcome (t * bool) :=
  match r with
  | NotPositive => Ret (s, false)
  | Bytes bytes =>
      res ← string_of_buffer BUFFER_SIZE bytes;
      let s := mk (m_isAlive s) (SafeQueue.push res (m_receivedData s)) (m_worker s) in
      Ret (s, m_isAlive s)
  end.

(** [dataListener] after [accept]: a [do] loop. Between two turns other threads take
    data and may close the server; [rs] are the results [recv] returns and what the
    others do before the loop's condition is tested. When they are used up, the
    listener waits in [recv]. *)
Fixpoint dataListener (rs : list (recv_result * (t → t))) (s : t) : t * outcome unit :=
  match rs with
  | [] => (s, Stop Blocked)
  | (r, others) :: rs =>
      match receive r s with
      | Ret (s', _) =>
          match r with
          | NotPositive => (s', Ret tt)
          | Bytes _ =>
              let s' := others s' in
              if m_isAlive s' then dataListener rs s' else (s', Ret tt)
          end
      | Stop w => (s, Stop w)
      end
  end.

(** [getData]: asks the queue until it has an element; it blocks for ever when none
    comes. *)
Definition getData (s : t) : t * outcome string :=
  match SafeQueue.pop "" (m_receivedData s) with
  | (true, str, q) => (mk (m_isAlive s) q (m_worker s), Ret str)
  | (false, _, _) => (s, Stop Blocked)
  end.

(** The destructor joins the listener, which may wait in [recv]. *)
Definition destruct_server (listener : outcome unit) (s : t) : list call * outcome unit :=
  if m_worker s then
    match listener with
    | Ret _ => ([Close], Ret tt)
    | Stop w => ([], Stop w)
    end
  else ([Close], Ret tt).

Definition data (s : t) : list string := SafeQueue.m_data (m_receivedData s).

(** The messages the listener takes from the client. *)
Fixpoint messages (rs : list recv_result) : list string :=
  match rs with
  | Bytes b :: rs =>
      match string_of_buffer BUFFER_SIZE b with Ret m => m :: messages rs | Stop _ => [] end
  | _ => []
  end.

(** Left alone, the listener queues the client's messages in order, up to the first
    failure of [recv], and nothing else. *)
Lemma dataListener_queues (rs : list recv_result) (s : t) :
  m_isAlive s = true →
  data (dataListener ((λ r, (r, λ s, s)) <$> rs) s).1 = data s ++ messages rs.
Proof.
  revert s. induction rs as [|[b|] rs IH]; intros s Ha; cbn; [by rewrite app_nil_r| |by rewrite app_nil_r].
  destruct (string_of_buffer BUFFER_SIZE b) as [m|w]; cbn; [|by rewrite app_nil_r].
  rewrite Ha. rewrite IH by done. unfold data. cbn. by rewrite <- app_assoc.
Qed.
End SocketServer.
