(* ===== verification/MachineStateManager.v ===== *)
(** * Machine State Manager

    [applications/MachineStateManager/src/machine_state_manager.cpp],
    [msm_state_machine.cpp] and [msm_main.cpp]: an application that receives requested
    machine states, saves them in a persistent storage and asks the Execution Manager
    for them. The clients and the socket server it calls are effects; the requested
    states that arrive and the answers to the requests come from the environment. *)

From stdpp Require Import base list gmap strings numbers.
From S2P Require Import Prelude CppString Constants Json Kvs.

Definition STATE_KEY : string := "state".
Definition applicationName : string := "MSM".

(** The states of the application ([MsmState] and its subclasses). *)
Inductive MsmState := Init | Run | ShutDown.

(** There is no state in which it is suspended. *)
Definition MsmStateFactory : IStateFactory MsmState := {|
  createInit := Some Init;
  createRun := Some Run;
  createShutDown := Some ShutDown;
  createSuspend := None;
|}.

Definition getApplicationState (st : MsmState) : Z :=
  match st with
  | Init => ApplicationState.K_INITIALIZING
  | Run => ApplicationState.K_RUNNING
  | ShutDown => ApplicationState.K_SHUTTINGDOWN
  end.

(** The calls to the clients and the socket server. *)
Inductive msm_call :=
  | ReportApplicationState (state : Z)
  | RegisterMsm (name : string) (timeout : Z)
  | CallSetMachineState (state : string) (timeout : Z)
  | StartServer
  | CloseServer.

Module MSM.
Record t := mk {
  m_currentState : option MsmState;
  m_persistentStorage : KeyValueStorage;
  m_availableStates : list string;
  (** the static variable of [getNewStateForStartRun] *)
  firstRun : bool;
  (** the files of the disk *)
  files : disk;
  (** the requested states that the socket server will deliver *)
  received : list string;
  (** the answers of [SetMachineState], exceptions included *)
  answers : list (outcome StateError.t);
}.

Definition upd_state f s := mk (f (m_currentState s)) (m_persistentStorage s)
  (m_availableStates s) (firstRun s) (files s) (received s) (answers s).
Definition upd_first f s := mk (m_currentState s) (m_persistentStorage s)
  (m_availableStates s) (f (firstRun s)) (files s) (received s) (answers s).
Definition upd_received f s := mk (m_currentState s) (m_persistentStorage s)
  (m_availableStates s) (firstRun s) (files s) (f (received s)) (answers s).
Definition upd_answers f s := mk (m_currentState s) (m_persistentStorage s)
  (m_availableStates s) (firstRun s) (files s) (received s) (f (answers s)).
Definition upd_storage kvs d s := mk (m_currentState s) kvs
  (m_availableStates s) (firstRun s) d (received s) (answers s).
End MSM.

Section msm.
Context `{Text} (writable : string → bool).
(** The order of evaluation of [m_data[key] = value]. *)
Context (right_first : bool).
(** The answer to the registration. *)
Context (registered : StateError.t).

Notation M := (cpp MSM.t msm_call).

(** The constructor: the storage and the manifest are read before. *)
Definition construct_msm (available : list string) (kvs : KeyValueStorage) (d : disk)
    (received : list string) (answers : list (outcome StateError.t)) : MSM.t :=
  MSM.mk None kvs available true d received answers.

Definition reportApplicationState (state : Z) : M unit := emit (ReportApplicationState state).

Definition registerMsm (name : string) : M StateError.t :=
  emit (RegisterMsm name DEFAULT_RESPONSE_TIMEOUT);; mret registered.

Definition timeout_for (state : string) : Z :=
  if decide (MACHINE_STATE_SHUTTINGDOWN = state) then NO_TIMEOUT else DEFAULT_RESPONSE_TIMEOUT.

Definition setMachineState (state : string) : M StateError.t :=
  emit (CallSetMachineState state (timeout_for state));;
  s ← get;
  match MSM.answers s with
  | [] => halt Blocked
  | a :: rest => modify (MSM.upd_answers (λ _, rest));; lift a
  end.

(** [m_newStatesProvider->getData()]. *)
Definition getData : M string :=
  s ← get;
  match MSM.received s with
  | [] => halt Blocked
  | str :: rest => modify (MSM.upd_received (λ _, rest));; mret str
  end.

(** The state saved before, unless it is the one that shuts down. *)
Definition saved_state (kvs : KeyValueStorage) : outcome (option string) :=
  lastState ← GetValue STATE_KEY kvs;
  if decide (KvsType.GetType lastState = KvsType.kString) then
    str ← KvsType.GetString lastState;
    if decide (MACHINE_STATE_SHUTTINGDOWN = str) then Ret None else Ret (Some str)
  else Ret None.

Definition getNewStateForStartRun : M string :=
  first ← gets MSM.firstRun;
  if (first : bool) then
    modify (MSM.upd_first (λ _, false));;
    kvs ← gets MSM.m_persistentStorage;
    saved ← lift (saved_state kvs);
    match saved with
    | Some str => mret str
    | None => getData
    end
  else getData.

(** The loop of [getNewState]; every turn takes one of the states that arrive. *)
Fixpoint getNewState_loop (fuel : nat) (newState : string) : M string :=
  available ← gets MSM.m_availableStates;
  if decide (newState ∈ available) then mret newState
  else
    match fuel with
    | O => halt Blocked
    | S fuel => str ← getData; getNewState_loop fuel str
    end.

Definition getNewState : M string :=
  newState ← getNewStateForStartRun;
  left ← gets (length ∘ MSM.received);
  getNewState_loop left newState.

(** [saveReceivedState]: the future of [std::async] is destroyed at the end of the
    statement, which waits for the task; its exceptions are lost. *)
Definition saveReceivedState (state : string) : M unit :=
  s ← get;
  let '(kvs, o) := SetValue right_first STATE_KEY (KvsType.of_string state)
                     (MSM.m_persistentStorage s) in
  let '(d, o) := match o with
                 | Ret _ => SyncToStorage writable (MSM.files s) kvs
                 | Stop w => (MSM.files s, Stop w)
                 end in
  modify (MSM.upd_storage kvs d);;
  match o with
  | Ret _ | Stop (Thrown _) => mret tt
  | Stop w => halt w
  end.

(** ** The states *)

(** One turn of the loop of [Run::enter]. *)
Definition run_turn : M string :=
  state ← getNewState;
  saveReceivedState state;;
  setMachineState state;;
  mret state.

Fixpoint run_loop (fuel : nat) : M unit :=
  match fuel with
  | O => halt Blocked
  | S fuel =>
      state ← run_turn;
      if decide (state = MACHINE_STATE_SHUTTINGDOWN) then mret tt else run_loop fuel
  end.

(** Every turn but the first takes a state that has arrived. *)
Definition run_fuel (s : MSM.t) : nat := S (S (length (MSM.received s))).

(** [enter] of the three states. *)
Definition enter (st : MsmState) : M unit :=
  match st with
  | Init =>
      reportApplicationState (getApplicationState Init);;
      registerMsm applicationName;;
      emit StartServer
  | Run => fuel ← gets run_fuel; run_loop fuel
  | ShutDown =>
      emit CloseServer;;
      reportApplicationState (getApplicationState ShutDown)
  end.

Definition leave (st : MsmState) : M unit :=
  match st with
  | Init => reportApplicationState ApplicationState.K_RUNNING
  | _ => mret tt
  end.

(** ** The application *)

(** The new state is entered: a null pointer is dereferenced when there is none. *)
Definition enter_new (next : option MsmState) : M unit :=
  modify (MSM.upd_state (λ _, next));;
  match next with Some st => enter st | None => halt Undefined end.

Definition msm_init : M unit := enter_new (createInit MsmStateFactory).

(** [m_currentState->leave()]: without a state, a null pointer is dereferenced. *)
Definition transitToNextState (nextState : option MsmState) : M unit :=
  current ← gets MSM.m_currentState;
  match current with
  | None => halt Undefined
  | Some st => leave st;; enter_new nextState
  end.

Definition msm_run : M unit := transitToNextState (createRun MsmStateFactory).
Definition msm_terminate : M unit := transitToNextState (createShutDown MsmStateFactory).

(** [main], from the construction to [exit]; the loop in between only waits for a
    signal. *)
Definition msm_main : M unit := msm_init;; msm_run;; msm_terminate.
End msm.

(** ** What the application asks for *)

(** The state saved in a storage that holds the entries of [m]. *)
Definition saved (m : gmap string string) : option string :=
  match m !! STATE_KEY with
  | Some v => if decide (MACHINE_STATE_SHUTTINGDOWN = v) then None else Some v
  | None => None
  end.

(** The states [getNewState] looks at: the saved one first, then those that arrive. *)
Definition inputs (s : MSM.t) (m : gmap string string) : list string :=
  (if MSM.firstRun s then option_list (saved m) else []) ++ MSM.received s.

(** The first one that is available, and what follows it. *)
Fixpoint next_available (available xs : list string) : option (string * list string) :=
  match xs with
  | [] => None
  | x :: xs => if decide (x ∈ available) then Some (x, xs) else next_available available xs
  end.

(** The available ones up to the first that shuts down, and whether there is one. *)
Fixpoint requested (available xs : list string) : list string * bool :=
  match xs with
  | [] => ([], false)
  | x :: xs =>
      if decide (x ∈ available) then
        if decide (x = MACHINE_STATE_SHUTTINGDOWN) then ([x], true)
        else let '(r, e) := requested available xs in (x :: r, e)
      else requested available xs
  end.

Lemma requested_next available xs :
  requested available xs =
    match next_available available xs with
    | None => ([], false)
    | Some (x, rest) =>
        if decide (x = MACHINE_STATE_SHUTTINGDOWN) then ([x], true)
        else let '(r, e) := requested available rest in (x :: r, e)
    end.
Proof. induction xs as [|x xs IH]; cbn; [done|]. by case_decide. Qed.

Lemma next_available_length available xs x rest :
  next_available available xs = Some (x, rest) → length rest < length xs.
Proof.
  induction xs as [|y xs IH]; cbn; [done|]. case_decide; [intros [= -> ->]; lia|].
  intros Hn%IH. lia.
Qed.

Lemma next_available_elem available xs x rest :
  next_available available xs = Some (x, rest) → x ∈ available.
Proof. induction xs as [|y xs IH]; cbn; [done|]. by case_decide; [intros [= <- _]|]. Qed.

Lemma requested_elem available xs x :
  x ∈ (requested available xs).1 → x ∈ available.
Proof.
  induction xs as [|y xs IH]; cbn; [by intros ?%elem_of_nil|]. case_decide; [|done].
  case_decide; cbn; [by intros ->%list_elem_of_singleton|].
  destruct (requested available xs) as [r e]. cbn in *. by intros [->|?]%elem_of_cons; [|apply IH].
Qed.

(** ** What the operations do *)

Section proofs.
Context `{TextLaws} (writable : string → bool) (right_first : bool) (registered : StateError.t).

Definition storage_holds (s : MSM.t) (m : gmap string string) : Prop :=
  represents (m_data (MSM.m_persistentStorage s)) m.

Lemma saved_state_holds kvs m :
  represents (m_data kvs) m → saved_state kvs = Ret (saved m).
Proof.
  intros Hr. unfold saved_state, saved. destruct kvs as [db data].
  destruct (represents_get db data m STATE_KEY Hr) as [_ ->]. cbn.
  destruct (m !! STATE_KEY) as [v|]; cbn; unfold KvsType.GetString; cbn;
    repeat (case_decide; cbn); done.
Qed.

(** The state after [getNewState] has taken what comes before [rest]. *)
Definition settled (rest : list string) (s : MSM.t) : MSM.t :=
  MSM.upd_received (λ _, rest) (MSM.upd_first (λ _, false) s).

Lemma getNewState_loop_spec fuel x s :
  length (MSM.received s) ≤ fuel →
  getNewState_loop fuel x s =
    match next_available (MSM.m_availableStates s) (x :: MSM.received s) with
    | Some (y, rest) => ([], MSM.upd_received (λ _, rest) s, Ret y)
    | None => ([], MSM.upd_received (λ _, []) s, Stop Blocked)
    end.
Proof.
  revert x s. induction fuel as [|fuel IH]; intros x s Hf;
    cbn [getNewState_loop next_available]; cbv [mbind cpp_bind gets]; case_decide; [| |by destruct s|].
  - by destruct s.
  - destruct s as [? ? ? ? ? [|y ys] ?]; [done|cbn in Hf; lia].
  - unfold getData. destruct s as [cs kvs av fr d [|y ys] an]; cbv [mbind cpp_bind get]; cbn in *; [done|].
    rewrite IH by (cbn; lia). cbn. case_decide; [done|].
    by destruct (next_available av ys) as [[??]|].
Qed.

Lemma getNewState_spec s m :
  storage_holds s m →
  getNewState s =
    match next_available (MSM.m_availableStates s) (inputs s m) with
    | Some (y, rest) => ([], settled rest s, Ret y)
    | None => ([], settled [] s, Stop Blocked)
    end.
Proof.
  intros Hs. unfold getNewState, getNewStateForStartRun, inputs, settled.
  assert (∀ s, (getData ≫= λ x, gets (length ∘ MSM.received) ≫= λ n, getNewState_loop n x) s =
    match next_available (MSM.m_availableStates s) (MSM.received s) with
    | Some (y, rest) => ([], MSM.upd_received (λ _, rest) s, Ret y)
    | None => ([], MSM.upd_received (λ _, []) s, Stop Blocked)
    end) as Hdata.
  { clear. intros [cs kvs av fr d [|x xs] an]; [done|]. unfold getData.
    cbv [mbind cpp_bind get gets modify mret cpp_ret]. cbn.
    rewrite getNewState_loop_spec by done. cbn. case_decide; [done|].
    by destruct (next_available av xs) as [[??]|]. }
  destruct s as [cs kvs av [] d xs an]; cbn [MSM.firstRun MSM.received MSM.m_availableStates].
  - cbv [mbind cpp_bind gets modify lift]. cbn -[getNewState_loop next_available].
    rewrite (saved_state_holds kvs m) by exact Hs. destruct (saved m) as [v|].
    + cbn -[getNewState_loop next_available]. rewrite getNewState_loop_spec by done. cbn.
      case_decide; [done|]. by destruct (next_available av xs) as [[??]|].
    + specialize (Hdata (MSM.mk cs kvs av false d xs an)).
      cbv [mbind cpp_bind gets] in Hdata. cbn -[getNewState_loop next_available getData] in *.
      destruct (getData _) as [[tr s'] [x|w]]; cbn -[getNewState_loop next_available] in *;
        [|rewrite Hdata; by destruct (next_available av xs) as [[??]|]].
      destruct (getNewState_loop _ x s') as [[tr' s''] o]. rewrite Hdata.
      by destruct (next_available av xs) as [[??]|].
  - specialize (Hdata (MSM.mk cs kvs av false d xs an)).
    cbv [mbind cpp_bind gets] in Hdata |- *. cbn -[getNewState_loop next_available getData] in *.
    destruct (getData _) as [[tr s'] [x|w]]; cbn -[getNewState_loop next_available] in *;
      [|rewrite Hdata; by destruct (next_available av xs) as [[??]|]].
    destruct (getNewState_loop _ x s') as [[tr' s''] o]. rewrite Hdata.
    by destruct (next_available av xs) as [[??]|].
Qed.

(** Saving a state makes no call, returns, and changes the entry; what is then in the
    file is the storage, when it can be written. *)
Lemma saveReceivedState_spec x s m :
  storage_holds s m →
  ∃ data d, saveReceivedState writable right_first x s
      = ([], MSM.upd_storage (mk_kvs (dbLocation (MSM.m_persistentStorage s)) data) d s, Ret tt) ∧
    represents data (<[STATE_KEY := x]> m) ∧
    (writable (dbLocation (MSM.m_persistentStorage s)) = true → (dump data).2 = Ret tt →
     construct_kvs d (dbLocation (MSM.m_persistentStorage s))
       = Ret (mk_kvs (dbLocation (MSM.m_persistentStorage s)) data)).
Proof.
  intros Hs. destruct (represents_set right_first STATE_KEY x _ _ Hs) as (data & Hset & Hr).
  exists data, (SyncToStorage writable (MSM.files s) (mk_kvs (dbLocation (MSM.m_persistentStorage s)) data)).1.
  split; [|split; [done|]].
  - unfold saveReceivedState. cbv [mbind cpp_bind get]. rewrite Hset.
    destruct (sync_outcome writable (MSM.files s) (dbLocation (MSM.m_persistentStorage s)) data _ Hr)
      as [Ho|[e Ho]];
      destruct (SyncToStorage writable (MSM.files s) _) as [d o]; cbn in Ho |- *; by rewrite Ho.
  - intros Hw Hd. eapply sync_restart; [done|done|]. unfold SyncToStorage. cbn.
    by destruct (dump data) as [text o].
Qed.
(** The storage holds [m], and so does a storage constructed from the file. *)
Definition persisted (s : MSM.t) (m : gmap string string) : Prop :=
  storage_holds s m ∧
  (writable (dbLocation (MSM.m_persistentStorage s)) = true →
   (dump (m_data (MSM.m_persistentStorage s))).2 = Ret tt →
   construct_kvs (MSM.files s) (dbLocation (MSM.m_persistentStorage s))
     = Ret (MSM.m_persistentStorage s)).

Definition request_of (x : string) : msm_call := CallSetMachineState x (timeout_for x).

Lemma run_turn_spec s m r rest_answers :
  storage_holds s m → MSM.answers s = Ret r :: rest_answers →
  match next_available (MSM.m_availableStates s) (inputs s m) with
  | None => run_turn writable right_first s = ([], settled [] s, Stop Blocked)
  | Some (x, rest) =>
      ∃ s', run_turn writable right_first s = ([request_of x], s', Ret x) ∧
        MSM.m_currentState s' = MSM.m_currentState s ∧
        MSM.m_availableStates s' = MSM.m_availableStates s ∧ MSM.firstRun s' = false ∧
        MSM.received s' = rest ∧ MSM.answers s' = rest_answers ∧
        dbLocation (MSM.m_persistentStorage s') = dbLocation (MSM.m_persistentStorage s) ∧
        persisted s' (<[STATE_KEY := x]> m)
  end.
Proof.
  intros Hs Ha. unfold run_turn. cbv [mbind cpp_bind]. rewrite (getNewState_spec s m Hs).
  destruct (next_available _ (inputs s m)) as [[x rest]|]; [|done].
  destruct (saveReceivedState_spec x (settled rest s) m Hs) as (data & d & -> & Hr & Hc).
  destruct s as [cs [db kd] av fr fl rc an]. cbn in Ha, Hc |- *. subst an.
  eexists. split; [reflexivity|]. do 6 (split; [done|]). exact (conj Hr Hc).
Qed.

Lemma run_turn_unanswered s m :
  storage_holds s m → next_available (MSM.m_availableStates s) (inputs s m) = None →
  run_turn writable right_first s = ([], settled [] s, Stop Blocked).
Proof. 
  intros Hs Hn. unfold run_turn. cbv [mbind cpp_bind]. by rewrite (getNewState_spec s m Hs), Hn.
Qed.

Lemma run_loop_spec fuel s m :
  storage_holds s m → length (inputs s m) < fuel →
  Forall (λ a, ∃ r, a = Ret r) (MSM.answers s) →
  length (requested (MSM.m_availableStates s) (inputs s m)).1 ≤ length (MSM.answers s) →
  ∃ s', run_loop writable right_first fuel s
      = (request_of <$> (requested (MSM.m_availableStates s) (inputs s m)).1, s',
         if (requested (MSM.m_availableStates s) (inputs s m)).2 then Ret tt else Stop Blocked) ∧
    dbLocation (MSM.m_persistentStorage s') = dbLocation (MSM.m_persistentStorage s) ∧
    MSM.m_availableStates s' = MSM.m_availableStates s ∧
    MSM.m_currentState s' = MSM.m_currentState s ∧
    match list.last (requested (MSM.m_availableStates s) (inputs s m)).1 with
    | None => MSM.m_persistentStorage s' = MSM.m_persistentStorage s ∧ MSM.files s' = MSM.files s
    | Some x => persisted s' (<[STATE_KEY := x]> m)
    end.
Proof.
  revert s m. induction fuel as [|fuel IH]; intros s m Hs Hf Hall Hlen; [lia|].
  cbn [run_loop]. rewrite requested_next in Hlen |- *.
  destruct (next_available (MSM.m_availableStates s) (inputs s m)) as [[x rest]|] eqn:Hn.
  - destruct (MSM.answers s) as [|a as_] eqn:Ha.
    { exfalso. case_decide; [|destruct (requested _ rest)]; cbn in Hlen; lia. }
    apply list.Forall_cons in Hall as [[r ->] Hall].
    pose proof (run_turn_spec s m r as_ Hs Ha) as Ht. rewrite Hn in Ht.
    destruct Ht as (s1 & Hrun & Hcur & Hav & Hfr & Hrc & Han & Hdb & Hp).
    apply next_available_length in Hn.
    cbv [mbind cpp_bind]. rewrite Hrun. case_decide as Hx.
    + exists s1. done.
    + assert (inputs s1 (<[STATE_KEY:=x]> m) = rest) as Hi by (unfold inputs; by rewrite Hfr).
      destruct (IH s1 (<[STATE_KEY:=x]> m)) as (s' & Hloop & Hdb' & Hav' & Hcur' & Hlast).
      { apply Hp. }
      { rewrite Hi. lia. }
      { by rewrite Han. }
      { rewrite Hi, Hav, Han. destruct (requested _ rest). cbn in *. lia. }
      rewrite Hi, Hav in Hloop, Hlast.
      destruct (requested _ rest) as [rs e]. cbn in Hloop, Hlast |- *.
      exists s'. rewrite Hloop. split; [done|]. split; [by rewrite Hdb'|]. split; [by rewrite Hav'|].
      split; [by rewrite Hcur'|].
      destruct (list.last rs) as [y|] eqn:Hl.
      * rewrite last_cons, Hl. by rewrite insert_insert_eq in Hlast.
      * apply last_None in Hl as ->. cbn. destruct Hlast as [Hk Hd]. unfold persisted, storage_holds.
        by rewrite Hk, Hd.
  - exists (settled [] s). split; [|done]. cbv [mbind cpp_bind].
    by rewrite (run_turn_unanswered s m).
Qed.

Lemma inputs_length s m : length (inputs s m) < run_fuel s.
Proof.
  unfold inputs, run_fuel. rewrite length_app.
  destruct (MSM.firstRun s); [|cbn; lia]. destruct (saved m); cbn; lia.
Qed.

(** The fuel of the loop is enough: a run is described without it. *)
Lemma enter_run_spec s m :
  storage_holds s m → Forall (λ a, ∃ r, a = Ret r) (MSM.answers s) →
  length (requested (MSM.m_availableStates s) (inputs s m)).1 ≤ length (MSM.answers s) →
  ∃ s', enter writable right_first registered Run s
      = (request_of <$> (requested (MSM.m_availableStates s) (inputs s m)).1, s',
         if (requested (MSM.m_availableStates s) (inputs s m)).2 then Ret tt else Stop Blocked) ∧
    dbLocation (MSM.m_persistentStorage s') = dbLocation (MSM.m_persistentStorage s) ∧
    MSM.m_availableStates s' = MSM.m_availableStates s ∧
    MSM.m_currentState s' = MSM.m_currentState s ∧
    match list.last (requested (MSM.m_availableStates s) (inputs s m)).1 with
    | None => MSM.m_persistentStorage s' = MSM.m_persistentStorage s ∧ MSM.files s' = MSM.files s
    | Some x => persisted s' (<[STATE_KEY := x]> m)
    end.
Proof.
  intros Hs Hall Hlen.
  destruct (run_loop_spec (run_fuel s) s m Hs (inputs_length s m) Hall Hlen) as (s' & Hr & Hrest).
  exists s'. split; [|done]. cbn [enter]. cbv [mbind cpp_bind gets]. by rewrite Hr.
Qed.

(** In the state Run the Machine State Manager asks for exactly these states, in
    this order, each once: the state saved before the restart, if it is available and
    does not shut down, then every available state that arrives, up to the first that
    shuts down; states that are not available are passed over. It leaves the state when
    it has asked to shut down, whatever the answers are, and waits for ever otherwise. *)
Theorem msm_requests (s : MSM.t) (m : gmap string string) :
  storage_holds s m → Forall (λ a, ∃ r, a = Ret r) (MSM.answers s) →
  length (requested (MSM.m_availableStates s) (inputs s m)).1 ≤ length (MSM.answers s) →
  run_trace (enter writable right_first registered Run s)
    = request_of <$> (requested (MSM.m_availableStates s) (inputs s m)).1 ∧
  run_outcome (enter writable right_first registered Run s)
    = if (requested (MSM.m_availableStates s) (inputs s m)).2 then Ret tt else Stop Blocked.
Proof.
  intros Hs Hall Hlen. destruct (enter_run_spec s m Hs Hall Hlen) as (s' & -> & _). done.
Qed.

Definition leave_calls (st : MsmState) : list msm_call :=
  match st with Init => [ReportApplicationState ApplicationState.K_RUNNING] | _ => [] end.

Lemma transitToNextState_spec s st next :
  MSM.m_currentState s = Some st →
  transitToNextState writable right_first registered (Some next) s =
    match enter writable right_first registered next (MSM.upd_state (λ _, Some next) s) with
    | (tr, s', o) => (leave_calls st ++ tr, s', o)
    end.
Proof.
  intros Hst. unfold transitToNextState, enter_new. cbv [mbind cpp_bind gets modify]. rewrite Hst.
  destruct st; cbn -[enter]; by destruct (enter _ _ _ next _) as [[??]?].
Qed.

Lemma msm_main_run (s : MSM.t) (m : gmap string string) :
  storage_holds s m → Forall (λ a, ∃ r, a = Ret r) (MSM.answers s) →
  length (requested (MSM.m_availableStates s) (inputs s m)).1 ≤ length (MSM.answers s) →
  let '(states, ended) := requested (MSM.m_availableStates s) (inputs s m) in
  run_trace (msm_main writable right_first registered s) =
    [ReportApplicationState ApplicationState.K_INITIALIZING;
     RegisterMsm applicationName DEFAULT_RESPONSE_TIMEOUT; StartServer;
     ReportApplicationState ApplicationState.K_RUNNING] ++
    (request_of <$> states) ++
    (if (ended : bool)
     then [CloseServer; ReportApplicationState ApplicationState.K_SHUTTINGDOWN] else []) ∧
  run_outcome (msm_main writable right_first registered s) = if ended then Ret tt else Stop Blocked.
Proof.
  intros Hs Hall Hlen.
  destruct (enter_run_spec (MSM.upd_state (λ _, Some Run) s) m Hs Hall Hlen)
    as (s' & Hr & _ & _ & Hcur & _).
  change (inputs (MSM.upd_state (λ _, Some Run) s) m) with (inputs s m) in Hr.
  cbn [MSM.upd_state MSM.m_availableStates MSM.m_currentState] in Hr, Hcur.
  destruct (requested (MSM.m_availableStates s) (inputs s m)) as [states ended].
  cbn [fst snd] in Hr. unfold msm_main.
  rewrite (run_bind _ _ _ _ (MSM.upd_state (λ _, Some Init) s) tt) by reflexivity.
  assert (msm_run writable right_first registered (MSM.upd_state (λ _, Some Init) s)
    = (ReportApplicationState ApplicationState.K_RUNNING :: (request_of <$> states), s',
       if ended then Ret tt else Stop Blocked)) as Hrun.
  { unfold msm_run. cbn [createRun MsmStateFactory]. rewrite (transitToNextState_spec _ Init) by done.
    change (MSM.upd_state _ (MSM.upd_state _ s)) with (MSM.upd_state (λ _, Some Run) s).
    by rewrite Hr. }
  destruct ended.
  - rewrite (run_bind _ _ _ _ s' tt) by exact Hrun. unfold msm_terminate. cbn [createShutDown MsmStateFactory].
    rewrite (transitToNextState_spec _ Run) by done. done.
  - rewrite (run_bind_stop _ _ _ _ s' Blocked) by exact Hrun.
    unfold run_trace, run_outcome. cbn. by rewrite app_nil_r.
Qed.
(** C21: The whole program: it reports Initializing, registers, starts its server,
    reports Running and asks for states as in [msm_requests]; once it has asked to shut
    down it closes the server and reports Shutting-down. The answer to the registration
    changes nothing. *)
Theorem msm_main_calls (s : MSM.t) (m : gmap string string) :
  storage_holds s m → Forall (λ a, ∃ r, a = Ret r) (MSM.answers s) →
  length (requested (MSM.m_availableStates s) (inputs s m)).1 ≤ length (MSM.answers s) →
  let '(states, ended) := requested (MSM.m_availableStates s) (inputs s m) in
  run_trace (msm_main writable right_first registered s) =
    [ReportApplicationState ApplicationState.K_INITIALIZING;
     RegisterMsm applicationName DEFAULT_RESPONSE_TIMEOUT; StartServer;
     ReportApplicationState ApplicationState.K_RUNNING] ++
    (request_of <$> states) ++
    (if (ended : bool)
     then [CloseServer; ReportApplicationState ApplicationState.K_SHUTTINGDOWN] else []) ∧
  run_outcome (msm_main writable right_first registered s) = if ended then Ret tt else Stop Blocked.
Proof. apply msm_main_run. Qed.
End proofs.

(** ** Examples *)

Definition demo_states : list string :=
  [MACHINE_STATE_STARTUP; MACHINE_STATE_RUNNING; MACHINE_STATE_LIVING; MACHINE_STATE_SHUTTINGDOWN].

Definition demo_msm (received : list string) : MSM.t :=
  construct_msm demo_states (mk_kvs "data.json" JNull) ∅ received
    (replicate 3 (Ret StateError.K_SUCCESS)).

#[local] Existing Instance Kvs.demo_text.
#[local] Existing Instance Kvs.demo_text_laws.

Lemma demo_holds received : storage_holds (demo_msm received) ∅.
Proof. by left. Qed.

Lemma demo_answers received :
  Forall (λ a, ∃ r, a = Ret r) (MSM.answers (demo_msm received)).
Proof. repeat constructor; by eexists. Qed.

Lemma msm_requests_witness :
  run_trace (enter (λ _, true) true StateError.K_SUCCESS Run
      (demo_msm ["Running"; "Nowhere"; "Living"; "Shuttingdown"; "Running"]))
    = request_of <$> ["Running"; "Living"; "Shuttingdown"] ∧
  run_outcome (enter (λ _, true) true StateError.K_SUCCESS Run
      (demo_msm ["Running"; "Nowhere"; "Living"; "Shuttingdown"; "Running"])) = Ret tt.
Proof.
  refine (msm_requests (λ _, true) true StateError.K_SUCCESS _ ∅ (demo_holds _) (demo_answers
    ["Running"; "Nowhere"; "Living"; "Shuttingdown"; "Running"]) _).
  vm_compute. lia.
Defined.

Lemma msm_main_calls_witness :
  run_trace (msm_main (λ _, true) true StateError.K_TIMEOUT (demo_msm ["Running"])) =
    [ReportApplicationState ApplicationState.K_INITIALIZING;
     RegisterMsm applicationName DEFAULT_RESPONSE_TIMEOUT; StartServer;
     ReportApplicationState ApplicationState.K_RUNNING] ++
    (request_of <$> ["Running"]) ++ [] ∧
  run_outcome (msm_main (λ _, true) true StateError.K_TIMEOUT (demo_msm ["Running"])) = Stop Blocked.
Proof.
  refine (msm_main_calls (λ _, true) true StateError.K_TIMEOUT _ ∅ (demo_holds _)
    (demo_answers ["Running"]) _).
  vm_compute. lia.
Defined.

