(* ===== verification/BaseServer.v ===== *)
(** * Sockets of the components

    [common/base_client] and [common/base_server]: the client with which the Execution
    Manager sends a component its state, and the server in the component. The calls of
    the socket interfaces are answered by the environment; bytes that have not been
    written (the receive buffer is not initialised) are the environment's as well. *)

From Stdlib Require Import Ascii.
From stdpp Require Import base list strings numbers.
From S2P Require Import Prelude CppString Constants Common Queues.

Local Open Scope Z_scope.

(** ** Addresses *)

(** The size of [sockaddr_un::sun_path]. *)
Definition SUN_PATH_SIZE : Z := 108.

(** [path.copy(addr.sun_path, path.size() + 1)] into a cleared address copies the whole
    path; beyond the array the behaviour is undefined. *)
Definition copy_path (path : string) : outcome string :=
  if SUN_PATH_SIZE <? size path then Stop Undefined else Ret path.

(** The path of a component's server. *)
Definition server_path (componentName : string) : string :=
  COMPONENT_SOCKET_NAME +:+ "_" +:+ componentName.

(** The path the Execution Manager's client connects to; [m_componentAddress] is what
    [em_main.cpp] passes. *)
Definition m_componentAddress : string := IPC_PROTOCOL +:+ COMPONENT_SOCKET_NAME.
Definition client_path (componentName : string) : string := m_componentAddress +:+ componentName.

(** ** [base_client::Client] *)

Module Client.
Record t := mk {
  m_connected : bool;
  m_sun_path : string;
  m_client_fd : Z;
  m_recvBytes : Z;
}.

(** The constructor creates a socket; an error is only logged. The number of received
    bytes is not initialised; nothing reads it before [receive] has written it. *)
Definition construct (path : string) (fd : Z) : outcome t :=
  p ← copy_path path; Ret (mk false p fd 0).

Definition connect (result : Z) (c : t) : t :=
  if 0 <=? result then mk true (m_sun_path c) (m_client_fd c) (m_recvBytes c) else c.

Definition setClientFd (fd : Z) (c : t) : t :=
  mk (m_connected c) (m_sun_path c) fd (m_recvBytes c).
Definition setConnected (connected : bool) (c : t) : t :=
  mk connected (m_sun_path c) (m_client_fd c) (m_recvBytes c).
Definition isConnected (c : t) : bool := m_connected c.
Definition getClientFd (c : t) : Z := m_client_fd c.
Definition getRecvBytes (c : t) : Z := m_recvBytes c.

(** [receive]: [recv] has written [bytes] (none when its result is not positive) at the
    beginning of a buffer whose other bytes are [leftover]; the buffer is read as a
    string up to its first null byte, and beyond its end when there is none. *)
Definition receive (result : Z) (bytes leftover : string) (c : t) : t * outcome string :=
  let c := mk (m_connected c) (m_sun_path c) (m_client_fd c) result in
  (c, match first_index zero (bytes +:+ leftover) with
      | Some i => Ret (str_take i (bytes +:+ leftover))
      | None => Stop Undefined
      end).

(** [sendMessage]: the bytes are sent whether or not the socket is connected, and the
    result of [send] is not looked at. *)
Definition sendMessage (serialized : option string) (c : t) : option (Z * string) :=
  data ← serialized; Some (m_client_fd c, data).
End Client.

(** [ProxyClientFactory::makeProxyClient]: the socket of the constructor is forgotten. *)
Definition makeProxyClient (created fd : Z) : outcome Client.t :=
  client ← Client.construct SOCKET_CLIENT_PATH created;
  Ret (Client.setConnected true (Client.setClientFd fd client)).

(** ** [base_server::Connection] *)

Module Connection.
Record t := mk { m_connectedCli : option Client.t }.

Definition construct : t := mk None.

(** [acceptConnection]: the descriptor, or -1 when [accept] or [fcntl] fails. [fcntl] sets
    the descriptor's flags and not the status flags, so the socket goes on blocking. *)
Definition acceptConnection (accepted fcntl_result : Z) : Z :=
  if fcntl_result =? -1 then -1 else accepted.

Definition creatAcceptedClient (accepted fcntl_result created : Z) (c : t) : outcome t :=
  let fd := acceptConnection accepted fcntl_result in
  if 0 <? fd then client ← makeProxyClient created fd; Ret (mk (Some client)) else Ret c.

(** Without a client a null pointer is dereferenced. *)
Definition receiveData (result : Z) (bytes leftover : string) (c : t) : t * outcome string :=
  match m_connectedCli c with
  | None => (c, Stop Undefined)
  | Some cli => let '(cli, o) := Client.receive result bytes leftover cli in (mk (Some cli), o)
  end.

Definition getRecvBytes (c : t) : outcome Z :=
  match m_connectedCli c with None => Stop Undefined | Some cli => Ret (Client.getRecvBytes cli) end.
End Connection.

(** ** [base_server::Server] *)

(** What [recv] gives a connection: its result, the bytes, and the rest of the buffer. *)
Record reception := mk_reception { r_result : Z; r_bytes : string; r_leftover : string }.

Module Server.
Record t := mk {
  m_isStarted : bool;
  m_sun_path : string;
  m_activeConnections : list Connection.t;
  m_recvDataQueue : SafeQueue.t;
}.

Definition construct (componentName : string) : outcome t :=
  p ← copy_path (server_path componentName); Ret (mk false p [] (SafeQueue.mk [])).

Definition start (s : t) : t :=
  mk true (m_sun_path s) (m_activeConnections s) (m_recvDataQueue s).
Definition stop (s : t) : t :=
  mk false (m_sun_path s) (m_activeConnections s) (m_recvDataQueue s).

(** One turn of [onRunning]: the connection is kept also when nothing was accepted. *)
Definition onRunning (accepted fcntl_result created : Z) (s : t) : outcome t :=
  conn ← Connection.creatAcceptedClient accepted fcntl_result created Connection.construct;
  Ret (mk (m_isStarted s) (m_sun_path s) (m_activeConnections s ++ [conn]) (m_recvDataQueue s)).

(** [readFromSocket] of a connection: the connection afterwards, what is queued, and
    whether the connection is erased. *)
Definition readFromSocket (r : reception) (conn : Connection.t) :
    outcome (Connection.t * list string * bool) :=
  let '(conn, o) := Connection.receiveData (r_result r) (r_bytes r) (r_leftover r) conn in
  recv ← o;
  n ← Connection.getRecvBytes conn;
  Ret (conn, (if 0 <? n then [recv] else []), n =? 0).

(** One turn of [handleConnections]: a range-based loop over the vector. Erasing from it
    invalidates the iterators of the loop, so going on is undefined. *)
Fixpoint read_all (rs : list reception) (conns : list Connection.t) (q : SafeQueue.t) :
    outcome (list Connection.t * SafeQueue.t) :=
  match rs, conns with
  | r :: rs, conn :: conns =>
      '(conn, received, erased) ← readFromSocket r conn;
      if (erased : bool) then Stop Undefined
      else
        '(conns, q) ← read_all rs conns (foldl (λ q m, SafeQueue.push m q) q received);
        Ret (conn :: conns, q)
  | _, _ => Ret (conns, q)
  end.

Definition handleConnections (rs : list reception) (s : t) : outcome t :=
  '(conns, q) ← read_all rs (m_activeConnections s) (m_recvDataQueue s);
  Ret (mk (m_isStarted s) (m_sun_path s) conns q).

Definition getQueueElement (data : string) (s : t) : bool * string * t :=
  let '(found, data, q) := SafeQueue.pop data (m_recvDataQueue s) in
  (found, data, mk (m_isStarted s) (m_sun_path s) (m_activeConnections s) q).
End Server.

(** ** [ExecutionManagerClient::SetComponentState] *)

(** [pComponentClientReturnType] of [gen/enums.proto]. *)
Inductive pComponentClientReturnType := kSuccess | kGeneralError | kPending | kInvalid | kUnchanged.

(** Every call makes a client of its own, whose socket is [created], connects it and
    sends; [pack] is the protobuf library: a message with the state, wrapped in an [Any]
    and serialised. What comes out is the client, what it has sent, and the result. *)
Definition SetComponentState (pack : string → option string) (state componentName : string)
    (created connected : Z) : outcome (Client.t * option (Z * string) * pComponentClientReturnType) :=
  client ← Client.construct (client_path componentName) created;
  let client := Client.connect connected client in
  Ret (client, Client.sendMessage (pack state) client, kSuccess).

(** ** What is delivered *)

(** The messages the Execution Manager sends to components never reach them: the
    path its client connects to begins with the protocol prefix and lacks the underscore,
    so it is not the path any component's server listens on. The call nevertheless sends
    on the socket and returns success, whether or not the connection was made. *)
Theorem component_paths_differ (pack : string → option string) (state name component : string)
    (created connected : Z) (client : Client.t) (sent : option (Z * string))
    (result : pComponentClientReturnType) (s : Server.t) :
  SetComponentState pack state name created connected = Ret (client, sent, result) →
  Server.construct component = Ret s →
  Client.m_sun_path client ≠ Server.m_sun_path s ∧
  sent = (pair created <$> pack state) ∧ result = kSuccess.
Proof.
  unfold SetComponentState, Client.construct, Server.construct, copy_path.
  destruct (SUN_PATH_SIZE <? size (client_path name)); [done|].
  destruct (SUN_PATH_SIZE <? size (server_path component)); [done|].
  intros [= <- <- <-] [= <-]. cbn [Client.m_sun_path Server.m_sun_path].
  unfold Client.connect. destruct (0 <=? connected); cbn [Client.m_sun_path];
    (split; [unfold client_path, server_path, m_componentAddress; by rewrite str_app_assoc|]);
    split; try done; by destruct (pack state).
Qed.

Lemma component_paths_differ_witness :
  "unix:/tmp/component_managementAdaptiveApplication1_proc1" ≠ "/tmp/component_management_AdaptiveApplication1_proc1" ∧
  Some (4, "kOn") = Some (4, "kOn") ∧ kSuccess = kSuccess.
Proof.
  apply (component_paths_differ Some "kOn" "AdaptiveApplication1_proc1" "AdaptiveApplication1_proc1"
    4 (-1) (Client.mk false "unix:/tmp/component_managementAdaptiveApplication1_proc1" 4 0) (Some (4, "kOn"))
    kSuccess (Server.mk false "/tmp/component_management_AdaptiveApplication1_proc1" [] (SafeQueue.mk [])));
    vm_compute; reflexivity.
Defined.

Lemma first_index_app_None c s t :
  first_index c s = None → first_index c (s +:+ t) = (λ i, (String.length s + i)%nat) <$> first_index c t.
Proof.
  induction s as [|d s IH]; [intros _; rewrite str_app_nil_l; by destruct (first_index c t)|].
  rewrite str_app_cons. cbn. case_decide; [done|]. intros H1.
  rewrite IH by (by destruct (first_index c s)). by destruct (first_index c t).
Qed.

(** A message without null bytes is received exactly when the first byte after it in
    the buffer, which nothing has written, happens to be null; otherwise bytes of an
    earlier message or of the stack are appended to it. *)
Theorem receive_exact (result : Z) (message leftover : string) (c : Client.t) :
  first_index zero message = None →
  (Client.receive result message leftover c).2 = Ret message ↔
    ∃ rest, leftover = String zero rest.
Proof.
  intros Hm. unfold Client.receive. cbn [snd]. rewrite first_index_app_None by done.
  destruct leftover as [|d rest].
  { cbn. split; [done|]. by intros [? ?]. }
  cbn. case_decide as Hd; cbn.
  - subst d. rewrite Nat.add_0_r, str_take_app. split; [eauto|done].
  - split; [|intros [? [= ->]]; done].
    destruct (first_index zero rest) as [i|]; cbn; [|done]. intros [= He]. exfalso.
    assert (String.length (str_take (String.length message + S i) (message +:+ String d rest))
      = String.length message) as Hl by by rewrite He.
    clear He Hm Hd. induction message as [|x message IH]; cbn in Hl; [done|].
    rewrite str_app_cons in Hl. cbn in Hl. injection Hl as Hl. by apply IH.
Qed.

(** A reception that gives a string. *)
Definition message_of (r : reception) : option string :=
  match (Client.receive (r_result r) (r_bytes r) (r_leftover r) (Client.mk true "" 0 0)).2 with
  | Ret s => Some s
  | Stop _ => None
  end.

(** The messages of the receptions with a positive result. *)
Definition delivered (rs : list reception) : list string :=
  omap (λ r, if 0 <? r_result r then message_of r else None) rs.

Definition has_client (conn : Connection.t) : Prop := is_Some (Connection.m_connectedCli conn).

Lemma readFromSocket_spec r conn s :
  has_client conn → message_of r = Some s →
  ∃ conn', Server.readFromSocket r conn
    = Ret (conn', (if 0 <? r_result r then [s] else []), r_result r =? 0) ∧ has_client conn'.
Proof.
  destruct conn as [[cli|]]; [intros _|by intros [? ?]]. unfold message_of.
  unfold Server.readFromSocket, Connection.receiveData, Client.receive.
  destruct (first_index zero _) as [i|]; [|done]. cbn. intros [= <-].
  eexists. split; [reflexivity|]. by eexists.
Qed.

Lemma push_all l q : SafeQueue.m_data (foldl (λ q m, SafeQueue.push m q) q l) = SafeQueue.m_data q ++ l.
Proof.
  revert q. induction l as [|m l IH]; intros q; cbn; [by rewrite app_nil_r|].
  rewrite IH. cbn. by rewrite <- app_assoc.
Qed.

(** One pass over the connections queues the received messages in the order of the
    connections, when every connection has a client and none has been closed by its peer;
    when one has, the pass has no defined behaviour, because it is erased from the vector
    the loop runs over. *)
Theorem connections_read (rs : list reception) (s : Server.t) :
  length rs = length (Server.m_activeConnections s) →
  Forall has_client (Server.m_activeConnections s) →
  Forall (λ r, is_Some (message_of r)) rs →
  if bool_decide (Exists (λ r, r_result r = 0) rs)
  then Server.handleConnections rs s = Stop Undefined
  else ∃ s', Server.handleConnections rs s = Ret s' ∧
    SafeQueue.m_data (Server.m_recvDataQueue s') =
      SafeQueue.m_data (Server.m_recvDataQueue s) ++ delivered rs ∧
    length (Server.m_activeConnections s') = length rs ∧
    Forall has_client (Server.m_activeConnections s').
Proof.
  destruct s as [st p conns q]. unfold Server.handleConnections. cbn. intros Hl Hc Hr.
  enough (if bool_decide (Exists (λ r, r_result r = 0) rs)
    then Server.read_all rs conns q = Stop Undefined
    else ∃ conns' q', Server.read_all rs conns q = Ret (conns', q') ∧
      SafeQueue.m_data q' = SafeQueue.m_data q ++ delivered rs ∧
      length conns' = length rs ∧ Forall has_client conns') as H.
  { case_bool_decide; [by rewrite H|]. destruct H as (conns' & q' & -> & ? & ? & ?). cbn. eauto. }
  revert conns q Hl Hc Hr. induction rs as [|r rs IH]; intros [|conn conns] q Hl Hc Hr; try done.
  { rewrite bool_decide_eq_false_2 by (intros ?%Exists_nil; done).
    exists [], q. cbn. by rewrite app_nil_r. }
  injection Hl as Hl. apply list.Forall_cons in Hc as [Hc Hcs], Hr as [[m Hm] Hrs].
  destruct (readFromSocket_spec r conn m Hc Hm) as (conn' & Hread & Hc').
  cbn [Server.read_all]. rewrite Hread. cbn [mbind outcome_bind].
  destruct (Z.eqb_spec (r_result r) 0) as [H0|H0].
  { rewrite bool_decide_eq_true_2; [done|]. by left. }
  set (q1 := foldl _ q _). specialize (IH conns q1 Hl Hcs Hrs).
  assert (SafeQueue.m_data q1 ++ delivered rs = SafeQueue.m_data q ++ delivered (r :: rs)) as Hq.
  { subst q1. rewrite push_all, <- app_assoc. f_equal. unfold delivered. cbn.
    destruct (0 <? r_result r); [by rewrite Hm|done]. }
  rewrite (bool_decide_ext _ (Exists (λ r, r_result r = 0) rs)).
  2:{ rewrite Exists_cons. tauto. }
  case_bool_decide; [by rewrite IH|]. destruct IH as (conns' & q' & -> & Hd & Hlen & Hall).
  cbn. eexists _, _. split; [reflexivity|]. rewrite Hd, Hq. cbn. eauto.
Qed.

(** A connection whose [accept] has failed is kept without a client, and the next
    pass over the connections dereferences a null pointer. *)
Theorem failed_accept_undefined (accepted fcntl_result created : Z) (r : reception)
    (rs : list reception) (s s' : Server.t) :
  Connection.acceptConnection accepted fcntl_result <= 0 →
  Server.m_activeConnections s = [] →
  Server.onRunning accepted fcntl_result created s = Ret s' →
  Server.handleConnections (r :: rs) s' = Stop Undefined.
Proof.
  intros Ha Hs. unfold Server.onRunning, Connection.creatAcceptedClient.
  destruct (Z.ltb_spec 0 (Connection.acceptConnection accepted fcntl_result)); [lia|]. cbn.
  rewrite Hs. by intros [= <-].
Qed.

Definition demo_server (conns : list Connection.t) : Server.t :=
  Server.mk true "" conns (SafeQueue.mk []).
Definition demo_connection : Connection.t := Connection.mk (Some (Client.mk true "" 5 0)).
Definition demo_receptions : list reception :=
  [mk_reception 3 "kOn" (String zero "junk"); mk_reception (-1) "" (String zero "")].

Lemma connections_read_witness :
  ∃ s', Server.handleConnections demo_receptions (demo_server [demo_connection; demo_connection]) = Ret s' ∧
    SafeQueue.m_data (Server.m_recvDataQueue s') = ["kOn"] ∧
    length (Server.m_activeConnections s') = 2%nat ∧
    Forall has_client (Server.m_activeConnections s').
Proof.
  refine (connections_read demo_receptions (demo_server [demo_connection; demo_connection]) eq_refl _ _);
    repeat constructor; by eexists.
Defined.

Lemma receive_exact_witness :
  (Client.receive 3 "kOn" "junk" (Client.mk true "" 5 0)).2 = Ret "kOn" ↔
    ∃ rest, "junk" = String zero rest.
Proof. by apply (receive_exact 3 "kOn" "junk" (Client.mk true "" 5 0)). Defined.

Lemma failed_accept_undefined_witness :
  Server.onRunning (-1) (-1) 4 (demo_server []) = Ret (demo_server [Connection.mk None]) ∧
  Server.handleConnections demo_receptions (demo_server [Connection.mk None]) = Stop Undefined.
Proof.
  split; [reflexivity|].
  by apply (failed_accept_undefined (-1) (-1) 4 _ _ (demo_server []) (demo_server [Connection.mk None])).
Defined.
