(* ===== verification/ServerThreads.v ===== *)
(** * The two threads of a component's server

    [server.cpp] with its threads as the code has them: [onRunning] accepts and pushes the
    connection under the mutex, [handleConnections] holds the mutex while it reads from
    every connection, and the owner starts, takes messages from the queue and stops.
    [BaseServer] and [Sockets] take whole turns; here the turns are interleaved step by
    step, with each other and with the peers, and it is shown when that makes no
    difference, and what a silent or a closed peer does. *)

From Stdlib Require Import Ascii.
From stdpp Require Import base list gmap strings numbers relations.
From S2P Require Import Prelude Temporal CppString Constants Queues BaseServer.

Local Open Scope Z_scope.

(** ** The peers *)

(** The other end of a connection: the bytes it has sent that have not been received,
    and whether it may send more. *)
Record peer := mk_peer { sent : string; is_open : bool }.

(** [recv] as the manual describes it on a connection that blocks: some of the bytes that
    have come, at most the given number (the rest of the buffer is not written); 0 when
    the peer has closed and everything has been received. When nothing has come and the
    peer has not closed, the call does not return: [acceptConnection] has set a flag of
    the descriptor, not of its status. Errors of the call are left out. *)
Inductive received (pr : peer) : reception → peer → Prop :=
  | recv_some n leftover :
      (0 < n <= String.length (sent pr))%nat → Z.of_nat n <= RECV_BUFFER_SIZE - 1 →
      Z.of_nat (n + String.length leftover) = RECV_BUFFER_SIZE →
      received pr (mk_reception (Z.of_nat n) (str_take n (sent pr)) leftover)
        (mk_peer (str_drop n (sent pr)) (is_open pr))
  | recv_end leftover :
      sent pr = "" → is_open pr = false → size leftover = RECV_BUFFER_SIZE →
      received pr (mk_reception 0 "" leftover) pr.

(** ** The threads *)

(** [onRunning]: before the test of the loop, in [accept], before the mutex. *)
Inductive acceptor_pc := AOff | ATest | AAccept | APush (conn : Connection.t) | AEnd.

(** [handleConnections]: before the test, before the mutex, about to read from the
    connection of this index (the mutex is held). *)
Inductive receiver_pc := ROff | RTest | RLock | RRead (i : nat) | REnd.

(** The owner: free, in the two joins of [stop], after it. *)
Inductive owner_pc := OFree | OJoinServer | OJoinReceive | OStopped.

Record threads := mk_threads {
  srv : Server.t;
  acceptor : acceptor_pc;
  receiver : receiver_pc;
  owner : owner_pc;
  peers : gmap Z peer;
}.

Notation conns s := (Server.m_activeConnections (srv s)).
Notation messages s := (SafeQueue.m_data (Server.m_recvDataQueue (srv s))).

(** [readFromSocket] of the connection of index [i]. *)
Definition read_next (r : reception) (i : nat) (s : Server.t) : outcome Server.t :=
  match Server.m_activeConnections s !! i with
  | None => Stop Undefined
  | Some conn =>
      '(conn, received, erased) ← Server.readFromSocket r conn;
      if (erased : bool) then Stop Undefined
      else Ret (Server.mk (Server.m_isStarted s) (Server.m_sun_path s)
                  (<[i := conn]> (Server.m_activeConnections s))
                  (foldl (λ q m, SafeQueue.push m q) (Server.m_recvDataQueue s) received))
  end.

Definition push_accepted (conn : Connection.t) (s : Server.t) : Server.t :=
  Server.mk (Server.m_isStarted s) (Server.m_sun_path s) (Server.m_activeConnections s ++ [conn])
    (Server.m_recvDataQueue s).

Definition fd_of (conn : Connection.t) : option Z := Client.m_client_fd <$> Connection.m_connectedCli conn.

Definition has_mutex (p : receiver_pc) : bool := match p with RRead _ => true | _ => false end.
Definition not_running (p : acceptor_pc) : bool := match p with AOff | AEnd => true | _ => false end.
Definition receives (p : receiver_pc) : bool := match p with ROff | REnd => false | _ => true end.

Inductive tlabel :=
  | LOwner
  | LStop
  | LAcceptor
  | LArrival
  | LReceiver
  | LPeer (fd : Z)
  | LNothing.

Inductive tstep : tlabel → threads → threads → Prop :=
  | t_start s ps :
      tstep LOwner (mk_threads s AOff ROff OFree ps) (mk_threads (Server.start s) ATest RTest OFree ps)
  | t_pop s a rcv ps data result :
      Server.getQueueElement data s = result →
      tstep LOwner (mk_threads s a rcv OFree ps) (mk_threads result.2 a rcv OFree ps)
  | t_stop s a rcv ps :
      tstep LStop (mk_threads s a rcv OFree ps) (mk_threads (Server.stop s) a rcv OJoinServer ps)
  | t_join_server s a rcv ps :
      not_running a = true →
      tstep LOwner (mk_threads s a rcv OJoinServer ps) (mk_threads s a rcv OJoinReceive ps)
  | t_join_receive s a rcv ps :
      receives rcv = false →
      tstep LOwner (mk_threads s a rcv OJoinReceive ps) (mk_threads s a rcv OStopped ps)
  | t_accept_test s rcv o ps :
      tstep LAcceptor (mk_threads s ATest rcv o ps)
        (mk_threads s (if Server.m_isStarted s then AAccept else AEnd) rcv o ps)
  | t_accepted s rcv o ps fd pr fcntl_result created conn :
      0 <= fd → ps !! fd = None →
      Connection.creatAcceptedClient fd fcntl_result created Connection.construct = Ret conn →
      tstep LArrival (mk_threads s AAccept rcv o ps) (mk_threads s (APush conn) rcv o (<[fd := pr]> ps))
  | t_accept_fails s rcv o ps created conn :
      Connection.creatAcceptedClient (-1) (-1) created Connection.construct = Ret conn →
      tstep LArrival (mk_threads s AAccept rcv o ps) (mk_threads s (APush conn) rcv o ps)
  | t_push s rcv o ps conn :
      has_mutex rcv = false →
      tstep LAcceptor (mk_threads s (APush conn) rcv o ps) (mk_threads (push_accepted conn s) ATest rcv o ps)
  | t_receive_test s a o ps :
      tstep LReceiver (mk_threads s a RTest o ps)
        (mk_threads s a (if Server.m_isStarted s then RLock else REnd) o ps)
  | t_lock s a o ps : tstep LReceiver (mk_threads s a RLock o ps) (mk_threads s a (RRead 0) o ps)
  | t_unlock s a o ps i :
      (length (Server.m_activeConnections s) <= i)%nat →
      tstep LReceiver (mk_threads s a (RRead i) o ps) (mk_threads s a RTest o ps)
  | t_read s a o ps i conn fd pr r pr' s' :
      Server.m_activeConnections s !! i = Some conn → fd_of conn = Some fd → ps !! fd = Some pr →
      received pr r pr' → read_next r i s = Ret s' →
      tstep LReceiver (mk_threads s a (RRead i) o ps) (mk_threads s' a (RRead (S i)) o (<[fd := pr']> ps))
  | t_sends s a rcv o ps fd bytes more :
      ps !! fd = Some (mk_peer bytes true) →
      tstep (LPeer fd) (mk_threads s a rcv o ps)
        (mk_threads s a rcv o (<[fd := mk_peer (bytes +:+ more) true]> ps))
  | t_closes s a rcv o ps fd bytes :
      ps !! fd = Some (mk_peer bytes true) →
      tstep (LPeer fd) (mk_threads s a rcv o ps) (mk_threads s a rcv o (<[fd := mk_peer bytes false]> ps))
  | t_nothing s : tstep LNothing s s.

Definition tenabled (l : tlabel) (s : threads) : Prop := ∃ s', tstep l s s'.

(** A server that has been made. *)
Definition made (s : threads) : Prop :=
  ∃ componentName srv0, Server.construct componentName = Ret srv0 ∧
    s = mk_threads srv0 AOff ROff OFree ∅.

Definition treachable (s : threads) : Prop :=
  ∃ s0, made s0 ∧ rtc (λ s s', ∃ l, tstep l s s') s0 s.

Lemma treachable_ind (I : threads → Prop) :
  (∀ s, made s → I s) → (∀ l s s', treachable s → I s → tstep l s s' → I s') → ∀ s, treachable s → I s.
Proof.
  intros Hmade Hstep s (s0 & H0 & Hr). revert s Hr. apply (rtc_ind_r (λ s, I s)); [by apply Hmade|].
  intros s s' Hr [l Hs] HI. eapply Hstep; [|exact HI|exact Hs]. by exists s0.
Qed.

(** ** What a read does *)

Lemma readFromSocket_inv r conn conn' l erased :
  Server.readFromSocket r conn = Ret (conn', l, erased) →
  is_Some (fd_of conn) ∧ fd_of conn' = fd_of conn ∧ erased = (r_result r =? 0).
Proof.
  unfold Server.readFromSocket, Connection.receiveData, Client.receive, fd_of.
  destruct conn as [[cl|]]; [|done]. cbn. destruct (first_index zero _); [|done].
  cbn. intros [= <- _ <-]. cbn. eauto.
Qed.

Lemma read_next_inv r i s s' :
  read_next r i s = Ret s' →
  ∃ conn conn' l, Server.m_activeConnections s !! i = Some conn ∧
    Server.readFromSocket r conn = Ret (conn', l, false) ∧ fd_of conn' = fd_of conn ∧ r_result r ≠ 0 ∧
    s' = Server.mk (Server.m_isStarted s) (Server.m_sun_path s) (<[i := conn']> (Server.m_activeConnections s))
           (foldl (λ q m, SafeQueue.push m q) (Server.m_recvDataQueue s) l).
Proof.
  unfold read_next. destruct (Server.m_activeConnections s !! i) as [conn|] eqn:Hi; [|done].
  destruct (Server.readFromSocket r conn) as [[[conn' l] erased]|w] eqn:Hr; [|done]. cbn.
  destruct erased; [done|]. intros [= <-]. apply readFromSocket_inv in Hr as Hinv.
  destruct Hinv as (_ & Hfd & He). exists conn, conn', l. split_and!; try done.
  intros H0. by rewrite H0 in He.
Qed.

(** A read does not change who is connected. *)
Lemma read_next_fds r i s s' k :
  read_next r i s = Ret s' →
  (Server.m_activeConnections s' !! k) ≫= fd_of = (Server.m_activeConnections s !! k) ≫= fd_of.
Proof.
  intros (conn & conn' & l & Hi & _ & Hfd & _ & ->)%read_next_inv. cbn.
  destruct (decide (i = k)) as [<-|Hne]; [|by rewrite list_lookup_insert_ne].
  rewrite list_lookup_insert_eq by (by eapply lookup_lt_Some). by rewrite Hi.
Qed.

Lemma read_next_length r i s s' :
  read_next r i s = Ret s' →
  length (Server.m_activeConnections s') = length (Server.m_activeConnections s).
Proof. intros (conn & conn' & l & _ & _ & _ & _ & ->)%read_next_inv. cbn. by rewrite length_insert. Qed.

Lemma received_result pr r pr' : received pr r pr' → 0 <= r_result r ∧ is_open pr' = is_open pr.
Proof. intros [n leftover ? _ _|leftover _ _ _]; cbn; (split; [lia|done]). Qed.

Lemma str_drop_length n s : String.length (str_drop n s) = (String.length s - n)%nat.
Proof. revert n. induction s as [|c s IH]; intros [|n]; cbn; done || apply IH. Qed.

Lemma received_less pr r pr' :
  received pr r pr' → r_result r ≠ 0 → (String.length (sent pr') < String.length (sent pr))%nat.
Proof. intros [n leftover Hn _ _|leftover _ _ _]; cbn; [|done]. rewrite str_drop_length. lia. Qed.

(** ** The mutex *)

(** A step of the pass of [handleConnections], or of anybody else while it lasts. *)
Definition in_pass (s s' : threads) : Prop := (∃ l, tstep l s s') ∧ has_mutex (receiver s') = true.

Lemma read_all_snoc rs r conns conns1 q q1 conn conn' l :
  Server.read_all rs conns q = Ret (conns1, q1) → conns1 !! length rs = Some conn →
  Server.readFromSocket r conn = Ret (conn', l, false) →
  Server.read_all (rs ++ [r]) conns q
    = Ret (<[length rs := conn']> conns1, foldl (λ q m, SafeQueue.push m q) q1 l).
Proof.
  intros Hall Hi Hr. revert conns conns1 q Hall Hi. induction rs as [|r0 rs IH]; intros conns conns1 q; cbn.
  - intros [= <- <-]. destruct conns as [|c conns]; [done|]. intros [= ->]. by rewrite Hr.
  - destruct conns as [|c conns]; [by intros [= <- <-]|]. cbn.
    destruct (Server.readFromSocket r0 c) as [[[c' l0] [|]]|]; cbn; [done| |done].
    destruct (Server.read_all rs conns _) as [[cs q2]|] eqn:He; [|done]. cbn.
    intros [= <- <-] Hi. cbn in Hi. by rewrite (IH _ _ _ He Hi).
Qed.

Lemma read_all_length rs conns q conns' q' :
  Server.read_all rs conns q = Ret (conns', q') → length conns' = length conns.
Proof.
  revert conns q conns' q'. induction rs as [|r rs IH]; intros conns q conns' q'; [by intros [= <- _]|].
  destruct conns as [|c conns]; [by intros [= <- _]|]. cbn.
  destruct (Server.readFromSocket r c) as [[[c' l] [|]]|]; cbn; [done| |done].
  destruct (Server.read_all rs conns _) as [[cs q2]|] eqn:He; [|done]. cbn.
  intros [= <- _]. cbn. f_equal. by eapply IH.
Qed.

Lemma push_all_data l q : SafeQueue.m_data (foldl (λ q m, SafeQueue.push m q) q l) = SafeQueue.m_data q ++ l.
Proof. apply push_all. Qed.

(** What is known in the middle of a pass that began in [s0]. *)
Definition partial_pass (s0 s : threads) (i : nat) : Prop :=
  ∃ rs q popped, length rs = i ∧ (i <= length (conns s0))%nat ∧ Forall (λ r, 0 < r_result r) rs ∧
    Server.read_all rs (conns s0) (Server.m_recvDataQueue (srv s0)) = Ret (conns s, q) ∧
    SafeQueue.m_data q = popped ++ messages s.

Lemma partial_pass_queue s0 s s' i popped :
  conns s' = conns s → messages s = popped ++ messages s' → partial_pass s0 s i → partial_pass s0 s' i.
Proof.
  intros Hc Hm (rs & q & popped0 & Hl & Hle & Hpos & Hall & Hq).
  exists rs, q, (popped0 ++ popped). rewrite Hc. split_and!; [done..|]. by rewrite Hq, Hm, app_assoc.
Qed.

Lemma pop_messages data s :
  ∃ popped, SafeQueue.m_data (Server.m_recvDataQueue s)
      = popped ++ SafeQueue.m_data (Server.m_recvDataQueue (Server.getQueueElement data s).2) ∧
    Server.m_activeConnections (Server.getQueueElement data s).2 = Server.m_activeConnections s.
Proof.
  unfold Server.getQueueElement, SafeQueue.pop. destruct (Server.m_recvDataQueue s) as [[|m ms]]; cbn.
  - by exists [].
  - by exists [m].
Qed.

Lemma partial_pass_step s0 s s' i :
  in_pass s s' → receiver s = RRead i → partial_pass s0 s i →
  ∃ i', receiver s' = RRead i' ∧ partial_pass s0 s' i'.
Proof.
  intros [[l Hs] Hm] Hr Hp.
  destruct Hs as [s1 ps|s1 a rcv ps data result Hres|s1 a rcv ps|s1 a rcv ps _|s1 a rcv ps _
    |s1 rcv o ps|s1 rcv o ps fd pr fr cr conn _ _ _|s1 rcv o ps cr conn _|s1 rcv o ps conn Hno|s1 a o ps|s1 a o ps|s1 a o ps j _
    |s1 a o ps j conn fd pr r pr' s1' Hj _ _ Hrec Hread|s1 a rcv o ps fd b more _|s1 a rcv o ps fd b _|s1];
    cbn in Hr, Hm; subst; try done; try (by exists i).
  - exists i. split; [done|]. destruct (pop_messages data s1) as (popped & Hd & Hc).
    refine (partial_pass_queue _ _ _ _ popped _ _ Hp); [exact Hc|exact Hd].
  - injection Hr as ->. exists (S i). split; [done|].
    destruct Hp as (rs & q & popped & Hl & Hle & Hpos & Hall & Hq).
    apply read_all_length in Hall as Hlen.
    apply read_next_inv in Hread as (c & c' & l & Hi & Hrs & _ & Hne & ->). subst i.
    exists (rs ++ [r]), (foldl (λ q m, SafeQueue.push m q) q l), popped. cbn. split_and!.
    + rewrite length_app. cbn. lia.
    + apply lookup_lt_Some in Hi. cbn in Hlen. lia.
    + apply Forall_app_2; [done|]. constructor; [|done]. apply received_result in Hrec as [? _]. lia.
    + by eapply read_all_snoc.
    + rewrite !push_all_data, Hq. by rewrite <- app_assoc.
Qed.

Lemma pass_progress s0 s :
  rtc in_pass s0 s → receiver s0 = RRead 0 → ∃ i, receiver s = RRead i ∧ partial_pass s0 s i.
Proof.
  intros Hr H0. revert s Hr.
  apply (rtc_ind_r (λ s, ∃ i, receiver s = RRead i ∧ partial_pass s0 s i)).
  - exists 0%nat. split; [done|]. exists [], (Server.m_recvDataQueue (srv s0)), [].
    split_and!; (done || lia).
  - intros s1 s2 _ Hs (i & Hi & Hp). by eapply partial_pass_step.
Qed.

(** ** What is known of every connection *)

Record sound (s : threads) : Prop := {
  sd_conns i fd : conns s !! i ≫= fd_of = Some fd → is_Some (peers s !! fd);
  sd_pushed conn fd : acceptor s = APush conn → fd_of conn = Some fd → is_Some (peers s !! fd);
  sd_stopped : owner s = OStopped → receives (receiver s) = false ∧ not_running (acceptor s) = true;
  sd_joined : owner s = OJoinReceive → not_running (acceptor s) = true;
}.

Lemma construct_made componentName s :
  Server.construct componentName = Ret s → s = Server.mk false (server_path componentName) [] (SafeQueue.mk []).
Proof.
  unfold Server.construct, copy_path. destruct (_ <? _); cbn; [done|]. by intros [= <-].
Qed.

Lemma accepted_fd fd fr created conn fd' :
  Connection.creatAcceptedClient fd fr created Connection.construct = Ret conn → fd_of conn = Some fd' → fd' = fd ∧ 0 < fd.
Proof.
  unfold Connection.creatAcceptedClient, Connection.acceptConnection.
  destruct (fr =? -1); cbn; [by intros [= <-]|].
  destruct (Z.ltb_spec 0 fd); [|by intros [= <-]].
  unfold makeProxyClient, Client.construct, copy_path. destruct (_ <? _); [done|].
  intros [= <-] [= <-]. by split.
Qed.

Lemma treachable_sound s : treachable s → sound s.
Proof.
  revert s. apply treachable_ind.
  - intros s (name & srv0 & Hc%construct_made & ->). subst. by split.
  - intros l s s' _ [Hc Hp Ho Hj] Hs.
    assert (∀ fd x (ps : gmap Z peer) fd0, is_Some (ps !! fd0) → is_Some (<[fd:=x]> ps !! fd0)) as Hins.
    { intros fd x ps fd0 Hfd0. destruct (decide (fd = fd0)) as [->|]; [by rewrite lookup_insert_eq|].
      by rewrite lookup_insert_ne. }
    destruct Hs as [s1 ps|s1 a rcv ps data result Hres|s1 a rcv ps|s1 a rcv ps Ha|s1 a rcv ps Hrc
      |s1 rcv o ps|s1 rcv o ps fd pr fr cr conn Hfd Hnew Hcr|s1 rcv o ps cr conn Hcr|s1 rcv o ps conn Hno
      |s1 a o ps|s1 a o ps|s1 a o ps j Hlen
      |s1 a o ps j conn fd pr r pr' s1' Hi Hfd Hpr Hrec Hread|s1 a rcv o ps fd b more Hpr|s1 a rcv o ps fd b Hpr|s1];
      cbn in *; subst; split; cbn; try done; eauto.
    + destruct (pop_messages data s1) as (_ & _ & ->). exact Hc.
    + by destruct (Server.m_isStarted s1).
    + intros Heq. by apply Ho in Heq as [_ ?].
    + intros Heq. by apply Hj in Heq.
    + intros conn0 fd0 [= ->] Hfd0. destruct (accepted_fd _ _ _ _ _ Hcr Hfd0) as [-> _].
      rewrite lookup_insert_eq. by eexists.
    + intros conn0 fd0 [= ->] Hfd0. by injection Hcr as <-.
    + intros i fd. rewrite lookup_app. destruct (_ !! i) as [c|] eqn:Hi; cbn.
        * intros Hfd. apply (Hc i). by rewrite Hi.
        * destruct (i - _)%nat; cbn; [|done]. by apply Hp.
    + intros Heq. by apply Ho in Heq as [? _].
    + intros i fd0. rewrite (read_next_fds _ _ _ _ _ Hread). intros Hi'. by eapply Hins, Hc.
Qed.

(** ** Whole passes *)

(** C37: The mutex makes a pass over the connections one operation. Whatever the accepting
    thread, the owner and the peers do while it lasts, from the moment the receiving
    thread has the mutex until it has seen all connections it reads from exactly those
    that were there, as [BaseServer.Server.handleConnections] does; the queue is the one
    after this operation without what the owner has taken meanwhile; and no result was 0. *)
Theorem passes_are_whole (s0 s : threads) (i : nat) :
  receiver s0 = RRead 0 → rtc in_pass s0 s → receiver s = RRead i → (length (conns s) <= i)%nat →
  ∃ rs srv', length rs = length (conns s0) ∧ Forall (λ r, 0 < r_result r) rs ∧
    Server.handleConnections rs (srv s0) = Ret srv' ∧
    Server.m_activeConnections srv' = conns s ∧
    ∃ popped, SafeQueue.m_data (Server.m_recvDataQueue srv') = popped ++ messages s.
Proof.
  intros H0 Hr Hi Hlen. destruct (pass_progress _ _ Hr H0) as (j & Hj & Hp).
  rewrite Hi in Hj. injection Hj as <-. destruct Hp as (rs & q & popped & Hl & Hle & Hpos & Hall & Hq).
  pose proof (read_all_length _ _ _ _ _ Hall) as Hsame.
  exists rs. unfold Server.handleConnections. rewrite Hall. cbn. eexists. split; [lia|].
  split; [done|]. split; [reflexivity|]. cbn. eauto.
Qed.

(** ** A silent peer *)

(** The receiving thread waits, with the mutex, for this peer, who has sent nothing and has
    not closed. *)
Definition waits_for (fd : Z) (s : threads) : Prop :=
  ∃ i conn, receiver s = RRead i ∧ conns s !! i = Some conn ∧ fd_of conn = Some fd ∧
    peers s !! fd = Some (mk_peer "" true).

Lemma silent_not_received r pr' : ¬ received (mk_peer "" true) r pr'.
Proof. intros H. inversion H as [n l Hn _ _|l _ Ho _]; cbn in *; [lia|done]. Qed.

(** Others do not change that, nor anything else but the queue. *)
Lemma waits_for_step fd l s s' :
  tstep l s s' → l ≠ LPeer fd → waits_for fd s →
  waits_for fd s' ∧ conns s' = conns s ∧ ∃ popped, messages s = popped ++ messages s'.
Proof.
  intros Hs Hl (i & conn & Hr & Hi & Hfd & Hp). unfold waits_for.
  destruct Hs as [s1 ps|s1 a rcv ps data result Hres|s1 a rcv ps|s1 a rcv ps Ha|s1 a rcv ps Hrc
    |s1 rcv o ps|s1 rcv o ps fd' pr fr cr c Hnn Hnew Hcr|s1 rcv o ps cr c Hcr|s1 rcv o ps c Hno
    |s1 a o ps|s1 a o ps|s1 a o ps j Hlen
    |s1 a o ps j c fd' pr r pr' s1' Hj Hfd' Hpr Hrec Hread|s1 a rcv o ps fd' b more Hpr|s1 a rcv o ps fd' b Hpr|s1];
    cbn in *; subst; try done;
    try (split; [by exists i, conn|split; [done|by exists []]]).
  - destruct (pop_messages data s1) as (popped & Hd & Hc). rewrite Hc.
    split; [by exists i, conn|]. split; [done|]. by exists popped.
  - assert (fd' ≠ fd) as Hne by congruence.
    split; [|by split; [|exists []]]. exists i, conn. by rewrite lookup_insert_ne.
  - injection Hr as ->. apply lookup_lt_Some in Hi. lia.
  - simplify_eq. by apply silent_not_received in Hrec.
  - assert (fd' ≠ fd) as Hne by congruence.
    split; [|by split; [|exists []]]. exists i, conn. by rewrite lookup_insert_ne.
  - assert (fd' ≠ fd) as Hne by congruence.
    split; [|by split; [|exists []]]. exists i, conn. by rewrite lookup_insert_ne.
Qed.

(** C38: One peer that connects and sends nothing stops a component's server. Once the
    receiving thread waits for it (the descriptor does block: [F_SETFD] does not set
    [O_NONBLOCK]), it holds the mutex: as long as this peer neither sends nor closes,
    whatever everybody else does, no message is queued, no connection is added, and the
    destructor does not return. *)
Theorem silent_peer_blocks (fd : Z) (s s' : threads) :
  treachable s → waits_for fd s →
  rtc (λ s s', ∃ l, tstep l s s' ∧ l ≠ LPeer fd) s s' →
  waits_for fd s' ∧ conns s' = conns s ∧ (∃ popped, messages s = popped ++ messages s') ∧
  owner s' ≠ OStopped.
Proof.
  intros Hreach Hw Hr.
  assert (treachable s' ∧ waits_for fd s' ∧ conns s' = conns s ∧ ∃ popped, messages s = popped ++ messages s')
    as (Hreach' & Hw' & Hc & Hm).
  { revert s' Hr. apply (rtc_ind_r (λ s', treachable s' ∧ waits_for fd s' ∧ conns s' = conns s ∧
      ∃ popped, messages s = popped ++ messages s')).
    { split_and!; [done..|]. by exists []. }
    intros s1 s2 _ (l & Hs & Hl) ((s0 & H0 & Hr0) & Hw1 & Hc1 & popped1 & Hm1).
    destruct (waits_for_step _ _ _ _ Hs Hl Hw1) as (Hw2 & Hc2 & popped2 & Hm2).
    split; [exists s0; split; [done|eapply rtc_r; eauto]|]. split; [done|]. split; [congruence|].
    exists (popped1 ++ popped2). by rewrite Hm1, Hm2, app_assoc. }
  split_and!; [done..|]. intros Hst. destruct (sd_stopped _ (treachable_sound _ Hreach') Hst) as [Hrec _].
  destruct Hw' as (i & conn & Hi & _). by rewrite Hi in Hrec.
Qed.

(** ** A peer that closes *)

(** What [recv] may give for a connection; without a client it is not called. *)
Definition answers (s : threads) (conn : Connection.t) (r : reception) : Prop :=
  match fd_of conn with
  | None => True
  | Some fd => ∃ pr pr', peers s !! fd = Some pr ∧ received pr r pr'
  end.

(** The receiving thread goes on, and what it does has no defined behaviour. *)
Definition broken (s : threads) : Prop :=
  ∃ i conn, receiver s = RRead i ∧ conns s !! i = Some conn ∧ (∃ r, answers s conn r) ∧
    ∀ r, answers s conn r → read_next r i (srv s) = Stop Undefined.

Lemma str_of_length n : ∃ s, String.length s = n.
Proof. induction n as [|n [s Hs]]; [by exists ""|]. exists (String zero s). cbn. by rewrite Hs. Qed.

(** Without a client a null pointer is dereferenced; a peer that has closed is erased
    from the vector that is being iterated. *)
Lemma broken_no_client s i conn :
  receiver s = RRead i → conns s !! i = Some conn → fd_of conn = None → broken s.
Proof.
  intros Hr Hi Hfd. exists i, conn. split_and!; [done..| |].
  - exists (mk_reception 0 "" ""). unfold answers. by rewrite Hfd.
  - intros r _. unfold read_next. rewrite Hi. destruct conn as [[cl|]]; done.
Qed.

Lemma broken_closed s i conn fd pr :
  receiver s = RRead i → conns s !! i = Some conn → fd_of conn = Some fd → peers s !! fd = Some pr →
  sent pr = "" → is_open pr = false → broken s.
Proof.
  intros Hr Hi Hfd Hp Hsent Hopen. exists i, conn. split_and!; [done..| |].
  - destruct (str_of_length (Z.to_nat RECV_BUFFER_SIZE)) as [buffer Hb].
    exists (mk_reception 0 "" buffer). unfold answers. rewrite Hfd. exists pr, pr. split; [done|].
    apply recv_end; [done..|]. unfold size. by rewrite Hb.
  - unfold answers. rewrite Hfd. intros r (pr0 & pr' & Hp0 & Hrec). simplify_eq.
    unfold read_next. rewrite Hi. destruct (Server.readFromSocket r conn) as [[[c l] erased]|w] eqn:Hread; cbn.
    + apply readFromSocket_inv in Hread as (_ & _ & ->).
      inversion Hrec as [n leftover Hn _ _|leftover _ _ _]; subst; [|done]. rewrite Hsent in Hn. cbn in Hn. lia.
    + f_equal. unfold Server.readFromSocket, Connection.receiveData, Client.receive in Hread.
      destruct conn as [[cl|]]; [|done]. cbn in Hread. destruct (first_index zero _); [done|].
      cbn in Hread. congruence.
Qed.

(** The receiving thread can take its next step. *)
Definition can_go (s : threads) : Prop :=
  match receiver s with
  | RTest | RLock => True
  | RRead i =>
      match conns s !! i with
      | None => True
      | Some conn => ∃ fd pr, fd_of conn = Some fd ∧ peers s !! fd = Some pr ∧ sent pr ≠ ""
      end
  | _ => False
  end.

Lemma buffer_rest : ∃ rest, Z.of_nat (1 + String.length (String zero rest)) = RECV_BUFFER_SIZE.
Proof. destruct (str_of_length 510) as [rest Hr]. exists rest. cbn. by rewrite Hr. Qed.

Lemma message_of_one c rest : is_Some (message_of (mk_reception 1 (String c "") (String zero rest))).
Proof.
  unfold message_of, Client.receive. cbn [r_bytes r_leftover r_result snd].
  assert (is_Some (first_index zero (String c "" +:+ String zero rest))) as [i ->]; [|by eexists].
  rewrite str_app_cons, str_app_nil_l. cbn. case_decide; [by eexists|].
  rewrite decide_True by done. by eexists.
Qed.

Lemma can_go_enabled s : can_go s → tenabled LReceiver s.
Proof.
  destruct s as [sv a rcv o ps]. unfold can_go. cbn. destruct rcv as [| | |i|]; try done.
  - intros _. eexists. apply t_receive_test.
  - intros _. eexists. apply t_lock.
  - destruct (Server.m_activeConnections sv !! i) as [conn|] eqn:Hi.
    + intros (fd & [bytes op] & Hfd & Hp & Hne). cbn in Hne. destruct bytes as [|c bytes]; [done|].
      destruct buffer_rest as [rest Hrest]. destruct (message_of_one c rest) as [m Hm].
      assert (has_client conn) as Hcl by (destruct conn as [[cl|]]; [by eexists|done]).
      destruct (readFromSocket_spec _ _ _ Hcl Hm) as (conn' & Hread & _).
      eexists. eapply t_read; [exact Hi|exact Hfd|exact Hp| |].
      * apply (recv_some _ 1 (String zero rest)); [cbn; lia|done|exact Hrest].
      * change (mk_reception _ _ _) with (mk_reception 1 (String c "") (String zero rest)).
        unfold read_next. rewrite Hi, Hread. reflexivity.
    + intros _. eexists. apply t_unlock. by apply lookup_ge_None.
Qed.

(** Otherwise it waits for a silent peer, or is lost. *)
Lemma receiver_cases s :
  sound s → receives (receiver s) = true → can_go s ∨ broken s ∨ ∃ fd, waits_for fd s.
Proof.
  intros Hs Hr. unfold can_go. destruct (receiver s) as [| | |i|] eqn:Hrcv; try done; auto.
  destruct (conns s !! i) as [conn|] eqn:Hi; [|by left].
  destruct (fd_of conn) as [fd|] eqn:Hfd; [|right; left; by eapply broken_no_client].
  destruct (sd_conns _ Hs i fd) as [[bytes op] Hp]; [by rewrite Hi|].
  destruct bytes as [|c bytes]; [|left; by eexists _, _].
  right. destruct op; [right; by exists fd, i, conn|left; by eapply broken_closed].
Qed.

Lemma can_go_other l s s' :
  tstep l s s' → l ≠ LReceiver → receiver s' = receiver s → can_go s → can_go s'.
Proof.
  intros Hs Hl Hsame. unfold can_go. rewrite Hsame. destruct (receiver s) as [| | |i|] eqn:Hrcv; try done.
  assert (∀ fd x (ps : gmap Z peer) (conn : option Connection.t),
    (∀ pr, ps !! fd = Some pr → sent pr ≠ "" → sent x ≠ "") →
    match conn with None => True | Some conn => ∃ fd pr, fd_of conn = Some fd ∧ ps !! fd = Some pr ∧ sent pr ≠ "" end →
    match conn with None => True | Some conn => ∃ fd0 pr, fd_of conn = Some fd0 ∧ <[fd:=x]> ps !! fd0 = Some pr ∧ sent pr ≠ "" end)
    as Hins.
  { intros fd x ps [conn|] Hx; [|done]. intros (fd0 & pr & Hfd & Hp & Hne).
    destruct (decide (fd = fd0)) as [->|Hd].
    - exists fd0, x. rewrite lookup_insert_eq. eauto.
    - exists fd0, pr. by rewrite lookup_insert_ne. }
  destruct Hs as [s1 ps|s1 a rcv ps data result Hres|s1 a rcv ps|s1 a rcv ps Ha|s1 a rcv ps Hrc
    |s1 rcv o ps|s1 rcv o ps fd' pr fr cr c Hnn Hnew Hcr|s1 rcv o ps cr c Hcr|s1 rcv o ps c Hno
    |s1 a o ps|s1 a o ps|s1 a o ps j Hlen
    |s1 a o ps j c fd' pr r pr' s1' Hj Hfd' Hpr Hrec Hread|s1 a rcv o ps fd' b more Hpr|s1 a rcv o ps fd' b Hpr|s1];
    cbn in *; subst; try done.
  - by destruct (pop_messages data s1) as (_ & _ & ->).
  - apply Hins. congruence.
  - apply Hins. intros pr Hp. rewrite Hpr in Hp. injection Hp as <-. by destruct b.
  - apply Hins. intros pr Hp. rewrite Hpr in Hp. injection Hp as <-. done.
Qed.

Lemma started_step l s s' :
  tstep l s s' → l ≠ LStop → Server.m_isStarted (srv s) = true → Server.m_isStarted (srv s') = true.
Proof.
  intros Hs Hl Hst.
  destruct Hs as [s1 ps|s1 a rcv ps data result Hres|s1 a rcv ps|s1 a rcv ps Ha|s1 a rcv ps Hrc
    |s1 rcv o ps|s1 rcv o ps fd' pr fr cr c Hnn Hnew Hcr|s1 rcv o ps cr c Hcr|s1 rcv o ps c Hno
    |s1 a o ps|s1 a o ps|s1 a o ps j Hlen
    |s1 a o ps j c fd' pr r pr' s1' Hj Hfd' Hpr Hrec Hread|s1 a rcv o ps fd' b more Hpr|s1 a rcv o ps fd' b Hpr|s1];
    cbn in *; subst; try done.
  - unfold Server.getQueueElement. by destruct (SafeQueue.pop data _) as [[? ?] ?].
  - by apply read_next_inv in Hread as (? & ? & ? & _ & _ & _ & _ & ->).
Qed.

(** *** The way to the connection of index [k] *)

Section closing.
Context (fd : Z) (k : nat).

(** The threads run, the peer of this connection has closed, and at most [b] bytes that it
    has sent are left. *)
Record closing (b : nat) (s : threads) : Prop := {
  cl_sound : sound s;
  cl_started : Server.m_isStarted (srv s) = true;
  cl_receives : receives (receiver s) = true;
  cl_conn : conns s !! k ≫= fd_of = Some fd;
  cl_peer : ∃ bytes, peers s !! fd = Some (mk_peer bytes false) ∧ (String.length bytes <= b)%nat;
}.

(** The number of steps until the thread reads from it. *)
Definition steps_left (s : threads) : nat :=
  match receiver s with
  | RRead i =>
      if decide (i <= k)%nat then k - i
      else (length (conns s) - i) + k + 3
  | RTest => k + 2
  | RLock => k + 1
  | _ => 0
  end.

Lemma sound_step l s s' : treachable s → tstep l s s' → sound s'.
Proof.
  intros (s0 & H0 & Hr) Hs. apply treachable_sound. exists s0. split; [done|]. eapply rtc_r; [done|by exists l].
Qed.

(** Steps of the others do not change where the thread is. *)
Lemma closing_other b l s s' :
  treachable s → tstep l s s' → l ≠ LReceiver → l ≠ LStop → closing b s →
  closing b s' ∧ receiver s' = receiver s ∧ steps_left s' = steps_left s.
Proof.
  intros Hreach Hs Hl Hstop [Hsd Hst Hr Hc (bytes & Hp & Hb)].
  pose proof (sound_step _ _ _ Hreach Hs) as Hsd'. pose proof (started_step _ _ _ Hs Hstop Hst) as Hst'.
  enough (receiver s' = receiver s ∧ steps_left s' = steps_left s ∧ conns s' !! k ≫= fd_of = Some fd ∧
    ∃ bytes, peers s' !! fd = Some (mk_peer bytes false) ∧ (String.length bytes <= b)%nat)
    as (Hrs & Hleft & Hc' & Hp').
  { split; [|done]. split; try done. by rewrite Hrs. }
  clear Hsd'. unfold steps_left in *.
  destruct Hs as [s1 ps|s1 a rcv ps data result Hres|s1 a rcv ps|s1 a rcv ps Ha|s1 a rcv ps Hrc
    |s1 rcv o ps|s1 rcv o ps fd' pr fr cr c Hnn Hnew Hcr|s1 rcv o ps cr c Hcr|s1 rcv o ps c Hno
    |s1 a o ps|s1 a o ps|s1 a o ps j Hlen
    |s1 a o ps j c fd' pr r pr' s1' Hj Hfd' Hpr Hrec Hread|s1 a rcv o ps fd' b0 more Hpr|s1 a rcv o ps fd' b0 Hpr|s1];
    cbn in *; subst; try done; (split; [done|]); eauto 6.
  - destruct (pop_messages data s1) as (_ & _ & ->). eauto.
  - split; [done|]. split; [done|]. exists bytes. split; [|done]. rewrite lookup_insert_ne; [done|congruence].
  - split; [by destruct rcv|]. split; [|eauto].
    destruct (Server.m_activeConnections s1 !! k) as [c0|] eqn:Hk; [|done].
    by rewrite (lookup_app_l_Some _ _ _ _ Hk).
  - split; [done|]. split; [done|]. exists bytes. split; [|done]. rewrite lookup_insert_ne; [done|congruence].
  - split; [done|]. split; [done|]. exists bytes. split; [|done]. rewrite lookup_insert_ne; [done|congruence].
Qed.

(** A read takes nothing from a closed peer, or some of its bytes if it is its own. *)
Lemma closed_peer_read (ps : gmap Z peer) bytes fd' pr r pr' i s s' :
  ps !! fd = Some (mk_peer bytes false) → ps !! fd' = Some pr → received pr r pr' →
  read_next r i s = Ret s' →
  ∃ bytes', <[fd':=pr']> ps !! fd = Some (mk_peer bytes' false) ∧
    (String.length bytes' <= String.length bytes)%nat ∧
    (fd' = fd → String.length bytes' < String.length bytes)%nat.
Proof.
  intros Hp Hpr Hrec Hread. destruct (decide (fd' = fd)) as [->|Hne].
  - rewrite Hp in Hpr. injection Hpr as <-. rewrite lookup_insert_eq.
    apply read_next_inv in Hread as (_ & _ & _ & _ & _ & _ & Hne & _).
    pose proof (received_less _ _ _ Hrec Hne) as Hless. cbn in Hless.
    apply received_result in Hrec as [_ Hop]. destruct pr' as [bytes' op]. cbn in *. subst.
    exists bytes'. split; [done|]. lia.
  - exists bytes. rewrite lookup_insert_ne by done. split_and!; [done|lia|done].
Qed.

(** A step of the thread brings it nearer, or takes bytes of this peer. *)
Lemma closing_receiver b s s' :
  treachable s → tstep LReceiver s s' → closing b s →
  match steps_left s with
  | O => closing (pred b) s' ∧ (0 < b)%nat
  | S d => closing b s' ∧ (steps_left s' <= d)%nat
  end.
Proof.
  intros Hreach Hs [Hsd Hst Hr Hc (bytes & Hp & Hb)].
  pose proof (sound_step _ _ _ Hreach Hs) as Hsd'.
  pose proof (started_step _ _ _ Hs ltac:(done) Hst) as Hst'.
  inversion Hs as [| | | | | | | | |s1 a o ps|s1 a o ps|s1 a o ps j Hlen
    |s1 a o ps j c fd' pr r pr' s1' Hj Hfd' Hpr Hrec Hread| | |]; subst; unfold steps_left; cbn in *.
  - rewrite Hst in Hsd' |- *. replace (k + 2)%nat with (S (k + 1)) by lia.
    split; [|cbn; lia]. by split; cbn; eauto.
  - replace (k + 1)%nat with (S k) by lia. split; [by split; cbn; eauto|].
    cbn. rewrite decide_True by lia. lia.
  - assert (k < length (Server.m_activeConnections s1))%nat.
    { destruct (_ !! k) as [c|] eqn:Hk; [by eapply lookup_lt_Some|done]. }
    rewrite decide_False by lia. replace (_ + k + 3)%nat with (S (k + 2)) by lia.
    split; [by split; cbn; eauto|done].
  - destruct (closed_peer_read _ _ _ _ _ _ _ _ _ Hp Hpr Hrec Hread) as (bytes' & Hp' & Hle & Hlt).
    assert (∀ b', (String.length bytes' <= b')%nat →
      closing b' (mk_threads s1' a (RRead (S j)) o (<[fd':=pr']> ps))) as Hcl.
    { intros b' Hb'. split; cbn; try done; [by rewrite (read_next_fds _ _ _ _ _ Hread)|eauto]. }
    assert (Hjl := lookup_lt_Some _ _ _ Hj). cbn.
    rewrite (read_next_length _ _ _ _ Hread).
    destruct (lt_eq_lt_dec j k) as [[Hjk| ->]|Hjk].
    + rewrite !decide_True by lia. replace (k - j)%nat with (S (k - S j)) by lia.
      split; [apply Hcl; lia|done].
    + rewrite decide_True, Nat.sub_diag by lia. rewrite Hj in Hc. cbn in Hc.
      assert (fd' = fd) as Heq by congruence. specialize (Hlt Heq). split; [apply Hcl; lia|lia].
    + rewrite !decide_False by lia.
      replace (length (Server.m_activeConnections s1) - j + k + 3)%nat
        with (S (length (Server.m_activeConnections s1) - S j + k + 3)) by lia.
      split; [apply Hcl; lia|done].
Qed.

(** *** On a fair run *)

Context (r : run tstep).
Context (Hreach : treachable (state r 0)).
Context (Hfair : fair tstep tenabled r LReceiver).
Context (Hstop : ∀ n, label r n ≠ LStop).
Context (Hspeaks : leads_to tstep r (λ s, ∃ fd, waits_for fd s) (λ s, ¬ ∃ fd, waits_for fd s)).

Notation leads := (leads_to tstep r).

Lemma run_treachable n : treachable (state r n).
Proof.
  induction n as [|n (s0 & H0 & Hr)]; [done|]. exists s0. split; [done|].
  eapply rtc_r; [done|]. eexists. apply run_step.
Qed.

(** At this distance, and then nearer, or with fewer bytes left. *)
Definition nearer (b d : nat) (s : threads) : Prop :=
  match d with
  | O => closing (pred b) s ∧ (0 < b)%nat
  | S d => closing b s ∧ (steps_left s <= d)%nat
  end.

Lemma closing_cases b d n :
  closing b (state r n) → steps_left (state r n) = d →
  (label r n = LReceiver ∧ nearer b d (state r (S n))) ∨
  (label r n ≠ LReceiver ∧ closing b (state r (S n)) ∧ steps_left (state r (S n)) = d ∧
     (can_go (state r n) → can_go (state r (S n)))).
Proof.
  intros Hc Hd. pose proof (run_step r n) as Hs. pose proof (run_treachable n) as Hn.
  assert (label r n = LReceiver ∨ label r n ≠ LReceiver) as [Hl|Hl] by (destruct (label r n); auto).
  - left. split; [done|]. rewrite Hl in Hs. pose proof (closing_receiver _ _ _ Hn Hs Hc) as Hnear.
    by rewrite Hd in Hnear.
  - right. destruct (closing_other _ _ _ _ Hn Hs Hl (Hstop n) Hc) as (Hc' & Hrcv & Hleft).
    split_and!; [done|done|congruence|]. by eapply can_go_other.
Qed.

(** It does not wait for ever, so it goes on. *)
Lemma closing_goes b d :
  leads (λ s, closing b s ∧ steps_left s = d)
    (λ s, (closing b s ∧ steps_left s = d) ∧ can_go s ∨ nearer b d s ∨ broken s).
Proof.
  intros n [Hc Hd]. destruct (receiver_cases _ (cl_sound _ _ Hc) (cl_receives _ _ Hc)) as [Hgo|[Hbr|Hw]].
  - exists n. auto.
  - exists n. auto.
  - destruct (Hspeaks n Hw) as (m & Hm & Hno).
    assert (unless tstep r (λ s, closing b s ∧ steps_left s = d) (nearer b d)) as Hu.
    { intros i [Hci Hdi]. destruct (closing_cases b d i Hci Hdi) as [[_ ?]|(_ & ? & ? & _)]; auto. }
    destruct (unless_until tstep r _ _ n m Hu Hm (conj Hc Hd)) as [(i & ? & ? & ?)|[Hcm Hdm]]; [by exists i; auto|].
    exists m. split; [done|].
    destruct (receiver_cases _ (cl_sound _ _ Hcm) (cl_receives _ _ Hcm)) as [?|[?|?]]; auto. done.
Qed.

Lemma closing_nearer b d :
  leads (λ s, closing b s ∧ steps_left s = d) (λ s, nearer b d s ∨ broken s).
Proof.
  eapply leads_to_trans; [apply closing_goes|]. apply leads_to_or; [|by apply leads_to_refl].
  apply (leads_to_fair _ tenabled _ LReceiver); [done|..].
  - intros s [_ Hgo]. by apply can_go_enabled.
  - intros n [[Hc Hd] Hgo]. destruct (closing_cases b d n Hc Hd) as [[_ ?]|(_ & ? & ? & ?)]; auto.
  - intros n [[Hc Hd] Hgo] Hl. destruct (closing_cases b d n Hc Hd) as [[_ ?]|(? & _)]; auto. done.
Qed.

Lemma closing_leads b : leads (closing b) broken.
Proof.
  induction b as [b IHb] using lt_wf_ind.
  assert (∀ d, leads (λ s, closing b s ∧ steps_left s = d) broken) as Hd.
  { induction d as [d IHd] using lt_wf_ind.
    eapply leads_to_trans; [apply closing_nearer|]. apply leads_to_or; [|by apply leads_to_refl].
    intros n Hn. destruct d as [|d]; cbn in Hn; destruct Hn as [Hc Hlt].
    - apply (IHb (pred b)); [lia|done].
    - apply (IHd (steps_left (state r n))); [lia|done]. }
  intros n Hn. by apply (Hd (steps_left (state r n)) n).
Qed.
End closing.

(** C39: One peer that closes its connection ends the defined behaviour of a component's
    server. On every run on which the receiving thread gets its turns and does not wait
    for ever for a silent peer, and the server is not stopped, once a connection is in the
    vector whose peer has closed (as the Execution Manager's client does after every
    message), the thread comes to a read that has no defined result: after the bytes of
    this peer it is told 0, and erases the connection from the vector it iterates over;
    or it meets a connection without a client before. *)
Theorem closed_peer_breaks (r : run tstep) (n : nat) (k : nat) (fd : Z) (bytes : string) :
  treachable (state r 0) → fair tstep tenabled r LReceiver → (∀ n, label r n ≠ LStop) →
  leads_to tstep r (λ s, ∃ fd, waits_for fd s) (λ s, ¬ ∃ fd, waits_for fd s) →
  Server.m_isStarted (srv (state r n)) = true → receives (receiver (state r n)) = true →
  conns (state r n) !! k ≫= fd_of = Some fd → peers (state r n) !! fd = Some (mk_peer bytes false) →
  ∃ m, (n <= m)%nat ∧ broken (state r m).
Proof.
  intros Hreach Hfair Hstop Hspeaks Hst Hrec Hc Hp.
  apply (closing_leads fd k r Hreach Hfair Hstop Hspeaks (String.length bytes) n).
  split; [by apply treachable_sound, run_treachable|done..|]. eauto.
Qed.

Lemma broken_stuck s : broken s → ¬ tenabled LReceiver s.
Proof.
  intros (i & conn & Hr & Hi & _ & Hall) [s' Hs].
  inversion Hs as [| | | | | | | | |s1 a o ps|s1 a o ps|s1 a o ps j Hlen
    |s1 a o ps j c fd' pr r pr' s1' Hj Hfd' Hpr Hrec Hread| | |]; subst; cbn in *; try done.
  - injection Hr as ->. apply lookup_lt_Some in Hi. lia.
  - simplify_eq. rewrite (Hall r) in Hread; [done|]. unfold answers. rewrite Hfd'. eauto.
Qed.

(** ** Examples *)

Section examples.
Context (p : peer).

Definition demo_srv (started : bool) (l : list Connection.t) (q : list string) : Server.t :=
  Server.mk started "/tmp/component_management_demo" l (SafeQueue.mk q).
Definition demo_client (n : Z) : Connection.t :=
  Connection.mk (Some (Client.mk true SOCKET_CLIENT_PATH 5 n)).

(** A server is started and takes a connection; its thread begins to read. *)
Definition demo_states : list (tlabel * threads) :=
  [(LOwner, mk_threads (demo_srv true [] []) ATest RTest OFree ∅);
   (LAcceptor, mk_threads (demo_srv true [] []) AAccept RTest OFree ∅);
   (LArrival, mk_threads (demo_srv true [] []) (APush (demo_client 0)) RTest OFree {[5 := p]});
   (LAcceptor, mk_threads (demo_srv true [demo_client 0] []) ATest RTest OFree {[5 := p]});
   (LReceiver, mk_threads (demo_srv true [demo_client 0] []) ATest RLock OFree {[5 := p]});
   (LReceiver, mk_threads (demo_srv true [demo_client 0] []) ATest (RRead 0) OFree {[5 := p]})].

Definition demo_made : threads := mk_threads (demo_srv false [] []) AOff ROff OFree ∅.
Definition demo_reading : threads :=
  mk_threads (demo_srv true [demo_client 0] []) ATest (RRead 0) OFree {[5 := p]}.

Lemma demo_schedule rest : schedule tstep rest demo_reading → schedule tstep (demo_states ++ rest) demo_made.
Proof.
  intros Hrest. repeat (apply schedule_cons; [|]).
  - apply (t_start (demo_srv false [] [])).
  - apply (t_accept_test (demo_srv true [] [])).
  - by apply (t_accepted (demo_srv true [] []) RTest OFree ∅ 5 p 0 9).
  - by apply (t_push (demo_srv true [] [])).
  - apply (t_receive_test (demo_srv true [demo_client 0] [])).
  - apply t_lock.
  - exact Hrest.
Qed.

Lemma demo_is_made : made demo_made.
Proof. by exists "demo", (demo_srv false [] []). Qed.

Lemma schedule_treachable s rest :
  treachable s → schedule tstep rest s → ∀ n, treachable (state_at s rest n).
Proof.
  intros Hs Hrest. induction Hrest as [s|l s' rest s Hstep _ IH]; intros n; [by destruct n|].
  destruct n as [|n]; [done|]. apply IH. destruct Hs as (s0 & H0 & Hr). exists s0.
  split; [done|]. eapply rtc_r; [done|by exists l].
Qed.

Lemma demo_reading_reachable : treachable demo_reading.
Proof.
  apply (schedule_treachable demo_made (demo_states ++ [])) with (n := 6%nat).
  - exists demo_made. split; [apply demo_is_made|done].
  - apply demo_schedule. constructor.
Qed.
End examples.

(** The owner stops the server while the thread waits. *)
Lemma silent_peer_blocks_witness :
  let s' := mk_threads (demo_srv false [demo_client 0] []) ATest (RRead 0) OJoinServer {[5 := mk_peer "" true]} in
  waits_for 5 s' ∧ conns s' = [demo_client 0] ∧
  (∃ popped, messages (demo_reading (mk_peer "" true)) = popped ++ messages s') ∧ owner s' ≠ OStopped.
Proof.
  apply (silent_peer_blocks 5 (demo_reading (mk_peer "" true))).
  - apply demo_reading_reachable.
  - by exists 0%nat, (demo_client 0).
  - eapply rtc_l; [|apply rtc_refl]. exists LStop. split; [|done].
    apply (t_stop (demo_srv true [demo_client 0] [])).
Defined.

Definition zeros (n : nat) : string := Nat.iter n (String zero) "".

(** After a message the peer, which has closed, is read from again. *)
Definition demo_closed : list (tlabel * threads) :=
  let after := {[5 := mk_peer "" false]} : gmap Z peer in
  let sv := demo_srv true [demo_client 3] ["kOn"] in
  [(LReceiver, mk_threads sv ATest (RRead 1) OFree after);
   (LReceiver, mk_threads sv ATest RTest OFree after);
   (LReceiver, mk_threads sv ATest RLock OFree after);
   (LReceiver, mk_threads sv ATest (RRead 0) OFree after)].

Lemma demo_read (op : bool) :
  tstep LReceiver (demo_reading (mk_peer "kOn" op))
    (mk_threads (demo_srv true [demo_client 3] ["kOn"]) ATest (RRead 1) OFree {[5 := mk_peer "" op]}).
Proof.
  replace ({[5 := mk_peer "" op]} : gmap Z peer) with (<[5 := mk_peer "" op]> {[5 := mk_peer "kOn" op]} : gmap Z peer)
    by (by rewrite insert_singleton).
  eapply (t_read _ _ _ _ 0 (demo_client 0) 5 (mk_peer "kOn" op) (mk_reception 3 "kOn" (zeros 509)));
    try reflexivity.
  by apply (recv_some (mk_peer "kOn" op) 3 (zeros 509)); [cbn; lia|..].
Qed.

Lemma demo_closed_schedule : schedule tstep demo_closed (demo_reading (mk_peer "kOn" false)).
Proof.
  repeat (apply schedule_cons; [|]); [apply demo_read| | | |constructor].
  - apply t_unlock. cbn. lia.
  - apply (t_receive_test (demo_srv true [demo_client 3] ["kOn"])).
  - apply t_lock.
Qed.

Definition demo_run : run tstep :=
  resting tstep LNothing t_nothing demo_made _
    (demo_schedule (mk_peer "kOn" false) demo_closed demo_closed_schedule).

Lemma demo_closed_states n :
  let s := state demo_run n in map_Forall (λ _ pr, is_open pr = false) (peers s) ∧ label demo_run n ≠ LStop.
Proof.
  do 10 (destruct n as [|n]; [split; [by apply (bool_decide_unpack _)|done]|]).
  assert (state demo_run (10 + n) = state demo_run 10) as Heq by (apply state_at_end; cbn; lia).
  cbn [Nat.add] in Heq. rewrite Heq. split; [by apply (bool_decide_unpack _)|].
  cbn. unfold label_at. by rewrite lookup_ge_None_2 by (cbn; lia).
Qed.

Lemma demo_never_waits n : ¬ ∃ fd, waits_for fd (state demo_run n).
Proof.
  intros (fd & i & conn & _ & _ & _ & Hp). destruct (demo_closed_states n) as [Hall _].
  by specialize (Hall _ _ Hp).
Qed.

Lemma closed_peer_breaks_witness : ∃ m, (6 <= m)%nat ∧ broken (state demo_run m).
Proof.
  apply (closed_peer_breaks demo_run 6 0 5 "kOn").
  - exists demo_made. split; [apply demo_is_made|apply rtc_refl].
  - apply resting_fair, broken_stuck. by eapply (broken_closed _ 0 (demo_client 3) 5 (mk_peer "" false)).
  - intros n. apply demo_closed_states.
  - intros n [fd Hw]. destruct (demo_never_waits n). by exists fd.
  - reflexivity.
  - reflexivity.
  - reflexivity.
  - reflexivity.
Defined.

(** A pass during which the owner takes the message that has been read. *)
Lemma passes_are_whole_witness :
  let s0 := demo_reading (mk_peer "kOn" true) in
  let s := mk_threads (demo_srv true [demo_client 3] []) ATest (RRead 1) OFree {[5 := mk_peer "" true]} in
  ∃ rs srv', length rs = length (conns s0) ∧ Forall (λ r, 0 < r_result r) rs ∧
    Server.handleConnections rs (srv s0) = Ret srv' ∧
    Server.m_activeConnections srv' = conns s ∧
    ∃ popped, SafeQueue.m_data (Server.m_recvDataQueue srv') = popped ++ messages s.
Proof.
  apply (passes_are_whole (demo_reading (mk_peer "kOn" true)) _ 1).
  - reflexivity.
  - eapply rtc_l; [split; [exists LReceiver; apply demo_read|reflexivity]|].
    eapply rtc_l; [|apply rtc_refl]. split; [|reflexivity]. exists LOwner.
    by apply (t_pop (demo_srv true [demo_client 3] ["kOn"]) ATest (RRead 1) _ ""
      (true, "kOn", demo_srv true [demo_client 3] [])).
  - reflexivity.
  - cbn. lia.
Defined.
