(* ===== verification/Sockets.v ===== *)
(** * Sockets and descriptors

    [common/socket_handler] (the wrappers of the socket calls), and with them the life of
    a client ([client.cpp]) and of a component's server ([server.cpp], [connection.cpp],
    [proxy_client_factory.cpp]): which calls they make, and which descriptors are open
    afterwards. The calls of the operating system are an interface with documented laws;
    what the functions compute from the results is in [BaseServer]. *)

From Stdlib Require Import Ascii.
From stdpp Require Import base list gmap strings numbers.
From S2P Require Import Prelude CppString Constants Queues BaseServer.

Local Open Scope Z_scope.

(** ** The operating system *)

(** A call returns a result (-1 is an error) and the new state; [accept] may wait for
    ever. *)
Class SocketApi := {
  os : Type;
  sys_unlink : string → os → Z * os;
  sys_socket : os → Z * os;
  sys_bind : Z → string → os → Z * os;
  sys_listen : Z → Z → os → Z * os;
  sys_accept : Z → os → option Z * os;
  sys_fcntl : Z → Z → Z → os → Z * os;
  sys_connect : Z → string → os → Z * os;
  sys_send : Z → string → os → Z * os;
  sys_close : Z → os → Z * os;
}.

(** A new descriptor is not open before, an error changes nothing. *)
Definition opened (before after : gset Z) (r : Z) : Prop :=
  r = -1 ∧ after = before ∨ 0 <= r ∧ r ∉ before ∧ after = {[r]} ∪ before.

(** What the manual promises of the descriptors of the process. *)
Class SocketLaws `{SocketApi} := {
  descriptors : os → gset Z;
  descriptors_nonneg o fd : fd ∈ descriptors o → 0 <= fd;
  unlink_keeps path o : descriptors (sys_unlink path o).2 = descriptors o;
  socket_opens o : opened (descriptors o) (descriptors (sys_socket o).2) (sys_socket o).1;
  bind_keeps fd path o : descriptors (sys_bind fd path o).2 = descriptors o;
  listen_keeps fd n o : descriptors (sys_listen fd n o).2 = descriptors o;
  accept_opens fd o r o' :
    sys_accept fd o = (Some r, o') → opened (descriptors o) (descriptors o') r;
  fcntl_keeps fd cmd arg o : descriptors (sys_fcntl fd cmd arg o).2 = descriptors o;
  connect_keeps fd path o : descriptors (sys_connect fd path o).2 = descriptors o;
  send_keeps fd data o : descriptors (sys_send fd data o).2 = descriptors o;
  close_closes fd o : descriptors (sys_close fd o).2 = descriptors o ∖ {[fd]};
}.

(** ** The wrappers *)

Inductive socket_call :=
  | CUnlink (path : string)
  | CSocket
  | CBind (fd : Z) (path : string)
  | CListen (fd backlog : Z)
  | CAccept (fd : Z)
  | CFcntl (fd cmd arg : Z)
  | CConnect (fd : Z) (path : string)
  | CSend (fd : Z) (data : string)
  | CClose (fd : Z).

Definition F_SETFD : Z := 2.
Definition O_NONBLOCK : Z := 2048.

(** Calls are recorded with their results. *)
Notation M := (cpp os (socket_call * Z)).

Section sockets.
Context `{SocketApi}.

Definition forward (c : socket_call) (f : os → Z * os) : M Z := λ o,
  let '(r, o') := f o in ([(c, r)], o', Ret r).

Definition unlink (path : string) : M Z := forward (CUnlink path) (sys_unlink path).

(** [ServerSocket]; [socket] and [close] are those of [ClientSocket] as well. *)
Definition socket : M Z := forward CSocket sys_socket.
Definition close (fd : Z) : M Z := forward (CClose fd) (sys_close fd).
Definition bind (fd : Z) (path : string) : M Z := forward (CBind fd path) (sys_bind fd path).
Definition listen (fd backlog : Z) : M Z := forward (CListen fd backlog) (sys_listen fd backlog).
Definition fcntl (fd cmd arg : Z) : M Z := forward (CFcntl fd cmd arg) (sys_fcntl fd cmd arg).
Definition accept (fd : Z) : M Z := λ o,
  match sys_accept fd o with
  | (Some r, o') => ([(CAccept fd, r)], o', Ret r)
  | (None, o') => ([], o', Stop Blocked)
  end.

(** [ClientSocket]. *)
Definition connect (fd : Z) (path : string) : M Z := forward (CConnect fd path) (sys_connect fd path).
Definition send (fd : Z) (data : string) : M Z := forward (CSend fd data) (sys_send fd data).

(** ** [base_client::Client] *)

Definition new_client (path : string) : M Client.t :=
  p ← lift (copy_path path);
  fd ← socket;
  mret (Client.mk false p fd 0).

Definition connect_client (c : Client.t) : M Client.t :=
  r ← connect (Client.m_client_fd c) (Client.m_sun_path c); mret (Client.connect r c).

Definition send_message (serialized : option string) (c : Client.t) : M unit :=
  match Client.sendMessage serialized c with
  | Some (fd, data) => send fd data;; mret tt
  | None => mret tt
  end.

Definition delete_client (c : Client.t) : M unit := close (Client.m_client_fd c);; mret tt.

(** [ExecutionManagerClient::SetComponentState]: the client lives as long as the call. *)
Definition set_component_state (pack : string → option string) (state componentName : string) :
    M pComponentClientReturnType :=
  client ← new_client (client_path componentName);
  client ← connect_client client;
  send_message (pack state) client;;
  delete_client client;;
  mret kSuccess.

(** ** [base_server::Connection] *)

(** [makeProxyClient]: the descriptor of the client's constructor is replaced. *)
Definition make_proxy_client (fd : Z) : M Client.t :=
  client ← new_client SOCKET_CLIENT_PATH;
  mret (Client.setConnected true (Client.setClientFd fd client)).

Definition accept_connection (serverFd : Z) : M Z :=
  accepted ← accept serverFd;
  r ← fcntl accepted F_SETFD O_NONBLOCK;
  mret (Connection.acceptConnection accepted r).

Definition creat_accepted_client (serverFd : Z) : M Connection.t :=
  fd ← accept_connection serverFd;
  if 0 <? fd then client ← make_proxy_client fd; mret (Connection.mk (Some client))
  else mret Connection.construct.

Definition delete_connection (conn : Connection.t) : M unit :=
  match Connection.m_connectedCli conn with
  | Some client => delete_client client
  | None => mret tt
  end.

(** ** [base_server::Server] *)

(** The server's descriptor and its connections. *)
Record open_server := mk_open_server { m_server_fd : Z; m_server : Server.t }.

(** Errors of the three calls are only logged. *)
Definition new_server (componentName : string) : M open_server :=
  unlink (server_path componentName);;
  path ← lift (copy_path (server_path componentName));
  fd ← socket;
  bind fd path;;
  listen fd 1;;
  s ← lift (Server.construct componentName);
  mret (mk_open_server fd s).

Definition push_connection (conn : Connection.t) (s : open_server) : open_server :=
  let srv := m_server s in
  mk_open_server (m_server_fd s)
    (Server.mk (Server.m_isStarted srv) (Server.m_sun_path srv)
       (Server.m_activeConnections srv ++ [conn]) (Server.m_recvDataQueue srv)).

(** One turn of [onRunning]. *)
Definition running_turn (s : open_server) : M open_server :=
  conn ← creat_accepted_client (m_server_fd s); mret (push_connection conn s).

Fixpoint running_turns (n : nat) (s : open_server) : M open_server :=
  match n with
  | O => mret s
  | S n => s ← running_turn s; running_turns n s
  end.

(** Where the accepting thread is when the server is destroyed: it has not been started,
    or sleeps between two turns, or is in [accept]. The receiving thread sleeps. *)
Inductive thread_position := NotStarted | Asleep | InAccept.

(** [stop]: the flag is cleared, and the thread ends its turn. *)
Definition stop_server_threads (pos : thread_position) (s : open_server) : M open_server :=
  let s := mk_open_server (m_server_fd s) (Server.stop (m_server s)) in
  match pos with InAccept => running_turn s | _ => mret s end.

(** The destructor, and those of the members: the connections close their clients. *)
Definition delete_server (pos : thread_position) (s : open_server) : M unit :=
  s ← stop_server_threads pos s;
  close (m_server_fd s);;
  for_each delete_connection (Server.m_activeConnections (m_server s)).

(** A server that is made, takes [n] connections and is destroyed. *)
Definition server_life (componentName : string) (n : nat) (pos : thread_position) : M unit :=
  s ← new_server componentName;
  s ← running_turns n (mk_open_server (m_server_fd s) (Server.start (m_server s)));
  delete_server pos s.
End sockets.

(** ** The pure definitions *)

Section refinement.
Context `{SocketApi}.

(** With the results of the calls, the functions are those of [BaseServer]. *)
Lemma running_turn_pure s o tr o' s' :
  running_turn s o = (tr, o', Ret s') →
  ∃ accepted r created, Server.onRunning accepted r created (m_server s) = Ret (m_server s') ∧
    m_server_fd s' = m_server_fd s.
Proof.
  unfold running_turn, creat_accepted_client, accept_connection, accept, make_proxy_client,
    new_client, socket, fcntl, forward.
  cbv [mbind cpp_bind mret cpp_ret lift]. destruct (sys_accept (m_server_fd s) o) as [[accepted|] o1]; [|done].
  destruct (sys_fcntl accepted F_SETFD O_NONBLOCK o1) as [r o2].
  destruct (0 <? Connection.acceptConnection accepted r) eqn:Hfd.
  - change (copy_path SOCKET_CLIENT_PATH) with (Ret SOCKET_CLIENT_PATH : outcome string).
    destruct (sys_socket o2) as [created o3]. intros [= _ _ <-]. exists accepted, r, created.
    unfold Server.onRunning, Connection.creatAcceptedClient. rewrite Hfd. by split.
  - intros [= _ _ <-]. exists accepted, r, 0.
    unfold Server.onRunning, Connection.creatAcceptedClient. rewrite Hfd. by split.
Qed.
End refinement.

(** ** What is open afterwards *)

Definition succeeded (call : socket_call * Z) : Prop := 0 <= call.2.

(** The descriptors that the calls of [socket] and of [accept] have returned, and those
    that have been closed. *)
Definition sockets_made (tr : list (socket_call * Z)) : list Z :=
  omap (λ call, match call.1 with CSocket => Some call.2 | _ => None end) tr.
Definition taken (tr : list (socket_call * Z)) : list Z :=
  omap (λ call, match call.1 with CAccept _ => Some call.2 | _ => None end) tr.
Definition closed (tr : list (socket_call * Z)) : list Z :=
  omap (λ call, match call.1 with CClose fd => Some fd | _ => None end) tr.

Definition counts (tr : list (socket_call * Z)) (m t c : list Z) : Prop :=
  sockets_made tr = m ∧ taken tr = t ∧ closed tr = c.

Lemma counts_app tr1 tr2 m1 t1 c1 m2 t2 c2 :
  counts tr1 m1 t1 c1 → counts tr2 m2 t2 c2 → counts (tr1 ++ tr2) (m1 ++ m2) (t1 ++ t2) (c1 ++ c2).
Proof.
  intros (Hm & Ht & Hc) (Hm2 & Ht2 & Hc2). unfold counts, sockets_made, taken, closed in *.
  rewrite !omap_app. by subst.
Qed.

Section descriptors.
Context `{SocketLaws}.

(** When [m] returns and every call has succeeded, [Q] holds of the calls, the result and
    the state. *)
Definition leaves {A} (m : M A) (o : os) (Q : list (socket_call * Z) → A → os → Prop) : Prop :=
  match m o with (tr, o', Ret a) => Forall succeeded tr → Q tr a o' | _ => True end.

Lemma leaves_bind {A B} (m : M A) (f : A → M B) o Q :
  leaves m o (λ tr a o', leaves (f a) o' (λ tr2, Q (tr ++ tr2))) → leaves (m ≫= f) o Q.
Proof.
  unfold leaves, mbind, cpp_bind. destruct (m o) as [[tr o'] [a|w]]; [|done].
  destruct (f a o') as [[tr' o''] [b|w]]; [|done]. rewrite Forall_app. naive_solver.
Qed.

Lemma leaves_mono {A} (m : M A) o (Q Q' : list (socket_call * Z) → A → os → Prop) :
  leaves m o Q → (∀ tr a o', Q tr a o' → Q' tr a o') → leaves m o Q'.
Proof. unfold leaves. destruct (m o) as [[tr o'] [a|w]]; naive_solver. Qed.

Lemma leaves_ret {A} (a : A) o (Q : list (socket_call * Z) → A → os → Prop) : Q [] a o → leaves (mret a) o Q.
Proof. by intros HQ _. Qed.

Lemma leaves_lift {A} (r : outcome A) o (Q : list (socket_call * Z) → A → os → Prop) :
  (∀ a, r = Ret a → Q [] a o) → leaves (lift r) o Q.
Proof. unfold leaves, lift. destruct r; naive_solver. Qed.

Lemma leaves_forward c f o (Q : list (socket_call * Z) → Z → os → Prop) :
  (0 <= (f o).1 → Q [(c, (f o).1)] (f o).1 (f o).2) → leaves (forward c f) o Q.
Proof.
  unfold leaves, forward. destruct (f o) as [r o']. cbn. intros HQ [Hr _]%list.Forall_cons. auto.
Qed.

(** A call that keeps the descriptors. *)
Lemma leaves_keeps c f o (Q : list (socket_call * Z) → Z → os → Prop) :
  descriptors (f o).2 = descriptors o →
  (∀ r o', descriptors o' = descriptors o → Q [(c, r)] r o') → leaves (forward c f) o Q.
Proof. intros Hk HQ. apply leaves_forward. auto. Qed.

Lemma leaves_socket o (Q : list (socket_call * Z) → Z → os → Prop) :
  (∀ fd o', fd ∉ descriptors o → descriptors o' = {[fd]} ∪ descriptors o → Q [(CSocket, fd)] fd o') →
  leaves socket o Q.
Proof.
  intros HQ. apply leaves_forward. intros Hr. pose proof (socket_opens o) as Hs.
  destruct Hs as [[Hs _]|(_ & Hn & Hd)]; [lia|]. auto.
Qed.

Lemma leaves_close fd o (Q : list (socket_call * Z) → Z → os → Prop) :
  (∀ r o', descriptors o' = descriptors o ∖ {[fd]} → Q [(CClose fd, r)] r o') → leaves (close fd) o Q.
Proof. intros HQ. apply leaves_forward. intros _. apply HQ, close_closes. Qed.

Lemma leaves_accept fd o (Q : list (socket_call * Z) → Z → os → Prop) :
  (∀ r o', 0 <= r → r ∉ descriptors o → descriptors o' = {[r]} ∪ descriptors o → Q [(CAccept fd, r)] r o') →
  leaves (accept fd) o Q.
Proof.
  intros HQ. unfold leaves, accept. destruct (sys_accept fd o) as [[r|] o'] eqn:Ha; [|done].
  intros [Hr _]%list.Forall_cons. unfold succeeded in Hr. cbn [snd] in Hr.
  destruct (accept_opens fd o r o' Ha) as [[Hs _]|(_ & Hn & Hd)]; [lia|]. auto.
Qed.

(** A connection keeps the accepted descriptor; the one of the client's constructor
    stays open, too. *)
Lemma leaves_creat_accepted_client serverFd o (Q : list (socket_call * Z) → Connection.t → os → Prop) :
  0 ∈ descriptors o →
  (∀ tr cl created o', counts tr [created] [Client.m_client_fd cl] [] →
     Client.m_client_fd cl ∉ descriptors o →
     created ∉ {[Client.m_client_fd cl]} ∪ descriptors o →
     descriptors o' = {[created]} ∪ ({[Client.m_client_fd cl]} ∪ descriptors o) →
     Q tr (Connection.mk (Some cl)) o') →
  leaves (creat_accepted_client serverFd) o Q.
Proof.
  intros Hstd HQ. unfold creat_accepted_client, accept_connection.
  apply leaves_bind, leaves_bind, leaves_accept. intros a o1 Ha Hn Hd.
  apply leaves_bind, leaves_forward. intros Hf. apply leaves_ret.
  unfold Connection.acceptConnection. rewrite (proj2 (Z.eqb_neq _ (-1))) by lia.
  assert (a ≠ 0) as Hne by (intros ->; done).
  rewrite (proj2 (Z.ltb_lt 0 a)) by lia.
  unfold make_proxy_client, new_client. apply leaves_bind, leaves_bind, leaves_bind, leaves_lift.
  intros p _. apply leaves_bind, leaves_socket. intros created o2 Hn2 Hd2.
  apply leaves_ret, leaves_ret, leaves_ret. rewrite fcntl_keeps, Hd in Hn2, Hd2. by eapply HQ.
Qed.

(** The clients of the connections. *)
Definition client_of (conn : Connection.t) : option Z :=
  Client.m_client_fd <$> Connection.m_connectedCli conn.
Definition client_fds (s : open_server) : list Z :=
  omap client_of (Server.m_activeConnections (m_server s)).

(** A running server: what was open before, its own descriptor, those of its clients, and
    others that nothing refers to. *)
Record runs_with (before : gset Z) (lost : list Z) (s : open_server) (o : os) : Prop := {
  rw_stdin : 0 ∈ before;
  rw_open : descriptors o = before ∪ list_to_set (m_server_fd s :: client_fds s ++ lost);
  rw_distinct : NoDup (m_server_fd s :: client_fds s ++ lost);
  rw_new : before ## list_to_set (m_server_fd s :: client_fds s ++ lost);
}.

Lemma new_server_runs componentName o (Q : list (socket_call * Z) → open_server → os → Prop) :
  0 ∈ descriptors o →
  (∀ tr s o', counts tr [m_server_fd s] [] [] → runs_with (descriptors o) [] s o' → client_fds s = [] → Q tr s o') →
  leaves (new_server componentName) o Q.
Proof.
  intros Hstd HQ. unfold new_server.
  apply leaves_bind, leaves_keeps; [apply unlink_keeps|]. intros r1 o1 H1.
  apply leaves_bind, leaves_lift. intros path _.
  apply leaves_bind, leaves_socket. intros fd o2 Hn H2. rewrite H1 in Hn, H2.
  apply leaves_bind, leaves_keeps; [apply bind_keeps|]. intros r3 o3 H3.
  apply leaves_bind, leaves_keeps; [apply listen_keeps|]. intros r4 o4 H4.
  apply leaves_bind, leaves_lift. intros s Hs. apply leaves_ret.
  unfold Server.construct in Hs. destruct (copy_path _); [|done]. injection Hs as <-.
  apply HQ; [done| |done]. split; [done|..]; cbn; rewrite ?H4, ?H3, ?H2.
  - set_solver.
  - apply NoDup_singleton.
  - set_solver.
Qed.

Lemma client_fds_push conn s cl :
  Connection.m_connectedCli conn = Some cl →
  client_fds (push_connection conn s) = client_fds s ++ [Client.m_client_fd cl].
Proof. intros Hc. unfold client_fds, push_connection. cbn. rewrite omap_app. cbn. unfold client_of. by rewrite Hc. Qed.

Lemma running_turn_runs before lost s o (Q : list (socket_call * Z) → open_server → os → Prop) :
  runs_with before lost s o →
  (∀ tr s' o' a created, counts tr [created] [a] [] → client_fds s' = client_fds s ++ [a] →
     m_server_fd s' = m_server_fd s → runs_with before (lost ++ [created]) s' o' → Q tr s' o') →
  leaves (running_turn s) o Q.
Proof.
  intros [Hstd Hd Hdist Hnew] HQ. unfold running_turn.
  apply leaves_bind, leaves_creat_accepted_client; [set_solver|].
  intros tr cl created o' Hcounts Hn Hn2 Hd'. apply leaves_ret. rewrite app_nil_r.
  pose proof (client_fds_push (Connection.mk (Some cl)) s cl eq_refl) as Hpush.
  eapply HQ; [exact Hcounts|exact Hpush|done|]. rewrite Hd in Hn, Hn2, Hd'.
  assert (m_server_fd s :: (client_fds s ++ [Client.m_client_fd cl]) ++ lost ++ [created]
    ≡ₚ created :: Client.m_client_fd cl :: m_server_fd s :: client_fds s ++ lost) as Hperm by solve_Permutation.
  split; [done|..]; rewrite Hpush; cbn [m_server_fd push_connection].
  - rewrite Hperm, Hd'. set_solver.
  - rewrite Hperm. rewrite (list.NoDup_cons created), (list.NoDup_cons (Client.m_client_fd cl)). set_solver.
  - rewrite Hperm. set_solver.
Qed.

Lemma running_turns_runs n before lost s o (Q : list (socket_call * Z) → open_server → os → Prop) :
  runs_with before lost s o →
  (∀ tr s' o' accepted created, length accepted = n → length created = n → counts tr created accepted [] →
     client_fds s' = client_fds s ++ accepted → m_server_fd s' = m_server_fd s →
     runs_with before (lost ++ created) s' o' → Q tr s' o') →
  leaves (running_turns n s) o Q.
Proof.
  revert lost s o Q. induction n as [|n IH]; intros lost s o Q Hr HQ.
  { apply leaves_ret, (HQ [] s o [] []); try done; by rewrite app_nil_r. }
  cbn [running_turns]. apply leaves_bind. eapply running_turn_runs; [exact Hr|].
  intros tr s' o' a c Hcounts Hfds Hfd Hr'. eapply IH; [exact Hr'|].
  intros tr2 s2 o2 accepted created Ha Hc Hcounts2 Hfds2 Hfd2 Hr2.
  apply (HQ _ _ _ (a :: accepted) (c :: created)); [by cbn; f_equal..| | |by rewrite Hfd2|].
  - exact (counts_app _ _ _ _ _ _ _ _ Hcounts Hcounts2).
  - by rewrite Hfds2, Hfds, <- (assoc_L (++)).
  - by rewrite <- (assoc_L (++)) in Hr2.
Qed.

Lemma delete_connections_closes conns o (Q : list (socket_call * Z) → unit → os → Prop) :
  (∀ tr o', counts tr [] [] (omap client_of conns) →
     descriptors o' = descriptors o ∖ list_to_set (omap client_of conns) → Q tr tt o') →
  leaves (for_each delete_connection conns) o Q.
Proof.
  revert o Q. induction conns as [|conn conns IH]; intros o Q HQ; cbn [for_each].
  { apply leaves_ret, HQ; [done|]. cbn. set_solver. }
  apply leaves_bind. unfold delete_connection at 1, delete_client.
  destruct conn as [[cl|]]; cbn [Connection.m_connectedCli].
  - apply leaves_bind, leaves_close. intros r o1 H1. apply leaves_ret, IH. intros tr o' Hcounts Ho'.
    apply HQ; [|rewrite Ho', H1; cbn; set_solver].
    by apply (counts_app [(CClose (Client.m_client_fd cl), r)] tr [] [] [Client.m_client_fd cl]).
  - apply leaves_ret, IH. intros tr o' Hcounts Ho'. apply HQ; [done|]. by rewrite Ho'.
Qed.

(** One more connection when the thread was waiting for it. *)
Definition turns_at_end (pos : thread_position) : nat := match pos with InAccept => 1 | _ => 0 end.

Lemma delete_server_closes before lost pos s o (Q : list (socket_call * Z) → unit → os → Prop) :
  runs_with before lost s o →
  (∀ tr o' accepted created, length accepted = turns_at_end pos → length created = turns_at_end pos →
     counts tr created accepted (m_server_fd s :: client_fds s ++ accepted) →
     descriptors o' = before ∪ list_to_set (lost ++ created) →
     NoDup (m_server_fd s :: (client_fds s ++ accepted) ++ lost ++ created) →
     before ## list_to_set (m_server_fd s :: (client_fds s ++ accepted) ++ lost ++ created) → Q tr tt o') →
  leaves (delete_server pos s) o Q.
Proof.
  intros Hr HQ. unfold delete_server, stop_server_threads. apply leaves_bind.
  set (s0 := mk_open_server (m_server_fd s) (Server.stop (m_server s))).
  assert (leaves (running_turns (turns_at_end pos) s0) o (λ tr s1 o1, ∃ accepted created,
    length accepted = turns_at_end pos ∧ length created = turns_at_end pos ∧ counts tr created accepted [] ∧
    client_fds s1 = client_fds s ++ accepted ∧ m_server_fd s1 = m_server_fd s ∧
    runs_with before (lost ++ created) s1 o1)) as Hturns.
  { apply (running_turns_runs _ before lost); [by destruct Hr|]. intros tr s1 o1 accepted created.
    intros. by exists accepted, created. }
  assert (leaves (match pos with InAccept => running_turn s0 | _ => mret s0 end) o (λ tr s1 o1, ∃ accepted created,
    length accepted = turns_at_end pos ∧ length created = turns_at_end pos ∧ counts tr created accepted [] ∧
    client_fds s1 = client_fds s ++ accepted ∧ m_server_fd s1 = m_server_fd s ∧
    runs_with before (lost ++ created) s1 o1)) as Hstop.
  { destruct pos; try exact Hturns. revert Hturns. cbn [turns_at_end running_turns].
    unfold leaves, mbind, cpp_bind. destruct (running_turn s0 o) as [[tr o1] [s1|]]; [|done].
    cbn. by rewrite app_nil_r. }
  apply (leaves_mono _ _ _ _ Hstop).
  intros tr s1 o1 (accepted & created & Ha & Hc & Hcounts & Hfds & Hfd & [Hstd Hd Hdist Hnew]).
  apply leaves_bind, leaves_close. intros r o2 H2. apply delete_connections_closes.
  intros tr3 o3 Hcounts3 H3. fold (client_fds s1) in Hcounts3, H3. rewrite Hfd, Hfds in *.
  apply (HQ _ _ accepted created); try done.
  - pose proof (counts_app _ _ _ _ _ _ _ _ Hcounts
      (counts_app [(CClose (m_server_fd s), r)] _ [] [] [m_server_fd s] _ _ _ (conj eq_refl (conj eq_refl eq_refl)) Hcounts3)) as Hall.
    by rewrite !app_nil_r in Hall.
  - rewrite H3, H2, Hd. apply list.NoDup_cons in Hdist as [Hn Hdist]. apply list.NoDup_app in Hdist as (_ & Hdis & _).
    set_solver.
Qed.

(** What a server's life leaves open: the sockets of the clients' constructors. *)
Definition leaks (n : nat) (before : gset Z) (tr : list (socket_call * Z)) (after : gset Z) : Prop :=
  ∃ server accepted created,
    sockets_made tr = server :: created ∧ taken tr = accepted ∧ length accepted = n ∧ length created = n ∧
    closed tr = server :: accepted ∧
    NoDup (server :: accepted ++ created) ∧ before ## list_to_set (server :: accepted ++ created) ∧
    after = before ∪ list_to_set created.

Lemma server_life_leaks componentName n pos o :
  0 ∈ descriptors o →
  leaves (server_life componentName n pos) o (λ tr _ o',
    leaks (n + turns_at_end pos) (descriptors o) tr (descriptors o')).
Proof.
  intros Hstd. unfold server_life. apply leaves_bind, new_server_runs; [done|].
  intros tr0 s o1 Hcounts0 Hr Hnone. apply leaves_bind. eapply running_turns_runs; [by destruct Hr|].
  intros tr1 s2 o2 accepted created Ha Hc Hcounts1 Hfds Hfd Hr2.
  change (client_fds (mk_open_server (m_server_fd s) (Server.start (m_server s)))) with (client_fds s) in Hfds.
  change (m_server_fd s2 = m_server_fd s) in Hfd. rewrite Hnone, app_nil_l in Hfds.
  eapply delete_server_closes; [exact Hr2|].
  intros tr3 o3 acc3 cre3 Ha3 Hc3 Hcounts3 Hd3 Hdist Hnew. rewrite app_nil_l, Hfds, Hfd in *.
  destruct (counts_app _ _ _ _ _ _ _ _ Hcounts0 (counts_app _ _ _ _ _ _ _ _ Hcounts1 Hcounts3)) as (Hm & Ht & Hcl).
  exists (m_server_fd s), (accepted ++ acc3), (created ++ cre3).
  split_and!; try done; rewrite length_app; lia.
Qed.
End descriptors.

(** C40: Every accepted connection costs the component a descriptor for good. When a server
    has been made, has taken [n] connections (one more when it was waiting for one) and
    has been destroyed, and every call has succeeded, then it has closed its own
    descriptor and the one of every accepted connection, each once, and what is open is
    what was open before and the [n] other sockets that it has made: those of the
    clients' constructors, which the accepted descriptors have replaced. *)
Theorem connections_leak `{SocketLaws} (componentName : string) (n : nat) (pos : thread_position)
    (o : os) (tr : list (socket_call * Z)) (o' : os) :
  0 ∈ descriptors o → server_life componentName n pos o = (tr, o', Ret tt) → Forall succeeded tr →
  let n' := (n + match pos with InAccept => 1 | _ => 0 end)%nat in
  ∃ server accepted created,
    sockets_made tr = server :: created ∧ taken tr = accepted ∧ length accepted = n' ∧ length created = n' ∧
    closed tr = server :: accepted ∧
    NoDup (server :: accepted ++ created) ∧ descriptors o ## list_to_set (server :: accepted ++ created) ∧
    descriptors o' = descriptors o ∪ list_to_set created.
Proof.
  intros Hstd Hrun Htr. pose proof (server_life_leaks componentName n pos o Hstd) as Hl.
  unfold leaves in Hl. rewrite Hrun in Hl. exact (Hl Htr).
Qed.

(** Destroying a server whose thread waits for a connection does not return, unless one
    comes: nothing ends the call of [accept]. *)
Theorem delete_server_blocks `{SocketApi} (s : open_server) (o o' : os) :
  sys_accept (m_server_fd s) o = (None, o') →
  delete_server InAccept s o = ([], o', Stop Blocked).
Proof.
  intros Ha. unfold delete_server, stop_server_threads, running_turn, creat_accepted_client,
    accept_connection, accept.
  cbv [mbind cpp_bind]. cbn [m_server_fd]. by rewrite Ha.
Qed.

(** The Execution Manager's client leaves the descriptors as they were, whatever fails;
    its calls are made in this order. *)
Theorem set_component_state_calls `{SocketLaws} (pack : string → option string)
    (state name data : string) (o : os) (tr : list (socket_call * Z)) (o' : os)
    (result : pComponentClientReturnType) :
  pack state = Some data →
  set_component_state pack state name o = (tr, o', Ret result) →
  descriptors o' = descriptors o ∧ result = kSuccess ∧
  ∃ fd, tr.*1 = [CSocket; CConnect fd (client_path name); CSend fd data; CClose fd].
Proof.
  intros Hp. unfold set_component_state, new_client, copy_path.
  destruct (SUN_PATH_SIZE <? size (client_path name)); [done|].
  cbv [connect_client send_message delete_client socket connect send close forward
    mbind cpp_bind mret cpp_ret lift].
  pose proof (socket_opens o) as Hs. destruct (sys_socket o) as [fd o1]. cbn in Hs |- *.
  pose proof (connect_keeps fd (client_path name) o1) as H1.
  destruct (sys_connect fd (client_path name) o1) as [r o2]. cbn in H1.
  unfold Client.sendMessage. rewrite Hp. cbn.
  assert (∀ b, Client.m_client_fd (if b : bool then Client.mk true (client_path name) fd 0
    else Client.mk false (client_path name) fd 0) = fd) as Hfd by by intros [].
  unfold Client.connect. cbn. rewrite Hfd.
  pose proof (send_keeps fd data o2) as H2. destruct (sys_send fd data o2) as [r2 o3]. cbn in H2.
  pose proof (close_closes fd o3) as H3. destruct (sys_close fd o3) as [r3 o4]. cbn in H3.
  intros [= <- <- <-]. split; [|split; [done|by exists fd]]. rewrite H3, H2, H1.
  destruct Hs as [[-> ->]|(_ & Hn & ->)]; [|set_solver].
  assert (-1 ∉ descriptors o) by (intros Hneg%descriptors_nonneg; lia). set_solver.
Qed.

(** ** A system in which every call succeeds *)

Definition open_next (o : gset nat) : Z * gset nat := (Z.of_nat (fresh o), {[fresh o]} ∪ o).

Definition demo_api : SocketApi := {|
  os := gset nat;
  sys_unlink _ o := (0, o);
  sys_socket := open_next;
  sys_bind _ _ o := (0, o);
  sys_listen _ _ o := (0, o);
  sys_accept _ o := (Some (open_next o).1, (open_next o).2);
  sys_fcntl _ _ _ o := (0, o);
  sys_connect _ _ o := (0, o);
  sys_send _ data o := (size data, o);
  sys_close fd o := if 0 <=? fd then (0, o ∖ {[Z.to_nat fd]}) else (-1, o);
|}.

Lemma open_next_opens (o : gset nat) :
  opened (set_map Z.of_nat o) (set_map Z.of_nat (open_next o).2) (open_next o).1.
Proof.
  right. pose proof (is_fresh o). cbn. split; [lia|]. split; [|by rewrite set_map_union_L, set_map_singleton_L].
  rewrite elem_of_map. intros (x & Hx & Hin). apply Nat2Z.inj in Hx as <-. done.
Qed.

#[export] Instance demo_laws : @SocketLaws demo_api.
Proof.
  refine {| descriptors := (λ o : gset nat, set_map Z.of_nat o) : @os demo_api → gset Z |};
    try done; cbn.
  - intros o fd. rewrite elem_of_map. intros (x & -> & _). lia.
  - exact open_next_opens.
  - intros _ o r o' [= <- <-]. apply open_next_opens.
  - intros fd o. destruct (Z.leb_spec 0 fd); apply set_eq; intros z; cbn;
      rewrite elem_of_difference, elem_of_singleton, !elem_of_map; split.
    + intros (x & -> & Hx). split; [|intros Hz]; set_solver by lia.
    + intros [(x & -> & Hx) Hne]. exists x. split; [done|].
      apply elem_of_difference. split; [done|]. rewrite elem_of_singleton. lia.
    + intros (x & -> & Hx). split; [by exists x|lia].
    + intros [(x & -> & Hx) _]. by exists x.
Defined.

Definition demo_descriptors : @os demo_api := ({[0; 1; 2]} : gset nat)%nat.
Definition demo_life : list (socket_call * Z) * @os demo_api * outcome unit :=
  @server_life demo_api "AdaptiveApplication1_proc1" 2 Asleep demo_descriptors.

Lemma connections_leak_witness :
  ∃ server accepted created,
    sockets_made demo_life.1.1 = server :: created ∧ taken demo_life.1.1 = accepted ∧
    length accepted = 2%nat ∧ length created = 2%nat ∧ closed demo_life.1.1 = server :: accepted ∧
    NoDup (server :: accepted ++ created) ∧
    @descriptors _ demo_laws demo_descriptors ## list_to_set (server :: accepted ++ created) ∧
    @descriptors _ demo_laws demo_life.1.2 = @descriptors _ demo_laws demo_descriptors ∪ list_to_set created.
Proof.
  apply (@connections_leak demo_api demo_laws "AdaptiveApplication1_proc1" 2 Asleep demo_descriptors
    demo_life.1.1 demo_life.1.2).
  - apply (bool_decide_unpack _). vm_compute. exact I.
  - vm_compute. reflexivity.
  - assert (forallb (λ call : socket_call * Z, 0 <=? call.2) demo_life.1.1 = true) as Hall
      by (vm_compute; reflexivity).
    apply Forall_forall. intros call Hin. rewrite forallb_forall in Hall.
    by apply Z.leb_le, Hall.
Defined.

(** The calls of a life with one connection: the sockets 3 (the server's), 4 (accepted)
    and 5 (never closed). *)
Example demo_calls :
  (@server_life demo_api "AdaptiveApplication1_proc1" 1 Asleep demo_descriptors).1.1.*1
    = let path := server_path "AdaptiveApplication1_proc1" in
      [CUnlink path; CSocket; CBind 3 path; CListen 3 1; CAccept 3; CFcntl 4 F_SETFD O_NONBLOCK;
       CSocket; CClose 3; CClose 4].
Proof. vm_compute. reflexivity. Qed.

Lemma set_component_state_calls_witness :
  ∃ tr o', @set_component_state demo_api Some "kOn" "p1" demo_descriptors = (tr, o', Ret kSuccess) ∧
    @descriptors _ demo_laws o' = @descriptors _ demo_laws demo_descriptors.
Proof.
  set (run := @set_component_state demo_api Some "kOn" "p1" demo_descriptors).
  exists run.1.1, run.1.2. assert (run = (run.1.1, run.1.2, Ret kSuccess)) as Hrun
    by (vm_compute; reflexivity).
  split; [exact Hrun|].
  exact (proj1 (@set_component_state_calls demo_api demo_laws Some "kOn" "p1" "kOn" demo_descriptors
    run.1.1 run.1.2 kSuccess eq_refl Hrun)).
Defined.
