(* ===== verification/AdaptiveApp.v ===== *)
(** * Adaptive applications

    [applications/AdaptiveApplication1/src/adaptive_app.cpp], [state.cpp] and
    [mean_calculator.cpp]; the processes of [AdaptiveApplication2] are built from the
    same class. An application is a component as well: it is told to go on or to
    suspend, by messages to its server (event mode) or by asking the Execution Manager
    (poll mode). *)

From stdpp Require Import base list strings numbers.
From S2P Require Import Prelude Constants Queues.

Local Open Scope string_scope.
Local Open Scope list_scope.

(** The states ([State] and its subclasses). *)
Inductive AppPhase := AInit | ARun | ASuspend | AShutDown.
#[export] Instance AppPhase_eq_dec : EqDecision AppPhase.
Proof. solve_decision. Defined.

Definition StateFactory : IStateFactory AppPhase := {|
  createInit := Some AInit;
  createRun := Some ARun;
  createShutDown := Some AShutDown;
  createSuspend := Some ASuspend;
|}.

(** The calls to the clients and the calculator. *)
Inductive app_call :=
  | Report (state : Z)
  | AskComponentState
  | Confirm (state : string) (status : ComponentClientReturnType.t)
  | Mean
  | StartComponentServer.

(** A reply to [GetComponentState]: the result and the state. *)
Notation component_reply := (ComponentClientReturnType.t * string)%type.

(** [IComponentServerWrapper]: what the application uses of its server, on the queue of
    received messages. *)
Class IComponentServerWrapper := {
  getQueueElement : SafeQueue.t → outcome (bool * string) * SafeQueue.t;
  setStateUpdateHandler : string → outcome string;
}.

Module AdaptiveApp.
Record t := mk {
  m_componentState : string;
  m_currentState : option AppPhase;
  m_eventModeEnabled : bool;
  (** the messages in the server's queue *)
  queue : SafeQueue.t;
  (** the replies the component client will get *)
  replies : list component_reply;
}.

Definition upd_component f s := mk (f (m_componentState s)) (m_currentState s)
  (m_eventModeEnabled s) (queue s) (replies s).
Definition upd_phase f s := mk (m_componentState s) (f (m_currentState s))
  (m_eventModeEnabled s) (queue s) (replies s).
Definition upd_queue f s := mk (m_componentState s) (m_currentState s)
  (m_eventModeEnabled s) (f (queue s)) (replies s).
Definition upd_replies f s := mk (m_componentState s) (m_currentState s)
  (m_eventModeEnabled s) (queue s) (f (replies s)).
End AdaptiveApp.
Import AdaptiveApp (m_componentState, m_currentState, m_eventModeEnabled).

Notation A := (cpp AdaptiveApp.t app_call).

(** The constructor; in event mode it starts the server. *)
Definition construct_app (eventModeEnabled : bool) (replies : list component_reply) :
    list app_call * AdaptiveApp.t :=
  (if eventModeEnabled then [StartComponentServer] else [],
   AdaptiveApp.mk COMPONENT_STATE_ON None eventModeEnabled (SafeQueue.mk []) replies).

(** ** [api::MeanCalculator] *)

(** The arithmetic of doubles and the distribution's samples are the environment's. *)
Section mean_calculator.
Context {double : Type} (zero : double) (plus divide : double → double → double)
  (of_size : nat → double) (d : nat → double).

Definition c_numberOfSamples : nat := 50.

Definition readSensorData : list double := d <$> seq 0 c_numberOfSamples.

Definition mean : double :=
  let data := readSensorData in
  let sum := foldl plus zero data in
  divide sum (of_size (length data)).
End mean_calculator.

(** ** The states *)

Definition app_enter (p : AppPhase) : A unit :=
  match p with
  | AInit => emit (Report ApplicationState.K_INITIALIZING)
  | ARun => emit (Report ApplicationState.K_RUNNING)
  | ASuspend => mret tt
  | AShutDown => emit (Report ApplicationState.K_SHUTTINGDOWN)
  end.

(** [leave] does nothing in any state. *)
Definition app_leave (p : AppPhase) : A unit := mret tt.

Definition phase_performAction (p : AppPhase) : A unit :=
  match p with ARun => emit Mean | _ => mret tt end.

(** ** The application *)

(** The new state is entered: a null pointer is dereferenced when there is none. *)
Definition app_enter_new (next : option AppPhase) : A unit :=
  modify (AdaptiveApp.upd_phase (λ _, next));;
  match next with Some p => app_enter p | None => halt Undefined end.

Definition app_init : A unit := app_enter_new (createInit StateFactory).

(** Without a state, a null pointer is dereferenced. *)
Definition app_transitToNextState (nextState : option AppPhase) : A unit :=
  current ← gets m_currentState;
  match current with
  | None => halt Undefined
  | Some p => app_leave p;; app_enter_new nextState
  end.

Definition app_run : A unit :=
  app_transitToNextState (createRun StateFactory);;
  modify (AdaptiveApp.upd_component (λ _, COMPONENT_STATE_ON)).

Definition app_terminate : A unit := app_transitToNextState (createShutDown StateFactory).

Definition app_suspend : A unit :=
  app_transitToNextState (createSuspend StateFactory);;
  modify (AdaptiveApp.upd_component (λ _, COMPONENT_STATE_OFF)).

Definition isValid (state : string) : bool :=
  bool_decide (COMPONENT_STATE_ON = state ∨ COMPONENT_STATE_OFF = state).

Definition shouldResume (current state : string) : bool :=
  bool_decide (current ≠ state ∧ COMPONENT_STATE_ON = state).

Definition shouldSuspend (current state : string) : bool :=
  bool_decide (current ≠ state ∧ COMPONENT_STATE_OFF = state).

Definition setComponentState (state : string) : A ComponentClientReturnType.t :=
  if isValid state then
    current ← gets m_componentState;
    if shouldResume current state then
      app_run;; mret ComponentClientReturnType.K_SUCCESS
    else if shouldSuspend current state then
      app_suspend;; mret ComponentClientReturnType.K_SUCCESS
    else mret ComponentClientReturnType.K_UNCHANGED
  else mret ComponentClientReturnType.K_INVALID.

Definition stateUpdateHandler (state : string) : A unit :=
  result ← setComponentState state; emit (Confirm state result).

(** [m_componentClient->GetComponentState(state)]. *)
Definition askComponentState : A component_reply :=
  emit AskComponentState;;
  s ← get;
  match AdaptiveApp.replies s with
  | [] => halt Blocked
  | r :: rest => modify (AdaptiveApp.upd_replies (λ _, rest));; mret r
  end.

Definition pollComponentState : A unit :=
  '(result, state) ← askComponentState;
  result ← (if decide (ComponentClientReturnType.K_SUCCESS = result)
            then setComponentState state else mret result);
  emit (Confirm state result).

Section server.
Context `{IComponentServerWrapper}.

Definition app_performAction : A unit :=
  event ← gets m_eventModeEnabled;
  (if (event : bool) then
     s ← get;
     let '(o, q) := getQueueElement (AdaptiveApp.queue s) in
     modify (AdaptiveApp.upd_queue (λ _, q));;
     '(found, receivedData) ← lift o;
     if (found : bool) then
       state ← lift (setStateUpdateHandler receivedData); stateUpdateHandler state
     else mret tt
   else pollComponentState);;
  current ← gets m_currentState;
  match current with
  | None => halt Undefined
  | Some p => phase_performAction p
  end.

(** [main] of the three applications, with the number of turns of its loop until the
    signal arrives. *)
Definition app_main (turns : nat) : A unit :=
  app_init;; app_run;; for_each (λ _, app_performAction) (seq 0 turns);; app_terminate.
End server.

(** ** The component server *)

(** What the wrapper of [common/component/src/i_component_server_wrapper.cpp] does:
    [getQueueElement] flows off its end without a value, and so does
    [setStateUpdateHandler] of [component_server.cpp] on a message of another type.
    [unpack] is the protobuf library: the state in a message. *)
Section component_server.
Context (unpack : string → option string).

Definition ComponentServerWrapper : IComponentServerWrapper := {|
  getQueueElement q :=
    let '(_, _, q') := SafeQueue.pop "" q in (Stop Undefined, q');
  setStateUpdateHandler recv :=
    match unpack recv with Some state => Ret state | None => Stop Undefined end;
|}.
End component_server.

(** The contract of the interface: [getQueueElement] tells whether a message was in the
    queue and takes it. *)
Class TakesMessages `{IComponentServerWrapper} : Prop := {
  takes_message q :
    getQueueElement q = let '(found, data, q') := SafeQueue.pop "" q in (Ret (found, data), q');
}.

(** A server that keeps it, for examples. *)
Definition demo_wrapper : IComponentServerWrapper := {|
  getQueueElement q := let '(found, data, q') := SafeQueue.pop "" q in (Ret (found, data), q');
  setStateUpdateHandler recv := Ret recv;
|}.

#[export] Instance demo_wrapper_takes : @TakesMessages demo_wrapper.
Proof. by split. Qed.

(** ** What the component does *)

(** The application is in a state that agrees with the state of the component. *)
Definition in_step (s : AdaptiveApp.t) : Prop :=
  (m_componentState s = COMPONENT_STATE_ON ∧ m_currentState s = Some ARun) ∨
  (m_componentState s = COMPONENT_STATE_OFF ∧ m_currentState s = Some ASuspend).

(** The answer to a state, the state afterwards, and what is reported. *)
Definition component_step (current state : string) :
    string * ComponentClientReturnType.t * list app_call :=
  if isValid state then
    if decide (current = state) then (current, ComponentClientReturnType.K_UNCHANGED, [])
    else (state, ComponentClientReturnType.K_SUCCESS,
          if decide (state = COMPONENT_STATE_ON) then [Report ApplicationState.K_RUNNING] else [])
  else (current, ComponentClientReturnType.K_INVALID, []).

Definition phase_of (component : string) : AppPhase :=
  if decide (component = COMPONENT_STATE_ON) then ARun else ASuspend.

(** An application that is in step, with the given component state. *)
Definition at_component (c : string) (s : AdaptiveApp.t) : AdaptiveApp.t :=
  AdaptiveApp.upd_phase (λ _, Some (phase_of c)) (AdaptiveApp.upd_component (λ _, c) s).

Lemma in_step_at s : in_step s ↔
  (m_componentState s = COMPONENT_STATE_ON ∨ m_componentState s = COMPONENT_STATE_OFF) ∧
  s = at_component (m_componentState s) s.
Proof.
  destruct s as [c p e q r]. unfold in_step, at_component, phase_of, AdaptiveApp.upd_phase, AdaptiveApp.upd_component. cbn. split.
  - intros [[-> ->]|[-> ->]]; cbn; auto.
  - intros [[-> | ->] H]; cbn in H; injection H as ->; auto.
Qed.

Lemma setComponentState_spec state s :
  in_step s →
  let '(c, r, reports) := component_step (m_componentState s) state in
  setComponentState state s = (reports, at_component c s, Ret r) ∧ in_step (at_component c s).
Proof.
  rewrite in_step_at. destruct s as [c p e q r]. cbn. intros [Hc Hs]. rewrite Hs.
  unfold setComponentState, component_step, isValid, shouldResume, shouldSuspend.
  destruct Hc as [-> | ->]; case_bool_decide as Hv; cbn;
    try (destruct Hv as [<-|<-]); cbn; (split; [reflexivity|]); apply in_step_at; cbn; auto.
Qed.

(** ** Sequences of updates *)

(** A reply with an error is passed on without a change. *)
Definition reply_step (current : string) (reply : component_reply) :
    string * ComponentClientReturnType.t * list app_call :=
  if decide (ComponentClientReturnType.K_SUCCESS = reply.1) then component_step current reply.2
  else (current, reply.1, []).

(** The last component state and the calls after a sequence of replies: what is asked,
    what a change reports, the confirmation, and the work of the state Running. *)
Fixpoint component_trace (asked : list app_call) (current : string)
    (replies : list component_reply) : string * list app_call :=
  match replies with
  | [] => (current, [])
  | reply :: replies =>
      let '(c, r, reports) := reply_step current reply in
      let '(c', tr) := component_trace asked c replies in
      (c', asked ++ reports ++ Confirm reply.2 r ::
             (if decide (c = COMPONENT_STATE_ON) then [Mean] else []) ++ tr)
  end.

Lemma at_component_again c c' s : at_component c (at_component c' s) = at_component c s.
Proof. done. Qed.

Lemma performAction_phase c s :
  in_step (at_component c s) →
  match Some (phase_of c) with
  | None => halt Undefined
  | Some p => phase_performAction p
  end (at_component c s)
    = (if decide (c = COMPONENT_STATE_ON) then [Mean] else [], at_component c s, Ret tt).
Proof. intros _. unfold phase_of. by case_decide. Qed.

(** One turn in poll mode. *)
Lemma poll_turn `{IComponentServerWrapper} s reply rest :
  in_step s → m_eventModeEnabled s = false → AdaptiveApp.replies s = reply :: rest →
  let '(c, r, reports) := reply_step (m_componentState s) reply in
  let s' := at_component c (AdaptiveApp.upd_replies (λ _, rest) s) in
  app_performAction s =
    (AskComponentState :: reports ++ Confirm reply.2 r ::
       (if decide (c = COMPONENT_STATE_ON) then [Mean] else []), s', Ret tt) ∧
  in_step s'.
Proof.
  intros Hs He Hr. destruct reply as [result state].
  set (s0 := AdaptiveApp.upd_replies (λ _, rest) s).
  assert (in_step s0) as Hs0 by exact Hs.
  pose proof (setComponentState_spec state s0 Hs0) as Hset.
  change (m_componentState s0) with (m_componentState s) in Hset.
  unfold reply_step. cbn [fst snd].
  unfold app_performAction, pollComponentState, askComponentState.
  cbv [mbind cpp_bind gets get emit modify]. rewrite He. cbn -[setComponentState in_step].
  rewrite Hr. cbn -[setComponentState in_step].
  change (AdaptiveApp.upd_replies (λ _ : list component_reply, rest) s) with s0.
  case_decide as Hres.
  - destruct (component_step (m_componentState s) state) as [[c r] reports].
    destruct Hset as [Hset Hin]. rewrite Hset. cbn -[in_step].
    split; [|exact Hin]. unfold phase_of. case_decide; cbn; by rewrite ?app_nil_r, <- ?app_assoc.
  - pose proof Hs0 as Hs1. apply in_step_at in Hs0 as [_ Heq].
    change (m_componentState s0) with (m_componentState s) in Heq.
    assert (m_currentState s0 = Some (phase_of (m_componentState s))) as Hp by by rewrite Heq.
    rewrite <- Heq. split; [|exact Hs1]. cbn -[in_step]. change (m_currentState s0) with (m_currentState s) in Hp. rewrite Hp. unfold phase_of.
    by case_decide.
Qed.

(** One turn in event mode, with a server that keeps the contract. *)
Lemma event_turn `{TakesMessages} s message rest state :
  in_step s → m_eventModeEnabled s = true →
  AdaptiveApp.queue s = SafeQueue.mk (message :: rest) → setStateUpdateHandler message = Ret state →
  let '(c, r, reports) := component_step (m_componentState s) state in
  let s' := at_component c (AdaptiveApp.upd_queue (λ _, SafeQueue.mk rest) s) in
  app_performAction s =
    (reports ++ Confirm state r ::
       (if decide (c = COMPONENT_STATE_ON) then [Mean] else []), s', Ret tt) ∧
  in_step s'.
Proof.
  intros Hs He Hq Hu.
  set (s0 := AdaptiveApp.upd_queue (λ _, SafeQueue.mk rest) s).
  assert (in_step s0) as Hs0 by exact Hs.
  pose proof (setComponentState_spec state s0 Hs0) as Hset.
  change (m_componentState s0) with (m_componentState s) in Hset.
  unfold app_performAction. cbv [mbind cpp_bind gets get emit modify lift]. rewrite He, Hq.
  rewrite takes_message. cbn -[setComponentState in_step]. rewrite Hu. unfold stateUpdateHandler.
  cbv [mbind cpp_bind]. cbn -[setComponentState in_step].
  change (AdaptiveApp.upd_queue (λ _ : SafeQueue.t, SafeQueue.mk rest) s) with s0.
  destruct (component_step (m_componentState s) state) as [[c r] reports].
  destruct Hset as [Hset Hin]. rewrite Hset. cbn -[in_step].
  split; [|exact Hin]. unfold phase_of. case_decide; cbn; by rewrite ?app_nil_r, <- ?app_assoc.
Qed.

Lemma component_trace_cons asked c0 reply rs :
  component_trace asked c0 (reply :: rs) =
    let '(c, r, reports) := reply_step c0 reply in
    let '(c', tr) := component_trace asked c rs in
    (c', asked ++ reports ++ Confirm reply.2 r ::
           (if decide (c = COMPONENT_STATE_ON) then [Mean] else []) ++ tr).
Proof. done. Qed.

Lemma polls_trace `{IComponentServerWrapper} {B} (l : list B) rs s :
  length l = length rs →
  in_step s → m_eventModeEnabled s = false → AdaptiveApp.replies s = rs →
  let '(c, tr) := component_trace [AskComponentState] (m_componentState s) rs in
  for_each (λ _, app_performAction) l s
    = (tr, at_component c (AdaptiveApp.upd_replies (λ _, []) s), Ret tt) ∧
  in_step (at_component c (AdaptiveApp.upd_replies (λ _, []) s)).
Proof.
  revert l s. induction rs as [|reply rs IH]; intros [|x l] s Hl Hs He Hr; try done.
  { cbn. pose proof Hs as Hs1. apply in_step_at in Hs as [_ Heq].
    assert (AdaptiveApp.upd_replies (λ _, []) s = s) as -> by (destruct s; cbn in *; by subst).
    by rewrite <- Heq. }
  injection Hl as Hl. rewrite component_trace_cons.
  pose proof (poll_turn s reply rs Hs He Hr) as Ht.
  destruct (reply_step (m_componentState s) reply) as [[c r] reports]. destruct Ht as [Ht Hin].
  set (s1 := at_component c (AdaptiveApp.upd_replies (λ _, rs) s)) in *.
  specialize (IH l s1 Hl Hin He eq_refl).
  change (m_componentState s1) with c in IH.
  destruct (component_trace [AskComponentState] c rs) as [c' tr].
  destruct IH as [IH Hin']. cbn [for_each].
  rewrite (run_bind _ _ _ _ s1 tt) by exact Ht. rewrite IH. split; [|exact Hin'].
  change (AdaptiveApp.upd_replies (λ _, []) s1) with (at_component c (AdaptiveApp.upd_replies (λ _, []) s)).
  rewrite at_component_again. f_equal. f_equal.
  cbn. f_equal. by rewrite <- app_assoc.
Qed.

(** In poll mode the component follows the Execution Manager: after any sequence of
    replies its state is the last valid one it was told, the application is running
    exactly when it is On, every reply is confirmed with the right status (success on a
    change, unchanged, invalid, or the error of the reply), and resuming reports Running
    while suspending reports nothing. *)
Theorem polls_followed `{IComponentServerWrapper} (rs : list component_reply)
    (s : AdaptiveApp.t) :
  in_step s → m_eventModeEnabled s = false → AdaptiveApp.replies s = rs →
  let '(c, tr) := component_trace [AskComponentState] (m_componentState s) rs in
  for_each (λ _, app_performAction) (seq 0 (length rs)) s
    = (tr, at_component c (AdaptiveApp.upd_replies (λ _, []) s), Ret tt) ∧
  in_step (at_component c (AdaptiveApp.upd_replies (λ _, []) s)).
Proof. intros. apply polls_trace; [by rewrite length_seq|done..]. Qed.

(** In event mode, with any server that keeps the contract of its interface, the
    application does the same with the states of the messages in its queue, in order. *)
Theorem messages_followed `{TakesMessages} (messages : list string) (states : list string)
    (s : AdaptiveApp.t) :
  in_step s → m_eventModeEnabled s = true → AdaptiveApp.queue s = SafeQueue.mk messages →
  Forall2 (λ m st, setStateUpdateHandler m = Ret st) messages states →
  let '(c, tr) := component_trace [] (m_componentState s)
                    ((λ st, (ComponentClientReturnType.K_SUCCESS, st)) <$> states) in
  for_each (λ _, app_performAction) messages s
    = (tr, at_component c (AdaptiveApp.upd_queue (λ _, SafeQueue.mk []) s), Ret tt).
Proof.
  intros Hs He Hq Hall. revert s Hs He Hq.
  induction Hall as [|m st messages states Hu Hall IH]; intros s Hs He Hq.
  { cbn. apply in_step_at in Hs as [_ Heq].
    assert (AdaptiveApp.upd_queue (λ _, SafeQueue.mk []) s = s) as -> by (destruct s; cbn in *; by subst).
    by rewrite <- Heq. }
  cbn [fmap list_fmap]. rewrite component_trace_cons. unfold reply_step. cbn [fst snd].
  rewrite decide_True by done.
  pose proof (event_turn s m messages st Hs He Hq Hu) as Ht.
  destruct (component_step (m_componentState s) st) as [[c r] reports]. destruct Ht as [Ht Hin].
  set (s1 := at_component c (AdaptiveApp.upd_queue (λ _, SafeQueue.mk messages) s)) in *.
  specialize (IH s1 Hin He eq_refl). change (m_componentState s1) with c in IH.
  destruct (component_trace [] c _) as [c' tr]. cbn [for_each].
  rewrite (run_bind _ _ _ _ s1 tt) by exact Ht. rewrite IH.
  change (AdaptiveApp.upd_queue (λ _, SafeQueue.mk []) s1)
    with (at_component c (AdaptiveApp.upd_queue (λ _, SafeQueue.mk []) s)).
  rewrite at_component_again. f_equal. f_equal. cbn. by rewrite <- app_assoc.
Qed.

(** With the wrapper the program has, no turn in event mode has a defined
    behaviour: the function that takes a message from the queue does not return its
    result, whether or not there is a message. *)
Theorem event_mode_undefined (unpack : string → option string) (s : AdaptiveApp.t) :
  m_eventModeEnabled s = true →
  run_outcome (@app_performAction (ComponentServerWrapper unpack) s) = Stop Undefined.
Proof.
  intros He. unfold app_performAction. cbv [mbind cpp_bind gets get]. rewrite He.
  cbn. by destruct (SafeQueue.pop "" (AdaptiveApp.queue s)) as [[??]?].
Qed.

(** ** Examples *)

Definition demo_app (event : bool) (messages : list string) (replies : list component_reply) :
    AdaptiveApp.t :=
  AdaptiveApp.mk COMPONENT_STATE_ON (Some ARun) event (SafeQueue.mk messages) replies.

Lemma demo_in_step event messages replies : in_step (demo_app event messages replies).
Proof. by left. Qed.

Definition demo_replies : list component_reply :=
  [(ComponentClientReturnType.K_SUCCESS, COMPONENT_STATE_OFF);
   (ComponentClientReturnType.K_GENERAL_ERROR, "");
   (ComponentClientReturnType.K_SUCCESS, COMPONENT_STATE_ON)].

Lemma polls_followed_witness :
  for_each (λ _, @app_performAction demo_wrapper) (seq 0 3)
      (demo_app false [] demo_replies)
    = ([AskComponentState; Confirm COMPONENT_STATE_OFF ComponentClientReturnType.K_SUCCESS;
        AskComponentState; Confirm "" ComponentClientReturnType.K_GENERAL_ERROR;
        AskComponentState; Report ApplicationState.K_RUNNING;
        Confirm COMPONENT_STATE_ON ComponentClientReturnType.K_SUCCESS; Mean],
       demo_app false [] [], Ret tt) ∧
  in_step (demo_app false [] []).
Proof.
  exact (@polls_followed demo_wrapper demo_replies (demo_app false [] demo_replies)
    (demo_in_step _ _ _) eq_refl eq_refl).
Defined.

Lemma messages_followed_witness :
  for_each (λ _, @app_performAction demo_wrapper) ["kOff"; "kOff"; "x"]
      (demo_app true ["kOff"; "kOff"; "x"] [])
    = ([Confirm "kOff" ComponentClientReturnType.K_SUCCESS;
        Confirm "kOff" ComponentClientReturnType.K_UNCHANGED;
        Confirm "x" ComponentClientReturnType.K_INVALID],
       at_component "kOff" (demo_app true [] []), Ret tt).
Proof.
  refine (@messages_followed demo_wrapper _ _ ["kOff"; "kOff"; "x"] (demo_app true ["kOff"; "kOff"; "x"] [])
    (demo_in_step _ _ _) eq_refl eq_refl _).
  repeat constructor.
Defined.

Lemma event_mode_undefined_witness :
  m_eventModeEnabled (demo_app true [] []) = true ∧
  run_outcome (@app_performAction (ComponentServerWrapper Some) (demo_app true [] [])) = Stop Undefined.
Proof. split; [reflexivity|]. by apply (event_mode_undefined Some (demo_app true [] [])). Defined.
