(* ===== verification/Clients.v ===== *)
(** * The clients of the Execution Manager's interface

    [common/component/src/component_client.cpp], [common/application_state_client] and the
    wrappers [i_*_client_wrapper.cpp]: what a request does when it is answered, and what
    becomes of the program when the connection fails. *)

From Stdlib Require Import Ascii.
From stdpp Require Import base list gmap strings numbers.
From S2P Require Import Prelude CppString Constants Common ExecutionManager EMServer.
From S2P Require Import AdaptiveApp MachineStateClient.

(** ** Requests *)

(** [request.send().wait(...)] on a capability of [capnp::EzRpcClient]: the results of the
    request, or an exception. *)
Class RpcClient (St E : Type) := request : rpc → cpp St E results.

(** The body of a [noexcept] function. *)
Definition noexcept_call {St E A} (m : cpp St E A) : cpp St E A := λ s,
  let '(tr, s', o) := m s in (tr, s', noexcept o).

(** ** [component_client::ComponentClient] *)

Module ComponentClient.

(** [m_listenFulfiller] and [m_serverExecutor] say whether there is a fulfiller, and an
    executor of a server's thread. *)
Record t := mk {
  m_componentName : string;
  m_updateMode : StateUpdateMode.t;
  m_listenFulfiller : bool;
  m_serverExecutor : bool;
}.

Section operations.
Context `{RpcClient St E}.

(** The constructor registers the component. *)
Definition construct (componentName : string) (mode : StateUpdateMode.t) : cpp St E t :=
  noexcept_call (request (registerComponent_rpc componentName mode);;
                 mret (mk componentName mode false false)).

(** The destructor waits for the executor, and ends the server, if there is one. *)
Definition destroy (c : t) : cpp St E unit :=
  if negb (m_listenFulfiller c) then mret tt
  else if m_serverExecutor c then mret tt
  else halt Blocked.

(** A field of the results that has not been set is read as its default. *)
Definition GetComponentState (c : t) : cpp St E component_reply :=
  noexcept_call (
    res ← request (getComponentState_rpc (m_componentName c));
    mret (default ComponentClientReturnType.K_SUCCESS (res_component res), default "" (res_state res))).

Definition ConfirmComponentState (c : t) (state : string) (status : ComponentClientReturnType.t) :
    cpp St E unit :=
  noexcept_call (request (confirmComponentState_rpc (m_componentName c) state status);; mret tt).
End operations.
End ComponentClient.

(** [i_component_client_wrapper.cpp]: every member function forwards, and is [noexcept]. *)
Module ComponentClientWrapper.
Record t := mk { m_client : ComponentClient.t }.

Section operations.
Context `{RpcClient St E}.

Definition construct (component : string) (updateMode : StateUpdateMode.t) : cpp St E t :=
  noexcept_call (client ← ComponentClient.construct component updateMode; mret (mk client)).

Definition destroy (w : t) : cpp St E unit := noexcept_call (ComponentClient.destroy (m_client w)).

Definition GetComponentState (w : t) : cpp St E component_reply :=
  noexcept_call (ComponentClient.GetComponentState (m_client w)).

Definition ConfirmComponentState (w : t) (state : string) (status : ComponentClientReturnType.t) :
    cpp St E unit :=
  noexcept_call (ComponentClient.ConfirmComponentState (m_client w) state status).
End operations.
End ComponentClientWrapper.

(** ** [application_state::ApplicationStateClient] *)

Module ApplicationStateClient.
Record t := mk { m_pid : Z }.

Section operations.
Context `{RpcClient St E}.

(** The request, once the name of the process is known. *)
Definition report_as (appName : string) (state : Z) : cpp St E unit :=
  request (reportApplicationState_rpc appName state);; mret tt.

(** The name is found from the command line of the process. *)
Definition ReportApplicationState (fs : file_system) (c : t) (state : Z) : cpp St E unit :=
  appName ← lift (parseServiceName (getAppBinaryPath fs (m_pid c)));
  report_as appName state.
End operations.
End ApplicationStateClient.

(** [i_application_state_client_wrapper.cpp] *)
Module ApplicationStateClientWrapper.
Record t := mk { m_client : ApplicationStateClient.t }.

Definition ReportApplicationState `{RpcClient St E} (fs : file_system) (w : t) (state : Z) : cpp St E unit :=
  ApplicationStateClient.ReportApplicationState fs (m_client w) state.
End ApplicationStateClientWrapper.

(** ** [machine_state_client::MachineStateClientWrapper]

    [i_machine_state_client_wrapper.cpp] forwards to a client for the Execution Manager's
    address. That client turns the exceptions of its requests into results. *)
Module MachineStateClientWrapper.
Record t := mk { m_machineClient : MachineStateClient.t }.

Definition address : string := IPC_PROTOCOL +:+ EM_SOCKET_NAME.

Definition construct : t := mk MachineStateClient.init.

Definition Register (reply : rpc_reply StateError.t) (w : t) : t * StateError.t :=
  let '(c, r) := MachineStateClient.Register reply (m_machineClient w) in (mk c, r).

Definition GetMachineState (reply : rpc_reply (string * StateError.t)) (state : string) (w : t) :
    string * StateError.t :=
  MachineStateClient.GetMachineState reply state.

(** Up to the wait for the confirmation. *)
Definition SetMachineState (reply : rpc_reply StateError.t) (w : t) : t * option (outcome StateError.t) :=
  let '(c, r) := MachineStateClient.SetMachineState_begin reply (m_machineClient w) in (mk c, r).

Definition waitForConfirm (w : t) : t * option (outcome StateError.t) :=
  let '(c, r) := MachineStateClient.waitForConfirm_begin (m_machineClient w) in (mk c, r).
End MachineStateClientWrapper.

(** No failure of the connection leaves the wrapper as an exception: the request is
    refused, or it has timed out when the Execution Manager is gone or overloaded. *)
Lemma machine_client_failures (w : MachineStateClientWrapper.t) (e : kj_exception) (state : string) :
  let r := if decide (e = OVERLOADED ∨ e = DISCONNECTED) then StateError.K_TIMEOUT
           else StateError.K_INVALID_REQUEST in
  (MachineStateClientWrapper.Register (Failed e) w).2 = r ∧
  MachineStateClientWrapper.GetMachineState (Failed e) state w = (state, r) ∧
  MachineStateClientWrapper.SetMachineState (Failed e) w = (w, Some (Ret r)).
Proof. destruct w as [c], e; by split_and!. Qed.

(** ** Requests that the Execution Manager answers *)

#[export] Instance answering : RpcClient server call := handle.

(** The handlers make no calls and throw nothing: the library has no exception to pass on. *)
Lemma handle_outcome r s :
  ∃ s', (∃ res, handle r s = ([], s', Ret res)) ∨ handle r s = ([], s', Stop Undefined).
Proof.
  destruct r as [n st|p n|p|p st|c m|c|c st ret]; cbn [handle].
  - unfold handle_reportApplicationState, on_em, reportApplicationState.
    cbv [mbind cpp_bind]. destruct (applicationStateNames !! _); [|by eauto].
    cbv [modify mret cpp_ret]. repeat case_decide; eauto.
  - unfold handle_register. cbv [mbind cpp_bind get modify mret cpp_ret].
    destruct (MsmHandler.registerMsm _ _ _); eauto.
  - unfold handle_getMachineState, on_em. cbn. eauto.
  - unfold handle_setMachineState. cbv [mbind cpp_bind get modify mret cpp_ret].
    destruct (negb _); eauto.
  - unfold handle_registerComponent, on_em, registerComponent.
    cbv [mbind cpp_bind modify mret cpp_ret]. case_decide; eauto.
  - unfold handle_getComponentState, on_em, getComponentState.
    cbv [mbind cpp_bind get mret cpp_ret]. case_decide; eauto.
  - unfold handle_confirmComponentState, on_em, confirmComponentState.
    cbv [mbind cpp_bind get modify mret cpp_ret]. repeat case_decide; eauto.
Qed.

(** No member function makes a server: the destructor always returns at once, and the
    component stays registered. *)
Lemma component_client_life name mode s s' tr w :
  ComponentClientWrapper.construct name mode s = (tr, s', Ret w) →
  ComponentClientWrapper.destroy (E := call) w s' = ([], s', Ret tt) ∧
  m_registeredComponents (m_em s') = m_registeredComponents (m_em s) ∪ {[c_str name]}.
Proof.
  unfold ComponentClientWrapper.construct, ComponentClient.construct, noexcept_call, request, answering.
  cbn [handle]. unfold handle_registerComponent, on_em, registerComponent.
  cbv [mbind cpp_bind modify mret cpp_ret]. case_decide; by intros [= _ <- <-].
Qed.

(** A report under the name of the process, as the handler reads it. *)
Lemma report_named fs pid name state s :
  c_str <$> parseServiceName (getAppBinaryPath fs pid) = Ret name →
  ApplicationStateClientWrapper.ReportApplicationState fs
    (ApplicationStateClientWrapper.mk (ApplicationStateClient.mk pid)) state s
    = ApplicationStateClient.report_as name state s.
Proof.
  unfold ApplicationStateClientWrapper.ReportApplicationState, ApplicationStateClient.ReportApplicationState.
  cbn. destruct (parseServiceName _) as [n|]; [|done]. intros [= <-].
  unfold ApplicationStateClient.report_as, request, answering.
  cbn [handle]. unfold handle_reportApplicationState. rewrite c_str_idemp.
  cbv [mbind cpp_bind lift]. by destruct (on_em _ s) as [[??] [[]|?]].
Qed.

(** ** A connection that can fail *)

(** What becomes of a request: it is answered; it does not reach the Execution Manager; it
    does, but the answer does not come back. *)
Inductive fate :=
  | Answered
  | Unreached (e : kj_exception)
  | Unanswered (e : kj_exception).

(** The Execution Manager's side, and the number of requests that have been sent. *)
Record wire (St : Type) := mk_wire { peer : St; sent : nat }.
Arguments mk_wire {St} _ _.
Arguments peer {St} _.
Arguments sent {St} _.

Section connection.
Context {St E : Type} (serve : rpc → cpp St E results) (fates : nat → fate).

(** [wait] throws a [kj::Exception] when there is no answer; an exception of the handler
    is passed on as one. *)
Definition connection : RpcClient (wire St) E := λ r w,
  match fates (sent w) with
  | Unreached e => ([], mk_wire (peer w) (S (sent w)), Stop (Thrown (KjException e)))
  | Unanswered e =>
      let '(tr, s, _) := serve r (peer w) in
      (tr, mk_wire s (S (sent w)), Stop (Thrown (KjException e)))
  | Answered =>
      let '(tr, s, o) := serve r (peer w) in
      (tr, mk_wire s (S (sent w)),
       match o with Stop (Thrown _) => Stop (Thrown (KjException FAILED)) | _ => o end)
  end.

Definition answered (n m : nat) : Prop := ∀ i, n ≤ i → i < m → fates i = Answered.

(** All requests have been answered but the last one. *)
Definition broken (n m : nat) : Prop :=
  ∃ k, n ≤ k ∧ m = S k ∧ fates k ≠ Answered ∧ answered n k.

(** What a program that lost its connection ends with. *)
Definition lost {A} (o : outcome A) : Prop :=
  o = Stop Terminated ∨ ∃ e, o = Stop (Thrown (KjException e)).

(** Over the connection [mc] does what [md] does when it is answered, or a request of it is
    not answered, and it makes no other after this one. *)
Definition follows {A} (mc : cpp (wire St) E A) (md : cpp St E A) : Prop := ∀ s n,
  let '(tr, w, o) := mc (mk_wire s n) in
  (n ≤ sent w ∧ answered n (sent w) ∧ md s = (tr, peer w, o)) ∨ (broken n (sent w) ∧ lost o).

Lemma answered_trans n m k : answered n m → answered m k → answered n k.
Proof. intros H1 H2 i Hn Hk. destruct (decide (i < m)); [apply H1|apply H2]; lia. Qed.

Lemma broken_later n m k : n ≤ m → answered n m → broken m k → broken n k.
Proof.
  intros Hle H1 (i & Hi & -> & Hf & H2). exists i. split_and!; [lia|done|done|]. by eapply answered_trans.
Qed.

Lemma follows_ret {A} (a : A) : follows (mret a) (mret a).
Proof. intros s n. left. split_and!; [done| |done]. intros i. cbn. lia. Qed.

Lemma follows_halt {A} w : follows (halt (A := A) w) (halt w).
Proof. intros s n. left. split_and!; [done| |done]. intros i. cbn. lia. Qed.

Lemma follows_lift {A} (o : outcome A) : follows (lift o) (lift o).
Proof. intros s n. left. split_and!; [done| |done]. intros i. cbn. lia. Qed.

Lemma follows_bind {A B} mc md (f : A → cpp (wire St) E B) g :
  follows mc md → (∀ a, follows (f a) (g a)) → follows (mc ≫= f) (md ≫= g).
Proof.
  intros Hm Hf s n. specialize (Hm s n). unfold mbind, cpp_bind.
  destruct (mc (mk_wire s n)) as [[tr [s1 n1]] o]. destruct Hm as [(Hle & Ha & ->)|[Hb Hl]].
  - destruct o as [a|w]; [|by left]. specialize (Hf a s1 n1). cbn in *.
    destruct (f a (mk_wire s1 n1)) as [[tr2 [s2 n2]] o2]. cbn in *.
    destruct Hf as [(Hle2 & Ha2 & ->)|[Hb2 Hl2]].
    + left. split_and!; [lia|by eapply answered_trans|done].
    + right. split; [by eapply broken_later|done].
  - destruct o as [a|w]; [by destruct Hl as [|[? ?]]|]. right. split; [done|].
    destruct Hl as [[= ->]|[e [= ->]]]; [by left|right; by exists e].
Qed.

Lemma follows_noexcept {A} (mc : cpp (wire St) E A) md :
  follows mc md → follows (noexcept_call mc) (noexcept_call md).
Proof.
  intros Hm s n. specialize (Hm s n). unfold noexcept_call.
  destruct (mc (mk_wire s n)) as [[tr w] o]. destruct Hm as [(Hle & Ha & ->)|[Hb Hl]]; [by left|right].
  split; [done|]. left. by destruct Hl as [-> |[e ->]].
Qed.

Lemma follows_for_each {A} (f : A → cpp (wire St) E unit) g l :
  (∀ a, follows (f a) (g a)) → follows (for_each f l) (for_each g l).
Proof.
  intros Hf. induction l as [|a l IH]; cbn [for_each]; [apply follows_ret|]. by apply follows_bind.
Qed.

(** The contract of the other side: its handlers throw nothing. *)
Lemma follows_request r :
  (∀ s e, run_outcome (serve r s) ≠ Stop (Thrown e)) → follows (connection r) (serve r).
Proof.
  intros Hserve s n. unfold connection. cbn. destruct (fates n) as [|e|e] eqn:Hn.
  - specialize (Hserve s). destruct (serve r s) as [[tr s'] o]. left. cbn.
    split_and!; [lia|intros i ? ?; by replace i with n by lia|].
    destruct o as [a|[e| | |]]; try done. by destruct (Hserve e).
  - right. split; [|right; by eexists]. exists n. cbn. split_and!; [done|done|congruence|]. intros i. lia.
  - destruct (serve r s) as [[tr s'] o]. right. split; [|right; by eexists].
    exists n. cbn. split_and!; [done|done|congruence|]. intros i. lia.
Qed.
End connection.

Create HintDb conn.
#[export] Hint Resolve follows_ret follows_halt follows_lift : conn.

(** One bind after the other; branches are followed. *)
Ltac follow_steps :=
  repeat first
    [ progress intros
    | solve [eauto with conn]
    | match goal with
      | |- follows _ (match ?x with _ => _ end) _ => destruct x
      | |- follows _ (if ?x then _ else _) _ => destruct x
      | |- follows _ (mbind _ _) _ => apply follows_bind
      | |- follows _ (noexcept_call _) _ => apply follows_noexcept
      | |- follows _ (for_each _ _) _ => apply follows_for_each
      end ].

(** The clients over a connection to the Execution Manager. *)
Section clients.
Context (fates : nat → fate).

#[local] Instance over : RpcClient (wire server) call := connection handle fates.

Lemma request_follows r : follows fates (request (RpcClient := over) r) (request (RpcClient := answering) r).
Proof.
  apply (follows_request handle). intros s e.
  destruct (handle_outcome r s) as [s' [[res ->]| ->]]; done.
Qed.
End clients.
#[export] Hint Resolve request_follows : conn.
