(* ===== verification/ComponentProtocol.v ===== *)
(** * Components and the Execution Manager

    The components ([AdaptiveApp], [common/component]) and the Execution Manager's server
    together: a component that polls asks over the interface for its state and confirms
    it. The clients ([Clients]) turn the application's calls into requests of the interface. *)

From stdpp Require Import base list gmap strings numbers.
From S2P Require Import Prelude CppString Constants Common Queues ExecutionManager EMServer.
From S2P Require Import AdaptiveApp Clients.

(** ** An application and its clients *)

Notation component_name w := (ComponentClient.m_componentName (ComponentClientWrapper.m_client w)).

Section clients.
Context `{RpcClient St E}.

(** The calls of an application, carried out; the question has been answered before. The
    process reports under the name of its component ([programs_report_their_names]). *)
Definition deliver (w : ComponentClientWrapper.t) (c : app_call) : cpp St E unit :=
  match c with
  | Report state => ApplicationStateClient.report_as (component_name w) state
  | Confirm state status => ComponentClientWrapper.ConfirmComponentState w state status
  | _ => mret tt
  end.

Context `{IComponentServerWrapper}.

(** One turn of a component that polls. *)
Definition poll_component (w : ComponentClientWrapper.t) (app : AdaptiveApp.t) : cpp St E AdaptiveApp.t :=
  reply ← ComponentClientWrapper.GetComponentState w;
  let '(calls, app, o) := app_performAction (AdaptiveApp.upd_replies (λ _, [reply]) app) in
  for_each (deliver w) calls;;
  lift o;;
  mret app.

Fixpoint poll_components (l : list (ComponentClientWrapper.t * AdaptiveApp.t)) :
    cpp St E (list AdaptiveApp.t) :=
  match l with
  | [] => mret []
  | (w, app) :: l =>
      app ← poll_component w app;
      apps ← poll_components l;
      mret (app :: apps)
  end.
End clients.

(** The names of the components. *)
Definition names (l : list (ComponentClientWrapper.t * AdaptiveApp.t)) : list string :=
  (λ p, component_name p.1) <$> l.

(** ** A round of polling *)

Section polling.
Context `{IComponentServerWrapper}.

Definition valid_component_state (s : server) : Prop :=
  isValid (m_currentComponentState (m_em s)) = true.

(** A component that is registered under a name without null bytes, in poll mode. *)
Definition polls (s : server) (p : ComponentClientWrapper.t * AdaptiveApp.t) : Prop :=
  c_str (component_name p.1) = component_name p.1 ∧
  component_name p.1 ∈ m_registeredComponents (m_em s) ∧
  in_step p.2 ∧ AdaptiveApp.m_eventModeEnabled p.2 = false.

(** What a confirmation does to the Execution Manager. *)
Definition confirmed (name : string) (e : ExecutionManager.t) : ExecutionManager.t :=
  if decide (m_componentPendingConfirms e = ∅) then upd_confirms (λ _, true) e
  else
    let e := upd_pendingConfirms (λ X, X ∖ {[name]}) e in
    upd_confirms (λ _, bool_decide (m_componentPendingConfirms e = ∅)) e.

Lemma deliver_confirm w state status s :
  c_str (component_name w) = component_name w →
  status = ComponentClientReturnType.K_SUCCESS ∨ status = ComponentClientReturnType.K_UNCHANGED →
  deliver w (Confirm state status) s = ([], upd_em (confirmed (component_name w)) s, Ret tt).
Proof.
  intros Hn Hst. unfold deliver, ComponentClientWrapper.ConfirmComponentState,
    ComponentClient.ConfirmComponentState, noexcept_call, request, answering, handle,
    handle_confirmComponentState, on_em.
  rewrite Hn. unfold confirmComponentState, confirmed. destruct s as [e h q r].
  cbv [mbind cpp_bind get modify mret cpp_ret upd_em]. cbn. case_decide as Hp; cbn; [done|].
  rewrite decide_False; [done|]. destruct Hst as [-> | ->]; naive_solver.
Qed.

Lemma deliver_running w s :
  c_str (component_name w) = component_name w →
  deliver w (Report ApplicationState.K_RUNNING) s
    = ([], upd_em (upd_active (λ X, X ∪ {[component_name w]})) s, Ret tt).
Proof.
  intros Hn. unfold deliver, ApplicationStateClient.report_as, request, answering, handle,
    handle_reportApplicationState, on_em.
  rewrite Hn. by destruct s.
Qed.

(** A call that makes no call of the Execution Manager. *)
Lemma for_each_quiet {X} (f : X → cpp server call unit) x l s s1 :
  f x s = ([], s1, Ret tt) → for_each f (x :: l) s = for_each f l s1.
Proof.
  intros Hx. cbn [for_each]. rewrite (run_bind _ _ _ _ _ _ Hx).
  by destruct (for_each f l s1) as [[??]?].
Qed.

Lemma deliver_mean w (s : server) : deliver (E := call) w Mean s = ([], s, Ret tt).
Proof. done. Qed.

(** The parts of the Execution Manager that a component's turn changes. *)
Definition after_turn (name : string) (s s' : server) : Prop :=
  m_componentPendingConfirms (m_em s') = m_componentPendingConfirms (m_em s) ∖ {[name]} ∧
  m_componentConfirmsReceived (m_em s')
    = bool_decide (m_componentPendingConfirms (m_em s') = ∅) ∧
  m_registeredComponents (m_em s') = m_registeredComponents (m_em s) ∧
  m_currentComponentState (m_em s') = m_currentComponentState (m_em s) ∧
  m_activeProcesses (m_em s') ∪ {[name]} = m_activeProcesses (m_em s) ∪ {[name]}.

Lemma confirmed_after name s s' :
  (m_em s' = confirmed name (m_em s) ∨
   m_em s' = confirmed name (upd_active (λ X, X ∪ {[name]}) (m_em s))) →
  after_turn name s s'.
Proof.
  unfold after_turn, confirmed. destruct (m_em s) as [a r c al cu pe cc ms sc rg pc sb]. cbn.
  intros [-> | ->]; case_decide as Hp; cbn; subst;
    (split; [set_solver|]); (split; [|split_and!; [done|done|set_solver]]);
    first [done|by rewrite bool_decide_eq_true_2].
Qed.

Lemma GetComponentState_spec w s :
  c_str (component_name w) = component_name w →
  component_name w ∈ m_registeredComponents (m_em s) →
  ComponentClientWrapper.GetComponentState w s
    = ([], s, Ret (ComponentClientReturnType.K_SUCCESS, m_currentComponentState (m_em s))).
Proof.
  intros Hn Hreg. unfold ComponentClientWrapper.GetComponentState, ComponentClient.GetComponentState,
    noexcept_call, request, answering, handle, handle_getComponentState, on_em. rewrite Hn.
  unfold getComponentState. cbv [mbind cpp_bind get mret cpp_ret].
  rewrite decide_True by done. by destruct s.
Qed.

(** What a turn asks of the Execution Manager: reports, and then the confirmation. *)
Lemma confirming_calls w s cs r reports s' :
  c_str (component_name w) = component_name w →
  r = ComponentClientReturnType.K_SUCCESS ∨ r = ComponentClientReturnType.K_UNCHANGED →
  let mean := if decide (cs = COMPONENT_STATE_ON) then [Mean] else [] in
  for_each (deliver w) (reports ++ [Confirm cs r] ++ mean) s = for_each (deliver w) ([Confirm cs r] ++ mean) s' →
  for_each (deliver w) (AskComponentState :: reports ++ Confirm cs r :: mean) s
    = ([], upd_em (confirmed (component_name w)) s', Ret tt).
Proof.
  intros Hn Hr mean Hs. rewrite (for_each_quiet _ _ _ s s) by done. etrans; [exact Hs|]. cbn [Datatypes.app].
  rewrite (for_each_quiet _ _ _ s' (upd_em (confirmed (component_name w)) s')) by by apply deliver_confirm.
  subst mean. destruct (decide (cs = COMPONENT_STATE_ON)); reflexivity.
Qed.

Lemma poll_component_spec w app s :
  polls s (w, app) → valid_component_state s →
  ∃ s' app', poll_component w app s = ([], s', Ret app') ∧ after_turn (component_name w) s s' ∧
    in_step app' ∧ AdaptiveApp.m_componentState app' = m_currentComponentState (m_em s) ∧
    AdaptiveApp.m_eventModeEnabled app' = false.
Proof.
  intros (Hn & Hreg & Hin & Hev) Hv. cbn [fst snd] in *. unfold poll_component.
  set (cs := m_currentComponentState (m_em s)).
  pose proof (GetComponentState_spec w s Hn Hreg) as Hget. fold cs in Hget.
  set (name := component_name w) in *.
  rewrite (run_bind _ _ _ _ s _ Hget).
  set (app0 := AdaptiveApp.upd_replies (λ _, [(ComponentClientReturnType.K_SUCCESS, cs)]) app).
  pose proof (poll_turn app0 (ComponentClientReturnType.K_SUCCESS, cs) [] Hin Hev eq_refl) as Ht.
  change (AdaptiveApp.m_componentState app0) with (AdaptiveApp.m_componentState app) in Ht.
  unfold reply_step in Ht. cbn [fst snd] in Ht. rewrite decide_True in Ht by done.
  unfold component_step in Ht. unfold valid_component_state in Hv. fold cs in Hv. rewrite Hv in Ht.
  set (s1 := upd_em (confirmed name) s).
  set (s2 := upd_em (confirmed name) (upd_em (upd_active (λ X, X ∪ {[name]})) s)).
  assert (after_turn name s s1) as H1 by (apply confirmed_after; by left).
  assert (after_turn name s s2) as H2 by (apply confirmed_after; by right).
  pose proof (λ r reports s', confirming_calls w s cs r reports s' Hn) as Hcalls. fold name in Hcalls.
  destruct (decide (AdaptiveApp.m_componentState app = cs)) as [Hc|Hc];
    destruct Ht as [Ht Hin']; cbn [fst snd] in Ht; rewrite Ht.
  - rewrite Hc in Hin' |- *. exists s1, (at_component cs (AdaptiveApp.upd_replies (λ _, []) app0)).
    split; [|by split_and!].
    rewrite (run_bind _ _ _ [] s1 tt); [done|]. apply (Hcalls _ [] s); [by right|done].
  - destruct (decide (cs = COMPONENT_STATE_ON)) as [Hon|Hon].
    + exists s2, (at_component cs (AdaptiveApp.upd_replies (λ _, []) app0)). split; [|by split_and!].
      rewrite (run_bind _ _ _ [] s2 tt); [done|].
      apply (Hcalls _ [Report ApplicationState.K_RUNNING] (upd_em (upd_active (λ X, X ∪ {[name]})) s));
        [by left|].
      cbn [Datatypes.app]. apply for_each_quiet. by apply deliver_running.
    + exists s1, (at_component cs (AdaptiveApp.upd_replies (λ _, []) app0)). split; [|by split_and!].
      rewrite (run_bind _ _ _ [] s1 tt); [done|]. apply (Hcalls _ [] s); [by left|done].
Qed.

Lemma poll_components_spec l s :
  Forall (polls s) l → valid_component_state s → l ≠ [] →
  ∃ s' apps, poll_components l s = ([], s', Ret apps) ∧
    m_componentPendingConfirms (m_em s') = m_componentPendingConfirms (m_em s) ∖ list_to_set (names l) ∧
    m_componentConfirmsReceived (m_em s')
      = bool_decide (m_componentPendingConfirms (m_em s') = ∅) ∧
    m_currentComponentState (m_em s') = m_currentComponentState (m_em s) ∧
    Forall (λ a, in_step a ∧ AdaptiveApp.m_componentState a = m_currentComponentState (m_em s)) apps ∧
    length apps = length l.
Proof.
  revert s. induction l as [|[w app] l IH]; intros s Hall Hv Hne; [done|].
  apply list.Forall_cons in Hall as [Hp Hall].
  destruct (poll_component_spec w app s Hp Hv) as (s1 & app' & H1 & (Hpc & Hcr & Hreg & Hcs & _) & Hin & Hst & _).
  cbn [poll_components]. rewrite (run_bind _ _ _ _ _ _ H1). destruct l as [|p l].
  - exists s1, [app']. split; [done|]. split; [rewrite Hpc; cbn; set_solver|].
    split; [done|]. split; [done|]. split; [|done]. constructor; [by split|constructor].
  - destruct (IH s1) as (s' & apps & H2 & Hpc2 & Hcr2 & Hcs2 & Hall2 & Hlen); [|by unfold valid_component_state; rewrite Hcs|done|].
    { eapply list.Forall_impl; [exact Hall|]. intros x (Hx1 & Hx2 & Hx3).
      split; [done|]. split; [by rewrite Hreg|done]. }
    exists s', (app' :: apps). rewrite (run_bind _ _ _ _ _ _ H2). split; [done|].
    split; [rewrite Hpc2, Hpc; cbn; set_solver|]. split; [done|]. split; [by rewrite Hcs2|].
    split; [|cbn; by rewrite Hlen]. constructor; [by split|]. by rewrite Hcs in Hall2.
Qed.
End polling.

(** C16: Once every pending component has polled, in any order and together with any
    others, the Execution Manager has all its confirmations: none is pending, the flag
    the waiting loop of a transition tests is set, and every component that has polled is
    in the component state the Execution Manager wants. *)
Theorem polling_completes_confirmations `{IComponentServerWrapper}
    (l : list (ComponentClientWrapper.t * AdaptiveApp.t)) (s : server) :
  Forall (polls s) l → valid_component_state s → l ≠ [] →
  m_componentPendingConfirms (m_em s) ⊆ list_to_set (names l) →
  ∃ s' apps, poll_components l s = ([], s', Ret apps) ∧
    m_componentPendingConfirms (m_em s') = ∅ ∧ m_componentConfirmsReceived (m_em s') = true ∧
    Forall (λ a, in_step a ∧ AdaptiveApp.m_componentState a = m_currentComponentState (m_em s')) apps.
Proof.
  intros Hall Hv Hne Hsub.
  destruct (poll_components_spec l s Hall Hv Hne) as (s' & apps & Hrun & Hp & Hc & Hcs & Happs & _).
  exists s', apps. split; [done|].
  assert (m_componentPendingConfirms (m_em s') = ∅) as He by set_solver.
  split; [done|]. split; [by rewrite Hc, bool_decide_eq_true_2|]. by rewrite Hcs.
Qed.

Definition demo_em (registered pending : gset string) : ExecutionManager.t :=
  ExecutionManager.mk ∅ false false ∅ "Starting-up" "Suspend" COMPONENT_STATE_OFF
    ["Starting-up"; "Suspend"] ∅ registered pending [].

Definition demo_server : server :=
  mk_server (demo_em {["p2"; "p3"]} {["p2"; "p3"]}) MsmHandler.init (ThreadQueue.mk []) true.

Definition demo_client (name : string) : ComponentClientWrapper.t :=
  ComponentClientWrapper.mk (ComponentClient.mk name StateUpdateMode.K_POLL false false).

Definition demo_components : list (ComponentClientWrapper.t * AdaptiveApp.t) :=
  [(demo_client "p3", demo_app false [] []); (demo_client "p2", demo_app false [] [])].

Lemma polling_completes_confirmations_witness :
  ∃ s' apps, poll_components (H0 := demo_wrapper) demo_components demo_server
      = ([], s', Ret apps) ∧
    m_componentPendingConfirms (m_em s') = ∅ ∧ m_componentConfirmsReceived (m_em s') = true ∧
    Forall (λ a, in_step a ∧ AdaptiveApp.m_componentState a = m_currentComponentState (m_em s')) apps.
Proof.
  apply (@polling_completes_confirmations demo_wrapper demo_components demo_server).
  - assert ("p2" ∈ ({["p2"; "p3"]} : gset string) ∧ "p3" ∈ ({["p2"; "p3"]} : gset string))
      as [H2 H3] by set_solver.
    unfold demo_components. constructor; [|constructor; [|constructor]];
      (split; [reflexivity|split; [assumption|split; [apply demo_in_step|reflexivity]]]).
  - reflexivity.
  - done.
  - cbn. set_solver.
Defined.
