(* ===== verification/Programs.v ===== *)
(** * The three applications

    [aa_main.cpp], [proc2.cpp] and [proc3.cpp]: the programs that are started by the
    Execution Manager and register with it, as whole runs against its server. *)

From Stdlib Require Import Ascii.
From stdpp Require Import base list gmap strings numbers pretty.
From S2P Require Import Prelude CppString Constants Common Queues ExecutionManager EMServer.
From S2P Require Import AdaptiveApp Clients ComponentProtocol.

(** ** The programs *)

(** What the mains pass to the constructors, and where the executables are installed
    (the calls of [add_adaptive_application] in the build files). *)
Record program := mk_program {
  componentName : string;
  componentStateUpdateMode : StateUpdateMode.t;
  eventModeEnabled : bool;
  application : string;
  process : string;
}.

Definition aa_main : program :=
  mk_program "AdaptiveApplication1_proc1" StateUpdateMode.K_EVENT true "AdaptiveApplication1" "proc1".
Definition proc2_main : program :=
  mk_program "AdaptiveApplication2_proc2" StateUpdateMode.K_POLL false "AdaptiveApplication2" "proc2".
Definition proc3_main : program :=
  mk_program "AdaptiveApplication2_proc3" StateUpdateMode.K_POLL false "AdaptiveApplication2" "proc3".

Section programs.
Context `{RpcClient St E}.

(** The calls of a part of the program are carried out. *)
Definition carry_out (w : ComponentClientWrapper.t) (m : cpp AdaptiveApp.t app_call unit)
    (app : AdaptiveApp.t) : cpp St E AdaptiveApp.t :=
  let '(calls, app, o) := m app in
  for_each (deliver w) calls;;
  lift o;;
  mret app.

(** Up to the loop: the component client's constructor registers the component. *)
Definition start_program (p : program) : cpp St E (ComponentClientWrapper.t * AdaptiveApp.t) :=
  w ← ComponentClientWrapper.construct (componentName p) (componentStateUpdateMode p);
  let '(calls, app) := construct_app (eventModeEnabled p) [] in
  for_each (deliver w) calls;;
  app ← carry_out w app_init app;
  app ← carry_out w app_run app;
  mret (w, app).

Context `{IComponentServerWrapper}.

(** One turn of the loop, before which messages have come in for a program in event mode. *)
Definition app_turn (w : ComponentClientWrapper.t) (received : list string) (app : AdaptiveApp.t) :
    cpp St E AdaptiveApp.t :=
  if AdaptiveApp.m_eventModeEnabled app then
    carry_out w app_performAction
      (AdaptiveApp.upd_queue (λ q, foldl (λ q recv, SafeQueue.push recv q) q received) app)
  else poll_component w app.

(** The loop until the signal: what has come in before each turn. *)
Fixpoint app_turns (w : ComponentClientWrapper.t) (turns : list (list string)) (app : AdaptiveApp.t) :
    cpp St E AdaptiveApp.t :=
  match turns with
  | [] => mret app
  | received :: turns => app ← app_turn w received app; app_turns w turns app
  end.

(** The whole program; an exception that leaves [main] terminates it. *)
Definition run_program (p : program) (turns : list (list string)) : cpp St E AdaptiveApp.t :=
  noexcept_call (
    '(w, app) ← start_program p;
    app ← app_turns w turns app;
    carry_out w app_terminate app).
End programs.

(** ** A program that polls *)

Section polling.
Context `{IComponentServerWrapper}.

Lemma same_without (X Y : gset string) x : X ∪ {[x]} = Y ∪ {[x]} ∪ {[x]} → X ∖ {[x]} = Y ∖ {[x]}.
Proof.
  intros Heq. apply set_eq. intros y. pose proof (proj1 (set_eq _ _) Heq y) as Hy.
  rewrite !elem_of_union, !elem_of_singleton in Hy. rewrite !elem_of_difference, !elem_of_singleton. tauto.
Qed.

Lemma em_upd f s : m_em (upd_em f s) = f (m_em s).
Proof. by destruct s. Qed.

(** What a program has done to the Execution Manager after its start. *)
Definition started (name : string) (s : server) : server :=
  upd_em (λ e, upd_active (λ X, X ∪ {[name]}) (upd_registered (λ X, X ∪ {[name]}) e)) s.

Lemma deliver_report w state s :
  let name := component_name w in
  c_str name = name → state = ApplicationState.K_INITIALIZING ∨ state = ApplicationState.K_RUNNING ∨
    state = ApplicationState.K_SHUTTINGDOWN →
  deliver w (Report state) s
    = ([], upd_em (if decide (state = ApplicationState.K_RUNNING) then upd_active (λ X, X ∪ {[name]})
                   else if decide (state = ApplicationState.K_SHUTTINGDOWN) then upd_active (λ X, X ∖ {[name]})
                   else id) s, Ret tt).
Proof.
  intros name Hn Hs. unfold deliver, ApplicationStateClient.report_as, request, answering, handle,
    handle_reportApplicationState, on_em. fold name.
  rewrite Hn. destruct s. by destruct_or! Hs; subst.
Qed.

(** A part of the program that only reports a state. *)
Lemma carry_out_report w m app app' state s s' :
  m app = ([Report state], app', Ret tt) →
  deliver (H := answering) w (Report state) s = ([], s', Ret tt) →
  carry_out w m app s = ([], s', Ret app').
Proof.
  intros Hm Hd. unfold carry_out. rewrite Hm. cbn [for_each]. rewrite (run_bind _ _ s [] s' tt); [done|].
  by rewrite (run_bind _ _ _ _ _ _ Hd).
Qed.

Definition polling_client (name : string) : ComponentClientWrapper.t :=
  ComponentClientWrapper.mk (ComponentClient.mk name StateUpdateMode.K_POLL false false).

Lemma register_poll name s :
  c_str name = name →
  ComponentClientWrapper.construct name StateUpdateMode.K_POLL s
    = ([], upd_em (upd_registered (λ X, X ∪ {[name]})) s, Ret (polling_client name)).
Proof.
  intros Hn. unfold ComponentClientWrapper.construct, ComponentClient.construct, noexcept_call, request,
    answering, handle, handle_registerComponent, on_em. rewrite Hn.
  by destruct s.
Qed.

Lemma start_program_spec p s :
  c_str (componentName p) = componentName p → componentStateUpdateMode p = StateUpdateMode.K_POLL →
  eventModeEnabled p = false →
  ∃ app, start_program p s
      = ([], started (componentName p) s, Ret (polling_client (componentName p), app)) ∧
    in_step app ∧ AdaptiveApp.m_eventModeEnabled app = false ∧
    AdaptiveApp.m_componentState app = COMPONENT_STATE_ON.
Proof.
  intros Hn Hm He. set (app0 := AdaptiveApp.mk COMPONENT_STATE_ON None false (SafeQueue.mk []) []).
  set (s1 := upd_em (upd_registered (λ X, X ∪ {[componentName p]})) s).
  exists (AdaptiveApp.upd_phase (λ _, Some ARun) app0). split; [|by split_and!; [left|..]].
  unfold start_program. rewrite Hm, He, (run_bind _ _ _ _ _ _ (register_poll _ s Hn)). fold s1.
  cbn [construct_app for_each]. rewrite (run_bind (mret tt) _ s1 [] s1 tt) by done.
  rewrite (run_bind _ _ s1 [] s1 (AdaptiveApp.upd_phase (λ _, Some AInit) app0)).
  2: { eapply carry_out_report; [done|]. rewrite deliver_report by (done || by left). by destruct s1. }
  erewrite run_bind; [|eapply carry_out_report; [done|apply deliver_report; [done|by right; left]]]. done.
Qed.

Lemma poll_turns_spec w received turns app s :
  polls s (w, app) → valid_component_state s →
  ∃ s' app', app_turns w (received :: turns) app s = ([], s', Ret app') ∧
    after_turn (component_name w) s s' ∧
    in_step app' ∧ AdaptiveApp.m_componentState app' = m_currentComponentState (m_em s) ∧
    AdaptiveApp.m_eventModeEnabled app' = false.
Proof.
  revert received app s. induction turns as [|received' turns IH]; intros received app s Hp Hv;
    destruct (poll_component_spec w app s Hp Hv) as (s1 & app1 & H1 & Hs1 & Hin & Hst & He);
    pose proof Hp as (Hn & Hr & _ & Hev); cbn [fst snd] in Hn, Hr, Hev;
    cbn [app_turns]; unfold app_turn; rewrite Hev, (run_bind _ _ _ _ _ _ H1).
  - by exists s1, app1.
  - destruct Hs1 as (Hpc & Hcr & Hreg & Hcs & Hact).
    destruct (IH received' app1 s1) as (s2 & app2 & H2 & (Hpc2 & Hcr2 & Hreg2 & Hcs2 & Hact2) & Hin2 & Hst2 & He2).
    { split; [done|]. split; [by rewrite Hreg|done]. }
    { unfold valid_component_state. by rewrite Hcs. }
    exists s2, app2. cbn [app_turns] in H2. unfold app_turn in H2. rewrite H2. split; [done|].
    split; [|by rewrite <- Hcs]. unfold after_turn.
    rewrite Hpc2, Hcr2, Hreg2, Hcs2, Hact2, Hreg, Hcs, Hact, Hpc2, Hpc. split_and!; try done; set_solver.
Qed.

Lemma terminate_spec w app s :
  c_str (component_name w) = component_name w → in_step app →
  carry_out w app_terminate app s
    = ([], upd_em (upd_active (λ X, X ∖ {[component_name w]})) s,
       Ret (AdaptiveApp.upd_phase (λ _, Some AShutDown) app)).
Proof.
  intros Hn Hin. eapply carry_out_report.
  - destruct app as [c p e q r]. by destruct Hin as [[_ Hp]|[_ Hp]]; cbn in Hp; subst p.
  - apply deliver_report; [done|by right; right].
Qed.
End polling.

(** C17: A program that polls behaves as a component should over its whole life, beside
    the Execution Manager: started under its own name it registers, goes on or suspends
    as the Execution Manager wants after the first turn of its loop at the latest,
    confirms this, so that no confirmation of it is pending, and when it ends it is no
    longer counted as an active process; it changes nothing else of these. *)
Theorem polling_program_life `{IComponentServerWrapper} (p : program) (turns : list (list string))
    (s : server) :
  p = proc2_main ∨ p = proc3_main → turns ≠ [] → valid_component_state s →
  ∃ s' app, run_program p turns s = ([], s', Ret app) ∧
    m_registeredComponents (m_em s') = m_registeredComponents (m_em s) ∪ {[componentName p]} ∧
    m_componentPendingConfirms (m_em s') = m_componentPendingConfirms (m_em s) ∖ {[componentName p]} ∧
    m_componentConfirmsReceived (m_em s')
      = bool_decide (m_componentPendingConfirms (m_em s') = ∅) ∧
    m_activeProcesses (m_em s') = m_activeProcesses (m_em s) ∖ {[componentName p]} ∧
    m_currentComponentState (m_em s') = m_currentComponentState (m_em s) ∧
    AdaptiveApp.m_componentState app = m_currentComponentState (m_em s) ∧
    AdaptiveApp.m_currentState app = Some AShutDown.
Proof.
  intros Hp Hturns Hv. destruct turns as [|received turns]; [done|].
  assert (c_str (componentName p) = componentName p ∧
    componentStateUpdateMode p = StateUpdateMode.K_POLL ∧ eventModeEnabled p = false) as (Hn & Hm & He)
    by by destruct Hp; subst.
  destruct (start_program_spec p s Hn Hm He) as (app0 & Hstart & Hin0 & He0 & _).
  set (name := componentName p) in *. set (s0 := started name s) in *.
  assert (m_registeredComponents (m_em s0) = m_registeredComponents (m_em s) ∪ {[name]}) as Hreg0 by done.
  destruct (poll_turns_spec (polling_client name) received turns app0 s0) as (s1 & app1 & Hpoll & Hs1 & Hin1 & Hst1 & _).
  { split_and!; [done|rewrite Hreg0; set_solver|done|done]. }
  { exact Hv. }
  destruct Hs1 as (Hpc & Hcr & Hreg & Hcs & Hact).
  exists (upd_em (upd_active (λ X, X ∖ {[name]})) s1), (AdaptiveApp.upd_phase (λ _, Some AShutDown) app1).
  split.
  { unfold run_program, noexcept_call. fold name.
    rewrite (run_bind _ _ _ _ _ _ Hstart), (run_bind _ _ _ _ _ _ Hpoll). by rewrite terminate_spec. }
  change (m_activeProcesses (m_em s0)) with (m_activeProcesses (m_em s) ∪ {[name]}) in Hact.
  rewrite em_upd. cbn [upd_active m_registeredComponents m_componentPendingConfirms
    m_componentConfirmsReceived m_activeProcesses m_currentComponentState].
  rewrite Hcr, Hpc, Hreg, Hcs. split_and!; try done. by apply same_without.
Qed.

Lemma polling_program_life_witness :
  ∃ s' app, run_program (H0 := demo_wrapper) proc2_main [[]; []; []] demo_server = ([], s', Ret app) ∧
    m_registeredComponents (m_em s')
      = m_registeredComponents (m_em demo_server) ∪ {["AdaptiveApplication2_proc2"]} ∧
    AdaptiveApp.m_componentState app = COMPONENT_STATE_OFF.
Proof.
  destruct (@polling_program_life demo_wrapper proc2_main [[]; []; []] demo_server) as (s' & app & Hrun & Hreg & _ & _ & _ & _ & Hst & _).
  - by left.
  - done.
  - reflexivity.
  - exists s', app. split; [exact Hrun|]. split; [exact Hreg|exact Hst].
Defined.

(** ** Names *)

(** Each program registers its component under the name under which its process reports
    its states, when it is installed as the build files say. *)
Theorem programs_report_their_names (p : program) (fs : file_system) (pid : Z) (dir : string) :
  p ∈ [aa_main; proc2_main; proc3_main] →
  fs ("/proc/" +:+ pretty pid +:+ "/cmdline")
    = Some (binary_path dir (application p) (process p) +:+ NUL) →
  fits (binary_path dir (application p) (process p) +:+ NUL) → all_chars plain dir →
  c_str <$> parseServiceName (getAppBinaryPath fs pid) = Ret (componentName p).
Proof.
  intros Hp Hfs Hfit Hdir.
  assert (all_chars plain (binary_path dir (application p) (process p)) ∧
    lacks Common.delimiter (application p) ∧ lacks Common.delimiter (process p) ∧
    componentName p = getServiceName (application p) (process p)) as (Hplain & Ha & Hpr & ->).
  { unfold binary_path. autorewrite with str. rewrite !andb_True.
    rewrite !elem_of_cons, elem_of_nil in Hp. destruct_or! Hp; by subst. }
  by rewrite (reported_service_name fs pid dir (application p) (process p)).
Qed.

Lemma programs_report_their_names_witness :
  c_str <$> parseServiceName (getAppBinaryPath demo_fs 42) = Ret "AdaptiveApplication1_proc1".
Proof.
  apply (programs_report_their_names aa_main demo_fs 42 "/opt/bin").
  - apply list_elem_of_here.
  - reflexivity.
  - vm_compute. reflexivity.
  - vm_compute. exact I.
Defined.
