(* ===== verification/ProgramFailures.v ===== *)
(** * Programs whose connection fails

    The programs of the applications ([Programs]) over a connection whose requests are not
    all answered ([Clients]): they end at the first request without an answer, by
    [std::terminate], and tell nobody. *)

From stdpp Require Import base list gmap strings numbers.
From S2P Require Import Prelude CppString Constants Common Queues ExecutionManager EMServer.
From S2P Require Import AdaptiveApp Clients ComponentProtocol Programs.

Section failures.
Context `{IComponentServerWrapper} (fates : nat → fate).

#[local] Instance over : RpcClient (wire server) call := connection handle fates.

Notation follows := (follows fates).

(** ** A program does over the connection what it does otherwise, until a request fails *)

Lemma construct_follows name mode :
  follows (ComponentClientWrapper.construct (H := over) name mode)
    (ComponentClientWrapper.construct (H := answering) name mode).
Proof. unfold ComponentClientWrapper.construct, ComponentClient.construct. follow_steps. Qed.

Lemma GetComponentState_follows w :
  follows (ComponentClientWrapper.GetComponentState (H := over) w)
    (ComponentClientWrapper.GetComponentState (H := answering) w).
Proof. unfold ComponentClientWrapper.GetComponentState, ComponentClient.GetComponentState. follow_steps. Qed.

Lemma deliver_follows w c : follows (deliver (H := over) w c) (deliver (H := answering) w c).
Proof.
  unfold deliver, ApplicationStateClient.report_as, ComponentClientWrapper.ConfirmComponentState,
    ComponentClient.ConfirmComponentState.
  destruct c; follow_steps.
Qed.

Lemma carry_out_follows w m app : follows (carry_out (H := over) w m app) (carry_out (H := answering) w m app).
Proof. pose proof (deliver_follows w). unfold carry_out. destruct (m app) as [[calls app'] o]. follow_steps. Qed.

Lemma start_program_follows p : follows (start_program (H := over) p) (start_program (H := answering) p).
Proof.
  pose proof construct_follows. pose proof carry_out_follows. pose proof deliver_follows.
  unfold start_program. apply follows_bind; [done|intros w].
  destruct (construct_app _ _) as [calls app]. follow_steps.
Qed.

Lemma poll_component_follows w app :
  follows (poll_component (H := over) w app) (poll_component (H := answering) w app).
Proof.
  pose proof (deliver_follows w). unfold poll_component.
  apply follows_bind; [apply GetComponentState_follows|intros reply].
  destruct (app_performAction _) as [[calls app'] o]. follow_steps.
Qed.

Lemma app_turns_follows w turns app :
  follows (app_turns (H := over) w turns app) (app_turns (H := answering) w turns app).
Proof.
  pose proof carry_out_follows. pose proof poll_component_follows.
  revert app. induction turns as [|received turns IH]; intros app; cbn [app_turns]; [apply follows_ret|].
  apply follows_bind; [unfold app_turn; destruct (AdaptiveApp.m_eventModeEnabled app); done|done].
Qed.

Lemma run_program_follows p turns :
  follows (run_program (H := over) p turns) (run_program (H := answering) p turns).
Proof.
  unfold run_program. apply follows_noexcept, follows_bind; [apply start_program_follows|intros [w app]].
  apply follows_bind; [apply app_turns_follows|intros app']. apply carry_out_follows.
Qed.

(** ** The number of requests *)

(** From [s], after [n] requests, [m] makes [c] requests, or fewer when it stops. *)
Definition sends {A} (m : cpp (wire server) call A) (s : server) (n c : nat) : Prop :=
  let '(_, w, o) := m (mk_wire s n) in sent w ≤ n + c ∧ ∀ a, o = Ret a → sent w = n + c.

Lemma sends_ret {A} (a : A) s n : sends (mret a) s n 0.
Proof. split; cbn; intros; lia. Qed.

Lemma sends_bind {A B} (m : cpp (wire server) call A) (f : A → cpp (wire server) call B) s n c c' :
  sends m s n c →
  (∀ tr s' a, m (mk_wire s n) = (tr, mk_wire s' (n + c), Ret a) → sends (f a) s' (n + c) c') →
  sends (m ≫= f) s n (c + c').
Proof.
  unfold sends, mbind, cpp_bind. intros Hm Hf.
  destruct (m (mk_wire s n)) as [[tr [s1 n1]] [a|w]]; cbn in *.
  - destruct Hm as [_ Hn]. specialize (Hn a eq_refl). subst n1. specialize (Hf tr s1 a eq_refl).
    destruct (f a (mk_wire s1 (n + c))) as [[tr2 w2] o2]. by rewrite Nat.add_assoc.
  - split; [lia|done].
Qed.

Lemma sends_noexcept {A} (m : cpp (wire server) call A) s n c : sends m s n c → sends (noexcept_call m) s n c.
Proof.
  intros Hm. unfold sends, noexcept_call in *. destruct (m (mk_wire s n)) as [[tr w] o].
  destruct Hm as [Hle Heq]. split; [done|]. intros a Ha. apply (Heq a). by destruct o as [|[]].
Qed.

Lemma sends_request r s n : sends (request (RpcClient := over) r) s n 1.
Proof.
  unfold sends, request, over, connection. cbn. destruct (fates n) as [|e|e]; cbn.
  - destruct (handle r s) as [[tr s'] o]. cbn. split; intros; lia.
  - split; intros; lia.
  - destruct (handle r s) as [[tr s'] o]. cbn. split; intros; lia.
Qed.

(** A request and a conversion of its results. *)
Lemma sends_one {A} r (f : results → A) s n :
  sends (res ← request (RpcClient := over) r; mret (f res)) s n 1.
Proof. apply (sends_bind _ _ s n 1 0); [apply sends_request|intros; apply sends_ret]. Qed.

Definition is_request (c : app_call) : nat :=
  match c with Report _ | Confirm _ _ => 1 | _ => 0 end.

Lemma sends_deliver w c s n : sends (deliver (H := over) w c) s n (is_request c).
Proof.
  destruct c; try apply sends_ret; cbn [deliver is_request].
  - apply (sends_one _ (λ _, tt)).
  - do 2 apply sends_noexcept. apply (sends_one _ (λ _, tt)).
Qed.

Lemma sends_calls w calls s n :
  sends (for_each (deliver (H := over) w) calls) s n (sum_list (is_request <$> calls)).
Proof.
  revert s n. induction calls as [|c calls IH]; intros s n; cbn [for_each fmap list_fmap sum_list].
  { apply sends_ret. }
  apply sends_bind; [apply sends_deliver|intros; apply IH].
Qed.

(** What is left of a part of the program once its calls have been made. *)
Lemma sends_after w calls (o : outcome unit) (app : AdaptiveApp.t) s n :
  sends (for_each (deliver (H := over) w) calls;; lift o;; mret app) s n (sum_list (is_request <$> calls)).
Proof.
  rewrite <- (Nat.add_0_r (sum_list _)).
  apply sends_bind; [apply sends_calls|]. intros _ s' _ _. destruct o; split; cbn; intros; (lia || done).
Qed.

Lemma sends_carry_out w m app s n :
  sends (carry_out (H := over) w m app) s n (sum_list (is_request <$> run_trace (m app))).
Proof. unfold carry_out. destruct (m app) as [[calls app'] o]. apply sends_after. Qed.

(** What a part of the program leaves does not depend on the connection. *)
Lemma carry_out_value w m app wr tr wr' a :
  carry_out (H := over) w m app wr = (tr, wr', Ret a) → a = run_state (m app).
Proof.
  unfold carry_out, run_state. destruct (m app) as [[calls app'] o]. unfold mbind, cpp_bind.
  destruct (for_each _ _ _) as [[tr1 w1] [[]|]]; [|done]. by destruct o; intros [= _ _ <-].
Qed.

Lemma sends_construct name mode s n : sends (ComponentClientWrapper.construct (H := over) name mode) s n 1.
Proof.
  apply sends_noexcept, (sends_bind _ _ s n 1 0); [|intros; apply sends_ret].
  apply sends_noexcept. apply (sends_one _ (λ _, _)).
Qed.

(** The program is started with three requests. *)
Lemma start_program_sends p s n : eventModeEnabled p = false → sends (start_program (H := over) p) s n 3.
Proof.
  intros He. unfold start_program. rewrite He. cbn [construct_app for_each].
  apply (sends_bind _ _ s n 1 2); [apply sends_construct|intros _ s1 w _].
  apply (sends_bind _ _ s1 _ 0 2); [apply sends_ret|intros _ s2 _ _].
  apply (sends_bind _ _ s2 _ 1 1); [apply (sends_carry_out w app_init)|intros tr s3 app Happ].
  apply carry_out_value in Happ. cbn in Happ. subst app.
  apply (sends_bind _ _ s3 _ 1 0); [apply (sends_carry_out w app_run)|intros; apply sends_ret].
Qed.

(** *** A component that polls *)

Lemma reply_step_reports current reply :
  let '(c, r, reports) := reply_step current reply in
  (reports = [] ∨ reports = [Report ApplicationState.K_RUNNING]) ∧
  (current = COMPONENT_STATE_ON ∨ current = reply.2 → reports = []).
Proof.
  unfold reply_step, component_step. case_decide; [|auto]. destruct (isValid reply.2); [|auto].
  case_decide; [auto|]. case_decide; [|auto]. split; [auto|]. intros []; congruence.
Qed.

(** The calls of a turn: the only report is that it runs again. *)
Lemma poll_calls reply app :
  in_step app → AdaptiveApp.m_eventModeEnabled app = false →
  ∃ calls app', app_performAction (AdaptiveApp.upd_replies (λ _, [reply]) app) = (calls, app', Ret tt) ∧
    in_step app' ∧ AdaptiveApp.m_eventModeEnabled app' = false ∧
    (∀ state, Report state ∈ calls → state = ApplicationState.K_RUNNING) ∧
    (AdaptiveApp.m_componentState app = COMPONENT_STATE_ON ∨ AdaptiveApp.m_componentState app = reply.2 →
     sum_list (is_request <$> calls) = 1).
Proof.
  intros Hin He. pose proof (reply_step_reports (AdaptiveApp.m_componentState app) reply) as Hr.
  set (app0 := AdaptiveApp.upd_replies (λ _, [reply]) app).
  pose proof (poll_turn app0 reply [] Hin He eq_refl) as Ht.
  change (AdaptiveApp.m_componentState app0) with (AdaptiveApp.m_componentState app) in Ht.
  destruct (reply_step _ _) as [[c r] reports]. destruct Ht as [-> Hin'], Hr as [Hrep Hnone].
  eexists _, _. split_and!; [done|exact Hin'|done| |].
  - intros state Hst. destruct Hrep as [-> | ->], (decide (c = COMPONENT_STATE_ON));
      cbn in Hst; set_solver.
  - intros Hc. rewrite (Hnone Hc). by destruct (decide (c = COMPONENT_STATE_ON)).
Qed.

Lemma sends_get w s n : sends (ComponentClientWrapper.GetComponentState (H := over) w) s n 1.
Proof. do 2 apply sends_noexcept. apply (sends_one _ (λ _, _)). Qed.

(** A result over the connection is the one of the requests that are answered. *)
Lemma follows_result {A} mc (md : cpp server call A) s n tr s' m a :
  follows mc md → mc (mk_wire s n) = (tr, mk_wire s' m, Ret a) → md s = (tr, s', Ret a).
Proof.
  intros Hf Hm. specialize (Hf s n). rewrite Hm in Hf.
  destruct Hf as [(_ & _ & ?)|[_ [|[? ?]]]]; done.
Qed.

Lemma poll_component_sends w app s n :
  polls s (w, app) → AdaptiveApp.m_componentState app = COMPONENT_STATE_ON ∨
    AdaptiveApp.m_componentState app = m_currentComponentState (m_em s) →
  sends (poll_component (H := over) w app) s n 2.
Proof.
  intros (Hn & Hreg & Hin & Hev) Hc. cbn [fst snd] in *. unfold poll_component.
  apply (sends_bind _ _ s n 1 1); [apply sends_get|intros tr s1 reply Hget].
  apply (follows_result _ _ _ _ _ _ _ _ (GetComponentState_follows w)) in Hget.
  rewrite (GetComponentState_spec w s Hn Hreg) in Hget. injection Hget as _ _ <-.
  destruct (poll_calls (ComponentClientReturnType.K_SUCCESS, m_currentComponentState (m_em s)) app Hin Hev)
    as (calls & app' & -> & _ & _ & _ & Hsum).
  rewrite <- (Hsum Hc). apply sends_after.
Qed.

Lemma app_turns_sends w turns app s n :
  polls s (w, app) → valid_component_state s →
  AdaptiveApp.m_componentState app = COMPONENT_STATE_ON ∨
    AdaptiveApp.m_componentState app = m_currentComponentState (m_em s) →
  sends (app_turns (H := over) w turns app) s n (2 * length turns).
Proof.
  revert app s n. induction turns as [|received turns IH]; intros app s n Hp Hv Hc; cbn [app_turns length].
  { apply sends_ret. }
  replace (2 * S (length turns)) with (2 + 2 * length turns) by lia.
  pose proof Hp as (Hn & Hr & _ & Hev). cbn [fst snd] in Hn, Hr, Hev. unfold app_turn. rewrite Hev.
  apply sends_bind; [by apply poll_component_sends|intros tr s1 app1 H1].
  apply (follows_result _ _ _ _ _ _ _ _ (poll_component_follows w app)) in H1.
  destruct (poll_component_spec w app s Hp Hv) as (s2 & app2 & H2 & (_ & _ & Hreg & Hcs & _) & Hin & Hst & He).
  rewrite H1 in H2. injection H2 as -> -> ->. apply IH.
  - split; [done|]. split; [by rewrite Hreg|done].
  - unfold valid_component_state. by rewrite Hcs.
  - right. by rewrite Hcs.
Qed.

(** ** What the Execution Manager believes *)

Section believed.
Context (name : string).

Definition believed (w : wire server) : Prop := name ∈ m_activeProcesses (m_em (peer w)).

(** Only a report that a process ends takes it from the active ones. *)
Definition not_ending (r : rpc) : Prop :=
  ∀ n st, r = reportApplicationState_rpc n st → st = ApplicationState.K_RUNNING.

Lemma handle_keeps r s :
  not_ending r → name ∈ m_activeProcesses (m_em s) →
  name ∈ m_activeProcesses (m_em (run_state (handle r s))).
Proof.
  intros Hr Ha. destruct s as [e h q run], r as [n st|pid n|pid|pid st|c m|c|c st ret]; cbn [handle].
  - rewrite (Hr n st eq_refl). cbn in *. set_solver.
  - unfold handle_register. cbv [mbind cpp_bind get modify mret cpp_ret]. by destruct (MsmHandler.registerMsm _ _ _).
  - done.
  - unfold handle_setMachineState. cbv [mbind cpp_bind get modify mret cpp_ret]. by destruct (negb _).
  - unfold handle_registerComponent, on_em, registerComponent. cbv [mbind cpp_bind modify mret cpp_ret].
    by case_decide.
  - unfold handle_getComponentState, on_em, getComponentState. cbv [mbind cpp_bind get mret cpp_ret].
    by case_decide.
  - unfold handle_confirmComponentState, on_em, confirmComponentState.
    cbv [mbind cpp_bind get modify mret cpp_ret]. by repeat case_decide.
Qed.

Lemma request_keeps r : not_ending r → preserves believed (request (RpcClient := over) r).
Proof.
  intros Hr [s n] Hb. pose proof (handle_keeps r s Hr Hb) as Hk.
  unfold request, over, connection. cbn. destruct (fates n) as [|e|e]; [|exact Hb|];
    by destruct (handle r s) as [[tr s'] o].
Qed.

Lemma keeps_noexcept {A} (m : cpp (wire server) call A) : preserves believed m → preserves believed (noexcept_call m).
Proof. intros Hm w Hb. specialize (Hm w Hb). unfold noexcept_call. by destruct (m w) as [[??]?]. Qed.

Lemma keeps_one {A} r (f : results → A) :
  not_ending r → preserves believed (res ← request (RpcClient := over) r; mret (f res)).
Proof. intros Hr. apply preserves_bind; [by apply request_keeps|intros; apply preserves_ret]. Qed.

Lemma keeps_calls w calls :
  (∀ state, Report state ∈ calls → state = ApplicationState.K_RUNNING) →
  preserves believed (for_each (deliver (H := over) w) calls).
Proof.
  induction calls as [|c calls IH]; intros Hc; cbn [for_each]; [apply preserves_ret|].
  apply preserves_bind; [|intros []; apply IH; intros state Hin; apply Hc; by right].
  destruct c as [state| |state status| |]; try apply preserves_ret; cbn [deliver].
  - apply (keeps_one _ (λ _, tt)). intros n st [= _ ->]. apply Hc. by left.
  - do 2 apply keeps_noexcept. by apply (keeps_one _ (λ _, tt)).
Qed.

Lemma poll_component_keeps w app :
  in_step app → AdaptiveApp.m_eventModeEnabled app = false →
  preserves believed (poll_component (H := over) w app).
Proof.
  intros Hin He. unfold poll_component. apply preserves_bind.
  - do 2 apply keeps_noexcept. by apply (keeps_one _ (λ _, _)).
  - intros reply. destruct (poll_calls reply app Hin He) as (calls & app' & -> & _ & _ & Hc & _).
    apply preserves_bind; [by apply keeps_calls|intros []].
    apply preserves_bind; [apply preserves_lift|intros; apply preserves_ret].
Qed.

Lemma poll_component_value w app wr tr wr' app' :
  in_step app → AdaptiveApp.m_eventModeEnabled app = false →
  poll_component (H := over) w app wr = (tr, wr', Ret app') →
  in_step app' ∧ AdaptiveApp.m_eventModeEnabled app' = false.
Proof.
  intros Hin He. unfold poll_component, mbind, cpp_bind.
  destruct (ComponentClientWrapper.GetComponentState w wr) as [[tr1 w1] [reply|]]; [|done].
  destruct (poll_calls reply app Hin He) as (calls & app1 & -> & Hin1 & He1 & _).
  destruct (for_each _ _ _) as [[tr2 w2] [[]|]]; [|done]. cbn. by intros [= _ _ <-].
Qed.

Lemma app_turns_keeps w turns app :
  in_step app → AdaptiveApp.m_eventModeEnabled app = false →
  preserves believed (app_turns (H := over) w turns app).
Proof.
  revert app. induction turns as [|received turns IH]; intros app Hin He; cbn [app_turns]; [apply preserves_ret|].
  unfold app_turn. rewrite He. intros wr Hb. pose proof (poll_component_keeps w app Hin He wr Hb) as Hk.
  unfold mbind, cpp_bind. destruct (poll_component w app wr) as [[tr wr'] [app'|st]] eqn:Hp; [|done].
  destruct (poll_component_value _ _ _ _ _ _ Hin He Hp) as [Hin' He']. specialize (IH app' Hin' He' wr' Hk).
  by destruct (app_turns w turns app' wr') as [[??]?].
Qed.
End believed.

(** ** Programs *)

Lemma no_exception_leaves {A} (m : cpp (wire server) call A) w e :
  run_outcome (noexcept_call m w) ≠ Stop (Thrown e).
Proof. unfold noexcept_call. by destruct (m w) as [[??] [|[]]]. Qed.

(** A part whose requests are all answered. *)
Lemma answered_through {A} mc (md : cpp server call A) s n c tr s' a :
  follows mc md → sends mc s n c → answered fates n (n + c) → md s = (tr, s', Ret a) →
  mc (mk_wire s n) = (tr, mk_wire s' (n + c), Ret a).
Proof.
  intros Hf Hs Ha Hd. specialize (Hf s n). unfold sends in Hs.
  destruct (mc (mk_wire s n)) as [[tr1 [s1 n1]] o]. cbn in *. destruct Hs as [Hle Hn].
  destruct Hf as [(_ & _ & Heq)|[(k & Hk & -> & Hfate & _) _]].
  - rewrite Hd in Heq. injection Heq as <- <- <-. by rewrite (Hn a).
  - destruct Hfate. apply Ha; lia.
Qed.

(** A part that makes a request that fails is broken off there. *)
Lemma breaks_at {A} mc (md : cpp server call A) s n c k tr s' a :
  follows mc md → sends mc s n c → md s = (tr, s', Ret a) →
  n ≤ k → k < n + c → answered fates n k → fates k ≠ Answered →
  ∃ tr' s1 o, mc (mk_wire s n) = (tr', mk_wire s1 (S k), o) ∧ lost o.
Proof.
  intros Hf Hs Hd Hn Hk Ha Hfate. specialize (Hf s n). unfold sends in Hs.
  destruct (mc (mk_wire s n)) as [[tr1 [s1 n1]] o]. cbn in *. destruct Hs as [Hle Hret].
  destruct Hf as [(_ & Hans & Heq)|[(k' & Hk' & -> & Hf' & Ha') Hl]].
  - rewrite Hd in Heq. injection Heq as <- <- <-. specialize (Hret a eq_refl). subst n1.
    destruct Hfate. by apply Hans.
  - exists tr1, s1, o. split; [|done]. repeat f_equal.
    destruct (Nat.lt_trichotomy k k') as [Hlt|[->|Hlt]]; [|done|].
    + destruct Hfate. by apply Ha'.
    + destruct Hf'. by apply Ha.
Qed.

Section polling_program.
Context (p : program) (turns : list (list string)) (s : server).
Context (Hp : p = proc2_main ∨ p = proc3_main) (Hv : valid_component_state s).

Lemma polling_modes :
  c_str (componentName p) = componentName p ∧ componentStateUpdateMode p = StateUpdateMode.K_POLL ∧
  eventModeEnabled p = false.
Proof. clear -Hp. by destruct Hp; subst. Qed.

(** The program after its start. *)
Definition rest `{Hc : RpcClient St call} (r : ComponentClientWrapper.t * AdaptiveApp.t) : cpp St call AdaptiveApp.t :=
  let '(w, app) := r in app ← app_turns w turns app; carry_out w app_terminate app.

Let name := componentName p.
Let client := polling_client name.

(** Its start, when it is answered. *)
Lemma started_app :
  ∃ app, start_program p s = ([], started name s, Ret (client, app)) ∧
    polls (started name s) (client, app) ∧ AdaptiveApp.m_componentState app = COMPONENT_STATE_ON.
Proof.
  destruct polling_modes as (Hn & Hm & He).
  destruct (start_program_spec p s Hn Hm He) as (app & Hs & Hin & Hev & Hon).
  exists app. split; [done|]. split; [|done]. split_and!; try done.
  cbn. set_solver.
Qed.

(** The turns, when they are answered, leave an application that can be terminated. *)
Lemma turned_app app :
  polls (started name s) (client, app) →
  ∃ s' app', app_turns client turns app (started name s) = ([], s', Ret app') ∧ in_step app'.
Proof.
  intros Hpolls. destruct turns as [|received ts].
  - exists (started name s), app. split; [done|]. apply Hpolls.
  - destruct (poll_turns_spec client received ts app (started name s) Hpolls Hv) as (s' & app' & H1 & _ & H2 & _).
    eauto.
Qed.

Lemma rest_sends app :
  polls (started name s) (client, app) → AdaptiveApp.m_componentState app = COMPONENT_STATE_ON →
  sends (rest (Hc := over) (client, app)) (started name s) 3 (2 * length turns + 1).
Proof.
  intros Hpolls Hon. unfold rest. apply sends_bind; [apply app_turns_sends; auto|intros tr s1 app1 H1].
  apply (follows_result _ _ _ _ _ _ _ _ (app_turns_follows client turns app)) in H1.
  destruct (turned_app app Hpolls) as (s2 & app2 & H2 & Hin). rewrite H1 in H2. injection H2 as -> -> ->.
  replace 1 with (sum_list (is_request <$> run_trace (app_terminate app2)));
    [apply sends_carry_out|]. by destruct app2, Hin as [[_ Hph]|[_ Hph]]; cbn in Hph; subst.
Qed.

Lemma program_sends : sends ('(w, app) ← start_program (H := over) p; rest (Hc := over) (w, app)) s 0 (2 * length turns + 4).
Proof.
  destruct polling_modes as (_ & _ & He). replace (2 * length turns + 4) with (3 + (2 * length turns + 1)) by lia.
  apply sends_bind; [by apply start_program_sends|intros tr s1 [w app] H1].
  apply (follows_result _ _ _ _ _ _ _ _ (start_program_follows p)) in H1.
  destruct started_app as (app0 & H0 & Hpolls & Hon). rewrite H1 in H0. injection H0 as -> -> -> ->.
  by apply rest_sends.
Qed.

Lemma program_returns :
  ∃ s' app, ('(w, app) ← start_program p; rest (w, app)) s = ([], s', Ret app).
Proof.
  destruct started_app as (app & Hs & Hpolls & _). destruct (turned_app app Hpolls) as (s1 & app1 & H1 & Hin).
  destruct polling_modes as (Hn & _).
  eexists _, _. rewrite (run_bind _ _ _ _ _ _ Hs). unfold rest. rewrite (run_bind _ _ _ _ _ _ H1).
  by rewrite terminate_spec.
Qed.

Lemma run_program_rest wr :
  run_program (H := over) p turns wr
    = noexcept_call ('(w, app) ← start_program (H := over) p; rest (Hc := over) (w, app)) wr.
Proof. done. Qed.

Lemma program_follows :
  follows ('(w, app) ← start_program (H := over) p; rest (Hc := over) (w, app))
    ('(w, app) ← start_program p; rest (w, app)).
Proof.
  apply follows_bind; [apply start_program_follows|intros [w app]]. unfold rest.
  apply follows_bind; [apply app_turns_follows|intros app']. apply carry_out_follows.
Qed.

(** What is lost is lost for the whole program. *)
Lemma lost_program k tr s' o :
  lost o → ('(w, app) ← start_program (H := over) p; rest (Hc := over) (w, app)) (mk_wire s 0)
    = (tr, mk_wire s' (S k), o) →
  run_program (H := over) p turns (mk_wire s 0) = (tr, mk_wire s' (S k), Stop Terminated).
Proof.
  intros Hl Hr. rewrite run_program_rest. unfold noexcept_call. rewrite Hr. by destruct Hl as [-> |[e ->]].
Qed.

(** Between its start and its end. *)
Lemma lost_in_turns k :
  (∀ i, i < k → fates i = Answered) → fates k ≠ Answered → 3 ≤ k → k < 2 * length turns + 3 →
  ∃ tr s' o, lost o ∧ ('(w, app) ← start_program (H := over) p; rest (Hc := over) (w, app)) (mk_wire s 0)
    = (tr, mk_wire s' (S k), o) ∧ name ∈ m_activeProcesses (m_em s').
Proof.
  intros Hall Hk H3 Hlt. destruct polling_modes as (_ & _ & He), started_app as (app & Hs & Hpolls & Hon).
  assert (answered fates 0 (0 + 3)) as Ha0 by (intros i _ Hi; apply Hall; lia).
  pose proof (answered_through _ _ _ _ _ _ _ _ (start_program_follows p)
    (start_program_sends p s 0 He) Ha0 Hs) as Hstart.
  destruct (turned_app app Hpolls) as (s2 & app2 & Hturns & _).
  destruct (breaks_at _ _ _ _ _ k _ _ _ (app_turns_follows client turns app)
    (app_turns_sends client turns app (started name s) 3 Hpolls Hv (or_introl Hon)) Hturns)
    as (tr & s3 & o & Hrun & Hl); [done|lia|intros i _; apply Hall|done|].
  destruct Hpolls as (_ & _ & Hin & Hev).
  assert (believed name (mk_wire (started name s) 3)) as Hb by (unfold believed; cbn; set_solver).
  pose proof (app_turns_keeps name client turns app Hin Hev _ Hb) as Hkeep. rewrite Hrun in Hkeep.
  rewrite (run_bind _ _ _ _ _ _ Hstart). cbn [rest].
  assert (∃ w, o = Stop w ∧ lost (A := AdaptiveApp.t) (Stop w)) as (w & -> & Hlw).
  { destruct Hl as [-> |[e ->]]; eexists; (split; [done|]); [by left|right; by exists e]. }
  rewrite (run_bind_stop _ _ _ _ _ _ Hrun). by eexists _, s3, _.
Qed.
End polling_program.
End failures.

(** C18: A program whose connection fails ends, and is not forgotten. If request number [k]
    (from 0) of a polling program is the first that gets no answer, and the program
    would make that many, then it is terminated right after this request, by
    [std::terminate]: it never reports that it ends. If it had been started, and
    was not reporting its end, it is still one of the active processes of the Execution
    Manager, which is told nothing. *)
Theorem lost_connection_terminates `{IComponentServerWrapper} (fates : nat → fate) (p : program)
    (turns : list (list string)) (s : server) (k : nat) :
  p = proc2_main ∨ p = proc3_main → valid_component_state s →
  (∀ i, i < k → fates i = Answered) → fates k ≠ Answered → k < 2 * length turns + 4 →
  ∃ tr s', run_program (H := connection handle fates) p turns (mk_wire s 0)
      = (tr, mk_wire s' (S k), Stop Terminated) ∧
    (3 ≤ k → k < 2 * length turns + 3 → componentName p ∈ m_activeProcesses (m_em s')).
Proof.
  intros Hp Hv Hall Hk Hlt.
  destruct (decide (3 ≤ k ∧ k < 2 * length turns + 3)) as [[H3 Hk3]|Hout].
  - destruct (lost_in_turns fates p turns s Hp Hv k Hall Hk H3 Hk3) as (tr & s' & o & Hl & Hrun & Hact).
    exists tr, s'. split; [by eapply lost_program|done].
  - destruct (program_returns p turns s Hp Hv) as (s1 & app1 & Hret).
    destruct (breaks_at fates _ _ _ _ _ k _ _ _ (program_follows fates p turns)
      (program_sends fates p turns s Hp Hv) Hret) as (tr & s' & o & Hrun & Hl);
      [lia|lia|intros i _; apply Hall|done|].
    exists tr, s'. split; [by eapply lost_program|lia].
Qed.

(** A connection that is lost at the sixth request. *)
Definition demo_fates (n : nat) : fate := if decide (n < 5) then Answered else Unreached DISCONNECTED.

Lemma lost_connection_terminates_witness :
  ∃ tr s', run_program (H := connection handle demo_fates) (H0 := demo_wrapper) proc2_main [[]; []] (mk_wire demo_server 0)
      = (tr, mk_wire s' 6, Stop Terminated) ∧
    "AdaptiveApplication2_proc2" ∈ m_activeProcesses (m_em s').
Proof.
  destruct (@lost_connection_terminates demo_wrapper demo_fates proc2_main [[]; []] demo_server 5)
    as (tr & s' & Hrun & Hact).
  - by left.
  - reflexivity.
  - intros i Hi. unfold demo_fates. by rewrite decide_True.
  - done.
  - cbn. lia.
  - exists tr, s'. split; [exact Hrun|]. apply Hact; cbn; lia.
Defined.

(** C19: Every program, whatever messages it receives, does over a connection that can
    fail what it does when every request is answered; or it ends at the first request
    that is not answered, and makes no other. No exception of the RPC library is ever
    handled: this end is always [std::terminate]. *)
Theorem programs_end_at_failure `{IComponentServerWrapper} (fates : nat → fate) (p : program)
    (turns : list (list string)) (s : server) :
  let '(tr, w, o) := run_program (H := connection handle fates) p turns (mk_wire s 0) in
  (answered fates 0 (sent w) ∧ run_program p turns s = (tr, peer w, o)) ∨
  (broken fates 0 (sent w) ∧ o = Stop Terminated).
Proof.
  pose proof (run_program_follows fates p turns s 0) as Hf.
  assert (∀ e, run_outcome (run_program (H := connection handle fates) p turns (mk_wire s 0)) ≠ Stop (Thrown e))
    as Hn by (intros e; apply no_exception_leaves).
  destruct (run_program p turns (mk_wire s 0)) as [[tr w] o]. cbn in Hn.
  destruct Hf as [(_ & Ha & Heq)|[Hb [Ho|[e Ho]]]]; [by left|by right|by destruct (Hn (KjException e))].
Qed.
