(* ===== verification/Lives.v ===== *)
(** * The life of a process

    What the Execution Manager sees of a process are its reports. The programs of the
    adaptive applications and of the Machine State Manager make them in one order: they
    initialise, they run (an application says so again when it is resumed), they shut
    down. This is the contract on which [PlatformSystem] relies. *)

From stdpp Require Import base list strings numbers.
From S2P Require Import Prelude Constants Json Kvs AdaptiveApp MachineStateManager.

(** ** The contract *)

Inductive life := Starting | Initialised | Up | Down.
#[export] Instance life_eq_dec : EqDecision life.
Proof. solve_decision. Defined.

(** The reports that are possible, and what follows. *)
Definition live (l : life) (state : Z) : option life :=
  match l with
  | Starting => if decide (state = ApplicationState.K_INITIALIZING) then Some Initialised else None
  | Initialised => if decide (state = ApplicationState.K_RUNNING) then Some Up else None
  | Up =>
      if decide (state = ApplicationState.K_RUNNING) then Some Up
      else if decide (state = ApplicationState.K_SHUTTINGDOWN) then Some Down else None
  | Down => None
  end.

Fixpoint lives (l : life) (reports : list Z) : option life :=
  match reports with
  | [] => Some l
  | state :: reports => l ← live l state; lives l reports
  end.

Lemma lives_app l l' r1 r2 : lives l r1 = Some l' → lives l (r1 ++ r2) = lives l' r2.
Proof.
  revert l. induction r1 as [|st r1 IH]; intros l; cbn; [by intros [= ->]|].
  destruct (live l st); cbn; [apply IH|done].
Qed.

(** ** Computations that keep the contract *)

Section contract.
Context {St E : Type} (reported : E → option Z).

(** From [l] and a state in [I], the computation ends in [l'] and a state in [I'], or it
    stops on the way. *)
Definition leads {A} (I : St → Prop) (l : life) (m : cpp St E A) (I' : St → Prop) (l' : life) : Prop :=
  ∀ s, I s →
  match m s with
  | (tr, s', Ret _) => lives l (omap reported tr) = Some l' ∧ I' s'
  | (tr, _, Stop _) => is_Some (lives l (omap reported tr))
  end.

Lemma leads_bind {A B} (m : cpp St E A) (f : A → cpp St E B) I1 l1 I2 l2 I3 l3 :
  leads I1 l1 m I2 l2 → (∀ a, leads I2 l2 (f a) I3 l3) → leads I1 l1 (a ← m; f a) I3 l3.
Proof.
  intros Hm Hf s Hs. specialize (Hm s Hs). unfold mbind, cpp_bind.
  destruct (m s) as [[tr1 s1] [a|w]]; [|done]. destruct Hm as [Hl Hs1]. specialize (Hf a s1 Hs1).
  destruct (f a s1) as [[tr2 s2] [b|w]]; rewrite omap_app; by erewrite lives_app.
Qed.

Lemma leads_ret {A} (a : A) I l : leads I l (mret a) I l.
Proof. by intros s. Qed.

Lemma leads_halt {A} w I l I' l' : leads I l (halt (A := A) w) I' l'.
Proof. intros s. by eexists. Qed.

Lemma leads_lift {A} (o : outcome A) I l : leads I l (lift o) I l.
Proof. intros s. unfold lift. by destruct o; [|eexists]. Qed.

Lemma leads_get I l : leads I l get I l.
Proof. by intros s. Qed.

Lemma leads_gets {A} (f : St → A) I l : leads I l (gets f) I l.
Proof. by intros s. Qed.

Lemma leads_modify (f : St → St) (I I' : St → Prop) l :
  (∀ s, I s → I' (f s)) → leads I l (modify f) I' l.
Proof. intros Hf s Hs. split; [done|by apply Hf]. Qed.

Lemma leads_modify_same (f : St → St) (I : St → Prop) l :
  (∀ s, I s → I (f s)) → leads I l (modify f) I l.
Proof. apply leads_modify. Qed.

Lemma leads_report e st I l l' : reported e = Some st → live l st = Some l' → leads I l (emit e) I l'.
Proof. intros He Hl s. cbn. rewrite He. cbn. by rewrite Hl. Qed.

Lemma leads_silent e I l : reported e = None → leads I l (emit e) I l.
Proof. intros He s. cbn. by rewrite He. Qed.

Lemma leads_for_each {A} (f : A → cpp St E unit) (xs : list A) I l :
  (∀ x, leads I l (f x) I l) → leads I l (for_each f xs) I l.
Proof.
  intros Hf. induction xs as [|x xs IH]; [apply leads_ret|].
  cbn [for_each]. by eapply leads_bind.
Qed.

Lemma leads_gets_known {A B} (g : St → A) (a : A) (f : A → cpp St E B) I l I' l' :
  (∀ s, I s → g s = a) → leads I l (f a) I' l' → leads I l (x ← gets g; f x) I' l'.
Proof.
  intros Hg Hf s Hs. specialize (Hf s Hs). unfold mbind, cpp_bind, gets. cbn.
  rewrite (Hg s Hs). by destruct (f a s) as [[??][]].
Qed.
(** What a whole computation reports. *)
Lemma leads_ends {A} (m : cpp St E A) I l I' l' s :
  leads I l m I' l' → I s →
  ∃ l2, lives l (omap reported (run_trace (m s))) = Some l2 ∧ ∀ a, run_outcome (m s) = Ret a → l2 = l'.
Proof.
  intros Hm Hs. specialize (Hm s Hs). destruct (m s) as [[tr s'] [a|w]]; cbn.
  - exists l'. by destruct Hm.
  - destruct Hm as [l2 Hl]. by exists l2.
Qed.
End contract.

Create HintDb life.
#[export] Hint Resolve leads_ret leads_halt leads_lift leads_get leads_gets : life.
#[export] Hint Extern 1 (leads _ _ _ (modify _) _ _) => (apply leads_modify_same; tauto) : life.
#[export] Hint Extern 1 (leads _ _ _ (emit _) _ _) => (apply leads_silent; reflexivity) : life.
#[export] Hint Extern 2 (leads _ _ _ (emit _) _ _) => (eapply leads_report; reflexivity) : life.

(** One bind after the other; branches are followed. *)
Ltac live_steps :=
  repeat first
    [ progress intros
    | solve [eauto with life]
    | match goal with
      | |- leads _ _ _ (match ?x with _ => _ end) _ _ => destruct x
      | |- leads _ _ _ (mbind _ _) _ _ => eapply leads_bind
      end ].

(** ** The applications *)

Definition app_report (c : app_call) : option Z :=
  match c with Report state => Some state | _ => None end.

(** Nothing is asked of the state. *)
Definition any_state {St} (s : St) : Prop := True.

Notation app_leads l m l' := (leads app_report any_state l m any_state l').

Section applications.
Context `{IComponentServerWrapper}.

Lemma app_init_leads : app_leads Starting app_init Initialised.
Proof. unfold app_init, app_enter_new, app_enter. cbn [createInit StateFactory]. live_steps. Qed.

Lemma app_run_leads l : l = Initialised ∨ l = Up → app_leads l app_run Up.
Proof.
  intros Hl. unfold app_run, app_transitToNextState, app_leave, app_enter_new, app_enter.
  cbn [createRun StateFactory].
  destruct Hl; subst; live_steps.
Qed.

Lemma setComponentState_leads state : app_leads Up (AdaptiveApp.setComponentState state) Up.
Proof.
  pose proof (app_run_leads Up (or_intror eq_refl)).
  assert (app_leads Up app_suspend Up)
    by (unfold app_suspend, app_transitToNextState, app_leave, app_enter_new, app_enter;
        cbn [createSuspend StateFactory]; live_steps).
  unfold AdaptiveApp.setComponentState. live_steps.
Qed.

Lemma app_performAction_leads : app_leads Up app_performAction Up.
Proof.
  pose proof setComponentState_leads as Hset.
  unfold app_performAction, stateUpdateHandler, pollComponentState, askComponentState, phase_performAction.
  live_steps.
Qed.

Lemma app_main_leads turns : app_leads Starting (app_main turns) Down.
Proof.
  unfold app_main. eapply leads_bind; [apply app_init_leads|intros _].
  eapply leads_bind; [apply app_run_leads; by left|intros _].
  eapply leads_bind; [apply leads_for_each; intros _; apply app_performAction_leads|intros _].
  unfold app_terminate, app_transitToNextState, app_leave, app_enter_new, app_enter.
  cbn [createShutDown StateFactory]. live_steps.
Qed.
End applications.

(** ** The Machine State Manager *)

Definition msm_report (c : msm_call) : option Z :=
  match c with MachineStateManager.ReportApplicationState state => Some state | _ => None end.

(** The state of the application is known. *)
Definition is_in (st : MsmState) (s : MSM.t) : Prop := MSM.m_currentState s = Some st.

Notation msm_leads st l m l' := (leads msm_report (is_in st) l m (is_in st) l').

Section manager.
Context `{Text} (writable : string → bool) (right_first : bool) (registered : StateError.t).

Lemma getNewState_loop_leads fuel newState : msm_leads Run Up (getNewState_loop fuel newState) Up.
Proof.
  revert newState. induction fuel as [|fuel IH]; intros newState; cbn [getNewState_loop];
    unfold getData; live_steps.
Qed.

Lemma run_turn_leads : msm_leads Run Up (run_turn writable right_first) Up.
Proof.
  pose proof getNewState_loop_leads.
  unfold run_turn, getNewState, getNewStateForStartRun, getData, saveReceivedState, setMachineState.
  live_steps.
Qed.

Lemma run_loop_leads fuel : msm_leads Run Up (run_loop writable right_first fuel) Up.
Proof.
  pose proof run_turn_leads. induction fuel as [|fuel IH]; cbn [run_loop]; live_steps.
Qed.

Lemma msm_transit_leads st next l l' l2 :
  msm_leads st l (leave st) l' → msm_leads next l' (enter writable right_first registered next) l2 →
  leads msm_report (is_in st) l (transitToNextState writable right_first registered (Some next)) (is_in next) l2.
Proof.
  intros Hleave Henter. unfold transitToNextState. apply (leads_gets_known _ _ (Some st)); [done|].
  eapply leads_bind; [exact Hleave|intros _].
  eapply leads_bind; [by apply (leads_modify _ _ _ (is_in next))|intros _; exact Henter].
Qed.

Lemma msm_main_leads :
  leads msm_report any_state Starting (msm_main writable right_first registered) (is_in ShutDown) Down.
Proof.
  pose proof run_loop_leads. unfold msm_main, msm_init, msm_run, msm_terminate.
  eapply (leads_bind _ _ _ _ _ (is_in Init) Initialised); [|intros _].
  { unfold enter_new. cbn [createInit MsmStateFactory]. eapply leads_bind; [by apply (leads_modify _ _ _ (is_in Init))|intros _].
    unfold enter, MachineStateManager.reportApplicationState, registerMsm. live_steps. }
  eapply (leads_bind _ _ _ _ _ (is_in Run) Up); [|intros _].
  - apply (msm_transit_leads _ _ _ Up); unfold leave, enter, MachineStateManager.reportApplicationState;
      live_steps.
  - apply (msm_transit_leads _ _ _ Up); unfold leave, enter, MachineStateManager.reportApplicationState;
      live_steps.
Qed.
End manager.

(** C20: The programs keep the contract: whatever they are told and whenever they stop, the
    adaptive applications and the Machine State Manager report that they initialise,
    then that they run, possibly more than once, and last that they shut down; a
    program that comes to its end has made all these reports. *)
Theorem programs_live `{IComponentServerWrapper} `{Text} (turns : nat) (app : AdaptiveApp.t)
    (writable : string → bool) (right_first : bool) (registered : StateError.t) (s : MSM.t) :
  (∃ l, lives Starting (omap app_report (run_trace (app_main turns app))) = Some l ∧
     (run_outcome (app_main turns app) = Ret tt → l = Down)) ∧
  (∃ l, lives Starting (omap msm_report (run_trace (msm_main writable right_first registered s))) = Some l ∧
     (run_outcome (msm_main writable right_first registered s) = Ret tt → l = Down)).
Proof.
  split.
  - destruct (leads_ends _ _ _ _ _ _ app (app_main_leads turns) I) as (l & ? & ?). eauto.
  - destruct (leads_ends _ _ _ _ _ _ s (msm_main_leads writable right_first registered) I) as (l & ? & ?).
    eauto.
Qed.
