(* ===== verification/PlatformSystem.v ===== *)
(** * The platform: the Execution Manager with its processes

    The process of the Execution Manager ([EMSystem]) together with the processes that
    it starts and stops. Its calls become commands for the service manager
    ([systemctl], executed by a forked child that nobody waits for, so that commands
    are carried out later and in any order); a started process makes the reports of its
    program ([Lives]) one by one; a stopped one is sent a signal and reports that it
    shuts down. The service manager is not part of the program: it is an interface with
    the laws that its documentation states. *)

From Stdlib Require Import Ascii.
From stdpp Require Import base list gmap gmultiset strings relations.
From S2P Require Import Prelude CppString Constants Common Queues ApplicationHandler Lives.
From S2P Require Import ExecutionManager ExecutionManagerSpec EMServer EMSystem.

(** ** The processes and the service manager *)

(** A process of a service: what it has reported, and whether the signal has come
    ([isTerminated] of the mains). *)
Record process := mk_process { life_of : life; isTerminated : bool }.
#[export] Instance process_eq_dec : EqDecision process.
Proof. solve_decision. Defined.

Notation processes := (gmap string process).

(** The commands in the order in which their arguments are executed. *)
Inductive job := StartService (service : string) | StopService (service : string).
#[export] Instance job_eq_dec : EqDecision job.
Proof. solve_decision. Defined.
#[export] Instance job_countable : Countable job.
Proof.
  refine (inj_countable' (λ j, match j with StartService p => inl p | StopService p => inr p end)
    (λ x, match x with inl p => StartService p | inr p => StopService p end) _).
  by intros [].
Defined.

Definition jobs_of (c : call) : list job :=
  match c with
  | startProcess p => [StartService p]
  | killProcess p => [StopService p]
  | _ => []
  end.

(** The arguments of [execvp] in the forked child. *)
Definition argv (j : job) : list (option string) :=
  match j with
  | StartService p => exec_arguments p SYSTEMCTL_START
  | StopService p => exec_arguments p SYSTEMCTL_STOP
  end.

(** This is what the application handler executes when it can fork. *)
Lemma argv_executed j pid fails :
  (match j with
   | StartService p => ApplicationHandler.startProcess p (Forked pid fails)
   | StopService p => ApplicationHandler.killProcess p (Forked pid fails)
   end).1 = Some (SYSTEMCTL, argv j).
Proof. by destruct j. Qed.

(** [systemctl]: what it does with its arguments. *)
Class ServiceManager := systemctl : list (option string) → processes → processes.

(** Its documentation: starting a service that runs has no effect, nor has stopping one
    that does not run; stopping a service sends a signal to its process. *)
Class ServiceLaws `{ServiceManager} := {
  start_stopped p P : P !! p = None →
    systemctl (exec_arguments p SYSTEMCTL_START) P = <[p := mk_process Starting false]> P;
  start_running p P pr : P !! p = Some pr → systemctl (exec_arguments p SYSTEMCTL_START) P = P;
  stop_running p P pr : P !! p = Some pr →
    systemctl (exec_arguments p SYSTEMCTL_STOP) P = <[p := mk_process (life_of pr) true]> P;
  stop_stopped p P : P !! p = None → systemctl (exec_arguments p SYSTEMCTL_STOP) P = P;
}.

(** The next report of a process that goes on by itself, and the process after it. *)
Definition next_report (pr : process) : option (Z * option process) :=
  match life_of pr with
  | Starting => Some (ApplicationState.K_INITIALIZING, Some (mk_process Initialised (isTerminated pr)))
  | Initialised => Some (ApplicationState.K_RUNNING, Some (mk_process Up (isTerminated pr)))
  | Up => if isTerminated pr then Some (ApplicationState.K_SHUTTINGDOWN, None) else None
  | Down => None
  end.

(** A process reports what its program may report; it is gone after the last report. *)
Lemma next_report_live pr st next :
  next_report pr = Some (st, next) →
  live (life_of pr) st = Some (match next with Some pr' => life_of pr' | None => Down end).
Proof. destruct pr as [[] []]; intros [= <- <-]; reflexivity. Qed.

(** ** The platform *)

Record platform := mk_platform {
  em : sys;
  (** the commands that have not been carried out *)
  jobs : gmultiset job;
  procs : processes;
}.

Definition calls_since (σ σ' : sys) : list call :=
  omap (λ ev, match ev with Called c => Some c | _ => None end) (drop (length (log σ)) (log σ')).

(** A request is served. *)
Definition served (r : rpc) (σ : sys) : option sys :=
  match handle r (sv σ) with
  | (tr, s, Ret _) =>
      Some (mk_sys s (at_ σ) (log σ ++ (Called <$> tr) ++ (queued_event <$> queued_by r (sv σ))))
  | (_, _, Stop _) => None
  end.

Definition is_report (r : rpc) : bool :=
  match r with reportApplicationState_rpc _ _ => true | _ => false end.

Inductive plabel :=
  | LWorker
  | LRequest
  | LCommand (j : job)
  | LLost (j : job)
  | LReport (p : string)
  | LAgain (p : string)
  | LKilled (p : string)
  | LIdle.

Section platform.
Context `{ServiceManager}.

(** The Execution Manager's worker; a request of any kind but a report, from anybody; a
    command that is carried out, or lost because the fork or the execution fails; a
    report of a process that starts or ends; an application that is resumed; a process
    whom the signal reaches before it handles signals; nothing. *)
Inductive pstep : plabel → platform → platform → Prop :=
  | p_worker alive P σ :
      worker alive (em P) = Some σ →
      pstep LWorker P
        (mk_platform σ (jobs P ⊎ list_to_set_disj (calls_since (em P) σ ≫= jobs_of)) (procs P))
  | p_request r P σ :
      is_report r = false → served r (em P) = Some σ →
      pstep LRequest P (mk_platform σ (jobs P) (procs P))
  | p_command j P :
      j ∈ jobs P →
      pstep (LCommand j) P (mk_platform (em P) (jobs P ∖ {[+ j +]}) (systemctl (argv j) (procs P)))
  | p_lost j P :
      j ∈ jobs P → pstep (LLost j) P (mk_platform (em P) (jobs P ∖ {[+ j +]}) (procs P))
  | p_report p pr st next P σ :
      procs P !! p = Some pr → next_report pr = Some (st, next) →
      served (reportApplicationState_rpc p st) (em P) = Some σ →
      pstep (LReport p) P (mk_platform σ (jobs P) (partial_alter (λ _, next) p (procs P)))
  | p_again p pr P σ :
      procs P !! p = Some pr → life_of pr = Up →
      served (reportApplicationState_rpc p ApplicationState.K_RUNNING) (em P) = Some σ →
      pstep (LAgain p) P (mk_platform σ (jobs P) (procs P))
  | p_killed p pr P :
      procs P !! p = Some pr → life_of pr = Starting → isTerminated pr = true →
      pstep (LKilled p) P (mk_platform (em P) (jobs P) (delete p (procs P)))
  | p_idle P : pstep LIdle P P.

Definition penabled (l : plabel) (P : platform) : Prop := ∃ P', pstep l P P'.

(** At first nothing runs and nothing has been ordered. *)
Definition pinitial (P : platform) : Prop := initial (em P) ∧ jobs P = ∅ ∧ procs P = ∅.

Definition preachable (P : platform) : Prop :=
  ∃ P0, pinitial P0 ∧ rtc (λ P P', ∃ l, pstep l P P') P0 P.

Lemma preachable_ind (I : platform → Prop) :
  (∀ P, pinitial P → I P) → (∀ l P P', preachable P → I P → pstep l P P' → I P') →
  ∀ P, preachable P → I P.
Proof.
  intros Hinit Hstep P (P0 & H0 & Hrtc). revert P Hrtc.
  apply (rtc_ind_r (λ P, I P)); [by apply Hinit|].
  intros P P' Hr [l Hs] HI. eapply Hstep; [|exact HI|exact Hs]. by exists P0.
Qed.

(** ** The Execution Manager in the platform *)

Lemma served_step r σ σ' : served r σ = Some σ' → step σ σ'.
Proof.
  unfold served. destruct (handle r (sv σ)) as [[tr s] [res|]] eqn:Hh; [|done].
  intros [= <-]. by eapply step_rpc.
Qed.

(** A step of the platform is one of the Execution Manager, or does not concern it. *)
Lemma pstep_em l P P' : pstep l P P' → em P' = em P ∨ step (em P) (em P').
Proof.
  intros [alive P0 σ Hw|r P0 σ _ Hs|j P0 _|j P0 _|p pr st next P0 σ _ _ Hs|p pr P0 σ _ _ Hs|p pr P0 _ _ _|P0];
    cbn; auto; right; [by eapply step_worker|by eapply served_step..].
Qed.

(** What holds of every run of the Execution Manager holds in the platform. *)
Lemma preachable_em P : preachable P → reachable (em P).
Proof.
  revert P. apply preachable_ind.
  - intros P (Hi & _). by exists (em P).
  - intros l P P' _ (σ0 & H0 & Hr) Hs. apply pstep_em in Hs as [-> |Hs]; exists σ0;
      (split; [done|]); [done|by eapply rtc_r].
Qed.
End platform.

(** ** What a step does *)

(** What the transition in progress depends on. *)
Definition same_transition (σ σ' : sys) : Prop :=
  transition_part (m_em (sv σ')) = transition_part (m_em (sv σ)) ∧ at_ σ' = at_ σ.

Lemma served_transition r σ σ' : served r σ = Some σ' → same_transition σ σ'.
Proof.
  unfold served. destruct (handle r (sv σ)) as [[tr s] [res|]] eqn:Hh; [|done].
  intros [= <-]. apply handle_inv in Hh as [-> Hh]. split; [|done].
  destruct Hh as [q e Hserve _|p n _|_|pid st _ _]; try done. by apply serve_pending in Hserve.
Qed.

Notation active σ := (m_activeProcesses (m_em (sv σ))).

(** Only reports change the active processes. *)
Lemma request_active r σ σ' : is_report r = false → served r σ = Some σ' → active σ' = active σ.
Proof.
  intros Hr. unfold served. destruct (handle r (sv σ)) as [[tr s] [res|]] eqn:Hh; [|done].
  intros [= <-]. cbn. destruct r as [n st|p n|p|p st|c m|c|c st ret]; try done; cbn [handle] in Hh.
  - unfold handle_register in Hh. erewrite run_bind in Hh by done.
    destruct (MsmHandler.registerMsm _ _ _). by injection Hh as <- <- _.
  - unfold handle_getMachineState in Hh. by injection Hh as <- <- _.
  - rewrite setMachineState_authorised in Hh. injection Hh as _ <- _. by case_decide.
  - unfold handle_registerComponent, on_em, registerComponent in Hh.
    revert Hh. cbv [mbind cpp_bind modify mret cpp_ret]. case_decide; by intros [= <- <- _].
  - unfold handle_getComponentState, on_em, getComponentState in Hh.
    revert Hh. cbv [mbind cpp_bind get modify mret cpp_ret]. case_decide; by intros [= <- <- _].
  - unfold handle_confirmComponentState, on_em, confirmComponentState in Hh.
    revert Hh. cbv [mbind cpp_bind get modify mret cpp_ret].
    case_decide; [by intros [= <- <- _]|]. case_decide; by intros [= <- <- _].
Qed.

(** The active processes after a report. *)
Definition reported (p : string) (state : Z) (X : gset string) : gset string :=
  if decide (state = ApplicationState.K_SHUTTINGDOWN) then X ∖ {[p]}
  else if decide (state = ApplicationState.K_RUNNING) then X ∪ {[p]}
  else X.

Definition is_life_report (state : Z) : Prop :=
  state ∈ [ApplicationState.K_INITIALIZING; ApplicationState.K_RUNNING; ApplicationState.K_SHUTTINGDOWN].

Lemma report_run p state e :
  is_life_report state →
  ExecutionManager.reportApplicationState p state e = ([], upd_active (reported p state) e, Ret tt).
Proof.
  unfold is_life_report. rewrite !elem_of_cons, elem_of_nil. intros Hst.
  destruct e. by destruct_or! Hst; try done; subst.
Qed.

Lemma report_served p state σ :
  is_life_report state →
  served (reportApplicationState_rpc p state) σ
    = Some (mk_sys (upd_em (upd_active (reported (c_str p) state)) (sv σ)) (at_ σ) (log σ)).
Proof.
  intros Hst. unfold served, handle, handle_reportApplicationState, on_em.
  erewrite run_bind by (by rewrite report_run). cbn. by rewrite app_nil_r.
Qed.

Lemma next_report_life pr st next : next_report pr = Some (st, next) → is_life_report st.
Proof.
  destruct pr as [[] []]; intros [= <- <-]; apply (bool_decide_unpack _); reflexivity.
Qed.

Lemma calls_since_app σ s p evs :
  calls_since σ (mk_sys s p (log σ ++ evs)) =
    omap (λ ev, match ev with Called c => Some c | _ => None end) evs.
Proof. unfold calls_since. cbn. by rewrite drop_app_length. Qed.

Lemma called_calls (l : list call) :
  omap (λ ev, match ev with Called c => Some c | _ => None end) (Called <$> l) = l.
Proof. induction l as [|c l IH]; cbn; [done|]. by f_equal. Qed.

Lemma jobs_of_polls (polls : list call) : Forall is_poll polls → polls ≫= jobs_of = [].
Proof. induction 1 as [|c l Hc _ IH]; cbn; [done|]. rewrite IH. by destruct c. Qed.

Lemma jobs_of_starts (l : list string) : (startProcess <$> l) ≫= jobs_of = StartService <$> l.
Proof. induction l as [|p l IH]; cbn; [done|]. by f_equal. Qed.

Lemma jobs_of_kills (l : list string) : (killProcess <$> l) ≫= jobs_of = StopService <$> l.
Proof. induction l as [|p l IH]; cbn; [done|]. by f_equal. Qed.

Lemma jobs_of_notify st (l : list string) : (SetComponentState st <$> l) ≫= jobs_of = [].
Proof. by induction l. Qed.

(** The commands of a step of the worker. *)
Definition ordered (σ : sys) : list job :=
  match at_ σ with
  | Kill => StopService <$> in_order (to_kill (m_em (sv σ)) (pending σ))
  | Start => StartService <$> in_order (to_start (m_em (sv σ)) (pending σ))
  | _ => []
  end.

Lemma worker_orders alive σ σ' :
  worker alive σ = Some σ' →
  calls_since σ σ' ≫= jobs_of = ordered σ ∧ active σ' = active σ.
Proof.
  intros Hw%worker_inv. unfold ordered.
  destruct Hw as [Hat Hr|st q Hat Hq|q Hat Hq|st Hat Hr|st Hat Hr|Hat|polls Hat Hp
    |polls Hat Hp|e tr Hat Hrun|Hat|c Hat Hc|Hat|Hat]; rewrite Hat; unfold go;
    rewrite calls_since_app; rewrite ?omap_app, ?called_calls; try done.
  - split; [apply jobs_of_kills|done].
  - split; [|done]. by rewrite bind_app, jobs_of_starts, jobs_of_polls, app_nil_r by done.
  - split; [|done]. cbn. rewrite app_nil_r. by rewrite bind_app, jobs_of_starts, jobs_of_polls, app_nil_r.
  - rewrite changeComponentsState_run in Hrun. injection Hrun as <- <-. split; [apply jobs_of_notify|done].
  - split; [done|]. cbn. unfold touch. by case_match.
  - split; [done|]. apply iterate_part.
Qed.

(** The table of processes does not change. *)
Lemma worker_allowed alive σ σ' s :
  worker alive σ = Some σ' → allowed_for (m_em (sv σ')) s = allowed_for (m_em (sv σ)) s.
Proof.
  intros Hw%worker_inv.
  destruct Hw as [Hat Hr|st q Hat Hq|q Hat Hq|st Hat Hr|st Hat Hr|Hat|polls Hat Hp
    |polls Hat Hp|e tr Hat Hrun|Hat|c Hat Hc|Hat|Hat]; try done.
  - rewrite changeComponentsState_run in Hrun. by injection Hrun as _ <-.
  - apply allowed_for_touch.
  - apply iterate_part.
Qed.

Lemma served_allowed r σ σ' s :
  served r σ = Some σ' → allowed_for (m_em (sv σ')) s = allowed_for (m_em (sv σ)) s.
Proof. intros [Hp _]%served_transition. by apply transition_part_eq. Qed.

(** ** What concerns one process *)

(** The commands for it, its process, and whether it counts as active. *)
Record view := mk_view {
  starts : nat;
  stops : nat;
  proc : option process;
  is_active : bool;
}.

Definition nothing : view := mk_view 0 0 None false.

Definition view_of (P : platform) (p : string) : view :=
  mk_view (multiplicity (StartService p) (jobs P)) (multiplicity (StopService p) (jobs P))
    (procs P !! p) (bool_decide (p ∈ active (em P))).

(** What a step that is not the worker's does to the view. *)
Definition after_report (v : view) : view :=
  match next_report <$> proc v with
  | Some (Some (st, next)) =>
      mk_view (starts v) (stops v) next
        (if decide (st = ApplicationState.K_SHUTTINGDOWN) then false
         else if decide (st = ApplicationState.K_RUNNING) then true else is_active v)
  | _ => v
  end.

Definition after (l : plabel) (p : string) (v : view) : view :=
  match l with
  | LCommand (StartService q) =>
      if decide (q = p)
      then mk_view (pred (starts v)) (stops v) (Some (default (mk_process Starting false) (proc v))) (is_active v)
      else v
  | LCommand (StopService q) =>
      if decide (q = p)
      then mk_view (starts v) (pred (stops v)) ((λ pr, mk_process (life_of pr) true) <$> proc v) (is_active v)
      else v
  | LLost (StartService q) =>
      if decide (q = p) then mk_view (pred (starts v)) (stops v) (proc v) (is_active v) else v
  | LLost (StopService q) =>
      if decide (q = p) then mk_view (starts v) (pred (stops v)) (proc v) (is_active v) else v
  | LReport q => if decide (q = p) then after_report v else v
  | LAgain q => if decide (q = p) then mk_view (starts v) (stops v) (proc v) true else v
  | LKilled q => if decide (q = p) then mk_view (starts v) (stops v) None (is_active v) else v
  | LWorker | LRequest | LIdle => v
  end.

(** The names are read as C strings by the Execution Manager; those that occur are not
    cut off. *)
Definition named (P : platform) : Prop := ∀ p, c_str p = p ∨ view_of P p = nothing.

Lemma named_proc P p pr : named P → procs P !! p = Some pr → c_str p = p.
Proof. intros Hn Hp. destruct (Hn p) as [|Hv]; [done|]. injection Hv as _ _ Hv _. congruence. Qed.

Lemma reported_other p q st X : p ≠ q → p ∈ reported q st X ↔ p ∈ X.
Proof. intros Hne. unfold reported. repeat case_decide; set_solver. Qed.

Lemma reported_self p st X :
  is_life_report st →
  bool_decide (p ∈ reported p st X)
    = if decide (st = ApplicationState.K_SHUTTINGDOWN) then false
      else if decide (st = ApplicationState.K_RUNNING) then true else bool_decide (p ∈ X).
Proof.
  intros _. unfold reported. case_decide; [|case_decide].
  - apply bool_decide_eq_false. set_solver.
  - apply bool_decide_eq_true. set_solver.
  - done.
Qed.

Lemma multiplicity_removed (j k : job) (J : gmultiset job) :
  multiplicity k (J ∖ {[+ j +]}) = if decide (j = k) then pred (multiplicity k J) else multiplicity k J.
Proof. rewrite multiplicity_difference, multiplicity_singleton. repeat case_decide; subst; try done; lia. Qed.

Section views.
Context `{ServiceLaws}.

Lemma systemctl_start p q P :
  systemctl (argv (StartService q)) P !! p
    = if decide (q = p) then Some (default (mk_process Starting false) (P !! p)) else P !! p.
Proof.
  cbn [argv]. destruct (P !! q) as [pr|] eqn:Hq.
  - rewrite (start_running _ _ _ Hq). case_decide; [|done]. subst. by rewrite Hq.
  - rewrite (start_stopped _ _ Hq). case_decide; [subst; by rewrite lookup_insert_eq, Hq|].
    by rewrite lookup_insert_ne.
Qed.

Lemma systemctl_stop p q P :
  systemctl (argv (StopService q)) P !! p
    = if decide (q = p) then (λ pr, mk_process (life_of pr) true) <$> P !! p else P !! p.
Proof.
  cbn [argv]. destruct (P !! q) as [pr|] eqn:Hq.
  - rewrite (stop_running _ _ _ Hq). case_decide; [subst; by rewrite lookup_insert_eq, Hq|].
    by rewrite lookup_insert_ne.
  - rewrite (stop_stopped _ _ Hq). case_decide; [|done]. subst. by rewrite Hq.
Qed.

Lemma pstep_view l P P' p :
  named P → pstep l P P' → l ≠ LWorker → view_of P' p = after l p (view_of P p).
Proof.
  intros Hn Hs Hl. destruct Hs as [alive P σ Hw|r P σ Hr Hs|j P Hj|j P Hj|q pr st next P σ Hq Hnext Hs
    |q pr P σ Hq Hup Hs|q pr P Hq Hst Hsig|P]; [done|..]; unfold view_of; cbn [em jobs procs after].
  - by rewrite (request_active _ _ _ Hr Hs).
  - destruct j as [q|q]; rewrite !multiplicity_removed, ?systemctl_start, ?systemctl_stop;
      cbn [starts stops proc is_active]; repeat case_decide; simplify_eq; done.
  - destruct j as [q|q]; rewrite !multiplicity_removed; repeat case_decide; simplify_eq; done.
  - pose proof (next_report_life _ _ _ Hnext) as Hlife. rewrite (report_served _ _ _ Hlife) in Hs.
    injection Hs as <-. cbn. rewrite (named_proc _ _ _ Hn Hq). case_decide as Heq.
    + subst q. rewrite lookup_partial_alter_eq. unfold after_report. cbn. rewrite Hq. cbn.
      rewrite Hnext. f_equal. by apply reported_self.
    + rewrite lookup_partial_alter_ne by done. f_equal. apply bool_decide_ext. by apply reported_other.
  - assert (is_life_report ApplicationState.K_RUNNING) as Hlife by (by apply (bool_decide_unpack _)).
    rewrite (report_served _ _ _ Hlife) in Hs. injection Hs as <-. cbn.
    rewrite (named_proc _ _ _ Hn Hq). case_decide as Heq.
    + subst q. f_equal. by rewrite reported_self.
    + f_equal. apply bool_decide_ext. by apply reported_other.
  - case_decide as Heq; [subst; by rewrite lookup_delete_eq|]. by rewrite lookup_delete_ne.
  - done.
Qed.
End views.

Lemma multiplicity_ordered (j : job) (l : list job) :
  NoDup l → multiplicity j (list_to_set_disj l : gmultiset job) = if decide (j ∈ l) then 1 else 0.
Proof.
  induction 1 as [|k l Hk Hl IH].
  { cbn [list_to_set_disj]. rewrite multiplicity_empty. by case_decide as Hj; [apply elem_of_nil in Hj|]. }
  rewrite list_to_set_disj_cons, multiplicity_disj_union, multiplicity_singleton, IH.
  destruct (decide (j = k)) as [->|Hne].
  - rewrite (decide_False (P := k ∈ l)) by done. by rewrite (decide_True (P := k ∈ k :: l)) by by left.
  - destruct (decide (j ∈ l)), (decide (j ∈ k :: l)) as [Hj|Hj]; try done; exfalso;
      [apply Hj; by right|by apply elem_of_cons in Hj as [|]].
Qed.

Lemma ordered_nodup σ : NoDup (ordered σ).
Proof.
  unfold ordered. destruct (at_ σ); try apply NoDup_nil_2;
    (apply NoDup_fmap_2; [by intros ?? [=]|apply NoDup_in_order]).
Qed.

(** The worker orders the stops of the processes that are not allowed, later the starts
    of those that do not run. *)
Definition worker_after (σ : sys) (p : string) (v : view) : view :=
  match at_ σ with
  | Start =>
      if decide (p ∈ to_start (m_em (sv σ)) (pending σ))
      then mk_view (S (starts v)) (stops v) (proc v) (is_active v) else v
  | Kill =>
      if decide (p ∈ to_kill (m_em (sv σ)) (pending σ))
      then mk_view (starts v) (S (stops v)) (proc v) (is_active v) else v
  | _ => v
  end.

Lemma one_ordered (f : string → job) `{!Inj (=) (=) f} X p (x y : nat) :
  (if decide (f p ∈ f <$> in_order X) then x else y) = if decide (p ∈ X) then x else y.
Proof. apply decide_ext. by rewrite list_elem_of_fmap_inj, elem_of_in_order. Qed.

#[export] Instance StartService_inj : Inj (=) (=) StartService.
Proof. by intros ?? [=]. Qed.
#[export] Instance StopService_inj : Inj (=) (=) StopService.
Proof. by intros ?? [=]. Qed.

Lemma worker_view `{ServiceManager} P P' p :
  pstep LWorker P P' → view_of P' p = worker_after (em P) p (view_of P p).
Proof.
  intros Hs. inversion Hs as [alive ? σ Hw| | | | | | |]; subst.
  destruct (worker_orders _ _ _ Hw) as [-> Hact]. unfold view_of, worker_after. cbn [em jobs procs].
  rewrite !multiplicity_disj_union, !multiplicity_ordered, Hact by apply ordered_nodup.
  unfold ordered. destruct (at_ (em P)); cbn [starts stops proc is_active];
    rewrite ?decide_False by apply not_elem_of_nil; rewrite ?Nat.add_0_r; try done.
  - rewrite one_ordered, decide_False by (apply _ || by intros (? & ? & _)%list_elem_of_fmap).
    rewrite Nat.add_0_r. case_decide; f_equal; lia.
  - rewrite one_ordered, (decide_False (P := StopService p ∈ _))
      by (apply _ || by intros (? & ? & _)%list_elem_of_fmap).
    rewrite Nat.add_0_r. case_decide; f_equal; lia.
Qed.

(** ** The view of the Execution Manager is accurate *)

Definition plain_names (e : ExecutionManager.t) : Prop := ∀ s p, p ∈ allowed_for e s → c_str p = p.

Section accuracy.
Context `{ServiceLaws}.

(** A step that is not the worker's does not touch a process of which there is nothing. *)
Lemma after_nothing l p P P' :
  pstep l P P' → view_of P p = nothing → after l p nothing = nothing.
Proof.
  intros Hs. destruct Hs as [alive P σ Hw|r P σ Hr Hs|j P Hj|j P Hj|q pr st next P σ Hq Hnext Hs
    |q pr P σ Hq Hup Hs|q pr P Hq Hlife Hsig|P]; intros [= Hst Hsp Hpr _]; cbn [after]; try done; try (case_decide; simplify_eq; done).
  - destruct j; case_decide; subst; try done. apply (proj1 (elem_of_multiplicity _ _)) in Hj. lia.
  - by destruct j; case_decide.
Qed.

Lemma pstep_allowed l P P' s :
  pstep l P P' → allowed_for (m_em (sv (em P'))) s = allowed_for (m_em (sv (em P))) s.
Proof.
  intros [alive P0 σ Hw|r P0 σ _ Hs|j P0 _|j P0 _|p pr st next P0 σ _ _ Hs|p pr P0 σ _ _ Hs|p pr P0 _ _ _|P0];
    cbn; try done; [by eapply worker_allowed|by eapply served_allowed..].
Qed.

Lemma pstep_named l P P' :
  plain_names (m_em (sv (em P))) → named P → pstep l P P' → named P'.
Proof.
  intros Hplain Hn Hs p. destruct (Hn p) as [?|Hv]; [by left|].
  destruct (decide (c_str p = p)) as [|Hp]; [by left|right].
  assert (l = LWorker ∨ l ≠ LWorker) as [-> |Hl] by (destruct l; auto).
  - rewrite (worker_view _ _ _ Hs), Hv. unfold worker_after. injection Hv as _ _ _ Hact.
    apply bool_decide_eq_false in Hact.
    destruct (at_ (em P)); try done; rewrite decide_False; try done; unfold to_start, to_kill.
    + set_solver.
    + intros [Hin _]%elem_of_difference. by apply Hp, (Hplain (pending (em P))).
  - rewrite (pstep_view _ _ _ _ Hn Hs Hl), Hv. by eapply after_nothing.
Qed.

Definition up (pr : option process) : bool :=
  match pr with Some pr => bool_decide (life_of pr = Up) | None => false end.

Definition accurate (v : view) : Prop := is_active v = up (proc v).

Lemma after_accurate l p P P' :
  pstep l P P' → accurate (view_of P p) → accurate (after l p (view_of P p)).
Proof.
  intros Hs. destruct Hs as [alive P σ Hw|r P σ Hr Hs|j P Hj|j P Hj|q pr st next P σ Hq Hnext Hs
    |q pr P σ Hq Hup Hs|q pr P Hq Hlife Hsig|P]; cbn [after]; try done; unfold accurate.
  - destruct j; case_decide; try done; cbn; by destruct (procs P !! p).
  - by destruct j; case_decide.
  - case_decide as Heq; [|done]. subst q. unfold after_report. cbn. rewrite Hq. cbn. rewrite Hnext. cbn.
    intros Ha.
    destruct pr as [[] []]; unfold next_report in Hnext; simplify_eq/=; done.
  - case_decide; [|done]. subst q. cbn. rewrite Hq. cbn. intros _. by rewrite Hup.
  - case_decide; [|done]. subst q. cbn. rewrite Hq. cbn. by rewrite Hlife.
Qed.

Lemma platform_accurate P :
  preachable P → plain_names (m_em (sv (em P))) →
  named P ∧ ∀ p, accurate (view_of P p).
Proof.
  revert P. apply (preachable_ind (λ P, plain_names _ → named P ∧ ∀ p, accurate (view_of P p))).
  - intros P (Hi & Hj & Hp) Hplain. assert (∀ p, view_of P p = nothing) as Hv.
    { intros p. unfold view_of. rewrite Hj, Hp, !multiplicity_empty, lookup_empty.
      assert (active (em P) = ∅) as ->.
      { destruct Hi as [reader e He]. unfold construct in He.
        destruct (getStatesSupportedByApplication reader), (getMachineStates reader); try done.
        by injection He as <-. }
      by rewrite bool_decide_eq_false_2 by apply not_elem_of_empty. }
    split; [intros p; by right|]. intros p. by rewrite Hv.
  - intros l P P' _ IH Hs Hplain. destruct IH as [Hn Ha].
    { intros s p. rewrite <- (pstep_allowed _ _ _ s Hs). apply Hplain. }
    split.
    { eapply pstep_named; [|exact Hn|exact Hs]. intros s p. rewrite <- (pstep_allowed _ _ _ s Hs). apply Hplain. }
    intros p. assert (l = LWorker ∨ l ≠ LWorker) as [-> |Hl] by (destruct l; auto).
    + rewrite (worker_view _ _ _ Hs). specialize (Ha p). unfold worker_after.
      destruct (at_ (em P)); try done; by case_decide.
    + rewrite (pstep_view _ _ _ _ Hn Hs Hl). by apply (after_accurate l p P P').
Qed.
End accuracy.

(** C7: The Execution Manager knows what runs. In every reachable state of the platform,
    whatever is lost, killed or asked for in between, a process counts as active if and
    only if it is up: it has reported that it runs and not that it shuts down. So the
    test on which a transition waits compares what is up with what is allowed. *)
Theorem platform_active_accurate `{ServiceLaws} (P : platform) :
  preachable P → plain_names (m_em (sv (em P))) →
  let is_up p := ∃ pr, procs P !! p = Some pr ∧ life_of pr = Up in
  (∀ p, p ∈ active (em P) ↔ is_up p) ∧
  (settled (m_em (sv (em P))) = true ↔
     ∀ p, p ∈ allowed_for (m_em (sv (em P))) (pending (em P)) ↔ is_up p).
Proof.
  intros Hr Hplain is_up. destruct (platform_accurate P Hr Hplain) as [_ Ha].
  assert (∀ p, p ∈ active (em P) ↔ is_up p) as Hup.
  { intros p. specialize (Ha p). unfold accurate in Ha. cbn in Ha.
    rewrite <- (bool_decide_eq_true (p ∈ active (em P))), Ha. unfold up, is_up.
    destruct (procs P !! p) as [pr|]; [rewrite bool_decide_eq_true|]; naive_solver. }
  split; [done|]. rewrite settled_spec. unfold pending. split.
  - intros Heq p. by rewrite <- Heq.
  - intros Hall. apply set_eq. intros p. by rewrite Hup, Hall.
Qed.
