(* ===== verification/PlatformProgress.v ===== *)
(** * Transitions of the platform come to their end

    On a fair run of the platform ([PlatformSystem]), in which no command is lost, a
    transition that begins when nothing is under way ends: every process is on its
    course, on which only its own helpful steps change it, until all processes are where
    they should be and the worker sees it. *)

From Stdlib Require Import Ascii.
From stdpp Require Import base list gmap gmultiset strings relations.
From S2P Require Import Prelude Temporal CppString Constants Common Queues ApplicationHandler Lives.
From S2P Require Import ExecutionManager ExecutionManagerSpec EMServer EMSystem EMProgress PlatformSystem.

Notation active σ := (m_activeProcesses (m_em (sv σ))).
Notation ready P := (m_readyToTransitToNextState (m_em (sv (em P)))).

(** ** The course of a process *)

Definition idle_up : view := mk_view 0 0 (Some (mk_process Up false)) true.

(** The views on the way of a process that shall run, and of one that shall not, by the
    number of steps that are left. *)
Definition expected (want : bool) (rank : nat) : option view :=
  match want, rank with
  | true, 0 => Some idle_up
  | true, 1 => Some (mk_view 0 0 (Some (mk_process Initialised false)) false)
  | true, 2 => Some (mk_view 0 0 (Some (mk_process Starting false)) false)
  | true, 3 => Some (mk_view 1 0 None false)
  | true, 4 => Some nothing
  | false, 0 => Some nothing
  | false, 1 => Some (mk_view 0 0 (Some (mk_process Up true)) true)
  | false, 2 => Some (mk_view 0 1 (Some (mk_process Up false)) true)
  | false, 3 => Some idle_up
  | _, _ => None
  end.

(** The step that brings it further; the first one is the worker's. *)
Definition helper (want : bool) (rank : nat) (p : string) : option plabel :=
  match want, rank with
  | true, 1 | true, 2 => Some (LReport p)
  | true, 3 => Some (LCommand (StartService p))
  | false, 1 => Some (LReport p)
  | false, 2 => Some (LCommand (StopService p))
  | _, _ => None
  end.

Lemma expected_active want rank v :
  expected want rank = Some v → is_active v = want → rank = 0.
Proof. by destruct want, rank as [|[|[|[|[]]]]]; intros [= <-]. Qed.

Section steps.
Context `{ServiceLaws}.

(** What a step that is not the worker's does to a process on its course. *)
Lemma expected_step l P P' p want rank :
  named P → pstep l P P' → l ≠ LWorker → (∀ j, l ≠ LLost j) →
  expected want rank = Some (view_of P p) →
  (helper want rank p = Some l ∧ expected want (pred rank) = Some (view_of P' p)) ∨
  (helper want rank p ≠ Some l ∧ view_of P' p = view_of P p).
Proof.
  intros Hn Hs Hw Hl Hv. pose proof (pstep_view _ _ _ p Hn Hs Hw) as Hafter. rewrite Hafter. clear Hafter.
  revert Hv. destruct Hs as [alive P σ _|r P σ Hr Hs|j P Hj|j P Hj|q pr st next P σ Hq Hnext Hs
    |q pr P σ Hq Hup Hs|q pr P Hq Hlife Hsig|P]; cbn [after];
    try (by intros _; destruct Hw); try (by intros _; destruct (Hl j)).
  - intros _. right. split; [|done]. by destruct want, rank as [|[|[|[|[]]]]].
  - apply (proj1 (elem_of_multiplicity _ _)) in Hj. destruct j as [q|q]; case_decide as Hqp; try subst q;
      destruct want, rank as [|[|[|[|[]]]]]; intros [= H1 H2 H3 H4]; try lia;
      unfold view_of; rewrite <- ?H1, <- ?H2, <- ?H3, <- ?H4; cbn;
      first [by left|right; split; [congruence|done]].
  - case_decide as Hqp; try subst q;
      destruct want, rank as [|[|[|[|[]]]]]; intros [= H1 H2 H3 H4];
      unfold after_report, view_of; rewrite <- ?H1, <- ?H2, <- ?H3, <- ?H4; cbn;
      first [by left|right; split; [congruence|done]|congruence].
  - case_decide as Hqp; try subst q;
      destruct want, rank as [|[|[|[|[]]]]]; intros [= H1 H2 H3 H4];
      unfold view_of; rewrite <- ?H1, <- ?H2, <- ?H3, <- ?H4; cbn;
      first [right; split; [congruence|done]|rewrite Hq in H3; simplify_eq/=].
  - case_decide as Hqp; try subst q;
      destruct want, rank as [|[|[|[|[]]]]]; intros [= H1 H2 H3 H4];
      unfold view_of; rewrite <- ?H1, <- ?H2, <- ?H3, <- ?H4; cbn;
      first [right; split; [congruence|done]|rewrite Hq in H3; simplify_eq/=].
  - intros _. right. split; [|done]. by destruct want, rank as [|[|[|[|[]]]]].
Qed.
End steps.

(** ** The phases of a transition *)

Section transition.
Context `{ServiceLaws}.
(** The requested state and the table of processes. *)
Context (s : string) (A : string → gset string) (Hplain : ∀ s p, p ∈ A s → c_str p = p).

Definition wanted (p : string) : bool := bool_decide (p ∈ A s).

Definition course (P : platform) (p : string) (rank : nat) : Prop :=
  expected (wanted p) rank = Some (view_of P p).

Definition arrived (P : platform) : Prop := ∀ p, course P p 0.

(** Nothing is under way: what runs is up. *)
Definition undisturbed (P : platform) : Prop := ∀ p, view_of P p = nothing ∨ view_of P p = idle_up.

Record context (P : platform) : Prop := {
  cx_allowed s' : allowed_for (m_em (sv (em P))) s' = A s';
  cx_named : named P;
}.

(** The transition is the next one of the queue; the worker is idle or waits for it. *)
Definition at_queue (p : pc) (P : platform) : Prop :=
  context P ∧ at_ (em P) = p ∧ isRunning (sv (em P)) = true ∧
  (∃ q, em_queue (sv (em P)) = ThreadQueue.mk (Some s :: q)) ∧
  refuses (m_em (sv (em P))) s = false ∧ undisturbed P.

Definition at_check (P : platform) : Prop :=
  context P ∧ at_ (em P) = Check s ∧ refuses (m_em (sv (em P))) s = false ∧ undisturbed P.

Definition at_kill (P : platform) : Prop :=
  context P ∧ at_ (em P) = Kill ∧ pending (em P) = s ∧ ready P = false ∧ undisturbed P.

Definition at_start (P : platform) : Prop :=
  context P ∧ at_ (em P) = Start ∧ pending (em P) = s ∧ ready P = false ∧
  ∀ p, ∃ rank, course P p rank ∧ if wanted p then rank = 0 ∨ rank = 4 else rank ≤ 2.

Definition in_wait (p : pc) : bool :=
  match p with Change | Log | Test | Body | Finish => true | _ => false end.

Record waits (P : platform) : Prop := {
  wt_context : context P;
  wt_at : in_wait (at_ (em P)) = true;
  wt_pending : pending (em P) = s;
  wt_course p : ∃ rank, course P p rank ∧ rank < 3 + Nat.b2n (wanted p);
  wt_ready : ready P = true → arrived P;
  wt_finish : at_ (em P) = Finish → ready P = true ∨ is_component_state s = true;
}.

(** The transition has ended; outside Running and Suspend nothing is under way again. *)
Definition ended (P : platform) : Prop :=
  at_ (em P) = Idle ∧ ∃ evs r, log (em P) = evs ++ [Ended s r] ∧
    (r = StateError.K_SUCCESS ∧ (is_component_state s = false → arrived P) ∨
     r = StateError.K_INVALID_REQUEST ∧ s = MACHINE_STATE_STARTUP).

(** *** Steps that are not the worker's *)

Lemma other_transition l P P' :
  pstep l P P' → l ≠ LWorker → same_transition (em P) (em P').
Proof.
  intros [alive P0 σ Hw|r P0 σ _ Hs|j P0 _|j P0 _|p pr st next P0 σ _ _ Hs|p pr P0 σ _ _ Hs|p pr P0 _ _ _|P0];
    cbn; try done; by intros _; eapply served_transition.
Qed.

Lemma same_refuses σ σ' st : same_transition σ σ' → refuses (m_em (sv σ')) st = refuses (m_em (sv σ)) st.
Proof. unfold same_transition, transition_part, refuses. intros [[= _ _ Hc _ _ Hm] _]. by rewrite Hc, Hm. Qed.

Lemma same_pending σ σ' : same_transition σ σ' → pending σ' = pending σ.
Proof. intros [Hp _]. by apply transition_part_eq in Hp as [? _]. Qed.

Lemma same_ready P P' : same_transition (em P) (em P') → ready P' = ready P.
Proof. unfold same_transition, transition_part. by intros [[= Hr _ _ _ _ _] _]. Qed.

Lemma context_step l P P' : pstep l P P' → context P → context P'.
Proof.
  intros Hs [Ha Hn]. split.
  - intros s'. by rewrite (pstep_allowed _ _ _ s' Hs).
  - eapply pstep_named; [|exact Hn|exact Hs]. intros s' p. rewrite Ha. apply Hplain.
Qed.

Definition harmless (l : plabel) : Prop := l ≠ LWorker ∧ ∀ j, l ≠ LLost j.

(** On its course a process goes on by its helper, and only by it. *)
Lemma course_step l P P' p rank :
  pstep l P P' → harmless l → context P → course P p rank →
  (helper (wanted p) rank p = Some l ∧ course P' p (pred rank)) ∨
  (helper (wanted p) rank p ≠ Some l ∧ course P' p rank).
Proof.
  intros Hs [Hw Hl] [_ Hn] Hc.
  destruct (expected_step _ _ _ _ _ _ Hn Hs Hw Hl Hc) as [?|[? Hv]]; [by left|right].
  split; [done|]. unfold course. by rewrite Hv.
Qed.

Lemma course_keeps l P P' p rank :
  pstep l P P' → harmless l → context P → course P p rank →
  ∃ rank', course P' p rank' ∧ rank' ≤ rank ∧ (helper (wanted p) rank p = None → rank' = rank).
Proof.
  intros Hs Hl Hx Hc. destruct (course_step _ _ _ _ _ Hs Hl Hx Hc) as [[Hh Hc']|[Hh Hc']].
  - exists (pred rank). split; [done|]. split; [lia|]. intros Hno. congruence.
  - by exists rank.
Qed.

Lemma arrived_step l P P' : pstep l P P' → harmless l → context P → arrived P → arrived P'.
Proof.
  intros Hs Hl Hx Ha p. destruct (course_keeps _ _ _ _ _ Hs Hl Hx (Ha p)) as (rank & Hc & Hle & _).
  by replace 0 with rank by lia.
Qed.

Lemma undisturbed_step l P P' :
  pstep l P P' → harmless l → context P → undisturbed P → undisturbed P'.
Proof.
  intros Hs Hl Hx Hu p. destruct Hl as [Hw Hlost], Hx as [_ Hn].
  destruct (Hu p) as [Hv|Hv].
  - destruct (expected_step _ _ _ p false 0 Hn Hs Hw Hlost) as [[? _]|[_ ->]]; [by rewrite Hv|done|by left].
  - destruct (expected_step _ _ _ p true 0 Hn Hs Hw Hlost) as [[? _]|[_ ->]]; [by rewrite Hv|done|by right].
Qed.

Lemma served_queue r σ σ' :
  served r σ = Some σ' → isRunning (sv σ') = isRunning (sv σ) ∧
  ∃ q, ThreadQueue.m_methodsQueue (em_queue (sv σ')) = ThreadQueue.m_methodsQueue (em_queue (sv σ)) ++ q.
Proof.
  unfold served. destruct (handle r (sv σ)) as [[tr s'] [res|]] eqn:Hh; [|done].
  intros [= <-]. apply handle_inv in Hh as [-> Hh]. cbn.
  destruct Hh as [q e _ _|p n _|_|pid st _ _]; (split; [done|]);
    [exists []; by rewrite app_nil_r..|by eexists].
Qed.

Lemma other_queue l P P' :
  pstep l P P' → l ≠ LWorker → isRunning (sv (em P')) = isRunning (sv (em P)) ∧
  ∃ q, ThreadQueue.m_methodsQueue (em_queue (sv (em P')))
         = ThreadQueue.m_methodsQueue (em_queue (sv (em P))) ++ q.
Proof.
  intros [alive P0 σ Hw|r P0 σ _ Hs|j P0 _|j P0 _|p pr st next P0 σ _ _ Hs|p pr P0 σ _ _ Hs|p pr P0 _ _ _|P0];
    cbn; try done; intros _; try (by eapply served_queue);
    (split; [done|exists []; by rewrite app_nil_r]).
Qed.

Lemma at_queue_step p l P P' : pstep l P P' → harmless l → at_queue p P → at_queue p P'.
Proof.
  intros Hs Hl (Hx & Hat & Hrun & (q & Hq) & Hr & Hu).
  pose proof (other_transition _ _ _ Hs (proj1 Hl)) as Hsame.
  destruct (other_queue _ _ _ Hs (proj1 Hl)) as (Hrun' & q' & Hq').
  split_and!; [by eapply context_step|by rewrite (proj2 Hsame)|by rewrite Hrun'| |
    by rewrite (same_refuses _ _ _ Hsame)|by eapply undisturbed_step].
  exists (q ++ q'). rewrite Hq in Hq'. destruct (em_queue (sv (em P'))). cbn in Hq'. by subst.
Qed.

Lemma at_check_step l P P' : pstep l P P' → harmless l → at_check P → at_check P'.
Proof.
  intros Hs Hl (Hx & Hat & Hr & Hu). pose proof (other_transition _ _ _ Hs (proj1 Hl)) as Hsame.
  split_and!; [by eapply context_step| |by rewrite (same_refuses _ _ _ Hsame)|by eapply undisturbed_step].
  by rewrite (proj2 Hsame).
Qed.

Lemma at_kill_step l P P' : pstep l P P' → harmless l → at_kill P → at_kill P'.
Proof.
  intros Hs Hl (Hx & Hat & Hp & Hr & Hu). pose proof (other_transition _ _ _ Hs (proj1 Hl)) as Hsame.
  split_and!; [by eapply context_step| |by rewrite (same_pending _ _ Hsame)
    |by rewrite (same_ready _ _ Hsame)|by eapply undisturbed_step].
  by rewrite (proj2 Hsame).
Qed.

Lemma at_start_step l P P' : pstep l P P' → harmless l → at_start P → at_start P'.
Proof.
  intros Hs Hl (Hx & Hat & Hp & Hr & Hc). pose proof (other_transition _ _ _ Hs (proj1 Hl)) as Hsame.
  split_and!; [by eapply context_step| |by rewrite (same_pending _ _ Hsame)
    |by rewrite (same_ready _ _ Hsame)|].
  { by rewrite (proj2 Hsame). }
  intros p. destruct (Hc p) as (rank & Hcp & Hrank).
  destruct (course_keeps _ _ _ _ _ Hs Hl Hx Hcp) as (rank' & Hc' & Hle & Hno).
  exists rank'. split; [done|]. destruct (wanted p); [|lia].
  destruct Hrank as [-> | ->]; [left; lia|right; by apply Hno].
Qed.

Lemma waits_step l P P' : pstep l P P' → harmless l → waits P → waits P'.
Proof.
  intros Hs Hl [Hx Hat Hp Hc Hr Hf]. pose proof (other_transition _ _ _ Hs (proj1 Hl)) as Hsame.
  split.
  - by eapply context_step.
  - by rewrite (proj2 Hsame).
  - by rewrite (same_pending _ _ Hsame).
  - intros p. destruct (Hc p) as (rank & Hcp & Hrank).
    destruct (course_keeps _ _ _ _ _ Hs Hl Hx Hcp) as (rank' & Hc' & Hle & _).
    exists rank'. split; [done|lia].
  - rewrite (same_ready _ _ Hsame). intros Hready. eapply arrived_step; eauto.
  - rewrite (proj2 Hsame), (same_ready _ _ Hsame). exact Hf.
Qed.
(** *** Steps of the worker *)

Local Ltac worker_cases Hw :=
  inversion Hw as [Hat' Hgo Heq|st q Hat' Hqueue Heq|q Hat' Hqueue Heq|st Hat' Hr' Heq|st Hat' Hr' Heq|Hat' Heq
    |polls Hat' Hpl Heq|polls Hat' Hpl Hst Heq|e tr Hat' Hch Heq|Hat' Heq|c Hat' Hcont Heq|Hat' Heq|Hat' Heq].

Lemma worker_of P P' :
  pstep LWorker P P' →
  worker_case (em P) (em P') ∧ ∀ p, view_of P' p = worker_after (em P) p (view_of P p).
Proof.
  intros Hs. split; [|intros p; by apply worker_view].
  inversion Hs as [alive ? σ Hw| | | | | | |]; subst. by eapply worker_inv.
Qed.

Lemma worker_view_same P P' :
  pstep LWorker P P' → at_ (em P) ≠ Kill → at_ (em P) ≠ Start → ∀ p, view_of P' p = view_of P p.
Proof.
  intros [_ Hv]%worker_of Hk Hst p. rewrite Hv. unfold worker_after. by destruct (at_ (em P)).
Qed.

Lemma active_view P p : p ∈ active (em P) ↔ is_active (view_of P p) = true.
Proof. cbn. by rewrite bool_decide_eq_true. Qed.

Lemma wanted_spec p : wanted p = true ↔ p ∈ A s.
Proof. apply bool_decide_eq_true. Qed.

Lemma at_idle_worker P P' : pstep LWorker P P' → at_queue Idle P → at_queue Take P'.
Proof.
  intros Hs (Hx & Hat & Hrun & Hq & Hr & Hu).
  assert (∀ p, view_of P' p = view_of P p) as Hv by (apply worker_view_same; [done|by rewrite Hat..]).
  pose proof (context_step _ _ _ Hs Hx) as Hx'. destruct (worker_of _ _ Hs) as [Hw _].
  worker_cases Hw; rewrite Hat in Hat'; try done.
  split_and!; [done|by rewrite <- Heq..|]. intros p. rewrite Hv. apply Hu.
Qed.

Lemma at_take_worker P P' : pstep LWorker P P' → at_queue Take P → at_check P'.
Proof.
  intros Hs (Hx & Hat & Hrun & [q0 Hq0] & Hr & Hu).
  assert (∀ p, view_of P' p = view_of P p) as Hv by (apply worker_view_same; [done|by rewrite Hat..]).
  pose proof (context_step _ _ _ Hs Hx) as Hx'. destruct (worker_of _ _ Hs) as [Hw _].
  worker_cases Hw; rewrite Hat in Hat'; try done; rewrite Hq0 in Hqueue; simplify_eq.
  split_and!; [done|by rewrite <- Heq..|]. intros p. rewrite Hv. apply Hu.
Qed.

Lemma at_check_worker P P' : pstep LWorker P P' → at_check P → at_kill P'.
Proof.
  intros Hs (Hx & Hat & Hr & Hu).
  assert (∀ p, view_of P' p = view_of P p) as Hv by (apply worker_view_same; [done|by rewrite Hat..]).
  pose proof (context_step _ _ _ Hs Hx) as Hx'. destruct (worker_of _ _ Hs) as [Hw _].
  worker_cases Hw; rewrite Hat in Hat'; try done; injection Hat' as <-; [congruence|].
  split_and!; [done|by rewrite <- Heq..|]. intros p. rewrite Hv. apply Hu.
Qed.

Lemma at_kill_worker P P' : pstep LWorker P P' → at_kill P → at_start P'.
Proof.
  intros Hs (Hx & Hat & Hp & Hr & Hu). pose proof (context_step _ _ _ Hs Hx) as Hx'.
  destruct (worker_of _ _ Hs) as [Hw Hv].
  worker_cases Hw; rewrite Hat in Hat'; try done.
  split_and!; [done|by rewrite <- Heq..|]. clear Heq Hw. intros p. unfold course. rewrite Hv.
  unfold worker_after. rewrite Hat, Hp. unfold to_kill. destruct Hx as [Ha _]. rewrite Ha.
  pose proof (active_view P p) as Hact. pose proof (wanted_spec p) as Hwp.
  destruct (Hu p) as [Hvp|Hvp]; rewrite Hvp; rewrite Hvp in Hact; cbn in Hact.
  - rewrite decide_False by (rewrite elem_of_difference; naive_solver).
    destruct (wanted p); [exists 4|exists 0]; auto with lia.
  - destruct (wanted p).
    + rewrite decide_False by (rewrite elem_of_difference; naive_solver). exists 0. auto.
    + rewrite decide_True by (rewrite elem_of_difference; naive_solver). exists 2. auto.
Qed.

Lemma start_course P P' :
  pstep LWorker P P' → at_start P →
  ∀ p, ∃ rank, course P' p rank ∧ rank < 3 + Nat.b2n (wanted p).
Proof.
  intros Hs (Hx & Hat & Hp & Hr & Hc) p. destruct (worker_of _ _ Hs) as [_ Hv].
  unfold course. rewrite Hv. unfold worker_after. rewrite Hat, Hp. unfold to_start.
  destruct Hx as [Ha _]. rewrite Ha. destruct (Hc p) as (rank & Hcp & Hrank).
  pose proof (active_view P p) as Hact. pose proof (wanted_spec p) as Hwp. unfold course in Hcp.
  destruct (wanted p) eqn:Hw.
  - assert (view_of P p = idle_up ∧ rank = 0 ∨ view_of P p = nothing ∧ rank = 4) as Hvp
      by (destruct Hrank as [-> | ->]; cbn [expected] in Hcp; [left|right]; split; congruence).
    destruct Hvp as [[Hvp _]|[Hvp _]]; rewrite Hvp; rewrite Hvp in Hact; cbn in Hact.
    + rewrite decide_False by (rewrite elem_of_difference; naive_solver). exists 0. auto with lia.
    + rewrite decide_True by (rewrite elem_of_difference; naive_solver). exists 3. auto with lia.
  - rewrite decide_False by (rewrite elem_of_difference; naive_solver). exists rank. cbn. auto with lia.
Qed.

Lemma at_start_worker P P' : pstep LWorker P P' → at_start P → waits P' ∨ ended P'.
Proof.
  intros Hs Hst. pose proof (start_course _ _ Hs Hst) as Hc.
  destruct Hst as (Hx & Hat & Hp & Hr & _). pose proof (context_step _ _ _ Hs Hx) as Hx'.
  destruct (worker_of _ _ Hs) as [Hw _].
  worker_cases Hw; rewrite Hat in Hat'; try done.
  - left. split; [done|by rewrite <- Heq..|done| |by rewrite <- Heq].
    rewrite <- Heq. unfold go. cbn. congruence.
  - right. split; [by rewrite <- Heq|]. rewrite <- Heq. cbn. eexists _, _.
    rewrite (assoc_L (++)), Hp. split; [done|]. right. by rewrite <- Hp.
Qed.

(** When the active processes are the wanted ones, everything has arrived. *)
Lemma settled_arrived P :
  context P → pending (em P) = s → (∀ p, ∃ rank, course P p rank ∧ rank < 3 + Nat.b2n (wanted p)) →
  settled (m_em (sv (em P))) = true → arrived P.
Proof.
  intros [Ha _] Hp Hc Hset p. apply settled_spec in Hset. unfold pending in Hp. rewrite Hp, Ha in Hset.
  destruct (Hc p) as (rank & Hcp & _). pose proof (active_view P p) as Hact.
  rewrite Hset, <- wanted_spec in Hact.
  rewrite (expected_active _ _ _ Hcp) in Hcp; [done|]. destruct (wanted p), (is_active _); naive_solver.
Qed.

Lemma arrived_settled P :
  context P → pending (em P) = s → arrived P → settled (m_em (sv (em P))) = true.
Proof.
  intros [Ha _] Hp Harr. apply settled_spec. unfold pending in Hp. rewrite Hp, Ha.
  apply set_eq. intros p. rewrite active_view, <- wanted_spec. specialize (Harr p). unfold course in Harr.
  destruct (wanted p); cbn [expected] in Harr; injection Harr as _ _ _ Hact; cbn; rewrite <- Hact; done.
Qed.

Lemma waits_worker P P' : pstep LWorker P P' → waits P → waits P' ∨ ended P'.
Proof.
  intros Hs [Hx Hat Hp Hc Hr Hf].
  assert (∀ p, view_of P' p = view_of P p) as Hv
    by (apply worker_view_same; [done|intros Hk; by rewrite Hk in Hat..]).
  pose proof (context_step _ _ _ Hs Hx) as Hx'. destruct (worker_of _ _ Hs) as [Hw _].
  assert (∀ p, ∃ rank, course P' p rank ∧ rank < 3 + Nat.b2n (wanted p)) as Hc'
    by (intros p; unfold course; rewrite Hv; apply Hc).
  assert (arrived P → arrived P') as Harr by (intros Ha p; unfold course; rewrite Hv; apply Ha).
  pose proof (settled_arrived P Hx Hp Hc) as Hset.
  worker_cases Hw; rewrite Hat' in Hat, Hf; try done.
  - left. rewrite changeComponentsState_run in Hch. injection Hch as _ <-.
    split; [done|by rewrite <- Heq|by rewrite <- Heq|done| |by rewrite <- Heq].
    rewrite <- Heq at 1. cbn. intros Hready. by apply Harr, Hr.
  - left. split; [done|by rewrite <- Heq| |done| |by rewrite <- Heq].
    + rewrite <- Heq. unfold pending in *. cbn. destruct (touch_part (m_em (sv (em P)))) as (_ & Ht & _).
      by rewrite Ht.
    + rewrite <- Heq at 1. cbn. intros Hready. by apply Harr, Hset.
  - left. split; [done|rewrite <- Heq; by destruct c|by rewrite <- Heq|done| |].
    + rewrite <- Heq at 1. cbn. intros Hready. by apply Harr, Hr.
    + rewrite <- Heq. cbn. destruct c; [done|]. intros _. rewrite Hp in Hcont.
      destruct (m_readyToTransitToNextState _); [by left|right]. by destruct (is_component_state s).
  - left. destruct (iterate_part (m_em (sv (em P)))) as (_ & Hip & Hready & _).
    split; [done|by rewrite <- Heq| |done| |by rewrite <- Heq].
    + rewrite <- Heq. unfold pending in *. cbn. by rewrite Hip.
    + rewrite <- Heq at 1. cbn. rewrite Hready. intros Hst. by apply Harr, Hset.
  - right. split; [by rewrite <- Heq|]. exists (log (em P) ++ [Called (confirm StateError.K_SUCCESS)]), StateError.K_SUCCESS.
    rewrite <- Heq at 1. cbn. rewrite Hp, <- (assoc_L (++)). split; [done|]. left. split; [done|].
    intros Hcs. apply Harr, Hr. destruct (Hf eq_refl) as [?|?]; [done|congruence].
Qed.
(** ** On a fair run *)

Context (r : run pstep).
Context (Hworker : fair pstep penabled r LWorker).
Context (Hcommand : ∀ j, fair pstep penabled r (LCommand j)).
Context (Hreport : ∀ p, fair pstep penabled r (LReport p)).
Context (Hlost : ∀ n j, label r n ≠ LLost j).

Notation leads := (leads_to pstep r).

(** A step of the run is the worker's or harmless. *)
Lemma run_cases n :
  (label r n = LWorker ∧ pstep LWorker (state r n) (state r (S n))) ∨
  (label r n ≠ LWorker ∧ harmless (label r n) ∧ pstep (label r n) (state r n) (state r (S n))).
Proof.
  pose proof (run_step r n) as Hs.
  assert (label r n = LWorker ∨ label r n ≠ LWorker) as [Hl|Hl] by (destruct (label r n); auto).
  - left. by rewrite Hl in Hs.
  - right. split_and!; [done|split; [done|apply Hlost]|done].
Qed.

(** A phase that only the worker ends is ended. *)
Lemma worker_ends (P Q : platform → Prop) :
  (∀ P0, P P0 → is_Some (worker (λ _ _, true) (em P0))) →
  (∀ l P0 P1, pstep l P0 P1 → harmless l → P P0 → P P1) →
  (∀ P0 P1, pstep LWorker P0 P1 → P P0 → Q P1) →
  leads P Q.
Proof.
  intros Hgoes Hother Hw. apply (leads_to_fair _ penabled _ LWorker); [done|..].
  - intros P0 HP. destruct (Hgoes P0 HP) as [σ Hσ]. eexists. by eapply p_worker.
  - intros n HP. destruct (run_cases n) as [[_ Hs]|(_ & Hh & Hs)]; [left|right]; eauto.
  - intros n HP Hl. destruct (run_cases n) as [[_ Hs]|(Hno & _)]; [eauto|done].
Qed.

Lemma idle_ends : leads (at_queue Idle) (at_queue Take).
Proof.
  apply worker_ends; [|apply at_queue_step|apply at_idle_worker].
  intros P (_ & Hat & Hrun & _). unfold worker. by rewrite Hat, Hrun.
Qed.

Lemma take_ends : leads (at_queue Take) at_check.
Proof.
  apply worker_ends; [|apply at_queue_step|apply at_take_worker].
  intros P (_ & Hat & _ & [q Hq] & _). unfold worker. by rewrite Hat, ThreadQueue.getExecutor_take, Hq.
Qed.

Lemma check_ends : leads at_check at_kill.
Proof.
  apply worker_ends; [|apply at_check_step|apply at_check_worker].
  intros P (_ & Hat & _). by apply worker_goes; rewrite Hat.
Qed.

Lemma kill_ends : leads at_kill at_start.
Proof.
  apply worker_ends; [|apply at_kill_step|apply at_kill_worker].
  intros P (_ & Hat & _). by apply worker_goes; rewrite Hat.
Qed.

Lemma start_ends : leads at_start (λ P, waits P ∨ ended P).
Proof.
  apply worker_ends; [|apply at_start_step|apply at_start_worker].
  intros P (_ & Hat & _). by apply worker_goes; rewrite Hat.
Qed.

Lemma waits_unless : unless pstep r waits ended.
Proof.
  intros n HP. destruct (run_cases n) as [[_ Hs]|(_ & Hh & Hs)].
  - destruct (waits_worker _ _ Hs HP); auto.
  - right. by eapply waits_step.
Qed.

(** While the worker waits, a process stays where it is or is brought further. *)
Lemma waits_course n p rank :
  waits (state r n) → course (state r n) p rank →
  ended (state r (S n)) ∨
  waits (state r (S n)) ∧
    (course (state r (S n)) p (pred rank) ∨
     course (state r (S n)) p rank ∧ helper (wanted p) rank p ≠ Some (label r n)).
Proof.
  intros Hw Hc. destruct (waits_unless n Hw) as [?|Hw']; [by left|right]. split; [done|].
  destruct (run_cases n) as [[Hl Hs]|(_ & Hh & Hs)].
  - right. split; [|by rewrite Hl; destruct (wanted p), rank as [|[|[|[|[]]]]]].
    unfold course. rewrite (worker_view_same _ _ Hs); [done|..];
      intros Hat; apply wt_at in Hw; by rewrite Hat in Hw.
  - destruct (course_step _ _ _ _ _ Hs Hh (wt_context _ Hw) Hc) as [[_ ?]|[? ?]]; auto.
Qed.

Lemma waits_not_ended P : waits P → ¬ ended P.
Proof. intros Hw [Hat _]. apply wt_at in Hw. by rewrite Hat in Hw. Qed.

(** Who has arrived stays. *)
Lemma course_stays n p :
  waits (state r n) → waits (state r (S n)) → course (state r n) p 0 → course (state r (S n)) p 0.
Proof.
  intros Hw Hw' Hc. by destruct (waits_course n p 0 Hw Hc) as [?%waits_not_ended|(_ & [?|[? _]])].
Qed.

(** The helper of a process on its way can act. *)
Lemma helper_enabled P p rank l :
  course P p rank → helper (wanted p) rank p = Some l → penabled l P.
Proof.
  unfold course. intros Hc Hh.
  destruct (wanted p), rank as [|[|[|[|[]]]]]; try done; injection Hh as <-;
    injection Hc as Hst Hsp Hpr _;
    try (eexists; apply p_command; apply (proj2 (elem_of_multiplicity _ _)); lia);
    (eexists; eapply p_report; [by rewrite <- Hpr|reflexivity|apply report_served; by apply (bool_decide_unpack _)]).
Qed.

Lemma helper_fair want rank p l : helper want rank p = Some l → fair pstep penabled r l.
Proof. destruct want, rank as [|[|[|[|[]]]]]; intros [= <-]; auto. Qed.

(** Every process arrives. *)
Lemma course_arrives p : leads waits (λ P, waits P ∧ course P p 0 ∨ ended P).
Proof.
  assert (∀ rank, rank < 3 + Nat.b2n (wanted p) →
    leads (λ P, waits P ∧ course P p rank) (λ P, waits P ∧ course P p 0 ∨ ended P)) as Hrank.
  { induction rank as [|rank IH]; intros Hlt; [apply leads_to_refl; by left|].
    assert (∃ l, helper (wanted p) (S rank) p = Some l) as [l Hl].
    { revert Hlt. destruct (wanted p), rank as [|[|[|[]]]]; cbn; intros; first [lia|by eexists]. }
    apply (leads_to_trans _ _ _ (λ P, waits P ∧ course P p rank ∨ ended P)).
    - apply (leads_to_fair _ penabled _ l); [by eapply helper_fair|..].
      + intros P [_ Hc]. by eapply helper_enabled.
      + intros n [Hw Hc]. destruct (waits_course n p _ Hw Hc) as [?|(Hw' & [?|[? _]])]; auto.
      + intros n [Hw Hc] Heq. destruct (waits_course n p _ Hw Hc) as [?|(Hw' & [?|[_ Hne]])]; auto.
        destruct Hne. by rewrite Heq.
    - apply leads_to_or; [apply IH; lia|apply leads_to_refl; by right]. }
  intros n Hw. destruct (wt_course _ Hw p) as (rank & Hc & Hlt). by apply (Hrank rank Hlt n).
Qed.

Lemma all_arrive : leads waits (λ P, waits P ∧ arrived P ∨ ended P).
Proof.
  intros n Hw. set (l := elements (A s ∪ dom (procs (state r n)))).
  set (W := λ P, waits P ∧ ∀ p, p ∉ l → course P p 0).
  assert (W (state r n)) as HW.
  { split; [done|]. intros p Hp. unfold l in Hp. rewrite elem_of_elements, not_elem_of_union, not_elem_of_dom in Hp.
    destruct Hp as [HA Hpr]. destruct (wt_course _ Hw p) as (rank & Hc & Hlt).
    pose proof (wanted_spec p) as Hwp. unfold course in *.
    destruct (wanted p); [by destruct HA; apply Hwp|].
    destruct rank as [|[|[|[]]]]; try done; injection Hc as _ _ Hc _; congruence. }
  assert (unless pstep r W ended) as HWu.
  { intros m [Hwm Hall]. destruct (waits_unless m Hwm) as [?|Hw']; [by left|right].
    split; [done|]. intros p Hp. apply course_stays; auto. }
  assert (∀ p, unless pstep r (λ P, W P ∧ course P p 0) ended) as Hstable.
  { intros p m [HWm Hc]. destruct (HWu m HWm) as [?|HW']; [by left|right]. split; [done|].
    apply course_stays; [apply HWm|apply HW'|done]. }
  assert (∀ p, p ∈ l → leads W (λ P, W P ∧ course P p 0 ∨ ended P)) as Hgoal.
  { intros p _ m HWm. destruct (course_arrives p m (proj1 HWm)) as (k & Hk & [[Hwk Hc]|Hend]);
      [|exists k; auto].
    destruct (unless_until pstep r W ended m k HWu Hk HWm) as [(i & ? & ? & ?)|HWk];
      [exists i; split; [lia|by right]|exists k; auto]. }
  destruct (leads_to_all pstep r W ended (λ p P, course P p 0) l Hstable HWu Hgoal n HW)
    as (m & Hm & [[[Hwm Hout] Hin]|Hend]); exists m; (split; [done|]); [left|by right].
  split; [done|]. intros p. destruct (decide (p ∈ l)); auto.
Qed.

(** Then the worker sees it, in at most five of its steps. *)
Definition distance (P : platform) : nat :=
  match at_ (em P) with
  | Change => 5
  | Log => 4
  | Test => if ready P then 1 else 3
  | Body => 2
  | _ => 0
  end.

Lemma worker_distance P P' :
  pstep LWorker P P' → waits P → arrived P → waits P' → distance P' < distance P.
Proof.
  intros Hs Hw Harr Hw'. pose proof (arrived_settled P (wt_context _ Hw) (wt_pending _ Hw) Harr) as Hset.
  apply wt_at in Hw, Hw'. destruct (worker_of _ _ Hs) as [Hc _]. unfold distance.
  worker_cases Hc; rewrite Hat' in Hw |- *; try done; cbn.
  - lia.
  - rewrite Hset. lia.
  - destruct (ready P); [subst c; cbn; lia|]. destruct c; cbn; lia.
  - destruct (iterate_part (m_em (sv (em P)))) as (_ & _ & Hready & _). rewrite Hready, Hset. lia.
  - by rewrite <- Heq in Hw'.
Qed.

Lemma arrival_seen : leads (λ P, waits P ∧ arrived P) ended.
Proof.
  apply (leads_to_measure _ penabled _ LWorker distance); [done|..].
  - intros P [Hw _]. apply wt_at in Hw.
    destruct (worker_goes (λ _ _, true) (em P)) as [σ Hσ]; [by intros Hat; rewrite Hat in Hw..|].
    eexists. by eapply p_worker.
  - intros n [Hw Harr]. destruct (waits_unless n Hw) as [?|Hw']; [by left|right].
    split; [split; [done|intros p; by apply course_stays]|].
    destruct (run_cases n) as [[Hl Hs]|(Hl & Hh & Hs)].
    + pose proof (worker_distance _ _ Hs Hw Harr Hw'). split; [lia|auto].
    + split; [|done]. destruct (other_transition _ _ _ Hs Hl) as [Hpart Hat].
      unfold distance. rewrite Hat, (same_ready _ _ (conj Hpart Hat)). lia.
Qed.

Lemma transition_ends : leads (at_queue Idle) ended.
Proof.
  eapply leads_to_trans; [apply idle_ends|]. eapply leads_to_trans; [apply take_ends|].
  eapply leads_to_trans; [apply check_ends|]. eapply leads_to_trans; [apply kill_ends|].
  eapply leads_to_cancel; [|apply arrival_seen].
  apply (leads_to_trans _ _ _ (λ P, waits P ∨ ended P)); [intros n Hn|].
  { destruct (start_ends n Hn) as (m & ? & ?). by exists m. }
  apply leads_to_or.
  - intros n Hn. destruct (all_arrive n Hn) as (m & ? & [?|?]); exists m; auto.
  - apply leads_to_refl. by right.
Qed.
End transition.

(** ** The theorem *)

(** Nothing is under way: no command is left, and what runs is up and has not been told
    to end. *)
Definition quiet (P : platform) : Prop :=
  jobs P = ∅ ∧ ∀ p pr, procs P !! p = Some pr → pr = mk_process Up false.

(** Commands are not lost, and everybody gets a turn: the worker, the service manager
    for each command, each process that has something to report. *)
Record fair_run `{ServiceManager} (r : run pstep) : Prop := {
  fr_initial : pinitial (state r 0);
  fr_worker : fair pstep penabled r LWorker;
  fr_command j : fair pstep penabled r (LCommand j);
  fr_report p : fair pstep penabled r (LReport p);
  fr_lost n j : label r n ≠ LLost j;
}.

Section theorems.
Context `{ServiceLaws}.

Lemma run_reachable (r : run pstep) n : pinitial (state r 0) → preachable (state r n).
Proof.
  intros Hi. induction n as [|n IH]; [by exists (state r 0)|].
  destruct IH as (P0 & HP0 & Hr). exists P0. split; [done|]. eapply rtc_r; [done|].
  eexists. apply run_step.
Qed.

Lemma preachable_allowed (r : run pstep) n s :
  allowed_for (m_em (sv (em (state r n)))) s = allowed_for (m_em (sv (em (state r 0)))) s.
Proof. induction n as [|n IH]; [done|]. rewrite <- IH. eapply pstep_allowed, run_step. Qed.

Lemma quiet_undisturbed P : quiet P → (∀ p, accurate (view_of P p)) → undisturbed P.
Proof.
  intros [Hj Hp] Ha p. specialize (Ha p). unfold accurate in Ha. cbn in Ha. unfold view_of.
  rewrite Ha, Hj, !multiplicity_empty. destruct (procs P !! p) as [pr|] eqn:Hpr; [right|by left].
  by rewrite (Hp _ _ Hpr).
Qed.

Lemma arrived_quiet s A P :
  arrived s A P → quiet P ∧ dom (procs P) = A s ∧ active (em P) = A s.
Proof.
  intros Ha. assert (∀ p, view_of P p = if wanted s A p then idle_up else nothing) as Hv.
  { intros p. specialize (Ha p). unfold course in Ha. destruct (wanted s A p); cbn in Ha; congruence. }
  clear Ha. split_and!; [split|..].
  - apply gmultiset_eq. intros [p|p]; rewrite multiplicity_empty; specialize (Hv p);
      destruct (wanted s A p); by injection Hv.
  - intros p pr Hp. specialize (Hv p). destruct (wanted s A p); injection Hv as _ _ Hv _; congruence.
  - apply set_eq. intros p. rewrite elem_of_dom, <- wanted_spec. specialize (Hv p).
    destruct (wanted s A p); injection Hv as _ _ -> _; [naive_solver|].
    split; [by intros [? ?]|done].
  - apply set_eq. intros p. rewrite active_view, Hv, <- wanted_spec. by destruct (wanted s A p).
Qed.
End theorems.

(** C4: On the platform, transitions come to their end. On every fair run from the start,
    whatever requests come in between, a transition that is next in the queue when the
    worker is idle and nothing is under way, and is not refused, ends: in success or,
    for the start-up only, with [K_INVALID_REQUEST]. When a state other than Running and
    Suspend has been reached, again nothing is under way, and exactly the processes
    that are allowed in it run and are known to run. (The calls to the client return in
    this model; see [EMClient] for when they do not.) *)
Theorem platform_transition_ends `{ServiceLaws} (r : run pstep) (s : string) (n : nat) :
  fair_run r → plain_names (m_em (sv (em (state r 0)))) →
  at_ (em (state r n)) = Idle → isRunning (sv (em (state r n))) = true →
  head (ThreadQueue.m_methodsQueue (em_queue (sv (em (state r n))))) = Some (Some s) →
  refuses (m_em (sv (em (state r n)))) s = false → quiet (state r n) →
  ∃ m, n ≤ m ∧ at_ (em (state r m)) = Idle ∧ ∃ evs,
    (log (em (state r m)) = evs ++ [Ended s StateError.K_SUCCESS] ∧
       (is_component_state s = false →
          quiet (state r m) ∧
          dom (procs (state r m)) = allowed_for (m_em (sv (em (state r m)))) s ∧
          active (em (state r m)) = allowed_for (m_em (sv (em (state r m)))) s)) ∨
    (log (em (state r m)) = evs ++ [Ended s StateError.K_INVALID_REQUEST] ∧ s = MACHINE_STATE_STARTUP).
Proof.
  intros [Hi Hw Hc Hr Hl] Hplain Hat Hrun Hq Href Hquiet.
  set (A := allowed_for (m_em (sv (em (state r n))))).
  assert (∀ s p, p ∈ A s → c_str p = p) as HA
    by (intros s' p; unfold A; rewrite preachable_allowed; apply Hplain).
  destruct (platform_accurate (state r n) (run_reachable r n Hi)) as [Hn Ha].
  { intros s' p Hp. by apply (HA s'). }
  assert (at_queue s A Idle (state r n)) as Hstart.
  { split_and!; [by split|done|done| |done|by apply quiet_undisturbed].
    destruct (em_queue (sv (em (state r n)))) as [[|x q]]; [done|]. exists q. by injection Hq as ->. }
  destruct (transition_ends s A HA r Hw Hc Hr Hl n Hstart) as (m & Hm & Hidle & evs & res & Hlog & Hres).
  exists m. split; [done|]. split; [done|]. exists evs.
  assert (allowed_for (m_em (sv (em (state r m)))) s = A s) as HAm
    by (unfold A; by rewrite (preachable_allowed r m), (preachable_allowed r n)).
  destruct Hres as [[-> Harr]|[-> Hst]]; [left|by right]. split; [done|]. intros Hcs.
  rewrite HAm. by apply arrived_quiet, Harr.
Qed.
