(* ===== verification/Platform.v ===== *)
(** * The Machine State Manager and the Execution Manager

    Both processes read the machine manifest; one asks for states, the other accepts or
    refuses them. *)

From stdpp Require Import base list gmap strings numbers.
From S2P Require Import Prelude Constants Json Kvs ExecutionManager.
From S2P Require Import MachineStateManager.

(** C30: When both have read the same manifest, every state the Machine State Manager
    asks for, in any run of its program, is declared there, so that the Execution
    Manager, in whatever state it is then, refuses it only when it is the current state.
    The request to shut down, and only this one, is sent without waiting for an answer. *)
Theorem requests_are_declared `{TextLaws} (writable : string → bool) (right_first : bool)
    (registered : StateError.t) (reader : IManifestReader) (states : list string)
    (e : ExecutionManager.t) (s : MSM.t) (m : gmap string string) (x : string) (timeout : Z) :
  getMachineStates reader = Ret states → construct reader = Ret e →
  MSM.m_availableStates s = states → storage_holds s m →
  Forall (λ a, ∃ r, a = Ret r) (MSM.answers s) →
  length (requested states (inputs s m)).1 ≤ length (MSM.answers s) →
  CallSetMachineState x timeout ∈ run_trace (msm_main writable right_first registered s) →
  x ∈ m_machineManifestStates e ∧
  (∀ e', m_machineManifestStates e' = m_machineManifestStates e →
     refuses e' x = bool_decide (x = m_currentState e')) ∧
  (timeout = NO_TIMEOUT ↔ x = MACHINE_STATE_SHUTTINGDOWN).
Proof.
  intros Hst He Hav Hs Hans Hlen Hin. subst states.
  pose proof (msm_main_run writable right_first registered s m Hs Hans Hlen) as Hrun.
  assert (m_machineManifestStates e = MSM.m_availableStates s) as Hm.
  { unfold construct in He. destruct (getStatesSupportedByApplication reader); [|done].
    cbn [mbind outcome_bind] in He. rewrite Hst in He. by injection He as <-. }
  pose proof (requested_elem (MSM.m_availableStates s) (inputs s m) x) as Hel.
  destruct (requested (MSM.m_availableStates s) (inputs s m)) as [rs ended]. cbn [fst] in Hel.
  destruct Hrun as [Htr _]. rewrite Htr in Hin. clear Htr.
  assert (x ∈ rs ∧ timeout = timeout_for x) as [Hx ->].
  { rewrite !elem_of_app in Hin. destruct Hin as [Hin|[Hin|Hin]].
    - exfalso. rewrite !elem_of_cons, elem_of_nil in Hin. by destruct_or! Hin.
    - apply list_elem_of_fmap in Hin as (y & [= -> ->] & Hy). done.
    - exfalso. destruct ended; rewrite ?elem_of_cons, ?elem_of_nil in Hin; by destruct_or? Hin. }
  split; [rewrite Hm; by apply Hel|]. split.
  - intros e' He'. unfold refuses. apply bool_decide_ext. rewrite He', Hm.
    specialize (Hel Hx). tauto.
  - unfold timeout_for. case_decide; [naive_solver|]. split; [done|]. intros ->. done.
Qed.

Definition demo_reader : IManifestReader := {|
  getStatesSupportedByApplication := Ret ∅;
  getMachineStates := Ret demo_states;
|}.

Definition demo_manager : ExecutionManager.t :=
  ExecutionManager.mk ∅ false false ∅ "" "" "" demo_states ∅ ∅ ∅ [].

#[local] Existing Instance Kvs.demo_text.
#[local] Existing Instance Kvs.demo_text_laws.

Lemma requests_are_declared_witness :
  "Running" ∈ m_machineManifestStates demo_manager ∧
  (∀ e', m_machineManifestStates e' = m_machineManifestStates demo_manager →
     refuses e' "Running" = bool_decide ("Running" = m_currentState e')) ∧
  (DEFAULT_RESPONSE_TIMEOUT = NO_TIMEOUT ↔ "Running" = MACHINE_STATE_SHUTTINGDOWN).
Proof.
  apply (requests_are_declared (λ _, true) true StateError.K_SUCCESS demo_reader demo_states
    demo_manager (demo_msm ["Running"]) ∅ "Running" DEFAULT_RESPONSE_TIMEOUT);
    [reflexivity|vm_compute; reflexivity|reflexivity|apply demo_holds|apply demo_answers|vm_compute; lia|].
  assert (run_trace (msm_main (λ _, true) true StateError.K_SUCCESS (demo_msm ["Running"])) !! 4
    = Some (CallSetMachineState "Running" DEFAULT_RESPONSE_TIMEOUT)) as Hl by (vm_compute; reflexivity).
  by apply list_elem_of_lookup_2 in Hl.
Defined.
