(* ===== verification/EMMain.v ===== *)
(** * The Execution Manager's program

    [applications/ExecutionManager/src/em_main.cpp]: from the manifests on the disk to
    the process that serves requests ([EMSystem]). The RPC library's event loop is left
    out; whether it can listen on its address is a parameter. *)

From Stdlib Require Import Ascii.
From stdpp Require Import base list gmap strings.
From S2P Require Import Prelude CppString Constants Common Queues Json JsonLexer JsonParser.
From S2P Require Import JsonRoundTrip ExecutionManager EMServer EMSystem EMUnwinding.
From S2P Require Import Manifests ManifestSchema ManifestReader BaseServer.

(** ** The program *)

Inductive main_call :=
  | IgnoreChildren
  | Unlink (path : string)
  | Listen (address : string).

(** The addresses [ExecutionManagerClient] keeps. *)
Record ExecutionManagerClient := mk_ExecutionManagerClient {
  client_msmAddress : string;
  client_componentAddress : string;
}.

(** How [main] goes on: the process serves requests; or the address cannot be used, a
    [kj::Exception] is on its way to the handler, and the destructor of the server has
    begun: [unwinds] has what follows, and [main] returns from [left]. *)
Inductive main_end :=
  | Serving (client : ExecutionManagerClient) (σ : sys)
  | Unwinding (σ : sys).

(** A reader of manifests does not use the RPC library: the exceptions of the constructor
    are not of the type that [main] catches. The
    server's constructor starts the worker, before the address is listened on. *)
Definition em_main (reader : IManifestReader) (listens : string → bool) :
    cpp unit main_call main_end :=
  emit IgnoreChildren;;
  emit (Unlink EM_SOCKET_NAME);;
  executionManager ← lift (noexcept (construct reader));
  let client := mk_ExecutionManagerClient (IPC_PROTOCOL +:+ MSM_SOCKET_NAME) m_componentAddress in
  let server := construct_server executionManager MsmHandler.init in
  let queued := [Queued None MACHINE_STATE_STARTUP] in
  let address := IPC_PROTOCOL +:+ EM_SOCKET_NAME in
  emit (Listen address);;
  if listens address then mret (Serving client (mk_sys server Idle queued))
  else mret (Unwinding (mk_sys server Idle queued)).

Lemma em_main_run reader listens :
  em_main reader listens tt =
    match noexcept (construct reader) with
    | Ret em =>
        ([IgnoreChildren; Unlink EM_SOCKET_NAME; Listen "unix:/tmp/execution_management"], tt,
         Ret (if listens "unix:/tmp/execution_management"
              then Serving (mk_ExecutionManagerClient "unix:/tmp/machine_management"
                              "unix:/tmp/component_management")
                     (mk_sys (construct_server em MsmHandler.init) Idle
                        [Queued None MACHINE_STATE_STARTUP])
              else Unwinding (mk_sys (construct_server em MsmHandler.init) Idle
                                [Queued None MACHINE_STATE_STARTUP])))
    | Stop w => ([IgnoreChildren; Unlink EM_SOCKET_NAME], tt, Stop w)
    end.
Proof.
  unfold em_main. destruct (noexcept (construct reader)) as [em|w]; [|done].
  cbv [mbind cpp_bind emit lift mret cpp_ret].
  change (IPC_PROTOCOL +:+ EM_SOCKET_NAME) with "unix:/tmp/execution_management".
  by destruct (listens _).
Qed.

(** The process that serves is an initial state of the transition system. *)
Lemma em_main_initial reader listens client σ :
  run_outcome (em_main reader listens tt) = Ret (Serving client σ) → initial σ.
Proof.
  rewrite em_main_run. destruct (construct reader) as [em|[]] eqn:Hc; try done. cbn.
  destruct (listens _); [|done]. intros [= <- <-]. by apply (initial_intro reader).
Qed.

(** The process whose server is being destroyed. *)
Lemma em_main_unwinding reader listens σ :
  run_outcome (em_main reader listens tt) = Ret (Unwinding σ) →
  initial σ ∧ (∃ σ', unwinds σ σ' ∧ left σ') ∧ (∃ σ', unwinds σ σ' ∧ stranded σ') ∧
  ∀ σ', unwinds σ σ' →
    omap confirm_of (log σ') = [] ∧ (stranded σ' ↔ ∀ σ'', unwinds σ' σ'' → ¬ left σ'').
Proof.
  rewrite em_main_run. destruct (construct reader) as [em|[]] eqn:Hc; try done. cbn.
  destruct (listens _); [done|]. intros [= <-]. pose proof (initial_intro reader em Hc) as Hi.
  pose proof (initial_starting reader em Hc) as Hst. split; [done|]. split; [by apply idle_leaves|].
  split; [by apply some_run_strands|]. intros σ' Hu. split; [by apply (unwinding_quiet _ σ' Hi Hu)|].
  by apply stranded_iff; eapply unwinds_starting.
Qed.

(** ** From the files *)

Section files.
Context (strtod : string → Z) (decimal_point_char : ascii) (isfinite : Z → bool)
  (float_text : Z → string).
Context (conf : ManifestReaderConf) (dirs : directories) (fs : file_system).

#[local] Instance json_text : Text := nlohmann_text strtod decimal_point_char isfinite float_text.

(** The file exists and begins with a JSON document of the schema. *)
Definition holds_manifest (s : schema) (path : string) : Prop :=
  ∃ text j, fs path = Some text ∧
    json_parse strtod decimal_point_char isfinite text = Ret j ∧ typed s j = true.

Definition manifest_path (file : string) : string :=
  pathToApplicationsFolder conf +:+ "/" +:+ file +:+ manifestFile.

(** Every entry of the applications' directory is an application with a manifest, and
    there is a machine manifest. *)
Definition installed : Prop :=
  (∃ names, dirs (pathToApplicationsFolder conf) = inr names ∧
     ∀ file, file ∈ names → file ≠ "." → file ≠ ".." →
       holds_manifest application_schema (manifest_path file)) ∧
  holds_manifest machine_schema (machineManifestFilePath conf).

(** Reading a manifest gives a value or throws; a missing file is an empty text, which
    the parser refuses. *)
Lemma read_manifest `{Typed A} path :
  (holds_manifest (schema_of A) path ∧
     ∃ m : A, (content ← getJsonData fs path; from_json content) = Ret m) ∨
  (¬ holds_manifest (schema_of A) path ∧
     ∃ e, (content ← getJsonData fs path; from_json (A := A) content) = Stop (Thrown e)).
Proof.
  change (getJsonData fs path)
    with (json_parse strtod decimal_point_char isfinite (default "" (fs path))).
  unfold holds_manifest. destruct (fs path) as [text|].
  - change (default "" (Some text)) with text. destruct (json_parse strtod decimal_point_char isfinite text) as [j|w] eqn:Hp; cbn [mbind outcome_bind].
    + destruct (typed (schema_of A) j) eqn:Ht.
      * left. split; [by exists text, j|]. by apply reads_iff_typed.
      * right. split; [intros (? & ? & [= <-] & ? & ?); congruence|].
        apply untyped_throws in Ht as (e & _ & He). eauto.
    + right. split; [intros (? & ? & [= <-] & ? & _); congruence|].
      apply json_parse_stop in Hp as [-> | ->]; eauto.
  - right. split; [by intros (? & ? & ? & _)|]. eexists. reflexivity.
Qed.

Lemma readManifests_cases files res :
  ((∀ file, file ∈ files → holds_manifest application_schema (manifest_path file)) ∧
     ∃ res', readManifests conf fs res files = Ret res') ∨
  ((∃ file, file ∈ files ∧ ¬ holds_manifest application_schema (manifest_path file)) ∧
     ∃ e, readManifests conf fs res files = Stop (Thrown e)).
Proof.
  revert res. induction files as [|f files IH]; intros res; cbn [readManifests].
  { left. split; [by intros ? ?%elem_of_nil|by eexists]. }
  unfold readManifest. fold (manifest_path f).
  destruct (read_manifest (A := ApplicationManifest) (manifest_path f)) as [[Hf [m ->]]|[Hf [e ->]]];
    cbn [mbind outcome_bind].
  - destruct (IH (add_manifest res m)) as [[Hall ?]|[(g & Hin & Hg) ?]].
    + left. split; [|done]. by intros g [->|Hin]%elem_of_cons; [|apply Hall].
    + right. split; [|done]. exists g. split; [by right|done].
  - right. split; [|by eexists]. exists f. split; [by left|done].
Qed.

(** The constructor of the Execution Manager either finds an installation or throws. *)
Lemma construct_cases :
  (installed ∧ ∃ em, construct (ManifestReader conf dirs fs) = Ret em) ∨
  (¬ installed ∧ ∃ e, construct (ManifestReader conf dirs fs) = Stop (Thrown e)).
Proof.
  unfold construct, installed. cbn [getStatesSupportedByApplication getMachineStates ManifestReader].
  unfold reader_getStatesSupportedByApplication, getListOfApplications.
  destruct (dirs (pathToApplicationsFolder conf)) as [error|names]; cbn [mbind outcome_bind].
  { right. split; [by intros [(? & ? & _) _]|by eexists]. }
  destruct (readManifests_cases (in_order (list_to_set (filter (λ n, n ≠ "." ∧ n ≠ "..") names))) ∅)
    as [[Hall [res ->]]|[(file & Hin & Hno) [e ->]]]; cbn [mbind outcome_bind].
  - setoid_rewrite elem_of_in_order in Hall. setoid_rewrite elem_of_list_to_set in Hall.
    setoid_rewrite list_elem_of_filter in Hall. unfold reader_getMachineStates.
    destruct (read_manifest (A := MachineManifest) (machineManifestFilePath conf))
      as [[Hm [m Hr]]|[Hm [e Hr]]]; revert Hr;
      destruct (getJsonData fs (machineManifestFilePath conf)) as [content|w]; cbn [mbind outcome_bind];
      try done.
    + intros ->. left. split; [|by eexists]. split; [|done]. exists names. split; [done|].
      intros file Hin ? ?. by apply Hall.
    + intros ->. right. split; [by intros [_ ?]|by eexists].
    + intros [= ->]. right. split; [by intros [_ ?]|by eexists].
  - right. split; [|by eexists]. intros [(? & [= <-] & Hall) _].
    rewrite elem_of_in_order, elem_of_list_to_set, list_elem_of_filter in Hin.
    destruct Hin as ((? & ?) & ?). by apply Hno, Hall.
Qed.
End files.

(** C28: The Execution Manager serves requests exactly when the installation is complete
    and its address is free: every entry of the applications' directory has a manifest
    of the right type, and so does the machine. One entry without it ends the program,
    before it listens, by an exception that nobody catches. When only the address cannot
    be used, the exception has to pass the destructor of the server, whose worker may have
    begun the start-up: no confirmation is sent; the program may end, but it never does
    once the start-up waits for its processes, or the worker for a method, and both
    happen. *)
Theorem em_main_starts_iff (strtod : string → Z) (decimal_point_char : ascii) (isfinite : Z → bool)
    (float_text : Z → string) (conf : ManifestReaderConf) (dirs : directories) (fs : file_system)
    (listens : string → bool) :
  let reader := ManifestReader (H := nlohmann_text strtod decimal_point_char isfinite float_text)
                  conf dirs fs in
  let complete := installed strtod decimal_point_char isfinite conf dirs fs in
  let address := IPC_PROTOCOL +:+ EM_SOCKET_NAME in
  (complete ∧ listens address = true ↔
     ∃ client σ, run_outcome (em_main reader listens tt) = Ret (Serving client σ)) ∧
  (∀ client σ, run_outcome (em_main reader listens tt) = Ret (Serving client σ) →
     initial σ ∧ client_msmAddress client = IPC_PROTOCOL +:+ MSM_SOCKET_NAME ∧
     client_componentAddress client = IPC_PROTOCOL +:+ COMPONENT_SOCKET_NAME) ∧
  (¬ complete ↔ em_main reader listens tt
                  = ([IgnoreChildren; Unlink EM_SOCKET_NAME], tt, Stop Terminated)) ∧
  (complete ∧ listens address = false ↔
     ∃ σ, run_outcome (em_main reader listens tt) = Ret (Unwinding σ)) ∧
  (∀ σ, run_outcome (em_main reader listens tt) = Ret (Unwinding σ) →
     initial σ ∧ (∃ σ', unwinds σ σ' ∧ left σ') ∧ (∃ σ', unwinds σ σ' ∧ stranded σ') ∧
     ∀ σ', unwinds σ σ' →
       omap confirm_of (log σ') = [] ∧ (stranded σ' ↔ ∀ σ'', unwinds σ' σ'' → ¬ left σ'')).
Proof.
  intros reader complete address. split_and!.
  5: { intros σ Hrun. by eapply em_main_unwinding. }
  2: { intros client σ H. split; [by eapply em_main_initial|]. revert H. rewrite em_main_run.
       by repeat case_match; intros [= <- _]. }
  all: rewrite em_main_run; change address with "unix:/tmp/execution_management";
    destruct (construct_cases strtod decimal_point_char isfinite float_text conf dirs fs)
      as [[Hc [em He]]|[Hc [e He]]]; fold complete in Hc; unfold json_text in He; fold reader in He; rewrite He; cbn;
    destruct (listens "unix:/tmp/execution_management"); cbn; naive_solver.
Qed.
