(* ===== verification/Installation.v ===== *)
(** * The shipped installation

    The four manifests of the repository ([applications/*/manifest.json] and
    [applications/ExecutionManager/machine_manifest.json]) as they are, read by the
    parser and the manifest reader, and what the Execution Manager makes of them. *)

From Stdlib Require Import Ascii.
From stdpp Require Import base list gmap strings.
From S2P Require Import Prelude CppString Constants Common Queues Json JsonLexer JsonParser.
From S2P Require Import JsonRoundTrip ExecutionManager ExecutionManagerSpec EMServer EMSystem.
From S2P Require Import Manifests ManifestReader BaseServer EMMain.

(** ** The files *)

Definition AdaptiveApplication1_manifest : string := quoted "{
    'Application_manifest': {
        'Application_manifest_id': 'AdaptiveApplication1',
        'Process': [
            {
                'Mode_dependent_startup_configs': [
                    {
                        'Startup_options': [
                            {
                                'Option_kind': 'commandLineShortForm',
                                'Option_name': 'name',
                                'Option_arg': 'as'
                            }
                        ],
                        'Mode_in_machine_instance_refs': [
                            {
                                'Function_group': 'MachineState',
                                'Mode': 'Starting-up'
                            },
                            {
                                'Function_group': 'MachineState',
                                'Mode': 'Running'
                            },
                            {
                                'Function_group': 'MachineState',
                                'Mode': 'Suspend'
                            }
                        ]
                    }
                ],
                'Process_name': 'proc1'
            }
        ]
    }
  }

".

Definition AdaptiveApplication2_manifest : string := quoted "{
  'Application_manifest': {
      'Application_manifest_id': 'AdaptiveApplication2',
      'Process': [
          {
              'Mode_dependent_startup_configs': [
                  {
                      'Startup_options': [],
                      'Mode_in_machine_instance_refs': [
                        {
                            'Function_group': 'MachineState',
                            'Mode': 'Running'
                        },
                        {
                            'Function_group': 'MachineState',
                            'Mode': 'Suspend'
                        },
                        {
                            'Function_group': 'MachineState',
                            'Mode': 'Living'
                        }
                      ]
                  }
              ],
              'Process_name': 'proc2'
          },
          {
            'Mode_dependent_startup_configs': [
                {
                    'Startup_options': [],
                    'Mode_in_machine_instance_refs': [
                        {
                          'Function_group': 'MachineState',
                          'Mode': 'Living'
                        }
                    ]
                }
            ],
            'Process_name': 'proc3'
        }
      ]
  }
}
".

Definition MachineStateManager_manifest : string := quoted "{
  'Application_manifest': {
      'Application_manifest_id': 'MachineStateManager',
      'Process': [
          {
              'Mode_dependent_startup_configs': [
                  {
                      'Startup_options': [],
                      'Mode_in_machine_instance_refs': [
                          {
                              'Function_group': 'MachineState',
                              'Mode': 'Starting-up'
                          },
                          {
                            'Function_group': 'MachineState',
                            'Mode': 'Running'
                          },
                          {
                            'Function_group': 'MachineState',
                            'Mode': 'Suspend'
                          },
                          {
                            'Function_group': 'MachineState',
                            'Mode': 'Living'
                          }
                      ]
                  }
              ],
              'Process_name': 'msm'
          }
      ]
  }
}
".

Definition machine_manifest_file : string := quoted "{
  'Machine_manifest': {
    'Machine_manifest_id': 'Machine',
    'Mode_declaration_group': [
      {
        'Function_group_name': 'MachineState',
        'Mode_declarations': [
          {
            'Mode': 'Starting-up'
          },
          {
            'Mode': 'Running'
          },
          {
            'Mode': 'Suspend'
          },
          {
            'Mode': 'Living'
          },
          {
            'Mode': 'Shuttingdown'
          }
        ]
      }
    ]
  }
}
".

(** Where the build puts them ([applications/AdaptiveApplication.cmake]); the directory
    is read in any order. *)
Definition shipped (dirs : directories) (fs : file_system) : Prop :=
  (∃ names, dirs "./bin/applications" = inr names ∧
     names ≡ₚ ["."; ".."; "AdaptiveApplication1"; "AdaptiveApplication2"; "MachineStateManager"]) ∧
  fs "./bin/applications/AdaptiveApplication1/manifest.json" = Some AdaptiveApplication1_manifest ∧
  fs "./bin/applications/AdaptiveApplication2/manifest.json" = Some AdaptiveApplication2_manifest ∧
  fs "./bin/applications/MachineStateManager/manifest.json" = Some MachineStateManager_manifest ∧
  fs "../applications/ExecutionManager/machine_manifest.json" = Some machine_manifest_file.

(** ** What the Execution Manager reads *)

Definition shipped_states : list string := ["Starting-up"; "Running"; "Suspend"; "Living"; "Shuttingdown"].

Definition shipped_processes : gmap string (gset string) :=
  {[ "Starting-up" := {[ "AdaptiveApplication1_proc1"; "MachineStateManager_msm" ]};
     "Running" := {[ "AdaptiveApplication1_proc1"; "AdaptiveApplication2_proc2"; "MachineStateManager_msm" ]};
     "Suspend" := {[ "AdaptiveApplication1_proc1"; "AdaptiveApplication2_proc2"; "MachineStateManager_msm" ]};
     "Living" := {[ "AdaptiveApplication2_proc2"; "AdaptiveApplication2_proc3"; "MachineStateManager_msm" ]} ]}.

Definition shipped_em : ExecutionManager.t :=
  mk ∅ false false shipped_processes "" "" "" shipped_states ∅ ∅ ∅ [].

(** The process [name] may run in [states]. *)
Definition shipped_process (name : string) (options : list StartupOption) (states : list string) : Process :=
  mk_Process name [mk_ModeDepStartupConfig (mk_MachineInstanceMode "MachineState" <$> states) options].

Definition shipped_application (id : string) (l : list Process) : ApplicationManifest :=
  mk_ApplicationManifest (mk_ApplicationManifestInternal id l).

(** The order in which the directory is read does not matter. *)
Lemma applications_read (dirs : directories) names apps (X : gset string) :
  dirs "./bin/applications" = inr names → names ≡ₚ "." :: ".." :: apps →
  "." ∉ apps → ".." ∉ apps → X = list_to_set apps → getListOfApplications default_conf dirs = Ret X.
Proof.
  intros Hd Hn Hdot Hdots ->. unfold getListOfApplications.
  change (pathToApplicationsFolder default_conf) with "./bin/applications". rewrite Hd. f_equal.
  apply set_eq. intros x. rewrite !elem_of_list_to_set, list_elem_of_filter, Hn, !elem_of_cons. naive_solver.
Qed.

Section files.
Context (strtod : string → Z) (decimal_point_char : ascii) (isfinite : Z → bool)
  (float_text : Z → string).

#[local] Instance text : Text := nlohmann_text strtod decimal_point_char isfinite float_text.

Definition manifest_in `{Codec A} (s : string) : outcome A := content ← parse s; from_json content.

Lemma AdaptiveApplication1_read :
  manifest_in AdaptiveApplication1_manifest = Ret (shipped_application "AdaptiveApplication1"
    [shipped_process "proc1" [mk_StartupOption commandLineShortForm "name" "as"]
       ["Starting-up"; "Running"; "Suspend"]]).
Proof. vm_compute. reflexivity. Qed.

Lemma AdaptiveApplication2_read :
  manifest_in AdaptiveApplication2_manifest = Ret (shipped_application "AdaptiveApplication2"
    [shipped_process "proc2" [] ["Running"; "Suspend"; "Living"]; shipped_process "proc3" [] ["Living"]]).
Proof. vm_compute. reflexivity. Qed.

Lemma MachineStateManager_read :
  manifest_in MachineStateManager_manifest = Ret (shipped_application "MachineStateManager"
    [shipped_process "msm" [] ["Starting-up"; "Running"; "Suspend"; "Living"]]).
Proof. vm_compute. reflexivity. Qed.

Lemma machine_manifest_read :
  manifest_in machine_manifest_file = Ret (mk_MachineManifest (mk_MachineManifestInternal "Machine"
    [mk_ModeDeclarationGroup "MachineState" (mk_Mode <$> shipped_states)])).
Proof. vm_compute. reflexivity. Qed.

Context (dirs : directories) (fs : file_system).

Lemma machine_states_read :
  fs "../applications/ExecutionManager/machine_manifest.json" = Some machine_manifest_file →
  reader_getMachineStates default_conf fs = Ret shipped_states.
Proof.
  intros Hm. unfold reader_getMachineStates, getJsonData. change (machineManifestFilePath default_conf)
    with "../applications/ExecutionManager/machine_manifest.json".
  rewrite Hm. change (default "" (Some ?x)) with x.
  pose proof machine_manifest_read as Hr. unfold manifest_in in Hr.
  destruct (parse machine_manifest_file) as [content|]; [|done]. cbn [mbind outcome_bind] in *.
  by rewrite Hr.
Qed.

Lemma readManifest_file file s m :
  manifest_in s = Ret m →
  fs (pathToApplicationsFolder default_conf +:+ "/" +:+ file +:+ manifestFile) = Some s →
  readManifest default_conf fs file = Ret m.
Proof. intros Hr Hf. unfold readManifest, getJsonData. rewrite Hf. exact Hr. Qed.

(** The Execution Manager that starts on the shipped files. *)
Lemma shipped_construct :
  shipped dirs fs → construct (ManifestReader default_conf dirs fs) = Ret shipped_em.
Proof.
  intros ((names & Hd & Hn) & H1 & H2 & H3 & Hm).
  unfold construct. cbn [getStatesSupportedByApplication getMachineStates ManifestReader].
  unfold reader_getStatesSupportedByApplication. rewrite (machine_states_read Hm).
  rewrite (applications_read _ _ _ {[ "AdaptiveApplication1"; "AdaptiveApplication2"; "MachineStateManager" ]} Hd Hn)
    by (apply (bool_decide_unpack _); by vm_compute).
  cbn [mbind outcome_bind].
  replace (in_order _) with ["AdaptiveApplication1"; "AdaptiveApplication2"; "MachineStateManager"]
    by (vm_compute; reflexivity).
  cbn [readManifests].
  rewrite (readManifest_file "AdaptiveApplication1" _ _ AdaptiveApplication1_read H1). cbn [mbind outcome_bind].
  rewrite (readManifest_file "AdaptiveApplication2" _ _ AdaptiveApplication2_read H2). cbn [mbind outcome_bind].
  rewrite (readManifest_file "MachineStateManager" _ _ MachineStateManager_read H3). cbn [mbind outcome_bind].
  vm_compute. reflexivity.
Qed.
End files.

(** ** The machine *)

Definition msm : string := "MachineStateManager_msm".

(** The Execution Manager is on the shipped machine, in the state [a], with the
    processes of this state active; before the start-up the state is empty. *)
Definition settled_in (a : string) (e : ExecutionManager.t) : Prop :=
  m_machineManifestStates e = shipped_states ∧
  (∀ s, allowed_for e s = default ∅ (shipped_processes !! s)) ∧
  m_currentState e = a ∧ m_activeProcesses e = default ∅ (shipped_processes !! a).

Lemma shipped_em_settled : settled_in "" shipped_em.
Proof. repeat split. Qed.

Lemma no_processes a :
  a ≠ "Starting-up" → a ∉ ["Running"; "Suspend"; "Living"] → shipped_processes !! a = None.
Proof.
  rewrite !not_elem_of_cons. intros ? (? & ? & ? & _). unfold shipped_processes.
  by rewrite !lookup_insert_ne, lookup_singleton_ne.
Qed.

Lemma accepts_shipped a b e :
  settled_in a e → b ∈ shipped_states → b ≠ a → refuses e b = false.
Proof. intros (Hm & _ & Hc & _) Hb Hne. apply bool_decide_eq_false. rewrite Hm, Hc. tauto. Qed.

(** The start-up is confirmed when the State Manager, which it starts, answers; from a
    state in which it runs already, it is not asked. *)
Lemma starts_shipped alive a b e :
  settled_in a e → b ≠ a → a ∉ ["Running"; "Suspend"; "Living"] ∨ b ≠ MACHINE_STATE_STARTUP →
  (∃ i, (i < timesToPollApps)%nat ∧ alive i msm = true) → start_ok alive e b = true.
Proof.
  intros (_ & Ha & _ & Hact) Hne Hcase (i & Hi & Halive). unfold start_ok. case_decide as Hb; [|done].
  destruct Hcase as [Hno|Hno]; [|done]. subst b. apply critical_alive_true. exists i, msm.
  split; [lia|]. split; [|done]. apply elem_of_in_order. unfold to_start.
  rewrite Ha, Hact, (no_processes a (not_eq_sym Hne) Hno). apply (bool_decide_unpack _). by vm_compute.
Qed.

Lemma startup_refused alive others a e :
  settled_in a e → a ∈ ["Running"; "Suspend"; "Living"] →
  run_outcome (setMachineState alive others MACHINE_STATE_STARTUP e) = Ret StateError.K_INVALID_REQUEST.
Proof.
  intros (Hm & Ha & Hc & Hact) Hin. apply startup_fails.
  - rewrite Hm. apply (bool_decide_unpack _). by vm_compute.
  - rewrite Hc. clear Hc Hact. rewrite !elem_of_cons, elem_of_nil in Hin. by destruct_or! Hin; subst a.
  - intros p. rewrite Ha, Hact. clear Hc Hact. intros Hp Hmsm.
    change (p ∈ ({[ "AdaptiveApplication1_proc1"; msm ]} : gset string)) in Hp.
    apply elem_of_union in Hp as [->%elem_of_singleton | ->%elem_of_singleton].
    + by vm_compute in Hmsm.
    + rewrite !elem_of_cons, elem_of_nil in Hin.
      destruct_or! Hin; subst a; apply (bool_decide_unpack _); by vm_compute.
Qed.

(** C3: The platform as it is shipped runs. From the four manifests of the repository,
    in whatever order their directory is read, the Execution Manager comes up and serves;
    and on this machine a transition between two different states of the five completes,
    with exactly the processes of the manifests active afterwards, provided that the
    processes do as they are told before the loop's second turn and that the State Manager
    answers one of the six polls: except that Starting-up cannot be reached again from
    Running, Suspend or Living, where the State Manager runs already. *)
Theorem shipped_platform_runs (strtod : string → Z) (decimal_point_char : ascii)
    (isfinite : Z → bool) (float_text : Z → string) (dirs : directories) (fs : file_system)
    (listens : string → bool) :
  shipped dirs fs → listens (IPC_PROTOCOL +:+ EM_SOCKET_NAME) = true →
  (∃ client σ, run_outcome (em_main (ManifestReader
       (H := nlohmann_text strtod decimal_point_char isfinite float_text) default_conf dirs fs)
       listens tt) = Ret (Serving client σ) ∧ settled_in "" (m_em (sv σ))) ∧
  ∀ alive a b e batch rest,
    settled_in a e → b ∈ shipped_states → b ≠ a →
    reports_for (to_kill e b) (to_start e b) batch →
    (∃ i, (i < 6)%nat ∧ alive i "MachineStateManager_msm" = true) →
    if decide (b = MACHINE_STATE_STARTUP ∧ a ∈ ["Running"; "Suspend"; "Living"])
    then run_outcome (setMachineState alive (batch :: [] :: rest) b e) = Ret StateError.K_INVALID_REQUEST
    else ∃ tr e', setMachineState alive (batch :: [] :: rest) b e = (tr, e', Ret StateError.K_SUCCESS) ∧
           settled_in b e'.
Proof.
  intros Hs Hl. split.
  - rewrite em_main_run. unfold noexcept.
    pose proof (shipped_construct strtod decimal_point_char isfinite float_text dirs fs Hs) as Hc.
    unfold text in Hc. rewrite Hc.
    change (IPC_PROTOCOL +:+ EM_SOCKET_NAME) with "unix:/tmp/execution_management" in Hl. rewrite Hl.
    do 2 eexists. split; [reflexivity|apply shipped_em_settled].
  - intros alive a b e batch rest Hset Hb Hne Hrep Halive. case_decide as Hcase.
    { destruct Hcase as [-> Hin]. by eapply startup_refused. }
    destruct (transition_completes alive e b batch rest) as (tr & e' & Hrun & Hc & Hact & Hm & Hall).
    + by eapply accepts_shipped.
    + eapply starts_shipped; [done..| |done].
      destruct (decide (b = MACHINE_STATE_STARTUP)); [left; tauto|by right].
    + done.
    + exists tr, e'. split; [done|]. destruct Hset as (Hm0 & Ha0 & _).
      split_and!; [congruence| |done|by rewrite Hact]. intros s. by rewrite Hall.
Qed.

(** A disk with the shipped files. *)
Definition shipped_dirs : directories := λ d,
  if decide (d = "./bin/applications")
  then inr ["MachineStateManager"; ".."; "AdaptiveApplication2"; "."; "AdaptiveApplication1"]
  else inl "No such file or directory".

Definition shipped_disk : file_system := λ f, (list_to_map
  [("./bin/applications/AdaptiveApplication1/manifest.json", AdaptiveApplication1_manifest);
   ("./bin/applications/AdaptiveApplication2/manifest.json", AdaptiveApplication2_manifest);
   ("./bin/applications/MachineStateManager/manifest.json", MachineStateManager_manifest);
   ("../applications/ExecutionManager/machine_manifest.json", machine_manifest_file)]
  : gmap string string) !! f.

Lemma shipped_on_disk : shipped shipped_dirs shipped_disk.
Proof.
  split_and!; try by vm_compute. eexists. split; [reflexivity|].
  apply (bool_decide_unpack _). by vm_compute.
Qed.

(** The processes of [e] do what the transition to [b] asks of them. *)
Definition obedient (e : ExecutionManager.t) (b : string) : list (list request) :=
  [reports_of (to_kill e b) (to_start e b); []].

Definition answering_poll : nat → string → bool := λ _ _, true.

(** The start-up, the transition to Running, and the one back that is refused. *)
Lemma shipped_platform_runs_witness :
  ∃ client σ, run_outcome (em_main (ManifestReader
      (H := nlohmann_text (λ _, 0%Z) "."%char (λ _, true) (λ _, "")) default_conf shipped_dirs shipped_disk)
      (λ _, true) tt) = Ret (Serving client σ) ∧
    let e := m_em (sv σ) in settled_in "" e ∧
    ∃ tr1 e1, setMachineState answering_poll (obedient e "Starting-up") "Starting-up" e
                = (tr1, e1, Ret StateError.K_SUCCESS) ∧ settled_in "Starting-up" e1 ∧
    ∃ tr2 e2, setMachineState answering_poll (obedient e1 "Running") "Running" e1
                = (tr2, e2, Ret StateError.K_SUCCESS) ∧ settled_in "Running" e2 ∧
    run_outcome (setMachineState answering_poll (obedient e2 "Starting-up") "Starting-up" e2)
      = Ret StateError.K_INVALID_REQUEST.
Proof.
  destruct (shipped_platform_runs (λ _, 0%Z) "."%char (λ _, true) (λ _, "") shipped_dirs shipped_disk (λ _, true))
    as [(client & σ & Hrun & Hset) Hgo]; [exact shipped_on_disk|reflexivity|].
  assert (∃ i, (i < 6)%nat ∧ answering_poll i "MachineStateManager_msm" = true) as Halive by (by exists 0%nat; split; [lia|]).
  exists client, σ. split; [exact Hrun|]. cbv zeta. split; [exact Hset|].
  assert ("Starting-up" ∈ shipped_states ∧ "Running" ∈ shipped_states) as [Hin1 Hin2]
    by (split; apply (bool_decide_unpack _); by vm_compute).
  pose proof (Hgo answering_poll "" "Starting-up" (m_em (sv σ)) _ [] Hset Hin1 ltac:(done)
    (reports_of_for _ _) Halive) as H1.
  rewrite decide_False in H1 by (intros [_ Hno]; apply (bool_decide_pack _) in Hno; by vm_compute in Hno).
  destruct H1 as (tr1 & e1 & Hrun1 & Hset1). exists tr1, e1. split; [exact Hrun1|]. split; [exact Hset1|].
  pose proof (Hgo answering_poll "Starting-up" "Running" e1 _ [] Hset1 Hin2 ltac:(done)
    (reports_of_for _ _) Halive) as H2.
  rewrite decide_False in H2 by (intros [Hno _]; discriminate Hno).
  destruct H2 as (tr2 & e2 & Hrun2 & Hset2). exists tr2, e2. split; [exact Hrun2|]. split; [exact Hset2|].
  pose proof (Hgo answering_poll "Running" "Starting-up" e2 _ [] Hset2 Hin1 ltac:(done)
    (reports_of_for _ _) Halive) as H3.
  rewrite decide_True in H3 by (split; [done|by left]). exact H3.
Defined.
