(* ===== verification/PlatformCrash.v ===== *)
(** * Processes that crash

    The platform of [PlatformSystem] with one more kind of step: a process ends without a
    report. Nobody tells the Execution Manager ([isActiveProcess] is only asked during
    the start-up, the units do not ask for a restart): it goes on to believe that the
    process is active, and never starts it again. *)

From Stdlib Require Import Ascii.
From stdpp Require Import base list gmap gmultiset strings relations.
From S2P Require Import Prelude CppString Constants Common Queues ApplicationHandler Lives.
From S2P Require Import ExecutionManager ExecutionManagerSpec EMServer EMSystem EMProgress.
From S2P Require Import PlatformSystem PlatformProgress.

Notation active σ := (m_activeProcesses (m_em (sv σ))).

(** ** The system *)

Inductive clabel := CStep (l : plabel) | CCrash (p : string).

Section crash.
Context `{ServiceManager}.

Inductive cstep : clabel → platform → platform → Prop :=
  | c_step l P P' : pstep l P P' → cstep (CStep l) P P'
  | c_crash p pr P :
      procs P !! p = Some pr →
      cstep (CCrash p) P (mk_platform (em P) (jobs P) (delete p (procs P))).

Definition csteps (P P' : platform) : Prop := rtc (λ P P', ∃ l, cstep l P P') P P'.

Definition creachable (P : platform) : Prop := ∃ P0, pinitial P0 ∧ csteps P0 P.

(** Without a crash. *)
Lemma csteps_psteps P P' : rtc (λ P P', ∃ l, pstep l P P') P P' → csteps P P'.
Proof. apply rtc_subrel. intros P1 P2 [l Hs]. exists (CStep l). by constructor. Qed.

Lemma preachable_creachable P : preachable P → creachable P.
Proof. intros (P0 & Hi & Hr). exists P0. split; [done|by apply csteps_psteps]. Qed.
End crash.

Section invariants.
Context `{ServiceLaws}.

Lemma crash_view p P q :
  view_of (mk_platform (em P) (jobs P) (delete p (procs P))) q
    = if decide (p = q)
      then mk_view (starts (view_of P q)) (stops (view_of P q)) None (is_active (view_of P q))
      else view_of P q.
Proof.
  unfold view_of. cbn. case_decide as Heq; [subst; by rewrite lookup_delete_eq|].
  by rewrite lookup_delete_ne.
Qed.

Lemma cstep_allowed l P P' s :
  cstep l P P' → allowed_for (m_em (sv (em P'))) s = allowed_for (m_em (sv (em P))) s.
Proof. intros [l' P1 P2 Hs|p pr P1 _]; [exact (pstep_allowed _ _ _ s Hs)|done]. Qed.

Lemma cstep_plain l P P' :
  cstep l P P' → plain_names (m_em (sv (em P))) → plain_names (m_em (sv (em P'))).
Proof. intros Hs Hplain s p. rewrite (cstep_allowed _ _ _ s Hs). apply Hplain. Qed.

Lemma cstep_named l P P' : plain_names (m_em (sv (em P))) → named P → cstep l P P' → named P'.
Proof.
  intros Hplain Hn Hs. pose proof (cstep_plain _ _ _ Hs Hplain) as Hplain'.
  destruct Hs as [l' P1 P2 Hs|p pr P1 Hp]; [exact (pstep_named _ _ _ Hplain Hn Hs)|].
  intros q. rewrite crash_view. case_decide as Heq; [|apply Hn]. subst q. left. by eapply named_proc.
Qed.

(** ** What is up counts as active *)

Definition counted (v : view) : Prop := up (proc v) = true → is_active v = true.

Lemma after_counted l p P P' :
  pstep l P P' → counted (view_of P p) → counted (after l p (view_of P p)).
Proof.
  intros Hs. destruct Hs as [alive P σ Hw|r P σ Hr Hs|j P Hj|j P Hj|q pr st next P σ Hq Hnext Hs
    |q pr P σ Hq Hup Hs|q pr P Hq Hlife Hsig|P]; cbn [after]; try done; unfold counted.
  - destruct j; case_decide; try done; cbn; by destruct (procs P !! p).
  - by destruct j; case_decide.
  - case_decide as Heq; [|done]. subst q. unfold after_report. cbn. rewrite Hq. cbn. rewrite Hnext. cbn.
    intros Ha. destruct pr as [[] []]; unfold next_report in Hnext; simplify_eq/=; done.
  - by case_decide.
  - by case_decide.
Qed.

Lemma creachable_counted P :
  creachable P → plain_names (m_em (sv (em P))) → named P ∧ ∀ p, counted (view_of P p).
Proof.
  intros (P0 & Hi & Hr). revert P Hr.
  apply (rtc_ind_r (λ P, plain_names _ → named P ∧ ∀ p, counted (view_of P p))).
  - intros Hplain. destruct (platform_accurate P0) as [Hn Ha]; [by exists P0|done|].
    split; [done|]. intros p Hup. by rewrite (Ha p).
  - intros P P' _ [l Hs] IH Hplain.
    assert (plain_names (m_em (sv (em P)))) as Hplain0
      by (intros s p; rewrite <- (cstep_allowed _ _ _ s Hs); apply Hplain).
    destruct (IH Hplain0) as [Hn Hc]. split; [by eapply cstep_named|]. intros p.
    destruct Hs as [l P P' Hs|q pr P Hq]; [|rewrite crash_view; case_decide; [done|apply Hc]].
    assert (l = LWorker ∨ l ≠ LWorker) as [-> |Hl] by (destruct l; auto).
    + rewrite (worker_view _ _ _ Hs). specialize (Hc p). unfold worker_after.
      destruct (at_ (em P)); try done; by case_decide.
    + rewrite (pstep_view _ _ _ _ Hn Hs Hl). by apply (after_counted l p P P').
Qed.

(** ** A process that has crashed *)

(** Nothing of it runs and no start is under way, but it counts as active. *)
Definition ghost (v : view) : Prop := starts v = 0 ∧ proc v = None ∧ is_active v = true.

Lemma after_ghost l p P P' : pstep l P P' → ghost (view_of P p) → ghost (after l p (view_of P p)).
Proof.
  intros Hs (Hst & Hpr & Ha). cbn in Hpr.
  destruct Hs as [alive P σ Hw|r P σ Hr Hs|j P Hj|j P Hj|q pr st next P σ Hq Hnext Hs
    |q pr P σ Hq Hup Hs|q pr P Hq Hlife Hsig|P]; cbn [after]; try done;
    try (case_decide as Heq; [subst; congruence|done]).
  - apply (proj1 (elem_of_multiplicity _ _)) in Hj. cbn in Hst.
    destruct j; case_decide; subst; try done; [lia|]. split_and!; [done| |done]. cbn. by rewrite Hpr.
  - apply (proj1 (elem_of_multiplicity _ _)) in Hj. cbn in Hst. destruct j; case_decide; subst; try done; lia.
Qed.

Lemma worker_ghost σ p v : p ∈ active σ → ghost v → ghost (worker_after σ p v).
Proof.
  intros Hp (Hst & Hpr & Ha). unfold worker_after. destruct (at_ σ); try done.
  - by case_decide.
  - rewrite decide_False; [done|]. unfold to_start. set_solver.
Qed.

Lemma cstep_ghost l p P P' : named P → cstep l P P' → ghost (view_of P p) → ghost (view_of P' p).
Proof.
  intros Hn Hs Hg. destruct Hs as [l P P' Hs|q pr P Hq].
  - assert (l = LWorker ∨ l ≠ LWorker) as [-> |Hl] by (destruct l; auto).
    + rewrite (worker_view _ _ _ Hs). apply worker_ghost; [|done]. apply active_view, Hg.
    + rewrite (pstep_view _ _ _ _ Hn Hs Hl). by apply (after_ghost l p P P').
  - rewrite crash_view. case_decide; [|done]. by destruct Hg as (? & _ & ?).
Qed.

(** *** The transitions afterwards *)

Section allowed.
Context (A : string → gset string) (p : string).

(** The processes of this state can be complete, or need not be. *)
Definition endable (s : string) : Prop := is_component_state s = true ∨ p ∈ A s.

(** The transition in progress may end, or has not been found complete. *)
Definition lingers (σ : sys) : Prop :=
  match at_ σ with
  | Finish => endable (pending σ)
  | Kill | Start | Change | Log | Test | Body =>
      endable (pending σ) ∨ m_readyToTransitToNextState (m_em (sv σ)) = false
  | _ => True
  end.

(** The transitions that end meanwhile may end. *)
Definition endings (evs : list event) : Prop := ∀ s, Ended s StateError.K_SUCCESS ∈ evs → endable s.

Lemma settled_endable σ :
  (∀ s, allowed_for (m_em (sv σ)) s = A s) → p ∈ active σ → settled (m_em (sv σ)) = true →
  endable (pending σ).
Proof. intros Ha Hp Hset. right. apply settled_spec in Hset. unfold pending. by rewrite <- Ha, <- Hset. Qed.

Local Ltac worker_cases Hw :=
  inversion Hw as [Hat Hgo Heq|st q Hat Hqueue Heq|q Hat Hqueue Heq|st Hat Hr Heq|st Hat Hr Heq|Hat Heq
    |polls Hat Hpl Heq|polls Hat Hpl Hst Heq|e tr Hat Hch Heq|Hat Heq|c Hat Hcont Heq|Hat Heq|Hat Heq].

(** What [lingers] says stays true as long as the process counts as active. *)
Lemma lingers_worker σ σ' :
  worker_case σ σ' → (∀ s, allowed_for (m_em (sv σ)) s = A s) → p ∈ active σ → lingers σ → lingers σ'.
Proof.
  intros Hw Ha Hp. pose proof (settled_endable σ Ha Hp) as Hset. unfold lingers. clear Ha Hp.
  worker_cases Hw; rewrite Hat; cbn [at_ sv log go upd_em m_em]; unfold pending in *; cbn;
    try done; try (by right).
  - rewrite changeComponentsState_run in Hch. by injection Hch as _ <-.
  - intros _. rewrite (proj1 (proj2 (touch_part _))). destruct (settled _) eqn:Hs; [left; by apply Hset|by right].
  - intros [Hl|Hr]; [by destruct c; auto|]. rewrite Hr in Hcont. cbn in Hcont.
    destruct c; [by right|]. left. by destruct (is_component_state _).
  - intros _. destruct (iterate_part (m_em (sv σ))) as (_ & -> & -> & _).
    destruct (settled _) eqn:Hs; [left; by apply Hset|by right].
Qed.

Lemma no_endings evs : omap ended_of evs = [] → endings evs.
Proof.
  intros Hnil s Hin. assert ((s, StateError.K_SUCCESS) ∈ omap ended_of evs) as Hended
    by (apply list_elem_of_omap; by eexists).
  rewrite Hnil in Hended. by apply elem_of_nil in Hended.
Qed.

Lemma no_events σ : ∃ evs, log σ = log σ ++ evs ∧ endings evs.
Proof. exists []. split; [by rewrite app_nil_r|by apply no_endings]. Qed.

Lemma ends_worker σ σ' :
  worker_case σ σ' → lingers σ → ∃ evs, log σ' = log σ ++ evs ∧ endings evs.
Proof.
  unfold lingers. intros Hw Hl.
  worker_cases Hw; rewrite Hat in Hl; (eexists; split; [done|]);
    try (apply no_endings; by rewrite ?ended_of_called).
  - intros s Hin. apply list_elem_of_singleton in Hin. congruence.
  - intros s [Hin|Hin]%elem_of_app.
    + by apply list_elem_of_fmap in Hin as (? & ? & _).
    + apply list_elem_of_singleton in Hin. congruence.
  - intros s Hin. rewrite !elem_of_cons, elem_of_nil in Hin. naive_solver.
Qed.

Lemma served_log r σ σ' : served r σ = Some σ' → ∃ evs, log σ' = log σ ++ evs ∧ endings evs.
Proof.
  unfold served. destruct (handle r (sv σ)) as [[tr s] [res|]]; [|done]. intros [= <-].
  eexists. split; [done|]. apply no_endings. rewrite omap_app, ended_of_called.
  by induction (queued_by r (sv σ)).
Qed.

Record crashed (P : platform) : Prop := {
  cr_ghost : ghost (view_of P p);
  cr_lingers : lingers (em P);
  cr_named : named P;
  cr_plain : plain_names (m_em (sv (em P)));
  cr_allowed s : allowed_for (m_em (sv (em P))) s = A s;
}.

Lemma crashed_step l P P' :
  cstep l P P' → crashed P → crashed P' ∧ ∃ evs, log (em P') = log (em P) ++ evs ∧ endings evs.
Proof.
  intros Hs [Hg Hl Hn Hplain Ha].
  pose proof (cstep_ghost _ _ _ _ Hn Hs Hg) as Hg'. pose proof (cstep_named _ _ _ Hplain Hn Hs) as Hn'.
  pose proof (cstep_plain _ _ _ Hs Hplain) as Hplain'.
  assert (∀ s, allowed_for (m_em (sv (em P'))) s = A s) as Ha'
    by (intros s; by rewrite (cstep_allowed _ _ _ s Hs)).
  destruct Hs as [l P P' Hs|q pr P Hq]; [|split; [done|apply no_events]].
  assert (l = LWorker ∨ l ≠ LWorker) as [-> |Hlab] by (destruct l; auto).
  - destruct (worker_of _ _ Hs) as [Hw _]. split; [|by eapply ends_worker].
    split; try done. eapply lingers_worker; [exact Hw|exact Ha| |done]. apply active_view, Hg.
  - pose proof (other_transition _ _ _ Hs Hlab) as Hsame. split.
    + split; try done. unfold lingers in *. rewrite (proj2 Hsame), (same_pending _ _ Hsame).
      change (m_readyToTransitToNextState (m_em (sv (em P')))) with (ready P').
      by rewrite (same_ready _ _ Hsame).
    + destruct Hs as [alive P σ Hw|r P σ Hr Hs|j P Hj|j P Hj|q pr st next P σ Hq Hnext Hs
        |q pr P σ Hq Hup Hs|q pr P Hq Hlife Hsig|P]; try done; cbn [em];
        try (by eapply served_log); apply no_events.
Qed.

Lemma crashed_steps P P' :
  csteps P P' → crashed P → crashed P' ∧ ∃ evs, log (em P') = log (em P) ++ evs ∧ endings evs.
Proof.
  induction 1 as [P|P P1 P' [l Hs] _ IH]; intros Hc.
  { split; [done|apply no_events]. }
  destruct (crashed_step _ _ _ Hs Hc) as [Hc1 (evs1 & Hlog1 & He1)].
  destruct (IH Hc1) as (Hc' & evs2 & Hlog2 & He2). split; [done|].
  exists (evs1 ++ evs2). split; [by rewrite Hlog2, Hlog1, app_assoc|].
  intros s [Hin|Hin]%elem_of_app; auto.
Qed.
End allowed.
End invariants.

(** C6: The Execution Manager never notices that a process has crashed. On a platform whose
    processes may crash at any moment, let a process that is up, and of which no start is
    under way, crash between two transitions. Whatever happens afterwards, it counts as
    active and does not come up again, and every transition that ends with success is one
    to Running, to Suspend or to a state to which the process belongs. So a transition to
    any other state, such as Shuttingdown for an application of Running, never ends with
    success: it waits for the end of a process that does not exist. *)
Theorem crash_unnoticed `{ServiceLaws} (P P' : platform) (p : string) (pr : process) :
  creachable P → plain_names (m_em (sv (em P))) →
  at_ (em P) = Idle ∨ at_ (em P) = Take →
  procs P !! p = Some pr → life_of pr = Up → StartService p ∉ jobs P →
  csteps (mk_platform (em P) (jobs P) (delete p (procs P))) P' →
  procs P' !! p = None ∧ p ∈ active (em P') ∧
  ∃ evs, log (em P') = log (em P) ++ evs ∧
    ∀ s, Ended s StateError.K_SUCCESS ∈ evs →
      is_component_state s = true ∨ p ∈ allowed_for (m_em (sv (em P))) s.
Proof.
  intros Hr Hplain Hat Hp Hup Hj Hs. destruct (creachable_counted P Hr Hplain) as [Hn Hc].
  pose proof (c_crash p pr P Hp) as Hcrash.
  assert (crashed (allowed_for (m_em (sv (em P)))) p (mk_platform (em P) (jobs P) (delete p (procs P)))) as Hcr.
  { split; [|unfold lingers; cbn; by destruct Hat as [-> | ->]|exact (cstep_named _ _ _ Hplain Hn Hcrash)|done..].
    rewrite crash_view, decide_True by done. split_and!; [|done|].
    - cbn. by apply not_elem_of_multiplicity.
    - apply (Hc p). cbn. rewrite Hp. cbn. by apply bool_decide_eq_true. }
  destruct (crashed_steps _ _ _ _ Hs Hcr) as ([(_ & Hnone & Hact) _ _ _ _] & Hev).
  split_and!; [by cbn in Hnone|by apply active_view|exact Hev].
Qed.
