(* ===== verification/PlatformExamples.v ===== *)
(** * The platform at work

    Executions by evaluation of [pplay], the platform as a function of a schedule: one,
    without the first application, strands a transition for ever; another one, of the
    shipped platform, comes to rest and is the example for the theorem on progress. *)

From Stdlib Require Import Ascii.
From stdpp Require Import base list gmap gmultiset strings relations.
From S2P Require Import Prelude Temporal CppString Constants Common Queues ApplicationHandler Lives.
From S2P Require Import Json JsonLexer JsonParser JsonRoundTrip.
From S2P Require Import ExecutionManager ExecutionManagerSpec EMServer EMSystem EMProgress EMExamples.
From S2P Require Import Manifests ManifestReader EMMain Installation PlatformSystem PlatformProgress PlatformCrash.

(** ** A service manager that keeps its documentation *)

Definition unit_name (u : string) : string :=
  str_take (String.length u - String.length SERVICE_EXTENSION) u.

Definition demo_systemctl : ServiceManager := λ args P,
  match args with
  | [_; _; Some action; Some u; None] =>
      let p := unit_name u in
      match P !! p with
      | Some pr => if decide (action = SYSTEMCTL_STOP) then <[p := mk_process (life_of pr) true]> P else P
      | None => if decide (action = SYSTEMCTL_START) then <[p := mk_process Starting false]> P else P
      end
  | _ => P
  end.

Lemma unit_name_service p : unit_name (p +:+ SERVICE_EXTENSION) = p.
Proof.
  unfold unit_name. rewrite length_str_app.
  replace (_ - _) with (String.length p) by (cbn; lia). apply str_take_app.
Qed.

#[export] Instance demo_systemctl_laws : @ServiceLaws demo_systemctl.
Proof.
  split; intros p P; [|intros pr|intros pr|]; intros Hp;
    unfold systemctl, demo_systemctl, exec_arguments; cbn [convertToNullTerminatingArgv fmap list_fmap app];
    by rewrite unit_name_service, Hp.
Qed.

(** ** Schedules *)

Inductive paction :=
  | AWorker
  | ARequest (r : rpc)
  | ACommand (j : job)
  | AReport (p : string).

Section play.
Context `{ServiceManager}.

Definition pperform (a : paction) (P : platform) : option (plabel * platform) :=
  match a with
  | AWorker =>
      σ ← worker all_alive (em P);
      Some (LWorker, mk_platform σ (jobs P ⊎ list_to_set_disj (calls_since (em P) σ ≫= jobs_of)) (procs P))
  | ARequest r =>
      if is_report r then None
      else σ ← served r (em P); Some (LRequest, mk_platform σ (jobs P) (procs P))
  | ACommand j =>
      if decide (j ∈ jobs P)
      then Some (LCommand j, mk_platform (em P) (jobs P ∖ {[+ j +]}) (systemctl (argv j) (procs P)))
      else None
  | AReport p =>
      pr ← procs P !! p;
      '(st, next) ← next_report pr;
      σ ← served (reportApplicationState_rpc p st) (em P);
      Some (LReport p, mk_platform σ (jobs P) (partial_alter (λ _, next) p (procs P)))
  end.

Fixpoint pplay (acts : list paction) (P : platform) : option (list (plabel * platform)) :=
  match acts with
  | [] => Some []
  | a :: acts => lP ← pperform a P; rest ← pplay acts lP.2; Some (lP :: rest)
  end.

Lemma pperform_step a P l P' : pperform a P = Some (l, P') → pstep l P P'.
Proof.
  destruct a as [|r|j|p]; cbn [pperform]; intros Hp.
  - destruct (worker _ _) as [σ|] eqn:Hw; [|done]. injection Hp as <- <-. by eapply p_worker.
  - destruct (is_report r) eqn:Hr; [done|]. destruct (served _ _) as [σ|] eqn:Hs; [|done].
    injection Hp as <- <-. by eapply p_request.
  - case_decide; [|done]. injection Hp as <- <-. by apply p_command.
  - destruct (procs P !! p) as [pr|] eqn:Hpr; [|done]. cbn in Hp.
    destruct (next_report pr) as [[st next]|] eqn:Hn; [|done]. cbn in Hp.
    destruct (served _ _) as [σ|] eqn:Hs; [|done]. injection Hp as <- <-. by eapply p_report.
Qed.

Lemma pplay_schedule acts P rest : pplay acts P = Some rest → schedule pstep rest P.
Proof.
  revert P rest. induction acts as [|a acts IH]; cbn [pplay]; intros P rest Hp.
  { injection Hp as <-. constructor. }
  destruct (pperform a P) as [[l P']|] eqn:Ha; [|done]. cbn in Hp.
  destruct (pplay acts P') as [rest'|] eqn:Hr; [|done]. injection Hp as <-.
  constructor; [by eapply pperform_step|by apply IH].
Qed.

Lemma schedule_rtc P rest :
  schedule pstep rest P → rtc (λ P P', ∃ l, pstep l P P') P (state_at P rest (length rest)).
Proof.
  induction 1 as [P|l P' rest P Hs Hr IH]; [apply rtc_refl|]. eapply rtc_l; [by exists l|exact IH].
Qed.
End play.

(** Any service manager that keeps its documentation does the same. *)
Lemma systemctl_demo `{ServiceLaws} j P : systemctl (argv j) P = demo_systemctl (argv j) P.
Proof.
  assert (∀ M : ServiceManager, @ServiceLaws M → @systemctl M (argv j) P =
    match j, P !! (match j with StartService p | StopService p => p end) with
    | StartService p, None => <[p := mk_process Starting false]> P
    | StopService p, Some pr => <[p := mk_process (life_of pr) true]> P
    | _, _ => P
    end) as Hall.
  { intros M HM. destruct j as [p|p]; cbn [argv]; destruct (P !! p) as [pr|] eqn:Hp;
      [by eapply start_running|by apply start_stopped|by apply stop_running|by apply stop_stopped]. }
  rewrite (Hall _ _). symmetry. exact (Hall demo_systemctl _).
Qed.

Lemma pplay_demo `{ServiceLaws} acts P : pplay acts P = pplay (H := demo_systemctl) acts P.
Proof.
  revert P. induction acts as [|a acts IH]; intros P; [done|]. cbn [pplay].
  assert (pperform a P = pperform (H := demo_systemctl) a P) as Ha
    by (destruct a; try done; cbn [pperform]; by rewrite systemctl_demo).
  rewrite Ha. destruct (pperform (H := demo_systemctl) a P) as [[l P']|]; [|done]. cbn. by rewrite IH.
Qed.

(** ** The shipped platform *)

Definition boot (e : ExecutionManager.t) : platform :=
  mk_platform (mk_sys (construct_server e MsmHandler.init) Idle [Queued None MACHINE_STATE_STARTUP]) ∅ ∅.

Definition proc1 : string := "AdaptiveApplication1_proc1".
Definition proc2 : string := "AdaptiveApplication2_proc2".
Definition msm_process : string := "MachineStateManager_msm".

(** The start-up: the State Manager registers, the first application is a component. *)
Definition startup_schedule : list paction :=
  replicate 6 AWorker ++
  [ACommand (StartService msm_process); AReport msm_process; ARequest (register_rpc 7 "MSM");
   AReport msm_process] ++
  [ACommand (StartService proc1); ARequest (registerComponent_rpc proc1 StateUpdateMode.K_EVENT);
   AReport proc1; AReport proc1] ++
  replicate 4 AWorker.

(** ** The platform without the first application *)

(** Only the second application and the Machine State Manager are installed. *)
Definition partly_shipped (dirs : directories) (fs : file_system) : Prop :=
  (∃ names, dirs "./bin/applications" = inr names ∧
     names ≡ₚ ["."; ".."; "AdaptiveApplication2"; "MachineStateManager"]) ∧
  fs "./bin/applications/AdaptiveApplication2/manifest.json" = Some AdaptiveApplication2_manifest ∧
  fs "./bin/applications/MachineStateManager/manifest.json" = Some MachineStateManager_manifest ∧
  fs "../applications/ExecutionManager/machine_manifest.json" = Some machine_manifest_file.

Definition partly_em : ExecutionManager.t :=
  mk ∅ false false
    {[ "Starting-up" := {[ msm_process ]};
       "Running" := {[ proc2; msm_process ]};
       "Suspend" := {[ proc2; msm_process ]};
       "Living" := {[ proc2; "AdaptiveApplication2_proc3"; msm_process ]} ]}
    "" "" "" shipped_states ∅ ∅ ∅ [].

Section files.
Context (strtod : string → Z) (decimal_point_char : ascii) (isfinite : Z → bool)
  (float_text : Z → string) (dirs : directories) (fs : file_system).

Notation reader := (ManifestReader (H := nlohmann_text strtod decimal_point_char isfinite float_text)
                      default_conf dirs fs).

Lemma partly_construct : partly_shipped dirs fs → construct reader = Ret partly_em.
Proof.
  intros ((names & Hd & Hn) & H2 & H3 & Hm).
  unfold construct. cbn [getStatesSupportedByApplication getMachineStates ManifestReader].
  unfold reader_getStatesSupportedByApplication.
  pose proof (machine_states_read strtod decimal_point_char isfinite float_text fs Hm) as Hst.
  unfold text in Hst. rewrite Hst.
  rewrite (applications_read _ _ _ {[ "AdaptiveApplication2"; "MachineStateManager" ]} Hd Hn)
    by (apply (bool_decide_unpack _); by vm_compute).
  cbn [mbind outcome_bind].
  replace (in_order _) with ["AdaptiveApplication2"; "MachineStateManager"] by (vm_compute; reflexivity).
  pose proof (readManifest_file strtod decimal_point_char isfinite float_text fs "AdaptiveApplication2"
    _ _ (AdaptiveApplication2_read strtod decimal_point_char isfinite float_text) H2) as R2.
  pose proof (readManifest_file strtod decimal_point_char isfinite float_text fs "MachineStateManager"
    _ _ (MachineStateManager_read strtod decimal_point_char isfinite float_text) H3) as R3.
  unfold text in R2, R3. cbn [readManifests]. rewrite R2. cbn [mbind outcome_bind]. rewrite R3.
  cbn [mbind outcome_bind]. vm_compute. reflexivity.
Qed.
End files.

(** A disk with these files. *)
Definition partly_dirs : directories := λ d,
  if decide (d = "./bin/applications")
  then inr [".."; "MachineStateManager"; "AdaptiveApplication2"; "."]
  else inl "No such file or directory".

Lemma partly_on_disk : partly_shipped partly_dirs shipped_disk.
Proof.
  split_and!; try by vm_compute. eexists. split; [reflexivity|].
  apply (bool_decide_unpack _). by vm_compute.
Qed.

(** After the start-up the State Manager requests Running. No component is registered, so
    it is confirmed at once; Shuttingdown is requested, and the processes that are active
    are ordered to stop, before the second application has come up. *)
Definition stranding_schedule : list paction :=
  replicate 6 AWorker ++
  [ACommand (StartService msm_process); AReport msm_process; ARequest (register_rpc 7 "MSM");
   AReport msm_process] ++
  replicate 4 AWorker ++
  [ARequest (setMachineState_rpc 7 "Running")] ++ replicate 11 AWorker ++
  [ARequest (setMachineState_rpc 7 "Shuttingdown")] ++ replicate 5 AWorker ++
  [ACommand (StartService proc2); ARequest (registerComponent_rpc proc2 StateUpdateMode.K_POLL);
   AReport proc2; AReport proc2].

(** ** A transition that never ends *)

Section stranded.
Context `{ServiceLaws}.

(** The worker waits, outside Running and Suspend, while a process runs that is not
    allowed and that nobody has told to end. *)
Record stranded (s p : string) (P : platform) : Prop := {
  sd_at : at_ (em P) ∈ [Log; Test; Body];
  sd_pending : pending (em P) = s;
  sd_state : is_component_state s = false;
  sd_ready : at_ (em P) = Log ∨ m_readyToTransitToNextState (m_em (sv (em P))) = false;
  sd_process : view_of P p = idle_up;
  sd_allowed : p ∉ allowed_for (m_em (sv (em P))) s;
  sd_named : named P;
  sd_plain : plain_names (m_em (sv (em P)));
}.

Lemma stranded_unsettled s p P : stranded s p P → settled (m_em (sv (em P))) = false.
Proof.
  intros [_ Hp _ _ Hv Ha _ _]. apply not_true_iff_false. rewrite settled_spec. intros Heq.
  apply Ha. unfold pending in Hp. rewrite <- Hp, <- Heq. apply active_view. by rewrite Hv.
Qed.

(** What is up and not told to end stays so; the loss of commands does not matter. *)
Lemma idle_up_step l P P' p :
  named P → pstep l P P' → l ≠ LWorker → view_of P p = idle_up → view_of P' p = idle_up.
Proof.
  intros Hn Hs Hl Hv. assert ((∃ j, l = LLost j) ∨ ∀ j, l ≠ LLost j) as [[j ->]|Hlost]
    by (destruct l; first [by right|by left; eexists]).
  - rewrite (pstep_view _ _ _ _ Hn Hs Hl), Hv. inversion Hs as [| | |? ? Hj| | | |]; subst.
    apply (proj1 (elem_of_multiplicity _ _)) in Hj. injection Hv as Hst Hsp _ _.
    destruct j; cbn [after]; case_decide; subst; (done || lia).
  - destruct (expected_step _ _ _ p true 0 Hn Hs Hl Hlost) as [[? _]|[_ ->]]; by rewrite ?Hv.
Qed.

Lemma stranded_worker s p P P' :
  pstep LWorker P P' → stranded s p P →
  at_ (em P') ∈ [Log; Test; Body] ∧ pending (em P') = s ∧
  (at_ (em P') = Log ∨ m_readyToTransitToNextState (m_em (sv (em P'))) = false).
Proof.
  intros [Hw _]%worker_of Hst. pose proof (stranded_unsettled _ _ _ Hst) as Hun.
  destruct Hst as [Hat Hp Hc Hr _ _ _ _]. rewrite !elem_of_cons, elem_of_nil in Hat.
  destruct Hat as [Hat|[Hat|[Hat|[]]]]; rewrite Hat in Hr;
    inversion Hw as [Hat' _ Heq|st q Hat' _ Heq|q Hat' _ Heq|st Hat' _ Heq|st Hat' _ Heq|Hat' Heq
      |polls Hat' _ Heq|polls Hat' _ _ Heq|e tr Hat' _ Heq|Hat' Heq|c Hat' Hcont Heq|Hat' Heq|Hat' Heq];
    try congruence; unfold pending in *; cbn [go em sv at_ m_em].
  - split_and!; [set_solver|cbn; by rewrite (proj1 (proj2 (touch_part (m_em (sv (em P))))))|by right].
  - destruct Hr as [|Hr]; [done|]. rewrite Hr, Hp, Hc in Hcont. cbn in Hcont. rewrite Hcont.
    split_and!; [set_solver|done|by right].
  - destruct (iterate_part (m_em (sv (em P)))) as (_ & Hip & Hready & _).
    split_and!; [set_solver|by cbn; rewrite Hip|right; by cbn; rewrite Hready].
Qed.

Lemma stranded_step s p l P P' : pstep l P P' → stranded s p P → stranded s p P'.
Proof.
  intros Hs Hst. pose proof Hst as [Hat Hp Hc Hr Hv Ha Hn Hplain].
  assert (plain_names (m_em (sv (em P')))) as Hplain'
    by (intros s' q; rewrite (pstep_allowed _ _ _ s' Hs); apply Hplain).
  pose proof (pstep_named _ _ _ Hplain Hn Hs) as Hn'.
  assert (p ∉ allowed_for (m_em (sv (em P'))) s) as Ha' by (by rewrite (pstep_allowed _ _ _ s Hs)).
  assert (l = LWorker ∨ l ≠ LWorker) as [-> |Hl] by (destruct l; auto).
  - destruct (stranded_worker _ _ _ _ Hs Hst) as (? & ? & ?). split; try done.
    rewrite (worker_view_same _ _ Hs); [done|..]; intros Heq; rewrite Heq in Hat;
      rewrite !elem_of_cons, elem_of_nil in Hat; by destruct_or! Hat.
  - pose proof (other_transition _ _ _ Hs Hl) as Hsame. split; try done.
    + by rewrite (proj2 Hsame).
    + by rewrite (same_pending _ _ Hsame).
    + by rewrite (proj2 Hsame), (same_ready _ _ Hsame).
    + exact (idle_up_step _ _ _ _ Hn Hs Hl Hv).
Qed.

Lemma stranded_forever s p P P' :
  rtc (λ P P', ∃ l, pstep l P P') P P' → stranded s p P → stranded s p P'.
Proof. induction 1 as [|P P1 P' [l Hs] _ IH]; [done|]. intros Hst. by eapply IH, stranded_step. Qed.
End stranded.

(** The state of a schedule's end. *)
Definition plays_to `{ServiceManager} (acts : list paction) (P : platform) : platform :=
  match pplay acts P with Some rest => state_at P rest (length rest) | None => P end.

Lemma plays_to_rtc `{ServiceManager} acts P : rtc (λ P P', ∃ l, pstep l P P') P (plays_to acts P).
Proof.
  unfold plays_to. destruct (pplay acts P) as [rest|] eqn:Hp; [|apply rtc_refl].
  by eapply schedule_rtc, pplay_schedule.
Qed.

Lemma plays_to_demo `{ServiceLaws} acts P : plays_to acts P = plays_to (H := demo_systemctl) acts P.
Proof. unfold plays_to. by rewrite pplay_demo. Qed.

(** Every name of the manifests is a C string. *)
Lemma plain_manifests e :
  bool_decide (map_Forall (λ _ X, set_Forall (λ p, c_str p = p) X) (m_allowedProcessesForState e)) = true →
  plain_names e.
Proof.
  rewrite bool_decide_eq_true. intros Hall s p. unfold allowed_for.
  destruct (_ !! s) as [X|] eqn:Hs; [|set_solver]. cbn. revert p. exact (Hall s X Hs).
Qed.

Lemma shipped_plain : plain_names shipped_em.
Proof. apply plain_manifests. by vm_compute. Qed.

Lemma boot_initial : pinitial (boot shipped_em).
Proof.
  split; [|done]. apply (initial_intro (ManifestReader
    (H := nlohmann_text (λ _, 0%Z) "."%char (λ _, true) (λ _, "")) default_conf shipped_dirs shipped_disk)).
  apply shipped_construct, shipped_on_disk.
Qed.

Lemma partly_boot_initial : pinitial (boot partly_em).
Proof.
  split; [|done]. apply (initial_intro (ManifestReader
    (H := nlohmann_text (λ _, 0%Z) "."%char (λ _, true) (λ _, "")) default_conf partly_dirs shipped_disk)).
  apply partly_construct, partly_on_disk.
Qed.

Lemma rtc_allowed `{ServiceLaws} P P' s :
  rtc (λ P P', ∃ l, pstep l P P') P P' →
  allowed_for (m_em (sv (em P'))) s = allowed_for (m_em (sv (em P))) s.
Proof. induction 1 as [|P P1 P' [l Hl] _ IH]; [done|]. rewrite IH. by eapply pstep_allowed. Qed.

(** What is reached from the start has the invariants of the platform. *)
Lemma played_invariants `{ServiceLaws} e acts :
  pinitial (boot e) → plain_names e →
  preachable (plays_to acts (boot e)) ∧ plain_names (m_em (sv (em (plays_to acts (boot e))))).
Proof.
  intros Hi Hplain. split.
  - exists (boot e). split; [done|apply plays_to_rtc].
  - intros s p. rewrite (rtc_allowed _ _ _ (plays_to_rtc acts (boot e))). apply Hplain.
Qed.

Definition stranded_platform : platform :=
  plays_to (H := demo_systemctl) stranding_schedule (boot partly_em).

Lemma stranded_platform_stranded `{ServiceLaws} : stranded "Shuttingdown" proc2 stranded_platform.
Proof.
  assert (stranded_platform = plays_to stranding_schedule (boot partly_em)) as Heq
    by (by rewrite plays_to_demo).
  destruct (played_invariants partly_em stranding_schedule partly_boot_initial) as [Hr Hplain];
    [by apply plain_manifests; vm_compute|].
  pose proof (plays_to_rtc stranding_schedule (boot partly_em)) as Hrtc.
  rewrite <- Heq in Hr, Hplain, Hrtc. split.
  - apply (bool_decide_unpack _). by vm_compute.
  - by vm_compute.
  - reflexivity.
  - right. by vm_compute.
  - by vm_compute.
  - rewrite (rtc_allowed _ _ _ Hrtc). apply (bool_decide_unpack _). by vm_compute.
  - by apply platform_accurate.
  - exact Hplain.
Qed.

(** C5: A transition can wait for ever for a process that nobody stops. On the platform
    with the second application and the State Manager, the start-up completes; the State
    Manager requests Running, which is confirmed at once, because no component is
    registered, and before the second application, started for it, has come up; it
    requests Shuttingdown, for which the processes that are active now are told to end,
    and the second application is not one of them. From then on, whatever happens, the
    worker stays in the loop of this transition, and the application runs. *)
Theorem transition_stranded `{ServiceLaws} (strtod : string → Z) (decimal_point_char : ascii)
    (isfinite : Z → bool) (float_text : Z → string) (dirs : directories) (fs : file_system) :
  partly_shipped dirs fs →
  ∃ e P,
    construct (ManifestReader (H := nlohmann_text strtod decimal_point_char isfinite float_text)
      default_conf dirs fs) = Ret e ∧
    rtc (λ P P', ∃ l, pstep l P P') (boot e) P ∧
    omap ended_of (log (em P)) = [("Starting-up", StateError.K_SUCCESS); ("Running", StateError.K_SUCCESS)] ∧
    ∀ P', rtc (λ P P', ∃ l, pstep l P P') P P' →
      pending (em P') = "Shuttingdown" ∧ at_ (em P') ∈ [Log; Test; Body] ∧
      procs P' !! proc2 = Some (mk_process Up false).
Proof.
  intros Hs. exists partly_em, stranded_platform. split_and!.
  - by apply partly_construct.
  - unfold stranded_platform. rewrite <- plays_to_demo. apply plays_to_rtc.
  - vm_compute. reflexivity.
  - intros P' Hr. destruct (stranded_forever _ _ _ _ Hr stranded_platform_stranded) as [Hat Hp _ _ Hv _ _ _].
    split_and!; [done|done|]. by injection Hv.
Qed.

Lemma transition_stranded_witness :
  ∃ e P,
    construct (ManifestReader (H := nlohmann_text (λ _, 0%Z) "."%char (λ _, true) (λ _, ""))
      default_conf partly_dirs shipped_disk) = Ret e ∧
    rtc (λ P P', ∃ l, pstep (H := demo_systemctl) l P P') (boot e) P ∧
    omap ended_of (log (em P)) = [("Starting-up", StateError.K_SUCCESS); ("Running", StateError.K_SUCCESS)] ∧
    ∀ P', rtc (λ P P', ∃ l, pstep (H := demo_systemctl) l P P') P P' →
      pending (em P') = "Shuttingdown" ∧ at_ (em P') ∈ [Log; Test; Body] ∧
      procs P' !! proc2 = Some (mk_process Up false).
Proof.
  apply (transition_stranded (H := demo_systemctl) (H0 := demo_systemctl_laws)
    (λ _, 0%Z) "."%char (λ _, true) (λ _, "") partly_dirs shipped_disk).
  exact partly_on_disk.
Defined.

(** In the platform above, what is up are two processes. *)
Lemma platform_active_accurate_witness :
  m_activeProcesses (m_em (sv (em stranded_platform))) = {[ proc2; msm_process ]} ∧
  ∀ p, p ∈ m_activeProcesses (m_em (sv (em stranded_platform))) ↔
    ∃ pr, procs stranded_platform !! p = Some pr ∧ life_of pr = Up.
Proof.
  split; [apply (bool_decide_unpack _); by vm_compute|].
  destruct (played_invariants (H := demo_systemctl) partly_em stranding_schedule partly_boot_initial)
    as [Hr Hplain]; [by apply plain_manifests; vm_compute|].
  exact (proj1 (platform_active_accurate (H := demo_systemctl) stranded_platform Hr Hplain)).
Defined.

(** ** A run that comes to rest *)

Section comes_to_rest.
Context `{ServiceManager}.

Lemma pplay_not_lost acts P rest l P' j : pplay acts P = Some rest → (l, P') ∈ rest → l ≠ LLost j.
Proof.
  revert P rest. induction acts as [|a acts IH]; cbn [pplay]; intros P rest Hp Hin.
  { injection Hp as <-. by apply elem_of_nil in Hin. }
  destruct (pperform a P) as [[l1 P1]|] eqn:Ha; [|done]. cbn in Hp.
  destruct (pplay acts P1) as [rest'|] eqn:Hr; [|done]. injection Hp as <-.
  apply elem_of_cons in Hin as [[= -> ->]|Hin]; [|by eapply IH].
  destruct a as [|r|k|p]; cbn [pperform] in Ha.
  - destruct (worker _ _); [by injection Ha as <- _|done].
  - destruct (is_report r); [done|]. destruct (served _ _); [by injection Ha as <- _|done].
  - case_decide; [by injection Ha as <- _|done].
  - destruct (procs P !! p) as [pr|]; [|done]. cbn in Ha.
    destruct (next_report pr) as [[st next]|]; [|done]. cbn in Ha.
    destruct (served _ _); [by injection Ha as <- _|done].
Qed.

(** Nobody can go on: the worker waits for a request, no command is left, what runs has
    nothing to report. *)
Definition at_rest (P : platform) : Prop :=
  at_ (em P) = Take ∧ em_queue (sv (em P)) = ThreadQueue.mk [] ∧ quiet P.

Lemma rest_worker P : at_rest P → ¬ penabled LWorker P.
Proof.
  intros (Hat & Hq & _) [P' Hs]. inversion Hs as [alive ? σ Hw| | | | | | |]; subst.
  unfold worker in Hw. by rewrite Hat, ThreadQueue.getExecutor_take, Hq in Hw.
Qed.

Lemma rest_command P j : at_rest P → ¬ penabled (LCommand j) P.
Proof.
  intros (_ & _ & Hj & _) [P' Hs]. inversion Hs as [| |? ? Hin| | | | |]; subst.
  rewrite Hj in Hin. by apply gmultiset_not_elem_of_empty in Hin.
Qed.

Lemma rest_report P p : at_rest P → ¬ penabled (LReport p) P.
Proof.
  intros (_ & _ & _ & Hp) [P' Hs]. inversion Hs as [| | | |? pr st next ? σ Hpr Hnext _| | |]; subst.
  by rewrite (Hp _ _ Hpr) in Hnext.
Qed.

(** A schedule after which nobody can go on is a fair run. *)
Lemma rest_fair_run acts P rest (Hp : pplay acts P = Some rest) :
  pinitial P → at_rest (state_at P rest (length rest)) →
  fair_run (resting pstep LIdle p_idle P rest (pplay_schedule _ _ _ Hp)).
Proof.
  intros Hi Hrest. split.
  - change (pinitial (state_at P rest 0)). by replace (state_at P rest 0) with P by (by destruct rest as [|[]]).
  - by apply resting_fair, rest_worker.
  - intros j. by apply resting_fair, rest_command.
  - intros p. by apply resting_fair, rest_report.
  - intros n j. cbn. unfold label_at. destruct (rest !! n) as [[l P']|] eqn:Hn; [|done].
    eapply pplay_not_lost; [exact Hp|]. by eapply list_elem_of_lookup_2.
Qed.
End comes_to_rest.

Definition startup_states : list (plabel * platform) :=
  default [] (pplay (H := demo_systemctl) startup_schedule (boot shipped_em)).

Lemma startup_plays : pplay (H := demo_systemctl) startup_schedule (boot shipped_em) = Some startup_states.
Proof.
  assert (isSome (pplay (H := demo_systemctl) startup_schedule (boot shipped_em)) = true) as Hs by by vm_compute.
  unfold startup_states. by destruct (pplay _ _).
Qed.

Definition startup_run : run (pstep (H := demo_systemctl)) :=
  resting _ LIdle (p_idle (H := demo_systemctl)) (boot shipped_em) startup_states
    (pplay_schedule (H := demo_systemctl) _ _ _ startup_plays).

Lemma startup_at_rest : at_rest (state_at (boot shipped_em) startup_states (length startup_states)).
Proof.
  split_and!; [by vm_compute|by vm_compute|].
  split; [apply (bool_decide_unpack _); by vm_compute|].
  assert (map_Forall (λ _ pr, pr = mk_process Up false)
    (procs (state_at (boot shipped_em) startup_states (length startup_states)))) as Hall
    by (apply (bool_decide_unpack _); by vm_compute).
  exact Hall.
Qed.

(** The start-up of the shipped platform ends. *)
Lemma platform_transition_ends_witness :
  ∃ m, 0 ≤ m ∧ at_ (em (state startup_run m)) = Idle ∧ ∃ evs,
    (log (em (state startup_run m)) = evs ++ [Ended "Starting-up" StateError.K_SUCCESS] ∧
       (is_component_state "Starting-up" = false →
          quiet (state startup_run m) ∧
          dom (procs (state startup_run m))
            = allowed_for (m_em (sv (em (state startup_run m)))) "Starting-up" ∧
          m_activeProcesses (m_em (sv (em (state startup_run m))))
            = allowed_for (m_em (sv (em (state startup_run m)))) "Starting-up")) ∨
    (log (em (state startup_run m)) = evs ++ [Ended "Starting-up" StateError.K_INVALID_REQUEST] ∧
       "Starting-up" = MACHINE_STATE_STARTUP).
Proof.
  apply (platform_transition_ends (H := demo_systemctl) (H0 := demo_systemctl_laws) startup_run "Starting-up" 0).
  - apply rest_fair_run; [apply boot_initial|apply startup_at_rest].
  - exact shipped_plain.
  - reflexivity.
  - reflexivity.
  - reflexivity.
  - reflexivity.
  - split; [reflexivity|]. by intros p pr Hp.
Defined.

(** ** A crash *)

(** After the start-up the first application crashes; the State Manager requests
    Shuttingdown and ends, and the worker goes on. *)
Definition started_platform : platform := plays_to (H := demo_systemctl) startup_schedule (boot shipped_em).

Definition after_crash : platform :=
  mk_platform (em started_platform) (jobs started_platform) (delete proc1 (procs started_platform)).

Definition closing_schedule : list paction :=
  [ARequest (setMachineState_rpc 7 "Shuttingdown")] ++ replicate 3 AWorker ++
  [ACommand (StopService msm_process); ACommand (StopService proc1); AReport msm_process] ++
  replicate 9 AWorker.

Definition closed_platform : platform := plays_to (H := demo_systemctl) closing_schedule after_crash.

(** A transition to Running, to which the crashed process belongs, is confirmed without it. *)
Definition running_schedule : list paction :=
  [ARequest (setMachineState_rpc 7 "Running")] ++ replicate 6 AWorker ++
  [ACommand (StartService proc2); AReport proc2; AReport proc2] ++ replicate 4 AWorker.

Example confirmed_without_it :
  let P := plays_to (H := demo_systemctl) running_schedule after_crash in
  m_currentState (m_em (sv (em P))) = "Running" ∧ procs P !! proc1 = None ∧
  bool_decide (proc1 ∈ m_activeProcesses (m_em (sv (em P)))) = true ∧
  last (log (em P)) = Some (Ended "Running" StateError.K_SUCCESS).
Proof. by vm_compute. Qed.

Lemma crash_unnoticed_witness :
  procs closed_platform = ∅ ∧ at_ (em closed_platform) ∈ [Test; Body] ∧
  pending (em closed_platform) = "Shuttingdown" ∧
  procs closed_platform !! proc1 = None ∧ proc1 ∈ m_activeProcesses (m_em (sv (em closed_platform))) ∧
  ∃ evs, log (em closed_platform) = log (em started_platform) ++ evs ∧
    ∀ s, Ended s StateError.K_SUCCESS ∈ evs →
      is_component_state s = true ∨ proc1 ∈ allowed_for (m_em (sv (em started_platform))) s.
Proof.
  split; [apply (bool_decide_unpack _); by vm_compute|].
  split; [apply (bool_decide_unpack _); by vm_compute|]. split; [by vm_compute|].
  destruct (played_invariants (H := demo_systemctl) shipped_em startup_schedule boot_initial shipped_plain)
    as [Hr Hplain].
  apply (crash_unnoticed (H := demo_systemctl) started_platform closed_platform proc1 (mk_process Up false)).
  - by apply preachable_creachable.
  - exact Hplain.
  - right. by vm_compute.
  - by vm_compute.
  - reflexivity.
  - apply (bool_decide_unpack _). by vm_compute.
  - eapply csteps_psteps, plays_to_rtc.
Defined.
